(* ===== verification/_CoqProject ===== *)
-Q . S2P
Prelude.v
Control.v
Random.v
Plan.v
Runner.v
RunnerFacts.v
Traversal.v
RunnerSafety.v
Completion.v
Scenarios.v
RunnerInvariant.v
RunnerControl.v
Token.v
Scheduler.v
DeadlineFuture.v
Coordination.v
Critical.v
Barrier.v
Timing.v
Wire.v
BridgeTypes.v
FrameCodec.v
FrameFacts.v
FrameProps.v
Handshake.v
HandshakeFacts.v
Negotiation.v
Throughput.v
ThroughputProps.v
SyncTimer.v
SyncTimerProps.v
Csv.v
CsvProps.v
CsvHeader.v
CsvDates.v
SaveConfig.v
SaveConfigProps.v
Logic.v
LogicTree.v
LogicSafe.v
LogicInv.v
LogicRandom.v
LogicPlay.v
LogicProps.v
ModelTree.v
ModelForest.v
ModelRefine.v
ModelOps.v
ModelSteps.v
ModelWalk.v
ModelPaths.v
ModelTreeProps.v
Lifecycle.v
LifecycleProps.v
Leases.v
LeasesProps.v
UserRun.v
UserRunProps.v
