(* ===== verification/Prelude.v ===== *)
(** * jmeter-rs: a verification development

    jmeter-rs is a load-testing engine in Rust that executes Apache JMeter test
    plans.  A plan is read (crates [jmx], [model]), compiled to controller
    programs and sampler scopes (crate [runtime]), and executed by virtual
    users: each user has a controller runner that walks its program and yields
    the next sampler; a scheduler and cancellation tokens decide when a user
    may go on and when it has to stop; coordinators make users wait for each
    other; samplers (crates [http], [http-native], [plugin-host], ...) produce
    sample results with timing (crate [results]), which listeners and reports
    consume.  The development models the executor-neutral core of that engine,
    the part in which correctness is a matter of state machines and not of
    input and output, and the wire protocol (crate [bridge-protocol]) by which
    it talks to workers in other processes.

    ** Files and what they model

    - [Prelude] (this file): machine integers, results, the state-and-error
      monad, tactics and hints, generic lemmas.
    - [Control]: [ControlSignal] and [Cancellation] of
      [crates/runtime/src/controllers.rs].  [request] is modelled twice: as
      one atomic operation, and (module [CasLoop]) as the loop of loads and
      compare-and-swaps that implements it, under every interleaving of its
      callers.
    - [Random]: [next_seeded_value] (SplitMix64) and [uniform_index].
    - [Plan]: plan trees, limits, errors, and the worklist compiler
      [compile_with_limits] to a table of nodes.
    - [Runner]: [ControllerRunner], the stack machine of one user, with
      [StepBudget] and [RunBudget]; one definition per method, one per arm of
      [frame_action], composed as in the source.
    - [RunnerFacts], [Traversal], [RunnerSafety], [Completion], [Scenarios],
      [RunnerInvariant], [RunnerControl]: theorems on the runner.
    - [Logic]: the logic controllers of [crates/runtime/src/logic.rs]: the
      controller tree and its compiler, and [LogicRunner], the stack machine
      that a compiled plan runs on; [LogicTree], [LogicSafe], [LogicInv],
      [LogicRandom], [LogicPlay], [LogicProps]: theorems on them.
    - [Token]: [CancellationToken] of [crates/runtime/src/scheduler.rs], the
      shared stop state, per-user flags and the registry of wakers.
    - [Scheduler]: instants, windows, wake registrations and
      [DeterministicScheduler]; module [Race] has one cancellation and one
      poll interleaved at the grain of their atomic accesses.
    - [DeadlineFuture]: the future that waits for a deadline.
    - [Coordination], [Critical], [Barrier]: the named locks and the
      synchronizing barriers of [crates/runtime/src/coordination.rs], and what
      they share.
    - [Throughput], [ThroughputProps]: the throughput coordinator of
      [coordination.rs] and its client, the constant throughput timer of
      [crates/runtime/src/timers.rs], which knows it through the class of the
      trait [ThroughputCoordinator].
    - [SyncTimer], [SyncTimerProps]: the synchronizing timer of [timers.rs]
      and its future, a client of the barriers, the scheduler and the tokens.
    - [Wire], [BridgeTypes], [FrameCodec], [Handshake]: bytes and slices,
      limits and errors, the frame codec, and handshakes with their
      negotiation, of [crates/bridge-protocol/src/lib.rs]; [FrameFacts],
      [FrameProps], [HandshakeFacts], [Negotiation]: theorems on them.
    - [Timing]: timestamps, durations and [SampleTiming] of
      [crates/results/src/timing.rs].
    - [Csv], [CsvDates]: the records and headers of CSV result files, how they
      are written, read and recognised, and the legacy timestamps in them, of
      [crates/results/src/csv.rs]; [CsvProps], [CsvHeader]: theorems on them.
    - [SaveConfig], [SaveConfigProps]: the save configuration of
      [crates/results/src/jtl.rs], its properties, validation and limits, and
      the decoder and header it determines.

    - [ModelTree]: the identity tree of plans and its hash view, with their
      edits, traversals, queries and consistency checks, of
      [crates/model/src/tree.rs]; [ModelForest]: the ordered forest it stands
      for; [ModelRefine], [ModelOps], [ModelSteps], [ModelWalk], [ModelPaths],
      [ModelTreeProps]: theorems on them.

    - [Lifecycle], [LifecycleProps]: the ramp-up of users, iteration counters,
      stop policies, the join that polls the tasks of a phase and the
      admission gate, of [crates/runtime/src/lifecycle.rs].
    - [Leases], [LeasesProps]: the critical-section leases of a virtual user
      in [lifecycle.rs], a client of the locks and the tokens.
    - [UserRun], [UserRunProps]: the loop of a virtual user ([run_user] of
      [lifecycle.rs]), a client of the controller runner and the tokens, which
      knows samplers, listeners and observation through a class.

    ** How the code is rendered

    A method that takes [&mut self] is a computation [ST St E A], from a state
    to an outcome and a state; what it wrote before it failed stays written,
    so that the theorems on errors speak of the state that is left.  Maps are
    [gmap]s, iterated in key order where the order is visible.  A method that
    holds a mutex for its whole duration is one atomic step; where the code
    does not hold one (the cancellation word, the status of a wake) the atomic
    accesses are the steps.  A call that makes several such steps takes what the
    other users do before each of them as an argument, a list of operations
    ([Leases]), so that its theorems hold under every interleaving.  A [Waker] is its identity, and waking it adds it
    to a log or to the result; an [Arc] or [Weak] identity is a number.

    In the wire protocol an index or slice out of range is an outcome of its
    own, [Panic], beside the errors of the code, and so is an addition that
    overflows in a legacy date; strings are their bytes.  The Unicode tables
    of the standard library are parameters, known on ASCII.

    Code outside the repository appears nowhere but through the Rust standard
    library, whose integer, [Vec], [VecDeque], [BTreeMap] and [Duration]
    operations are modelled where they are used.

    ** What the theorems show

    - The compiler: the worklist equals a recursive compiler on every input
      and error, accepts exactly the plans within limits and with unique
      identities, and its table represents the plan ([Plan]).
    - The runner refines a big-step traversal of the source plan: same
      samples, same order and cursors, same marks, cursors and random streams
      afterwards, and a cost that does not depend on the budgets ([Traversal]).
      Plans without infinite loops complete, and a traversal cut into steps by
      budgets, failures included, yields the same samples ([Completion]).
      Every call returns and respects its budgets ([RunnerSafety]); internal
      errors are unreachable and samples are accounted exactly
      ([RunnerInvariant]); stop signals are final, [NextLoop] continues the
      innermost loop ([RunnerControl]); the controllers keep their promises
      over whole runs ([Scenarios]).
    - Logic controllers: the compiler accepts exactly the trees within its
      limits ([LogicProps]); the runner never reaches a state that its own
      checks call corrupted, whatever signals, variables and random values it
      is given ([LogicInv]); it selects the samples of a recursive reading of
      the tree ([LogicPlay], [LogicProps]); it asks for random values only
      where the compiler announced them, deals every order of children fairly,
      and shared throughput limits are exact ([LogicRandom]).
    - Cancellation: stop requests only grow in severity, under any
      interleaving of callers; requests of one user do not reach another;
      one-shot signals are taken once ([Control]).
    - Waiting: registered wakers are not lost and the registry is bounded
      ([Token]); each wake is delivered once, or cancelled once, or pending,
      never early ([Scheduler]); a pending deadline future is woken and
      completes, and leaves no registration ([DeadlineFuture]).
    - Locks: the coordinator refines the contract of a fair lock, a step
      relation on an owner and a queue; hence exclusion, no overtaking, and
      wake-ups that reach someone who can go on ([Critical]).
    - Barriers: the users of one generation are told one outcome, a release
      comes from exactly the group that was expected, and the bookkeeping of
      leases and generations never breaks ([Barrier]).
    - Throughput: along any history of the coordinator's atomic steps, with
      any clock readings, a shared scope grants no more moments in a window
      than its target allows, the slots of one user are spaced by the periods
      in force, and a burst is spread evenly; timers and coordinator together
      keep the target of a run ([ThroughputProps]).
    - Frames: encoding and decoding are inverse to each other on what both
      accept; decoding never panics, does not depend on how the stream is
      split, and asks for exactly what is missing ([FrameProps]).
    - Handshakes: declarations arrive unchanged; negotiation succeeds exactly
      for compatible peers, both ends reach the same agreement, responses
      close it, its limits are safe for both, and a failure can be reported
      ([Negotiation]).
    - Synchronizing timers: a wait ends in a release of the whole group, at
      its timeout or by a signal, and leaves neither a lease nor a wake behind
      ([SyncTimerProps]).
    - Timing: operations keep timings valid or leave them alone; the elapsed
      time of a sample is its wall time without its pauses; aggregation does
      not depend on order ([Timing]).

    - CSV files: what is written is read back, quotes and line breaks included
      ([CsvProps]); a file with a header opens with its delimiter, columns and
      rows, and the two readers of header lines are one function ([CsvHeader]);
      legacy dates are read by the Gregorian calendar ([CsvDates]); a file
      opens with the configuration it was written with, and the order of
      independent properties is immaterial ([SaveConfigProps]).

    - The plan tree: under any history of edits, each with the value or error
      of its contract, the maps and lists represent an ordered forest
      ([ModelSteps]); walks with explicit stacks are the recursive readings of
      that forest ([ModelWalk]), paths and depths are the forest's
      ([ModelPaths]), and fresh identities are never used again
      ([ModelTreeProps]).

    - Runs: users start evenly over the ramp-up, no accepted schedule overflows
      when it is used, the bound announced for the startup is the start of the
      last user; a join polls each unfinished task once per turn
      ([LifecycleProps]).
    - Leases: under every interleaving with other users, the locks a user owns
      are those of its lease stack, when it has been synchronized, while it
      waits and after a stop; what it releases is free or reported; a user that
      waits is known to the coordinator and to its token ([LeasesProps]).
    - Users: the loop of a user returns whatever happens, and an undisturbed
      user executes exactly the samplers of its iterations, each a traversal
      of the plan ([UserRunProps]).

    Thirteen theorems show behaviour that the code or its comments mean to exclude:
    [RunnerControl.next_loop_applied_twice], the race of a cancellation with
    a delivery in [Scheduler.Race], a sample that cannot end because it was
    idle too long ([Timing.lifecycle_elapsed]), waiters that are never woken
    ([Critical.waiters_left_asleep]), users left behind at a barrier
    ([Barrier.barrier_stragglers]), a user that passes a barrier alone
    ([SyncTimerProps.stale_wake_ends_wait]), error frames that are encoded
    but cannot be decoded ([FrameProps.encoder_emits_undecodable_errors]), a
    byte lost when a file with a very short first line is opened
    ([CsvHeader.opening_loses_a_byte]), a date whose year overflows
    ([CsvDates.legacy_year_overflows]), inner loops that end early
    ([LogicProps.nested_loops_lose_iterations]), a tree that is accepted
    although its nodes cannot be reached
    ([ModelTreeProps.validate_accepts_unreachable]), a contender that the
    admission gate forgets ([LifecycleProps.gate_forgets_waiter]), and a user
    that cannot complete a long group ([UserRunProps.long_group_runs_out]).

    ** Fuel

    The loops of the source that are not structural take fuel, computed from
    what bounds them in the code: the compiler's worklist from the size of the
    plan, the loops of the runner from the remaining transition budget (each
    round is charged for), a step of the logic runner from its transition
    limit, the loop of a user from its bound on transitions, [wake_local] from
    the length of the registry, the
    readers of CSV records from the bytes that are left, the walks over a plan
    tree from the number of its nodes.
    [OutOfFuel] is an outcome of its own, and theorems show it does not occur
    ([compile_equals_recursive], [run_returns], [reachable_step_safe],
    [random_index_returns], [wake_local_exact]).

    ** Not modelled, and the plan

    Next, in this order: scope compilation ([scope.rs]); the loop of users with
    logic controllers and the phases of the engine ([lifecycle.rs]), on top of
    [Logic], [Leases] and [UserRun];
    sample results and their aggregation ([results/src/result.rs]) on top of
    [Timing], and from them the CSV rows; elements and properties of [model],
    the values in its tree; bounded expression evaluation ([expr]); the capability messages on top of the
    frames; the state machine of [remote].  Out of reach, because they are input and output,
    platform calls, floating point or third-party code: the application, the
    tools, sockets, TLS, process launching, random timers, rates given as floating
    point numbers and report
    statistics.  Formatting ([Display], [Debug]) is left out throughout, and
    so are callbacks that panic. *)

From stdpp Require Export base tactics numbers list gmap strings option relations.
From Stdlib Require Export ZArith Lia.

#[global] Open Scope Z_scope.

(** ** Machine integers

    Rust's fixed-width integers are integers [Z] with their bounds written
    out.  The build targets are 64-bit, so [usize] has the range of [u64].
    Positions in a [Vec] (and lengths) are [nat], the index type of lists;
    arithmetic on them is checked against [usize_max] all the same. *)
Definition u8_max : Z := 255.
Definition u32_max : Z := 4294967295.
Definition u64_max : Z := 18446744073709551615.
Definition i64_min : Z := -9223372036854775808.
Definition i64_max : Z := 9223372036854775807.
Definition usize_max : Z := u64_max.

(** [usize::saturating_add(1)] *)
Definition usize_saturating_succ (n : Z) : Z := Z.min (n + 1) usize_max.

Definition in_u64 (z : Z) : Prop := 0 <= z <= u64_max.

(** [u64::checked_add], [u64::checked_sub] and [usize::checked_add(1)] on a
    vector position. *)
Definition u64_checked_add (a b : Z) : option Z :=
  if a + b <=? u64_max then Some (a + b) else None.

Definition u64_checked_sub (a b : Z) : option Z :=
  if b <=? a then Some (a - b) else None.

Definition usize_succ (n : nat) : option nat :=
  if Z.of_nat n <? usize_max then Some (S n) else None.

(** [u64::wrapping_add] and [u64::wrapping_mul]. *)
Definition wrap64 (z : Z) : Z := z mod 2 ^ 64.

(** A [Duration] is its number of nanoseconds; [checked_add] and [checked_sub]. *)
Definition duration_max : Z := u64_max * 1000000000 + 999999999.

Definition duration_checked_add (a b : Z) : option Z :=
  if a + b <=? duration_max then Some (a + b) else None.

Definition duration_checked_sub (a b : Z) : option Z :=
  if b <=? a then Some (a - b) else None.

(** ** Results and the state-and-error monad

    [result E A] is Rust's [Result<A, E>] with one more outcome,
    [OutOfFuel], produced only by a loop whose fuel ran out; every loop of the
    development comes with a theorem that its fuel is enough. *)
Inductive result (E A : Type) : Type :=
| Ok (a : A)
| Err (e : E)
| OutOfFuel.
Arguments Ok {E A} a.
Arguments Err {E A} e.
Arguments OutOfFuel {E A}.

#[global] Instance result_eq_dec {E A} `{EqDecision E, EqDecision A} :
  EqDecision (result E A).
Proof. solve_decision. Defined.

Definition res_bind {E A B} (m : result E A) (k : A -> result E B) : result E B :=
  match m with
  | Ok a => k a
  | Err e => Err e
  | OutOfFuel => OutOfFuel
  end.

(** [Option::ok_or]. *)
Definition ok_or {E A} (o : option A) (e : E) : result E A :=
  match o with Some a => Ok a | None => Err e end.

(** A computation that reads and writes a state of type [St] and may fail.
    As in Rust, what was written before a failing [?] stays written: the
    state is returned next to the outcome, whatever the outcome is. *)
Definition ST (St E A : Type) : Type := St -> result E A * St.

Definition st_ret {St E A} (a : A) : ST St E A := fun s => (Ok a, s).
Definition st_fail {St E A} (e : E) : ST St E A := fun s => (Err e, s).
Definition st_get {St E} : ST St E St := fun s => (Ok s, s).
Definition st_put {St E} (s : St) : ST St E () := fun _ => (Ok (), s).
Definition st_lift {St E A} (r : result E A) : ST St E A := fun s => (r, s).

Definition st_bind {St E A B} (m : ST St E A) (k : A -> ST St E B) : ST St E B :=
  fun s =>
    match m s with
    | (Ok a, s') => k a s'
    | (Err e, s') => (Err e, s')
    | (OutOfFuel, s') => (OutOfFuel, s')
    end.

Declare Scope jm_scope.
Delimit Scope jm_scope with jm.

Notation "'let?' x := m 'in' k" := (res_bind m (fun x => k))
  (at level 10, x binder, m at level 100, k at level 200) : jm_scope.
Notation "'do!' x <- m 'in' k" := (st_bind m (fun x => k))
  (at level 10, x binder, m at level 100, k at level 200) : jm_scope.
Notation "m ;! k" := (st_bind m (fun _ => k))
  (at level 100, k at level 200, right associativity) : jm_scope.

#[global] Open Scope jm_scope.

(** ** Automation *)

Create HintDb jm.

(** [simpl_bool] turns the boolean comparisons of the code into facts. *)
Ltac simpl_bool :=
  repeat match goal with
  | H : (_ <=? _) = true |- _ => apply Z.leb_le in H
  | H : (_ <=? _) = false |- _ => apply Z.leb_gt in H
  | H : (_ <? _) = true |- _ => apply Z.ltb_lt in H
  | H : (_ <? _) = false |- _ => apply Z.ltb_ge in H
  | H : (_ =? _) = true |- _ => apply Z.eqb_eq in H
  | H : (_ =? _) = false |- _ => apply Z.eqb_neq in H
  end.

(** [case_if] splits on the next conditional of the goal or of a hypothesis. *)
Ltac case_if :=
  match goal with
  | |- context [if ?b then _ else _] => destruct b eqn:?
  | H : context [if ?b then _ else _] |- _ => destruct b eqn:?
  end; simpl_bool.

(** ** Shared lemmas *)

Lemma u64_checked_add_Some a b c :
  u64_checked_add a b = Some c <-> a + b <= u64_max /\ c = a + b.
Proof. unfold u64_checked_add. case_if; split; intros; destruct_and?; simplify_eq; auto with lia. Qed.

Lemma u64_checked_add_None a b : u64_checked_add a b = None <-> u64_max < a + b.
Proof. unfold u64_checked_add. case_if; split; intros; destruct_and?; simplify_eq; auto with lia. Qed.

Lemma u64_checked_sub_Some a b c :
  u64_checked_sub a b = Some c <-> b <= a /\ c = a - b.
Proof. unfold u64_checked_sub. case_if; split; intros; destruct_and?; simplify_eq; auto with lia. Qed.

Lemma usize_succ_Some n m :
  usize_succ n = Some m <-> Z.of_nat n < usize_max /\ m = S n.
Proof. unfold usize_succ. case_if; split; intros; destruct_and?; simplify_eq; auto with lia. Qed.

Lemma usize_succ_small n : Z.of_nat n < usize_max -> usize_succ n = Some (S n).
Proof. intros. by apply usize_succ_Some. Qed.

Lemma st_bind_Ok {St E A B} (m : ST St E A) (k : A -> ST St E B) s b s' :
  st_bind m k s = (Ok b, s') <->
  exists a s1, m s = (Ok a, s1) /\ k a s1 = (Ok b, s').
Proof.
  unfold st_bind. destruct (m s) as [[a|e|] s1]; split.
  1: by eauto.
  1: by intros (?&?&?&?); simplify_eq.
  all: try done.
  all: by intros (?&?&?&?).
Qed.

Lemma st_bind_Ok_l {St E A B} (m : ST St E A) (k : A -> ST St E B) s a s1 :
  m s = (Ok a, s1) -> st_bind m k s = k a s1.
Proof. unfold st_bind. by intros ->. Qed.

Lemma st_bind_assoc {St E A B C} (m : ST St E A) (k : A -> ST St E B)
    (l : B -> ST St E C) s :
  st_bind (st_bind m k) l s = st_bind m (fun a => st_bind (k a) l) s.
Proof. unfold st_bind. by destruct (m s) as [[]]. Qed.

(** A predicate kept by every step holds of everything reachable. *)
Lemma rtc_invariant {A} (R : relation A) (P : A -> Prop) x y :
  (forall a b, P a -> R a b -> P b) -> P x -> rtc R x y -> P y.
Proof. intros Hstep Hx Hxy. revert Hx. induction Hxy; eauto. Qed.

Lemma list_filter_ext_in {A} (P Q : A -> Prop)
    `{forall x, Decision (P x), forall x, Decision (Q x)} (l : list A) :
  (forall x, x ∈ l -> P x <-> Q x) -> filter P l = filter Q l.
Proof.
  induction l as [|x l IH]; intros Hl; [done|].
  rewrite !filter_cons, IH by (intros; apply Hl; by right).
  destruct (Hl x ltac:(left)). repeat case_decide; tauto.
Qed.

(** A loop [for x in l] whose body updates [a] and may fail. *)
Section fold_res.
Context {E A B : Type} (f : B -> A -> result E A).

Fixpoint fold_res (l : list B) (a : A) : result E A :=
  match l with
  | [] => Ok a
  | x :: l => res_bind (f x a) (fold_res l)
  end.
End fold_res.

Lemma res_bind_Ok {E A B} (m : result E A) (k : A -> result E B) b :
  res_bind m k = Ok b <-> exists a, m = Ok a /\ k a = Ok b.
Proof. destruct m; simpl; split; naive_solver. Qed.

Lemma res_bind_assoc {E A B C} (m : result E A) (k : A -> result E B) (l : B -> result E C) :
  res_bind (res_bind m k) l = res_bind m (fun a => res_bind (k a) l).
Proof. by destruct m. Qed.

Lemma ok_or_Ok {E A} (o : option A) (e : E) a : ok_or o e = Ok a <-> o = Some a.
Proof. destruct o; simpl; naive_solver. Qed.

Lemma omap_app {A B} (f : A -> option B) (l k : list A) :
  omap f (l ++ k) = omap f l ++ omap f k.
Proof. induction l as [|x l IH]; [done|]. csimpl. destruct (f x); csimpl; by rewrite IH. Qed.
