(* ===== verification/Control.v ===== *)
(** * Control signals and cancellation

    Models the severity-ordered control signals and the run-wide cancellation
    state of [crates/runtime/src/controllers.rs]: [ControlSignal],
    [Cancellation] with its per-user views, and the compare-and-swap loop of
    [Cancellation::request] under every interleaving of its callers. *)

From S2P Require Import Prelude.

(** ** Signals *)

Inductive ControlSignal :=
| Continue
| NextLoop
| StopThread
| StopTestGraceful
| StopTestImmediate.

#[global] Instance ControlSignal_eq_dec : EqDecision ControlSignal.
Proof. solve_decision. Defined.

(** The [repr(u8)] discriminant, [self as u8]. *)
Definition signal_u8 (s : ControlSignal) : Z :=
  match s with
  | Continue => 0
  | NextLoop => 1
  | StopThread => 2
  | StopTestGraceful => 3
  | StopTestImmediate => 4
  end.

Definition combine (self other : ControlSignal) : ControlSignal :=
  if signal_u8 other <=? signal_u8 self then self else other.

Definition is_stop (s : ControlSignal) : bool :=
  match s with
  | StopThread | StopTestGraceful | StopTestImmediate => true
  | Continue | NextLoop => false
  end.

Definition signal_from_u8 (value : Z) : ControlSignal :=
  if value =? 1 then NextLoop
  else if value =? 2 then StopThread
  else if value =? 3 then StopTestGraceful
  else if (4 <=? value) && (value <=? u8_max) then StopTestImmediate
  else Continue.

(** Severity order on signals. *)
Definition severity_le (a b : ControlSignal) : Prop := signal_u8 a <= signal_u8 b.

(** ** Cancellation

    [Cancellation::new] creates one shared cell [test_stop]; every view made
    by [clone_for_user] (and [Clone::clone]) holds the same cell and two flags
    of its own.  [CancelStore] is that family of objects: the shared cell and
    the flags of each view, indexed by a handle. *)
Record UserFlags := mkFlags {
  thread_stop : bool;
  next_loop : bool
}.

#[global] Instance UserFlags_eq_dec : EqDecision UserFlags.
Proof. solve_decision. Defined.

Record CancelStore := mkCancel {
  test_stop : Z;
  views : list UserFlags
}.

Definition fresh_flags : UserFlags := mkFlags false false.

(** [Cancellation::new]: a store with one view, handle 0. *)
Definition cancellation_new : CancelStore :=
  mkCancel (signal_u8 Continue) [fresh_flags].

(** [Cancellation::clone_for_user]: a new view on the same cell. *)
Definition clone_for_user (c : CancelStore) : nat * CancelStore :=
  (length (views c), mkCancel (test_stop c) (views c ++ [fresh_flags])).

Definition flags (c : CancelStore) (h : nat) : UserFlags :=
  default fresh_flags (views c !! h).

Definition set_flags (c : CancelStore) (h : nat) (f : UserFlags) : CancelStore :=
  mkCancel (test_stop c) (<[h := f]> (views c)).

(** [Cancellation::request].  Without contention the compare-and-swap loop
    stores the requested severity when it exceeds the current one; [CasLoop]
    below relates this to the loop under contention. *)
Definition request (c : CancelStore) (h : nat) (signal : ControlSignal) : CancelStore :=
  match signal with
  | NextLoop => set_flags c h (mkFlags (thread_stop (flags c h)) true)
  | StopThread => set_flags c h (mkFlags true (next_loop (flags c h)))
  | Continue => c
  | StopTestGraceful | StopTestImmediate =>
      if test_stop c <? signal_u8 signal
      then mkCancel (signal_u8 signal) (views c)
      else c
  end.

Definition signal (c : CancelStore) (h : nat) : ControlSignal :=
  let stop := signal_from_u8 (test_stop c) in
  if is_stop stop then stop
  else if thread_stop (flags c h) then StopThread
  else if next_loop (flags c h) then NextLoop
  else Continue.

(** [Cancellation::take_signal]: the [swap(false)] happens only when no stop
    is visible. *)
Definition take_signal (c : CancelStore) (h : nat) : ControlSignal * CancelStore :=
  let stop := signal_from_u8 (test_stop c) in
  if is_stop stop then (stop, c)
  else if thread_stop (flags c h) then (StopThread, c)
  else if next_loop (flags c h)
  then (NextLoop, set_flags c h (mkFlags (thread_stop (flags c h)) false))
  else (Continue, c).

(** The values the shared cell can take. *)
Definition cancel_wf (c : CancelStore) : Prop :=
  test_stop c = 0 \/ test_stop c = 3 \/ test_stop c = 4.

(** ** The compare-and-swap loop, under contention

    One caller of [request] with a test-stop signal is at one of three
    points: about to load the cell, holding the value [current] it last
    observed at the loop head, or done.  [compare_exchange_weak] may also fail
    spuriously. *)
Module CasLoop.

Inductive caller :=
| Load (requested : Z)
| Head (requested current : Z)
| Done (requested : Z).

Definition wanted (k : caller) : Z :=
  match k with Load r | Head r _ | Done r => r end.

Inductive caller_step : Z -> caller -> Z -> caller -> Prop :=
| step_load cell r : caller_step cell (Load r) cell (Head r cell)
| step_exit cell r cur : r <= cur -> caller_step cell (Head r cur) cell (Done r)
| step_swap cell r : cell < r -> caller_step cell (Head r cell) r (Done r)
| step_fail cell r cur : cur < r -> caller_step cell (Head r cur) cell (Head r cell).

(** The system: the cell and its callers; any caller may move next. *)
Inductive step : Z * list caller -> Z * list caller -> Prop :=
| step_caller cell ks i k cell' k' :
    ks !! i = Some k ->
    caller_step cell k cell' k' ->
    step (cell, ks) (cell', <[i := k']> ks).

Definition all_done (ks : list caller) : Prop := Forall (fun k => exists r, k = Done r) ks.

(** What the callers together ask for. *)
Definition strongest (cell : Z) (requests : list Z) : Z := foldr Z.max cell requests.

End CasLoop.

(** ** Facts on signals *)

Lemma signal_u8_inj a b : signal_u8 a = signal_u8 b -> a = b.
Proof. by destruct a, b. Qed.

Lemma signal_u8_combine a b :
  signal_u8 (combine a b) = Z.max (signal_u8 a) (signal_u8 b).
Proof. unfold combine. case_if; lia. Qed.

Lemma signal_from_u8_roundtrip s : signal_from_u8 (signal_u8 s) = s.
Proof. by destruct s. Qed.

Lemma is_stop_severity s : is_stop s = true <-> 2 <= signal_u8 s.
Proof. by destruct s. Qed.

#[export] Instance severity_le_preorder : PreOrder severity_le.
Proof. split; unfold severity_le; [intros ?|intros ???]; lia. Qed.

(** The severities form a lattice with [combine] as join, so the order in
    which signals are observed does not matter.  Everything about [combine]
    follows from [signal_u8_combine] and injectivity. *)
Ltac by_severity := apply signal_u8_inj; rewrite ?signal_u8_combine; lia.

Lemma combine_assoc a b c : combine a (combine b c) = combine (combine a b) c.
Proof. by_severity. Qed.

Lemma combine_comm a b : combine a b = combine b a.
Proof. by_severity. Qed.

Lemma combine_ge_l a b : severity_le a (combine a b).
Proof. unfold severity_le. rewrite signal_u8_combine. lia. Qed.

Lemma combine_stop a b : is_stop a = true -> is_stop (combine a b) = true.
Proof. rewrite !is_stop_severity, signal_u8_combine. lia. Qed.

#[export] Hint Resolve combine_ge_l combine_stop : jm.

(** ** Facts on cancellation *)

Lemma flags_set_flags_eq c h f :
  (h < length (views c))%nat -> flags (set_flags c h f) h = f.
Proof. intros. unfold flags, set_flags. simpl. by rewrite list_lookup_insert_eq. Qed.

Lemma flags_set_flags_ne c h h' f : h <> h' -> flags (set_flags c h f) h' = flags c h'.
Proof. intros. unfold flags, set_flags. simpl. by rewrite list_lookup_insert_ne. Qed.

(** Writing a view's flags out of range changes nothing. *)
Lemma flags_set_flags c h f h' :
  flags (set_flags c h f) h' =
  if decide (h = h' /\ (h < length (views c))%nat) then f else flags c h'.
Proof.
  case_decide as Hd; [destruct Hd as [<- ?]; by apply flags_set_flags_eq|].
  destruct (decide (h = h')) as [<-|]; [|by apply flags_set_flags_ne].
  unfold flags, set_flags. simpl. rewrite list_insert_ge; [done|]. naive_solver lia.
Qed.

Lemma flags_clone c h : flags (snd (clone_for_user c)) h = flags c h.
Proof.
  unfold flags. simpl.
  destruct (decide (h < length (views c))%nat); [by rewrite lookup_app_l|].
  rewrite lookup_app_r by lia.
  rewrite (lookup_ge_None_2 (views c)) by lia.
  by destruct (h - length (views c))%nat as [|[]].
Qed.

Lemma request_wf c h s : cancel_wf c -> cancel_wf (request c h s).
Proof. unfold cancel_wf, request. destruct s; simpl; repeat case_if; simpl; lia. Qed.

Lemma take_wf c h : cancel_wf c -> cancel_wf (snd (take_signal c h)).
Proof. unfold cancel_wf, take_signal. repeat case_if; done. Qed.

(** The operations an edge performs on the views of one run. *)
Inductive cancel_op :=
| OpRequest (h : nat) (s : ControlSignal)
| OpTake (h : nat)
| OpClone.

Definition apply_op (c : CancelStore) (o : cancel_op) : CancelStore :=
  match o with
  | OpRequest h s => request c h s
  | OpTake h => snd (take_signal c h)
  | OpClone => snd (clone_for_user c)
  end.

Lemma apply_op_wf c o : cancel_wf c -> cancel_wf (apply_op c o).
Proof. destruct o; simpl; auto using request_wf, take_wf. Qed.

Lemma apply_ops_wf c ops : cancel_wf c -> cancel_wf (foldl apply_op c ops).
Proof. revert c. induction ops; simpl; auto using apply_op_wf. Qed.

(** The two persistent parts of a view's signal. *)
Lemma apply_op_test_stop c o : test_stop c <= test_stop (apply_op c o).
Proof.
  destruct o as [h s|h|]; simpl; [destruct s|unfold take_signal|]; simpl;
    repeat case_if; simpl; lia.
Qed.

Lemma apply_op_thread_stop c o h :
  thread_stop (flags c h) = true -> thread_stop (flags (apply_op c o) h) = true.
Proof.
  intros Hs. destruct o as [h' s|h'|]; cbn [apply_op].
  - destruct s; simpl; try case_if; auto; rewrite flags_set_flags; case_decide as Hd; auto.
    destruct Hd; subst; simpl in *; congruence.
  - unfold take_signal. repeat case_if; simpl; auto.
    rewrite flags_set_flags; case_decide as Hd; auto. destruct Hd; subst; simpl in *; congruence.
  - by rewrite flags_clone.
Qed.

Lemma apply_op_stop_monotone c o h :
  cancel_wf c -> is_stop (signal c h) = true ->
  severity_le (signal c h) (signal (apply_op c o) h) /\
  is_stop (signal (apply_op c o) h) = true.
Proof.
  intros Hwf Hs. pose proof (apply_op_test_stop c o) as Ht.
  pose proof (apply_op_thread_stop c o h) as Hf. apply (apply_op_wf _ o) in Hwf as Hwf'.
  revert Hs Ht Hf. unfold signal, severity_le.
  destruct Hwf as [->|[->| ->]], Hwf' as [->|[->| ->]];
    destruct (thread_stop (flags c h)), (next_loop (flags c h));
    simpl; intros; try done; try lia; rewrite Hf by done; done.
Qed.

(** A stop a user has observed never weakens: whatever requests, takes and
    clones follow, by this user or by others, the signal the user observes
    stays at least as severe. *)
Theorem cancellation_stop_monotone c ops h :
  cancel_wf c -> is_stop (signal c h) = true ->
  severity_le (signal c h) (signal (foldl apply_op c ops) h).
Proof.
  revert c. induction ops as [|o ops IH]; intros c Hwf Hs; simpl; [reflexivity|].
  destruct (apply_op_stop_monotone c o h Hwf Hs) as [Hle Hs'].
  etrans; [exact Hle|]. auto using apply_op_wf.
Qed.

Lemma cancellation_stop_monotone_witness :
  severity_le StopThread
    (signal (foldl apply_op (request cancellation_new 0 StopThread)
               [OpRequest 0 NextLoop; OpTake 0]) 0).
Proof.
  apply (cancellation_stop_monotone (request cancellation_new 0 StopThread)
    [OpRequest 0 NextLoop; OpTake 0] 0); [by left|reflexivity].
Defined.

(** Requests of one user reach another only when they concern the whole
    test: [NextLoop] and [StopThread] of user [h] leave what user [h'] observes
    unchanged, and a test stop makes [h'] observe at least that stop. *)
Theorem request_isolation c h h' s :
  h <> h' ->
  match s with
  | Continue | NextLoop | StopThread => signal (request c h s) h' = signal c h'
  | StopTestGraceful | StopTestImmediate =>
      cancel_wf c -> severity_le s (signal (request c h s) h')
  end.
Proof.
  intros Hne.
  destruct s; simpl; try done;
    try (unfold signal; simpl; by rewrite flags_set_flags_ne).
  all: intros Hwf; unfold signal, severity_le; destruct Hwf as [Hw|[Hw|Hw]];
    rewrite Hw; simpl; rewrite ?Hw; simpl; lia.
Qed.

Lemma request_isolation_witness :
  let c := snd (clone_for_user cancellation_new) in
  signal (request c 0 NextLoop) 1 = signal c 1.
Proof. apply (request_isolation _ 0 1 NextLoop). discriminate. Defined.

(** [take_signal] returns what [signal] shows, consumes a [NextLoop] (and
    nothing stronger), and does not change what other users observe. *)
Theorem take_signal_one_shot c h :
  (h < length (views c))%nat ->
  fst (take_signal c h) = signal c h /\
  signal (snd (take_signal c h)) h =
    (if decide (signal c h = NextLoop) then Continue else signal c h) /\
  forall h', h' <> h -> signal (snd (take_signal c h)) h' = signal c h'.
Proof.
  intros Hh. unfold take_signal, signal.
  destruct (is_stop (signal_from_u8 (test_stop c))) eqn:Es; simpl.
  { rewrite Es. split_and!; [done| |done]. by destruct (signal_from_u8 _). }
  destruct (thread_stop (flags c h)) eqn:Et; simpl; [rewrite Es, Et; done|].
  destruct (next_loop (flags c h)) eqn:En; simpl; [|rewrite Es, Et, En; done].
  rewrite Es, flags_set_flags_eq by done. simpl.
  split_and!; try done. intros h' ?. by rewrite flags_set_flags_ne.
Qed.

Lemma take_signal_one_shot_witness :
  let c := request cancellation_new 0 NextLoop in
  fst (take_signal c 0) = NextLoop /\ signal (snd (take_signal c 0)) 0 = Continue.
Proof.
  destruct (take_signal_one_shot (request cancellation_new 0 NextLoop) 0) as (H1 & H2 & _).
  - vm_compute. lia.
  - split; [exact H1|exact H2].
Defined.

Module CasLoopFacts.
Import CasLoop.

(** What holds of the cell and its callers in every reachable state. *)
Record inv (c0 : Z) (requests : list Z) (s : Z * list caller) : Prop := {
  inv_wanted : map wanted (snd s) = requests;
  inv_low : c0 <= fst s;
  inv_member : fst s = c0 \/ fst s ∈ requests;
  inv_seen : forall i r cur, snd s !! i = Some (Head r cur) -> cur <= fst s;
  inv_done : forall i r, snd s !! i = Some (Done r) -> r <= fst s
}.

Lemma inv_init c0 requests : inv c0 requests (c0, map Load requests).
Proof.
  split; simpl.
  - rewrite map_map. by rewrite map_id.
  - lia.
  - by left.
  - intros i r cur Hi. rewrite list_lookup_fmap in Hi. by destruct (requests !! i).
  - intros i r Hi. rewrite list_lookup_fmap in Hi. by destruct (requests !! i).
Qed.

Lemma caller_step_facts cell k cell' k' :
  caller_step cell k cell' k' ->
  wanted k' = wanted k /\ cell <= cell' /\ (cell' = cell \/ cell' = wanted k) /\
  (forall r cur, k' = Head r cur -> cur <= cell') /\
  (forall r, k' = Done r -> (forall cur, k = Head r cur -> cur <= cell) -> r <= cell').
Proof.
  inversion 1; subst; simpl; split_and!; try lia; intros; simplify_eq; try lia.
  specialize (H2 _ eq_refl). lia.
Qed.

Lemma inv_step c0 requests s s' : inv c0 requests s -> step s s' -> inv c0 requests s'.
Proof.
  intros [Hw Hl Hm Hs Hd] Hstep. destruct Hstep as [cell ks i k cell' k' Hi Hk]. simpl in *.
  destruct (caller_step_facts _ _ _ _ Hk) as (Ew & Hle & Hc & Hh & Hdn).
  assert (wanted k ∈ requests) as Hin.
  { rewrite <- Hw. apply list_elem_of_In, in_map, list_elem_of_In, list_elem_of_lookup. eauto. }
  split; simpl.
  - rewrite <- Hw. rewrite list_fmap_insert, Ew.
    apply list_insert_id. by rewrite list_lookup_fmap, Hi.
  - lia.
  - destruct Hc as [-> | ->]; auto.
  - intros j r cur Hj. apply list_lookup_insert_Some in Hj as [(-> & ? & _)|(_ & Hj)]; eauto.
    apply Hs in Hj. lia.
  - intros j r Hj. apply list_lookup_insert_Some in Hj as [(-> & ? & _)|(_ & Hj)].
    + apply Hdn; [done|]. intros cur ->. eauto.
    + apply Hd in Hj. lia.
Qed.

Lemma strongest_ge c0 rs : c0 <= strongest c0 rs /\ forall r, r ∈ rs -> r <= strongest c0 rs.
Proof.
  induction rs as [|r rs [IH1 IH2]]; simpl; [split; [lia|set_solver]|].
  split; [lia|]. intros r' [->|Hr]%elem_of_cons; [lia|]. apply IH2 in Hr. lia.
Qed.

Lemma strongest_le c0 rs c : c0 <= c -> (forall r, r ∈ rs -> r <= c) -> strongest c0 rs <= c.
Proof.
  induction rs as [|r rs IH]; simpl; intros H0 Hr; [done|].
  apply Z.max_lub; [apply Hr; left|]. apply IH; [done|]. intros. apply Hr. by right.
Qed.

(** Concurrent requests to stop the test, each a compare-and-swap loop on
    the shared cell interleaved with the others in any way, keep the cell
    between its old value and the strongest request, and once all have
    returned it holds exactly the strongest. *)
Theorem cas_loop_keeps_strongest c0 requests cell ks :
  rtc step (c0, map Load requests) (cell, ks) ->
  c0 <= cell <= strongest c0 requests /\
  (all_done ks -> cell = strongest c0 requests).
Proof.
  intros Hsteps.
  assert (inv c0 requests (cell, ks)) as [Hw Hl Hm Hs Hd].
  { eapply rtc_invariant; [apply inv_step|apply inv_init|done]. }
  simpl in *. destruct (strongest_ge c0 requests) as [G0 Gr].
  assert (cell <= strongest c0 requests) by (destruct Hm as [->|?]; auto).
  split; [lia|]. intros Hall. apply Z.le_antisymm; [done|].
  apply strongest_le; [done|]. intros r Hr.
  rewrite <- Hw in Hr. apply list_elem_of_In, in_map_iff in Hr as (k & <- & Hk).
  apply list_elem_of_In, list_elem_of_lookup in Hk as [i Hi].
  unfold all_done in Hall. rewrite Forall_lookup in Hall.
  destruct (Hall i k Hi) as [r ->]. eauto.
Qed.

Lemma cas_loop_keeps_strongest_witness : 0 <= 4 <= 4 /\ (all_done [Done 4] -> 4 = strongest 0 [4]).
Proof.
  apply (cas_loop_keeps_strongest 0 [4] 4 [Done 4]).
  eapply rtc_l; [apply (step_caller 0 [Load 4] 0 (Load 4) 0 (Head 4 0)); [reflexivity|constructor]|].
  eapply rtc_l; [apply (step_caller 0 [Head 4 0] 0 (Head 4 0) 4 (Done 4)); [reflexivity|constructor; lia]|].
  apply rtc_refl.
Defined.
End CasLoopFacts.
