(* ===== verification/Random.v ===== *)
(** * The seeded random streams of the controllers

    Models the SplitMix64 generator and the unbiased index reduction of
    [crates/runtime/src/controllers.rs] ([next_seeded_value],
    [uniform_index]).  The reduction accepts each index equally often, and
    the rejection loop around it cannot run forever: the state walks through
    all of [u64], so a value that every bound accepts is reached. *)

From S2P Require Import Prelude.

(** ** Definitions *)

Definition SPLITMIX64_INCREMENT : Z := 0x9E3779B97F4A7C15.

(** [value ^ (value >> k)] *)
Definition xorshift (value k : Z) : Z := Z.lxor value (Z.shiftr value k).

(** The output function: the three last lines of [next_seeded_value]. *)
Definition splitmix (state : Z) : Z :=
  let value := wrap64 (xorshift state 30 * 0xBF58476D1CE4E5B9) in
  let value := wrap64 (xorshift value 27 * 0x94D049BB133111EB) in
  xorshift value 31.

(** [next_seeded_value]: the drawn value and the state left behind. *)
Definition next_seeded_value (state : Z) : Z * Z :=
  let state := wrap64 (state + SPLITMIX64_INCREMENT) in
  (splitmix state, state).

(** [uniform_index]: [None] asks the caller to draw again. *)
Definition uniform_index (value bound : Z) : option Z :=
  if bound =? 0 then None
  else
    let remainder := u64_max mod bound in
    let threshold := (remainder + 1) mod bound in
    if value <? threshold then None else Some (value mod bound).

(** [slice::swap] at two positions of the slice. *)
Definition swap {A} (order : list A) (i j : nat) : list A :=
  match order !! i, order !! j with
  | Some x, Some y => <[j := x]> (<[i := y]> order)
  | _, _ => order
  end.

(** The state after [n] draws. *)
Definition state_after (state n : Z) : Z := wrap64 (state + n * SPLITMIX64_INCREMENT).

(** ** The reduction is exact *)

Lemma threshold_eq bound :
  0 < bound -> (u64_max mod bound + 1) mod bound = 2 ^ 64 mod bound.
Proof. intros. rewrite Zplus_mod_idemp_l. done. Qed.

Lemma uniform_index_Some value bound i :
  0 < bound ->
  uniform_index value bound = Some i <-> 2 ^ 64 mod bound <= value /\ i = value mod bound.
Proof.
  intros Hb. unfold uniform_index.
  destruct (bound =? 0) eqn:E; simpl_bool; [lia|].
  rewrite threshold_eq by done. cbv zeta. case_if; split; intros; destruct_and?; simplify_eq; auto with lia.
Qed.

Lemma uniform_index_range value bound i :
  0 < bound -> uniform_index value bound = Some i -> 0 <= i < bound.
Proof. intros Hb [_ ->]%uniform_index_Some; [|done]. by apply Z.mod_pos_bound. Qed.

(** Any [bound] consecutive numbers contain each residue once. *)
Definition has_residue (bound i v : Z) : Prop := v mod bound = i.
#[global] Instance has_residue_dec bound i v : Decision (has_residue bound i v).
Proof. unfold has_residue. apply _. Defined.

Definition residue_count (bound i start len : Z) : nat :=
  length (filter (has_residue bound i) (seqZ start len)).

Lemma residue_count_app bound i start n m :
  0 <= n -> 0 <= m ->
  residue_count bound i start (n + m) =
  (residue_count bound i start n + residue_count bound i (start + n) m)%nat.
Proof. intros. unfold residue_count. by rewrite seqZ_app, filter_app, length_app. Qed.

Lemma residue_count_1 bound i start :
  residue_count bound i start 1 = if decide (start mod bound = i) then 1%nat else 0%nat.
Proof.
  unfold residue_count. rewrite seqZ_cons by lia. rewrite filter_cons. unfold has_residue at 1.
  by case_decide.
Qed.

Lemma residue_count_shift bound i start :
  0 < bound -> residue_count bound i start bound = residue_count bound i (start + 1) bound.
Proof.
  intros Hb.
  pose proof (residue_count_app bound i start 1 (bound - 1)) as H1.
  pose proof (residue_count_app bound i (start + 1) (bound - 1) 1) as H2.
  replace (1 + (bound - 1)) with bound in H1 by lia.
  replace (bound - 1 + 1) with bound in H2 by lia.
  replace (start + 1 + (bound - 1)) with (start + 1 * bound) in H2 by lia.
  pose proof (Z_mod_plus_full start 1 bound).
  rewrite H1, H2, !residue_count_1 by lia. repeat case_decide; lia.
Qed.

Lemma residue_count_prefix bound i (n : nat) :
  0 <= i < bound -> Z.of_nat n <= bound ->
  residue_count bound i 0 (Z.of_nat n) = if decide (i < Z.of_nat n) then 1%nat else 0%nat.
Proof.
  intros Hi. induction n as [|n IH]; intros Hn; [case_decide; [lia|done]|].
  rewrite Nat2Z.inj_succ, <- Z.add_1_r, residue_count_app, IH, residue_count_1 by lia.
  pose proof (Z.mod_small (Z.of_nat n) bound).
  rewrite Z.add_0_l. repeat case_decide; lia.
Qed.

Lemma residue_count_block bound i start :
  0 <= i < bound -> 0 <= start -> residue_count bound i start bound = 1%nat.
Proof.
  intros Hi Hs. revert start Hs. apply natlike_ind.
  - rewrite <- (Z2Nat.id bound) at 2 by lia.
    rewrite residue_count_prefix by lia. case_decide; lia.
  - intros s Hs IH. rewrite <- IH, <- Z.add_1_r. symmetry. apply residue_count_shift. lia.
Qed.

Lemma residue_count_blocks bound i start (q : nat) :
  0 <= i < bound -> 0 <= start ->
  residue_count bound i start (Z.of_nat q * bound) = q.
Proof.
  intros Hi. revert start. induction q as [|q IH]; intros start Hs; [done|].
  replace (Z.of_nat (S q) * bound) with (bound + Z.of_nat q * bound) by lia.
  pose proof (Z.mul_nonneg_nonneg (Z.of_nat q) bound).
  rewrite residue_count_app, residue_count_block, IH by lia. lia.
Qed.

(** The draws that yield index [i]. *)
Definition yields (bound i v : Z) : Prop := uniform_index v bound = Some i.
#[global] Instance yields_dec bound i v : Decision (yields bound i v).
Proof. unfold yields. apply _. Defined.

Lemma filter_yields bound i start len :
  0 < bound -> 2 ^ 64 mod bound <= start ->
  filter (yields bound i) (seqZ start len) = filter (has_residue bound i) (seqZ start len).
Proof.
  intros Hb Hs. apply list_filter_ext_in. intros v Hv%elem_of_seqZ.
  unfold yields, has_residue. rewrite uniform_index_Some by done.
  split; [by intros [_ ->]|]. intros <-. split; [lia|done].
Qed.

Lemma filter_rejected bound i len :
  0 < bound -> len <= 2 ^ 64 mod bound -> filter (yields bound i) (seqZ 0 len) = [].
Proof.
  intros Hb Hl. destruct (filter _ _) as [|v l] eqn:E; [done|].
  assert (v ∈ filter (yields bound i) (seqZ 0 len)) as Hv by (rewrite E; left).
  apply list_elem_of_filter in Hv as [Hy Hv%elem_of_seqZ].
  apply uniform_index_Some in Hy; lia.
Qed.

(** [uniform_index] has no modulo bias: of the [2^64] values a draw can
    have, every index below [bound] is selected by exactly the same number,
    [2^64 / bound]. *)
Theorem uniform_index_unbiased bound i :
  0 <= i < bound -> bound <= usize_max ->
  length (filter (yields bound i) (seqZ 0 (2 ^ 64))) = Z.to_nat (2 ^ 64 / bound).
Proof.
  intros Hi Hb. set (t := 2 ^ 64 mod bound).
  pose proof (Z.mod_pos_bound (2 ^ 64) bound ltac:(lia)).
  pose proof (Z.div_pos (2 ^ 64) bound ltac:(lia) ltac:(lia)).
  assert (2 ^ 64 = t + Z.of_nat (Z.to_nat (2 ^ 64 / bound)) * bound) as ->%(f_equal (seqZ 0)).
  { rewrite Z2Nat.id by done. subst t. rewrite (Z_div_mod_eq_full (2 ^ 64) bound) at 1. lia. }
  pose proof (Z.mul_nonneg_nonneg (Z.of_nat (Z.to_nat (2 ^ 64 / bound))) bound).
  rewrite seqZ_app by lia. rewrite filter_app, filter_rejected by lia.
  rewrite filter_yields by lia. apply residue_count_blocks; lia.
Qed.

Lemma uniform_index_unbiased_witness :
  length (filter (yields 3 1) (seqZ 0 (2 ^ 64))) = Z.to_nat (2 ^ 64 / 3).
Proof. apply (uniform_index_unbiased 3 1); unfold usize_max, u64_max; lia. Defined.

(** ** Rejection terminates *)

Lemma next_seeded_value_after s n :
  next_seeded_value (state_after s n) =
  (splitmix (state_after s (n + 1)), state_after s (n + 1)).
Proof.
  unfold next_seeded_value, state_after, wrap64.
  rewrite Zplus_mod_idemp_l.
  replace (s + n * SPLITMIX64_INCREMENT + SPLITMIX64_INCREMENT)
    with (s + (n + 1) * SPLITMIX64_INCREMENT) by lia. done.
Qed.

(** The state whose output is [u64::MAX], and the inverse of the (odd)
    increment modulo [2^64]. *)
Definition max_state : Z := 0xCF9A04AFFA6BADC0.
Definition increment_inverse : Z := 17428512612931826493.

Lemma splitmix_max_state : splitmix max_state = u64_max.
Proof. vm_compute. done. Qed.

(** Every state is reached from every other within [2^64] draws. *)
Lemma state_after_surjective s target :
  in_u64 target -> exists n, 0 <= n < 2 ^ 64 /\ state_after s n = target.
Proof.
  intros Ht. exists (wrap64 ((target - s) * increment_inverse)).
  unfold wrap64 at 1 2. split; [apply Z.mod_pos_bound; lia|].
  unfold state_after, wrap64.
  rewrite <- Zplus_mod_idemp_r, Zmult_mod_idemp_l, Zplus_mod_idemp_r.
  replace (s + (target - s) * increment_inverse * SPLITMIX64_INCREMENT)
    with (target + (target - s) * 10771413168148108919 * 2 ^ 64).
  - rewrite Z_mod_plus_full. apply Z.mod_small. unfold in_u64, u64_max in Ht. lia.
  - unfold increment_inverse, SPLITMIX64_INCREMENT. lia.
Qed.

Lemma uniform_index_max bound :
  0 < bound <= usize_max -> uniform_index u64_max bound = Some (u64_max mod bound).
Proof.
  intros Hb. apply uniform_index_Some; [lia|]. split; [|done].
  pose proof (Z.mod_pos_bound (2 ^ 64) bound). unfold usize_max in *. lia.
Qed.

(** A stream visits every state, so an accepted value comes up. *)
Lemma rejection_terminates s bound :
  0 < bound <= usize_max ->
  exists n i, 0 <= n < 2 ^ 64 /\
    uniform_index (fst (next_seeded_value (state_after s n))) bound = Some i.
Proof.
  intros Hb.
  destruct (state_after_surjective (s + SPLITMIX64_INCREMENT) max_state) as (n & Hn & E).
  { unfold in_u64. vm_compute. split; discriminate. }
  exists n, (u64_max mod bound). split; [done|].
  rewrite next_seeded_value_after.
  replace (state_after s (n + 1)) with max_state.
  - simpl. rewrite splitmix_max_state. by apply uniform_index_max.
  - rewrite <- E. unfold state_after. f_equal. lia.
Qed.

(** ** Draws and shuffles, without the budget

    [draws bound s k s' i]: from state [s], the [k] first draws are rejected
    and the next one yields index [i] and state [s']. *)
Inductive draws (bound : Z) : Z -> nat -> Z -> Z -> Prop :=
| draws_accept s i :
    uniform_index (fst (next_seeded_value s)) bound = Some i ->
    draws bound s 0 (snd (next_seeded_value s)) i
| draws_reject s k s' i :
    uniform_index (fst (next_seeded_value s)) bound = None ->
    draws bound (snd (next_seeded_value s)) k s' i -> draws bound s (S k) s' i.

Lemma draws_range bound s k s' i : 0 < bound -> draws bound s k s' i -> 0 <= i < bound.
Proof. intros Hb. induction 1; eauto using uniform_index_range. Qed.

Lemma draws_deterministic bound s k s' i k2 s2 i2 :
  draws bound s k s' i -> draws bound s k2 s2 i2 -> k = k2 /\ s' = s2 /\ i = i2.
Proof.
  intros H. revert k2 s2 i2. induction H as [|s k s' i Hu Hd IH]; intros k2 s2 i2 H2;
    inv H2; simplify_eq; try done.
  by edestruct IH as (-> & -> & ->).
Qed.

Lemma next_seeded_value_wrap s : next_seeded_value (wrap64 s) = next_seeded_value s.
Proof. unfold next_seeded_value, wrap64. by rewrite Zplus_mod_idemp_l. Qed.

Lemma draws_reach bound (n : nat) s i :
  uniform_index (fst (next_seeded_value (state_after s (Z.of_nat n)))) bound = Some i ->
  exists k s' j, draws bound s k s' j.
Proof.
  revert s. induction n as [|n IH]; intros s Hn.
  - unfold state_after in Hn. rewrite Z.mul_0_l, Z.add_0_r, next_seeded_value_wrap in Hn.
    eauto using draws_accept.
  - destruct (uniform_index (fst (next_seeded_value s)) bound) eqn:Ev;
      [eauto using draws_accept|].
    destruct (IH (snd (next_seeded_value s))) as (k & s' & j & Hd); [|eauto using draws_reject].
    rewrite <- Hn. do 3 f_equal. unfold next_seeded_value, state_after, wrap64. simpl.
    rewrite Zplus_mod_idemp_l. f_equal. lia.
Qed.

Lemma draws_total bound s :
  0 < bound <= usize_max -> exists k s' i, draws bound s k s' i.
Proof.
  intros Hb. destruct (rejection_terminates s bound Hb) as (n & i & Hn & Hi).
  apply (draws_reach bound (Z.to_nat n) s i). by rewrite Z2Nat.id by lia.
Qed.

(** One index below [bound] from a stream that may not have started yet: what
    [random_index] does to the stream, and its cost. *)
Inductive draw_index (seed : Z) (bound : nat) : option Z -> nat -> option Z -> nat -> Prop :=
| draw_trivial st : (bound <= 1)%nat -> draw_index seed bound st 0 st 0
| draw_stream st k s' i :
    (2 <= bound)%nat -> draws (Z.of_nat bound) (default seed st) k s' i ->
    draw_index seed bound st (Z.to_nat i) (Some s') k.

Lemma draw_index_range seed bound st i st' k :
  (0 < bound)%nat -> draw_index seed bound st i st' k -> (i < bound)%nat.
Proof. intros Hb. inversion 1; subst; [lia|]. apply draws_range in H1; lia. Qed.

Lemma draw_index_total seed bound st :
  Z.of_nat bound <= usize_max -> exists i st' k, draw_index seed bound st i st' k.
Proof.
  intros Hb. destruct (decide (bound <= 1)%nat); [eauto using draw_trivial|].
  destruct (draws_total (Z.of_nat bound) (default seed st)) as (k & s' & i & Hd); [lia|].
  do 3 eexists. apply draw_stream; [lia|done].
Qed.

Lemma draw_index_deterministic seed bound st i st' k i2 st2 k2 :
  draw_index seed bound st i st' k -> draw_index seed bound st i2 st2 k2 ->
  i = i2 /\ st' = st2 /\ k = k2.
Proof.
  intros H H2. inv H; inv H2; try lia; try done.
  by destruct (draws_deterministic _ _ _ _ _ _ _ _ H1 H3) as (-> & -> & ->).
Qed.

(** The Fisher-Yates loop from [position] down to 1. *)
Inductive shuffles {A} (seed : Z) : nat -> list A -> option Z -> list A -> option Z -> nat -> Prop :=
| shuffles_0 order st : shuffles seed 0 order st order st 0
| shuffles_S pos order st index st1 k order' st2 k' :
    draw_index seed (S (S pos)) st index st1 k ->
    shuffles seed pos (swap order (S pos) index) st1 order' st2 k' ->
    shuffles seed (S pos) order st order' st2 (k + k')%nat.

Lemma swap_permutation {A} (l : list A) i j : swap l i j ≡ₚ l.
Proof.
  unfold swap. destruct (l !! i) as [x|] eqn:Hi; [|done]. destruct (l !! j) as [y|] eqn:Hj; [|done].
  destruct (decide (i = j)) as [->|Hij].
  { simplify_eq. by rewrite list_insert_insert_eq, list_insert_id. }
  apply lookup_lt_Some in Hi as Hil. apply lookup_lt_Some in Hj as Hjl.
  apply Permutation_inj. split; [by rewrite !length_insert|].
  exists (fun n => if decide (n = i) then j else if decide (n = j) then i else n). split.
  - intros a b Hab. repeat case_decide; congruence.
  - intros n. rewrite !list_lookup_insert, length_insert. repeat case_decide; naive_solver.
Qed.

Lemma length_swap {A} (l : list A) i j : length (swap l i j) = length l.
Proof. by rewrite swap_permutation. Qed.

Lemma shuffles_permutation {A} seed pos (order : list A) st order' st' k :
  shuffles seed pos order st order' st' k -> order' ≡ₚ order.
Proof. induction 1; [done|]. by rewrite IHshuffles, swap_permutation. Qed.

Lemma shuffles_total {A} seed pos (order : list A) st :
  Z.of_nat pos < usize_max -> exists order' st' k, shuffles seed pos order st order' st' k.
Proof.
  revert order st. induction pos as [|pos IH]; intros order st Hp; [eauto using @shuffles_0|].
  destruct (draw_index_total seed (S (S pos)) st) as (i & st1 & k & Hd); [lia|].
  destruct (IH (swap order (S pos) i) st1) as (o & st2 & k' & Hs); [lia|].
  eauto using @shuffles_S.
Qed.

Lemma shuffles_deterministic {A} seed pos (order : list A) st o1 st1 k1 o2 st2 k2 :
  shuffles seed pos order st o1 st1 k1 -> shuffles seed pos order st o2 st2 k2 ->
  o1 = o2 /\ st1 = st2 /\ k1 = k2.
Proof.
  intros H. revert o2 st2 k2. induction H as [|pos order st i st' k o st'' k' Hd Hs IH];
    intros o2 s2 k2 H2; inv H2; [done|].
  match goal with
  | H' : draw_index seed _ st _ _ _ |- _ =>
      destruct (draw_index_deterministic _ _ _ _ _ _ _ _ _ Hd H') as (-> & -> & ->)
  end.
  by edestruct IH as (-> & -> & ->).
Qed.

Lemma Forall2_swap {A B} (R : A -> B -> Prop) l l' i j :
  Forall2 R l l' -> Forall2 R (swap l i j) (swap l' i j).
Proof.
  intros H. unfold swap.
  pose proof (proj1 (Forall2_lookup R l l') H i) as Hi.
  pose proof (proj1 (Forall2_lookup R l l') H j) as Hj.
  inv Hi; [|done]. inv Hj; [|done]. by repeat apply Forall2_insert.
Qed.

(** Shuffling looks at positions only: related lists are shuffled alike. *)
Lemma shuffles_related {A B} (R : A -> B -> Prop) seed pos l l' st o st' k :
  Forall2 R l l' -> shuffles seed pos l' st o st' k ->
  exists o', shuffles seed pos l st o' st' k /\ Forall2 R o' o.
Proof.
  intros HR H. revert l HR. induction H; intros l HR; [eauto using @shuffles_0|].
  destruct (IHshuffles (swap l (S pos) index)) as (o' & Ho & HR'); [by apply Forall2_swap|].
  eauto using @shuffles_S.
Qed.
