(* ===== verification/Plan.v ===== *)
(** * Controller plans and their compilation

    Models the plan data of [crates/runtime/src/controllers.rs]
    ([ControllerNode], [LoopCount], [ControllerLimits], [ControllerError],
    [CompiledNode]) and [compile_tree], the worklist compiler from a plan tree
    to a flat node table.  The worklist is proved equal to a recursive
    compiler, on every input and for every error, and the accepted plans are
    characterised exactly. *)

From S2P Require Import Prelude.

Abbreviation ElementId := Z (only parsing).
Abbreviation NodeIndex := nat (only parsing).

Definition DEFAULT_MAX_NODES : Z := 16384.
Definition DEFAULT_MAX_DEPTH : Z := 128.
Definition MAX_ALLOWED_NODES : Z := 1048576.
Definition MAX_ALLOWED_DEPTH : Z := 4096.
Definition MAX_CONTROLLER_KIND_BYTES : Z := 4096.

(** ** Errors *)

Inductive ControllerError :=
| InvalidLoopCount (value : Z)
| InvalidLimits (max_nodes max_depth : Z)
| PlanTooLarge (nodes max_nodes : Z)
| PlanTooDeep (depth max_depth : Z)
| UnsupportedController (id : ElementId) (kind : string)
| StepBudgetExhausted (used limit : Z)
| RunBudgetExhausted (used limit : Z)
| SampleBudgetExhausted (emitted limit : Z)
| IterationOverflow (controller : ElementId)
| CounterOverflow (counter : string)
| InvalidState (node : NodeIndex)
| DuplicateElementId (id : ElementId).

#[global] Instance ControllerError_eq_dec : EqDecision ControllerError.
Proof. solve_decision. Defined.

(** [ControllerError::code] *)
Definition error_code (e : ControllerError) : string :=
  match e with
  | InvalidLoopCount _ => "runtime.controller.invalid-loop-count"
  | InvalidLimits _ _ => "runtime.controller.invalid-limits"
  | PlanTooLarge _ _ => "runtime.controller.plan-too-large"
  | PlanTooDeep _ _ => "runtime.controller.plan-too-deep"
  | UnsupportedController _ _ => "runtime.controller.unsupported"
  | StepBudgetExhausted _ _ => "runtime.controller.step-budget"
  | RunBudgetExhausted _ _ => "runtime.controller.run-budget"
  | SampleBudgetExhausted _ _ => "runtime.controller.sample-budget"
  | IterationOverflow _ => "runtime.controller.iteration-overflow"
  | CounterOverflow _ => "runtime.controller.counter-overflow"
  | InvalidState _ => "runtime.controller.invalid-state"
  | DuplicateElementId _ => "runtime.controller.duplicate-element-id"
  end.

(** ** Loop counts *)

Inductive LoopCount :=
| Finite (count : Z)
| Forever.

#[global] Instance LoopCount_eq_dec : EqDecision LoopCount.
Proof. solve_decision. Defined.

(** [LoopCount::from_jmeter] on an [i64] wire value. *)
Definition from_jmeter (value : Z) : result ControllerError LoopCount :=
  if value =? -1 then Ok Forever
  else if 0 <=? value then Ok (Finite value)
  else Err (InvalidLoopCount value).

Definition finite_count (c : LoopCount) : option Z :=
  match c with Finite n => Some n | Forever => None end.

(** ** Diagnostic kinds

    A Rust [String] is UTF-8: the model is its bytes, one [ascii] per byte.
    [is_char_boundary] is false at a continuation byte [10xxxxxx]. *)
Definition is_char_boundary (s : string) (index : nat) : bool :=
  if Nat.eqb index 0 then true
  else match String.get index s with
       | Some c =>
           let b := Z.of_N (Ascii.N_of_ascii c) in negb ((128 <=? b) && (b <? 192))
       | None => Nat.eqb index (String.length s)
       end.

(** [while end > 0 && !value.is_char_boundary(end) { end -= 1 }] *)
Fixpoint boundary_before (s : string) (end_ : nat) : nat :=
  match end_ with
  | O => O
  | S e => if is_char_boundary s end_ then end_ else boundary_before s e
  end.

Definition bounded_kind (value : string) : string :=
  if Z.of_nat (String.length value) <=? MAX_CONTROLLER_KIND_BYTES then value
  else String.substring 0 (boundary_before value (Z.to_nat MAX_CONTROLLER_KIND_BYTES)) value.

(** ** Plan trees

    The constructors of [ControllerNode], with an [N] in front. *)
Inductive ControllerNode :=
| NSample (id : ElementId)
| NSimple (id : ElementId) (children : list ControllerNode)
| NLoop (id : ElementId) (count : LoopCount) (children : list ControllerNode)
| NDisabled (id : ElementId) (children : list ControllerNode)
| NOnceOnly (id : ElementId) (children : list ControllerNode)
| NInterleave (id : ElementId) (children : list ControllerNode)
| NRandom (id : ElementId) (seed : Z) (children : list ControllerNode)
| NRandomOrder (id : ElementId) (seed : Z) (children : list ControllerNode)
| NUnsupported (id : ElementId) (kind : string).

(** [ControllerNode::unsupported] *)
Definition unsupported (id : ElementId) (kind : string) : ControllerNode :=
  NUnsupported id (bounded_kind kind).

Record ControllerLimits := mkLimits {
  max_nodes : Z;
  max_depth : Z
}.

Definition limits_default : ControllerLimits :=
  mkLimits DEFAULT_MAX_NODES DEFAULT_MAX_DEPTH.

(** [ControllerLimits::new] *)
Definition limits_new (nodes depth : Z) : result ControllerError ControllerLimits :=
  if (MAX_ALLOWED_NODES <? nodes) || (MAX_ALLOWED_DEPTH <? depth)
  then Err (InvalidLimits nodes depth)
  else Ok (mkLimits nodes depth).

(** The constructors of [CompiledNode], with a [C] in front. *)
Inductive CompiledNode :=
| CSample (id : ElementId)
| CSimple (id : ElementId) (children : list NodeIndex)
| CLoop (id : ElementId) (count : LoopCount) (children : list NodeIndex)
| CDisabled (id : ElementId)
| COnceOnly (id : ElementId) (children : list NodeIndex)
| CInterleave (id : ElementId) (children : list NodeIndex)
| CRandom (id : ElementId) (seed : Z) (children : list NodeIndex)
| CRandomOrder (id : ElementId) (seed : Z) (children : list NodeIndex).

#[global] Instance CompiledNode_eq_dec : EqDecision CompiledNode.
Proof. solve_decision. Defined.

Record CompiledProgram := mkProgram {
  prog_nodes : list CompiledNode;
  prog_root : NodeIndex
}.

Definition source_id (node : ControllerNode) : ElementId :=
  match node with
  | NSample id | NSimple id _ | NLoop id _ _ | NDisabled id _ | NOnceOnly id _
  | NInterleave id _ | NRandom id _ _ | NRandomOrder id _ _ | NUnsupported id _ => id
  end.

Definition source_children (node : ControllerNode) : option (list ControllerNode) :=
  match node with
  | NSimple _ children | NLoop _ _ children | NDisabled _ children | NOnceOnly _ children
  | NInterleave _ children | NRandom _ _ children | NRandomOrder _ _ children => Some children
  | NSample _ | NUnsupported _ _ => None
  end.

(** ** The worklist compiler *)

(** [account_source_node]: the counters [seen] and [seen_ids] after one more
    source node. *)
Definition account_source_node (node : ControllerNode) (depth : Z)
    (limits : ControllerLimits) (acc : Z * gset Z) : result ControllerError (Z * gset Z) :=
  let '(seen, seen_ids) := acc in
  if max_depth limits <? depth then Err (PlanTooDeep depth (max_depth limits))
  else
    let? next := ok_or (u64_checked_add seen 1) (CounterOverflow "controller-nodes") in
    if max_nodes limits <? next then Err (PlanTooLarge next (max_nodes limits))
    else
      let id := source_id node in
      if decide (id ∈ seen_ids) then Err (DuplicateElementId id)
      else Ok (next, {[id]} ∪ seen_ids).

Definition ensure_child_capacity (child_count seen : Z) (limits : ControllerLimits) :
    result ControllerError () :=
  let? remaining :=
    ok_or (u64_checked_sub (max_nodes limits) seen) (CounterOverflow "controller-node-budget") in
  if remaining <? child_count then
    let? nodes :=
      ok_or (u64_checked_add seen child_count) (CounterOverflow "controller-node-budget") in
    Err (PlanTooLarge nodes (max_nodes limits))
  else Ok ().

Inductive CompileTask :=
| Enter (node : ControllerNode) (depth : Z)
| InspectDisabled (node : ControllerNode) (depth : Z)
| Build (node : ControllerNode).

(** The locals of [compile_tree].  [tasks] is a stack, its top first;
    [results] and [nodes] are in vector order. *)
Record CompileState := mkCompile {
  tasks : list CompileTask;
  results : list NodeIndex;
  nodes : list CompiledNode;
  acc : Z * gset Z
}.

(** The second [match] of the [Build] task. *)
Definition build_node (node : ControllerNode) (children : list NodeIndex) : option CompiledNode :=
  match node with
  | NSimple id _ => Some (CSimple id children)
  | NLoop id count _ => Some (CLoop id count children)
  | NOnceOnly id _ => Some (COnceOnly id children)
  | NInterleave id _ => Some (CInterleave id children)
  | NRandom id seed _ => Some (CRandom id seed children)
  | NRandomOrder id seed _ => Some (CRandomOrder id seed children)
  | NSample _ | NDisabled _ _ | NUnsupported _ _ => None
  end.

(** [CompileTask::Enter] *)
Definition compile_enter (limits : ControllerLimits) (node : ControllerNode) (depth : Z)
    (st : CompileState) : result ControllerError CompileState :=
  let? a := account_source_node node depth limits (acc st) in
  let index := length (nodes st) in
  match node with
  | NSample id =>
      Ok (mkCompile (tasks st) (results st ++ [index]) (nodes st ++ [CSample id]) a)
  | NDisabled id children =>
      let? _ := ensure_child_capacity (Z.of_nat (length children)) (fst a) limits in
      let? child_depth := ok_or (u64_checked_add depth 1) (CounterOverflow "controller-depth") in
      Ok (mkCompile (map (fun child => InspectDisabled child child_depth) children ++ tasks st)
            (results st ++ [index]) (nodes st ++ [CDisabled id]) a)
  | NUnsupported id kind => Err (UnsupportedController id (bounded_kind kind))
  | NSimple _ children | NLoop _ _ children | NOnceOnly _ children
  | NInterleave _ children | NRandom _ _ children | NRandomOrder _ _ children =>
      let? _ := ensure_child_capacity (Z.of_nat (length children)) (fst a) limits in
      let? child_depth := ok_or (u64_checked_add depth 1) (CounterOverflow "controller-depth") in
      Ok (mkCompile (map (fun child => Enter child child_depth) children ++ Build node :: tasks st)
            (results st) (nodes st) a)
  end.

(** [CompileTask::InspectDisabled] *)
Definition compile_inspect (limits : ControllerLimits) (node : ControllerNode) (depth : Z)
    (st : CompileState) : result ControllerError CompileState :=
  let? a := account_source_node node depth limits (acc st) in
  match source_children node with
  | None => Ok (mkCompile (tasks st) (results st) (nodes st) a)
  | Some children =>
      let? _ := ensure_child_capacity (Z.of_nat (length children)) (fst a) limits in
      let? child_depth := ok_or (u64_checked_add depth 1) (CounterOverflow "controller-depth") in
      Ok (mkCompile (map (fun child => InspectDisabled child child_depth) children ++ tasks st)
            (results st) (nodes st) a)
  end.

(** [CompileTask::Build]: the children's indices are split off [results]. *)
Definition compile_build (node : ControllerNode) (st : CompileState) :
    result ControllerError CompileState :=
  let invalid := Err (InvalidState (length (nodes st))) in
  match node, source_children node with
  | NDisabled _ _, _ | _, None => invalid
  | _, Some kids =>
      let child_count := length kids in
      if Nat.ltb (length (results st)) child_count then invalid
      else
        let at_ := (length (results st) - child_count)%nat in
        match build_node node (drop at_ (results st)) with
        | None => invalid
        | Some compiled =>
            Ok (mkCompile (tasks st) (take at_ (results st) ++ [length (nodes st)])
                  (nodes st ++ [compiled]) (acc st))
        end
  end.

Definition compile_task (limits : ControllerLimits) (task : CompileTask) (st : CompileState) :
    result ControllerError CompileState :=
  match task with
  | Enter node depth => compile_enter limits node depth st
  | InspectDisabled node depth => compile_inspect limits node depth st
  | Build node => compile_build node st
  end.

(** [while let Some(task) = tasks.pop()] *)
Fixpoint compile_loop (limits : ControllerLimits) (fuel : nat) (st : CompileState) :
    result ControllerError CompileState :=
  match tasks st with
  | [] => Ok st
  | task :: rest =>
      match fuel with
      | O => OutOfFuel
      | S fuel =>
          let? st' := compile_task limits task (mkCompile rest (results st) (nodes st) (acc st)) in
          compile_loop limits fuel st'
      end
  end.

(** The number of source nodes, which is also the number of tasks that
    inspecting a disabled plan takes; and the number of tasks that compiling
    an enabled one takes, the fuel of the loop. *)
Fixpoint plan_size (node : ControllerNode) : nat :=
  match node with
  | NSample _ | NUnsupported _ _ => 1
  | NSimple _ ch | NLoop _ _ ch | NDisabled _ ch | NOnceOnly _ ch | NInterleave _ ch
  | NRandom _ _ ch | NRandomOrder _ _ ch => S (sum_list_with plan_size ch)
  end.

Fixpoint plan_tasks (node : ControllerNode) : nat :=
  match node with
  | NSample _ | NUnsupported _ _ => 1
  | NDisabled _ _ => plan_size node
  | NSimple _ ch | NLoop _ _ ch | NOnceOnly _ ch | NInterleave _ ch
  | NRandom _ _ ch | NRandomOrder _ _ ch => S (S (sum_list_with plan_tasks ch))
  end.

Definition compile_tree (root : ControllerNode) (limits : ControllerLimits) :
    result ControllerError (list CompiledNode * NodeIndex) :=
  let? st := compile_loop limits (plan_tasks root) (mkCompile [Enter root 0] [] [] (0, ∅)) in
  match last (results st) with
  | None => Err (InvalidState 0)
  | Some root_index =>
      if Nat.ltb 1 (length (results st)) then Err (InvalidState root_index)
      else Ok (nodes st, root_index)
  end.

(** [ControllerProgram::compile_with_limits] and [ControllerProgram::compile] *)
Definition compile_with_limits (root : ControllerNode) (limits : ControllerLimits) :
    result ControllerError CompiledProgram :=
  let? r := compile_tree root limits in
  Ok (mkProgram (fst r) (snd r)).

Definition compile (root : ControllerNode) : result ControllerError CompiledProgram :=
  compile_with_limits root limits_default.

(** ** The recursive compiler, the reference for the worklist *)

(** What both passes do on a node with [children] before descending: the
    capacity check and the depth of the children. *)
Definition open_children (limits : ControllerLimits) (children : list ControllerNode)
    (depth seen : Z) : result ControllerError Z :=
  let? _ := ensure_child_capacity (Z.of_nat (length children)) seen limits in
  ok_or (u64_checked_add depth 1) (CounterOverflow "controller-depth").

Fixpoint inspect_rec (limits : ControllerLimits) (node : ControllerNode) (depth : Z)
    (a : Z * gset Z) : result ControllerError (Z * gset Z) :=
  let? a := account_source_node node depth limits a in
  match node with
  | NSample _ | NUnsupported _ _ => Ok a
  | NSimple _ ch | NLoop _ _ ch | NDisabled _ ch | NOnceOnly _ ch | NInterleave _ ch
  | NRandom _ _ ch | NRandomOrder _ _ ch =>
      let? d := open_children limits ch depth (fst a) in
      fold_res (fun c => inspect_rec limits c d) ch a
  end.

(** Node table and counters, threaded through the recursion. *)
Definition emit_state : Type := list CompiledNode * (Z * gset Z).

Fixpoint compile_rec (limits : ControllerLimits) (node : ControllerNode) (depth : Z)
    (s : emit_state) : result ControllerError (NodeIndex * emit_state) :=
  let? a := account_source_node node depth limits (snd s) in
  match node with
  | NSample id => Ok (length (fst s), (fst s ++ [CSample id], a))
  | NUnsupported id kind => Err (UnsupportedController id (bounded_kind kind))
  | NDisabled id ch =>
      let? d := open_children limits ch depth (fst a) in
      let? a := fold_res (fun c => inspect_rec limits c d) ch a in
      Ok (length (fst s), (fst s ++ [CDisabled id], a))
  | NSimple _ ch | NLoop _ _ ch | NOnceOnly _ ch | NInterleave _ ch
  | NRandom _ _ ch | NRandomOrder _ _ ch =>
      let? d := open_children limits ch depth (fst a) in
      let? r := fold_res (fun c r =>
                   let? r' := compile_rec limits c d (snd r) in
                   Ok (fst r ++ [fst r'], snd r')) ch ([], (fst s, a)) in
      let? compiled := ok_or (build_node node (fst r)) (InvalidState (length (fst (snd r)))) in
      Ok (length (fst (snd r)), (fst (snd r) ++ [compiled], snd (snd r)))
  end.

Definition compile_tree_rec (root : ControllerNode) (limits : ControllerLimits) :
    result ControllerError (list CompiledNode * NodeIndex) :=
  let? r := compile_rec limits root 0 ([], (0, ∅)) in
  Ok (fst (snd r), fst r).

(** The loop of [compile_rec] over the children of a node. *)
Abbreviation compile_children limits d :=
  (fold_res (fun c r =>
     let? r' := compile_rec limits c d (snd r) in
     Ok (fst r ++ [fst r'], snd r'))) (only parsing).

(** ** Induction on plans *)

Lemma child_smaller t ch c :
  source_children t = Some ch -> c ∈ ch -> (plan_size c < plan_size t)%nat.
Proof.
  intros Ht Hc. assert (plan_size c <= sum_list_with plan_size ch)%nat
    by by apply sum_list_with_in.
  destruct t; simplify_eq/=; lia.
Qed.

Lemma plan_ind (P : ControllerNode -> Prop) :
  (forall t, (forall ch, source_children t = Some ch -> Forall P ch) -> P t) ->
  forall t, P t.
Proof.
  intros step t. remember (plan_size t) as n eqn:E. revert t E.
  induction n as [n IH] using lt_wf_ind. intros t ->. apply step.
  intros ch Hch. apply Forall_forall. intros c Hc.
  apply (IH (plan_size c)); [by apply (child_smaller t ch)|done].
Qed.

(** ** The worklist computes what the recursion computes *)

Section worklist.
Context (limits : ControllerLimits).
#[local] Arguments compile_loop : simpl never.

Lemma compile_loop_S fuel task ts rs ns a :
  compile_loop limits (S fuel) (mkCompile (task :: ts) rs ns a) =
  res_bind (compile_task limits task (mkCompile ts rs ns a)) (compile_loop limits fuel).
Proof. done. Qed.

Lemma loop_inspect_children ch d ts rs ns a k :
  Forall (fun t => forall d ts rs ns a k,
    compile_loop limits (plan_size t + k) (mkCompile (InspectDisabled t d :: ts) rs ns a) =
    let? a' := inspect_rec limits t d a in compile_loop limits k (mkCompile ts rs ns a')) ch ->
  compile_loop limits (sum_list_with plan_size ch + k)
    (mkCompile (map (fun c => InspectDisabled c d) ch ++ ts) rs ns a) =
  let? a' := fold_res (fun c => inspect_rec limits c d) ch a in
  compile_loop limits k (mkCompile ts rs ns a').
Proof.
  intros Hch. revert a. induction Hch as [|t ch Ht Hch IH]; intros a; [done|]. simpl.
  rewrite <- Nat.add_assoc, Ht, res_bind_assoc.
  destruct (inspect_rec _ _ _ _); simpl; auto.
Qed.

Lemma loop_inspect t d ts rs ns a k :
  compile_loop limits (plan_size t + k) (mkCompile (InspectDisabled t d :: ts) rs ns a) =
  let? a' := inspect_rec limits t d a in compile_loop limits k (mkCompile ts rs ns a').
Proof.
  revert d ts rs ns a k. induction t as [t IH] using plan_ind. intros d ts rs ns a k.
  destruct t; simpl; rewrite ?compile_loop_S; simpl; unfold compile_inspect; simpl;
    destruct (account_source_node _ _ _ _) as [a'|e|]; simpl; try done.
  all: unfold open_children; rewrite !res_bind_assoc;
    destruct (ensure_child_capacity _ _ _); simpl; try done;
    destruct (ok_or _ _); simpl; try done;
    apply loop_inspect_children; eauto.
Qed.

Lemma loop_enter_children ch d ts rs ns a k idxs :
  Forall (fun t => forall d ts rs ns a k,
    compile_loop limits (plan_tasks t + k) (mkCompile (Enter t d :: ts) rs ns a) =
    let? r := compile_rec limits t d (ns, a) in
    compile_loop limits k (mkCompile ts (rs ++ [fst r]) (fst (snd r)) (snd (snd r)))) ch ->
  compile_loop limits (sum_list_with plan_tasks ch + k)
    (mkCompile (map (fun c => Enter c d) ch ++ ts) (rs ++ idxs) ns a) =
  let? r := compile_children limits d ch (idxs, (ns, a)) in
  compile_loop limits k (mkCompile ts (rs ++ fst r) (fst (snd r)) (snd (snd r))).
Proof.
  intros Hch. revert idxs ns a. induction Hch as [|t ch Ht Hch IH]; intros idxs ns a; [done|].
  simpl. rewrite <- Nat.add_assoc, Ht, !res_bind_assoc.
  destruct (compile_rec limits t d (ns, a)) as [[i [ns' a']]| |]; simpl; try done.
  rewrite <- (assoc_L (++)). apply IH.
Qed.

Lemma compile_children_length ch d idxs s r :
  compile_children limits d ch (idxs, s) = Ok r ->
  length (fst r) = (length idxs + length ch)%nat.
Proof.
  revert idxs s. induction ch as [|t ch IH]; simpl; intros idxs s Hr; [simplify_eq; simpl; lia|].
  apply res_bind_Ok in Hr as ([idxs' s'] & Hr & Hrest).
  apply res_bind_Ok in Hr as (r' & _ & Hr). simplify_eq.
  apply IH in Hrest. rewrite Hrest, length_app. simpl. lia.
Qed.

(** The [Build] task of a node whose children just left their indices on top
    of [results]. *)
Lemma loop_build t ch ts rs idxs ns a k :
  source_children t = Some ch -> (forall id l, t <> NDisabled id l) ->
  length idxs = length ch ->
  compile_loop limits (S k) (mkCompile (Build t :: ts) (rs ++ idxs) ns a) =
  let? c := ok_or (build_node t idxs) (InvalidState (length ns)) in
  compile_loop limits k (mkCompile ts (rs ++ [length ns]) (ns ++ [c]) a).
Proof.
  intros Ht Hd Hl. rewrite compile_loop_S. cbn [compile_task].
  assert (((length rs + length ch) <? length ch) = false)%nat as Hlt by (apply Nat.ltb_ge; lia).
  unfold compile_build. destruct t; cbn [source_children] in *; simplify_eq;
    try (by destruct (Hd id ch)); cbn [results nodes tasks acc].
  all: by rewrite length_app, Hl, Hlt, Nat.add_sub, drop_app_length, take_app_length.
Qed.

Lemma loop_enter t d ts rs ns a k :
  compile_loop limits (plan_tasks t + k) (mkCompile (Enter t d :: ts) rs ns a) =
  let? r := compile_rec limits t d (ns, a) in
  compile_loop limits k (mkCompile ts (rs ++ [fst r]) (fst (snd r)) (snd (snd r))).
Proof.
  revert d ts rs ns a k. induction t as [t IH] using plan_ind. intros d ts rs ns a k.
  destruct t; simpl; rewrite ?compile_loop_S; simpl; unfold compile_enter; simpl;
    destruct (account_source_node _ _ _ _) as [a'|e|]; simpl; try done.
  all: unfold open_children; rewrite !res_bind_assoc;
    destruct (ensure_child_capacity _ _ _); simpl; try done;
    destruct (ok_or _ _) as [d'| |]; simpl; try done.
  3: { rewrite res_bind_assoc. apply loop_inspect_children, Forall_forall. intros; apply loop_inspect. }
  all: rewrite <- Nat.add_succ_r; rewrite <- (app_nil_r rs) at 1;
    rewrite loop_enter_children by eauto;
    rewrite ?res_bind_assoc;
    destruct (compile_children limits d' children _) as [r| |] eqn:Er; simpl; try done;
    apply compile_children_length in Er; by erewrite loop_build.
Qed.
End worklist.

Lemma compile_tree_worklist root limits :
  compile_tree root limits = compile_tree_rec root limits.
Proof.
  unfold compile_tree, compile_tree_rec.
  rewrite <- (Nat.add_0_r (plan_tasks root)), loop_enter.
  by destruct (compile_rec limits root 0 _).
Qed.

(** ** Which plans compile *)

(** The depth of the deepest node, the identities in preorder, and whether
    every unsupported node has a disabled ancestor. *)
Fixpoint plan_depth (node : ControllerNode) : nat :=
  match node with
  | NSample _ | NUnsupported _ _ => 0
  | NSimple _ ch | NLoop _ _ ch | NDisabled _ ch | NOnceOnly _ ch | NInterleave _ ch
  | NRandom _ _ ch | NRandomOrder _ _ ch => max_list_with (fun c => S (plan_depth c)) ch
  end.

Fixpoint plan_ids (node : ControllerNode) : list Z :=
  match node with
  | NSample id | NUnsupported id _ => [id]
  | NSimple id ch | NLoop id _ ch | NDisabled id ch | NOnceOnly id ch | NInterleave id ch
  | NRandom id _ ch | NRandomOrder id _ ch => id :: concat (map plan_ids ch)
  end.

Fixpoint executable (node : ControllerNode) : bool :=
  match node with
  | NSample _ | NDisabled _ _ => true
  | NUnsupported _ _ => false
  | NSimple _ ch | NLoop _ _ ch | NOnceOnly _ ch | NInterleave _ ch
  | NRandom _ _ ch | NRandomOrder _ _ ch => forallb executable ch
  end.

Definition limits_ok (limits : ControllerLimits) : Prop :=
  0 <= max_nodes limits <= MAX_ALLOWED_NODES /\ 0 <= max_depth limits <= MAX_ALLOWED_DEPTH.

Lemma limits_new_ok nodes depth limits :
  0 <= nodes -> 0 <= depth -> limits_new nodes depth = Ok limits -> limits_ok limits.
Proof.
  unfold limits_new, limits_ok. intros ??. destruct (_ || _) eqn:E; [done|].
  apply orb_false_iff in E as [??]. intros; simplify_eq/=. simpl_bool. lia.
Qed.

Section accepted.
Context (limits : ControllerLimits) (Hlimits : limits_ok limits).

(** [size] more nodes with identities [ids] fit: the effect on the counters. *)
Definition fits (size : Z) (ids : list Z) (a a' : Z * gset Z) : Prop :=
  fst a + size <= max_nodes limits /\ NoDup ids /\ (forall i, i ∈ ids -> i ∉ snd a) /\
  a' = (fst a + size, list_to_set ids ∪ snd a).

Lemma fits_nil a a' : fst a <= max_nodes limits -> fits 0 [] a a' <-> a' = a.
Proof.
  intros Ha. unfold fits. destruct a as [n ids]; simpl in *.
  rewrite Z.add_0_r, (union_empty_l_L ids). split; [naive_solver|].
  intros ->. split_and!; [lia|constructor|set_solver|done].
Qed.

Lemma fits_app s1 s2 l1 l2 a a2 :
  0 <= s2 ->
  (exists a1, fits s1 l1 a a1 /\ fits s2 l2 a1 a2) <-> fits (s1 + s2) (l1 ++ l2) a a2.
Proof.
  intros Hs. unfold fits. destruct a as [n ids]; simpl. rewrite list_to_set_app_L, NoDup_app.
  setoid_rewrite elem_of_app. split.
  - intros (a1 & (Hn1 & Hd1 & Hi1 & ->) & (Hn2 & Hd2 & Hi2 & ->)). simpl in *.
    split_and!; [lia|done|set_solver|done|set_solver|]. f_equal; [lia|set_solver].
  - intros (Hn & (Hd1 & Hx & Hd2) & Hi & ->).
    exists (n + s1, list_to_set l1 ∪ ids). simpl.
    split_and!; [lia|done|set_solver|done|lia|done|set_solver|]. f_equal; [lia|set_solver].
Qed.

Lemma account_Ok node d a a' :
  account_source_node node d limits a = Ok a' <->
  d <= max_depth limits /\ fits 1 [source_id node] a a'.
Proof.
  unfold account_source_node, fits. destruct a as [n ids]; simpl.
  destruct Hlimits as [[_ Hn] _]. unfold MAX_ALLOWED_NODES, u64_checked_add, u64_max in *.
  rewrite (right_id_L ∅ (∪)).
  setoid_rewrite list_elem_of_singleton.
  destruct (max_depth limits <? d) eqn:E1; simpl_bool; [split; [done|lia]|].
  destruct (n + 1 <=? _) eqn:E2; simpl; simpl_bool; [|split; [done|lia]].
  destruct (max_nodes limits <? n + 1) eqn:E3; simpl_bool; [split; [done|lia]|].
  case_decide; split; [done|naive_solver|intros; simplify_eq|naive_solver].
  split_and!; [done|done|apply NoDup_singleton|set_solver|done].
Qed.

Lemma open_children_Ok ch d seen d' :
  d <= max_depth limits ->
  open_children limits ch d seen = Ok d' <->
  seen + Z.of_nat (length ch) <= max_nodes limits /\ d' = d + 1.
Proof.
  intros Hd. destruct Hlimits as [[_ Hn] [_ Hm]].
  unfold open_children, ensure_child_capacity, u64_checked_sub, u64_checked_add.
  unfold MAX_ALLOWED_NODES, MAX_ALLOWED_DEPTH, u64_max in *.
  repeat (case_if; simpl); simpl; split; try done; try lia; try (intros; simplify_eq; lia).
  intros [_ ->]. done.
Qed.

Lemma plan_size_pos t : (1 <= plan_size t)%nat.
Proof. destruct t; simpl; lia. Qed.

Lemma forest_size_length ch : (length ch <= sum_list_with plan_size ch)%nat.
Proof. induction ch as [|t ch IH]; simpl; [lia|]. pose proof (plan_size_pos t). lia. Qed.

Lemma max_list_with_le {A} (f : A -> nat) l n :
  (max_list_with f l <= n)%nat <-> Forall (fun x => (f x <= n)%nat) l.
Proof.
  induction l as [|x l IH]; simpl; [split; [constructor|lia]|].
  rewrite Forall_cons, <- IH. lia.
Qed.

(** A node with children fits when it fits itself and then the children do. *)
Lemma fits_node id ch d a a' :
  (exists a1, (d <= max_depth limits /\ fits 1 [id] a a1) /\
     fst a1 + Z.of_nat (length ch) <= max_nodes limits /\
     Forall (fun c => d + 1 + Z.of_nat (plan_depth c) <= max_depth limits) ch /\
     fits (Z.of_nat (sum_list_with plan_size ch)) (concat (map plan_ids ch)) a1 a') <->
  d + Z.of_nat (max_list_with (fun c => S (plan_depth c)) ch) <= max_depth limits /\
  fits (Z.of_nat (S (sum_list_with plan_size ch))) (id :: concat (map plan_ids ch)) a a'.
Proof.
  replace (Z.of_nat (S (sum_list_with plan_size ch)))
    with (1 + Z.of_nat (sum_list_with plan_size ch)) by lia.
  change (id :: ?l) with ([id] ++ l). rewrite <- fits_app by lia.
  pose proof (forest_size_length ch). pose proof (max_list_with_le (fun c => S (plan_depth c)) ch).
  split.
  - intros (a1 & [Hd H1] & Hc & Hf & H2). split; [|by eauto].
    specialize (H0 (Z.to_nat (max_depth limits - d))).
    assert (max_list_with (fun c => S (plan_depth c)) ch <= Z.to_nat (max_depth limits - d))%nat;
      [|lia].
    apply H0. eapply Forall_impl; [exact Hf|]. simpl. lia.
  - intros (Hd & a1 & H1 & H2). exists a1. split; [split; [lia|done]|].
    split; [|split; [|done]].
    + destruct H2 as (? & _). lia.
    + specialize (H0 (Z.to_nat (max_depth limits - d))).
      eapply Forall_impl; [apply H0; lia|]. simpl. lia.
Qed.

Lemma inspect_children_Ok ch d a a' :
  Forall (fun t => forall d a a', inspect_rec limits t d a = Ok a' <->
    d + Z.of_nat (plan_depth t) <= max_depth limits /\
    fits (Z.of_nat (plan_size t)) (plan_ids t) a a') ch ->
  fst a <= max_nodes limits ->
  fold_res (fun c => inspect_rec limits c d) ch a = Ok a' <->
  Forall (fun c => d + Z.of_nat (plan_depth c) <= max_depth limits) ch /\
  fits (Z.of_nat (sum_list_with plan_size ch)) (concat (map plan_ids ch)) a a'.
Proof.
  intros Hch. revert a. induction Hch as [|t ch Ht _ IH]; intros a Ha; simpl.
  { rewrite (fits_nil a a') by done. split; [intros; simplify_eq|naive_solver].
    split; [constructor|done]. }
  rewrite Nat2Z.inj_add, <- fits_app, Forall_cons by lia.
  rewrite res_bind_Ok. setoid_rewrite Ht. split.
  - intros (a1 & [Hd H1] & H2). apply IH in H2 as [? H2]; [|destruct H1 as (?&_&_&->); done].
    split; [done|]. by exists a1.
  - intros ([Hd Hf] & a1 & H1 & H2). exists a1. split; [done|].
    apply IH; [destruct H1 as (?&_&_&->); done|done].
Qed.

Lemma inspect_rec_Ok t d a a' :
  inspect_rec limits t d a = Ok a' <->
  d + Z.of_nat (plan_depth t) <= max_depth limits /\
  fits (Z.of_nat (plan_size t)) (plan_ids t) a a'.
Proof.
  revert d a a'. induction t as [t IH] using plan_ind. intros d a a'.
  assert (inspect_rec limits t d a = Ok a' <-> exists a1,
    account_source_node t d limits a = Ok a1 /\
    match source_children t with
    | None => a1 = a'
    | Some ch => exists d', open_children limits ch d (fst a1) = Ok d' /\
        fold_res (fun c => inspect_rec limits c d') ch a1 = Ok a'
    end) as ->.
  { destruct t; simpl; rewrite res_bind_Ok; f_equiv; intros a1; rewrite ?res_bind_Ok; try done.
    all: split; intros []; simplify_eq; done. }
  setoid_rewrite account_Ok.
  destruct (source_children t) as [ch|] eqn:Ech.
  - transitivity (exists a1, (d <= max_depth limits /\ fits 1 [source_id t] a a1) /\
     fst a1 + Z.of_nat (length ch) <= max_nodes limits /\
     Forall (fun c => d + 1 + Z.of_nat (plan_depth c) <= max_depth limits) ch /\
     fits (Z.of_nat (sum_list_with plan_size ch)) (concat (map plan_ids ch)) a1 a').
    + f_equiv. intros a1. split.
      * intros ([Hd H1] & d' & Hd' & H2). apply open_children_Ok in Hd' as [? ->]; [|done].
        apply inspect_children_Ok in H2; [naive_solver|by apply IH|lia].
      * intros ([Hd H1] & Hc & H2). split; [done|]. exists (d + 1).
        split; [by apply open_children_Ok|].
        apply inspect_children_Ok; [by apply IH|lia|done].
    + rewrite fits_node. by destruct t; simplify_eq/=.
  - destruct t; simplify_eq/=; rewrite Z.add_0_r; naive_solver.
Qed.
End accepted.

(** Compiling succeeds exactly where inspecting does and no enabled node is
    unsupported; the counters agree. *)
Lemma compile_children_inspect limits ch d idxs ns a a' :
  Forall (fun t => forall d ns a a',
    (exists i ns', compile_rec limits t d (ns, a) = Ok (i, (ns', a'))) <->
    inspect_rec limits t d a = Ok a' /\ executable t = true) ch ->
  (exists l ns', compile_children limits d ch (idxs, (ns, a)) = Ok (l, (ns', a'))) <->
  fold_res (fun c => inspect_rec limits c d) ch a = Ok a' /\ forallb executable ch = true.
Proof.
  intros Hch. revert idxs ns a. induction Hch as [|t ch Ht _ IH]; intros idxs ns a; simpl.
  { split; [by intros (?&?&?); simplify_eq|]. intros [? _]; simplify_eq; eauto. }
  rewrite andb_true_iff, res_bind_Ok. split.
  - intros (l & ns' & H). apply res_bind_Ok in H as (r & H1 & H2).
    apply res_bind_Ok in H1 as ([i [ns1 a1]] & H1 & ?). simplify_eq/=.
    destruct (proj1 (Ht d ns a a1)) as [Hi He]; [by eauto|].
    destruct (proj1 (IH (idxs ++ [i]) ns1 a1)); [by eauto|]. eauto.
  - intros ((a1 & H1 & H2) & He1 & He2).
    destruct (proj2 (Ht d ns a a1)) as (i & ns1 & Hc); [done|].
    destruct (proj2 (IH (idxs ++ [i]) ns1 a1)) as (l & ns2 & Hl); [done|].
    exists l, ns2. by rewrite Hc.
Qed.

Lemma compile_rec_inspect limits t d ns a a' :
  (exists i ns', compile_rec limits t d (ns, a) = Ok (i, (ns', a'))) <->
  inspect_rec limits t d a = Ok a' /\ executable t = true.
Proof.
  revert d ns a a'. induction t as [t IH] using plan_ind. intros d ns a a'.
  destruct t; simpl; destruct (account_source_node _ _ _ _) as [a1| |]; simpl;
    try (destruct (open_children _ _ _ _) as [d'| |]); simpl;
    try (by split; [intros (? & ? & ?)|intros [? ?]]; simplify_eq; eauto).
  all: try rewrite <- (compile_children_inspect limits children d' [] ns a1 a') by eauto.
  all: setoid_rewrite res_bind_Ok; split;
    [intros (? & ? & [? [? ?]] & ? & ?) || intros (? & ? & ? & ? & ?)
    |intros (? & ? & ?) || intros (? & ?)]; simplify_eq/=; eauto 10.
Qed.

(** ** What the node table says *)

Inductive represents (ns : list CompiledNode) : NodeIndex -> ControllerNode -> Prop :=
| rep_sample i id : ns !! i = Some (CSample id) -> represents ns i (NSample id)
| rep_disabled i id ch : ns !! i = Some (CDisabled id) -> represents ns i (NDisabled id ch)
| rep_composite i t ch idxs c :
    source_children t = Some ch -> build_node t idxs = Some c ->
    ns !! i = Some c -> Forall2 (represents ns) idxs ch -> represents ns i t.

Lemma represents_weaken ns l i t : represents ns i t -> represents (ns ++ l) i t.
Proof.
  revert i. induction t as [t IH] using plan_ind. intros i Ht.
  inv Ht; [by constructor; apply lookup_app_l_Some..|].
  eapply rep_composite; eauto using lookup_app_l_Some.
  specialize (IH _ H). clear -IH H2. induction H2; [constructor|].
  apply Forall_cons in IH as [??]. constructor; auto.
Qed.

Lemma represents_prefix ns ns' i t :
  ns `prefix_of` ns' -> represents ns i t -> represents ns' i t.
Proof. intros [l ->]. apply represents_weaken. Qed.

Lemma compile_children_represents limits d ch idxs done_ ns a r :
  Forall (fun t => forall d ns a r, compile_rec limits t d (ns, a) = Ok r ->
    ns `prefix_of` fst (snd r) /\ represents (fst (snd r)) (fst r) t) ch ->
  Forall2 (represents ns) idxs done_ ->
  compile_children limits d ch (idxs, (ns, a)) = Ok r ->
  ns `prefix_of` fst (snd r) /\ Forall2 (represents (fst (snd r))) (fst r) (done_ ++ ch).
Proof.
  intros Hch. revert idxs done_ ns a. induction Hch as [|t ch Ht _ IH]; simpl;
    intros idxs done_ ns a Hd Hr; simplify_eq/=.
  { by rewrite app_nil_r. }
  apply res_bind_Ok in Hr as (r1 & H1 & H2).
  apply res_bind_Ok in H1 as ([i [ns1 a1]] & H1 & ?). simplify_eq/=.
  apply Ht in H1 as [Hp Hrep]; simpl in *.
  rewrite (cons_middle t), (assoc_L (++)).
  apply (IH _ (done_ ++ [t])) in H2 as [Hp' H2]; [split; [by etrans|done]|].
  apply Forall2_app; [|by repeat constructor].
  eapply Forall2_impl; eauto using represents_prefix.
Qed.

Lemma compile_rec_represents limits t d ns a r :
  compile_rec limits t d (ns, a) = Ok r ->
  ns `prefix_of` fst (snd r) /\ represents (fst (snd r)) (fst r) t.
Proof.
  revert d ns a r. induction t as [t IH] using plan_ind. intros d ns a r Hr.
  assert (forall n : CompiledNode, (ns ++ [n]) !! length ns = Some n) as Hlast
    by (intros; by apply list_lookup_middle).
  destruct t; simpl in Hr; apply res_bind_Ok in Hr as (a1 & _ & Hr); simplify_eq/=.
  1: split; [by apply prefix_app_r|by constructor].
  all: apply res_bind_Ok in Hr as (d' & _ & Hr).
  3: { apply res_bind_Ok in Hr as (a2 & _ & Hr). simplify_eq/=.
       split; [by apply prefix_app_r|by constructor]. }
  all: apply res_bind_Ok in Hr as ([idxs [ns1 a2]] & Hc & Hr); simplify_eq/=;
    apply (compile_children_represents _ _ _ _ []) in Hc as [Hp Hrep]; simpl in *; eauto;
    split; [by apply prefix_app_r|];
    eapply rep_composite; [done|done|by apply list_lookup_middle|];
    eapply Forall2_impl; eauto using represents_weaken.
Qed.

Lemma compile_with_limits_rec root limits p :
  compile_with_limits root limits = Ok p <->
  exists a, compile_rec limits root 0 ([], (0, ∅)) = Ok (prog_root p, (prog_nodes p, a)).
Proof.
  unfold compile_with_limits. rewrite compile_tree_worklist. unfold compile_tree_rec.
  rewrite res_bind_assoc, res_bind_Ok. split.
  - intros ([i [ns a]] & Hc & ?). simplify_eq/=. eauto.
  - intros [a Hc]. rewrite Hc. eexists; split; [done|]. by destruct p.
Qed.

Lemma compile_accepts_iff root limits :
  limits_ok limits ->
  (exists p, compile_with_limits root limits = Ok p) <->
  Z.of_nat (plan_depth root) <= max_depth limits /\
  Z.of_nat (plan_size root) <= max_nodes limits /\
  NoDup (plan_ids root) /\ executable root = true.
Proof.
  intros Hl. setoid_rewrite compile_with_limits_rec.
  transitivity (exists a', inspect_rec limits root 0 (0, ∅) = Ok a' /\ executable root = true).
  - setoid_rewrite <- (compile_rec_inspect limits root 0 [] (0, ∅)). split.
    + intros (p & a & Hc). eauto.
    + intros (a' & i & ns' & Hc). by exists (mkProgram ns' i), a'.
  - setoid_rewrite (inspect_rec_Ok limits Hl). unfold fits. simpl. split; [naive_solver|].
    intros (Hd & Hs & Hn & He). eexists. split_and!; try done.
Qed.

Lemma compile_represents root limits p :
  compile_with_limits root limits = Ok p -> represents (prog_nodes p) (prog_root p) root.
Proof. intros [a Hc]%compile_with_limits_rec. by apply compile_rec_represents in Hc as [_ ?]. Qed.

(** ** The compiler's properties *)

(** The worklist compiler computes what recursion over the plan computes:
    the same node table, and on a bad plan the same first error. *)
Theorem compile_equals_recursive root limits :
  compile_tree root limits = compile_tree_rec root limits.
Proof. apply compile_tree_worklist. Qed.

(** The plans that compile are exactly those within the depth and node
    limits, without duplicate element ids (disabled subtrees included) and
    without unsupported elements outside disabled subtrees. *)
Theorem compile_accepts root limits :
  limits_ok limits ->
  (exists p, compile_with_limits root limits = Ok p) <->
  Z.of_nat (plan_depth root) <= max_depth limits /\
  Z.of_nat (plan_size root) <= max_nodes limits /\
  NoDup (plan_ids root) /\ executable root = true.
Proof. apply compile_accepts_iff. Qed.

(** The node table of a compiled plan is the plan: from the root on, every
    entry has the kind, identity and parameters of its plan node, and its
    child indices lead, in order, to entries that represent the children. *)
Theorem compiled_table_represents root limits p :
  compile_with_limits root limits = Ok p -> represents (prog_nodes p) (prog_root p) root.
Proof. apply compile_represents. Qed.

(** ** Diagnostic kinds *)

Lemma boundary_before_spec s e :
  let k := boundary_before s e in
  (k <= e)%nat /\ is_char_boundary s k = true /\
  forall j, (k < j <= e)%nat -> is_char_boundary s j = false.
Proof.
  induction e as [|e IH]; [by split_and!; [|done|lia]|]. cbn [boundary_before].
  destruct (is_char_boundary s (S e)) eqn:E; cbv zeta.
  - split_and!; [lia|done|lia].
  - destruct IH as (H1 & H2 & H3). split_and!; [lia|done|]. intros j Hj.
    destruct (decide (j = S e)) as [->|]; [done|]. apply H3. lia.
Qed.

Lemma length_substring s k : (k <= String.length s)%nat -> String.length (String.substring 0 k s) = k.
Proof.
  revert k. induction s as [|c s IH]; intros [|k] Hk; simpl in *; try lia. rewrite IH; lia.
Qed.

Lemma substring_full s : String.substring 0 (String.length s) s = s.
Proof. induction s as [|c s IH]; simpl; [done|by rewrite IH]. Qed.

Lemma get_lt s n c : String.get n s = Some c -> (n < String.length s)%nat.
Proof.
  revert n. induction s as [|d s IH]; intros [|n]; simpl; try done; [lia|]. intros H%IH. lia.
Qed.

(** [bounded_kind] keeps the longest prefix of at most 4096 bytes that
    does not cut a character in two, the whole text if it is short enough. *)
Theorem bounded_kind_longest value :
  exists k, bounded_kind value = String.substring 0 k value /\
    String.length (bounded_kind value) = k /\
    Z.of_nat k <= MAX_CONTROLLER_KIND_BYTES /\ is_char_boundary value k = true /\
    forall j, (k < j <= String.length value)%nat -> Z.of_nat j <= MAX_CONTROLLER_KIND_BYTES ->
      is_char_boundary value j = false.
Proof.
  unfold bounded_kind. destruct (_ <=? _) eqn:E; simpl_bool.
  - exists (String.length value). rewrite substring_full. split_and!; [done|done|done| |lia].
    unfold is_char_boundary. destruct (Nat.eqb _ _); [done|].
    destruct (String.get _ _) eqn:G; [|by rewrite Nat.eqb_refl].
    apply get_lt in G. lia.
  - destruct (boundary_before_spec value (Z.to_nat MAX_CONTROLLER_KIND_BYTES)) as (H1 & H2 & H3).
    set (k := boundary_before _ _) in *. exists k.
    assert (MAX_CONTROLLER_KIND_BYTES = 4096) as Hm by done.
    split_and!; [done|apply length_substring; lia|lia|done|].
    intros j Hj Hj'. apply H3. lia.
Qed.

(** ** An example plan *)

Definition example_plan : ControllerNode :=
  NSimple 1 [NLoop 2 (Finite 2) [NOnceOnly 3 [NSample 4]; NSample 5]].

Definition example_program : CompiledProgram :=
  mkProgram [CSample 4; COnceOnly 3 [0%nat]; CSample 5; CLoop 2 (Finite 2) [1%nat; 2%nat];
             CSimple 1 [3%nat]] 4.

Lemma limits_default_ok : limits_ok limits_default.
Proof. unfold limits_ok. vm_compute. intuition discriminate. Qed.

Lemma example_compiles : compile_with_limits example_plan limits_default = Ok example_program.
Proof. vm_compute. reflexivity. Qed.

Lemma compile_accepts_witness :
  exists p, compile_with_limits example_plan limits_default = Ok p.
Proof.
  apply (compile_accepts example_plan limits_default limits_default_ok).
  split_and!; [vm_compute; discriminate..| |reflexivity]. by apply (bool_decide_unpack _).
Defined.

Lemma compiled_table_represents_witness :
  represents (prog_nodes example_program) (prog_root example_program) example_plan.
Proof. apply (compiled_table_represents _ limits_default). exact example_compiles. Defined.
