(* ===== verification/Runner.v ===== *)
(** * The controller runner

    Models [ControllerRunner] of [crates/runtime/src/controllers.rs]: the
    stack machine that walks a compiled plan for one virtual user, its
    budgets and its reaction to control signals.  Every method that takes
    [&mut self] or [&mut budget] is a computation in the state-and-error
    monad of the prelude, so what a failing method leaves behind is part of
    the model. *)

From S2P Require Import Prelude Control Random Plan.

(** ** Budgets *)

Record StepBudget := mkStep {
  sb_limit : Z;
  sb_used : Z
}.

#[global] Instance StepBudget_eq_dec : EqDecision StepBudget.
Proof. solve_decision. Defined.

Definition step_budget_new (limit : Z) : StepBudget := mkStep limit 0.

Definition remaining (b : StepBudget) : Z :=
  match u64_checked_sub (sb_limit b) (sb_used b) with Some r => r | None => 0 end.

(** [StepBudget::spend] *)
Definition step_spend (b : StepBudget) : result ControllerError StepBudget :=
  if sb_limit b <=? sb_used b then Err (StepBudgetExhausted (sb_used b) (sb_limit b))
  else
    let? used := ok_or (u64_checked_add (sb_used b) 1) (CounterOverflow "step-budget") in
    Ok (mkStep (sb_limit b) used).

Record RunBudget := mkRun {
  max_samples : Z;
  max_transitions : Z;
  emitted : Z;
  transitions : Z
}.

#[global] Instance RunBudget_eq_dec : EqDecision RunBudget.
Proof. solve_decision. Defined.

Definition run_budget_new (samples trans : Z) : RunBudget := mkRun samples trans 0 0.

(** [RunBudget::next_step_budget] *)
Definition next_step_budget (rb : RunBudget) : result ControllerError StepBudget :=
  if max_transitions rb <=? transitions rb
  then Err (RunBudgetExhausted (transitions rb) (max_transitions rb))
  else Ok (step_budget_new (max_transitions rb - transitions rb)).

(** [RunBudget::record_step] *)
Definition record_step (rb : RunBudget) (b : StepBudget) : result ControllerError RunBudget :=
  let? t := ok_or (u64_checked_add (transitions rb) (sb_used b))
              (CounterOverflow "run-budget.transitions") in
  Ok (mkRun (max_samples rb) (max_transitions rb) (emitted rb) t).

(** [RunBudget::reserve_sample] *)
Definition run_reserve (rb : RunBudget) : result ControllerError RunBudget :=
  if max_samples rb <=? emitted rb
  then Err (SampleBudgetExhausted (emitted rb) (max_samples rb))
  else
    let? e := ok_or (u64_checked_add (emitted rb) 1) (CounterOverflow "run-budget.samples") in
    Ok (mkRun (max_samples rb) (max_transitions rb) e (transitions rb)).

(** ** What a runner reports *)

Inductive ControllerKind :=
| KSimple | KLoop | KOnceOnly | KInterleave | KRandom | KRandomOrder.

Record ControllerCursor := mkCursor {
  cur_id : ElementId;
  cur_kind : ControllerKind;
  cur_iteration : Z
}.

Record SampleSelection := mkSelection {
  sampler_id : ElementId;
  execution_iteration : Z;
  path : list ControllerCursor
}.

Inductive ControllerStep :=
| StepSample (s : SampleSelection)
| StepComplete
| StepStopped (s : ControlSignal).

Record ExecutionTrace := mkTrace {
  samples : list SampleSelection;
  trace_end : ControllerStep
}.

#[global] Instance ControllerKind_eq_dec : EqDecision ControllerKind.
Proof. solve_decision. Defined.
#[global] Instance ControllerCursor_eq_dec : EqDecision ControllerCursor.
Proof. solve_decision. Defined.
#[global] Instance SampleSelection_eq_dec : EqDecision SampleSelection.
Proof. solve_decision. Defined.
#[global] Instance ControllerStep_eq_dec : EqDecision ControllerStep.
Proof. solve_decision. Defined.

(** ** The runner's state *)

Inductive FrameMode :=
| Ordered
| Skip
| OneShot (child : option NodeIndex)
| RandomOrder (order : option (list NodeIndex)).

Record Frame := mkFrame {
  f_node : NodeIndex;
  f_next_child : nat;
  f_iteration : Z;
  f_mode : FrameMode
}.

Inductive FrameAction :=
| Select (child : NodeIndex)
| Finish
| AdvanceLoop.

(** [ControllerRunner], its [program] apart.  The stack's top is the head of
    the list, so [frame_index = stack.len() - 1] is the head. *)
Record ControllerRunner := mkRunner {
  stack : list Frame;
  root_started : bool;
  finished : bool;
  terminal : option ControlSignal;
  completed_iterations : Z;
  once_done : gset Z;
  interleave_next : gmap Z nat;
  random_states : gmap Z Z
}.

(** [ControllerRunner::from_program], [new], [clone_for_user]. *)
Definition runner_new : ControllerRunner :=
  mkRunner [] false false None 0 ∅ ∅ ∅.

(** [ControllerRunner::reset]: every field is cleared. *)
Definition reset (r : ControllerRunner) : ControllerRunner :=
  mkRunner [] false false None 0 ∅ ∅ ∅.

(** [ControllerRunner::next_root_iteration]: once-only marks, interleave
    cursors and random states survive. *)
Definition next_root_iteration (r : ControllerRunner) :
    result ControllerError ControllerRunner :=
  if negb (finished r) then Err (InvalidState 0)
  else Ok (mkRunner [] false false None (completed_iterations r) (once_done r)
             (interleave_next r) (random_states r)).

(** Field updates. *)
Definition with_stack (s : list Frame) (r : ControllerRunner) : ControllerRunner :=
  mkRunner s (root_started r) (finished r) (terminal r) (completed_iterations r)
    (once_done r) (interleave_next r) (random_states r).
Definition with_started (r : ControllerRunner) : ControllerRunner :=
  mkRunner (stack r) true (finished r) (terminal r) (completed_iterations r)
    (once_done r) (interleave_next r) (random_states r).
Definition with_terminal (t : option ControlSignal) (r : ControllerRunner) : ControllerRunner :=
  mkRunner (stack r) (root_started r) (finished r) t (completed_iterations r)
    (once_done r) (interleave_next r) (random_states r).
Definition with_finished (n : Z) (r : ControllerRunner) : ControllerRunner :=
  mkRunner (stack r) (root_started r) true (terminal r) n
    (once_done r) (interleave_next r) (random_states r).
Definition with_once (o : gset Z) (r : ControllerRunner) : ControllerRunner :=
  mkRunner (stack r) (root_started r) (finished r) (terminal r) (completed_iterations r)
    o (interleave_next r) (random_states r).
Definition with_interleave (i : gmap Z nat) (r : ControllerRunner) : ControllerRunner :=
  mkRunner (stack r) (root_started r) (finished r) (terminal r) (completed_iterations r)
    (once_done r) i (random_states r).
Definition with_random (m : gmap Z Z) (r : ControllerRunner) : ControllerRunner :=
  mkRunner (stack r) (root_started r) (finished r) (terminal r) (completed_iterations r)
    (once_done r) (interleave_next r) m.

(** The state a step works on: the runner and the two budgets it borrows. *)
Record Machine := mkMachine {
  m_runner : ControllerRunner;
  m_step : StepBudget;
  m_run : RunBudget
}.

Definition M (A : Type) : Type := ST Machine ControllerError A.

Definition get_runner : M ControllerRunner := fun m => (Ok (m_runner m), m).
Definition set_runner (r : ControllerRunner) : M () :=
  fun m => (Ok (), mkMachine r (m_step m) (m_run m)).
Definition update_runner (f : ControllerRunner -> ControllerRunner) : M () :=
  fun m => (Ok (), mkMachine (f (m_runner m)) (m_step m) (m_run m)).

Definition spend : M () := fun m =>
  match step_spend (m_step m) with
  | Ok b => (Ok (), mkMachine (m_runner m) b (m_run m))
  | Err e => (Err e, m)
  | OutOfFuel => (OutOfFuel, m)
  end.

Definition reserve_sample : M () := fun m =>
  match run_reserve (m_run m) with
  | Ok rb => (Ok (), mkMachine (m_runner m) (m_step m) rb)
  | Err e => (Err e, m)
  | OutOfFuel => (OutOfFuel, m)
  end.

(** [restore_random_state] *)
Definition restore_random_state (id : ElementId) (previous : option Z) : M () :=
  update_runner (fun r =>
    with_random (match previous with
                 | Some s => <[id := s]> (random_states r)
                 | None => delete id (random_states r)
                 end) r).

Section program.
Context (p : CompiledProgram).

Definition node_at (i : NodeIndex) : option CompiledNode := prog_nodes p !! i.

(** [ControllerRunner::node_identity], [root_identity], [iteration_overflow] *)
Definition node_identity (node : NodeIndex) : option ElementId :=
  match node_at node with
  | Some (CSimple id _ | CLoop id _ _ | CDisabled id | COnceOnly id _ | CInterleave id _
         | CRandom id _ _ | CRandomOrder id _ _ | CSample id) => Some id
  | None => Some (Z.of_nat node)
  end.

Definition root_identity : result ControllerError ElementId :=
  ok_or (node_identity (prog_root p)) (CounterOverflow "controller-identity").

Definition iteration_overflow (node : NodeIndex) : ControllerError :=
  match node_identity node with
  | Some controller => IterationOverflow controller
  | None => CounterOverflow "controller-identity"
  end.

(** [compiled_children] and [compiled_child_at] *)
Definition compiled_children (node : NodeIndex) : result ControllerError (list NodeIndex) :=
  match node_at node with
  | Some (CSimple _ children | CLoop _ _ children | COnceOnly _ children
         | CInterleave _ children | CRandom _ _ children | CRandomOrder _ _ children) =>
      Ok children
  | Some (CSample _ | CDisabled _) | None => Err (InvalidState node)
  end.

Definition compiled_child_at (node : NodeIndex) (position : nat) :
    result ControllerError (option NodeIndex) :=
  let? children := compiled_children node in Ok (children !! position).

(** [selection]: the cursors of the active controllers, outermost first. *)
Definition frame_cursor (f : Frame) : option ControllerCursor :=
  match node_at (f_node f) with
  | Some (CSimple id _) => Some (mkCursor id KSimple 0)
  | Some (CLoop id _ _) => Some (mkCursor id KLoop (f_iteration f))
  | Some (COnceOnly id _) => Some (mkCursor id KOnceOnly 0)
  | Some (CInterleave id _) => Some (mkCursor id KInterleave 0)
  | Some (CRandom id _ _) => Some (mkCursor id KRandom 0)
  | Some (CRandomOrder id _ _) => Some (mkCursor id KRandomOrder 0)
  | Some (CDisabled _ | CSample _) | None => None
  end.

Definition selection (r : ControllerRunner) (sampler : ElementId) : SampleSelection :=
  mkSelection sampler (completed_iterations r) (omap frame_cursor (reverse (stack r))).

(** [current_iteration] of an active controller *)
Definition current_iteration (r : ControllerRunner) (controller : ElementId) : option Z :=
  head (omap (fun f =>
    match node_at (f_node f) with
    | Some (CLoop id _ _) => if id =? controller then Some (f_iteration f) else None
    | Some (CSimple id _ | COnceOnly id _ | CInterleave id _ | CRandom id _ _
           | CRandomOrder id _ _) => if id =? controller then Some 0 else None
    | Some (CSample _ | CDisabled _) | None => None
    end) (stack r)).

(** [push_frame]: a once-only controller is marked on its first entry. *)
Definition push_frame (node : NodeIndex) (iteration : Z) : M () :=
  do! r <- get_runner in
  do! mode <-
    match node_at node with
    | Some (CDisabled _) => st_ret Skip
    | Some (COnceOnly id _) =>
        if decide (id ∈ once_done r) then st_ret Skip
        else set_runner (with_once ({[id]} ∪ once_done r) r) ;! st_ret Ordered
    | Some (CInterleave _ _ | CRandom _ _ _) => st_ret (OneShot None)
    | Some (CRandomOrder _ _ _) => st_ret (RandomOrder None)
    | Some (CSample _ | CSimple _ _ | CLoop _ _ _) => st_ret Ordered
    | None => st_fail (InvalidState node)
    end in
  update_runner (fun r => with_stack (mkFrame node 0 iteration mode :: stack r) r).

Definition top_frame : M Frame :=
  do! r <- get_runner in
  match stack r with
  | [] => st_fail (InvalidState (prog_root p))
  | f :: _ => st_ret f
  end.

Definition update_top (g : Frame -> Frame) : M () :=
  update_runner (fun r =>
    match stack r with
    | [] => r
    | f :: rest => with_stack (g f :: rest) r
    end).

Definition set_mode (mode : FrameMode) : M () :=
  update_top (fun f => mkFrame (f_node f) (f_next_child f) (f_iteration f) mode).

(** [advance_child] of the top frame *)
Definition advance_child : M () :=
  do! f <- top_frame in
  do! next <- st_lift (ok_or (usize_succ (f_next_child f))
                         (CounterOverflow "controller-child-index")) in
  update_top (fun f => mkFrame (f_node f) next (f_iteration f) (f_mode f)).

Definition reserve_child_sample (child : NodeIndex) : M () :=
  match node_at child with
  | Some (CSample _) => reserve_sample
  | _ => st_ret ()
  end.

(** The [loop] of [random_index]; the stream's state is in the map. *)
Fixpoint random_loop (fuel : nat) (id : ElementId) (seed : Z) (bound : nat) : M nat :=
  match fuel with
  | O => st_lift OutOfFuel
  | S fuel =>
      do! r <- get_runner in
      let '(value, state) := next_seeded_value (default seed (random_states r !! id)) in
      set_runner (with_random (<[id := state]> (random_states r)) r) ;!
      match uniform_index value (Z.of_nat bound) with
      | Some index => st_ret (Z.to_nat index)
      | None => spend ;! random_loop fuel id seed bound
      end
  end.

(** [random_index]: every rejected draw but the last costs a transition. *)
Definition random_index (id : ElementId) (seed : Z) (bound : nat) : M nat :=
  if Nat.leb bound 1 then st_ret 0%nat
  else fun m => random_loop (S (Z.to_nat (remaining (m_step m)))) id seed bound m.

(** Runs [m] and on an error puts the stream of [id] back to [previous]. *)
Definition restoring {A} (id : ElementId) (previous : option Z) (m : M A) : M A :=
  fun s =>
    match m s with
    | (Err e, s') => (st_bind (restore_random_state id previous) (fun _ => st_fail e)) s'
    | other => other
    end.

(** The [for position in (1..order.len()).rev()] loop: Fisher-Yates. *)
Fixpoint shuffle (id : ElementId) (seed : Z) (previous : option Z) (position : nat)
    (order : list NodeIndex) : M (list NodeIndex) :=
  match position with
  | O => st_ret order
  | S position' =>
      do! bound <- st_lift (ok_or (usize_succ position) (CounterOverflow "random-order-bound")) in
      do! index <- restoring id previous (random_index id seed bound) in
      shuffle id seed previous position' (swap order position index)
  end.

(** The arm shared by Simple, Once Only and the running Loop. *)
Definition select_child (child : NodeIndex) : M FrameAction :=
  reserve_child_sample child ;!
  advance_child ;!
  st_ret (Select child).

(** The arms of [frame_action], one per kind of node. *)
Definition action_ordered (f : Frame) : M FrameAction :=
  do! child <- st_lift (compiled_child_at (f_node f) (f_next_child f)) in
  match child with
  | Some child => select_child child
  | None => st_ret Finish
  end.

Definition action_loop (f : Frame) (count : LoopCount) : M FrameAction :=
  match count with
  | Finite 0 => st_ret Finish
  | _ =>
      do! child <- st_lift (compiled_child_at (f_node f) (f_next_child f)) in
      match child with
      | Some child => select_child child
      | None =>
          match count with
          | Finite total =>
              do! next <- st_lift (ok_or (u64_checked_add (f_iteration f) 1)
                                     (iteration_overflow (f_node f))) in
              st_ret (if total <=? next then Finish else AdvanceLoop)
          | Forever => st_ret AdvanceLoop
          end
      end
  end.

Definition action_once_only (f : Frame) : M FrameAction :=
  match f_mode f with
  | Skip => st_ret Finish
  | _ => action_ordered f
  end.

Definition action_interleave (f : Frame) (id : ElementId) : M FrameAction :=
  let node := f_node f in
  do! children <- st_lift (compiled_children node) in
  match children, f_mode f with
  | [], _ => st_ret Finish
  | _, OneShot (Some _) => st_ret Finish
  | _, OneShot None =>
      do! r <- get_runner in
      let cursor := default 0%nat (interleave_next r !! id) in
      let index := Nat.modulo cursor (length children) in
      do! child <- st_lift (ok_or (children !! index) (InvalidState node)) in
      do! next_cursor <- st_lift (ok_or (usize_succ cursor) (CounterOverflow "interleave-cursor")) in
      reserve_child_sample child ;!
      update_runner (fun r => with_interleave (<[id := next_cursor]> (interleave_next r)) r) ;!
      set_mode (OneShot (Some child)) ;!
      st_ret (Select child)
  | _, _ => st_fail (InvalidState node)
  end.

Definition action_random (f : Frame) (id : ElementId) (seed : Z) : M FrameAction :=
  let node := f_node f in
  do! children <- st_lift (compiled_children node) in
  match children, f_mode f with
  | [], _ => st_ret Finish
  | _, OneShot (Some _) => st_ret Finish
  | _, OneShot None =>
      do! r <- get_runner in
      let previous_state := random_states r !! id in
      do! index <- restoring id previous_state (random_index id seed (length children)) in
      do! child <- st_lift (ok_or (children !! index) (InvalidState node)) in
      restoring id previous_state (reserve_child_sample child) ;!
      set_mode (OneShot (Some child)) ;!
      st_ret (Select child)
  | _, _ => st_fail (InvalidState node)
  end.

(** The order drawn at the first visit of a Random Order frame, with the
    sample of its first child already reserved. *)
Definition draw_order (id : ElementId) (seed : Z) (children : list NodeIndex) : M () :=
  do! r <- get_runner in
  let previous_state := random_states r !! id in
  do! order <- shuffle id seed previous_state (pred (length children)) children in
  match order with
  | child :: _ => restoring id previous_state (reserve_child_sample child)
  | [] => st_ret ()
  end ;!
  set_mode (RandomOrder (Some order)).

Definition action_random_order (f : Frame) (id : ElementId) (seed : Z) : M FrameAction :=
  let node := f_node f in
  do! children <- st_lift (compiled_children node) in
  match children, f_mode f with
  | [], _ => st_ret Finish
  | _, RandomOrder order =>
      let order_missing := match order with None => true | Some _ => false end in
      (if order_missing then draw_order id seed children else st_ret ()) ;!
      do! f' <- top_frame in
      let child := match f_mode f' with
                   | RandomOrder (Some order) => order !! f_next_child f
                   | _ => None
                   end in
      match child with
      | None => st_ret Finish
      | Some child =>
          (if order_missing then st_ret () else reserve_child_sample child) ;!
          advance_child ;!
          st_ret (Select child)
      end
  | _, _ => st_fail (InvalidState node)
  end.

(** [frame_action], by the kind of the top frame's node
    ([compiled_node_kind]). *)
Definition frame_arm (f : Frame) : M FrameAction :=
  match node_at (f_node f) with
  | Some (CSample _) => st_fail (InvalidState (f_node f))
  | Some (CDisabled _) => st_ret Finish
  | Some (CSimple _ _) => action_ordered f
  | Some (CLoop _ count _) => action_loop f count
  | Some (COnceOnly _ _) => action_once_only f
  | Some (CInterleave id _) => action_interleave f id
  | Some (CRandom id seed _) => action_random f id seed
  | Some (CRandomOrder id seed _) => action_random_order f id seed
  | None => st_fail (InvalidState (f_node f))
  end.

Definition frame_action : M FrameAction :=
  do! f <- top_frame in frame_arm f.

(** [FrameAction::AdvanceLoop] *)
Definition advance_loop : M () :=
  do! f <- top_frame in
  do! iteration <- st_lift (ok_or (u64_checked_add (f_iteration f) 1)
                              (iteration_overflow (f_node f))) in
  update_top (fun f => mkFrame (f_node f) 0 iteration Ordered).

Definition pop_frame : M () :=
  update_runner (fun r => with_stack (tail (stack r)) r).

(** The end of a root traversal: [finished] and the iteration count. *)
Definition complete_root : M ControllerStep :=
  do! controller <- st_lift root_identity in
  do! r <- get_runner in
  do! n <- st_lift (ok_or (u64_checked_add (completed_iterations r) 1)
                      (IterationOverflow controller)) in
  set_runner (with_finished n r) ;!
  st_ret StepComplete.

(** One round of the [loop] of [select_next_with_sample_budget]; [None] asks
    for another round. *)
Definition enter_root : M (option ControllerStep) :=
  match node_at (prog_root p) with
  | Some (CSample id) =>
      reserve_sample ;!
      update_runner with_started ;!
      do! r <- get_runner in
      st_ret (Some (StepSample (selection r id)))
  | Some (CSimple _ _ | CLoop _ _ _ | CDisabled _ | COnceOnly _ _ | CInterleave _ _
         | CRandom _ _ _ | CRandomOrder _ _ _) =>
      update_runner with_started ;!
      push_frame (prog_root p) 0 ;!
      st_ret None
  | None => st_fail (InvalidState (prog_root p))
  end.

Definition perform (action : FrameAction) : M (option ControllerStep) :=
  match action with
  | Select child =>
      match node_at child with
      | Some (CSample id) =>
          do! r <- get_runner in
          st_ret (Some (StepSample (selection r id)))
      | Some (CSimple _ _ | CLoop _ _ _ | CDisabled _ | COnceOnly _ _ | CInterleave _ _
             | CRandom _ _ _ | CRandomOrder _ _ _) =>
          push_frame child 0 ;! st_ret None
      | None => st_fail (InvalidState child)
      end
  | Finish => pop_frame ;! st_ret None
  | AdvanceLoop => advance_loop ;! st_ret None
  end.

Definition select_round : M (option ControllerStep) :=
  do! r <- get_runner in
  match terminal r with
  | Some signal => st_ret (Some (StepStopped signal))
  | None =>
      spend ;!
      if negb (root_started r) then enter_root
      else match stack r with
           | [] => do! s <- complete_root in st_ret (Some s)
           | _ :: _ => do! action <- frame_action in perform action
           end
  end.

Fixpoint select_loop (fuel : nat) : M ControllerStep :=
  match fuel with
  | O => st_lift OutOfFuel
  | S fuel =>
      do! o <- select_round in
      match o with
      | Some s => st_ret s
      | None => select_loop fuel
      end
  end.

(** [select_next_with_sample_budget].  Every round but a terminal one spends
    a transition, so the budget bounds the rounds. *)
Definition select_next_with_sample_budget : M ControllerStep :=
  do! r <- get_runner in
  if finished r then st_ret StepComplete
  else fun m => select_loop (S (Z.to_nat (remaining (m_step m)))) m.

(** ** Control signals *)

Definition is_loop_frame (f : Frame) : bool :=
  match node_at (f_node f) with Some (CLoop _ _ _) => true | _ => false end.

(** [stack.iter().rposition(..)]: the innermost loop frame and the frames
    below it, whose number is its index. *)
Fixpoint innermost_loop (s : list Frame) : option (Frame * list Frame) :=
  match s with
  | [] => None
  | f :: rest => if is_loop_frame f then Some (f, rest) else innermost_loop rest
  end.

(** The iteration a loop moves to on [NextLoop]; [None] leaves the loop. *)
Definition next_loop_iteration (controller : ElementId) (count : LoopCount) (iteration : Z) :
    result ControllerError (option Z) :=
  let next := u64_checked_add iteration 1 in
  let advance := let? n := ok_or next (IterationOverflow controller) in Ok (Some n) in
  match count with
  | Finite total =>
      match next with
      | Some n => if total <=? n then Ok None else advance
      | None => advance
      end
  | Forever => advance
  end.

Definition apply_next_loop : ST ControllerRunner ControllerError () :=
  do! r <- st_get in
  if finished r then st_ret ()
  else
    match innermost_loop (stack r) with
    | None =>
        do! controller <- st_lift root_identity in
        do! n <- st_lift (ok_or (u64_checked_add (completed_iterations r) 1)
                            (IterationOverflow controller)) in
        st_put (with_finished n (with_started (with_stack [] r)))
    | Some (frame, below) =>
        match node_at (f_node frame) with
        | Some (CLoop controller count children) =>
            do! next <- st_lift (next_loop_iteration controller count (f_iteration frame)) in
            do! _ <- st_lift (ok_or (usize_succ (length below))
                                (CounterOverflow "controller-stack-index")) in
            let frame' :=
              match next with
              | Some iteration => mkFrame (f_node frame) 0 iteration Ordered
              | None => mkFrame (f_node frame) (length children) (f_iteration frame) Ordered
              end in
            st_put (with_stack (frame' :: below) r)
        | _ => st_fail (InvalidState (f_node frame))
        end
    end.

Definition on_runner {A} (m : ST ControllerRunner ControllerError A) : M A :=
  fun s => let '(res, r) := m (m_runner s) in (res, mkMachine r (m_step s) (m_run s)).

(** [step_with_run_budget] *)
Definition step_with_run_budget (signal : ControlSignal) : M ControllerStep :=
  do! r <- get_runner in
  match terminal r with
  | Some existing =>
      if is_stop signal then
        let combined := combine existing signal in
        set_runner (with_terminal (Some combined) r) ;! st_ret (StepStopped combined)
      else st_ret (StepStopped existing)
  | None =>
      if is_stop signal then
        spend ;!
        set_runner (with_terminal (Some signal) r) ;!
        st_ret (StepStopped signal)
      else
        (if decide (signal = NextLoop) then
           if negb (finished r) then spend ;! on_runner apply_next_loop else st_ret ()
         else st_ret ()) ;!
        do! r' <- get_runner in
        if bool_decide (signal = NextLoop) && finished r'
        then st_ret StepComplete
        else select_next_with_sample_budget
  end.

(** [step_with_signal]: the same with an unlimited sample budget
    ([select_next] makes one up). *)
Definition step_with_signal (signal : ControlSignal) (r : ControllerRunner) (b : StepBudget) :
    result ControllerError ControllerStep * (ControllerRunner * StepBudget) :=
  let '(res, m) :=
    step_with_run_budget signal (mkMachine r b (run_budget_new usize_max usize_max)) in
  (res, (m_runner m, m_step m)).

(** [step_with_cancellation]: peek, step, and take the one-shot [NextLoop]
    only when the step succeeded. *)
Definition step_with_cancellation (c : CancelStore) (h : nat) (r : ControllerRunner)
    (b : StepBudget) :
    result ControllerError ControllerStep * (ControllerRunner * StepBudget * CancelStore) :=
  let s := signal c h in
  let '(res, (r', b')) := step_with_signal s r b in
  let c' := match res with
            | Ok _ => if decide (s = NextLoop) then snd (take_signal c h) else c
            | _ => c
            end in
  (res, (r', b', c')).

(** ** Whole runs *)

Record RunState := mkRunState {
  rs_runner : ControllerRunner;
  rs_budget : RunBudget
}.

(** One round of [run_to_completion_with_signal]. *)
Definition run_round (signal : ControlSignal) : ST RunState ControllerError ControllerStep :=
  fun s =>
    match next_step_budget (rs_budget s) with
    | Err e => (Err e, s)
    | OutOfFuel => (OutOfFuel, s)
    | Ok step_budget =>
        let '(outcome, m) :=
          step_with_run_budget signal (mkMachine (rs_runner s) step_budget (rs_budget s)) in
        match record_step (m_run m) (m_step m) with
        | Err e => (Err e, mkRunState (m_runner m) (m_run m))
        | OutOfFuel => (OutOfFuel, mkRunState (m_runner m) (m_run m))
        | Ok rb => (outcome, mkRunState (m_runner m) rb)
        end
    end.

Fixpoint run_loop (fuel : nat) (acc : list SampleSelection) (signal : ControlSignal) :
    ST RunState ControllerError ExecutionTrace :=
  match fuel with
  | O => st_lift OutOfFuel
  | S fuel =>
      do! outcome <- run_round signal in
      match outcome with
      | StepSample selection => run_loop fuel (acc ++ [selection]) Continue
      | StepComplete | StepStopped _ => st_ret (mkTrace acc outcome)
      end
  end.

Definition run_to_completion_with_signal (initial : ControlSignal) :
    ST RunState ControllerError ExecutionTrace :=
  fun s =>
    let left := max_transitions (rs_budget s) - transitions (rs_budget s) in
    run_loop (S (Z.to_nat left)) [] initial s.

Definition run_to_completion : ST RunState ControllerError ExecutionTrace :=
  run_to_completion_with_signal Continue.

End program.

(** A compiled plan run once by a fresh user, for examples. *)
Definition run_plan (root : ControllerNode) (rb : RunBudget) :
    result ControllerError ExecutionTrace :=
  let? p := compile root in
  fst (run_to_completion p (mkRunState runner_new rb)).
