(* ===== verification/RunnerFacts.v ===== *)
(** * How a round of the runner depends on its budgets

    The rounds of [select_next_with_sample_budget] are deterministic and touch
    the budgets only through [spend] and [reserve_sample].  [exact] makes that
    precise: a computation has a cost in transitions and samples; with budgets
    that cover the cost it always does the same, and with budgets that do not
    it fails with a budget error and leaves a known runner behind.  The facts
    on the individual methods compose with [exact_bind]. *)

From S2P Require Import Prelude Control Random Plan Runner.

(** ** Well-formed budgets and the cost of a computation *)

Definition step_ok (b : StepBudget) : Prop := 0 <= sb_used b <= sb_limit b /\ sb_limit b <= usize_max.
Definition run_ok (rb : RunBudget) : Prop :=
  0 <= emitted rb <= max_samples rb /\ max_samples rb <= usize_max.

Definition charge (c : Z) (b : StepBudget) : StepBudget := mkStep (sb_limit b) (sb_used b + c).
Definition charge_samples (n : Z) (rb : RunBudget) : RunBudget :=
  mkRun (max_samples rb) (max_transitions rb) (emitted rb + n) (transitions rb).

Definition affordable (c n : Z) (b : StepBudget) (rb : RunBudget) : Prop :=
  sb_used b + c <= sb_limit b /\ emitted rb + n <= max_samples rb.

Definition budget_error (e : ControllerError) : bool :=
  match e with
  | StepBudgetExhausted _ _ | SampleBudgetExhausted _ _ => true
  | _ => false
  end.

(** [exact m r r0 a r' c n]: from runner [r], [m] costs [c] transitions and
    [n] samples, returns [a] and leaves [r']; when it cannot be paid for, it
    fails with a budget error and leaves [r0]. *)
Record exact {A} (m : M A) (r r0 : ControllerRunner) (a : A) (r' : ControllerRunner)
    (c n : Z) : Prop := {
  exact_cost : 0 <= c;
  exact_samples : 0 <= n;
  exact_paid b rb :
    step_ok b -> run_ok rb -> affordable c n b rb ->
    m (mkMachine r b rb) = (Ok a, mkMachine r' (charge c b) (charge_samples n rb));
  exact_starved b rb :
    step_ok b -> run_ok rb -> ~ affordable c n b rb ->
    exists e b' rb', m (mkMachine r b rb) = (Err e, mkMachine r0 b' rb') /\ budget_error e = true
}.

(** A computation that touches no budget. *)
Definition pure_run {A} (m : M A) (r : ControllerRunner) (a : A) (r' : ControllerRunner) : Prop :=
  forall b rb, m (mkMachine r b rb) = (Ok a, mkMachine r' b rb).

Lemma charge_0 b : charge 0 b = b.
Proof. destruct b. unfold charge. simpl. by rewrite Z.add_0_r. Qed.

Lemma charge_charge c c' b : charge c' (charge c b) = charge (c + c') b.
Proof. unfold charge. simpl. by rewrite Z.add_assoc. Qed.

Lemma charge_samples_0 rb : charge_samples 0 rb = rb.
Proof. destruct rb. unfold charge_samples. simpl. by rewrite Z.add_0_r. Qed.

Lemma charge_samples_charge n n' rb :
  charge_samples n' (charge_samples n rb) = charge_samples (n + n') rb.
Proof. unfold charge_samples. simpl. by rewrite Z.add_assoc. Qed.

Lemma affordable_dec c n b rb : Decision (affordable c n b rb).
Proof. unfold affordable. apply _. Qed.

Lemma charge_ok c n b rb :
  0 <= c -> 0 <= n -> step_ok b -> run_ok rb -> affordable c n b rb ->
  step_ok (charge c b) /\ run_ok (charge_samples n rb).
Proof. unfold step_ok, run_ok, affordable. simpl. lia. Qed.

Lemma exact_pure {A} (m : M A) r r0 a r' : pure_run m r a r' -> exact m r r0 a r' 0 0.
Proof.
  intros H. split; [done|done| |].
  - intros b rb _ _ _. rewrite H. by rewrite charge_0, charge_samples_0.
  - intros b rb Hb Hrb Hn. destruct Hn. unfold step_ok, run_ok, affordable in *. lia.
Qed.

Lemma exact_bind {A B} (m : M A) (k : A -> M B) r r0 a r1 c n b r2 c' n' :
  exact m r r0 a r1 c n -> exact (k a) r1 r0 b r2 c' n' ->
  exact (st_bind m k) r r0 b r2 (c + c') (n + n').
Proof.
  intros [Hc Hn Hp Hs] [Hc' Hn' Hp' Hs']. split; [lia|lia| |].
  - intros bu rb Hb Hrb [Ha1 Ha2]. unfold st_bind.
    assert (affordable c n bu rb) as Ha by (split; lia).
    destruct (charge_ok c n bu rb Hc Hn Hb Hrb Ha).
    rewrite Hp, Hp', charge_charge, charge_samples_charge by (done || (split; simpl; lia)). done.
  - intros bu rb Hb Hrb Ha. unfold st_bind.
    destruct (affordable_dec c n bu rb) as [Ha1|Ha1].
    + destruct (charge_ok c n bu rb Hc Hn Hb Hrb Ha1) as [Hb' Hrb'].
      rewrite Hp by done.
      destruct (Hs' (charge c bu) (charge_samples n rb)) as (e & b' & rb' & -> & He); [done|done| |].
      { intros [H1 H2]. apply Ha. unfold affordable. simpl in *. lia. }
      eauto 10.
    + destruct (Hs bu rb Hb Hrb Ha1) as (e & b' & rb' & -> & He). eauto 10.
Qed.

Lemma exact_bind_l {A B} (m : M A) (k : A -> M B) r r0 a r1 b r2 c n :
  pure_run m r a r1 -> exact (k a) r1 r0 b r2 c n -> exact (st_bind m k) r r0 b r2 c n.
Proof. intros H1 H2. apply (exact_bind m k r r0 a r1 0 0); [by apply exact_pure|done]. Qed.

Lemma exact_bind_r {A B} (m : M A) (k : A -> M B) r r0 a r1 b r2 c n :
  exact m r r0 a r1 c n -> pure_run (k a) r1 b r2 -> exact (st_bind m k) r r0 b r2 c n.
Proof.
  intros H1 H2. replace c with (c + 0) by lia. replace n with (n + 0) by lia.
  eapply exact_bind; [done|]. by apply exact_pure.
Qed.

Lemma exact_bind_steps {A B} (m : M A) (k : A -> M B) r r0 a r1 c b r2 c' :
  exact m r r0 a r1 c 0 -> exact (k a) r1 r0 b r2 c' 0 ->
  exact (st_bind m k) r r0 b r2 (c + c') 0.
Proof. apply (exact_bind m k r r0 a r1 c 0 b r2 c' 0). Qed.

Lemma pure_bind {A B} (m : M A) (k : A -> M B) r a r1 b r2 :
  pure_run m r a r1 -> pure_run (k a) r1 b r2 -> pure_run (st_bind m k) r b r2.
Proof. intros H1 H2 bu rb. unfold st_bind. by rewrite H1, H2. Qed.

Lemma get_runner_run r : pure_run get_runner r r r.
Proof. by intros b rb. Qed.

Lemma lift_run {A} (a : A) r : pure_run (st_lift (Ok a)) r a r.
Proof. by intros b rb. Qed.

Lemma exact_spend r : exact spend r r () r 1 0.
Proof.
  split; [done|done| |]; intros b rb Hb Hrb; unfold affordable; intros Ha;
    unfold spend, step_spend, step_ok, run_ok, usize_max in *; simpl.
  - rewrite (proj2 (Z.leb_gt _ _)) by lia.
    rewrite (proj2 (u64_checked_add_Some _ _ (sb_used b + 1))) by lia. simpl.
    by rewrite charge_samples_0.
  - rewrite (proj2 (Z.leb_le _ _)) by lia. eauto 10.
Qed.

Lemma exact_reserve r : exact reserve_sample r r () r 0 1.
Proof.
  split; [done|done| |]; intros b rb Hb Hrb; unfold affordable; intros Ha;
    unfold reserve_sample, run_reserve, step_ok, run_ok, usize_max in *; simpl.
  - rewrite (proj2 (Z.leb_gt _ _)) by lia.
    rewrite (proj2 (u64_checked_add_Some _ _ (emitted rb + 1))) by lia. simpl.
    by rewrite charge_0.
  - rewrite (proj2 (Z.leb_le _ _)) by lia. eauto 10.
Qed.

(** ** Live runners

    What outlives a frame: the once-only marks, the interleave cursors and
    the random streams.  A runner in the middle of a traversal is its stack,
    that state and the number of finished traversals. *)
Record Persist := mkPersist {
  p_once : gset Z;
  p_inter : gmap Z nat;
  p_rand : gmap Z Z
}.

Definition live (s : list Frame) (σ : Persist) (n : Z) : ControllerRunner :=
  mkRunner s true false None n (p_once σ) (p_inter σ) (p_rand σ).

Definition put_stream (id : ElementId) (st : option Z) (σ : Persist) : Persist :=
  mkPersist (p_once σ) (p_inter σ)
    (match st with Some s => <[id := s]> (p_rand σ) | None => delete id (p_rand σ) end).

Lemma put_stream_put id st st' σ : put_stream id st (put_stream id st' σ) = put_stream id st σ.
Proof.
  unfold put_stream. simpl. f_equal.
  destruct st, st'; by rewrite ?insert_insert_eq, ?delete_insert_eq, ?insert_delete_eq, ?delete_delete_eq.
Qed.

Lemma put_stream_same id σ : put_stream id (p_rand σ !! id) σ = σ.
Proof.
  destruct σ as [o i m]. unfold put_stream. simpl. f_equal.
  destruct (m !! id) eqn:E; [by apply insert_id|by apply delete_id].
Qed.

Lemma put_stream_lookup id st σ : p_rand (put_stream id st σ) !! id = st.
Proof. unfold put_stream. simpl. destruct st; by simplify_map_eq. Qed.

Lemma restore_run id st s σ n :
  pure_run (restore_random_state id st) (live s σ n) () (live s (put_stream id st σ) n).
Proof. by intros b rb. Qed.

Lemma restoring_exact {A} (m : M A) id st s σ n σ' a r' c k :
  exact m (live s σ n) (live s σ' n) a r' c k ->
  exact (restoring id st m) (live s σ n) (live s (put_stream id st σ') n) a r' c k.
Proof.
  intros [Hc Hk Hp Hs]. split; [done|done| |]; intros b rb Hb Hrb Ha; unfold restoring.
  - by rewrite Hp.
  - destruct (Hs b rb Hb Hrb Ha) as (e & b' & rb' & -> & He). eauto 10.
Qed.

Lemma random_loop_S fuel id seed bound st σ n b rb :
  random_loop (S fuel) id seed bound (mkMachine (live st σ n) b rb) =
  let s := default seed (p_rand σ !! id) in
  let m := mkMachine (live st (put_stream id (Some (snd (next_seeded_value s))) σ) n) b rb in
  match uniform_index (fst (next_seeded_value s)) (Z.of_nat bound) with
  | Some i => (Ok (Z.to_nat i), m)
  | None => st_bind spend (fun _ => random_loop fuel id seed bound) m
  end.
Proof.
  cbn [random_loop]. unfold st_bind at 1. unfold get_runner. cbn [m_runner random_states live].
  destruct (next_seeded_value (default seed (p_rand σ !! id))) as [v s1]. cbn [fst snd].
  unfold st_bind at 1, set_runner. by destruct (uniform_index v _).
Qed.

Lemma random_loop_run id seed bound s k s' i st σ n fuel b rb :
  draws (Z.of_nat bound) s k s' i -> default seed (p_rand σ !! id) = s ->
  step_ok b -> (Z.to_nat (remaining b) < fuel)%nat ->
  if decide (sb_used b + Z.of_nat k <= sb_limit b)
  then random_loop fuel id seed bound (mkMachine (live st σ n) b rb) =
       (Ok (Z.to_nat i), mkMachine (live st (put_stream id (Some s') σ) n) (charge (Z.of_nat k) b) rb)
  else exists x b' e, random_loop fuel id seed bound (mkMachine (live st σ n) b rb) =
       (Err e, mkMachine (live st (put_stream id (Some x) σ) n) b' rb) /\ budget_error e = true.
Proof.
  intros Hd. revert σ fuel b. induction Hd as [s i Hi|s k s' i Hi Hd IH];
    intros σ fuel b Hs Hb Hf; (destruct fuel as [|fuel]; [lia|]).
  - rewrite decide_True by (unfold step_ok in Hb; lia).
    rewrite random_loop_S, Hs. cbv zeta. rewrite Hi. by rewrite charge_0.
  - rewrite random_loop_S, Hs. cbv zeta. rewrite Hi.
    set (s1 := snd (next_seeded_value s)) in *.
    destruct (affordable_dec 1 0 b (run_budget_new 0 0)) as [Ha|Ha].
    + assert (spend (mkMachine (live st (put_stream id (Some s1) σ) n) b rb) =
        (Ok (), mkMachine (live st (put_stream id (Some s1) σ) n) (charge 1 b) rb)) as Hsp.
      { unfold spend, step_spend, affordable, step_ok, usize_max in *. simpl in *.
        rewrite (proj2 (Z.leb_gt _ _)) by lia.
        by rewrite (proj2 (u64_checked_add_Some _ _ (sb_used b + 1))) by lia. }
      rewrite (st_bind_Ok_l _ _ _ _ _ Hsp).
      assert (step_ok (charge 1 b)) as Hb'
        by (unfold step_ok, affordable in *; simpl in *; lia).
      specialize (IH (put_stream id (Some s1) σ) fuel (charge 1 b)).
      rewrite put_stream_lookup in IH. specialize (IH eq_refl Hb').
      assert (Z.to_nat (remaining (charge 1 b)) < fuel)%nat as Hf'.
      { unfold remaining, u64_checked_sub, step_ok, affordable in *. simpl in *.
        repeat case_if; lia. }
      specialize (IH Hf'). rewrite charge_charge, !put_stream_put in IH.
      replace (1 + Z.of_nat k) with (Z.of_nat (S k)) in IH by lia.
      simpl in IH. repeat case_decide; try lia; [done|].
      destruct IH as (x & b' & e & H1 & H2). rewrite put_stream_put in H1. eauto 10.
    + rewrite decide_False by (unfold affordable, step_ok in *; simpl in *; lia).
      exists s1. unfold st_bind, spend, step_spend.
      rewrite (proj2 (Z.leb_le _ _)) by (unfold affordable, step_ok in *; simpl in *; lia).
      eauto.
Qed.

(** A draw costs its rejections; when they cannot be paid for, the stream is
    back at [st]. *)
Lemma random_index_exact id seed bound st s σ n i st' k :
  draw_index seed bound (p_rand σ !! id) i st' k ->
  exact (restoring id st (random_index id seed bound)) (live s σ n)
    (live s (put_stream id st σ) n) i (live s (put_stream id st' σ) n) (Z.of_nat k) 0.
Proof.
  intros Hd. remember (p_rand σ !! id) as st0 eqn:Est. unfold random_index.
  destruct Hd as [st0 Hle|st0 k s' i Hle Hd]; subst st0.
  - rewrite (proj2 (Nat.leb_le _ _)), put_stream_same by done.
    by apply restoring_exact, exact_pure.
  - rewrite (proj2 (Nat.leb_gt _ _)) by lia.
    split; [lia|done| |]; intros b rb Hb Hrb Ha; unfold restoring;
      pose proof (random_loop_run id seed bound _ _ _ _ s σ n (S (Z.to_nat (remaining b))) b rb
        Hd eq_refl Hb ltac:(lia)) as Hrun; unfold affordable in Ha; case_decide;
      try (unfold run_ok in *; lia).
    + cbn [m_step]. by rewrite Hrun, charge_samples_0.
    + cbn [m_step]. destruct Hrun as (x & b' & e & -> & He). exists e, b', rb. split; [|done].
      unfold st_bind. rewrite restore_run. by rewrite put_stream_put.
Qed.

(** Drawing an index terminates, whatever the state of the stream: the
    rejected draws are finitely many.  The index is in range; a budget that
    covers the rejected draws is charged for them exactly, and one that does
    not makes the draw fail with the stream put back where it was. *)
Theorem random_index_returns id seed bound s σ n :
  (0 < bound)%nat -> Z.of_nat bound <= usize_max ->
  exists i st k, (i < bound)%nat /\
    exact (restoring id (p_rand σ !! id) (random_index id seed bound)) (live s σ n) (live s σ n)
      i (live s (put_stream id st σ) n) k 0.
Proof.
  intros H0 Hb. destruct (draw_index_total seed bound (p_rand σ !! id) Hb) as (i & st & k & Hd).
  exists i, st, (Z.of_nat k). split; [by eapply draw_index_range|].
  rewrite <- (put_stream_same id σ) at 3. by apply random_index_exact.
Qed.

Lemma random_index_returns_witness :
  let σ := mkPersist ∅ ∅ ∅ in
  exists i st k, (i < 3)%nat /\
    exact (restoring 7 (p_rand σ !! 7) (random_index 7 42 3)) (live [] σ 0) (live [] σ 0)
      i (live [] (put_stream 7 st σ) 0) k 0.
Proof.
  apply (random_index_returns 7 42 3 [] (mkPersist ∅ ∅ ∅) 0); [lia|vm_compute; discriminate].
Defined.

Lemma shuffle_exact id seed st pos order s σ n order' st' k :
  shuffles seed pos order (p_rand σ !! id) order' st' k ->
  Z.of_nat pos < usize_max ->
  exact (shuffle id seed st pos order) (live s σ n) (live s (put_stream id st σ) n)
    order' (live s (put_stream id st' σ) n) (Z.of_nat k) 0.
Proof.
  intros Hs. remember (p_rand σ !! id) as st0 eqn:Est. revert σ Est.
  induction Hs as [order st0|pos order st0 i st1 k order' st2 k' Hd Hs IH];
    intros σ -> Hpos; simpl.
  - rewrite put_stream_same. by apply exact_pure.
  - rewrite usize_succ_small by lia. rewrite Nat2Z.inj_add.
    eapply exact_bind_l; [apply lift_run|].
    eapply exact_bind_steps; [by apply random_index_exact|].
    specialize (IH (put_stream id st1 σ)). rewrite !put_stream_put in IH.
    apply IH; [by rewrite put_stream_lookup|lia].
Qed.

(** ** The frame actions *)

Section program.
Context (p : CompiledProgram).

Abbreviation node_at := (node_at p).

(** The sample a child takes out of the budget when it is selected. *)
Definition weight (child : NodeIndex) : Z :=
  match node_at child with Some (CSample _) => 1 | _ => 0 end.

Definition bump (f : Frame) : Frame :=
  mkFrame (f_node f) (S (f_next_child f)) (f_iteration f) (f_mode f).

Definition in_mode (mode : FrameMode) (f : Frame) : Frame :=
  mkFrame (f_node f) (f_next_child f) (f_iteration f) mode.

Lemma reserve_child_exact child r : exact (reserve_child_sample p child) r r () r 0 (weight child).
Proof.
  unfold reserve_child_sample, weight.
  destruct (node_at child) as [[]|]; try (by apply exact_pure). apply exact_reserve.
Qed.

Lemma top_frame_run f s σ n :
  pure_run (top_frame p) (live (f :: s) σ n) f (live (f :: s) σ n).
Proof. by intros b rb. Qed.

Lemma advance_child_run f s σ n :
  Z.of_nat (f_next_child f) < usize_max ->
  pure_run (advance_child p) (live (f :: s) σ n) () (live (bump f :: s) σ n).
Proof.
  intros Hn b rb. unfold advance_child, st_bind, top_frame, get_runner. simpl.
  unfold st_bind. simpl. by rewrite usize_succ_small.
Qed.

Lemma select_child_exact child f s σ n :
  Z.of_nat (f_next_child f) < usize_max ->
  exact (select_child p child) (live (f :: s) σ n) (live (f :: s) σ n)
    (Select child) (live (bump f :: s) σ n) 0 (weight child).
Proof.
  intros Hn. unfold select_child. eapply exact_bind_r; [apply reserve_child_exact|].
  eapply pure_bind; [by apply advance_child_run|done].
Qed.

Lemma ordered_select f kids child s σ n :
  compiled_children p (f_node f) = Ok kids -> kids !! f_next_child f = Some child ->
  Z.of_nat (length kids) <= usize_max ->
  exact (action_ordered p f) (live (f :: s) σ n) (live (f :: s) σ n)
    (Select child) (live (bump f :: s) σ n) 0 (weight child).
Proof.
  intros Hk Hc Hl. apply lookup_lt_Some in Hc as Hlt.
  unfold action_ordered, compiled_child_at. rewrite Hk. simpl.
  eapply exact_bind_l; [apply lift_run|]. rewrite Hc. apply select_child_exact. lia.
Qed.

Lemma ordered_finish f kids r :
  compiled_children p (f_node f) = Ok kids -> kids !! f_next_child f = None ->
  pure_run (action_ordered p f) r Finish r.
Proof. intros Hk Hc b rb. unfold action_ordered, compiled_child_at. rewrite Hk. simpl. by rewrite Hc. Qed.

(** Entering a node: what [push_frame] puts on the stack and marks. *)
Definition entry_mode (σ : Persist) (c : CompiledNode) : FrameMode :=
  match c with
  | CDisabled _ => Skip
  | COnceOnly id _ => if decide (id ∈ p_once σ) then Skip else Ordered
  | CInterleave _ _ | CRandom _ _ _ => OneShot None
  | CRandomOrder _ _ _ => RandomOrder None
  | CSample _ | CSimple _ _ | CLoop _ _ _ => Ordered
  end.

Definition entry_persist (σ : Persist) (c : CompiledNode) : Persist :=
  match c with
  | COnceOnly id _ => mkPersist ({[id]} ∪ p_once σ) (p_inter σ) (p_rand σ)
  | _ => σ
  end.

Lemma push_frame_run node c s σ n :
  node_at node = Some c ->
  pure_run (push_frame p node 0) (live s σ n) ()
    (live (mkFrame node 0 0 (entry_mode σ c) :: s) (entry_persist σ c) n).
Proof.
  intros Hc b rb. unfold push_frame, get_runner, st_bind at 1. rewrite Hc.
  destruct c; try done. simpl. unfold entry_mode, entry_persist. destruct σ as [o i m]; simpl.
  case_decide as Hin; [|done].
  unfold st_bind, live; simpl. replace ({[id]} ∪ o) with o by set_solver. done.
Qed.

Lemma perform_sample child id r :
  node_at child = Some (CSample id) ->
  pure_run (perform p (Select child)) r (Some (StepSample (selection p r id))) r.
Proof. intros H b rb. simpl. by rewrite H. Qed.

Lemma perform_enter child c s σ n :
  node_at child = Some c -> (forall id, c <> CSample id) ->
  pure_run (perform p (Select child)) (live s σ n) None
    (live (mkFrame child 0 0 (entry_mode σ c) :: s) (entry_persist σ c) n).
Proof.
  intros Hc Hns. cbn [perform]. rewrite Hc.
  destruct c; try (by destruct (Hns id)); (eapply pure_bind; [by apply push_frame_run|done]).
Qed.

Lemma perform_finish f s σ n :
  pure_run (perform p Finish) (live (f :: s) σ n) None (live s σ n).
Proof. by intros b rb. Qed.

Lemma perform_advance f s σ n :
  f_iteration f + 1 <= u64_max ->
  pure_run (perform p AdvanceLoop) (live (f :: s) σ n) None
    (live (mkFrame (f_node f) 0 (f_iteration f + 1) Ordered :: s) σ n).
Proof.
  intros Hi b rb. simpl. unfold advance_loop, st_bind, top_frame, get_runner. simpl.
  unfold st_bind. simpl. by rewrite (proj2 (u64_checked_add_Some _ _ _) (conj Hi eq_refl)).
Qed.

(** A round in the middle of a traversal: one transition, the frame action,
    and what it asks for. *)
Lemma round_exact f s σ n action r1 c k o r2 :
  exact (frame_action p) (live (f :: s) σ n) (live (f :: s) σ n) action r1 c k ->
  pure_run (perform p action) r1 o r2 ->
  exact (select_round p) (live (f :: s) σ n) (live (f :: s) σ n) o r2 (1 + c) k.
Proof.
  intros Ha Hp. unfold select_round. eapply exact_bind_l; [apply get_runner_run|]. simpl.
  change k with (0 + k). eapply exact_bind; [apply exact_spend|].
  by eapply exact_bind_r.
Qed.

Lemma frame_action_exact f s σ n action r1 c k :
  exact (frame_arm p f) (live (f :: s) σ n) (live (f :: s) σ n) action r1 c k ->
  exact (frame_action p) (live (f :: s) σ n) (live (f :: s) σ n) action r1 c k.
Proof. intros H. unfold frame_action. by eapply exact_bind_l; [apply top_frame_run|]. Qed.

Lemma frame_action_run f s σ n action r1 :
  pure_run (frame_arm p f) (live (f :: s) σ n) action r1 ->
  pure_run (frame_action p) (live (f :: s) σ n) action r1.
Proof. intros H. unfold frame_action. by eapply pure_bind; [apply top_frame_run|]. Qed.

(** Loops *)
Lemma loop_select f count kids child s σ n :
  count <> Finite 0 ->
  compiled_children p (f_node f) = Ok kids -> kids !! f_next_child f = Some child ->
  Z.of_nat (length kids) <= usize_max ->
  exact (action_loop p f count) (live (f :: s) σ n) (live (f :: s) σ n)
    (Select child) (live (bump f :: s) σ n) 0 (weight child).
Proof.
  intros Hct Hk Hc Hl. apply lookup_lt_Some in Hc as Hlt.
  assert (exact (do! child <- st_lift (compiled_child_at p (f_node f) (f_next_child f)) in
      match child with
      | Some child => select_child p child
      | None =>
          match count with
          | Finite total =>
              do! next <- st_lift (ok_or (u64_checked_add (f_iteration f) 1)
                                     (iteration_overflow p (f_node f))) in
              st_ret (if total <=? next then Finish else AdvanceLoop)
          | Forever => st_ret AdvanceLoop
          end
      end) (live (f :: s) σ n) (live (f :: s) σ n)
    (Select child) (live (bump f :: s) σ n) 0 (weight child)) as H.
  { unfold compiled_child_at. rewrite Hk. simpl.
    eapply exact_bind_l; [apply lift_run|]. rewrite Hc. apply select_child_exact. lia. }
  destruct count as [[]|]; simpl; done.
Qed.

Lemma loop_end f total kids r :
  0 < total -> compiled_children p (f_node f) = Ok kids -> kids !! f_next_child f = None ->
  f_iteration f + 1 <= u64_max ->
  pure_run (action_loop p f (Finite total)) r
    (if total <=? f_iteration f + 1 then Finish else AdvanceLoop) r.
Proof.
  intros Ht Hk Hc Hi b rb. unfold action_loop, compiled_child_at. destruct total as [|t|t]; [lia| |lia].
  rewrite Hk. simpl. unfold st_bind. simpl. rewrite Hc.
  by rewrite (proj2 (u64_checked_add_Some _ _ _) (conj Hi eq_refl)).
Qed.

(** Interleave *)
Definition put_cursor (id : ElementId) (c : nat) (σ : Persist) : Persist :=
  mkPersist (p_once σ) (<[id := c]> (p_inter σ)) (p_rand σ).

Lemma interleave_select f id kids child s σ n :
  let cursor := default 0%nat (p_inter σ !! id) in
  compiled_children p (f_node f) = Ok kids -> kids !! Nat.modulo cursor (length kids) = Some child ->
  f_mode f = OneShot None -> Z.of_nat cursor < usize_max ->
  exact (action_interleave p f id) (live (f :: s) σ n) (live (f :: s) σ n) (Select child)
    (live (in_mode (OneShot (Some child)) f :: s) (put_cursor id (S cursor) σ) n) 0 (weight child).
Proof.
  intros cursor Hk Hc Hm Hcur. unfold action_interleave. rewrite Hk, Hm.
  eapply exact_bind_l; [apply lift_run|]. destruct kids as [|k0 kids]; [done|].
  eapply exact_bind_l; [apply get_runner_run|]. cbn [interleave_next live].
  change (default 0%nat (p_inter σ !! id)) with cursor. cbv zeta. rewrite Hc.
  eapply exact_bind_l; [apply lift_run|]. rewrite usize_succ_small by done.
  eapply exact_bind_l; [apply lift_run|].
  eapply exact_bind_r; [apply reserve_child_exact|]. by intros b rb.
Qed.

Lemma interleave_finish f id kids c r :
  compiled_children p (f_node f) = Ok kids -> kids = [] \/ f_mode f = OneShot (Some c) ->
  pure_run (action_interleave p f id) r Finish r.
Proof.
  intros Hk Hf b rb. unfold action_interleave. rewrite Hk. unfold st_bind. simpl.
  destruct Hf as [->| ->]; [done|]. by destruct kids.
Qed.

(** Random *)
Lemma random_select f id seed kids child i st' k s σ n :
  compiled_children p (f_node f) = Ok kids ->
  draw_index seed (length kids) (p_rand σ !! id) i st' k -> kids !! i = Some child ->
  f_mode f = OneShot None ->
  exact (action_random p f id seed) (live (f :: s) σ n) (live (f :: s) σ n) (Select child)
    (live (in_mode (OneShot (Some child)) f :: s) (put_stream id st' σ) n)
    (Z.of_nat k) (weight child).
Proof.
  intros Hk Hd Hc Hm. unfold action_random. rewrite Hk, Hm.
  eapply exact_bind_l; [apply lift_run|]. destruct kids as [|k0 kids]; [done|].
  eapply exact_bind_l; [apply get_runner_run|]. cbn [random_states live]. cbv zeta.
  replace (Z.of_nat k) with (Z.of_nat k + 0) by lia. change (weight child) with (0 + weight child).
  rewrite <- (put_stream_same id σ) at 3.
  eapply exact_bind; [by apply random_index_exact|]. rewrite Hc.
  eapply exact_bind_l; [apply lift_run|].
  rewrite <- (put_stream_put id (p_rand σ !! id) st' σ).
  eapply exact_bind_r; [apply restoring_exact, reserve_child_exact|]. by intros b rb.
Qed.

Lemma random_finish f id seed kids c r :
  compiled_children p (f_node f) = Ok kids -> kids = [] \/ f_mode f = OneShot (Some c) ->
  pure_run (action_random p f id seed) r Finish r.
Proof.
  intros Hk Hf b rb. unfold action_random. rewrite Hk. unfold st_bind. simpl.
  destruct Hf as [->| ->]; [done|]. by destruct kids.
Qed.

(** Random Order *)
Lemma draw_order_exact f id seed kids child order st' k s σ n :
  shuffles seed (pred (length kids)) kids (p_rand σ !! id) (child :: order) st' k ->
  Z.of_nat (length kids) <= usize_max ->
  exact (draw_order p id seed kids) (live (f :: s) σ n) (live (f :: s) σ n) ()
    (live (in_mode (RandomOrder (Some (child :: order))) f :: s) (put_stream id st' σ) n)
    (Z.of_nat k) (weight child).
Proof.
  intros Hs Hl. unfold draw_order. eapply exact_bind_l; [apply get_runner_run|].
  cbn [random_states live]. cbv zeta.
  replace (Z.of_nat k) with (Z.of_nat k + 0) by lia. change (weight child) with (0 + weight child).
  rewrite <- (put_stream_same id σ) at 3.
  eapply exact_bind; [apply shuffle_exact; [done|unfold usize_max, u64_max in *; lia]|].
  rewrite <- (put_stream_put id (p_rand σ !! id) st' σ).
  eapply exact_bind_r; [apply restoring_exact, reserve_child_exact|]. by intros b rb.
Qed.

Lemma random_order_first f id seed kids child order st' k s σ n :
  compiled_children p (f_node f) = Ok kids -> kids <> [] ->
  shuffles seed (pred (length kids)) kids (p_rand σ !! id) (child :: order) st' k ->
  f_mode f = RandomOrder None -> f_next_child f = 0%nat ->
  Z.of_nat (length kids) <= usize_max ->
  exact (action_random_order p f id seed) (live (f :: s) σ n) (live (f :: s) σ n) (Select child)
    (live (bump (in_mode (RandomOrder (Some (child :: order))) f) :: s) (put_stream id st' σ) n)
    (Z.of_nat k) (weight child).
Proof.
  intros Hk Hne Hs Hm H0 Hl. unfold action_random_order. rewrite Hk, Hm.
  eapply exact_bind_l; [apply lift_run|]. destruct kids as [|k0 kids]; [done|]. cbv zeta.
  eapply exact_bind_r; [by apply draw_order_exact|].
  eapply pure_bind; [apply top_frame_run|]. cbn [f_mode in_mode]. rewrite H0. simpl.
  eapply pure_bind; [done|]. eapply pure_bind; [apply advance_child_run|done].
  simpl. rewrite H0. done.
Qed.

Lemma random_order_next f id seed kids order child s σ n :
  compiled_children p (f_node f) = Ok kids -> kids <> [] ->
  f_mode f = RandomOrder (Some order) -> order !! f_next_child f = Some child ->
  Z.of_nat (length order) <= usize_max ->
  exact (action_random_order p f id seed) (live (f :: s) σ n) (live (f :: s) σ n) (Select child)
    (live (bump f :: s) σ n) 0 (weight child).
Proof.
  intros Hk Hne Hm Hc Hl. apply lookup_lt_Some in Hc as Hlt.
  unfold action_random_order. rewrite Hk, Hm.
  eapply exact_bind_l; [apply lift_run|]. destruct kids as [|k0 kids]; [done|]. cbv zeta.
  eapply exact_bind_l; [done|]. eapply exact_bind_l; [apply top_frame_run|].
  rewrite Hm, Hc. eapply exact_bind_r; [apply reserve_child_exact|].
  eapply pure_bind; [apply advance_child_run; lia|done].
Qed.

Lemma random_order_finish f id seed kids s σ n :
  compiled_children p (f_node f) = Ok kids ->
  kids = [] \/
    (exists order, f_mode f = RandomOrder (Some order) /\ order !! f_next_child f = None) ->
  pure_run (action_random_order p f id seed) (live (f :: s) σ n) Finish (live (f :: s) σ n).
Proof.
  intros Hk Hf b rb. unfold action_random_order. rewrite Hk. unfold st_bind at 1. simpl.
  destruct Hf as [->|(order & Hm & Ho)]; [done|]. rewrite Hm. destruct kids; [done|].
  unfold st_bind. simpl. by rewrite Hm, Ho.
Qed.

End program.
