(* ===== verification/Traversal.v ===== *)
(** * What a traversal visits

    A big-step account of the controllers on the source plan: which samplers
    one traversal selects, in which order and under which cursors, and what
    it leaves of the once-only marks, interleave cursors and random streams.
    The runner, on the compiled plan, does exactly this: [runner_refines] in
    this file. *)

From S2P Require Import Prelude Control Random Plan Runner RunnerFacts.

(** ** The specification *)

Definition mark_once (id : ElementId) (σ : Persist) : Persist :=
  mkPersist ({[id]} ∪ p_once σ) (p_inter σ) (p_rand σ).

Definition cursor_of (id : ElementId) (σ : Persist) : nat := default 0%nat (p_inter σ !! id).

Section traversal.
Context (n : Z).

Inductive visits :
    list ControllerCursor -> Persist -> ControllerNode -> list SampleSelection -> Persist -> Prop :=
| v_sample path σ id : visits path σ (NSample id) [mkSelection id n path] σ
| v_disabled path σ id ch : visits path σ (NDisabled id ch) [] σ
| v_simple path σ id ch out σ' :
    visits_all (path ++ [mkCursor id KSimple 0]) σ ch out σ' ->
    visits path σ (NSimple id ch) out σ'
| v_loop path σ id total ch out σ' :
    visits_loop path id ch 0 total σ out σ' ->
    visits path σ (NLoop id (Finite total) ch) out σ'
| v_once_again path σ id ch :
    id ∈ p_once σ -> visits path σ (NOnceOnly id ch) [] σ
| v_once_first path σ id ch out σ' :
    id ∉ p_once σ ->
    visits_all (path ++ [mkCursor id KOnceOnly 0]) (mark_once id σ) ch out σ' ->
    visits path σ (NOnceOnly id ch) out σ'
| v_interleave_empty path σ id : visits path σ (NInterleave id []) [] σ
| v_interleave path σ id ch t out σ' :
    ch !! Nat.modulo (cursor_of id σ) (length ch) = Some t ->
    Z.of_nat (cursor_of id σ) < usize_max ->
    visits (path ++ [mkCursor id KInterleave 0]) (put_cursor id (S (cursor_of id σ)) σ) t out σ' ->
    visits path σ (NInterleave id ch) out σ'
| v_random_empty path σ id seed : visits path σ (NRandom id seed []) [] σ
| v_random path σ id seed ch i st k t out σ' :
    draw_index seed (length ch) (p_rand σ !! id) i st k -> ch !! i = Some t ->
    visits (path ++ [mkCursor id KRandom 0]) (put_stream id st σ) t out σ' ->
    visits path σ (NRandom id seed ch) out σ'
| v_random_order_empty path σ id seed : visits path σ (NRandomOrder id seed []) [] σ
| v_random_order path σ id seed ch order st k out σ' :
    ch <> [] -> shuffles seed (pred (length ch)) ch (p_rand σ !! id) order st k ->
    visits_all (path ++ [mkCursor id KRandomOrder 0]) (put_stream id st σ) order out σ' ->
    visits path σ (NRandomOrder id seed ch) out σ'
with visits_all :
    list ControllerCursor -> Persist -> list ControllerNode -> list SampleSelection -> Persist -> Prop :=
| va_nil path σ : visits_all path σ [] [] σ
| va_cons path σ t ch out1 σ1 out2 σ2 :
    visits path σ t out1 σ1 -> visits_all path σ1 ch out2 σ2 ->
    visits_all path σ (t :: ch) (out1 ++ out2) σ2
with visits_loop :
    list ControllerCursor -> ElementId -> list ControllerNode -> Z -> Z -> Persist ->
    list SampleSelection -> Persist -> Prop :=
| vl_done path id ch i total σ : total <= i -> visits_loop path id ch i total σ [] σ
| vl_step path id ch i total σ out1 σ1 out2 σ2 :
    i < total -> visits_all (path ++ [mkCursor id KLoop i]) σ ch out1 σ1 ->
    visits_loop path id ch (i + 1) total σ1 out2 σ2 ->
    visits_loop path id ch i total σ (out1 ++ out2) σ2.

Scheme visits_mind := Minimality for visits Sort Prop
  with visits_all_mind := Minimality for visits_all Sort Prop
  with visits_loop_mind := Minimality for visits_loop Sort Prop.
Combined Scheme visits_mutind from visits_mind, visits_all_mind, visits_loop_mind.

(** Loop counts are [u64] values, and child lists fit a [Vec]. *)
Fixpoint counts_ok (t : ControllerNode) : bool :=
  match t with
  | NSample _ | NUnsupported _ _ => true
  | NLoop _ count ch =>
      match count with Finite k => (0 <=? k) && (k <=? u64_max) | Forever => true end
      && forallb counts_ok ch
  | NSimple _ ch | NDisabled _ ch | NOnceOnly _ ch | NInterleave _ ch
  | NRandom _ _ ch | NRandomOrder _ _ ch => forallb counts_ok ch
  end.

Definition good (t : ControllerNode) : Prop :=
  counts_ok t = true /\ Z.of_nat (plan_size t) <= usize_max.

Lemma good_children t ch : source_children t = Some ch -> good t -> Forall good ch.
Proof.
  intros Ht [Hc Hs]. apply Forall_forall. intros c Hin. split.
  - assert (forallb counts_ok ch = true) as Hall.
    { destruct t; simplify_eq/=; try done. by apply andb_true_iff in Hc as [_ ?]. }
    rewrite forallb_forall in Hall. by apply Hall, list_elem_of_In.
  - pose proof (child_smaller t ch c Ht Hin). lia.
Qed.

Lemma good_length t ch :
  source_children t = Some ch -> good t -> Z.of_nat (length ch) <= usize_max.
Proof.
  intros Ht [_ Hs]. pose proof (forest_size_length ch).
  destruct t; simplify_eq/=; lia.
Qed.
End traversal.

(** ** Rounds *)

Section refinement.
Context (p : CompiledProgram) (n : Z).

Abbreviation ns := (prog_nodes p).
Abbreviation round := (select_round p).

(** A runner in the middle of, or about to start, a traversal. *)
Definition running (r : ControllerRunner) : Prop := terminal r = None /\ finished r = false.

(** [rounds r l r' c]: from [r], rounds of total cost [c] emit [l] and lead
    to [r'], whatever the budgets that pay for them. *)
Inductive rounds : ControllerRunner -> list SampleSelection -> ControllerRunner -> Z -> Prop :=
| rounds_nil r : rounds r [] r 0
| rounds_silent r r1 c l r2 c' :
    running r -> 1 <= c -> exact round r r None r1 c 0 -> rounds r1 l r2 c' ->
    rounds r l r2 (c + c')
| rounds_emit r x r1 c l r2 c' :
    running r -> 1 <= c -> exact round r r (Some (StepSample x)) r1 c 1 -> rounds r1 l r2 c' ->
    rounds r (x :: l) r2 (c + c').

Definition leads (r : ControllerRunner) (l : list SampleSelection) (r' : ControllerRunner) : Prop :=
  exists c, rounds r l r' c.

Lemma leads_refl r : leads r [] r.
Proof. exists 0. constructor. Qed.

Lemma leads_trans r l r1 l' r2 : leads r l r1 -> leads r1 l' r2 -> leads r (l ++ l') r2.
Proof.
  intros [c H] [c' H']. revert H'.
  induction H as [r|r r0 d l r1 d' Hrun Hd He H IH|r x r0 d l r1 d' Hrun Hd He H IH]; intros H'.
  - simpl. by exists c'.
  - destruct (IH H') as [d'' IH']. eexists. by eapply rounds_silent.
  - destruct (IH H') as [d'' IH']. eexists. by eapply rounds_emit.
Qed.

Lemma leads_silent f s σ action r1 c r2 :
  exact (frame_action p) (live (f :: s) σ n) (live (f :: s) σ n) action r1 c 0 ->
  pure_run (perform p action) r1 None r2 -> leads (live (f :: s) σ n) [] r2.
Proof.
  intros Ha Hp. exists (1 + c + 0). eapply rounds_silent; [done| |by eapply round_exact|constructor].
  destruct Ha. lia.
Qed.

Lemma leads_pure f s σ action r1 r2 :
  pure_run (frame_action p) (live (f :: s) σ n) action r1 ->
  pure_run (perform p action) r1 None r2 -> leads (live (f :: s) σ n) [] r2.
Proof. intros Ha Hp. eapply leads_silent; [by apply exact_pure|done]. Qed.

(** ** The active path *)

Definition path_of (s : list Frame) : list ControllerCursor := omap (frame_cursor p) (reverse s).

Lemma path_of_cons f s :
  path_of (f :: s) = path_of s ++ match frame_cursor p f with Some c => [c] | None => [] end.
Proof.
  unfold path_of. rewrite reverse_cons, omap_app. simpl. by destruct (frame_cursor p f).
Qed.

Lemma selection_live s σ id : selection p (live s σ n) id = mkSelection id n (path_of s).
Proof. done. Qed.

(** ** From one frame to the next *)

(** The statement proved of every visit: entering the node on top of [s]
    emits what the specification says and comes back to [s]. *)
Definition body (path : list ControllerCursor) (σ : Persist) (t : ControllerNode)
    (out : list SampleSelection) (σ' : Persist) : Prop :=
  forall i s c, represents ns i t -> ns !! i = Some c -> (forall id, c <> CSample id) ->
    path = path_of s -> good t ->
    leads (live (mkFrame i 0 0 (entry_mode σ c) :: s) (entry_persist σ c) n) out (live s σ' n).

Lemma represents_node i t :
  represents ns i t ->
  exists c, ns !! i = Some c /\ ((exists id, c = CSample id /\ t = NSample id) \/
                                 (forall id, c <> CSample id) /\ forall id, t <> NSample id).
Proof.
  intros H. inv H; eexists; (split; [done|]); [left; eauto|right; split; done|].
  right. destruct t; simplify_eq/=; split; done.
Qed.

(** A frame that selects child [i] walks through the child. *)
Lemma select_leads f f' s σ0 σ i t out σ' path c :
  exact (frame_action p) (live (f :: s) σ0 n) (live (f :: s) σ0 n) (Select i)
    (live (f' :: s) σ n) c (weight p i) ->
  represents ns i t -> good t -> path = path_of (f' :: s) ->
  visits n path σ t out σ' -> body path σ t out σ' ->
  leads (live (f :: s) σ0 n) out (live (f' :: s) σ' n).
Proof.
  intros Ha Hi Hg Hpath Hv Hb. pose proof (represents_node i t Hi) as (cn & Hcn & Hcase).
  unfold weight, node_at in Ha. rewrite Hcn in Ha. destruct Hcase as [(id & -> & ->)|[Hns Hnt]].
  - inv Hv. exists (1 + c + 0). eapply rounds_emit; [done| |eapply round_exact; [done|]|constructor].
    + destruct Ha. lia.
    + rewrite <- selection_live with (σ := σ'). by apply perform_sample.
  - change out with ([] ++ out). eapply leads_trans.
    + eapply leads_silent; [|by eapply perform_enter].
      destruct cn; try done. by destruct (Hns id).
    + by apply Hb.
Qed.

(** A frame whose position [k] walks through [kids] in order. *)
Record walker (fr : nat -> Frame) (kids : list NodeIndex) : Prop := {
  walk_select k child s σ :
    kids !! k = Some child ->
    exact (frame_action p) (live (fr k :: s) σ n) (live (fr k :: s) σ n) (Select child)
      (live (fr (S k) :: s) σ n) 0 (weight p child);
  walk_path k k' s : path_of (fr k :: s) = path_of (fr k' :: s)
}.

Definition body_all (path : list ControllerCursor) (σ : Persist) (ch : list ControllerNode)
    (out : list SampleSelection) (σ' : Persist) : Prop :=
  forall fr kids k s, walker fr kids -> Forall2 (represents ns) (drop k kids) ch ->
    path = path_of (fr k :: s) -> Forall good ch -> (k <= length kids)%nat ->
    leads (live (fr k :: s) σ n) out (live (fr (length kids) :: s) σ' n).

Lemma body_all_nil path σ : body_all path σ [] [] σ.
Proof.
  intros fr kids k s Hw Hr Hp _ Hk. apply Forall2_nil_inv_r in Hr.
  apply (f_equal length) in Hr. rewrite length_drop in Hr. simpl in Hr.
  replace (length kids) with k by lia. apply leads_refl.
Qed.

Lemma body_all_cons path σ t ch out1 σ1 out2 σ2 :
  visits n path σ t out1 σ1 -> body path σ t out1 σ1 -> body_all path σ1 ch out2 σ2 ->
  body_all path σ (t :: ch) (out1 ++ out2) σ2.
Proof.
  intros Hv Hb Hall fr kids k s Hw Hr Hp Hg Hk.
  apply Forall2_cons_inv_r in Hr as (i & rest & Hi & Hrest & Hd).
  apply Forall_cons in Hg as [Hgt Hg].
  assert (kids !! k = Some i) as Hki
    by (by rewrite <- (Nat.add_0_r k), <- lookup_drop, Hd).
  apply lookup_lt_Some in Hki as Hlt.
  eapply leads_trans.
  - eapply select_leads; [by apply Hw|done|done| |done|done].
    rewrite Hp. by apply Hw.
  - apply Hall; [done| | |done|lia].
    + rewrite (drop_S _ _ _ Hki) in Hd. by simplify_eq.
    + rewrite Hp. by apply Hw.
Qed.

Lemma finish_leads f s σ :
  pure_run (frame_arm p f) (live (f :: s) σ n) Finish (live (f :: s) σ n) ->
  leads (live (f :: s) σ n) [] (live s σ n).
Proof. intros H. eapply leads_pure; [by apply frame_action_run|]. apply perform_finish. Qed.

Lemma leads_then_finish r out f s σ :
  leads r out (live (f :: s) σ n) ->
  pure_run (frame_arm p f) (live (f :: s) σ n) Finish (live (f :: s) σ n) ->
  leads r out (live s σ n).
Proof.
  intros H1 H2. rewrite <- (app_nil_r out). eapply leads_trans; [done|]. by apply finish_leads.
Qed.

(** What the table holds for a node with children. *)
Lemma represents_composite i t ch c :
  represents ns i t -> source_children t = Some ch -> (forall id l, t <> NDisabled id l) ->
  ns !! i = Some c ->
  exists idxs, build_node t idxs = Some c /\ Forall2 (represents ns) idxs ch /\
    compiled_children p i = Ok idxs /\ length idxs = length ch.
Proof.
  intros Hr Ht Hd Hc. inv Hr; simplify_eq/=; [by destruct (Hd id ch)|].
  eexists; split_and!; [done|done| |by eapply Forall2_length].
  unfold compiled_children, node_at. rewrite Hc. destruct t; by simplify_eq/=.
Qed.

(** The walkers: an ordered frame, and a Random Order frame with its order. *)
Lemma walker_ordered i it mode idxs :
  compiled_children p i = Ok idxs -> Z.of_nat (length idxs) <= usize_max ->
  (forall f, f_node f = i -> f_iteration f = it -> f_mode f = mode ->
     frame_arm p f = action_ordered p f \/
     exists count, count <> Finite 0 /\ frame_arm p f = action_loop p f count) ->
  walker (fun k => mkFrame i k it mode) idxs.
Proof.
  intros Hk Hl Harm. split.
  - intros k child s σ Hc. apply frame_action_exact.
    destruct (Harm (mkFrame i k it mode)) as [->|(count & Hct & ->)]; try done.
    + change (mkFrame i (S k) it mode) with (bump (mkFrame i k it mode)).
      by eapply ordered_select.
    + change (mkFrame i (S k) it mode) with (bump (mkFrame i k it mode)).
      by eapply loop_select.
  - intros k k' s. by rewrite !path_of_cons.
Qed.

Lemma walker_random_order i id seed idxs order :
  ns !! i = Some (CRandomOrder id seed idxs) -> idxs <> [] ->
  Z.of_nat (length order) <= usize_max ->
  walker (fun k => mkFrame i k 0 (RandomOrder (Some order))) order.
Proof.
  intros Hi Hne Hl. split.
  - intros k child s σ Hc. apply frame_action_exact.
    unfold frame_arm, node_at, f_node. rewrite Hi.
    change (mkFrame i (S k) 0 (RandomOrder (Some order)))
      with (bump (mkFrame i k 0 (RandomOrder (Some order)))).
    eapply random_order_next; try done.
    unfold compiled_children, node_at, f_node. by rewrite Hi.
  - intros k k' s. by rewrite !path_of_cons.
Qed.

(** Walking all children from the start, then finishing. *)
Lemma walk_and_finish path σ ch out σ' i it mode idxs s :
  body_all path σ ch out σ' ->
  walker (fun k => mkFrame i k it mode) idxs -> Forall2 (represents ns) idxs ch ->
  path = path_of (mkFrame i 0 it mode :: s) -> Forall good ch ->
  (forall r, pure_run (frame_arm p (mkFrame i (length idxs) it mode)) r Finish r) ->
  leads (live (mkFrame i 0 it mode :: s) σ n) out (live s σ' n).
Proof.
  intros Hall Hw Hr Hp Hg Hf. eapply leads_then_finish.
  - apply (Hall _ _ 0%nat s Hw); [done|done|done|lia].
  - apply Hf.
Qed.

Lemma path_of_known i k it mode s c :
  frame_cursor p (mkFrame i k it mode) = Some c ->
  path_of (mkFrame i k it mode :: s) = path_of s ++ [c].
Proof. intros H. by rewrite path_of_cons, H. Qed.

Ltac kids_good :=
  match goal with
  | H : good _ |- _ => (eapply good_children || eapply good_length); [|exact H]; reflexivity
  end.

Ltac open_node Hr Hc :=
  let idxs := fresh "idxs" in let Hb := fresh "Hbuild" in
  let Hrep := fresh "Hrep" in let Hk := fresh "Hkids" in let Hl := fresh "Hlen" in
  destruct (represents_composite _ _ _ _ Hr eq_refl ltac:(done) Hc)
    as (idxs & Hb & Hrep & Hk & Hl); simpl in Hb; simplify_eq.

Lemma body_simple path σ id ch out σ' :
  body_all (path ++ [mkCursor id KSimple 0]) σ ch out σ' -> body path σ (NSimple id ch) out σ'.
Proof.
  intros Hall i s c Hr Hc _ -> Hg. open_node Hr Hc.
  assert (forall f, f_node f = i -> frame_arm p f = action_ordered p f) as Harm.
  { intros f Hf. unfold frame_arm, node_at. by rewrite Hf, Hc. }
  eapply walk_and_finish; [done| |done| |kids_good|].
  - eapply walker_ordered; [done| |intros; left; auto]. rewrite Hlen. kids_good.
  - symmetry. apply path_of_known. unfold frame_cursor, node_at. simpl. by rewrite Hc.
  - intros r. rewrite Harm by done. eapply ordered_finish; [done|]. apply lookup_ge_None_2. simpl. lia.
Qed.

Lemma body_once_first path σ id ch out σ' :
  id ∉ p_once σ -> body_all (path ++ [mkCursor id KOnceOnly 0]) (mark_once id σ) ch out σ' ->
  body path σ (NOnceOnly id ch) out σ'.
Proof.
  intros Hid Hall i s c Hr Hc _ -> Hg. open_node Hr Hc. simpl. rewrite decide_False by done.
  assert (forall f, f_node f = i -> f_mode f = Ordered -> frame_arm p f = action_ordered p f) as Harm.
  { intros f Hf Hm. unfold frame_arm, node_at, action_once_only. by rewrite Hf, Hc, Hm. }
  eapply walk_and_finish; [done| |done| |kids_good|].
  - eapply walker_ordered; [done| |intros; left; auto]. rewrite Hlen. kids_good.
  - symmetry. apply path_of_known. unfold frame_cursor, node_at. simpl. by rewrite Hc.
  - intros r. rewrite Harm by done. eapply ordered_finish; [done|]. apply lookup_ge_None_2. simpl. lia.
Qed.

Lemma body_once_again path σ id ch : id ∈ p_once σ -> body path σ (NOnceOnly id ch) [] σ.
Proof.
  intros Hid i s c Hr Hc _ -> Hg. open_node Hr Hc. simpl. rewrite decide_True by done.
  replace (mkPersist _ _ _) with σ by (destruct σ; simpl in *; f_equal; set_solver).
  apply finish_leads. intros b rb. unfold frame_arm, node_at, action_once_only. simpl.
  by rewrite Hc.
Qed.

Lemma body_disabled path σ id ch : body path σ (NDisabled id ch) [] σ.
Proof.
  intros i s c Hr Hc _ -> Hg. inv Hr; simplify_eq/=. apply finish_leads.
  intros b rb. unfold frame_arm, node_at. simpl. by rewrite Hc.
Qed.

(** A one-shot frame selects one child, then finishes. *)
Lemma one_shot_leads i s σ child σ1 t out σ' path c :
  exact (frame_arm p (mkFrame i 0 0 (OneShot None))) (live (mkFrame i 0 0 (OneShot None) :: s) σ n)
    (live (mkFrame i 0 0 (OneShot None) :: s) σ n) (Select child)
    (live (mkFrame i 0 0 (OneShot (Some child)) :: s) σ1 n) c (weight p child) ->
  represents ns child t -> good t ->
  path = path_of (mkFrame i 0 0 (OneShot (Some child)) :: s) ->
  visits n path σ1 t out σ' -> body path σ1 t out σ' ->
  (forall r, pure_run (frame_arm p (mkFrame i 0 0 (OneShot (Some child)))) r Finish r) ->
  leads (live (mkFrame i 0 0 (OneShot None) :: s) σ n) out (live s σ' n).
Proof.
  intros Ha Hr Hg Hp Hv Hb Hf. eapply leads_then_finish; [|apply Hf].
  eapply select_leads; [by apply frame_action_exact|done..].
Qed.

Lemma lookup_represents idxs ch k t :
  Forall2 (represents ns) idxs ch -> ch !! k = Some t ->
  exists child, idxs !! k = Some child /\ represents ns child t.
Proof. intros H Hk. by apply (Forall2_lookup_r _ _ _ _ _ H). Qed.

Lemma body_interleave_empty path σ id : body path σ (NInterleave id []) [] σ.
Proof.
  intros i s c Hr Hc _ -> Hg. open_node Hr Hc. destruct idxs; [|done].
  apply finish_leads. unfold frame_arm, node_at. simpl. rewrite Hc.
  eapply (interleave_finish _ _ _ _ 0%nat); [done|by left].
Qed.

Lemma body_interleave path σ id ch t out σ' :
  let cursor := cursor_of id σ in
  let path' := path ++ [mkCursor id KInterleave 0] in
  ch !! Nat.modulo cursor (length ch) = Some t -> Z.of_nat cursor < usize_max ->
  visits n path' (put_cursor id (S cursor) σ) t out σ' ->
  body path' (put_cursor id (S cursor) σ) t out σ' ->
  body path σ (NInterleave id ch) out σ'.
Proof.
  intros cursor path' Ht Hcur Hv Hb i s c Hr Hc _ -> Hg. open_node Hr Hc. simpl.
  destruct (lookup_represents _ _ _ _ Hrep Ht) as (child & Hchild & Hrc).
  assert (Forall good ch) as Hgs by kids_good.
  eapply one_shot_leads; [|done| | |done|done|].
  - unfold frame_arm, node_at. simpl. rewrite Hc. rewrite <- Hlen in Hchild.
    by apply (interleave_select p (mkFrame i 0 0 (OneShot None)) id idxs child).
  - rewrite Forall_lookup in Hgs. eauto.
  - symmetry. apply path_of_known. unfold frame_cursor, node_at. simpl. by rewrite Hc.
  - intros r. unfold frame_arm, node_at. simpl. rewrite Hc.
    eapply interleave_finish; [done|by right].
Qed.

Lemma body_random_empty path σ id seed : body path σ (NRandom id seed []) [] σ.
Proof.
  intros i s c Hr Hc _ -> Hg. open_node Hr Hc. destruct idxs; [|done].
  apply finish_leads. unfold frame_arm, node_at. simpl. rewrite Hc.
  eapply (random_finish _ _ _ _ _ 0%nat); [done|by left].
Qed.

Lemma body_random path σ id seed ch j st k t out σ' :
  let path' := path ++ [mkCursor id KRandom 0] in
  draw_index seed (length ch) (p_rand σ !! id) j st k -> ch !! j = Some t ->
  visits n path' (put_stream id st σ) t out σ' ->
  body path' (put_stream id st σ) t out σ' ->
  body path σ (NRandom id seed ch) out σ'.
Proof.
  intros path' Hd Ht Hv Hb i s c Hr Hc _ -> Hg. open_node Hr Hc. simpl.
  destruct (lookup_represents _ _ _ _ Hrep Ht) as (child & Hchild & Hrc).
  assert (Forall good ch) as Hgs by kids_good.
  eapply one_shot_leads; [|done| | |done|done|].
  - unfold frame_arm, node_at. simpl. rewrite Hc. rewrite <- Hlen in Hd.
    by apply (random_select p (mkFrame i 0 0 (OneShot None)) id seed idxs child j).
  - rewrite Forall_lookup in Hgs. eauto.
  - symmetry. apply path_of_known. unfold frame_cursor, node_at. simpl. by rewrite Hc.
  - intros r. unfold frame_arm, node_at. simpl. rewrite Hc.
    eapply random_finish; [done|by right].
Qed.

Lemma body_random_order_empty path σ id seed : body path σ (NRandomOrder id seed []) [] σ.
Proof.
  intros i s c Hr Hc _ -> Hg. open_node Hr Hc. destruct idxs; [|done].
  apply finish_leads. unfold frame_arm, node_at. simpl. rewrite Hc.
  eapply random_order_finish; [done|by left].
Qed.

Lemma body_random_order path σ id seed ch t order st k out1 σ1 out2 σ2 :
  let path' := path ++ [mkCursor id KRandomOrder 0] in
  ch <> [] -> shuffles seed (pred (length ch)) ch (p_rand σ !! id) (t :: order) st k ->
  visits n path' (put_stream id st σ) t out1 σ1 ->
  body path' (put_stream id st σ) t out1 σ1 ->
  body_all path' σ1 order out2 σ2 ->
  body path σ (NRandomOrder id seed ch) (out1 ++ out2) σ2.
Proof.
  intros path' Hne Hs Hv Hb Hall i s c Hr Hc _ -> Hg. open_node Hr Hc. simpl.
  assert (Forall good (t :: order)) as [Hgt Hgs]%Forall_cons.
  { rewrite (shuffles_permutation _ _ _ _ _ _ _ Hs). kids_good. }
  destruct (shuffles_related _ _ _ _ _ _ _ _ _ Hrep Hs) as (order' & Hs' & Hro).
  apply Forall2_cons_inv_r in Hro as (child & rest & Hrc & Hrr & ->).
  rewrite <- Hlen in Hs'.
  assert (length (child :: rest) = length idxs) as Hlo.
  { by rewrite (shuffles_permutation _ _ _ _ _ _ _ Hs'). }
  assert (Z.of_nat (length idxs) <= usize_max) as Hlu by (rewrite Hlen; kids_good).
  assert (idxs <> []) as Hni by (intros ->; by destruct ch).
  set (fr := fun k => mkFrame i k 0 (RandomOrder (Some (child :: rest)))).
  assert (walker fr (child :: rest)) as Hw.
  { eapply walker_random_order; [done|done|]. rewrite Hlo. done. }
  assert (forall k, path_of (fr k :: s) = path_of s ++ [mkCursor id KRandomOrder 0]) as Hpath.
  { intros. apply path_of_known. unfold frame_cursor, node_at. simpl. by rewrite Hc. }
  eapply leads_then_finish.
  - eapply leads_trans.
    + eapply (select_leads _ (fr 1%nat)); [|done|done| |done|done]; [|done].
      apply frame_action_exact. unfold frame_arm, node_at. simpl. rewrite Hc.
      by apply (random_order_first p (mkFrame i 0 0 (RandomOrder None)) id seed idxs).
    + apply (Hall fr (child :: rest) 1%nat s Hw); [done|by rewrite Hpath|done|simpl; lia].
  - unfold frame_arm, node_at. simpl. rewrite Hc.
    eapply random_order_finish; [done|]. right. eexists; split; [done|].
    apply lookup_ge_None_2. simpl. lia.
Qed.

(** Loops: [body_loop] speaks of a frame whose iteration [it] is running. *)
Definition body_loop (path : list ControllerCursor) (id : ElementId) (ch : list ControllerNode)
    (it total : Z) (σ : Persist) (out : list SampleSelection) (σ' : Persist) : Prop :=
  forall i s idxs, ns !! i = Some (CLoop id (Finite total) idxs) ->
    Forall2 (represents ns) idxs ch -> path = path_of s -> Forall good ch ->
    Z.of_nat (length idxs) <= usize_max -> 0 <= it < total -> total <= u64_max ->
    leads (live (mkFrame i 0 it Ordered :: s) σ n) out (live s σ' n).

Lemma body_loop_step path id ch it total σ out1 σ1 out2 σ2 :
  it < total -> body_all (path ++ [mkCursor id KLoop it]) σ ch out1 σ1 ->
  visits_loop n path id ch (it + 1) total σ1 out2 σ2 ->
  body_loop path id ch (it + 1) total σ1 out2 σ2 ->
  body_loop path id ch it total σ (out1 ++ out2) σ2.
Proof.
  intros Hit Hall Hv Hnext i s idxs Hc Hrep -> Hg Hl Hr Ht.
  assert (forall f, f_node f = i -> frame_arm p f = action_loop p f (Finite total)) as Harm.
  { intros f Hf. unfold frame_arm, node_at. by rewrite Hf, Hc. }
  assert (compiled_children p i = Ok idxs) as Hk.
  { unfold compiled_children, node_at. by rewrite Hc. }
  assert (walker (fun k => mkFrame i k it Ordered) idxs) as Hw.
  { eapply walker_ordered; [done|done|]. intros. right. exists (Finite total).
    split; [intros [=]; lia|auto]. }
  set (f := mkFrame i (length idxs) it Ordered).
  assert (leads (live (mkFrame i 0 it Ordered :: s) σ n) out1 (live (f :: s) σ1 n)) as H1.
  { apply (Hall _ _ 0%nat s Hw); [done| |done|lia]. symmetry. apply path_of_known.
    unfold frame_cursor, node_at. simpl. by rewrite Hc. }
  pose proof (loop_end p f total idxs (live (f :: s) σ1 n) ltac:(lia) Hk
    ltac:(apply lookup_ge_None_2; simpl; lia) ltac:(simpl; lia)) as Hend.
  rewrite <- Harm in Hend by done. cbn [f_iteration f] in Hend.
  eapply leads_trans; [done|].
  destruct (total <=? it + 1) eqn:E; simpl_bool.
  - inv Hv; [|lia]. by apply finish_leads.
  - change out2 with ([] ++ out2). eapply leads_trans.
    + eapply leads_pure; [by apply frame_action_run|]. by apply perform_advance; simpl; lia.
    + eapply Hnext; try done. lia.
Qed.

Lemma body_loop_start path σ id total ch out σ' :
  visits_loop n path id ch 0 total σ out σ' -> body_loop path id ch 0 total σ out σ' ->
  body path σ (NLoop id (Finite total) ch) out σ'.
Proof.
  intros Hv Hb i s c Hr Hc _ -> Hg. open_node Hr Hc. simpl.
  assert (0 <= total <= u64_max) as Ht.
  { destruct Hg as [Hg _]. simpl in Hg. apply andb_true_iff in Hg as [Hg _].
    apply andb_true_iff in Hg as [??]. simpl_bool. lia. }
  destruct (decide (total = 0)) as [->|Hne].
  - inv Hv; [|lia]. apply finish_leads. intros b rb. unfold frame_arm, node_at. simpl. by rewrite Hc.
  - eapply Hb; [done|done|done|kids_good| |lia|lia]. rewrite Hlen. kids_good.
Qed.

(** [body_all] together with the visit of the first child, which a Random
    Order frame makes before its order is in place. *)
Definition body_list (path : list ControllerCursor) (σ : Persist) (ch : list ControllerNode)
    (out : list SampleSelection) (σ' : Persist) : Prop :=
  body_all path σ ch out σ' /\
  match ch with
  | [] => True
  | t :: rest => exists out1 σ1 out2, out = out1 ++ out2 /\
      visits n path σ t out1 σ1 /\ body path σ t out1 σ1 /\ body_all path σ1 rest out2 σ'
  end.

Lemma visits_body :
  (forall path σ t out σ', visits n path σ t out σ' -> body path σ t out σ') /\
  (forall path σ ch out σ', visits_all n path σ ch out σ' -> body_list path σ ch out σ') /\
  (forall path id ch it total σ out σ',
     visits_loop n path id ch it total σ out σ' -> body_loop path id ch it total σ out σ').
Proof.
  apply visits_mutind; intros;
    repeat match goal with H : body_list _ _ _ _ _ |- _ => destruct H end.
  - intros i s c Hr Hc Hns. inv Hr; simplify_eq/=. by destruct (Hns id).
  - apply body_disabled.
  - by apply body_simple.
  - by apply body_loop_start.
  - by apply body_once_again.
  - by apply body_once_first.
  - apply body_interleave_empty.
  - by eapply body_interleave.
  - apply body_random_empty.
  - by eapply body_random.
  - apply body_random_order_empty.
  - destruct order as [|t order].
    { apply shuffles_permutation, Permutation_nil_l in H0. by subst. }
    destruct H3 as (out1 & σ1 & out2 & -> & ? & ? & ?). by eapply body_random_order.
  - split; [apply body_all_nil|done].
  - split; [by eapply body_all_cons|]. eauto 10.
  - intros j s idxs ????? [??]. lia.
  - by eapply body_loop_step.
Qed.

(** ** Whole traversals *)

(** A runner about to start a traversal, and one that finished it. *)
Definition idle (σ : Persist) : ControllerRunner :=
  mkRunner [] false false None n (p_once σ) (p_inter σ) (p_rand σ).

Definition done_runner (σ : Persist) : ControllerRunner :=
  mkRunner [] true true None (n + 1) (p_once σ) (p_inter σ) (p_rand σ).

Lemma enter_root_composite σ c :
  ns !! prog_root p = Some c -> (forall id, c <> CSample id) ->
  exact round (idle σ) (idle σ) None
    (live [mkFrame (prog_root p) 0 0 (entry_mode σ c)] (entry_persist σ c) n) 1 0.
Proof.
  intros Hc Hns. unfold select_round. eapply exact_bind_l; [apply get_runner_run|]. simpl.
  eapply exact_bind_r; [apply exact_spend|].
  unfold enter_root, node_at. rewrite Hc.
  assert (pure_run (update_runner with_started) (idle σ) () (live [] σ n)) by by intros b rb.
  destruct c; try (by destruct (Hns id));
    (eapply pure_bind; [done|]; by eapply pure_bind; [by apply push_frame_run|]).
Qed.

Lemma enter_root_sample σ id :
  ns !! prog_root p = Some (CSample id) ->
  exact round (idle σ) (idle σ) (Some (StepSample (mkSelection id n []))) (live [] σ n) 1 1.
Proof.
  intros Hc. unfold select_round. eapply exact_bind_l; [apply get_runner_run|]. simpl.
  apply (exact_bind _ _ _ _ _ _ 1 0 _ _ 0 1 (exact_spend _)).
  unfold enter_root, node_at. rewrite Hc.
  eapply exact_bind_r; [apply exact_reserve|]. by intros b rb.
Qed.

Lemma root_leads root σ out σ' :
  represents ns (prog_root p) root -> good root -> visits n [] σ root out σ' ->
  leads (idle σ) out (live [] σ' n).
Proof.
  intros Hr Hg Hv. destruct (represents_node _ _ Hr) as (c & Hc & [(id & -> & ->)|[Hns Hnt]]).
  - inv Hv. exists (1 + 0). eapply rounds_emit; [done|done|by apply enter_root_sample|constructor].
  - change out with ([] ++ out). eapply leads_trans.
    + exists (1 + 0). eapply rounds_silent; [done|done|by apply enter_root_composite|constructor].
    + by eapply (proj1 visits_body).
Qed.

Lemma complete_exact σ :
  n + 1 <= u64_max ->
  exact round (live [] σ n) (live [] σ n) (Some StepComplete) (done_runner σ) 1 0.
Proof.
  intros Hn. unfold select_round. eapply exact_bind_l; [apply get_runner_run|]. simpl.
  eapply exact_bind_r; [apply exact_spend|]. intros b rb. unfold st_bind, complete_root.
  assert (exists id, root_identity p = Ok id) as [id Hid].
  { unfold root_identity, node_identity. destruct (node_at p (prog_root p)) as [[]|]; eauto. }
  unfold st_bind, st_lift. rewrite Hid. simpl.
  by rewrite (proj2 (u64_checked_add_Some _ _ _) (conj Hn eq_refl)).
Qed.

End refinement.

(** ** Steps and runs over rounds *)

Section steps.
Context (p : CompiledProgram).

Abbreviation round := (select_round p).

(** [step_rounds r o r' c k]: the rounds of one step, silent but for the last
    one, whose outcome is [o]. *)
Inductive step_rounds : ControllerRunner -> ControllerStep -> ControllerRunner -> Z -> Z -> Prop :=
| sr_last r o r' c k :
    running r -> 1 <= c -> exact round r r (Some o) r' c k -> step_rounds r o r' c k
| sr_more r r1 c o r' c' k :
    running r -> 1 <= c -> exact round r r None r1 c 0 -> step_rounds r1 o r' c' k ->
    step_rounds r o r' (c + c') k.

Lemma step_rounds_cost r o r' c k : step_rounds r o r' c k -> 1 <= c /\ 0 <= k.
Proof. induction 1 as [??????? []|????????? [] ? IH]; lia. Qed.

Lemma remaining_ok b : step_ok b -> remaining b = sb_limit b - sb_used b.
Proof. unfold step_ok, remaining, u64_checked_sub. intros. case_if; lia. Qed.

(** The loop of a step: with budgets that pay for the rounds it gets to the
    outcome; otherwise it stops on a budget error at a runner from which the
    remaining rounds lead to the same outcome. *)
Lemma select_loop_rounds r o r' c k b rb fuel :
  step_rounds r o r' c k -> step_ok b -> run_ok rb -> (Z.to_nat (remaining b) < fuel)%nat ->
  (affordable c k b rb /\
   select_loop p fuel (mkMachine r b rb) =
     (Ok o, mkMachine r' (charge c b) (charge_samples k rb))) \/
  (~ affordable c k b rb /\
   exists e r'' b' rb' c'', select_loop p fuel (mkMachine r b rb) = (Err e, mkMachine r'' b' rb') /\
     budget_error e = true /\ step_rounds r'' o r' c'' k /\ c'' <= c).
Proof.
  intros Hr. revert b fuel.
  induction Hr as [r o r' c k Hrun Hc He|r r1 c o r' c' k Hrun Hc He Hr IH];
    intros b fuel Hb Hrb Hf; (destruct fuel as [|fuel]; [lia|]); cbn [select_loop].
  - destruct (affordable_dec c k b rb) as [Ha|Ha]; [left|right]; split; try done.
    + erewrite st_bind_Ok_l by (by apply He). done.
    + destruct (exact_starved _ _ _ _ _ _ _ He b rb Hb Hrb Ha) as (e & b' & rb' & Hm & Hbe).
      unfold st_bind. rewrite Hm. do 5 eexists. split_and!; [done|done|exact (sr_last _ _ _ _ _ Hrun Hc He)|lia].
  - destruct (step_rounds_cost _ _ _ _ _ Hr) as [Hc' Hk].
    destruct (affordable_dec c 0 b rb) as [Ha|Ha].
    + destruct (charge_ok c 0 b rb) as [Hb' Hrb']; try done; [lia|].
      erewrite st_bind_Ok_l by (by apply He). rewrite charge_samples_0.
      destruct (IH (charge c b) fuel)
        as [[Ha' ->]|[Ha' (e & r'' & b' & rb' & c'' & Hm & Hbe & Hsr & Hle)]]; try done.
      { rewrite remaining_ok in * by done. simpl. unfold affordable, step_ok in *. simpl in *. lia. }
      * left. rewrite charge_charge. split; [|done]. unfold affordable in *. simpl in *. lia.
      * right. split; [unfold affordable in *; simpl in *; lia|].
        exists e, r'', b', rb', c''. split_and!; [done|done|done|lia].
    + right. split; [unfold affordable, run_ok in *; lia|].
      destruct (exact_starved _ _ _ _ _ _ _ He b rb Hb Hrb Ha) as (e & b' & rb' & Hm & Hbe).
      unfold st_bind. rewrite Hm. do 5 eexists. split_and!; [done|done|exact (sr_more _ _ _ _ _ _ _ Hrun Hc He Hr)|lia].
Qed.

Lemma rounds_to_step r l r1 c o r' c' k :
  rounds p r l r1 c -> step_rounds r1 o r' c' k ->
  match l with
  | [] => step_rounds r o r' (c + c') k
  | x :: l' => exists rx c1 c2, step_rounds r (StepSample x) rx c1 1 /\
      rounds p rx l' r1 c2 /\ c = c1 + c2
  end.
Proof.
  intros H Hs. induction H as [r|r r0 d l r1 d' Hrun Hd He H IH|r x r0 d l r1 d' Hrun Hd He H IH].
  - done.
  - destruct l as [|x l].
    + rewrite <- Z.add_assoc. eapply sr_more; eauto.
    + destruct (IH Hs) as (rx & c1 & c2 & H1 & H2 & ->).
      exists rx, (d + c1), c2. split_and!; [by eapply sr_more|done|lia].
  - exists r0, d, d'. split_and!; [by apply sr_last|done|done].
Qed.

Lemma step_rounds_running r o r' c k : step_rounds r o r' c k -> running r.
Proof. by inversion 1. Qed.

(** A step of a running runner with no signal is its loop. *)
Lemma step_continue r b rb :
  running r ->
  step_with_run_budget p Continue (mkMachine r b rb) =
  select_loop p (S (Z.to_nat (remaining b))) (mkMachine r b rb).
Proof.
  intros [Ht Hf]. unfold step_with_run_budget, st_bind, get_runner. simpl. rewrite Ht. simpl.
  unfold st_bind. simpl. unfold select_next_with_sample_budget, st_bind, get_runner. simpl.
  by rewrite Hf.
Qed.

(** ** Runs *)

Definition budget_wf (rb : RunBudget) : Prop :=
  run_ok rb /\ 0 <= transitions rb <= max_transitions rb /\ max_transitions rb <= usize_max.

(** The run budget after [c] transitions and [k] samples. *)
Definition charge_run (c k : Z) (rb : RunBudget) : RunBudget :=
  mkRun (max_samples rb) (max_transitions rb) (emitted rb + k) (transitions rb + c).

Definition run_affordable (c k : Z) (rb : RunBudget) : Prop :=
  transitions rb + c <= max_transitions rb /\ emitted rb + k <= max_samples rb.

Lemma run_round_rounds r o r' c k rb :
  step_rounds r o r' c k -> budget_wf rb ->
  (run_affordable c k rb /\
   run_round p Continue (mkRunState r rb) = (Ok o, mkRunState r' (charge_run c k rb))) \/
  (~ run_affordable c k rb /\ exists e s, run_round p Continue (mkRunState r rb) = (Err e, s)).
Proof.
  intros Hs (Hrb & Ht & Hm). pose proof (step_rounds_cost _ _ _ _ _ Hs) as [Hc Hk].
  unfold run_round, next_step_budget. simpl.
  destruct (max_transitions rb <=? transitions rb) eqn:E; simpl_bool.
  { right. split; [unfold run_affordable; lia|eauto]. }
  set (b := step_budget_new (max_transitions rb - transitions rb)).
  assert (step_ok b) as Hb by (unfold step_ok; simpl; lia).
  rewrite step_continue by by eapply step_rounds_running.
  destruct (select_loop_rounds r o r' c k b rb (S (Z.to_nat (remaining b))) Hs Hb Hrb ltac:(lia))
    as [[Ha ->]|[Ha (e & r'' & b' & rb' & c'' & -> & He & _)]].
  - left. unfold affordable in Ha. simpl in Ha. split; [unfold run_affordable; lia|].
    unfold record_step. simpl. rewrite (proj2 (u64_checked_add_Some _ _ (transitions rb + c))).
    + done.
    + unfold usize_max in *. lia.
  - right. split; [unfold affordable, run_affordable in *; simpl in *; lia|].
    destruct (record_step rb' b') eqn:Er; simpl; rewrite Er; eauto.
    unfold record_step, ok_or in Er. by destruct (u64_checked_add _ _).
Qed.

Lemma run_loop_rounds r l r1 c r' c' rb acc fuel :
  rounds p r l r1 c -> running r1 -> step_rounds r1 StepComplete r' c' 0 -> budget_wf rb ->
  (Z.to_nat (max_transitions rb - transitions rb) < fuel)%nat ->
  let k := Z.of_nat (length l) in
  (run_affordable (c + c') k rb /\
   run_loop p fuel acc Continue (mkRunState r rb) =
     (Ok (mkTrace (acc ++ l) StepComplete), mkRunState r' (charge_run (c + c') k rb))) \/
  (~ run_affordable (c + c') k rb /\
   exists e s, run_loop p fuel acc Continue (mkRunState r rb) = (Err e, s)).
Proof.
  intros Hr Hrun Hs. revert r c rb acc fuel Hr.
  induction l as [|x l IH]; intros r c rb acc fuel Hr Hwf Hf k; (destruct fuel as [|fuel]; [lia|]).
  - pose proof (rounds_to_step _ _ _ _ _ _ _ _ Hr Hs) as H. simpl in H.
    cbn [run_loop]. rewrite app_nil_r.
    destruct (run_round_rounds _ _ _ _ _ rb H Hwf) as [[Ha He]|[Ha (e & s & He)]].
    + left. split; [done|]. by rewrite (st_bind_Ok_l _ _ _ _ _ He).
    + right. split; [done|]. unfold st_bind. rewrite He. eauto.
  - pose proof (rounds_to_step _ _ _ _ _ _ _ _ Hr Hs) as (rx & c1 & c2 & H1 & H2 & ->).
    pose proof (step_rounds_cost _ _ _ _ _ H1) as [Hc1 _].
    cbn [run_loop]. destruct (run_round_rounds _ _ _ _ _ rb H1 Hwf) as [[Ha He]|[Ha (e & s & He)]].
    + rewrite (st_bind_Ok_l _ _ _ _ _ He).
      assert (budget_wf (charge_run c1 1 rb)) as Hwf'.
      { unfold budget_wf, run_ok, run_affordable in *. simpl. lia. }
      destruct (IH rx c2 (charge_run c1 1 rb) (acc ++ [x]) fuel H2 Hwf') as [[Ha' ->]|[Ha' H]].
      { unfold run_affordable in Ha. simpl. lia. }
      * left. subst k. unfold run_affordable in *. simpl in *. split; [lia|].
        rewrite <- (assoc_L (++)). unfold charge_run. simpl. do 3 f_equal; lia.
      * right. split; [|done]. subst k. unfold run_affordable in *. simpl in *. lia.
    + right. split.
      * pose proof (step_rounds_cost _ _ _ _ _ Hs) as [Hc' _].
        assert (0 <= c2) by (clear -H2; induction H2; lia).
        subst k. unfold run_affordable in *. simpl in *. lia.
      * unfold st_bind. rewrite He. eauto.
Qed.
End steps.

(** ** The refinement theorem *)

(** A finished traversal: the runner left behind and its once-only marks,
    cursors and streams. *)
Definition start (σ : Persist) (n : Z) : ControllerRunner := idle n σ.
Definition finish (σ : Persist) (n : Z) : ControllerRunner := done_runner n σ.

Lemma compiled_good root limits p :
  limits_ok limits -> counts_ok root = true -> compile_with_limits root limits = Ok p -> good root.
Proof.
  intros Hl Hc Hp. split; [done|].
  destruct (proj1 (compile_accepts_iff root limits Hl)) as (_ & Hs & _); [by eauto|].
  destruct Hl as [[_ Hl] _]. unfold MAX_ALLOWED_NODES, usize_max, u64_max in *. lia.
Qed.

Lemma run_follows_visits root limits p n σ out σ' :
  limits_ok limits -> counts_ok root = true -> compile_with_limits root limits = Ok p ->
  n < u64_max -> visits n [] σ root out σ' ->
  exists cost, forall rb, budget_wf rb ->
    let k := Z.of_nat (length out) in
    (run_affordable cost k rb /\
     run_to_completion p (mkRunState (start σ n) rb) =
       (Ok (mkTrace out StepComplete), mkRunState (finish σ' n) (charge_run cost k rb))) \/
    (~ run_affordable cost k rb /\
     exists e s, run_to_completion p (mkRunState (start σ n) rb) = (Err e, s)).
Proof.
  intros Hl Hc Hp Hn Hv.
  destruct (root_leads p n root σ out σ') as [c Hr]; [by eapply compile_represents|
    by eapply compiled_good|done|].
  exists (c + 1). intros rb Hrb k.
  unfold run_to_completion, run_to_completion_with_signal. simpl rs_budget.
  apply (run_loop_rounds p (start σ n) out (live [] σ' n) c (finish σ' n) 1 rb []); try done.
  - apply sr_last; [done|lia|]. apply complete_exact. lia.
  - lia.
Qed.

(** C1 The runner refines the traversal of the source plan.  For every plan
    that compiles and every state a user may start an iteration from, a run
    selects exactly the samples of the traversal, in order and with the right
    cursors and iteration numbers, leaves the once-only marks, interleave
    cursors and random streams the traversal leaves, and has a fixed cost:
    budgets that cover it are charged exactly that, and budgets that do not
    make the run fail. *)
Theorem runner_refines root limits p n σ out σ' :
  limits_ok limits -> counts_ok root = true -> compile_with_limits root limits = Ok p ->
  n < u64_max -> visits n [] σ root out σ' ->
  exists cost, forall rb, budget_wf rb ->
    let k := Z.of_nat (length out) in
    (run_affordable cost k rb /\
     run_to_completion p (mkRunState (start σ n) rb) =
       (Ok (mkTrace out StepComplete), mkRunState (finish σ' n) (charge_run cost k rb))) \/
    (~ run_affordable cost k rb /\
     exists e s, run_to_completion p (mkRunState (start σ n) rb) = (Err e, s)).
Proof. apply run_follows_visits. Qed.

(** ** The example plan *)

Definition fresh : Persist := mkPersist ∅ ∅ ∅.

Definition example_samples : list SampleSelection :=
  let outer := mkCursor 1 KSimple 0 in
  [mkSelection 4 0 [outer; mkCursor 2 KLoop 0; mkCursor 3 KOnceOnly 0];
   mkSelection 5 0 [outer; mkCursor 2 KLoop 0];
   mkSelection 5 0 [outer; mkCursor 2 KLoop 1]].

Lemma example_visits : visits 0 [] fresh example_plan example_samples (mark_once 3 fresh).
Proof.
  constructor. eapply (va_cons _ _ _ _ _ example_samples (mark_once 3 fresh) []); [|constructor].
  constructor.
  eapply (vl_step 0 _ _ _ 0 2 _ (take 2 example_samples) (mark_once 3 fresh) (drop 2 example_samples));
    [lia| |eapply (vl_step 0 _ _ _ 1 2 _ (drop 2 example_samples) (mark_once 3 fresh) []);
           [lia| |by constructor]].
  - eapply (va_cons 0 _ _ _ _ [_] (mark_once 3 fresh) [_]).
    + apply v_once_first; [by apply not_elem_of_empty|].
      eapply (va_cons 0 _ _ _ _ [_] _ []); constructor.
    + eapply (va_cons 0 _ _ _ _ [_] _ []); constructor.
  - eapply (va_cons 0 _ _ _ _ [] (mark_once 3 fresh) [_]).
    + apply v_once_again. unfold mark_once. simpl. set_solver.
    + eapply (va_cons 0 _ _ _ _ [_] _ []); constructor.
Qed.

Lemma runner_refines_witness :
  exists cost, forall rb, budget_wf rb -> run_affordable cost 3 rb ->
    fst (run_to_completion example_program (mkRunState (start fresh 0) rb)) =
      Ok (mkTrace example_samples StepComplete).
Proof.
  destruct (runner_refines example_plan limits_default example_program 0 fresh example_samples
    (mark_once 3 fresh)) as [cost H].
  - exact limits_default_ok.
  - reflexivity.
  - exact example_compiles.
  - reflexivity.
  - exact example_visits.
  - exists cost. intros rb Hrb Ha. destruct (H rb Hrb) as [[_ ->]|[Hn _]]; [reflexivity|].
    destruct (Hn Ha).
Defined.
