(* ===== verification/Completion.v ===== *)
(** * Completion and resumption

    The traversal specification is a function of the plan and the state it
    starts from, and it is total on plans whose loops are finite.  So every
    finite plan completes; and a traversal that is cut into steps with
    budgets of any size, failures included, selects the same samples. *)

From S2P Require Import Prelude Control Random Plan Runner RunnerFacts Traversal RunnerSafety.

(** ** Determinism *)

Section determinism.
Context (n : Z).

Lemma visits_deterministic :
  (forall path σ t out σ', visits n path σ t out σ' ->
     forall out2 σ2, visits n path σ t out2 σ2 -> out2 = out /\ σ2 = σ') /\
  (forall path σ ch out σ', visits_all n path σ ch out σ' ->
     forall out2 σ2, visits_all n path σ ch out2 σ2 -> out2 = out /\ σ2 = σ') /\
  (forall path id ch i total σ out σ', visits_loop n path id ch i total σ out σ' ->
     forall out2 σ2, visits_loop n path id ch i total σ out2 σ2 -> out2 = out /\ σ2 = σ').
Proof.
  apply visits_mutind; intros.
  all: match goal with H : visits _ _ _ _ ?o ?s |- ?o = _ /\ ?s = _ => inv H
       | H : visits_all _ _ _ _ ?o ?s |- ?o = _ /\ ?s = _ => inv H
       | H : visits_loop _ _ _ _ _ _ _ ?o ?s |- ?o = _ /\ ?s = _ => inv H end.
  all: try done; try lia; eauto; simplify_eq/=; eauto.
  all: try match goal with
    | H1 : draw_index ?s ?b ?st _ _ _, H2 : draw_index ?s ?b ?st _ _ _ |- _ =>
        destruct (draw_index_deterministic _ _ _ _ _ _ _ _ _ H1 H2) as (<- & <- & <-); simplify_eq; eauto
    | H1 : shuffles ?s ?b ?l ?st _ _ _, H2 : shuffles ?s ?b ?l ?st _ _ _ |- _ =>
        destruct (shuffles_deterministic _ _ _ _ _ _ _ _ _ _ H1 H2) as (<- & <- & <-); eauto
    end.
  all: naive_solver.
Qed.
End determinism.

(** ** Totality *)

(** How often the traversal of a plan may move an interleave cursor, at
    most. *)
Fixpoint entries (t : ControllerNode) : Z :=
  match t with
  | NSample _ | NDisabled _ _ | NUnsupported _ _ => 0
  | NSimple _ ch | NOnceOnly _ ch | NRandom _ _ ch | NRandomOrder _ _ ch =>
      foldr Z.add 0 (map entries ch)
  | NInterleave _ ch => 1 + foldr Z.add 0 (map entries ch)
  | NLoop _ (Finite k) ch => k * foldr Z.add 0 (map entries ch)
  | NLoop _ Forever ch => foldr Z.add 0 (map entries ch)
  end.

(** No enabled loop is infinite and no enabled element unsupported. *)
Fixpoint finite_plan (t : ControllerNode) : bool :=
  match t with
  | NSample _ | NDisabled _ _ => true
  | NUnsupported _ _ | NLoop _ Forever _ => false
  | NSimple _ ch | NOnceOnly _ ch | NRandom _ _ ch | NRandomOrder _ _ ch | NInterleave _ ch
  | NLoop _ (Finite _) ch => forallb finite_plan ch
  end.

Abbreviation entries_all ch := (foldr Z.add 0 (map entries ch)).

(** Every cursor can still be moved [m] times. *)
Definition room (σ : Persist) (m : Z) : Prop :=
  forall id, Z.of_nat (cursor_of id σ) + m <= usize_max.

Section totality.
Context (n : Z).

Lemma entries_all_nonneg ch : Forall (fun t => 0 <= entries t) ch -> 0 <= entries_all ch.
Proof. induction 1; simpl; lia. Qed.

Lemma entries_nonneg t : counts_ok t = true -> 0 <= entries t.
Proof.
  induction t as [t IH] using plan_ind. intros Hc.
  assert (forall ch, source_children t = Some ch -> forallb counts_ok ch = true -> 0 <= entries_all ch)
    as Hall.
  { intros ch Hch Hok. apply entries_all_nonneg, Forall_forall. intros c Hin.
    apply (proj1 (Forall_forall _ _) (IH ch Hch) c Hin).
    rewrite forallb_forall in Hok. by apply Hok, list_elem_of_In. }
  destruct t as [|id ch|id count ch|id ch|id ch|id ch|id seed ch|id seed ch|]; simpl in *; try done;
    try (by apply (Hall ch eq_refl)).
  - apply andb_true_iff in Hc as [Hk Hc]. specialize (Hall ch eq_refl Hc).
    destruct count; [|done]. simpl_bool. apply Z.mul_nonneg_nonneg; [lia|done].
  - specialize (Hall ch eq_refl Hc). lia.
Qed.

Definition visitable (t : ControllerNode) : Prop :=
  0 <= entries t /\ forall path σ m, room σ m -> entries t <= m ->
    exists out σ', visits n path σ t out σ' /\ room σ' (m - entries t).

Lemma visits_all_total ch path σ m :
  Forall visitable ch -> room σ m -> entries_all ch <= m ->
  exists out σ', visits_all n path σ ch out σ' /\ room σ' (m - entries_all ch).
Proof.
  intros Hall. revert σ m. induction Hall as [|t ch [Ht0 Ht] Hch IH]; simpl; intros σ m Hr Hm.
  - exists [], σ. split; [constructor|]. by rewrite Z.sub_0_r.
  - assert (0 <= entries_all ch) as Hn.
    { apply entries_all_nonneg. eapply Forall_impl; [done|]. by intros ? []. }
    destruct (Ht path σ m Hr) as (o1 & σ1 & H1 & Hr1); [lia|].
    destruct (IH σ1 (m - entries t) Hr1) as (o2 & σ2 & H2 & Hr2); [lia|].
    exists (o1 ++ o2), σ2. split; [by econstructor|]. by rewrite Z.sub_add_distr.
Qed.

Lemma visits_loop_total ch path id total (k : nat) i σ m :
  Forall visitable ch -> total - i <= Z.of_nat k -> room σ m -> i <= total ->
  (total - i) * entries_all ch <= m ->
  exists out σ', visits_loop n path id ch i total σ out σ' /\
    room σ' (m - (total - i) * entries_all ch).
Proof.
  intros Hall. revert i σ m. induction k as [|k IH]; intros i σ m Hk Hr Hi Hm.
  - assert (total = i) as -> by lia. exists [], σ. split; [by constructor|].
    by rewrite Z.sub_diag, Z.mul_0_l, Z.sub_0_r.
  - destruct (decide (total <= i)) as [Hle|Hlt].
    { assert (total = i) as -> by lia. exists [], σ. split; [by constructor|].
      by rewrite Z.sub_diag, Z.mul_0_l, Z.sub_0_r. }
    assert (0 <= entries_all ch) as Hn.
    { apply entries_all_nonneg. eapply Forall_impl; [done|]. by intros ? []. }
    destruct (visits_all_total ch (path ++ [mkCursor id KLoop i]) σ m) as (o1 & σ1 & H1 & Hr1);
      [done|done|nia|].
    destruct (IH (i + 1) σ1 (m - entries_all ch)) as (o2 & σ2 & H2 & Hr2); [lia|done|lia|nia|].
    exists (o1 ++ o2), σ2. split; [econstructor; by try lia|].
    by replace (m - (total - i) * entries_all ch)
      with (m - entries_all ch - (total - (i + 1)) * entries_all ch) by lia.
Qed.

Lemma room_weaken σ m m' : room σ m -> m' <= m -> room σ m'.
Proof. intros H Hm id. specialize (H id). lia. Qed.

Lemma room_bump σ m id c :
  room σ m -> c = cursor_of id σ -> room (put_cursor id (S c) σ) (m - 1).
Proof.
  intros H -> id'. pose proof (H id'). unfold cursor_of at 1, put_cursor. simpl.
  destruct (decide (id = id')) as [->|Hne]; simplify_map_eq; [|unfold cursor_of in *; lia].
  simpl. lia.
Qed.

Lemma entry_le t ch : Forall visitable ch -> t ∈ ch -> entries t <= entries_all ch.
Proof.
  induction 1 as [|u ch [Hu _] Hch IH]; [set_solver|]. simpl.
  assert (0 <= entries_all ch).
  { apply entries_all_nonneg. eapply Forall_impl; [done|]. by intros ? []. }
  intros [->|Hin]%elem_of_cons; [lia|]. specialize (IH Hin). lia.
Qed.

(** What remains after one child of several was visited. *)
Lemma one_child_total ch t path σ m :
  Forall visitable ch -> t ∈ ch -> room σ m -> entries_all ch <= m ->
  exists out σ', visits n path σ t out σ' /\ room σ' (m - entries_all ch).
Proof.
  intros Hall Hin Hr Hm. pose proof (entry_le t ch Hall Hin) as Hle.
  destruct (proj1 (Forall_forall _ _) Hall t Hin) as [_ Ht].
  destruct (Ht path σ m Hr) as (out & σ' & Hv & Hr'); [lia|].
  exists out, σ'. split; [done|]. eapply room_weaken; [done|lia].
Qed.

Lemma room_stream id st σ m : room σ m -> room (put_stream id st σ) m.
Proof. done. Qed.

Lemma room_once id σ m : room σ m -> room (mark_once id σ) m.
Proof. done. Qed.

Lemma entries_permutation (l l' : list ControllerNode) : l ≡ₚ l' -> entries_all l = entries_all l'.
Proof. induction 1; simpl; lia. Qed.

Lemma interleave_total id ch :
  Forall visitable ch -> visitable (NInterleave id ch).
Proof.
  intros Hall. assert (0 <= entries_all ch) as Hn.
  { apply entries_all_nonneg. eapply Forall_impl; [done|]. by intros ? []. }
  split; simpl; [lia|]. intros path σ m Hr Hm. destruct (decide (ch = [])) as [->|Hne].
  { exists [], σ. split; [constructor|]. eapply room_weaken; [done|simpl; lia]. }
  destruct (lookup_lt_is_Some_2 ch (cursor_of id σ `mod` length ch)) as [t Ht].
  { apply Nat.mod_upper_bound. by destruct ch. }
  destruct (one_child_total ch t (path ++ [mkCursor id KInterleave 0])
    (put_cursor id (S (cursor_of id σ)) σ) (m - 1)) as (out & σ' & Hv & Hr').
  - done.
  - by eapply list_elem_of_lookup_2.
  - by apply room_bump.
  - lia.
  - exists out, σ'. split; [|eapply room_weaken; [done|lia]].
    econstructor; [done| |done]. specialize (Hr id). lia.
Qed.

Lemma random_total id seed ch :
  Forall visitable ch -> Z.of_nat (length ch) <= usize_max -> visitable (NRandom id seed ch).
Proof.
  intros Hall Hl. split; [apply entries_all_nonneg; eapply Forall_impl; [done|]; by intros ? []|].
  simpl. intros path σ m Hr Hm. destruct (decide (ch = [])) as [->|Hne].
  { exists [], σ. split; [constructor|]. eapply room_weaken; [done|simpl; lia]. }
  destruct (draw_index_total seed (length ch) (p_rand σ !! id)) as (i & st & k & Hd); [done|].
  assert (0 < length ch)%nat as Hpos by (destruct ch; [done|simpl; lia]).
  pose proof (draw_index_range _ _ _ _ _ _ Hpos Hd) as Hi.
  destruct (lookup_lt_is_Some_2 ch i Hi) as [t Ht].
  destruct (one_child_total ch t (path ++ [mkCursor id KRandom 0]) (put_stream id st σ) m)
    as (out & σ' & Hv & Hr'); [done|by eapply list_elem_of_lookup_2|done|done|].
  exists out, σ'. split; [by econstructor|done].
Qed.

Lemma random_order_total id seed ch :
  Forall visitable ch -> Z.of_nat (length ch) <= usize_max -> visitable (NRandomOrder id seed ch).
Proof.
  intros Hall Hl. split; [apply entries_all_nonneg; eapply Forall_impl; [done|]; by intros ? []|].
  simpl. intros path σ m Hr Hm. destruct (decide (ch = [])) as [->|Hne].
  { exists [], σ. split; [constructor|]. eapply room_weaken; [done|simpl; lia]. }
  destruct (shuffles_total seed (pred (length ch)) ch (p_rand σ !! id)) as (order & st & k & Hs).
  { destruct ch; simpl in *; [by unfold usize_max, u64_max|lia]. }
  pose proof (shuffles_permutation _ _ _ _ _ _ _ Hs) as Hp.
  destruct (visits_all_total order (path ++ [mkCursor id KRandomOrder 0]) (put_stream id st σ) m)
    as (out & σ' & Hv & Hr'); [by rewrite Hp|done|by rewrite (entries_permutation _ _ Hp)|].
  exists out, σ'. split; [by econstructor|]. by rewrite <- (entries_permutation _ _ Hp).
Qed.

Lemma finite_visitable t : good t -> finite_plan t = true -> visitable t.
Proof.
  induction t as [t IH] using plan_ind. intros Hg Hf.
  assert (forall ch, source_children t = Some ch -> forallb finite_plan ch = true ->
    Forall visitable ch /\ Z.of_nat (length ch) <= usize_max) as Hall.
  { intros ch Hch Hok. split; [|by eapply good_length]. pose proof (good_children _ _ Hch Hg) as Hgs.
    apply Forall_forall. intros c Hin.
    apply (proj1 (Forall_forall _ _) (IH ch Hch) c Hin); [by apply (proj1 (Forall_forall _ _) Hgs)|].
    rewrite forallb_forall in Hok. by apply Hok, list_elem_of_In. }
  pose proof (entries_nonneg t (proj1 Hg)) as Hn.
  destruct t as [|id ch|id count ch|id ch|id ch|id ch|id seed ch|id seed ch|]; simpl in Hf; try done.
  - split; [done|]. intros path σ m Hr Hm. do 2 eexists. split; [constructor|].
    eapply room_weaken; [done|simpl; lia].
  - destruct (Hall ch eq_refl Hf) as [Hv Hl]. split; [done|]. intros path σ m Hr Hm.
    destruct (visits_all_total ch (path ++ [mkCursor id KSimple 0]) σ m) as (o & σ' & H1 & H2); try done.
    exists o, σ'. split; [by constructor|done].
  - destruct count as [k|]; [|done]. destruct (Hall ch eq_refl Hf) as [Hv Hl].
    assert (0 <= k) as Hk.
    { destruct Hg as [Hg _]. simpl in Hg. apply andb_true_iff in Hg as [Hg _]. simpl_bool. lia. }
    split; [done|]. intros path σ m Hr Hm. simpl in Hm.
    destruct (visits_loop_total ch path id k (Z.to_nat k) 0 σ m) as (o & σ' & H1 & H2);
      [done|lia|done|done|by rewrite Z.sub_0_r|].
    exists o, σ'. split; [by constructor|]. by rewrite Z.sub_0_r in H2.
  - split; [done|]. intros path σ m Hr Hm. do 2 eexists. split; [constructor|].
    eapply room_weaken; [done|simpl; lia].
  - destruct (Hall ch eq_refl Hf) as [Hv Hl]. split; [done|]. intros path σ m Hr Hm.
    destruct (decide (id ∈ p_once σ)) as [Hid|Hid].
    + exists [], σ. split; [by constructor|]. eapply room_weaken; [done|simpl in *; lia].
    + destruct (visits_all_total ch (path ++ [mkCursor id KOnceOnly 0]) (mark_once id σ) m)
        as (o & σ' & H1 & H2); try done.
      exists o, σ'. split; [by apply v_once_first|done].
  - apply interleave_total. by apply (Hall ch).
  - apply random_total; by apply (Hall ch).
  - apply random_order_total; by apply (Hall ch).
Qed.
End totality.

Lemma fresh_room m : m <= usize_max -> room fresh m.
Proof. intros Hm id. unfold cursor_of, fresh. simpl. rewrite lookup_empty. simpl. lia. Qed.



(** ** Resumption *)

Section resumption.
Context (p : CompiledProgram).

(** A caller that steps the runner with the given budgets, collects the
    samples and carries on after an error. *)
Fixpoint drive (r : ControllerRunner) (budgets : list (StepBudget * RunBudget)) :
    list SampleSelection * bool * ControllerRunner :=
  match budgets with
  | [] => ([], false, r)
  | (b, rb) :: rest =>
      match step_with_run_budget p Continue (mkMachine r b rb) with
      | (Ok (StepSample x), m) =>
          let '(l, complete, r') := drive (m_runner m) rest in (x :: l, complete, r')
      | (Ok StepComplete, m) => ([], true, m_runner m)
      | (Ok (StepStopped _), m) => ([], false, m_runner m)
      | (Err _, m) | (OutOfFuel, m) => drive (m_runner m) rest
      end
  end.

(** The steps that are still due, each of cost [c] at most. *)
Inductive pending (c : Z) (rf : ControllerRunner) : ControllerRunner -> list SampleSelection -> Prop :=
| pend_end r c' : step_rounds p r StepComplete rf c' 0 -> c' <= c -> pending c rf r []
| pend_more r x rx c' l :
    step_rounds p r (StepSample x) rx c' 1 -> c' <= c -> pending c rf rx l ->
    pending c rf r (x :: l).

Lemma rounds_nonneg r l r1 c : rounds p r l r1 c -> 0 <= c.
Proof. induction 1; lia. Qed.

Lemma rounds_pending r l r1 c rf c' :
  rounds p r l r1 c -> step_rounds p r1 StepComplete rf c' 0 -> pending (c + c') rf r l.
Proof.
  intros Hr Hs. assert (forall C, c + c' <= C -> pending C rf r l) as H; [|by apply H].
  pose proof (step_rounds_cost _ _ _ _ _ _ Hs) as [Hc' _].
  revert r c Hr. induction l as [|x l IH]; intros r c Hr C HC;
    pose proof (rounds_to_step _ _ _ _ _ _ _ _ _ Hr Hs) as H; simpl in H.
  - by eapply pend_end.
  - destruct H as (rx & c1 & c2 & H1 & H2 & ->).
    pose proof (step_rounds_cost _ _ _ _ _ _ H1) as [Hc1 _]. pose proof (rounds_nonneg _ _ _ _ H2).
    eapply pend_more; [done|lia|]. eapply IH; [done|lia].
Qed.

Definition budgets_ok (bs : list (StepBudget * RunBudget)) : Prop :=
  Forall (fun '(b, rb) => step_ok b /\ run_ok rb) bs.

Lemma drive_pending c rf bs r l :
  pending c rf r l -> budgets_ok bs ->
  let '(out, complete, r') := drive r bs in
  out `prefix_of` l /\ (complete = true -> out = l /\ r' = rf).
Proof.
  intros Hp Hbs. revert r l Hp. induction Hbs as [|[b rb] bs [Hb Hrb] Hbs IH]; intros r l Hp; simpl.
  { split; [apply prefix_nil|done]. }
  destruct Hp as [r c' Hs Hc|r x rx c' l Hs Hc Hp];
    rewrite step_continue by (by eapply step_rounds_running);
    (destruct (select_loop_rounds _ _ _ _ _ _ b rb (S (Z.to_nat (remaining b))) Hs Hb Hrb ltac:(lia))
      as [[Ha ->]|[Ha (e & r'' & b' & rb' & c'' & -> & _ & Hs' & Hc')]]; simpl).
  - by split.
  - apply (IH r'' []). eapply pend_end; [done|lia].
  - specialize (IH rx l Hp). destruct (drive rx bs) as [[out complete] r'].
    destruct IH as [H1 H2]. split; [by apply prefix_cons|]. intros Hd. by destruct (H2 Hd) as [-> ->].
  - apply (IH r'' (x :: l)). eapply pend_more; [done|lia|done].
Qed.

(** Budgets that pay for any step make progress each. *)
Lemma drive_enough c rf bs r l :
  pending c rf r l -> budgets_ok bs -> (length l < length bs)%nat ->
  Forall (fun '(b, rb) => affordable c 1 b rb) bs -> drive r bs = (l, true, rf).
Proof.
  intros Hp Hbs Hlen Haff. revert r l Hp Hlen Haff.
  induction Hbs as [|[b rb] bs [Hb Hrb] Hbs IH]; intros r l Hp Hlen Haff; simpl in *; [lia|].
  apply Forall_cons in Haff as [Hab Haff].
  destruct Hp as [r c' Hs Hc|r x rx c' l Hs Hc Hp];
    rewrite step_continue by (by eapply step_rounds_running);
    (destruct (select_loop_rounds _ _ _ _ _ _ b rb (S (Z.to_nat (remaining b))) Hs Hb Hrb ltac:(lia))
      as [[Ha ->]|[Ha _]]; simpl); try (destruct Ha; unfold affordable in *; lia); [done|].
  by rewrite (IH rx l Hp ltac:(simpl in *; lia) Haff).
Qed.
End resumption.


