(* ===== verification/Scenarios.v ===== *)
(** * What the controllers promise their users

    Consequences of the refinement for whole runs: a once-only controller
    runs in one iteration only, a random-order controller runs each child
    exactly once, and an interleave controller takes its children in turn
    over the iterations. *)

From S2P Require Import Prelude Control Random Plan Runner RunnerFacts Traversal Completion.

(** ** Runs of finite plans *)

(** A plan this development makes statements about: accepted by the compiler,
    without infinite loops, and small enough for the interleave cursors, which
    can be moved [m] more times. *)
Record runnable (root : ControllerNode) (limits : ControllerLimits) (p : CompiledProgram)
    (σ : Persist) (n m : Z) : Prop := {
  rn_limits : limits_ok limits;
  rn_counts : counts_ok root = true;
  rn_compiled : compile_with_limits root limits = Ok p;
  rn_finite : finite_plan root = true;
  rn_room : room σ m /\ entries root <= m;
  rn_iteration : n < u64_max
}.

(** A run that returns does what the traversal says. *)
Lemma run_visits root limits p σ n m rb tr s :
  runnable root limits p σ n m -> budget_wf rb ->
  run_to_completion p (mkRunState (start σ n) rb) = (Ok tr, s) ->
  exists σ', visits n [] σ root (samples tr) σ' /\ trace_end tr = StepComplete /\
    rs_runner s = finish σ' n /\ room σ' (m - entries root).
Proof.
  intros [Hl Hc Hp Hf [Hr Hm] Hn] Hrb Hrun. pose proof (compiled_good _ _ _ Hl Hc Hp) as Hg.
  destruct (finite_visitable n root Hg Hf) as [_ Ht].
  destruct (Ht [] σ m) as (out & σ' & Hv & Hr'); [done|lia|].
  destruct (run_follows_visits root limits p n σ out σ') as [cost H]; try done.
  destruct (H rb Hrb) as [[_ Heq]|[_ (e & s' & Heq)]]; rewrite Heq in Hrun; simplify_eq/=.
  by exists σ'.
Qed.

Lemma next_iteration_start σ n : next_root_iteration (finish σ n) = Ok (start σ (n + 1)).
Proof. done. Qed.

(** ** Once only *)

Section once_only.
Context (n : Z) (id : ElementId).

Abbreviation mark := (mkCursor id KOnceOnly 0).

(** Samples selected under the controller, as seen from [path]. *)
Definition under (path : list ControllerCursor) (s : SampleSelection) : Prop :=
  mark ∈ Runner.path s /\ mark ∉ path.

Definition once_law (path : list ControllerCursor) (σ : Persist) (out : list SampleSelection)
    (σ' : Persist) : Prop :=
  p_once σ ⊆ p_once σ' /\
  forall s, s ∈ out -> under path s -> id ∉ p_once σ /\ id ∈ p_once σ'.

Lemma once_law_weaken path c σ out σ' :
  c <> mark -> once_law (path ++ [c]) σ out σ' -> once_law path σ out σ'.
Proof.
  intros Hc [H1 H2]. split; [done|]. intros s Hs [Ha Hb]. apply (H2 s Hs). split; [done|]. set_solver.
Qed.

Lemma once_law_app path σ o1 σ1 o2 σ2 :
  once_law path σ o1 σ1 -> once_law path σ1 o2 σ2 -> once_law path σ (o1 ++ o2) σ2.
Proof. intros [H1 H2] [H3 H4]. split; [set_solver|]. intros s [Hs|Hs]%elem_of_app Hu; set_solver. Qed.

Lemma once_law_nil path σ : once_law path σ [] σ.
Proof. split; [done|]. intros s Hs. by apply elem_of_nil in Hs. Qed.

Lemma once_law_change path σ σ1 out σ' :
  p_once σ1 = p_once σ -> once_law path σ1 out σ' -> once_law path σ out σ'.
Proof. unfold once_law. by intros ->. Qed.

Lemma once_law_enter path σ j out σ' :
  j ∉ p_once σ -> once_law (path ++ [mkCursor j KOnceOnly 0]) (mark_once j σ) out σ' ->
  once_law path σ out σ'.
Proof.
  intros Hj [H1 H2]. simpl in *. split; [set_solver|]. intros s Hs [Ha Hb].
  destruct (decide (j = id)) as [->|Hne]; [set_solver|].
  destruct (H2 s Hs) as [H3 H4]; [|set_solver]. split; [done|].
  rewrite not_elem_of_app, not_elem_of_cons. split_and!; [done|congruence|apply not_elem_of_nil].
Qed.

Lemma visits_once :
  (forall path σ t out σ', visits n path σ t out σ' -> once_law path σ out σ') /\
  (forall path σ ch out σ', visits_all n path σ ch out σ' -> once_law path σ out σ') /\
  (forall path j ch i total σ out σ', visits_loop n path j ch i total σ out σ' ->
     once_law path σ out σ').
Proof.
  apply visits_mutind; intros; try apply once_law_nil; try done.
  - split; [done|]. intros s [->|H]%elem_of_cons; [|by apply elem_of_nil in H]. by intros [??].
  - eapply once_law_weaken; [|done]. done.
  - by eapply once_law_enter.
  - eapply once_law_change; [|eapply once_law_weaken; [|done]]; done.
  - eapply once_law_change; [|eapply once_law_weaken; [|done]]; done.
  - eapply once_law_change; [|eapply once_law_weaken; [|done]]; done.
  - by eapply once_law_app.
  - eapply once_law_app; [|done]. eapply once_law_weaken; [|done]. done.
Qed.
End once_only.

(** A once-only controller is run in one iteration of a user at most: if
    an iteration selected a sample under it, the next one selects none. *)
Theorem once_only_once root limits p σ n rb1 tr1 s1 r2 rb2 tr2 s2 id :
  runnable root limits p σ n (2 * entries root) -> n + 1 < u64_max ->
  budget_wf rb1 -> budget_wf rb2 ->
  run_to_completion p (mkRunState (start σ n) rb1) = (Ok tr1, s1) ->
  next_root_iteration (rs_runner s1) = Ok r2 ->
  run_to_completion p (mkRunState r2 rb2) = (Ok tr2, s2) ->
  (exists x, x ∈ samples tr1 /\ mkCursor id KOnceOnly 0 ∈ path x) ->
  forall y, y ∈ samples tr2 -> mkCursor id KOnceOnly 0 ∉ path y.
Proof.
  intros Hrn Hn Hb1 Hb2 Hrun1 Hnext Hrun2 (x & Hx & Hxp) y Hy Hyp.
  destruct (run_visits _ _ _ _ _ _ _ _ _ Hrn Hb1 Hrun1) as (σ1 & Hv1 & _ & Hr1 & Hroom).
  rewrite Hr1, next_iteration_start in Hnext. simplify_eq.
  assert (runnable root limits p σ1 (n + 1) (2 * entries root - entries root)) as Hrn2.
  { destruct Hrn. split; try done. split; [done|lia]. }
  destruct (run_visits _ _ _ _ _ _ _ _ _ Hrn2 Hb2 Hrun2) as (σ2 & Hv2 & _ & _ & _).
  destruct (proj2 (proj1 (visits_once n id) _ _ _ _ _ Hv1) x Hx) as [_ H1].
  { split; [done|apply not_elem_of_nil]. }
  destruct (proj2 (proj1 (visits_once (n + 1) id) _ _ _ _ _ Hv2) y Hy) as [H2 _]; [|done].
  split; [done|apply not_elem_of_nil].
Qed.

Definition example_budget : RunBudget := run_budget_new 100 100.

Definition example_first :=
  Eval vm_compute in run_to_completion example_program (mkRunState (start fresh 0) example_budget).

Definition example_second :=
  Eval vm_compute in
    run_to_completion example_program (mkRunState (start (mark_once 3 fresh) 1) example_budget).

Definition trace_of (r : result ControllerError ExecutionTrace) : ExecutionTrace :=
  match r with Ok tr => tr | _ => mkTrace [] StepComplete end.

Lemma example_budget_wf : budget_wf example_budget.
Proof. unfold budget_wf, run_ok. vm_compute. intuition discriminate. Qed.

Lemma once_only_once_witness :
  mkCursor 3 KOnceOnly 0 ∉
    path (mkSelection 5 1 [mkCursor 1 KSimple 0; mkCursor 2 KLoop 0]).
Proof.
  apply (once_only_once example_plan limits_default example_program fresh 0 example_budget
    (trace_of (fst example_first)) (snd example_first) (start (mark_once 3 fresh) 1) example_budget
    (trace_of (fst example_second)) (snd example_second) 3).
  - split; [exact limits_default_ok|reflexivity|exact example_compiles|reflexivity| |reflexivity].
    split; [|vm_compute; discriminate]. apply fresh_room. vm_compute. discriminate.
  - reflexivity.
  - exact example_budget_wf.
  - exact example_budget_wf.
  - vm_compute. reflexivity.
  - vm_compute. reflexivity.
  - vm_compute. reflexivity.
  - exists (mkSelection 4 0 [mkCursor 1 KSimple 0; mkCursor 2 KLoop 0; mkCursor 3 KOnceOnly 0]).
    split; [left|]. right; right; left.
  - left.
Defined.

(** ** Random order *)

Lemma visits_samples n path σ ids out σ' :
  visits_all n path σ (map NSample ids) out σ' ->
  out = map (fun id => mkSelection id n path) ids /\ σ' = σ.
Proof.
  revert out. induction ids as [|id ids IH]; simpl; intros out Hv.
  - by inv Hv.
  - inversion Hv as [|? ? ? ? out1 σ1 out2 ? H1 H2]; subst. inv H1.
    by destruct (IH _ H2) as [-> ->].
Qed.

(** A random-order controller runs each of its samplers exactly once per
    iteration: what the run selects is a permutation of the children. *)
Theorem random_order_runs_each_once id seed ids limits p σ n m rb tr s :
  runnable (NRandomOrder id seed (map NSample ids)) limits p σ n m -> budget_wf rb ->
  run_to_completion p (mkRunState (start σ n) rb) = (Ok tr, s) ->
  map sampler_id (samples tr) ≡ₚ ids.
Proof.
  intros Hrn Hb Hrun. destruct (run_visits _ _ _ _ _ _ _ _ _ Hrn Hb Hrun) as (σ' & Hv & _).
  inversion Hv as [| | | | | | | | | |? ? ? ? Hnil|? ? ? ? ? order st k ? ? Hne Hs Hall]; subst.
  - by destruct ids.
  - assert (exists ids', order = map NSample ids' /\ ids' ≡ₚ ids) as (ids' & -> & Hp).
    { apply shuffles_permutation in Hs. apply Permutation_map_inv in Hs as (l & -> & Hl).
      by exists l. }
    apply visits_samples in Hall as [Ho _]. rewrite Ho, map_map. simpl. by rewrite map_id.
Qed.

Definition shuffled_ids : list Z := [2; 3; 4; 5].
Definition shuffled_plan : ControllerNode := NRandomOrder 1 42 (map NSample shuffled_ids).
Definition shuffled_program : CompiledProgram :=
  mkProgram [CSample 2; CSample 3; CSample 4; CSample 5; CRandomOrder 1 42 [0; 1; 2; 3]%nat] 4.
Definition shuffled_run :=
  Eval vm_compute in run_to_completion shuffled_program (mkRunState (start fresh 0) example_budget).

Lemma random_order_runs_each_once_witness :
  map sampler_id (samples (trace_of (fst shuffled_run))) ≡ₚ shuffled_ids.
Proof.
  apply (random_order_runs_each_once 1 42 shuffled_ids limits_default shuffled_program fresh 0 0
    example_budget (trace_of (fst shuffled_run)) (snd shuffled_run)).
  - split; [exact limits_default_ok|reflexivity|vm_compute; reflexivity|reflexivity| |reflexivity].
    split; [|vm_compute; discriminate]. apply fresh_room. vm_compute. discriminate.
  - exact example_budget_wf.
  - vm_compute. reflexivity.
Defined.

(** ** Interleave *)

(** The traces of [k] consecutive iterations of a user. *)
Inductive iterations (p : CompiledProgram) : ControllerRunner -> list ExecutionTrace -> Prop :=
| it_nil r : iterations p r []
| it_cons r rb tr s r' trs :
    budget_wf rb -> run_to_completion p (mkRunState r rb) = (Ok tr, s) ->
    next_root_iteration (rs_runner s) = Ok r' -> iterations p r' trs ->
    iterations p r (tr :: trs).

Lemma interleave_iteration id ids σ n tr σ' :
  ids <> [] -> visits n [] σ (NInterleave id (map NSample ids)) (samples tr) σ' ->
  cursor_of id σ' = S (cursor_of id σ) /\
  exists x, ids !! (cursor_of id σ `mod` length ids)%nat = Some x /\ map sampler_id (samples tr) = [x].
Proof.
  intros Hne Hv. inversion Hv as [| | | | | |? ? ? Hnil|? ? ? ? t ? ? Ht Hc Hvt| | | |]; subst.
  { by destruct ids. }
  rewrite length_map, list_lookup_fmap in Ht. apply fmap_Some in Ht as (x & Hx & ->).
  inv Hvt. split; [|by eauto]. unfold cursor_of at 1, put_cursor. simpl. by simplify_map_eq.
Qed.

(** An interleave controller takes its samplers in turn: the [j]-th of
    consecutive iterations selects the sampler [j] places after the cursor,
    round robin, and nothing else. *)
Theorem interleave_round_robin id ids limits p σ n trs :
  ids <> [] ->
  runnable (NInterleave id (map NSample ids)) limits p σ n (Z.of_nat (length trs) + 1) ->
  n + Z.of_nat (length trs) < u64_max -> iterations p (start σ n) trs ->
  forall j tr, trs !! j = Some tr ->
    exists x, ids !! ((cursor_of id σ + j) `mod` length ids)%nat = Some x /\
      map sampler_id (samples tr) = [x].
Proof.
  intros Hne Hrn Hn Hit. remember (start σ n) as r eqn:Er. revert σ n Er Hrn Hn.
  induction Hit as [r|r rb tr s r' trs Hb Hrun Hnext Hit IH]; intros σ n -> Hrn Hn j tr' Hj; [done|].
  destruct (run_visits _ _ _ _ _ _ _ _ _ Hrn Hb Hrun) as (σ1 & Hv & _ & Hr1 & Hroom).
  destruct (interleave_iteration _ _ _ _ _ _ Hne Hv) as [Hcur Hx].
  destruct j as [|j]; simpl in Hj.
  { injection Hj as <-. by rewrite Nat.add_0_r. }
  rewrite Hr1, next_iteration_start in Hnext. simplify_eq.
  assert (entries (NInterleave id (map NSample ids)) = 1) as He.
  { simpl. clear. induction ids; simpl in *; lia. }
  destruct (IH σ1 (n + 1) eq_refl) with j tr' as (x & Hx1 & Hx2); [| |done|].
  - rewrite He in Hroom. destruct Hrn as [? ? ? ? [_ Hm] ?]. split; try done; simpl in *; [|lia].
    split; [|lia]. eapply room_weaken; [done|lia].
  - simpl in Hn. lia.
  - exists x. split; [|done]. by rewrite <- Hx1, Hcur, Nat.add_succ_r.
Qed.

Definition turns_program : CompiledProgram :=
  mkProgram [CSample 2; CSample 3; CInterleave 1 [0; 1]%nat] 2.
Definition turn (j : nat) (n : Z) :=
  run_to_completion turns_program
    (mkRunState (start (if Nat.eqb j 0 then fresh else put_cursor 1 j fresh) n) example_budget).
Definition turn_0 := Eval vm_compute in turn 0 0.
Definition turn_1 := Eval vm_compute in turn 1 1.

Lemma interleave_round_robin_witness :
  exists x, [2; 3] !! ((cursor_of 1 fresh + 1) `mod` 2)%nat = Some x /\
    map sampler_id (samples (trace_of (fst turn_1))) = [x].
Proof.
  apply (interleave_round_robin 1 [2; 3] limits_default turns_program fresh 0
    [trace_of (fst turn_0); trace_of (fst turn_1)]).
  - discriminate.
  - split; [exact limits_default_ok|reflexivity|vm_compute; reflexivity|reflexivity| |reflexivity].
    split; [|vm_compute; discriminate]. apply fresh_room. vm_compute. discriminate.
  - reflexivity.
  - apply (it_cons turns_program _ example_budget _ (snd turn_0) (start (put_cursor 1 1 fresh) 1));
      [exact example_budget_wf|vm_compute; reflexivity|vm_compute; reflexivity|].
    apply (it_cons turns_program _ example_budget _ (snd turn_1) (start (put_cursor 1 2 fresh) 2));
      [exact example_budget_wf|vm_compute; reflexivity|vm_compute; reflexivity|].
    apply it_nil.
  - reflexivity.
Defined.
