(* ===== verification/RunnerInvariant.v ===== *)
(** * The runner's invariant

    A runner of a compiled plan only ever holds frames of controllers of the
    plan, each in a mode that fits its controller.  So the [InvalidState]
    errors of the methods are unreachable, and the sample budget is charged
    exactly once per selected sample, also when a step fails.  The methods
    are executed symbolically with [wp]. *)

From S2P Require Import Prelude Control Random Plan Runner RunnerFacts Traversal RunnerSafety.

Definition harmless (e : ControllerError) : bool :=
  match e with InvalidState _ => false | _ => true end.

Section invariant.
Context (p : CompiledProgram).

Abbreviation ns := (prog_nodes p).

(** A table index that stands for a node of the plan. *)
Definition child_ok (i : NodeIndex) : Prop := exists t, represents ns i t /\ good t.

(** The position and mode of a frame fit its controller. *)
Definition mode_ok (c : CompiledNode) (f : Frame) : Prop :=
  match c with
  | CSample _ => False
  | CDisabled _ => True
  | CSimple _ ch | CLoop _ _ ch => f_mode f = Ordered /\ (f_next_child f <= length ch)%nat
  | COnceOnly _ ch =>
      (f_mode f = Ordered \/ f_mode f = Skip) /\ (f_next_child f <= length ch)%nat
  | CInterleave _ _ | CRandom _ _ _ => exists o, f_mode f = OneShot o
  | CRandomOrder _ _ ch =>
      (f_mode f = RandomOrder None /\ f_next_child f = 0%nat) \/
      exists order, f_mode f = RandomOrder (Some order) /\ order ≡ₚ ch /\
        (f_next_child f <= length order)%nat
  end.

Definition frame_ok (f : Frame) : Prop :=
  child_ok (f_node f) /\ exists c, ns !! f_node f = Some c /\ mode_ok c f.

Record runner_ok (r : ControllerRunner) : Prop := {
  ok_stack : Forall frame_ok (stack r);
  ok_unstarted : root_started r = false -> stack r = [];
  ok_finished : finished r = true -> stack r = [] /\ root_started r = true
}.

(** ** Symbolic execution *)

(** [wp e0 m Q s]: started in [s], [m] returns with [Q], or fails with an
    error other than [InvalidState], leaving a runner that satisfies the
    invariant and [e0] emitted samples. *)
Definition wp {A} (e0 : Z) (m : M A) (Q : A -> Machine -> Prop) (s : Machine) : Prop :=
  match m s with
  | (Ok a, s') => Q a s'
  | (Err e, s') => harmless e = true /\ runner_ok (m_runner s') /\ emitted (m_run s') = e0
  | (OutOfFuel, _) => True
  end.

Section rules.
Context (e0 : Z).

Definition settled (s : Machine) : Prop := runner_ok (m_runner s) /\ emitted (m_run s) = e0.

Lemma wp_bind {A B} (m : M A) (k : A -> M B) Q s :
  wp e0 m (fun a => wp e0 (k a) Q) s -> wp e0 (st_bind m k) Q s.
Proof. unfold wp, st_bind. by destruct (m s) as [[]]. Qed.

Lemma wp_ret {A} (a : A) Q s : Q a s -> wp e0 (st_ret a) Q s.
Proof. done. Qed.

Lemma wp_fail {A} e (Q : A -> Machine -> Prop) s :
  harmless e = true -> settled s -> wp e0 (st_fail e) Q s.
Proof. by intros ? []. Qed.

Lemma wp_lift_or {A} (o : option A) e Q s :
  harmless e = true -> (o = None -> settled s) -> (forall a, o = Some a -> Q a s) ->
  wp e0 (st_lift (ok_or o e)) Q s.
Proof. destruct o; unfold wp; simpl; [by auto|]. intros ? [] ?; auto. Qed.

Lemma wp_lift_Ok {A} (a : A) r Q s : r = Ok a -> Q a s -> wp e0 (st_lift r) Q s.
Proof. by intros ->. Qed.

Lemma wp_get Q s : Q (m_runner s) s -> wp e0 get_runner Q s.
Proof. done. Qed.

Lemma wp_update f Q s :
  Q () (mkMachine (f (m_runner s)) (m_step s) (m_run s)) -> wp e0 (update_runner f) Q s.
Proof. done. Qed.

Lemma wp_set r Q s : Q () (mkMachine r (m_step s) (m_run s)) -> wp e0 (set_runner r) Q s.
Proof. done. Qed.

Lemma wp_spend Q s :
  settled s -> (forall b, Q () (mkMachine (m_runner s) b (m_run s))) -> wp e0 spend Q s.
Proof.
  intros [H1 H2] H. unfold wp, spend, step_spend, ok_or, res_bind.
  destruct (_ <=? _); [done|]. by destruct (u64_checked_add _ _).
Qed.

Lemma wp_reserve Q s :
  settled s ->
  (forall rb, emitted rb = e0 + 1 -> Q () (mkMachine (m_runner s) (m_step s) rb)) ->
  wp e0 reserve_sample Q s.
Proof.
  intros [H1 H2] H. unfold wp, reserve_sample, run_reserve, ok_or, res_bind.
  destruct (_ <=? _); [done|]. destruct (u64_checked_add _ _) eqn:E; [|done].
  apply u64_checked_add_Some in E as [_ ->]. apply H. simpl. lia.
Qed.

Lemma wp_wand {A} (m : M A) (Q Q' : A -> Machine -> Prop) s :
  wp e0 m Q s -> (forall a s', Q a s' -> Q' a s') -> wp e0 m Q' s.
Proof. unfold wp. intros H HQ. destruct (m s) as [[]]; eauto. Qed.

Lemma runner_ok_random m r : runner_ok r -> runner_ok (with_random m r).
Proof. intros []. by split. Qed.

Lemma wp_restoring {A} id st (m : M A) Q s : wp e0 m Q s -> wp e0 (restoring id st m) Q s.
Proof.
  unfold wp, restoring. destruct (m s) as [[a|e|] s']; try done. intros (H1 & H2 & H3).
  unfold st_bind, restore_random_state, update_runner. simpl. split_and!; try done.
  by apply runner_ok_random.
Qed.

Lemma wp_random_loop fuel id seed bound Q s :
  settled s -> (0 < bound)%nat ->
  (forall i m b, (i < bound)%nat -> Q i (mkMachine (with_random m (m_runner s)) b (m_run s))) ->
  wp e0 (random_loop fuel id seed bound) Q s.
Proof.
  intros [Hok He] Hb. revert s Hok He. induction fuel as [|fuel IH]; intros s Hok He HQ; [done|].
  cbn [random_loop]. apply wp_bind, wp_get.
  destruct (next_seeded_value _) as [v st]. apply wp_bind, wp_set.
  destruct (uniform_index v _) eqn:E.
  - apply wp_ret, HQ. apply uniform_index_range in E; lia.
  - apply wp_bind, wp_spend; [split; [by apply runner_ok_random|done]|].
    intros b. apply IH; [by apply runner_ok_random|done|]. intros. by apply HQ.
Qed.

Lemma wp_random_index id seed bound Q s :
  settled s -> (0 < bound)%nat ->
  (forall i m b, (i < bound)%nat -> Q i (mkMachine (with_random m (m_runner s)) b (m_run s))) ->
  wp e0 (random_index id seed bound) Q s.
Proof.
  intros Hs Hb HQ. unfold random_index. destruct (Nat.leb bound 1) eqn:E.
  - apply wp_ret. destruct s as [[] b rb]. by apply HQ.
  - by apply wp_random_loop.
Qed.

Lemma wp_shuffle id seed st pos order Q s :
  settled s -> (pos < length order)%nat -> Z.of_nat (length order) <= usize_max ->
  (forall order' m b, order' ≡ₚ order ->
     Q order' (mkMachine (with_random m (m_runner s)) b (m_run s))) ->
  wp e0 (shuffle id seed st pos order) Q s.
Proof.
  revert order s. induction pos as [|pos IH]; intros order s [Hok He] Hp Hl HQ; cbn [shuffle].
  - apply wp_ret. destruct s as [[] b rb]. by apply HQ.
  - apply wp_bind, wp_lift_or; [done|done|]. intros bound [_ ->]%usize_succ_Some.
    apply wp_bind, wp_restoring, wp_random_index; [done|lia|]. intros i m b Hi.
    apply IH; rewrite ?length_swap; [split; [by apply runner_ok_random|done]|lia|done|].
    intros order' m' b' Ho. apply HQ. by rewrite Ho, swap_permutation.
Qed.

Lemma wp_reserve_child child Q s :
  settled s ->
  (forall rb, emitted rb = e0 + weight p child -> Q () (mkMachine (m_runner s) (m_step s) rb)) ->
  wp e0 (reserve_child_sample p child) Q s.
Proof.
  intros Hs HQ. unfold reserve_child_sample, weight in *.
  destruct (node_at p child) as [[]|]; [by apply wp_reserve|..];
    (apply wp_ret; destruct s, Hs as [_ He]; apply HQ; simpl in *; lia).
Qed.

Lemma wp_top f rest Q s : stack (m_runner s) = f :: rest -> Q f s -> wp e0 (top_frame p) Q s.
Proof. intros Hs HQ. unfold top_frame. apply wp_bind, wp_get. by rewrite Hs. Qed.

Lemma wp_update_top g f rest Q s :
  stack (m_runner s) = f :: rest ->
  Q () (mkMachine (with_stack (g f :: rest) (m_runner s)) (m_step s) (m_run s)) ->
  wp e0 (update_top g) Q s.
Proof. intros Hs HQ. unfold update_top. apply wp_update. by rewrite Hs. Qed.

Lemma wp_advance f rest Q s :
  stack (m_runner s) = f :: rest -> Z.of_nat (f_next_child f) < usize_max ->
  Q () (mkMachine (with_stack (bump f :: rest) (m_runner s)) (m_step s) (m_run s)) ->
  wp e0 (advance_child p) Q s.
Proof.
  intros Hs Hn HQ. unfold advance_child. eapply wp_bind, wp_top; [done|].
  apply wp_bind. rewrite usize_succ_small by done. by eapply wp_update_top.
Qed.
End rules.

(** ** Frames *)

Lemma child_ok_kids i kids :
  child_ok i -> compiled_children p i = Ok kids ->
  Forall child_ok kids /\ Z.of_nat (length kids) <= usize_max.
Proof.
  intros (t & Hr & Hg) Hk. unfold compiled_children, node_at in Hk.
  destruct Hr as [i id Hi|i id ch Hi|i t ch idxs c Ht Hb Hi Hf]; rewrite Hi in Hk; try done.
  assert (idxs = kids) as -> by (destruct t; simplify_eq/=; congruence).
  pose proof (good_children _ _ Ht Hg) as Hch.
  rewrite (Forall2_length _ _ _ Hf). split; [|by eapply good_length].
  apply Forall_lookup. intros k child Hc.
  destruct (Forall2_lookup_l _ _ _ _ _ Hf Hc) as (u & Hu & Hru).
  exists u. split; [done|]. by apply (Forall_lookup_1 _ _ _ _ Hch Hu).
Qed.

Lemma runner_ok_top r f rest f' :
  runner_ok r -> stack r = f :: rest -> frame_ok f' -> runner_ok (with_stack (f' :: rest) r).
Proof.
  intros [Hs Hu Hf] He Hf'. rewrite He in *. split; simpl.
  - apply Forall_cons in Hs as [_ ?]. by constructor.
  - intros H. by specialize (Hu H).
  - intros H. by destruct (Hf H).
Qed.

Lemma child_ok_node i : child_ok i -> exists c, ns !! i = Some c.
Proof. intros (t & Hr & _). destruct (represents_node p _ _ Hr) as (c & Hc & _). eauto. Qed.

(** ** Actions *)

Section actions.
Context (e0 : Z).

(** What a frame's action leaves: a selected sampler is charged for. *)
Definition action_post (a : FrameAction) (s : Machine) : Prop :=
  runner_ok (m_runner s) /\ stack (m_runner s) <> [] /\
  match a with
  | Select child => child_ok child /\ emitted (m_run s) = e0 + weight p child
  | Finish => emitted (m_run s) = e0
  | AdvanceLoop => emitted (m_run s) = e0 /\
      exists f rest id count ch, stack (m_runner s) = f :: rest /\
        ns !! f_node f = Some (CLoop id count ch)
  end.

(** The machine before the top frame [f], of node [c], acts. *)
Record acting (s : Machine) (f : Frame) (rest : list Frame) (c : CompiledNode) : Prop := {
  act_stack : stack (m_runner s) = f :: rest;
  act_settled : settled e0 s;
  act_node : ns !! f_node f = Some c;
  act_child : child_ok (f_node f);
  act_mode : mode_ok c f
}.

Lemma post_finish s f rest c : acting s f rest c -> action_post Finish s.
Proof. intros [Hst [H1 H2] _ _ _]. split_and!; [done|by rewrite Hst|done]. Qed.

(** The top frame replaced, after [child] was charged for. *)
Lemma post_select s f rest c f' child m b rb :
  acting s f rest c -> f_node f' = f_node f -> mode_ok c f' -> child_ok child ->
  emitted rb = e0 + weight p child ->
  action_post (Select child)
    (mkMachine (with_stack (f' :: rest) (with_random m (m_runner s))) b rb).
Proof.
  intros [Hst [Hok _] Hnode Hch _] Hn Hm Hc He. split_and!; [|done|done|done].
  eapply runner_ok_top; [by apply runner_ok_random|done|]. split; rewrite Hn; eauto.
Qed.

Lemma kid_ok i kids k child :
  child_ok i -> compiled_children p i = Ok kids -> kids !! k = Some child -> child_ok child.
Proof.
  intros Hi Hkids Hk. destruct (child_ok_kids _ _ Hi Hkids) as [H _].
  by apply (Forall_lookup_1 _ _ _ _ H Hk).
Qed.

Lemma kids_fit i kids k child :
  child_ok i -> compiled_children p i = Ok kids -> kids !! k = Some child ->
  Z.of_nat k < usize_max.
Proof.
  intros Hi Hkids Hk%lookup_lt_Some. destruct (child_ok_kids _ _ Hi Hkids) as [_ H]. lia.
Qed.

Lemma same_random r : with_random (random_states r) r = r.
Proof. by destruct r. Qed.

Lemma wp_select_child s f rest c kids child :
  acting s f rest c -> compiled_children p (f_node f) = Ok kids ->
  kids !! f_next_child f = Some child -> mode_ok c (bump f) ->
  wp e0 (select_child p child) action_post s.
Proof.
  intros Ha Hkids Hk Hb. pose proof Ha as [Hst Hs _ Hch _].
  unfold select_child. apply wp_bind, wp_reserve_child; [done|].
  intros rb He. eapply wp_bind, wp_advance; [done|by eapply kids_fit|]. apply wp_ret. simpl.
  rewrite <- (same_random (m_runner s)). eapply post_select; [done|done|done|by eapply kid_ok|done].
Qed.

Lemma wp_ordered s f rest c kids :
  acting s f rest c -> compiled_children p (f_node f) = Ok kids ->
  (forall child, kids !! f_next_child f = Some child -> mode_ok c (bump f)) ->
  wp e0 (action_ordered p f) action_post s.
Proof.
  intros Ha Hkids Hb. unfold action_ordered, compiled_child_at. rewrite Hkids. apply wp_bind. simpl.
  destruct (kids !! f_next_child f) eqn:E; [|by eapply wp_ret, post_finish].
  eapply wp_select_child; eauto.
Qed.

Lemma wp_loop s f rest id count kids :
  acting s f rest (CLoop id count kids) -> compiled_children p (f_node f) = Ok kids ->
  wp e0 (action_loop p f count) action_post s.
Proof.
  intros Ha Hkids. assert (forall child, kids !! f_next_child f = Some child ->
    wp e0 (select_child p child) action_post s) as Hsel.
  { intros child Hk. eapply wp_select_child; [done|done|done|]. destruct Ha as [_ _ _ _ [Hm _]].
    apply lookup_lt_Some in Hk. split; [done|simpl; lia]. }
  unfold action_loop, compiled_child_at. rewrite Hkids. cbn [res_bind].
  assert (action_post AdvanceLoop s) as Hadv.
  { destruct Ha as [Hst [H1 H2] Hn _ _]. split_and!; [done|by rewrite Hst|done|eauto 10]. }
  pose proof (post_finish _ _ _ _ Ha) as Hfin. destruct Ha as [_ Hs _ _ _].
  destruct count as [z|].
  - destruct z as [|z|z]; [by apply wp_ret|..];
      (apply wp_bind; simpl; destruct (kids !! f_next_child f) eqn:E; [by apply Hsel|];
       apply wp_bind, wp_lift_or;
       [unfold iteration_overflow; by destruct (node_identity p (f_node f))|done|];
       intros n _; apply wp_ret; by destruct (_ <=? n)).
  - apply wp_bind. simpl. destruct (kids !! f_next_child f) eqn:E; [by apply Hsel|].
    by apply wp_ret.
Qed.

Lemma wp_interleave s f rest id kids :
  acting s f rest (CInterleave id kids) -> compiled_children p (f_node f) = Ok kids ->
  wp e0 (action_interleave p f id) action_post s.
Proof.
  intros Ha Hkids. pose proof Ha as [Hst Hs Hnode Hch [o Ho]]. pose proof (post_finish _ _ _ _ Ha).
  unfold action_interleave. rewrite Hkids, Ho. eapply wp_bind, wp_lift_Ok; [done|].
  destruct kids as [|k0 kids'] eqn:Ek; [by apply wp_ret|]. rewrite <- Ek in *.
  destruct o; [by apply wp_ret|]. apply wp_bind, wp_get.
  set (cursor := default 0%nat _).
  destruct (lookup_lt_is_Some_2 kids (cursor `mod` length kids)) as [child Hc].
  { apply Nat.mod_upper_bound. by rewrite Ek. }
  rewrite Hc. eapply wp_bind, wp_lift_Ok; [done|]. apply wp_bind, wp_lift_or; [done|done|].
  intros next _. apply wp_bind, wp_reserve_child; [done|]. intros rb He.
  apply wp_bind, wp_update. eapply wp_bind, wp_update_top; [done|]. apply wp_ret. simpl.
  destruct Hs as [Hok _]. split_and!; simpl; [|done|by eapply kid_ok|done].
  apply (runner_ok_top (with_interleave _ (m_runner s)) f); [by destruct Hok; split|done|].
  split; [done|]. eexists. split; [done|]. simpl. eauto.
Qed.

Lemma wp_random s f rest id seed kids :
  acting s f rest (CRandom id seed kids) -> compiled_children p (f_node f) = Ok kids ->
  wp e0 (action_random p f id seed) action_post s.
Proof.
  intros Ha Hkids. pose proof Ha as [Hst Hs Hnode Hch [o Ho]]. pose proof (post_finish _ _ _ _ Ha).
  unfold action_random. rewrite Hkids, Ho. eapply wp_bind, wp_lift_Ok; [done|].
  destruct kids as [|k0 kids'] eqn:Ek; [by apply wp_ret|]. rewrite <- Ek in *.
  destruct o; [by apply wp_ret|]. apply wp_bind, wp_get.
  apply wp_bind, wp_restoring, wp_random_index; [done|rewrite Ek; simpl; lia|].
  intros i m b Hi. destruct (lookup_lt_is_Some_2 kids i Hi) as [child Hc].
  rewrite Hc. eapply wp_bind, wp_lift_Ok; [done|]. destruct Hs as [Hok He0].
  apply wp_bind, wp_restoring, wp_reserve_child; [split; [by apply runner_ok_random|done]|].
  intros rb He. eapply wp_bind, wp_update_top; [done|]. apply wp_ret. simpl.
  eapply post_select; [done|done|simpl; eauto|by eapply kid_ok|done].
Qed.

(** A drawn order is in place of the frame's mode, and its first child is
    charged for. *)
Lemma wp_draw_order s f rest id seed kids Q :
  acting s f rest (CRandomOrder id seed kids) -> kids <> [] ->
  Z.of_nat (length kids) <= usize_max ->
  (forall child order m b rb, child :: order ≡ₚ kids -> emitted rb = e0 + weight p child ->
     Q () (mkMachine (with_stack (in_mode (RandomOrder (Some (child :: order))) f :: rest)
                        (with_random m (m_runner s))) b rb)) ->
  wp e0 (draw_order p id seed kids) Q s.
Proof.
  intros [Hst Hs Hnode Hch _] Hne Hl HQ. pose proof Hs as [Hok He0].
  unfold draw_order. apply wp_bind, wp_get. apply wp_bind, wp_shuffle; [done| |done|].
  { destruct kids; simpl; [done|lia]. }
  intros order m b Ho. destruct order as [|child order].
  { by apply Permutation_nil_l in Ho. }
  apply wp_bind, wp_restoring, wp_reserve_child; [split; [by apply runner_ok_random|done]|].
  intros rb He. eapply wp_update_top; [done|]. by apply HQ.
Qed.

Lemma wp_random_order s f rest id seed kids :
  acting s f rest (CRandomOrder id seed kids) -> compiled_children p (f_node f) = Ok kids ->
  wp e0 (action_random_order p f id seed) action_post s.
Proof.
  intros Ha Hkids. pose proof Ha as [Hst Hs Hnode Hch Hm]. pose proof (post_finish _ _ _ _ Ha) as Hfin.
  destruct (child_ok_kids _ _ Hch Hkids) as [Hall Hl].
  unfold action_random_order. rewrite Hkids. eapply wp_bind, wp_lift_Ok; [done|].
  destruct kids as [|k0 kids'] eqn:Ek; [by apply wp_ret|]. rewrite <- Ek in *.
  destruct Hm as [[-> Hz]|(order & Ho & Hp & Hn)].
  - eapply wp_bind, wp_draw_order; [done|by rewrite Ek|done|].
    intros child order m b rb Hp He. eapply wp_bind, wp_top; [done|]. simpl. rewrite Hz. simpl.
    apply wp_bind, wp_ret. eapply wp_bind, wp_advance; [done|simpl; rewrite Hz; done|].
    apply wp_ret. simpl. eapply (post_select s f); [done|done| | |done].
    + right. eexists. split_and!; [done|done|]. simpl. lia.
    + rewrite <- Hp in Hall. by apply Forall_cons in Hall as [? _].
  - rewrite Ho. eapply wp_bind, wp_ret, wp_bind, wp_top; [done|]. rewrite Ho.
    destruct (order !! f_next_child f) as [child|] eqn:Eo; [|by apply wp_ret].
    apply wp_bind, wp_reserve_child; [done|]. intros rb He. apply lookup_lt_Some in Eo as Hlt.
    eapply wp_bind, wp_advance; [done|rewrite <- (Permutation_length Hp) in Hl; lia|].
    apply wp_ret. simpl. rewrite <- (same_random (m_runner s)).
    eapply post_select; [done|done| | |done].
    + right. exists order. split_and!; [done|done|]. simpl. lia.
    + rewrite <- Hp in Hall. by apply (Forall_lookup_1 _ _ _ _ Hall Eo).
Qed.

Lemma wp_frame_action s f rest :
  stack (m_runner s) = f :: rest -> settled e0 s -> wp e0 (frame_action p) action_post s.
Proof.
  intros Hst Hs. pose proof Hs as [[Hall _ _] _]. rewrite Hst in Hall.
  apply Forall_cons in Hall as [[Hch (c & Hc & Hm)] _].
  assert (acting s f rest c) as Ha by done. pose proof (post_finish _ _ _ _ Ha) as Hfin.
  unfold frame_action, frame_arm, node_at. eapply wp_bind, wp_top; [done|]. rewrite Hc.
  assert (forall kids, compiled_children p (f_node f) = Ok kids <->
    match c with
    | CSimple _ l | CLoop _ _ l | COnceOnly _ l | CInterleave _ l | CRandom _ _ l
    | CRandomOrder _ _ l => kids = l
    | _ => False
    end) as Hk.
  { intros kids. unfold compiled_children, node_at. rewrite Hc. destruct c; naive_solver. }
  destruct c as [id|id ch|id count ch|id|id ch|id ch|id seed ch|id seed ch]; try done.
  - eapply wp_ordered; [done|by apply Hk|]. intros child Hl%lookup_lt_Some. destruct Hm.
    split; [done|simpl; lia].
  - eapply wp_loop; [done|by apply Hk].
  - unfold action_once_only. destruct Hm as [[Ho|Ho] Hn]; rewrite Ho; [|by apply wp_ret].
    eapply wp_ordered; [done|by apply Hk|]. intros child Hl%lookup_lt_Some.
    split; [by left|simpl; lia].
  - eapply wp_interleave; [done|by apply Hk].
  - eapply wp_random; [done|by apply Hk].
  - eapply wp_random_order; [done|by apply Hk].
Qed.

(** ** Rounds *)

(** What a round leaves: one sample is charged if one is selected. *)
Definition sample_count (o : option ControllerStep) : Z :=
  match o with Some (StepSample _) => 1 | _ => 0 end.

Definition round_post (o : option ControllerStep) (s : Machine) : Prop :=
  runner_ok (m_runner s) /\ emitted (m_run s) = e0 + sample_count o /\
  (o = None -> finished (m_runner s) = false).

Lemma wp_push node Q s :
  settled e0 s -> child_ok node -> weight p node = 0 ->
  root_started (m_runner s) = true -> finished (m_runner s) = false ->
  (forall r b, runner_ok r -> finished r = false -> Q () (mkMachine r b (m_run s))) ->
  wp e0 (push_frame p node 0) Q s.
Proof.
  intros [Hok He] Hch Hw Hst Hfin HQ. destruct (child_ok_node _ Hch) as [c Hc].
  assert (forall r mode, stack r = stack (m_runner s) -> root_started r = true ->
    finished r = false -> mode_ok c (mkFrame node 0 0 mode) ->
    runner_ok (with_stack (mkFrame node 0 0 mode :: stack r) r)) as Hpush.
  { intros r mode Hr1 Hr2 Hr3 Hm. split; simpl; [|congruence|congruence].
    constructor; [split; simpl; eauto|]. rewrite Hr1. apply Hok. }
  unfold push_frame, node_at, weight, node_at in *. apply wp_bind, wp_get. rewrite Hc in *.
  destruct c; [done|..];
    (try (apply wp_bind, wp_ret, wp_update, HQ; [|done]; apply Hpush; simpl; auto; split; auto; lia));
    try (apply wp_bind, wp_ret, wp_update, HQ; [|done]; apply Hpush; simpl; eauto).
  destruct (decide _); apply wp_bind; [apply wp_ret|apply wp_bind, wp_set, wp_ret];
    (apply wp_update, HQ; [|done]); apply Hpush; simpl; auto; (split; [auto|lia]).
Qed.

Lemma wp_perform a s :
  action_post a s -> wp e0 (perform p a) round_post s.
Proof.
  intros (Hok & Hne & Ha). pose proof Hok as [Hall Hu Hf].
  assert (root_started (m_runner s) = true) as Hrs by (destruct (root_started _); naive_solver).
  assert (finished (m_runner s) = false) as Hnf by (destruct (finished _); naive_solver).
  destruct a as [child| |]; simpl.
  - destruct Ha as [Hch He]. destruct (child_ok_node _ Hch) as [c Hc].
    unfold node_at. rewrite Hc.
    unfold weight, node_at in He. rewrite Hc in He.
    destruct c; [apply wp_bind, wp_get, wp_ret; by split_and!|..];
      (apply wp_bind, wp_push; [split; [done|lia]|done|unfold weight, node_at; by rewrite Hc|done..|];
       intros r b Hr Hr'; apply wp_ret; by split_and!).
  - apply wp_bind, wp_update, wp_ret. split_and!; [|simpl; lia|done].
    split; simpl; [|by rewrite Hrs|by rewrite Hnf].
    destruct (stack (m_runner s)); [done|]. by apply Forall_cons in Hall as [_ ?].
  - destruct Ha as (He & f & rest & id & count & ch & Hst & Hn).
    unfold advance_loop. eapply wp_bind, wp_bind, wp_top; [done|].
    apply wp_bind, wp_lift_or;
      [unfold iteration_overflow; by destruct (node_identity p (f_node f))|done|].
    intros it _. eapply wp_update_top; [done|]. apply wp_ret. split_and!; [|simpl; lia|done].
    eapply runner_ok_top; [done|done|]. rewrite Hst in Hall. apply Forall_cons in Hall as [[Hch _] _].
    split; [done|]. eexists. split; [done|]. split; [done|simpl; lia].
Qed.

Context (Hroot : child_ok (prog_root p)).

Lemma wp_enter_root s :
  settled e0 s -> finished (m_runner s) = false -> stack (m_runner s) = [] ->
  wp e0 (enter_root p) round_post s.
Proof.
  intros [Hok He] Hnf Hst. destruct (child_ok_node _ Hroot) as [c Hc].
  assert (runner_ok (with_started (m_runner s))) as Hok'.
  { destruct Hok. split; simpl; [done|done|]. by rewrite Hnf. }
  unfold enter_root. unfold node_at at 1. rewrite Hc.
  destruct c;
    [apply wp_bind, wp_reserve; [done|]; intros rb Hrb; by apply wp_bind, wp_update, wp_bind, wp_get, wp_ret|..];
    (apply wp_bind, wp_update, wp_bind, wp_push; simpl;
     [done|done|unfold weight, node_at; by rewrite Hc|done|done|];
     intros r b Hr Hr'; apply wp_ret; split_and!; simpl; [done|lia|done]).
Qed.

Lemma wp_complete_root s :
  settled e0 s -> stack (m_runner s) = [] -> root_started (m_runner s) = true ->
  wp e0 (complete_root p) (fun o => round_post (Some o)) s.
Proof.
  intros [[Hall Hu Hf] He] Hst Hrs. unfold complete_root.
  apply wp_bind, wp_lift_or; [done|done|]. intros id _. apply wp_bind, wp_get.
  apply wp_bind, wp_lift_or; [done|done|]. intros n _. apply wp_bind, wp_set, wp_ret.
  split_and!; [|simpl; lia|done]. split; simpl; [done|done|by rewrite Hst].
Qed.

Lemma wp_select_round s :
  settled e0 s -> finished (m_runner s) = false -> wp e0 (select_round p) round_post s.
Proof.
  intros [Hok He] Hnf. unfold select_round. apply wp_bind, wp_get.
  destruct (terminal (m_runner s)); [apply wp_ret; split_and!; [done|simpl; lia|done]|].
  apply wp_bind, wp_spend; [done|]. intros b.
  destruct (root_started (m_runner s)) eqn:Hrs; simpl.
  - destruct (stack (m_runner s)) as [|f rest] eqn:Hst.
    + apply wp_bind. eapply wp_wand; [by apply wp_complete_root|]. intros o s' H. by apply wp_ret.
    + apply wp_bind. eapply wp_wand; [by eapply wp_frame_action|]. intros a s' H. by apply wp_perform.
  - destruct Hok as [? Hu ?] eqn:E. apply wp_enter_root; [done|done|by apply Hu].
Qed.

Lemma wp_select_loop fuel s :
  settled e0 s -> finished (m_runner s) = false ->
  wp e0 (select_loop p fuel) (fun o => round_post (Some o)) s.
Proof.
  revert s. induction fuel as [|fuel IH]; intros s Hs Hnf; [done|]. cbn [select_loop].
  apply wp_bind. eapply wp_wand; [by apply wp_select_round|].
  intros [o|] s' (H1 & H2 & H3); [by apply wp_ret|].
  apply IH; [split; [done|]|by apply H3]. simpl in H2. lia.
Qed.

Lemma wp_select_next s :
  settled e0 s -> wp e0 (select_next_with_sample_budget p) (fun o => round_post (Some o)) s.
Proof.
  intros [Hok He]. unfold select_next_with_sample_budget. apply wp_bind, wp_get.
  destruct (finished (m_runner s)) eqn:Hf; [apply wp_ret; split_and!; [done|simpl; lia|done]|].
  by apply wp_select_loop.
Qed.

(** ** Control signals *)

Lemma innermost_loop_ok st f below :
  Forall frame_ok st -> innermost_loop p st = Some (f, below) ->
  child_ok (f_node f) /\ Forall frame_ok below /\
  exists id count ch, ns !! f_node f = Some (CLoop id count ch).
Proof.
  induction 1 as [|g st [Hch _] Hst IH]; [done|]. simpl.
  destruct (is_loop_frame p g) eqn:E; [|done]. intros [= <- <-]. split_and!; [done|done|].
  unfold is_loop_frame, node_at in E. destruct (ns !! f_node g) as [[]|]; eauto; done.
Qed.

Lemma wp_on_runner m (Q : () -> Machine -> Prop) s :
  match m (m_runner s) with
  | (Ok a, r) => Q a (mkMachine r (m_step s) (m_run s))
  | (Err e, r) => harmless e = true /\ runner_ok r /\ emitted (m_run s) = e0
  | (OutOfFuel, _) => True
  end -> wp e0 (on_runner m) Q s.
Proof. unfold wp, on_runner. by destruct (m (m_runner s)) as [[]]. Qed.

Lemma next_loop_harmless id count it e :
  next_loop_iteration id count it = Err e -> harmless e = true.
Proof.
  unfold next_loop_iteration, ok_or. destruct count, (u64_checked_add it 1); simpl;
    repeat case_if; naive_solver.
Qed.

Lemma wp_next_loop s :
  settled e0 s -> wp e0 (on_runner (apply_next_loop p)) (fun _ => settled e0) s.
Proof.
  intros [Hok He]. pose proof Hok as [Hall Hu Hf]. apply wp_on_runner. set (r := m_runner s) in *.
  unfold apply_next_loop, st_bind at 1, st_get. destruct (finished r) eqn:Hnf; [done|].
  destruct (innermost_loop p (stack r)) as [[f below]|] eqn:Ei.
  - destruct (innermost_loop_ok _ _ _ Hall Ei) as (Hch & Hb & id & count & ch & Hn).
    unfold node_at, st_bind, st_lift. rewrite Hn.
    destruct (next_loop_iteration id count (f_iteration f)) as [next|e|] eqn:En; simpl;
      [|apply next_loop_harmless in En; done|done].
    destruct (usize_succ (length below)); simpl; [|done]. split; [|done].
    assert (stack r <> []) as Hne by (by intros E; rewrite E in Ei).
    split; simpl; [|intros H; by destruct (Hne (Hu H))|by rewrite Hnf].
    constructor; [|done]. destruct next; (split; [done|]; eexists; split; [done|]; split; [done|simpl; lia]).
  - unfold st_bind, st_lift, root_identity, ok_or. destruct (node_identity p (prog_root p)); simpl; [|done].
    destruct (u64_checked_add _ _); simpl; [|done]. split; [|done]. by split.
Qed.

Lemma runner_ok_terminal t r : runner_ok r -> runner_ok (with_terminal t r).
Proof. intros []. by split. Qed.

Lemma wp_step signal s :
  settled e0 s -> wp e0 (step_with_run_budget p signal) (fun o => round_post (Some o)) s.
Proof.
  intros [Hok He]. unfold step_with_run_budget. apply wp_bind, wp_get.
  assert (forall t b r, runner_ok r ->
    round_post (Some (StepStopped t)) (mkMachine (with_terminal (Some t) r) b (m_run s))) as Hstop.
  { intros. split_and!; [by apply runner_ok_terminal|simpl; lia|done]. }
  destruct (terminal (m_runner s)) as [existing|] eqn:Et.
  - destruct (is_stop signal); [by apply wp_bind, wp_set, wp_ret, Hstop|].
    apply wp_ret. split_and!; [done|simpl; lia|done].
  - destruct (is_stop signal).
    { apply wp_bind, wp_spend; [done|]. intros b. by apply wp_bind, wp_set, wp_ret, Hstop. }
    apply wp_bind. eapply (wp_wand _ _ (fun _ => settled e0)).
    + destruct (decide (signal = NextLoop)); [|by apply wp_ret].
      destruct (negb _); [|by apply wp_ret].
      apply wp_bind, wp_spend; [done|]. intros b. by apply wp_next_loop.
    + intros _ s' Hs'. apply wp_bind, wp_get. destruct (_ && _); [|by apply wp_select_next].
      apply wp_ret. destruct Hs'. split_and!; [done|simpl; lia|done].
Qed.
End actions.
End invariant.

(** ** Reachable runners *)

(** What a caller can do with the runner of one virtual user. *)
Inductive user_call (p : CompiledProgram) : ControllerRunner -> ControllerRunner -> Prop :=
| call_step r signal b rb o m :
    step_with_run_budget p signal (mkMachine r b rb) = (o, m) -> user_call p r (m_runner m)
| call_reset r : user_call p r (reset r)
| call_next_root r r' : next_root_iteration r = Ok r' -> user_call p r r'.

Lemma empty_runner_ok p t n o i m : runner_ok p (mkRunner [] false false t n o i m).
Proof. by split. Qed.

Lemma user_call_ok p r r' :
  child_ok p (prog_root p) -> user_call p r r' -> runner_ok p r -> runner_ok p r'.
Proof.
  intros Hroot [r0 signal b rb o m Hstep|r0|r0 r1 Hn] Hok.
  - pose proof (wp_step p (emitted rb) Hroot signal (mkMachine r0 b rb) (conj Hok eq_refl)) as H.
    unfold wp in H. destruct (keeps_step p signal (mkMachine r0 b rb)) as [Hfuel _].
    rewrite Hstep in H, Hfuel. destruct o; [by destruct H|by destruct H as (_ & ? & _)|done].
  - apply empty_runner_ok.
  - unfold next_root_iteration in Hn. destruct (finished r0); simplify_eq/=. apply empty_runner_ok.
Qed.

Lemma compiled_root_ok root limits p :
  limits_ok limits -> counts_ok root = true -> compile_with_limits root limits = Ok p ->
  child_ok p (prog_root p).
Proof.
  intros Hl Hc Hp. exists root. split; [by eapply compile_represents|by eapply compiled_good].
Qed.

Lemma reachable_ok root limits p r :
  limits_ok limits -> counts_ok root = true -> compile_with_limits root limits = Ok p ->
  rtc (user_call p) runner_new r -> child_ok p (prog_root p) /\ runner_ok p r.
Proof.
  intros Hl Hc Hp Hr. pose proof (compiled_root_ok _ _ _ Hl Hc Hp) as Hroot. split; [done|].
  eapply (rtc_invariant (user_call p) (runner_ok p)); [|apply empty_runner_ok|done].
  intros r1 r2 Hok Hcall. by eapply user_call_ok.
Qed.

(** What one step of a runner that satisfies the invariant may do. *)
Definition step_safe (rb : RunBudget) (res : result ControllerError ControllerStep * Machine) : Prop :=
  match res with
  | (Ok o, m) => emitted (m_run m) = emitted rb + sample_count (Some o)
  | (Err e, m) => harmless e = true /\ emitted (m_run m) = emitted rb
  | (OutOfFuel, _) => False
  end.

Lemma runner_ok_step p signal r b rb :
  child_ok p (prog_root p) -> runner_ok p r ->
  step_safe rb (step_with_run_budget p signal (mkMachine r b rb)) /\
  runner_ok p (m_runner (snd (step_with_run_budget p signal (mkMachine r b rb)))).
Proof.
  intros Hroot Hok.
  pose proof (wp_step p (emitted rb) Hroot signal (mkMachine r b rb) (conj Hok eq_refl)) as H.
  destruct (keeps_step p signal (mkMachine r b rb)) as [Hfuel _]. unfold wp in H.
  destruct (step_with_run_budget p signal _) as [[o|e|] m]; simpl in *; [|by destruct H as (?&?&?)|done].
  by destruct H as (?&?&?).
Qed.

(** C20 A runner of a compiled plan, however it was used before (any steps
    with any signals and budgets, failed ones included, resets, new root
    iterations), is never in an inconsistent state: a step returns, never
    reports [InvalidState], charges the sample budget one sample exactly when
    it selects one, and charges nothing when it fails. *)
Theorem reachable_step_safe root limits p r signal b rb :
  limits_ok limits -> counts_ok root = true -> compile_with_limits root limits = Ok p ->
  rtc (user_call p) runner_new r ->
  step_safe rb (step_with_run_budget p signal (mkMachine r b rb)).
Proof.
  intros Hl Hc Hp Hr. destruct (reachable_ok _ _ _ _ Hl Hc Hp Hr) as [Hroot Hok].
  by apply runner_ok_step.
Qed.

Lemma run_loop_samples p fuel acc signal r rb tr s' :
  child_ok p (prog_root p) -> runner_ok p r ->
  run_loop p fuel acc signal (mkRunState r rb) = (Ok tr, s') ->
  Z.of_nat (length (samples tr)) = Z.of_nat (length acc) + (emitted (rs_budget s') - emitted rb) /\
  (forall x, trace_end tr <> StepSample x).
Proof.
  intros Hroot. revert acc signal r rb. induction fuel as [|fuel IH]; intros acc signal r rb Hok; [done|].
  cbn [run_loop]. intros (o & [r1 rb1] & Hr & Hs)%st_bind_Ok.
  assert (runner_ok p r1 /\ emitted rb1 = emitted rb + sample_count (Some o)) as [Hok1 He].
  { unfold run_round in Hr. destruct (next_step_budget _) as [b| |]; try done.
    destruct (runner_ok_step p signal r b rb Hroot Hok) as [H1 H2]. simpl in Hr.
    destruct (step_with_run_budget p signal _) as [o' m]. unfold record_step, ok_or in Hr.
    destruct (u64_checked_add _ _); simplify_eq/=. done. }
  destruct o as [x| |]; simpl in He.
  - destruct (IH _ _ _ _ Hok1 Hs) as [H1 H2]. rewrite length_app in H1. simpl in H1. split; [lia|done].
  - injection Hs as <- <-. simpl. split; [lia|done].
  - injection Hs as <- <-. simpl. split; [lia|done].
Qed.

(** The trace of a run has exactly as many samples as the run charged to
    its budget, so never more than the budget has left, and ends in
    completion or a stop. *)
Theorem run_samples_accounted root limits p r signal rb tr s' :
  limits_ok limits -> counts_ok root = true -> compile_with_limits root limits = Ok p ->
  rtc (user_call p) runner_new r -> 0 <= transitions rb -> emitted rb <= max_samples rb ->
  run_to_completion_with_signal p signal (mkRunState r rb) = (Ok tr, s') ->
  Z.of_nat (length (samples tr)) = emitted (rs_budget s') - emitted rb /\
  Z.of_nat (length (samples tr)) <= max_samples rb - emitted rb /\
  (trace_end tr = StepComplete \/ exists sig, trace_end tr = StepStopped sig).
Proof.
  intros Hl Hc Hp Hr H0 He Hrun. destruct (reachable_ok _ _ _ _ Hl Hc Hp Hr) as [Hroot Hok].
  destruct (run_loop_returns p _ [] signal (mkRunState r rb) H0 (Nat.lt_succ_diag_r _))
    as [_ [_ _ Hle _ _]].
  unfold run_to_completion_with_signal in Hrun. cbv zeta in Hrun. rewrite Hrun in Hle. simpl in Hle.
  destruct (run_loop_samples _ _ _ _ _ _ _ _ Hroot Hok Hrun) as [H1 H2]. simpl in H1.
  split_and!; [lia|lia|]. destruct (trace_end tr); [naive_solver|by left|eauto].
Qed.

(** A runner in the middle of the example plan, and its run to the end. *)
Definition example_budget : RunBudget := run_budget_new 10 50.

Definition example_runner : ControllerRunner :=
  Eval vm_compute in
    m_runner (snd (step_with_run_budget example_program Continue
                     (mkMachine runner_new (step_budget_new 50) example_budget))).

Lemma example_runner_reachable : rtc (user_call example_program) runner_new example_runner.
Proof.
  eapply rtc_l; [|apply rtc_refl].
  apply (call_step example_program runner_new Continue (step_budget_new 50) example_budget
    (fst (step_with_run_budget example_program Continue
            (mkMachine runner_new (step_budget_new 50) example_budget)))
    (snd (step_with_run_budget example_program Continue
            (mkMachine runner_new (step_budget_new 50) example_budget)))).
  vm_compute. reflexivity.
Qed.

Lemma reachable_step_safe_witness :
  step_safe example_budget
    (step_with_run_budget example_program NextLoop
       (mkMachine example_runner (step_budget_new 1) example_budget)).
Proof.
  apply (reachable_step_safe example_plan limits_default);
    [exact limits_default_ok|reflexivity|exact example_compiles|exact example_runner_reachable].
Defined.

Definition example_rest :=
  Eval vm_compute in
    run_to_completion_with_signal example_program Continue
      (mkRunState example_runner example_budget).

Lemma run_samples_accounted_witness :
  Z.of_nat (length (drop 1 example_samples)) = 2 - 0 /\ 2 <= 10.
Proof.
  destruct (run_samples_accounted example_plan limits_default example_program example_runner
    Continue example_budget (mkTrace (drop 1 example_samples) StepComplete) (snd example_rest))
    as (H1 & H2 & _).
  - exact limits_default_ok.
  - reflexivity.
  - exact example_compiles.
  - exact example_runner_reachable.
  - vm_compute. discriminate.
  - vm_compute. discriminate.
  - vm_compute. reflexivity.
  - split; [exact H1|]. etrans; [exact H2|]. vm_compute. discriminate.
Defined.
