(* ===== verification/RunnerControl.v ===== *)
(** * Control signals and interruption

    How the runner reacts to what comes from outside: stop requests, which
    are final, [NextLoop], which works like a [continue] statement of the
    innermost loop, and budgets that run out in the middle of a traversal,
    after which the traversal can be resumed. *)

From S2P Require Import Prelude Control Random Plan Runner RunnerFacts Traversal.
From S2P Require Import RunnerSafety RunnerInvariant.

(** ** Stop requests *)

Section stop.
Context (p : CompiledProgram).

(** A stopped runner: every step reports the strongest request so far. *)
Lemma stopped_step r t signal b rb :
  terminal r = Some t ->
  let t' := if is_stop signal then combine t signal else t in
  step_with_run_budget p signal (mkMachine r b rb) =
    (Ok (StepStopped t'), mkMachine (with_terminal (Some t') r) b rb).
Proof.
  intros Ht t'. unfold step_with_run_budget, st_bind at 1, get_runner. simpl. rewrite Ht.
  subst t'. destruct (is_stop signal); [done|]. unfold st_ret. repeat f_equal. by destruct r; simplify_eq/=.
Qed.

(** The steps a caller takes after a stop, with the outcomes reported. *)
Inductive steps : ControllerRunner -> list (result ControllerError ControllerStep) -> ControllerRunner -> Prop :=
| steps_nil r : steps r [] r
| steps_cons r signal b rb o m os r' :
    step_with_run_budget p signal (mkMachine r b rb) = (o, m) ->
    steps (m_runner m) os r' -> steps r (o :: os) r'.

Lemma stopped_steps r t os r' :
  terminal r = Some t -> steps r os r' ->
  (exists t', terminal r' = Some t' /\ severity_le t t') /\
  Forall (fun o => exists t', o = Ok (StepStopped t') /\ severity_le t t') os.
Proof.
  intros Ht Hs. revert t Ht. induction Hs as [r|r signal b rb o m os r' Hm Hs IH]; intros t Ht.
  - split; [|done]. exists t. split; [done|]. unfold severity_le. lia.
  - rewrite (stopped_step r t) in Hm by done. injection Hm as <- <-. simpl in *.
    set (t1 := if is_stop signal then combine t signal else t) in *.
    assert (severity_le t t1) as Hle.
    { subst t1. destruct (is_stop signal); [apply combine_ge_l|unfold severity_le; lia]. }
    destruct (IH t1 eq_refl) as [(t' & H1 & H2) H3]. split.
    + exists t'. split; [done|]. unfold severity_le in *. lia.
    + constructor; [eauto|]. eapply Forall_impl; [done|]. intros o (t2 & -> & H4).
      exists t2. split; [done|]. unfold severity_le in *. lia.
Qed.

(** A stop request is honoured at once and for good: it costs one
    transition, no sample, and whatever steps follow, with whatever signals
    and budgets, all report a stop at least as severe; none selects a
    sample. *)
Theorem stop_is_final r signal b rb os r' :
  is_stop signal = true -> terminal r = None -> step_ok b -> sb_used b < sb_limit b ->
  exists m, step_with_run_budget p signal (mkMachine r b rb) = (Ok (StepStopped signal), m) /\
    m_run m = rb /\ sb_used (m_step m) = sb_used b + 1 /\
    (steps (m_runner m) os r' ->
     Forall (fun o => exists t, o = Ok (StepStopped t) /\ severity_le signal t) os).
Proof.
  intros Hs Ht Hb Hlt. exists (mkMachine (with_terminal (Some signal) r) (charge 1 b) rb).
  split_and!; [|done|done|].
  - unfold step_with_run_budget, st_bind at 1, get_runner. simpl. rewrite Ht, Hs.
    rewrite (st_bind_Ok_l _ _ _ () (mkMachine r (charge 1 b) rb)); [done|].
    unfold spend, step_spend. simpl. rewrite (proj2 (Z.leb_gt _ _)) by lia.
    unfold step_ok, usize_max in Hb.
    by rewrite (proj2 (u64_checked_add_Some _ _ (sb_used b + 1))) by lia.
  - intros Hsteps. apply (stopped_steps (with_terminal (Some signal) r) signal os r'); done.
Qed.
End stop.

Lemma stop_is_final_witness :
  exists m, step_with_run_budget example_program StopThread
      (mkMachine runner_new (step_budget_new 1) (run_budget_new 1 1)) =
      (Ok (StepStopped StopThread), m) /\
    m_run m = run_budget_new 1 1 /\ sb_used (m_step m) = 0 + 1.
Proof.
  destruct (stop_is_final example_program runner_new StopThread (step_budget_new 1)
    (run_budget_new 1 1) [] runner_new) as (m & H1 & H2 & H3 & _).
  - reflexivity.
  - reflexivity.
  - vm_compute. intuition discriminate.
  - reflexivity.
  - exists m. split; [exact H1|]. split; [exact H2|exact H3].
Defined.

(** ** [NextLoop] *)

Section next_loop.
Context (p : CompiledProgram) (n : Z).

Lemma innermost_app nested frame below :
  Forall (fun f => is_loop_frame p f = false) nested -> is_loop_frame p frame = true ->
  innermost_loop p (nested ++ frame :: below) = Some (frame, below).
Proof. intros Hn Hf. induction Hn as [|g l Hg Hl IH]; simpl; [by rewrite Hf|by rewrite Hg]. Qed.

(** [NextLoop] is the [continue] of the innermost loop: it drops the
    frames nested in the loop, keeps the enclosing ones, the once-only marks,
    cursors and streams, and the traversal goes on exactly as the remaining
    iterations of the loop prescribe, from the next one on (none, if this one
    was the last). *)
Theorem next_loop_continues nested i k it id total ch below σ out σ' :
  represents (prog_nodes p) i (NLoop id (Finite total) ch) ->
  good (NLoop id (Finite total) ch) ->
  Forall (fun f => is_loop_frame p f = false) nested ->
  0 <= it < total -> Z.of_nat (length below) < usize_max ->
  visits_loop n (path_of p below) id ch (it + 1) total σ out σ' ->
  exists r, apply_next_loop p (live (nested ++ mkFrame i k it Ordered :: below) σ n) = (Ok (), r) /\
    leads p r out (live below σ' n).
Proof.
  intros Hr Hg Hn Hit Hb Hv. destruct (represents_node p i _ Hr) as (c & Hc & _).
  destruct (represents_composite p _ _ _ _ Hr eq_refl ltac:(done) Hc) as (idxs & Hbld & Hf & Hk & Hlen).
  simpl in Hbld. injection Hbld as <-.
  assert (total <= u64_max) as Ht.
  { destruct Hg as [Hg _]. simpl in Hg. apply andb_true_iff in Hg as [Hg _]. simpl_bool. lia. }
  assert (is_loop_frame p (mkFrame i k it Ordered) = true) as Hl.
  { unfold is_loop_frame, node_at. simpl. by rewrite Hc. }
  assert (u64_checked_add it 1 = Some (it + 1)) as Hadd by (apply u64_checked_add_Some; lia).
  unfold apply_next_loop, st_bind, st_get, st_lift. simpl. rewrite innermost_app by done.
  unfold node_at, f_node. rewrite Hc. unfold next_loop_iteration. simpl. rewrite Hadd.
  rewrite usize_succ_small by done.
  destruct (total <=? it + 1) eqn:E; simpl_bool; simpl; eexists; (split; [done|]).
  - inv Hv; [|lia]. apply finish_leads. unfold frame_arm, node_at. simpl. rewrite Hc.
    pose proof (loop_end p (mkFrame i (length idxs) it Ordered) total idxs) as Hend. simpl in Hend.
    rewrite (proj2 (Z.leb_le _ _) E) in Hend. apply Hend; [lia|done| |lia].
    by apply lookup_ge_None_2.
  - eapply (proj2 (proj2 (visits_body p n))); [done|done|done|done| | |lia|done].
    + by apply (good_children (NLoop id (Finite total) ch)).
    + rewrite Hlen. by apply (good_length (NLoop id (Finite total) ch)).
Qed.
End next_loop.

(** The first iteration of the loop of the example plan, cut short inside the
    once-only controller. *)
Lemma next_loop_continues_witness :
  exists r, apply_next_loop example_program
      (live ([mkFrame 1 1 0 Ordered] ++ mkFrame 3 1 0 Ordered :: [mkFrame 4 1 0 Ordered])
         (mark_once 3 fresh) 0) = (Ok (), r) /\
    leads example_program r (drop 2 example_samples)
      (live [mkFrame 4 1 0 Ordered] (mark_once 3 fresh) 0).
Proof.
  apply (next_loop_continues example_program 0 [mkFrame 1 1 0 Ordered] 3 1 0 2 2
    [NOnceOnly 3 [NSample 4]; NSample 5] [mkFrame 4 1 0 Ordered] (mark_once 3 fresh)
    (drop 2 example_samples) (mark_once 3 fresh)).
  - eapply rep_composite; [reflexivity|reflexivity|reflexivity|].
    constructor; [|constructor; [by constructor|constructor]].
    eapply rep_composite; [reflexivity|reflexivity|reflexivity|].
    constructor; [by constructor|constructor].
  - split; [reflexivity|vm_compute; discriminate].
  - constructor; [reflexivity|constructor].
  - lia.
  - vm_compute. reflexivity.
  - eapply (vl_step 0 _ _ _ 1 2 _ (drop 2 example_samples) (mark_once 3 fresh) []);
      [lia| |by constructor].
    eapply (va_cons 0 _ _ _ _ [] (mark_once 3 fresh) [_]).
    + apply v_once_again. unfold mark_once. simpl. set_solver.
    + eapply (va_cons 0 _ _ _ _ [_] _ []); constructor.
Defined.

(** A failing [NextLoop] changes nothing: the runner is as before. *)
Theorem next_loop_atomic p r e r' : apply_next_loop p r = (Err e, r') -> r' = r.
Proof.
  unfold apply_next_loop, st_bind, st_get, st_lift. destruct (finished r); [done|].
  destruct (innermost_loop p (stack r)) as [[f below]|].
  - destruct (node_at p (f_node f)) as [[|id ch|id count ch| | | | |]|];
      try (by intros [= _ <-]).
    destruct (next_loop_iteration id count (f_iteration f)); try (by intros [= _ <-]).
    by destruct (usize_succ (length below)); intros [= _ <-].
  - destruct (root_identity p); try (by intros [= _ <-]).
    by destruct (u64_checked_add (completed_iterations r) 1); intros [= _ <-].
Qed.

Lemma next_loop_atomic_witness :
  let r := mkRunner [mkFrame 4 1 0 Ordered] true false None u64_max ∅ ∅ ∅ in
  snd (apply_next_loop example_program r) = r.
Proof.
  apply (next_loop_atomic example_program
    (mkRunner [mkFrame 4 1 0 Ordered] true false None u64_max ∅ ∅ ∅) (IterationOverflow 1)).
  vm_compute. reflexivity.
Defined.

(** ** A [NextLoop] that takes effect twice *)

Section double_next_loop.

(** A loop of five iterations over one sampler, its first sample taken, and
    a user whose [NextLoop] was requested once. *)
Definition loop_plan : ControllerNode := NLoop 1 (Finite 5) [NSample 2].

Definition after_first_sample : result ControllerError ControllerRunner :=
  let? p := compile loop_plan in
  let '(_, (r, _)) := step_with_signal p Continue runner_new (step_budget_new 16) in Ok r.

Definition one_request : CancelStore := request cancellation_new 0 NextLoop.

(** The iterations of the samples a caller gets from steps with these
    budgets. *)
Fixpoint sampled (p : CompiledProgram) (c : CancelStore) (r : ControllerRunner) (limits : list Z) :
    list (option Z) :=
  match limits with
  | [] => []
  | l :: limits =>
      let '(res, (r', _, c')) := step_with_cancellation p c 0 r (step_budget_new l) in
      match res with
      | Ok (StepSample s) => head (cur_iteration <$> path s) :: sampled p c' r' limits
      | _ => None :: sampled p c' r' limits
      end
  end.

Definition observe (limits : list Z) : result ControllerError (list (option Z)) :=
  let? p := compile loop_plan in
  let? r := after_first_sample in
  Ok (sampled p one_request r limits).

End double_next_loop.
