(* ===== verification/Token.v ===== *)
(** * Cancellation tokens and their wake list

    Models [CancellationToken] of [crates/runtime/src/scheduler.rs]: the stop
    state shared by a run, the flags of each user, and the bounded registry of
    executor wakers, each with the users that subscribed it.  A handle is the
    index of its view in the store; [v_alive] says whether a handle of the view
    is left, which is what [Weak::upgrade] asks. *)

From S2P Require Import Prelude Control.

Definition MAX_SCHEDULED_WAKEUPS : Z := 65536.

Record LocalView := mkView {
  v_thread_stop : bool;
  v_next_loop : bool;
  v_wake_ready : bool;
  v_generation : Z;
  v_alive : bool
}.

(** A waker is its identity: [WakerIdentity]. *)
Record RegisteredWaker := mkReg {
  r_waker : Z;
  r_owners : list nat
}.

Record TokenStore := mkTokens {
  t_stop : Z;
  t_generation : Z;
  t_wakers : list RegisteredWaker;
  t_views : list LocalView
}.

#[global] Instance RegisteredWaker_eq_dec : EqDecision RegisteredWaker.
Proof. solve_decision. Defined.

Definition fresh_view : LocalView := mkView false false false 0 true.
Definition dead_view : LocalView := mkView false false false 0 false.

(** [CancellationToken::new]: a store with one view. *)
Definition token_new : TokenStore := mkTokens (signal_u8 Continue) 0 [] [fresh_view].

(** [clone_for_user] and [child]: a fresh view on the shared state. *)
Definition token_child (s : TokenStore) : nat * TokenStore :=
  (length (t_views s), mkTokens (t_stop s) (t_generation s) (t_wakers s) (t_views s ++ [fresh_view])).

Definition view (s : TokenStore) (h : nat) : LocalView := default dead_view (t_views s !! h).

Definition with_view (h : nat) (f : LocalView -> LocalView) (s : TokenStore) : TokenStore :=
  mkTokens (t_stop s) (t_generation s) (t_wakers s) (alter f h (t_views s)).

Definition with_wakers (l : list RegisteredWaker) (s : TokenStore) : TokenStore :=
  mkTokens (t_stop s) (t_generation s) l (t_views s).

(** The last handle of a view goes away. *)
Definition token_drop (h : nat) (s : TokenStore) : TokenStore :=
  with_view h (fun v => mkView (v_thread_stop v) (v_next_loop v) (v_wake_ready v)
                          (v_generation v) false) s.

Definition owner_alive (s : TokenStore) (h : nat) : bool := v_alive (view s h).

(** [bump_generation], [bump_local_generation]: stuck at the maximum. *)
Definition bump (g : Z) : Z := default g (u64_checked_add g 1).

Definition bump_local_generation (h : nat) : TokenStore -> TokenStore :=
  with_view h (fun v => mkView (v_thread_stop v) (v_next_loop v) (v_wake_ready v)
                          (bump (v_generation v)) (v_alive v)).

Definition bump_generation (s : TokenStore) : TokenStore :=
  mkTokens (t_stop s) (bump (t_generation s)) (t_wakers s) (t_views s).

(** [Vec::swap_remove] *)
Definition swap_remove {A} (i : nat) (l : list A) : list A :=
  match last l with
  | Some x => take (pred (length l)) (<[i := x]> l)
  | None => l
  end.

(** The [while] loop of [wake_local]. *)
Fixpoint wake_local_loop (fuel : nat) (alive : nat -> bool) (h : nat) (index : nat)
    (regs : list RegisteredWaker) (wakers : list Z) : list RegisteredWaker * list Z :=
  match fuel with
  | O => (regs, wakers)
  | S fuel =>
      match regs !! index with
      | None => (regs, wakers)
      | Some r =>
          let owners := filter (fun o => alive o = true) (r_owners r) in
          let '(owners, wakers) :=
            if decide (h ∈ owners)
            then (filter (fun o => o <> h) owners, wakers ++ [r_waker r])
            else (owners, wakers) in
          match owners with
          | [] => wake_local_loop fuel alive h index (swap_remove index regs) wakers
          | _ => wake_local_loop fuel alive h (S index)
                   (<[index := mkReg (r_waker r) owners]> regs) wakers
          end
      end
  end.

(** [wake_local] returns the wakers it wakes. *)
Definition wake_local (h : nat) (s : TokenStore) : TokenStore * list Z :=
  let '(regs, woken) :=
    wake_local_loop (length (t_wakers s)) (owner_alive s) h 0 (t_wakers s) [] in
  (with_wakers regs s, woken).

Definition wake_all (s : TokenStore) : TokenStore * list Z :=
  (with_wakers [] s, map r_waker (t_wakers s)).

(** [request] *)
Definition token_request (h : nat) (signal : ControlSignal) (s : TokenStore) : TokenStore * list Z :=
  match signal with
  | NextLoop =>
      wake_local h (bump_local_generation h
        (with_view h (fun v => mkView (v_thread_stop v) true (v_wake_ready v)
                                 (v_generation v) (v_alive v)) s))
  | StopThread =>
      wake_local h (bump_local_generation h
        (with_view h (fun v => mkView true (v_next_loop v) (v_wake_ready v)
                                 (v_generation v) (v_alive v)) s))
  | Continue => (s, [])
  | StopTestGraceful | StopTestImmediate =>
      let requested := signal_u8 signal in
      if t_stop s <? requested
      then wake_all (bump_generation
             (mkTokens requested (t_generation s) (t_wakers s) (t_views s)))
      else (s, [])
  end.

(** [signal] *)
Definition token_signal (s : TokenStore) (h : nat) : ControlSignal :=
  let stop := signal_from_u8 (t_stop s) in
  if is_stop stop then stop
  else if v_thread_stop (view s h) then StopThread
  else if v_next_loop (view s h) then NextLoop
  else Continue.

(** [take_signal] *)
Definition token_take_signal (h : nat) (s : TokenStore) : ControlSignal * TokenStore :=
  let stop := signal_from_u8 (t_stop s) in
  if is_stop stop then (stop, s)
  else if v_thread_stop (view s h) then (StopThread, s)
  else
    let taken := with_view h (fun v => mkView (v_thread_stop v) false (v_wake_ready v)
                                         (v_generation v) (v_alive v)) s in
    if v_next_loop (view s h) then (NextLoop, taken) else (Continue, taken).

Definition token_is_cancelled (s : TokenStore) (h : nat) : bool := is_stop (token_signal s h).

(** [generation] *)
Definition token_generation (s : TokenStore) (h : nat) : Z :=
  Z.max (t_generation s) (v_generation (view s h)).

(** [wake], [is_wake_ready], [take_wake] *)
Definition token_wake (h : nat) (s : TokenStore) : TokenStore * list Z :=
  wake_local h (bump_local_generation h
    (with_view h (fun v => mkView (v_thread_stop v) (v_next_loop v) true
                             (v_generation v) (v_alive v)) s)).

Definition is_wake_ready (s : TokenStore) (h : nat) : bool := v_wake_ready (view s h).

Definition take_wake (h : nat) (s : TokenStore) : bool * TokenStore :=
  (v_wake_ready (view s h),
   with_view h (fun v => mkView (v_thread_stop v) (v_next_loop v) false
                           (v_generation v) (v_alive v)) s).

(** [register_waker] *)
Definition live_owners (s : TokenStore) (r : RegisteredWaker) : RegisteredWaker :=
  mkReg (r_waker r) (filter (fun o => owner_alive s o = true) (r_owners r)).

Definition purge (s : TokenStore) (regs : list RegisteredWaker) : list RegisteredWaker :=
  filter (fun r => r_owners r <> []) (map (live_owners s) regs).

Definition owner_count (regs : list RegisteredWaker) : nat :=
  sum_list_with (fun r => length (r_owners r)) regs.

Fixpoint add_owner (w : Z) (h : nat) (capacity : bool) (regs : list RegisteredWaker) :
    option (list RegisteredWaker) :=
  match regs with
  | [] => None
  | r :: rest =>
      if r_waker r =? w then
        Some ((if negb (bool_decide (h ∈ r_owners r)) && capacity
               then mkReg (r_waker r) (r_owners r ++ [h]) else r) :: rest)
      else cons r <$> add_owner w h capacity rest
  end.

Definition register_waker (h : nat) (w : Z) (s : TokenStore) : TokenStore :=
  let regs := purge s (t_wakers s) in
  let capacity := Z.of_nat (owner_count regs) <? MAX_SCHEDULED_WAKEUPS in
  with_wakers
    (match add_owner w h capacity regs with
     | Some regs' => regs'
     | None =>
         if capacity && (Z.of_nat (length regs) <? MAX_SCHEDULED_WAKEUPS)
         then regs ++ [mkReg w [h]] else regs
     end) s.

(** ** The wake loop *)

Lemma swap_remove_app {A} (pre rest : list A) r :
  exists rest', swap_remove (length pre) (pre ++ r :: rest) = pre ++ rest' /\ rest' ≡ₚ rest.
Proof.
  unfold swap_remove. destruct rest as [|y rest _] using rev_ind.
  - rewrite last_snoc, length_app. simpl. exists []. split; [|done].
    replace (pred (length pre + 1)) with (length pre) by lia.
    by rewrite take_insert_ge, take_app_length, app_nil_r by lia.
  - exists (y :: rest). split; [|by rewrite Permutation_app_comm].
    rewrite app_comm_cons, (assoc_L (++)), last_snoc.
    rewrite !length_app. simpl. replace (pred (length pre + S (length rest) + 1))
      with (length (pre ++ y :: rest)) by (rewrite length_app; simpl; lia).
    rewrite <- (assoc_L (++)), insert_app_r_alt by lia. rewrite Nat.sub_diag. simpl.
    by rewrite app_comm_cons, (assoc_L (++)), take_app_length.
Qed.

Section wake_spec.
Context (alive : nat -> bool) (h : nat).

(** What is left of a registration, and the waker it wakes. *)
Definition keep (r : RegisteredWaker) : option RegisteredWaker :=
  match filter (fun o => alive o = true /\ o <> h) (r_owners r) with
  | [] => None
  | owners => Some (mkReg (r_waker r) owners)
  end.

Definition hit (r : RegisteredWaker) : option Z :=
  if decide (h ∈ r_owners r /\ alive h = true) then Some (r_waker r) else None.

Lemma filter_owners (l : list nat) :
  filter (fun o => o <> h) (filter (fun o => alive o = true) l) =
  filter (fun o => alive o = true /\ o <> h) l.
Proof. rewrite list_filter_filter. apply list_filter_iff. naive_solver. Qed.

Lemma filter_absent (l : list nat) :
  h ∉ filter (fun o => alive o = true) l ->
  filter (fun o => alive o = true) l = filter (fun o => alive o = true /\ o <> h) l.
Proof.
  intros Hh. apply list_filter_ext_in. intros o Ho. split; [|naive_solver].
  intros Ha. split; [done|]. intros ->. apply Hh. by apply list_elem_of_filter.
Qed.

Lemma wake_local_loop_spec fuel pre rest wakers :
  (length rest <= fuel)%nat ->
  let '(regs', woken) := wake_local_loop fuel alive h (length pre) (pre ++ rest) wakers in
  regs' ≡ₚ pre ++ omap keep rest /\ woken ≡ₚ wakers ++ omap hit rest.
Proof.
  revert pre rest wakers. induction fuel as [|fuel IH]; intros pre rest wakers Hf.
  { destruct rest; [|simpl in Hf; lia]. simpl. by rewrite !app_nil_r. }
  cbn [wake_local_loop]. destruct rest as [|r rest].
  { rewrite app_nil_r, lookup_ge_None_2 by lia. simpl. by rewrite !app_nil_r. }
  rewrite lookup_app_r, Nat.sub_diag by lia. simpl in Hf. cbn [lookup list_lookup].
  assert (forall owners w', owners = filter (fun o => alive o = true /\ o <> h) (r_owners r) ->
    w' = wakers ++ match hit r with Some w => [w] | None => [] end ->
    let '(regs', woken) :=
      match owners with
      | [] => wake_local_loop fuel alive h (length pre) (swap_remove (length pre) (pre ++ r :: rest)) w'
      | _ => wake_local_loop fuel alive h (S (length pre))
               (<[length pre := mkReg (r_waker r) owners]> (pre ++ r :: rest)) w'
      end in
    regs' ≡ₚ pre ++ omap keep (r :: rest) /\ woken ≡ₚ wakers ++ omap hit (r :: rest)) as Hcase.
  { intros owners w' Ho Hw. cbn [omap list_omap]. unfold keep at 1. rewrite <- Ho.
    assert (forall l : list Z, l ≡ₚ w' ++ omap hit rest ->
      l ≡ₚ wakers ++ match hit r with Some w => w :: omap hit rest | None => omap hit rest end) as Hperm.
    { intros l ->. rewrite Hw, <- (assoc_L (++)). by destruct (hit r). }
    destruct owners as [|o owners'].
    - destruct (swap_remove_app pre rest r) as (rest' & -> & Hp).
      specialize (IH pre rest' w'). rewrite (Permutation_length Hp) in IH. specialize (IH ltac:(lia)).
      destruct (wake_local_loop _ _ _ _ _ _) as [regs' woken]. destruct IH as [-> Hwk].
      split; [by rewrite Hp|]. apply Hperm. by rewrite <- Hp.
    - rewrite insert_app_r_alt, Nat.sub_diag by lia. cbn [insert list_insert].
      rewrite cons_middle, (assoc_L (++)).
      replace (S (length pre)) with (length (pre ++ [mkReg (r_waker r) (o :: owners')]))
        by (rewrite length_app; simpl; lia).
      specialize (IH (pre ++ [mkReg (r_waker r) (o :: owners')]) rest w' ltac:(lia)).
      destruct (wake_local_loop _ _ _ _ _ _) as [regs' woken]. destruct IH as [-> Hwk].
      split; [by rewrite <- (assoc_L (++))|]. by apply Hperm. }
  destruct (decide (h ∈ filter (fun o => alive o = true) (r_owners r))) as [Hin|Hout].
  - apply Hcase; [apply filter_owners|]. unfold hit. rewrite decide_True; [done|].
    apply list_elem_of_filter in Hin. naive_solver.
  - apply Hcase; [by apply filter_absent|]. unfold hit. rewrite decide_False; [by rewrite app_nil_r|].
    intros [H1 H2]. apply Hout. by apply list_elem_of_filter.
Qed.
End wake_spec.

Lemma wake_local_spec h s :
  exists regs woken, wake_local h s = (with_wakers regs s, woken) /\
    regs ≡ₚ omap (keep (owner_alive s) h) (t_wakers s) /\
    woken ≡ₚ omap (hit (owner_alive s) h) (t_wakers s).
Proof.
  pose proof (wake_local_loop_spec (owner_alive s) h (length (t_wakers s)) [] (t_wakers s) []
    ltac:(lia)) as H. unfold wake_local. simpl in H.
  destruct (wake_local_loop _ _ _ _ _ _) as [regs woken]. eauto 10.
Qed.

(** ** Operations of a run on its tokens *)

Inductive token_op :=
| TRequest (h : nat) (signal : ControlSignal)
| TTakeSignal (h : nat)
| TWake (h : nat)
| TTakeWake (h : nat)
| TRegister (h : nat) (w : Z)
| TChild
| TDrop (h : nat).

Definition apply_token_op (s : TokenStore) (o : token_op) : TokenStore * list Z :=
  match o with
  | TRequest h signal => token_request h signal s
  | TTakeSignal h => (snd (token_take_signal h s), [])
  | TWake h => token_wake h s
  | TTakeWake h => (snd (take_wake h s), [])
  | TRegister h w => (register_waker h w s, [])
  | TChild => (snd (token_child s), [])
  | TDrop h => (token_drop h s, [])
  end.

Definition run_token_ops (s : TokenStore) (ops : list token_op) : TokenStore :=
  foldl (fun s o => fst (apply_token_op s o)) s ops.

(** ** The registry stays bounded and without duplicates *)

Record registry_ok (regs : list RegisteredWaker) : Prop := {
  reg_wakers : NoDup (map r_waker regs);
  reg_owners : Forall (fun r => NoDup (r_owners r) /\ r_owners r <> []) regs;
  reg_count : Z.of_nat (owner_count regs) <= MAX_SCHEDULED_WAKEUPS
}.

Lemma registry_nil : registry_ok [].
Proof. split; [constructor|constructor|done]. Qed.

Lemma owner_count_perm regs regs' : regs ≡ₚ regs' -> owner_count regs = owner_count regs'.
Proof. unfold owner_count. by intros ->. Qed.

Lemma registry_perm regs regs' : regs ≡ₚ regs' -> registry_ok regs -> registry_ok regs'.
Proof.
  intros Hp [H1 H2 H3]. split.
  - by rewrite <- Hp.
  - by rewrite <- Hp.
  - by rewrite <- (owner_count_perm _ _ Hp).
Qed.

(** Registrations with owners filtered away, empty ones dropped. *)
Definition shrink (P : nat -> Prop) `{forall o, Decision (P o)} (r : RegisteredWaker) :
    option RegisteredWaker :=
  match filter P (r_owners r) with
  | [] => None
  | owners => Some (mkReg (r_waker r) owners)
  end.

Lemma shrink_Some (P : nat -> Prop) `{forall o, Decision (P o)} r r' :
  shrink P r = Some r' <->
  r' = mkReg (r_waker r) (filter P (r_owners r)) /\ filter P (r_owners r) <> [].
Proof. unfold shrink. destruct (filter P (r_owners r)); naive_solver. Qed.

Lemma registry_shrink (P : nat -> Prop) `{forall o, Decision (P o)} regs :
  registry_ok regs -> registry_ok (omap (shrink P) regs).
Proof.
  intros [H1 H2 H3]. split.
  - assert (map r_waker (omap (shrink P) regs) `sublist_of` map r_waker regs) as Hs.
    { clear. induction regs as [|r regs IH]; simpl; [done|].
      destruct (shrink P r) as [r'|] eqn:E; [|by constructor].
      apply shrink_Some in E as [-> _]. simpl. by constructor. }
    by eapply sublist_NoDup.
  - apply Forall_forall. intros r' (r & Hr & (-> & Hne)%shrink_Some)%list_elem_of_omap.
    rewrite Forall_forall in H2. destruct (H2 r Hr). split; [|done]. by apply NoDup_filter.
  - etrans; [|exact H3]. apply Nat2Z.inj_le. unfold owner_count. clear.
    induction regs as [|r regs IH]; simpl; [lia|].
    pose proof (length_filter P (r_owners r)). unfold omap in *.
    destruct (shrink P r) as [r'|] eqn:E; simpl; [|lia].
    apply shrink_Some in E as [-> _]. simpl. lia.
Qed.

Lemma keep_shrink alive h r : keep alive h r = shrink (fun o => alive o = true /\ o <> h) r.
Proof. done. Qed.

Lemma registry_wake h s :
  registry_ok (t_wakers s) -> registry_ok (t_wakers (fst (wake_local h s))).
Proof.
  intros Hok. destruct (wake_local_spec h s) as (regs & woken & -> & Hp & _). simpl.
  eapply registry_perm; [by symmetry|]. by apply registry_shrink.
Qed.

Lemma purge_shrink s regs : purge s regs = omap (shrink (fun o => owner_alive s o = true)) regs.
Proof.
  unfold purge. induction regs as [|r regs IH]; [done|].
  cbn [map omap list_omap]. rewrite filter_cons, IH.
  generalize (omap (shrink (fun o => owner_alive s o = true)) regs) as l. intros l.
  unfold shrink, live_owners. simpl.
  case_decide as Hd; destruct (filter _ (r_owners r)) as [|o k]; naive_solver.
Qed.

Lemma add_owner_Some w h c regs regs' :
  add_owner w h c regs = Some regs' ->
  exists pre r post, regs = pre ++ r :: post /\ r_waker r = w /\
    regs' = pre ++ (if negb (bool_decide (h ∈ r_owners r)) && c
                    then mkReg (r_waker r) (r_owners r ++ [h]) else r) :: post.
Proof.
  revert regs'. induction regs as [|r regs IH]; intros regs'; simpl; [done|].
  destruct (r_waker r =? w) eqn:E; simpl_bool.
  - intros [= <-]. by exists [], r, regs.
  - intros (regs1 & H1 & ->)%fmap_Some. destruct (IH _ H1) as (pre & r' & post & -> & Hw & ->).
    by exists (r :: pre), r', post.
Qed.

Lemma add_owner_None w h c regs : add_owner w h c regs = None -> w ∉ map r_waker regs.
Proof.
  induction regs as [|r regs IH]; simpl; [intros _; apply not_elem_of_nil|].
  destruct (r_waker r =? w) eqn:E; simpl_bool; [done|].
  intros H%fmap_None%IH. by rewrite not_elem_of_cons.
Qed.

Lemma owner_count_app l1 l2 : owner_count (l1 ++ l2) = (owner_count l1 + owner_count l2)%nat.
Proof. unfold owner_count. induction l1; simpl; lia. Qed.

Lemma registry_register h w s :
  registry_ok (t_wakers s) -> registry_ok (t_wakers (register_waker h w s)).
Proof.
  intros Hok. unfold register_waker. simpl. rewrite purge_shrink.
  apply (registry_shrink (fun o => owner_alive s o = true)) in Hok.
  set (regs := omap _ _) in *. destruct (_ <? _) eqn:Ec; simpl_bool.
  - destruct (add_owner w h true regs) as [regs'|] eqn:Ea.
    + apply add_owner_Some in Ea as (pre & r & post & Hr & Hw & ->). rewrite Hr in *.
      destruct (bool_decide (h ∈ r_owners r)) eqn:Eh; simpl; [done|]. apply bool_decide_eq_false in Eh.
      destruct Hok as [H1 H2 H3]. split.
      * by rewrite map_app in *.
      * apply Forall_app in H2 as [Hpre [[Hr1 Hr2] Hpost]%Forall_cons].
        apply Forall_app. split; [done|]. constructor; [|done]. simpl. split; [|by destruct (r_owners r)].
        apply NoDup_app. split_and!; [done| |apply NoDup_singleton]. set_solver.
      * rewrite owner_count_app in *. unfold owner_count in *. simpl in *. rewrite length_app. simpl. lia.
    + apply add_owner_None in Ea. simpl. destruct (_ <? _); [|done]. destruct Hok as [H1 H2 H3]. split.
      * rewrite map_app. simpl. apply NoDup_app. split_and!; [done| |apply NoDup_singleton]. set_solver.
      * apply Forall_app. split; [done|]. constructor; [|done]. simpl. split; [apply NoDup_singleton|done].
      * rewrite owner_count_app. unfold owner_count in *. simpl. lia.
  - destruct (add_owner w h false regs) as [regs'|] eqn:Ea; [|done].
    apply add_owner_Some in Ea as (pre & r & post & Hr & Hw & ->).
    rewrite andb_false_r. by rewrite <- Hr.
Qed.

Lemma registry_op s o : registry_ok (t_wakers s) -> registry_ok (t_wakers (fst (apply_token_op s o))).
Proof.
  intros Hok. destruct o as [h sig|h|h|h|h w| |h]; simpl; try done.
  - destruct sig; simpl; try done; try (by apply registry_wake);
      (destruct (_ <? _); [apply registry_nil|done]).
  - unfold token_take_signal. by repeat case_if.
  - by apply registry_wake.
  - by apply registry_register.
Qed.

Lemma registry_length regs : registry_ok regs -> Z.of_nat (length regs) <= MAX_SCHEDULED_WAKEUPS.
Proof.
  intros [_ H2 H3]. etrans; [|exact H3]. apply Nat2Z.inj_le. unfold owner_count. clear H3.
  induction H2 as [|r regs [_ Hne] _ IH]; simpl; [lia|].
  destruct (r_owners r); [done|]. simpl. lia.
Qed.

(** Whatever a run does with its tokens, the wake list is bounded, holds
    each waker once and each owner of a waker once, and no entry without
    owners. *)
Theorem registry_bounded ops :
  let regs := t_wakers (run_token_ops token_new ops) in
  registry_ok regs /\ Z.of_nat (length regs) <= MAX_SCHEDULED_WAKEUPS.
Proof.
  intros regs. assert (registry_ok regs) as Hok; [|split; [done|by apply registry_length]].
  subst regs. unfold run_token_ops. generalize registry_nil.
  change [] with (t_wakers token_new) at 1. generalize token_new as s.
  induction ops as [|o ops IH]; intros s Hs; simpl; [done|]. by apply IH, registry_op.
Qed.

(** Waking one user's subscriptions, a loop that removes emptied entries by
    swapping in the last one while it iterates, visits every entry once: it
    wakes exactly the wakers the user is subscribed to, and leaves exactly the
    registrations that have another live owner, without the user and without
    dead owners. *)
Theorem wake_local_exact h s :
  exists regs woken, wake_local h s = (with_wakers regs s, woken) /\
    regs ≡ₚ omap (keep (owner_alive s) h) (t_wakers s) /\
    woken ≡ₚ omap (hit (owner_alive s) h) (t_wakers s).
Proof. apply wake_local_spec. Qed.

(** ** No wake-up is lost *)

Definition subscribed (s : TokenStore) (h : nat) (w : Z) : Prop :=
  exists r, r ∈ t_wakers s /\ r_waker r = w /\ h ∈ r_owners r.

(** The flags other than [v_alive] do not matter to the wake list. *)
Definition same_alive (s s' : TokenStore) : Prop :=
  t_wakers s' = t_wakers s /\ forall h, owner_alive s' h = owner_alive s h.

Lemma with_view_alive h f s :
  (forall v, v_alive (f v) = v_alive v) -> same_alive s (with_view h f s).
Proof.
  intros Hf. split; [done|]. intros k. unfold owner_alive, view. simpl.
  destruct (decide (h = k)) as [->|Hne]; [|by rewrite list_lookup_alter_ne].
  rewrite list_lookup_alter_eq. destruct (t_views s !! k); simpl; [apply Hf|done].
Qed.

Lemma same_alive_trans s1 s2 s3 : same_alive s1 s2 -> same_alive s2 s3 -> same_alive s1 s3.
Proof. intros [H1 H2] [H3 H4]. split; [by rewrite H3|]. intros h. by rewrite H4. Qed.

Lemma wake_subscribed k s s0 h w :
  same_alive s0 s -> subscribed s0 h w -> owner_alive s h = true ->
  (k = h /\ w ∈ snd (wake_local k s)) \/ (k <> h /\ subscribed (fst (wake_local k s)) h w).
Proof.
  intros [Hw _] (r & Hr & <- & Hh) Ha. rewrite <- Hw in Hr.
  destruct (wake_local_spec k s) as (regs & woken & -> & Hp & Hq). simpl.
  destruct (decide (k = h)) as [->|Hne]; [left|right]; split; try done.
  - rewrite Hq. apply list_elem_of_omap. exists r. split; [done|]. unfold hit. by rewrite decide_True.
  - assert (h ∈ filter (fun o => owner_alive s o = true /\ o <> k) (r_owners r)) as Hin.
    { apply list_elem_of_filter. naive_solver. }
    exists (mkReg (r_waker r) (filter (fun o => owner_alive s o = true /\ o <> k) (r_owners r))).
    split_and!; [|done|done]. simpl. rewrite Hp. apply list_elem_of_omap. exists r. split; [done|].
    rewrite keep_shrink. apply shrink_Some. split; [done|]. intros E. rewrite E in Hin.
    by apply elem_of_nil in Hin.
Qed.

Lemma add_owner_subscribed w h c regs regs' r :
  add_owner w h c regs = Some regs' -> r ∈ regs ->
  exists r', r' ∈ regs' /\ r_waker r' = r_waker r /\ (forall o, o ∈ r_owners r -> o ∈ r_owners r').
Proof.
  intros (pre & r1 & post & -> & Hw & ->)%add_owner_Some Hr.
  apply elem_of_app in Hr as [Hr|[->|Hr]%elem_of_cons].
  - exists r. split_and!; [apply elem_of_app; by left|done|done].
  - eexists. split; [apply elem_of_app; right; left|].
    destruct (_ && _); simpl; split; try done. intros o Ho. apply elem_of_app. by left.
  - exists r. split_and!; [apply elem_of_app; right; by right|done|done].
Qed.

Lemma purge_subscribed s r h :
  r ∈ t_wakers s -> h ∈ r_owners r -> owner_alive s h = true ->
  exists r', r' ∈ purge s (t_wakers s) /\ r_waker r' = r_waker r /\ h ∈ r_owners r'.
Proof.
  intros Hr Hh Ha. rewrite purge_shrink.
  assert (h ∈ filter (fun o => owner_alive s o = true) (r_owners r)) as Hin
    by (by apply list_elem_of_filter).
  exists (mkReg (r_waker r) (filter (fun o => owner_alive s o = true) (r_owners r))).
  split_and!; [|done|done]. apply list_elem_of_omap. exists r. split; [done|]. apply shrink_Some.
  split; [done|]. intros E. rewrite E in Hin. by apply elem_of_nil in Hin.
Qed.

Lemma register_keeps k v s h w :
  subscribed s h w -> owner_alive s h = true -> subscribed (register_waker k v s) h w.
Proof.
  intros (r & Hr & <- & Hh) Ha. destruct (purge_subscribed s r h Hr Hh Ha) as (r1 & H1 & <- & H2).
  unfold register_waker, subscribed. simpl. set (c := _ <? _).
  destruct (add_owner v k c (purge s (t_wakers s))) as [regs'|] eqn:E.
  - destruct (add_owner_subscribed _ _ _ _ _ _ E H1) as (r2 & H3 & H4 & H5). eauto.
  - exists r1. split_and!; [|done|done]. destruct (_ && _); [|done]. apply elem_of_app. by left.
Qed.

(** Registration with room in the list subscribes. *)
Lemma register_subscribes h w s :
  owner_alive s h = true -> Z.of_nat (owner_count (purge s (t_wakers s))) < MAX_SCHEDULED_WAKEUPS ->
  registry_ok (t_wakers s) -> subscribed (register_waker h w s) h w.
Proof.
  intros Ha Hc Hok. unfold register_waker, subscribed. simpl.
  rewrite (proj2 (Z.ltb_lt _ _)) by done.
  destruct (add_owner w h true (purge s (t_wakers s))) as [regs'|] eqn:E.
  - apply add_owner_Some in E as (pre & r & post & _ & Hw & ->).
    eexists. split; [apply elem_of_app; right; left|].
    destruct (bool_decide (h ∈ r_owners r)) eqn:Eh; simpl.
    + by apply bool_decide_eq_true in Eh.
    + split; [done|]. apply elem_of_app. right. left.
  - rewrite purge_shrink in *.
    pose proof (registry_shrink (fun o => owner_alive s o = true) _ Hok) as [_ Hne _].
    rewrite (proj2 (Z.ltb_lt _ _)).
    + eexists. split; [apply elem_of_app; right; left|]. split; [done|left].
    + eapply Z.le_lt_trans; [|exact Hc]. apply Nat2Z.inj_le. clear -Hne. unfold owner_count.
      induction Hne as [|r regs [_ Hr] _ IH]; simpl; [lia|]. destruct (r_owners r); [done|]. simpl. lia.
Qed.

(** One operation either keeps a live user's subscription or wakes it. *)
Lemma alive_back s o h :
  (h < length (t_views s))%nat -> owner_alive (fst (apply_token_op s o)) h = true ->
  owner_alive s h = true.
Proof.
  assert (forall k f s0, (forall v, v_alive (f v) = v_alive v) ->
    owner_alive (with_view k f s0) h = owner_alive s0 h) as Hview.
  { intros k f s0 Hf. by apply (with_view_alive k f s0 Hf). }
  assert (forall k s0, owner_alive (fst (wake_local k s0)) h = owner_alive s0 h) as Hwake.
  { intros k s0. by destruct (wake_local_spec k s0) as (regs & woken & -> & _). }
  intros Hh. destruct o as [k sig|k|k|k|k w| |k]; simpl.
  - destruct sig; simpl; try done;
      [unfold bump_local_generation; by rewrite Hwake, !Hview..| |]; by destruct (_ <? _).
  - unfold token_take_signal. repeat case_if; simpl; try done; by rewrite Hview.
  - unfold token_wake, bump_local_generation. by rewrite Hwake, !Hview.
  - by rewrite Hview.
  - done.
  - unfold owner_alive, view. simpl. by rewrite lookup_app_l.
  - unfold token_drop, owner_alive, view. simpl. destruct (decide (k = h)) as [->|Hne].
    + rewrite list_lookup_alter_eq. by destruct (t_views s !! h).
    + by rewrite list_lookup_alter_ne.
Qed.

Lemma views_length s o : (length (t_views s) <= length (t_views (fst (apply_token_op s o))))%nat.
Proof.
  assert (forall k s0, length (t_views (fst (wake_local k s0))) = length (t_views s0)) as Hwake.
  { intros k s0. by destruct (wake_local_spec k s0) as (regs & woken & -> & _). }
  destruct o as [k sig|k|k|k|k w| |k]; simpl; rewrite ?length_alter, ?length_app; try lia.
  - destruct sig; simpl; try (by destruct (_ <? _)); rewrite ?Hwake; simpl; rewrite ?length_alter; lia.
  - unfold token_take_signal. repeat case_if; simpl; rewrite ?length_alter; lia.
  - unfold token_wake. rewrite Hwake. simpl. rewrite !length_alter. lia.
Qed.

Lemma flags_same_alive k f g s :
  (forall v, v_alive (f v) = v_alive v) -> (forall v, v_alive (g v) = v_alive v) ->
  same_alive s (with_view k g (with_view k f s)).
Proof. intros Hf Hg. eapply same_alive_trans; by apply with_view_alive. Qed.

Lemma op_subscribed s o h w :
  subscribed s h w -> owner_alive s h = true ->
  subscribed (fst (apply_token_op s o)) h w \/ w ∈ snd (apply_token_op s o).
Proof.
  intros Hs Ha.
  assert (forall k s1, same_alive s s1 ->
    subscribed (fst (wake_local k s1)) h w \/ w ∈ snd (wake_local k s1)) as Hwake.
  { intros k s1 Hsame. pose proof Hsame as [_ Hal].
    destruct (wake_subscribed k s1 s h w Hsame Hs) as [[_ ?]|[_ ?]]; [by rewrite Hal|by right|by left]. }
  destruct o as [k sig|k|k|k|k v| |k]; simpl; try (by left).
  - destruct sig; simpl; try (by left); try (by apply Hwake, flags_same_alive);
      (destruct (_ <? _); simpl; [|by left]; right; destruct Hs as (r & Hr & <- & _);
       by apply list_elem_of_fmap_2).
  - left. unfold token_take_signal. by repeat case_if.
  - by apply Hwake, flags_same_alive.
  - left. by apply register_keeps.
Qed.

(** Operations with the log of the wakers they wake. *)
Definition log_step (st : TokenStore * list Z) (o : token_op) : TokenStore * list Z :=
  let '(s', woken) := apply_token_op (fst st) o in (s', snd st ++ woken).

Definition run_log (s : TokenStore) (ops : list token_op) : TokenStore * list Z :=
  foldl log_step (s, []) ops.

Lemma log_step_store st o : fst (log_step st o) = fst (apply_token_op (fst st) o).
Proof. unfold log_step. by destruct (apply_token_op _ _). Qed.

Lemma run_alive_back ops st h :
  (h < length (t_views (fst st)))%nat -> owner_alive (fst (foldl log_step st ops)) h = true ->
  owner_alive (fst st) h = true.
Proof.
  revert st. induction ops as [|o ops IH]; intros st Hh; simpl; [done|]. intros Ha.
  apply (alive_back _ o); [done|]. rewrite <- log_step_store. apply IH; [|done].
  rewrite log_step_store. pose proof (views_length (fst st) o). lia.
Qed.

Lemma run_log_subscribed ops st h w :
  (h < length (t_views (fst st)))%nat -> owner_alive (fst (foldl log_step st ops)) h = true ->
  subscribed (fst st) h w \/ w ∈ snd st ->
  subscribed (fst (foldl log_step st ops)) h w \/ w ∈ snd (foldl log_step st ops).
Proof.
  revert st. induction ops as [|o ops IH]; intros st Hh Ha Hs; simpl in *; [done|].
  assert (h < length (t_views (fst (log_step st o))))%nat as Hh'.
  { rewrite log_step_store. pose proof (views_length (fst st) o). lia. }
  apply IH; [done|done|].
  pose proof (run_alive_back ops _ h Hh' Ha) as Ha1. rewrite log_step_store in Ha1.
  pose proof (alive_back _ o h Hh Ha1) as Ha0. pose proof (op_subscribed (fst st) o h w) as Hop.
  unfold log_step. destruct (apply_token_op (fst st) o) as [s1 woken]. simpl in *.
  rewrite elem_of_app. destruct Hs as [Hs|Hs]; [destruct (Hop Hs Ha0)|]; naive_solver.
Qed.

Lemma signal_wakes s h w :
  subscribed s h w -> owner_alive s h = true ->
  w ∈ snd (token_wake h s) /\ w ∈ snd (token_request h NextLoop s) /\
  w ∈ snd (token_request h StopThread s).
Proof.
  intros Hs Ha. assert (forall s1, same_alive s s1 -> w ∈ snd (wake_local h s1)) as Hw.
  { intros s1 Hsame. pose proof Hsame as [_ Hal].
    destruct (wake_subscribed h s1 s h w Hsame Hs) as [[_ ?]|[? _]]; [by rewrite Hal|done|done]. }
  split_and!; simpl; by apply Hw, flags_same_alive.
Qed.

(** C22 No wake-up is lost.  Once a live user has registered a waker (and the
    list had room), then, whatever the run's users do meanwhile, either that
    waker has been woken, or it still will be by the user's next scheduler
    wake, [NextLoop] or thread stop, and by the next test stop that raises the
    severity. *)
Theorem no_lost_wakeup s h w ops :
  registry_ok (t_wakers s) -> owner_alive s h = true ->
  Z.of_nat (owner_count (purge s (t_wakers s))) < MAX_SCHEDULED_WAKEUPS ->
  let '(s', log) := run_log (register_waker h w s) ops in
  owner_alive s' h = true ->
  w ∈ log \/
  (w ∈ snd (token_wake h s') /\ w ∈ snd (token_request h NextLoop s') /\
   w ∈ snd (token_request h StopThread s') /\
   forall k, t_stop s' < signal_u8 StopTestImmediate ->
     w ∈ snd (token_request k StopTestImmediate s')).
Proof.
  intros Hok Ha Hc. pose proof (register_subscribes h w s Ha Hc Hok) as Hsub.
  assert (h < length (t_views s))%nat as Hh.
  { unfold owner_alive, view in Ha. destruct (t_views s !! h) eqn:E; [|done].
    by apply lookup_lt_Some in E. }
  pose proof (run_log_subscribed ops (register_waker h w s, []) h w Hh) as H.
  unfold run_log. destruct (foldl log_step _ ops) as [s' log]. intros Ha'.
  destruct (H Ha' (or_introl Hsub)) as [Hs|Hl]; [right|by left].
  destruct (signal_wakes s' h w Hs Ha') as (H1 & H2 & H3). split_and!; try done.
  intros k Hk. simpl in *. rewrite (proj2 (Z.ltb_lt _ _)) by done.
  destruct Hs as (r & Hr & <- & _). simpl. by apply list_elem_of_fmap_2.
Qed.

Lemma no_lost_wakeup_witness :
  7 ∈ snd (token_wake 0 (fst (run_log (register_waker 0 7 token_new) [TChild; TWake 1]))).
Proof.
  destruct (no_lost_wakeup token_new 0 7 [TChild; TWake 1]) as [H|(H & _)].
  - exact registry_nil.
  - reflexivity.
  - reflexivity.
  - reflexivity.
  - apply elem_of_nil in H. destruct H.
  - exact H.
Defined.
