(* ===== verification/Scheduler.v ===== *)
(** * The deterministic scheduler

    Models [crates/runtime/src/scheduler.rs] but for the tokens (file [Token]):
    instants, deadlines and schedule windows, the wake registry of
    [DeterministicScheduler] with its linear registrations, and the
    [ImmediateScheduler].  The sequential behaviour comes first; the
    interleaving of a cancellation with a poll, at the grain of the atomic
    accesses to a registration's status, is in module [Race].

    A [Duration] is its number of nanoseconds. *)

From stdpp Require Import sorting.
From S2P Require Import Prelude Control Token.

(** ** Instants and deadlines *)

(** [Deadline::after], [expired], [remaining]; a deadline is its instant. *)
Definition deadline_after (now duration : Z) : option Z := duration_checked_add now duration.

Definition expired (deadline now : Z) : bool := deadline <=? now.

Definition deadline_remaining (deadline now : Z) : Z :=
  default 0 (duration_checked_sub deadline now).

Inductive SchedulerError :=
| Capacity (limit : Z)
| DeadlineOverflow (delay : Z)
| WakeIdOverflow
| UnknownWake (id : Z)
| WakeNotPending (id : Z)
| CancellationPanicked
| TimeWentBackwards (current target : Z)
| Unsupported (message : string).

(** [SchedulerError::code] *)
Definition scheduler_error_code (e : SchedulerError) : string :=
  match e with
  | Capacity _ => "runtime.scheduler.capacity"
  | DeadlineOverflow _ => "runtime.scheduler.deadline-overflow"
  | WakeIdOverflow => "runtime.scheduler.wake-id-overflow"
  | UnknownWake _ => "runtime.scheduler.unknown-wake"
  | WakeNotPending _ => "runtime.scheduler.wake-not-pending"
  | CancellationPanicked => "runtime.scheduler.cancellation-panicked"
  | TimeWentBackwards _ _ => "runtime.scheduler.time-backwards"
  | Unsupported _ => "runtime.scheduler.unsupported"
  end.

(** ** Schedule windows *)

Record ScheduleWindow := mkWindow {
  win_start : Z;
  win_end : option Z
}.

(** [ScheduleWindow::new] *)
Definition window_new (start : Z) (duration : option Z) : result SchedulerError ScheduleWindow :=
  match duration with
  | None => Ok (mkWindow start None)
  | Some value =>
      let? e := ok_or (duration_checked_add start value) (DeadlineOverflow value) in
      Ok (mkWindow start (Some e))
  end.

(** [ScheduleWindow::expired] *)
Definition window_expired (w : ScheduleWindow) (now : Z) : bool :=
  match win_end w with Some e => e <=? now | None => false end.

(** [ScheduleWindow::delay_before_sampler]; [None] is [EARLY_STOP]. *)
Definition delay_before_sampler (w : ScheduleWindow) (now delay : Z) :
    result SchedulerError (option Z) :=
  if now <? win_start w then Err (TimeWentBackwards now (win_start w))
  else
    match win_end w with
    | None => Ok (Some delay)
    | Some e =>
        if e <=? now then Ok None
        else
          let? remaining := ok_or (duration_checked_sub e now) (TimeWentBackwards now e) in
          Ok (Some (Z.min delay remaining))
    end.

(** ** The wake registry *)

Inductive WakeStatus := WAKE_PENDING | WAKE_CANCELLED | WAKE_CONSUMED | WAKE_CANCELLING.

#[global] Instance WakeStatus_eq_dec : EqDecision WakeStatus.
Proof. solve_decision. Defined.

Record ScheduledWake := mkWake {
  wake_id : Z;
  wake_deadline : Z;
  wake_key : Z
}.

#[global] Instance ScheduledWake_eq_dec : EqDecision ScheduledWake.
Proof. solve_decision. Defined.

Record WakeRecord := mkRecord {
  rec_wake : ScheduledWake;
  rec_pending : bool;
  rec_consumed : bool;
  rec_token : nat
}.

(** A handle: its [owner] is the callback it was made with. *)
Record WakeRegistration := mkRegistration {
  reg_id : Z;
  reg_token : nat;
  reg_owner : nat
}.

(** [DeterministicScheduler].  [statuses] holds the status cells of all
    registrations handed out (each shared by a handle and its record), and
    [woken] logs the wakers woken. *)
Record Scheduler := mkSched {
  wakes : gmap Z WakeRecord;
  statuses : gmap Z WakeStatus;
  s_now : Z;
  next_id : Z;
  max_wakes : Z;
  s_owner : nat;
  s_tokens : TokenStore;
  woken : list Z
}.

(** [DeterministicScheduler::new] *)
Definition scheduler_new (owner : nat) (now max : Z) (tokens : TokenStore) : Scheduler :=
  mkSched ∅ ∅ now 1 (Z.min max MAX_SCHEDULED_WAKEUPS) owner tokens [].

Definition with_wakes (w : gmap Z WakeRecord) (s : Scheduler) : Scheduler :=
  mkSched w (statuses s) (s_now s) (next_id s) (max_wakes s) (s_owner s) (s_tokens s) (woken s).
Definition set_status (id : Z) (st : WakeStatus) (s : Scheduler) : Scheduler :=
  mkSched (wakes s) (<[id := st]> (statuses s)) (s_now s) (next_id s) (max_wakes s) (s_owner s)
    (s_tokens s) (woken s).
Definition with_now (t : Z) (s : Scheduler) : Scheduler :=
  mkSched (wakes s) (statuses s) t (next_id s) (max_wakes s) (s_owner s) (s_tokens s) (woken s).
Definition with_next_id (n : Z) (s : Scheduler) : Scheduler :=
  mkSched (wakes s) (statuses s) (s_now s) n (max_wakes s) (s_owner s) (s_tokens s) (woken s).

(** [token.wake()] on a token of the run *)
Definition wake_token (h : nat) (s : Scheduler) : Scheduler :=
  let '(tokens, w) := token_wake h (s_tokens s) in
  mkSched (wakes s) (statuses s) (s_now s) (next_id s) (max_wakes s) (s_owner s) tokens (woken s ++ w).

Definition SM (A : Type) : Type := ST Scheduler SchedulerError A.

Definition update (f : Scheduler -> Scheduler) : SM () := fun s => (Ok (), f s).

(** [SchedulerState::cancel_registration], the owner callback *)
Definition cancel_registration (id : Z) : SM bool :=
  do! s <- st_get in
  match wakes s !! id with
  | None => st_fail (UnknownWake id)
  | Some record =>
      if negb (rec_pending record) then st_ret false
      else
        update (fun s => set_status id WAKE_CANCELLED (with_wakes (delete id (wakes s)) s)) ;!
        st_ret true
  end.

(** [WakeRegistration::cancel_with_owner], the owner being alive *)
Definition cancel_with_owner (r : WakeRegistration) : SM bool :=
  fun s =>
    if decide (statuses s !! reg_id r = Some WAKE_PENDING) then
      match cancel_registration (reg_id r) (set_status (reg_id r) WAKE_CANCELLING s) with
      | (Ok cancelled, s1) =>
          let s2 := set_status (reg_id r) WAKE_CANCELLED s1 in
          (Ok cancelled, if cancelled then wake_token (reg_token r) s2 else s2)
      | (Err e, s1) => (Err e, set_status (reg_id r) WAKE_PENDING s1)
      | (OutOfFuel, s1) => (OutOfFuel, s1)
      end
    else (Ok false, s).

(** [DeterministicScheduler::cancel], [belongs_to_owner] *)
Definition cancel (r : WakeRegistration) : SM bool :=
  do! s <- st_get in
  if negb (Nat.eqb (reg_owner r) (s_owner s)) then st_fail (UnknownWake (reg_id r))
  else cancel_with_owner r.

(** [Drop for WakeRegistration]: the result is ignored. *)
Definition drop_registration (r : WakeRegistration) (s : Scheduler) : Scheduler :=
  snd (cancel_with_owner r s).

(** The order of [sort_by] in [poll_ready]: deadline, key, id. *)
Definition wake_le (a b : ScheduledWake) : Prop :=
  wake_deadline a < wake_deadline b \/
  (wake_deadline a = wake_deadline b /\
   (wake_key a < wake_key b \/ (wake_key a = wake_key b /\ wake_id a <= wake_id b))).

#[global] Instance wake_le_dec a b : Decision (wake_le a b).
Proof. unfold wake_le. apply _. Defined.

Definition record_le (a b : WakeRecord) : Prop := wake_le (rec_wake a) (rec_wake b).
#[global] Instance record_le_dec a b : Decision (record_le a b).
Proof. unfold record_le. apply _. Defined.

(** Is the record delivered by a poll? *)
Definition ready (s : Scheduler) (record : WakeRecord) : Prop :=
  rec_pending record = true /\
  statuses s !! wake_id (rec_wake record) = Some WAKE_PENDING /\
  expired (wake_deadline (rec_wake record)) (s_now s) = true.
#[global] Instance ready_dec s r : Decision (ready s r).
Proof. unfold ready. apply _. Defined.

Definition consume (record : WakeRecord) (s : Scheduler) : Scheduler :=
  let id := wake_id (rec_wake record) in
  set_status id WAKE_CONSUMED (with_wakes (delete id (wakes s)) s).

(** [DeterministicScheduler::poll_ready] *)
Definition poll_ready (s : Scheduler) : list ScheduledWake * Scheduler :=
  let found := filter (ready s) (map snd (map_to_list (wakes s))) in
  let s1 := foldr consume s found in
  let sorted := merge_sort record_le found in
  (map rec_wake sorted, foldl (fun s r => wake_token (rec_token r) s) s1 sorted).

(** [advance_to], [advance_by], [next_deadline] *)
Definition advance_to (target : Z) : SM (list ScheduledWake) :=
  fun s =>
    if target <? s_now s then (Err (TimeWentBackwards (s_now s) target), s)
    else let '(l, s') := poll_ready (with_now target s) in (Ok l, s').

Definition advance_by (duration : Z) : SM (list ScheduledWake) :=
  do! s <- st_get in
  do! target <- st_lift (ok_or (duration_checked_add (s_now s) duration)
                           (DeadlineOverflow duration)) in
  advance_to target.

Definition next_deadline (s : Scheduler) : option Z :=
  let pending := filter (fun r => rec_pending r = true) (map snd (map_to_list (wakes s))) in
  match map (fun r => wake_deadline (rec_wake r)) pending with
  | [] => None
  | d :: l => Some (foldr Z.min d l)
  end.

(** [register_wake] *)
Definition register_wake (deadline key : Z) (token : nat) : SM WakeRegistration :=
  do! s0 <- st_get in
  (if max_wakes s0 <=? Z.of_nat (size (wakes s0))
   then update (fun s => with_wakes (filter (fun '(_, r) => rec_pending r = true) (wakes s)) s)
   else st_ret ()) ;!
  do! s <- st_get in
  if max_wakes s <=? Z.of_nat (size (wakes s)) then st_fail (Capacity (max_wakes s))
  else
    let id := next_id s in
    if id =? 0 then st_fail WakeIdOverflow
    else
      update (with_next_id (default 0 (u64_checked_add id 1))) ;!
      update (fun s =>
        set_status id WAKE_PENDING
          (with_wakes (<[id := mkRecord (mkWake id deadline key) true false token]> (wakes s)) s)) ;!
      (if expired deadline (s_now s) then update (wake_token token) else st_ret ()) ;!
      st_ret (mkRegistration id token (s_owner s)).

(** [Scheduler::register_after] *)
Definition register_after (delay key : Z) (token : nat) : SM WakeRegistration :=
  do! s <- st_get in
  do! deadline <- st_lift (ok_or (deadline_after (s_now s) delay) (DeadlineOverflow delay)) in
  register_wake deadline key token.

(** [ImmediateScheduler]: it retains nothing. *)
Definition immediate_register (deadline : Z) (key : string) (h : nat) (tokens : TokenStore) :
    result SchedulerError WakeRegistration * (TokenStore * list Z) :=
  (Err (Unsupported ("immediate scheduler cannot retain wake " +:+ key)),
   if expired deadline 0 then token_wake h tokens else (tokens, [])).

Definition immediate_cancel (r : WakeRegistration) : result SchedulerError bool :=
  Err (UnknownWake (reg_id r)).

(** ** The invariant *)

Record sched_ok (s : Scheduler) : Prop := {
  so_wakes id r : wakes s !! id = Some r ->
    wake_id (rec_wake r) = id /\ rec_pending r = true /\ statuses s !! id = Some WAKE_PENDING;
  so_pending id : statuses s !! id = Some WAKE_PENDING -> is_Some (wakes s !! id);
  so_quiet id : statuses s !! id <> Some WAKE_CANCELLING;
  so_ids id : is_Some (statuses s !! id) ->
    1 <= id <= u64_max /\ (next_id s = 0 \/ id < next_id s);
  so_next : 0 <= next_id s <= u64_max;
  so_size : Z.of_nat (size (wakes s)) <= max_wakes s
}.

Lemma scheduler_new_ok owner now max tokens : 0 <= max -> sched_ok (scheduler_new owner now max tokens).
Proof.
  intros Hm. split; simpl.
  - intros id r. by rewrite lookup_empty.
  - intros id. by rewrite lookup_empty.
  - intros id. by rewrite lookup_empty.
  - intros id [? H]. by rewrite lookup_empty in H.
  - unfold u64_max. lia.
  - rewrite map_size_empty. unfold MAX_SCHEDULED_WAKEUPS. lia.
Qed.

(** Waking tokens does not touch the registry. *)
Record same_registry (s s' : Scheduler) : Prop := {
  sr_wakes : wakes s' = wakes s;
  sr_statuses : statuses s' = statuses s;
  sr_now : s_now s' = s_now s;
  sr_next : next_id s' = next_id s;
  sr_max : max_wakes s' = max_wakes s;
  sr_owner : s_owner s' = s_owner s
}.

#[global] Instance same_registry_preorder : PreOrder same_registry.
Proof. split; [by intros s|]. intros s1 s2 s3 [] []. split; congruence. Qed.

Lemma wake_token_registry h s : same_registry s (wake_token h s).
Proof. unfold wake_token. by destruct (token_wake h (s_tokens s)). Qed.

Lemma wake_tokens_registry (l : list WakeRecord) s :
  same_registry s (foldl (fun s r => wake_token (rec_token r) s) s l).
Proof.
  revert s. induction l as [|r l IH]; intros s; simpl; [done|].
  etrans; [apply wake_token_registry|apply IH].
Qed.

Lemma same_registry_ok s s' : same_registry s s' -> sched_ok s -> sched_ok s'.
Proof.
  intros [H1 H2 H3 H4 H5 H6] [O1 O2 O3 O4 O5 O6].
  split; rewrite ?H1, ?H2, ?H4, ?H5; done.
Qed.

(** ** Polling *)

Abbreviation record_id r := (wake_id (rec_wake r)).

Lemma consume_fields l s :
  let s' := foldr consume s l in
  s_now s' = s_now s /\ next_id s' = next_id s /\ max_wakes s' = max_wakes s /\ s_owner s' = s_owner s.
Proof. induction l; simpl; [done|]. naive_solver. Qed.

Lemma consume_wakes l s id :
  wakes (foldr consume s l) !! id = (if decide (id ∈ map (fun r => record_id r) l) then None else wakes s !! id).
Proof.
  induction l as [|r l IH]; [done|]. cbn [foldr map].
  destruct (decide (record_id r = id)) as [<-|Hne].
  - rewrite decide_True by left. simpl. by rewrite lookup_delete_eq.
  - simpl. rewrite lookup_delete_ne, IH by done. apply decide_ext. rewrite elem_of_cons. naive_solver.
Qed.

Lemma consume_statuses l s id :
  statuses (foldr consume s l) !! id =
  (if decide (id ∈ map (fun r => record_id r) l) then Some WAKE_CONSUMED else statuses s !! id).
Proof.
  induction l as [|r l IH]; [done|]. cbn [foldr map].
  destruct (decide (record_id r = id)) as [<-|Hne].
  - rewrite decide_True by left. simpl. by rewrite lookup_insert_eq.
  - simpl. rewrite lookup_insert_ne, IH by done. apply decide_ext. rewrite elem_of_cons. naive_solver.
Qed.

Definition found (s : Scheduler) : list WakeRecord :=
  filter (ready s) (map snd (map_to_list (wakes s))).

Lemma elem_of_found s r :
  sched_ok s ->
  r ∈ found s <-> wakes s !! record_id r = Some r /\ wake_deadline (rec_wake r) <= s_now s.
Proof.
  intros Hok. unfold found. rewrite list_elem_of_filter. split.
  - intros [(_ & _ & He) Hr]. apply list_elem_of_fmap in Hr as ([id r'] & -> & Hr).
    apply elem_of_map_to_list in Hr. simpl in *. destruct (so_wakes s Hok id r' Hr) as (-> & _ & _).
    split; [done|]. unfold expired in He. simpl_bool. lia.
  - intros [Hr Hd]. destruct (so_wakes s Hok _ _ Hr) as (_ & Hp & Hst). split.
    + split_and!; [done|done|]. unfold expired. by apply Z.leb_le.
    + apply list_elem_of_fmap. exists (record_id r, r). split; [done|]. by apply elem_of_map_to_list.
Qed.

Lemma found_ids_iff s id :
  sched_ok s ->
  id ∈ map (fun r => record_id r) (found s) <->
  exists r, wakes s !! id = Some r /\ wake_deadline (rec_wake r) <= s_now s.
Proof.
  intros Hok. rewrite list_elem_of_fmap. split.
  - intros (r & -> & Hr%elem_of_found); [|done]. eauto.
  - intros (r & Hr & Hd). destruct (so_wakes s Hok _ _ Hr) as (Hid & _ & _). exists r. split; [done|].
    apply elem_of_found; [done|]. by rewrite Hid.
Qed.

Lemma found_ids_NoDup s : sched_ok s -> NoDup (map (fun r => record_id r) (found s)).
Proof.
  intros Hok. unfold found.
  assert (map (fun r => record_id r) (filter (ready s) (map snd (map_to_list (wakes s))))
    `sublist_of` map fst (map_to_list (wakes s))) as Hs; 
    [|pose proof (NoDup_fst_map_to_list (wakes s)); by eapply sublist_NoDup].
  assert (forall l, (forall id r, (id, r) ∈ l -> record_id r = id) ->
    map (fun r => record_id r) (filter (ready s) (map snd l)) `sublist_of` map fst l) as Hl.
  { induction l as [|[id r] l IH]; intros Hl; simpl; [done|]. rewrite filter_cons.
    assert (record_id r = id) as <- by (apply Hl; left).
    assert (map (fun r => record_id r) (filter (ready s) (map snd l)) `sublist_of` map fst l) as IH'.
    { apply IH. intros id' r' Hr. apply Hl. by right. }
    case_decide; simpl; by constructor. }
  apply Hl. intros id r Hr%elem_of_map_to_list. by destruct (so_wakes s Hok id r Hr).
Qed.

Lemma wake_le_total : Total record_le.
Proof. intros a b. unfold record_le, wake_le. lia. Qed.

Lemma wake_le_trans : Transitive record_le.
Proof. intros a b c. unfold record_le, wake_le. lia. Qed.

Lemma size_filter_le (P : Z * WakeRecord -> Prop) `{forall x, Decision (P x)} (m : gmap Z WakeRecord) :
  (size (filter P m) <= size m)%nat.
Proof. apply map_subseteq_size, map_filter_subseteq. Qed.

(** What stays pending after a poll. *)
Definition later (s : Scheduler) : gmap Z WakeRecord :=
  filter (fun '(_, r) => s_now s < wake_deadline (rec_wake r)) (wakes s).

Lemma consume_found_wakes s : sched_ok s -> wakes (foldr consume s (found s)) = later s.
Proof.
  intros Hok. apply map_eq. intros id. rewrite consume_wakes. unfold later.
  case_decide as Hd; rewrite found_ids_iff in Hd by done.
  - destruct Hd as (r & Hr & Hle). symmetry. apply map_lookup_filter_None. right.
    intros r' Hr'. simplify_eq. lia.
  - destruct (wakes s !! id) as [r|] eqn:Hr; symmetry.
    + apply map_lookup_filter_Some. split; [done|].
      destruct (decide (s_now s < wake_deadline (rec_wake r))); [done|].
      exfalso. apply Hd. exists r. split; [done|lia].
    + apply map_lookup_filter_None. by left.
Qed.

Lemma consume_found_ok s : sched_ok s -> sched_ok (foldr consume s (found s)).
Proof.
  intros Hok. pose proof Hok as [O1 O2 O3 O4 O5 O6].
  destruct (consume_fields (found s) s) as (Hn & Hi & Hm & Ho). split; rewrite ?Hi, ?Hm.
  - intros id r. rewrite consume_wakes, consume_statuses. case_decide; [done|]. apply O1.
  - intros id. rewrite consume_wakes, consume_statuses. case_decide; [done|]. apply O2.
  - intros id. rewrite consume_statuses. case_decide; [done|]. apply O3.
  - intros id. rewrite consume_statuses. case_decide as Hd; [|apply O4]. intros _.
    apply found_ids_iff in Hd as (r & Hr & _); [|done]. apply O4. apply O1 in Hr as (_ & _ & ->). eauto.
  - done.
  - rewrite consume_found_wakes by done. pose proof (size_filter_le
      (fun '(_, r) => s_now s < wake_deadline (rec_wake r)) (wakes s)). unfold later. lia.
Qed.

Lemma poll_ready_spec s :
  sched_ok s ->
  let '(l, s') := poll_ready s in
  l = map rec_wake (merge_sort record_le (found s)) /\
  same_registry (foldr consume s (found s)) s' /\ sched_ok s' /\ wakes s' = later s /\ s_now s' = s_now s.
Proof.
  intros Hok. unfold poll_ready. fold (found s).
  pose proof (wake_tokens_registry (merge_sort record_le (found s)) (foldr consume s (found s))) as Hr.
  split_and!; [done|done| | |].
  - eapply same_registry_ok; [done|]. by apply consume_found_ok.
  - rewrite (sr_wakes _ _ Hr). by apply consume_found_wakes.
  - rewrite (sr_now _ _ Hr). apply consume_fields.
Qed.

(** A poll delivers exactly the pending wakes whose deadline has come, each
    once, ordered by deadline, then key, then registration; it retires them
    and leaves all others pending. *)
Theorem poll_ready_exact s :
  sched_ok s ->
  let '(l, s') := poll_ready s in
  (forall w, w ∈ l <->
     exists r, wakes s !! wake_id w = Some r /\ rec_wake r = w /\ wake_deadline w <= s_now s) /\
  StronglySorted wake_le l /\ NoDup (map wake_id l) /\ wakes s' = later s /\ sched_ok s'.
Proof.
  intros Hok. pose proof (poll_ready_spec s Hok) as H. destruct (poll_ready s) as [l s'].
  destruct H as (-> & _ & Hok' & Hw & _). split_and!; [| | |done|done].
  - intros w. rewrite list_elem_of_fmap. setoid_rewrite merge_sort_Permutation.
    setoid_rewrite (elem_of_found s _ Hok). naive_solver.
  - assert (StronglySorted record_le (merge_sort record_le (found s))) as Hs.
    { apply StronglySorted_merge_sort; [apply wake_le_trans|apply wake_le_total]. }
    induction Hs as [|r l _ IH Hr]; simpl; constructor; [done|]. by rewrite Forall_fmap.
  - rewrite map_map, merge_sort_Permutation. by apply found_ids_NoDup.
Qed.

Lemma poll_ready_exact_witness :
  let s := scheduler_new 0 5 2 token_new in
  wakes (snd (poll_ready s)) = later s.
Proof.
  destruct (poll_ready_exact (scheduler_new 0 5 2 token_new)) as (_ & _ & _ & H & _).
  - apply scheduler_new_ok. lia.
  - exact H.
Defined.

(** ** Registration *)

Lemma filter_pending_id s :
  sched_ok s -> filter (fun '(_, r) => rec_pending r = true) (wakes s) = wakes s.
Proof. intros Hok. apply map_filter_id. intros id r Hr. by destruct (so_wakes s Hok id r Hr) as (_ & ? & _). Qed.

Lemma with_wakes_same s : with_wakes (wakes s) s = s.
Proof. by destruct s. Qed.

(** The scheduler after a wake was registered. *)
Definition registered (deadline key : Z) (token : nat) (s : Scheduler) : Scheduler :=
  let id := next_id s in
  set_status id WAKE_PENDING
    (with_wakes (<[id := mkRecord (mkWake id deadline key) true false token]> (wakes s))
       (with_next_id (default 0 (u64_checked_add id 1)) s)).

Lemma register_wake_run deadline key token s :
  sched_ok s ->
  register_wake deadline key token s =
    if max_wakes s <=? Z.of_nat (size (wakes s)) then (Err (Capacity (max_wakes s)), s)
    else if next_id s =? 0 then (Err WakeIdOverflow, s)
    else (Ok (mkRegistration (next_id s) token (s_owner s)),
          if expired deadline (s_now s) then wake_token token (registered deadline key token s)
          else registered deadline key token s).
Proof.
  intros Hok. unfold register_wake. unfold st_bind at 1, st_get.
  destruct (max_wakes s <=? Z.of_nat (size (wakes s))) eqn:E.
  - unfold update, st_bind. simpl. rewrite filter_pending_id, with_wakes_same by done. by rewrite E.
  - unfold st_bind, update, st_ret. rewrite E. destruct (next_id s =? 0); [done|].
    by destruct (expired deadline (s_now s)).
Qed.

Lemma next_id_fresh s : sched_ok s -> next_id s <> 0 -> statuses s !! next_id s = None.
Proof.
  intros Hok Hn. destruct (statuses s !! next_id s) eqn:E; [|done].
  destruct (so_ids s Hok (next_id s)) as [_ [?|?]]; [eauto|done|lia].
Qed.

Lemma next_id_unused s : sched_ok s -> next_id s <> 0 -> wakes s !! next_id s = None.
Proof.
  intros Hok Hn. destruct (wakes s !! next_id s) as [r|] eqn:E; [|done].
  apply (so_wakes s Hok) in E as (_ & _ & E). by rewrite next_id_fresh in E.
Qed.

Lemma registered_ok deadline key token s :
  sched_ok s -> Z.of_nat (size (wakes s)) < max_wakes s -> next_id s <> 0 ->
  sched_ok (registered deadline key token s).
Proof.
  intros Hok Hsz Hn. pose proof (next_id_unused s Hok Hn) as Hu. destruct Hok as [O1 O2 O3 O4 O5 O6].
  set (id := next_id s) in *.
  assert (default 0 (u64_checked_add id 1) = 0 \/ default 0 (u64_checked_add id 1) = id + 1) as Hnext.
  { unfold u64_checked_add. case_if; simpl; auto. }
  split; simpl; fold id.
  - intros i r. destruct (decide (id = i)) as [<-|Hne].
    + rewrite lookup_insert_eq. intros [= <-]. simpl. by rewrite lookup_insert_eq.
    + rewrite !lookup_insert_ne by done. apply O1.
  - intros i. destruct (decide (id = i)) as [<-|Hne].
    + rewrite !lookup_insert_eq. eauto.
    + rewrite !lookup_insert_ne by done. apply O2.
  - intros i. destruct (decide (id = i)) as [<-|Hne].
    + by rewrite lookup_insert_eq.
    + rewrite lookup_insert_ne by done. apply O3.
  - intros i. destruct (decide (id = i)) as [<-|Hne].
    + intros _. subst id. lia.
    + rewrite lookup_insert_ne by done. intros Hi. destruct (O4 i Hi). subst id. lia.
  - unfold u64_checked_add in *. revert Hnext. case_if; simpl; subst id; lia.
  - rewrite map_size_insert_None by done. lia.
Qed.

(** ** Cancellation *)

(** The scheduler after a pending wake was cancelled. *)
Definition cancelled (id : Z) (s : Scheduler) : Scheduler :=
  set_status id WAKE_CANCELLED (with_wakes (delete id (wakes s)) s).

Lemma cancelled_ok id s : sched_ok s -> is_Some (statuses s !! id) -> sched_ok (cancelled id s).
Proof.
  intros [O1 O2 O3 O4 O5 O6] Hid. split; simpl; [| | | |done|].
  - intros i r. destruct (decide (id = i)) as [<-|Hne]; [by rewrite lookup_delete_eq|].
    rewrite lookup_delete_ne, lookup_insert_ne by done. apply O1.
  - intros i. destruct (decide (id = i)) as [<-|Hne]; [by rewrite lookup_insert_eq|].
    rewrite lookup_delete_ne, lookup_insert_ne by done. apply O2.
  - intros i. destruct (decide (id = i)) as [<-|Hne]; [by rewrite lookup_insert_eq|].
    rewrite lookup_insert_ne by done. apply O3.
  - intros i. destruct (decide (id = i)) as [<-|Hne]; [intros _; by apply O4|].
    rewrite lookup_insert_ne by done. apply O4.
  - etrans; [|exact O6]. apply Nat2Z.inj_le, map_subseteq_size, delete_subseteq.
Qed.

Lemma cancel_with_owner_run r s :
  sched_ok s ->
  cancel_with_owner r s =
    if decide (statuses s !! reg_id r = Some WAKE_PENDING)
    then (Ok true, wake_token (reg_token r) (cancelled (reg_id r) s))
    else (Ok false, s).
Proof.
  intros Hok. unfold cancel_with_owner. case_decide as Hd; [|done].
  destruct (so_pending s Hok _ Hd) as [rec Hr]. destruct (so_wakes s Hok _ _ Hr) as (_ & Hp & _).
  unfold cancel_registration, st_bind, st_get, update, set_status at 1. simpl. rewrite Hr, Hp. simpl.
  unfold st_ret. do 2 f_equal. unfold cancelled, set_status, with_wakes. simpl.
  by rewrite !insert_insert_eq.
Qed.

(** Cancelling a registration of the scheduler never fails: it returns
    whether the wake was still pending, retires exactly that wake, and a second
    cancellation (or the drop of the handle) finds nothing to do. *)
Theorem cancel_idempotent r s :
  sched_ok s -> reg_owner r = s_owner s -> is_Some (statuses s !! reg_id r) ->
  let was_pending := bool_decide (statuses s !! reg_id r = Some WAKE_PENDING) in
  exists s', cancel r s = (Ok was_pending, s') /\ sched_ok s' /\
    wakes s' = delete (reg_id r) (wakes s) /\
    cancel r s' = (Ok false, s') /\ drop_registration r s' = s'.
Proof.
  intros Hok Ho Hid was. assert (forall s1, s_owner s1 = s_owner s -> cancel r s1 = cancel_with_owner r s1) as Hc.
  { intros s1 Hs1. unfold cancel, st_bind, st_get. by rewrite Ho, Hs1, Nat.eqb_refl. }
  rewrite (Hc s eq_refl), (cancel_with_owner_run r s Hok). unfold was.
  destruct (decide (statuses s !! reg_id r = Some WAKE_PENDING)) as [Hp|Hp].
  - rewrite bool_decide_true by done. pose proof (cancelled_ok _ _ Hok Hid) as Hok1.
    pose proof (wake_token_registry (reg_token r) (cancelled (reg_id r) s)) as Hr.
    pose proof (same_registry_ok _ _ Hr Hok1) as Hok2. eexists. split; [done|].
    assert (cancel_with_owner r (wake_token (reg_token r) (cancelled (reg_id r) s)) =
      (Ok false, wake_token (reg_token r) (cancelled (reg_id r) s))) as Hagain.
    { rewrite cancel_with_owner_run by done. rewrite decide_False; [done|].
      rewrite (sr_statuses _ _ Hr). simpl. by rewrite lookup_insert_eq. }
    split_and!; [done|by rewrite (sr_wakes _ _ Hr)| |].
    + by rewrite Hc by apply Hr.
    + unfold drop_registration. by rewrite Hagain.
  - rewrite bool_decide_false by done. exists s. split_and!; [done|done| | |].
    + symmetry. apply delete_id. destruct (wakes s !! reg_id r) as [rec|] eqn:E; [|done].
      by apply (so_wakes s Hok) in E as (_ & _ & E).
    + by rewrite Hc, cancel_with_owner_run, decide_False by done.
    + unfold drop_registration. by rewrite cancel_with_owner_run, decide_False by done.
Qed.

Lemma cancel_idempotent_witness :
  let s := snd (register_wake 9 0 0 (scheduler_new 0 5 2 token_new)) in
  exists s', cancel (mkRegistration 1 0 0) s = (Ok true, s') /\
    wakes s' = delete 1 (wakes s) /\ cancel (mkRegistration 1 0 0) s' = (Ok false, s').
Proof.
  destruct (cancel_idempotent (mkRegistration 1 0 0)
    (snd (register_wake 9 0 0 (scheduler_new 0 5 2 token_new)))) as (s' & H1 & _ & H2 & H3 & _).
  - rewrite register_wake_run; [|apply scheduler_new_ok; lia].
    apply registered_ok; [apply scheduler_new_ok; lia|reflexivity|discriminate].
  - reflexivity.
  - by eexists.
  - exists s'. split; [exact H1|]. split; [exact H2|exact H3].
Defined.

(** ** Histories *)

Inductive sched_op :=
| ORegister (deadline key : Z) (token : nat)
| ORegisterAfter (delay key : Z) (token : nat)
| OCancel (r : WakeRegistration)
| ODrop (r : WakeRegistration)
| OPoll
| OAdvanceTo (target : Z)
| OAdvanceBy (duration : Z)
| OToken (o : token_op).

(** What an operation makes observable: registrations, deliveries with the
    time of delivery, and successful cancellations. *)
Inductive sched_event :=
| ERegistered (id : Z)
| EFired (w : ScheduledWake) (now : Z)
| ECancelled (id : Z).

Definition fired_at (now : Z) (l : list ScheduledWake) : list sched_event :=
  map (fun w => EFired w now) l.

Definition apply_sched_op (s : Scheduler) (o : sched_op) : Scheduler * list sched_event :=
  match o with
  | ORegister d k t =>
      let '(res, s') := register_wake d k t s in
      (s', match res with Ok r => [ERegistered (reg_id r)] | _ => [] end)
  | ORegisterAfter d k t =>
      let '(res, s') := register_after d k t s in
      (s', match res with Ok r => [ERegistered (reg_id r)] | _ => [] end)
  | OCancel r =>
      let '(res, s') := cancel r s in
      (s', match res with Ok true => [ECancelled (reg_id r)] | _ => [] end)
  | ODrop r =>
      let '(res, s') := cancel_with_owner r s in
      (s', match res with Ok true => [ECancelled (reg_id r)] | _ => [] end)
  | OPoll => let '(l, s') := poll_ready s in (s', fired_at (s_now s') l)
  | OAdvanceTo t =>
      let '(res, s') := advance_to t s in
      (s', match res with Ok l => fired_at (s_now s') l | _ => [] end)
  | OAdvanceBy d =>
      let '(res, s') := advance_by d s in
      (s', match res with Ok l => fired_at (s_now s') l | _ => [] end)
  | OToken o =>
      let '(tokens, w) := apply_token_op (s_tokens s) o in
      (mkSched (wakes s) (statuses s) (s_now s) (next_id s) (max_wakes s) (s_owner s) tokens
         (woken s ++ w), [])
  end.

Definition run_sched (s : Scheduler) (ops : list sched_op) : Scheduler * list sched_event :=
  foldl (fun '(s, es) o => let '(s', e) := apply_sched_op s o in (s', es ++ e)) (s, []) ops.

Definition registered_ids (es : list sched_event) : list Z :=
  omap (fun e => match e with ERegistered id => Some id | _ => None end) es.
(** Identities that were delivered or cancelled. *)
Definition settled_ids (es : list sched_event) : list Z :=
  omap (fun e => match e with
                 | EFired w _ => Some (wake_id w)
                 | ECancelled id => Some id
                 | ERegistered _ => None
                 end) es.
Definition on_time (e : sched_event) : Prop :=
  match e with EFired w now => wake_deadline w <= now | _ => True end.

Definition pending_ids (s : Scheduler) : list Z := map fst (map_to_list (wakes s)).

(** The accounts of a history: every registered wake is settled once or is
    still pending. *)
Record accounted (s : Scheduler) (es : list sched_event) : Prop := {
  ac_ok : sched_ok s;
  ac_ids : registered_ids es ≡ₚ settled_ids es ++ pending_ids s;
  ac_known id : id ∈ registered_ids es -> is_Some (statuses s !! id);
  ac_nodup : NoDup (registered_ids es);
  ac_time : Forall on_time es
}.

Lemma pending_ids_elem s id : id ∈ pending_ids s <-> is_Some (wakes s !! id).
Proof.
  unfold pending_ids. rewrite list_elem_of_fmap. split.
  - intros ([i r] & -> & Hr%elem_of_map_to_list). eauto.
  - intros [r Hr]. exists (id, r). split; [done|]. by apply elem_of_map_to_list.
Qed.

Lemma pending_ids_NoDup s : NoDup (pending_ids s).
Proof. apply NoDup_fst_map_to_list. Qed.

Lemma registered_ids_app a b : registered_ids (a ++ b) = registered_ids a ++ registered_ids b.
Proof. apply omap_app. Qed.

Lemma settled_ids_app a b : settled_ids (a ++ b) = settled_ids a ++ settled_ids b.
Proof. apply omap_app. Qed.

Lemma fired_ids now l :
  registered_ids (fired_at now l) = [] /\ settled_ids (fired_at now l) = map wake_id l.
Proof. induction l as [|w l [IH1 IH2]]; simpl; [done|]. split; [done|]. unfold settled_ids in *. by rewrite <- IH2. Qed.

(** Operations that leave the registry as it is. *)
Lemma accounted_same s s' es :
  accounted s es -> same_registry s s' -> accounted s' es.
Proof.
  intros [H1 H2 H3 H4 H5] Hr. split; [by eapply same_registry_ok| | |done|done].
  - unfold pending_ids. by rewrite (sr_wakes _ _ Hr).
  - intros id Hid. rewrite (sr_statuses _ _ Hr). eauto.
Qed.

Lemma accounted_register d k t s es :
  accounted s es ->
  let '(res, s') := register_wake d k t s in
  accounted s' (es ++ match res with Ok r => [ERegistered (reg_id r)] | _ => [] end).
Proof.
  intros Ha. pose proof Ha as [Hok Hids Hkn Hnd Ht]. rewrite register_wake_run by done.
  destruct (max_wakes s <=? _) eqn:Em; [by rewrite app_nil_r|].
  destruct (next_id s =? 0) eqn:En; [by rewrite app_nil_r|]. simpl_bool.
  pose proof (next_id_unused s Hok ltac:(lia)) as Hu.
  assert (accounted (registered d k t s) (es ++ [ERegistered (next_id s)])) as Hreg.
  { split.
    - apply registered_ok; [done|lia|lia].
    - rewrite registered_ids_app, settled_ids_app, Hids. unfold registered_ids, settled_ids. simpl.
      rewrite app_nil_r, <- (assoc_L (++)). apply Permutation_app_head.
      unfold pending_ids. simpl. rewrite map_to_list_insert by done. simpl.
      by rewrite Permutation_app_comm.
    - intros id. rewrite registered_ids_app, elem_of_app. simpl. intros [Hid|Hid].
      + destruct (decide (id = next_id s)) as [->|Hne]; [rewrite lookup_insert_eq; eauto|].
        rewrite lookup_insert_ne by done. by apply Hkn.
      + unfold registered_ids in Hid. simpl in Hid. apply list_elem_of_singleton in Hid as ->.
        rewrite lookup_insert_eq. eauto.
    - rewrite registered_ids_app. apply NoDup_app. split_and!; [done| |apply NoDup_singleton].
      intros id Hid%Hkn ->%list_elem_of_singleton. rewrite next_id_fresh in Hid by (done || lia).
      by destruct Hid.
    - apply Forall_app. split; [done|]. by constructor. }
  simpl. destruct (expired _ _); [|done]. eapply accounted_same; [done|]. apply wake_token_registry.
Qed.

Lemma accounted_cancel r s es :
  accounted s es ->
  let '(res, s') := cancel_with_owner r s in
  accounted s' (es ++ match res with Ok true => [ECancelled (reg_id r)] | _ => [] end).
Proof.
  intros Ha. pose proof Ha as [Hok Hids Hkn Hnd Ht]. rewrite cancel_with_owner_run by done.
  case_decide as Hd; [|by rewrite app_nil_r].
  destruct (so_pending s Hok _ Hd) as [rec Hr].
  assert (accounted (cancelled (reg_id r) s) (es ++ [ECancelled (reg_id r)])) as Hc.
  { split.
    - apply cancelled_ok; [done|eauto].
    - rewrite registered_ids_app, settled_ids_app, Hids. unfold registered_ids at 1, settled_ids at 2. simpl.
      rewrite app_nil_r, <- (assoc_L (++)). apply Permutation_app_head.
      unfold pending_ids. simpl. rewrite <- (insert_delete_id (wakes s) _ _ Hr) at 1.
      rewrite map_to_list_insert by (apply lookup_delete_eq). done.
    - intros id. rewrite registered_ids_app, elem_of_app. simpl. intros [Hid|Hid].
      + destruct (decide (id = reg_id r)) as [->|Hne]; [rewrite lookup_insert_eq; eauto|].
        rewrite lookup_insert_ne by done. by apply Hkn.
      + by apply elem_of_nil in Hid.
    - rewrite registered_ids_app. unfold registered_ids at 2. simpl. by rewrite app_nil_r.
    - apply Forall_app. split; [done|]. by constructor. }
  eapply accounted_same; [done|]. apply wake_token_registry.
Qed.

Lemma accounted_poll s es :
  accounted s es ->
  let '(l, s') := poll_ready s in accounted s' (es ++ fired_at (s_now s') l).
Proof.
  intros [Hok Hids Hkn Hnd Ht]. pose proof (poll_ready_spec s Hok) as H.
  destruct (poll_ready s) as [l s']. destruct H as (-> & Hsr & Hok' & Hw & Hnow).
  set (l := map rec_wake (merge_sort record_le (found s))).
  assert (map wake_id l ≡ₚ map (fun r => record_id r) (found s)) as Hl.
  { subst l. by rewrite map_map, merge_sort_Permutation. }
  destruct (fired_ids (s_now s') l) as [Hf1 Hf2]. split; [done| | | |].
  - rewrite registered_ids_app, settled_ids_app, Hids, Hf1, Hf2, app_nil_r, <- (assoc_L (++)).
    apply Permutation_app_head. rewrite Hl. apply NoDup_Permutation.
    + apply pending_ids_NoDup.
    + apply NoDup_app. split_and!; [by apply found_ids_NoDup| |apply pending_ids_NoDup].
      intros id (r & Hr & Hle)%found_ids_iff; [|done]. rewrite pending_ids_elem, Hw. intros [r' Hr'].
      unfold later in Hr'. apply map_lookup_filter_Some in Hr' as [Hr' Hlt]. simplify_eq. lia.
    + intros id. rewrite elem_of_app, !pending_ids_elem, Hw, found_ids_iff by done. split.
      * intros [r Hr]. destruct (decide (wake_deadline (rec_wake r) <= s_now s)); [left; eauto|right].
        exists r. apply map_lookup_filter_Some. split; [done|lia].
      * intros [(r & Hr & _)|[r Hr]]; [eauto|]. apply map_lookup_filter_Some in Hr as [Hr _]. eauto.
  - intros id. rewrite registered_ids_app, Hf1, app_nil_r. intros Hid.
    rewrite (sr_statuses _ _ Hsr), consume_statuses. case_decide; [eauto|by apply Hkn].
  - by rewrite registered_ids_app, Hf1, app_nil_r.
  - apply Forall_app. split; [done|]. unfold fired_at. apply Forall_fmap, Forall_forall.
    intros w Hin. simpl. rewrite Hnow. subst l. apply list_elem_of_fmap in Hin as (r & -> & Hr).
    rewrite merge_sort_Permutation in Hr. apply elem_of_found in Hr as [_ ?]; done.
Qed.

Lemma with_now_ok t s es : accounted s es -> accounted (with_now t s) es.
Proof. intros [[] ? ? ? ?]. by do 2 (split; try done). Qed.

Lemma accounted_advance t s es :
  accounted s es ->
  let '(res, s') := advance_to t s in
  accounted s' (es ++ match res with Ok l => fired_at (s_now s') l | _ => [] end).
Proof.
  intros Ha. unfold advance_to. destruct (t <? s_now s); [by rewrite app_nil_r|].
  pose proof (accounted_poll (with_now t s) es (with_now_ok t s es Ha)) as H.
  by destruct (poll_ready (with_now t s)).
Qed.

Lemma accounted_op s es o :
  accounted s es ->
  let '(s', e) := apply_sched_op s o in accounted s' (es ++ e).
Proof.
  intros Ha. destruct o as [d k t|d k t|r|r| |t|d|o]; cbn [apply_sched_op].
  - pose proof (accounted_register d k t s es Ha) as H. by destruct (register_wake d k t s).
  - unfold register_after, st_bind at 1, st_get, st_bind, st_lift.
    destruct (deadline_after (s_now s) d) as [deadline|]; simpl; [|by rewrite app_nil_r].
    pose proof (accounted_register deadline k t s es Ha) as H. by destruct (register_wake deadline k t s).
  - unfold cancel, st_bind, st_get. destruct (negb _); simpl; [by rewrite app_nil_r|].
    pose proof (accounted_cancel r s es Ha) as H. by destruct (cancel_with_owner r s).
  - pose proof (accounted_cancel r s es Ha) as H. by destruct (cancel_with_owner r s).
  - pose proof (accounted_poll s es Ha) as H. by destruct (poll_ready s).
  - pose proof (accounted_advance t s es Ha) as H. by destruct (advance_to t s).
  - unfold advance_by, st_bind at 1, st_get, st_bind, st_lift.
    destruct (duration_checked_add (s_now s) d) as [target|]; simpl; [|by rewrite app_nil_r].
    pose proof (accounted_advance target s es Ha) as H. by destruct (advance_to target s).
  - destruct (apply_token_op (s_tokens s) o). rewrite app_nil_r. by eapply accounted_same.
Qed.

Lemma accounted_run ops s es :
  accounted s es ->
  let '(s', es') :=
    foldl (fun '(s, es) o => let '(s', e) := apply_sched_op s o in (s', es ++ e)) (s, es) ops in
  accounted s' es'.
Proof.
  revert s es. induction ops as [|o ops IH]; intros s es Ha; simpl; [done|].
  pose proof (accounted_op s es o Ha) as H. destruct (apply_sched_op s o) as [s1 e]. by apply IH.
Qed.

Lemma accounted_start owner now max tokens :
  0 <= max -> accounted (scheduler_new owner now max tokens) [].
Proof.
  intros Hm. split; [by apply scheduler_new_ok|done| |constructor|constructor].
  intros id Hid. by apply elem_of_nil in Hid.
Qed.

(** C13 Every wake is settled exactly once.  Over any history of
    registrations, cancellations, drops, polls, advances and uses of tokens,
    identities are never reused, no wake is delivered before its deadline, and
    each registered wake is either delivered once, or cancelled once, or still
    pending, never two of these; and the registry stays within its capacity. *)
Theorem wakes_settled_once owner now max tokens ops :
  0 <= max ->
  let '(s, es) := run_sched (scheduler_new owner now max tokens) ops in
  NoDup (registered_ids es) /\
  registered_ids es ≡ₚ settled_ids es ++ pending_ids s /\
  Forall on_time es /\ Z.of_nat (size (wakes s)) <= max_wakes s.
Proof.
  intros Hm. pose proof (accounted_run ops _ [] (accounted_start owner now max tokens Hm)) as H.
  unfold run_sched. destruct (foldl _ _ ops) as [s es]. destruct H as [[] H2 H3 H4 H5]. done.
Qed.

Lemma wakes_settled_once_witness :
  let '(s, es) := run_sched (scheduler_new 0 0 4 token_new)
    [ORegister 5 0 0; ORegister 3 0 0; ORegister 9 0 0; OCancel (mkRegistration 1 0 0); OAdvanceTo 4] in
  NoDup (registered_ids es) /\
  registered_ids es ≡ₚ settled_ids es ++ pending_ids s /\
  Forall on_time es /\ Z.of_nat (size (wakes s)) <= max_wakes s.
Proof.
  apply (wakes_settled_once 0 0 4 token_new
    [ORegister 5 0 0; ORegister 3 0 0; ORegister 9 0 0; OCancel (mkRegistration 1 0 0); OAdvanceTo 4]).
  lia.
Defined.

(** ** Windows *)

(** Within a schedule window a sampler is started only before the end:
    the delay before it is refused exactly when the window is over, and is
    otherwise the requested one or the rest of the window, whichever is
    shorter. *)
Theorem window_clips_delay start duration w now delay :
  0 <= start -> 0 <= duration -> 0 <= delay -> start <= now ->
  window_new start (Some duration) = Ok w ->
  (delay_before_sampler w now delay = Ok None <-> window_expired w now = true) /\
  (window_expired w now = false ->
   exists d, delay_before_sampler w now delay = Ok (Some d) /\ 0 <= d <= delay /\
     now + d <= start + duration /\ (d = delay \/ now + d = start + duration)).
Proof.
  intros Hs Hd Hdel Hn. unfold window_new, duration_checked_add. case_if; [|done].
  simpl. intros [= <-]. unfold delay_before_sampler, window_expired, duration_checked_sub. simpl.
  rewrite (proj2 (Z.ltb_ge _ _)) by lia. destruct (start + duration <=? now) eqn:E; simpl_bool.
  - split; [done|done].
  - rewrite (proj2 (Z.leb_le _ _)) by lia. simpl. split; [done|]. intros _.
    exists (Z.min delay (start + duration - now)). split; [done|]. lia.
Qed.

Lemma window_clips_delay_witness :
  exists d, delay_before_sampler (mkWindow 2 (Some 12)) 9 5 = Ok (Some d) /\ 0 <= d <= 5 /\
    9 + d <= 2 + 10 /\ (d = 5 \/ 9 + d = 2 + 10).
Proof.
  destruct (window_clips_delay 2 10 (mkWindow 2 (Some 12)) 9 5) as [_ H];
    [lia|lia|lia|lia|reflexivity|]. apply H. reflexivity.
Defined.

(** ** A cancellation racing a poll

    The status of a registration is read and written outside the lock of the
    registry by [cancel_with_owner], inside it by [poll_ready].  One
    registration, one canceller, one poller; the shared state is the status,
    whether the record is in the registry, and whether the poller holds the
    lock.  The poller loads the status and later stores [WAKE_CONSUMED], both
    under the lock; the canceller swaps [WAKE_PENDING] for [WAKE_CANCELLING]
    without it, and then runs the callback, which takes it. *)
Module Race.

Inductive canceller :=
| CStart
| CClaimed
| CReturned (res : result SchedulerError bool).

Inductive poller :=
| PStart
| PSelected
| PDone (delivered : bool).

Record state := mkState {
  status : WakeStatus;
  present : bool;
  locked : bool;
  c_pc : canceller;
  p_pc : poller
}.

Definition start : state := mkState WAKE_PENDING true false CStart PStart.

(** [compare_exchange(WAKE_PENDING, WAKE_CANCELLING)] *)
Definition cancel_claim (s : state) : state :=
  if decide (status s = WAKE_PENDING)
  then mkState WAKE_CANCELLING (present s) (locked s) CClaimed (p_pc s)
  else mkState (status s) (present s) (locked s) (CReturned (Ok false)) (p_pc s).

(** The callback and the store that follows it; the lock is free. *)
Definition cancel_callback (s : state) : state :=
  if present s
  then mkState WAKE_CANCELLED false (locked s) (CReturned (Ok true)) (p_pc s)
  else mkState WAKE_PENDING false (locked s) (CReturned (Err (UnknownWake 1))) (p_pc s).

(** The poller takes the lock and loads the status of an expired record. *)
Definition poll_select (s : state) : state :=
  if present s && bool_decide (status s = WAKE_PENDING)
  then mkState (status s) (present s) true (c_pc s) PSelected
  else mkState (status s) (present s) (locked s) (c_pc s) (PDone false).

(** It stores [WAKE_CONSUMED], removes the record and drops the lock. *)
Definition poll_consume (s : state) : state :=
  mkState WAKE_CONSUMED false false (c_pc s) (PDone true).

Inductive step : state -> state -> Prop :=
| step_claim s : c_pc s = CStart -> step s (cancel_claim s)
| step_callback s : c_pc s = CClaimed -> locked s = false -> step s (cancel_callback s)
| step_select s : p_pc s = PStart -> locked s = false -> step s (poll_select s)
| step_consume s : p_pc s = PSelected -> step s (poll_consume s).

(** A cancellation that races the delivery of its wake can fail with
    [UnknownWake], and then leaves the retired registration marked as pending,
    so that cancelling it again fails again: cancelling is not idempotent, as
    it is without the race. *)
Theorem cancel_race_unknown_wake :
  exists s, rtc step start s /\ p_pc s = PDone true /\
    c_pc s = CReturned (Err (UnknownWake 1)) /\ status s = WAKE_PENDING /\ present s = false.
Proof.
  eexists. split.
  - eapply rtc_l; [apply step_select; reflexivity|].
    eapply rtc_l; [apply step_claim; reflexivity|].
    eapply rtc_l; [apply step_consume; reflexivity|].
    eapply rtc_l; [apply step_callback; reflexivity|]. apply rtc_refl.
  - split_and!; reflexivity.
Qed.

(** Every interleaving delivers the wake or cancels it, never both. *)
Definition inv (s : state) : Prop :=
  (present s = true -> c_pc s <> CReturned (Ok true) /\ p_pc s <> PDone true) /\
  (locked s = true <-> p_pc s = PSelected) /\ (p_pc s = PSelected -> present s = true) /\
  ~ (c_pc s = CReturned (Ok true) /\ p_pc s = PDone true).

Lemma race_inv_step s s' : inv s -> step s s' -> inv s'.
Proof.
  intros (H1 & H2 & H3 & H4) Hstep.
  destruct Hstep as [s Hc|s Hc Hl|s Hp Hl|s Hp]; unfold inv;
    destruct s as [st pr lk c q]; simpl in *; subst.
  - unfold cancel_claim. simpl. case_decide; naive_solver.
  - unfold cancel_callback. simpl. destruct pr; simpl; naive_solver.
  - unfold poll_select. simpl. destruct pr, (bool_decide _); simpl; naive_solver.
  - naive_solver.
Qed.

(** Even under the race, a wake is never both delivered and reported as
    cancelled. *)
Theorem race_exclusive s :
  rtc step start s -> ~ (c_pc s = CReturned (Ok true) /\ p_pc s = PDone true).
Proof.
  intros Hs. assert (inv s) as (_ & _ & _ & H); [|done].
  eapply (rtc_invariant step inv); [apply race_inv_step| |done]. unfold inv. simpl. naive_solver.
Qed.

Lemma race_exclusive_witness :
  ~ (c_pc (cancel_callback (cancel_claim start)) = CReturned (Ok true) /\
     p_pc (cancel_callback (cancel_claim start)) = PDone true).
Proof.
  apply (race_exclusive (cancel_callback (cancel_claim start))).
  eapply rtc_l; [apply step_claim; reflexivity|].
  eapply rtc_l; [apply step_callback; reflexivity|]. apply rtc_refl.
Defined.
End Race.
