(* ===== verification/DeadlineFuture.v ===== *)
(** * The deadline future

    Models [DeadlineFuture] of [crates/runtime/src/scheduler.rs] on the
    [DeterministicScheduler]: what a poll registers, when it is ready, and what
    its drop retires. *)

From stdpp Require Import sorting.
From S2P Require Import Prelude Control Token Scheduler.

Record DeadlineFuture := mkFuture {
  fut_deadline : Z;
  fut_token : nat;
  fut_registration : option WakeRegistration
}.

Inductive poll_result :=
| Pending
| Ready (res : result SchedulerError ControlSignal).

(** [DeadlineFuture::new] *)
Definition future_new (deadline : Z) (token : nat) : DeadlineFuture := mkFuture deadline token None.

(** [DeadlineFuture::cancel_registration]: the handle is taken, cancelled
    through the scheduler, and dropped. *)
Definition future_cancel (f : DeadlineFuture) (s : Scheduler) :
    result SchedulerError () * DeadlineFuture * Scheduler :=
  match fut_registration f with
  | None => (Ok (), f, s)
  | Some r =>
      let '(res, s1) := cancel r s in
      ((let? _ := res in Ok ()), mkFuture (fut_deadline f) (fut_token f) None, drop_registration r s1)
  end.

Definition with_tokens (t : TokenStore) (s : Scheduler) : Scheduler :=
  mkSched (wakes s) (statuses s) (s_now s) (next_id s) (max_wakes s) (s_owner s) t (woken s).
Definition log_wake (w : Z) (s : Scheduler) : Scheduler :=
  mkSched (wakes s) (statuses s) (s_now s) (next_id s) (max_wakes s) (s_owner s) (s_tokens s)
    (woken s ++ [w]).

(** Returns through [cancel_registration]. *)
Definition future_finish (sig : ControlSignal) (f : DeadlineFuture) (s : Scheduler) :
    poll_result * DeadlineFuture * Scheduler :=
  let '(res, f', s') := future_cancel f s in (Ready (let? _ := res in Ok sig), f', s').

(** The end of a poll that stays pending: install the waker, then look again
    for an event that came before it was visible. *)
Definition future_wait (f : DeadlineFuture) (fresh : bool) (w : Z) (s : Scheduler) :
    poll_result * DeadlineFuture * Scheduler :=
  let h := fut_token f in
  let tokens := register_waker h w (s_tokens s) in
  let '(raced, tokens) := if fresh then take_wake h tokens else (false, tokens) in
  let s := with_tokens tokens s in
  (Pending, f,
   if is_stop (token_signal tokens h) || raced || expired (fut_deadline f) (s_now s)
   then log_wake w s else s).

(** [DeadlineFuture::poll] with the context's waker [w] *)
Definition future_poll (f : DeadlineFuture) (w : Z) (s : Scheduler) :
    poll_result * DeadlineFuture * Scheduler :=
  let sig := token_signal (s_tokens s) (fut_token f) in
  if is_stop sig then future_finish sig f s
  else if expired (fut_deadline f) (s_now s) then future_finish StopTestGraceful f s
  else
    match fut_registration f with
    | Some _ => future_wait f false w s
    | None =>
        match register_wake (fut_deadline f) 0 (fut_token f) s with
        | (Ok r, s1) => future_wait (mkFuture (fut_deadline f) (fut_token f) (Some r)) true w s1
        | (Err e, s1) => (Ready (Err e), f, s1)
        | (OutOfFuel, s1) => (Ready OutOfFuel, f, s1)
        end
    end.

(** [Drop for DeadlineFuture] *)
Definition future_drop (f : DeadlineFuture) (s : Scheduler) : Scheduler :=
  snd (future_cancel f s).

(** ** The future and its registration *)

(** A future with a registration has it pending in the scheduler, unless the
    deadline has passed. *)
Definition future_ok (f : DeadlineFuture) (s : Scheduler) : Prop :=
  match fut_registration f with
  | None => True
  | Some r =>
      reg_owner r = s_owner s /\ is_Some (statuses s !! reg_id r) /\
      (fut_deadline f <= s_now s \/
       exists rec, wakes s !! reg_id r = Some rec /\
         wake_deadline (rec_wake rec) = fut_deadline f /\ rec_token rec = fut_token f)
  end.

Lemma future_cancel_run f s :
  sched_ok s -> future_ok f s ->
  exists s', future_cancel f s = (Ok (), mkFuture (fut_deadline f) (fut_token f) None, s') /\
    sched_ok s' /\
    match fut_registration f with Some r => wakes s' = delete (reg_id r) (wakes s) | None => s' = s end.
Proof.
  intros Hok Hf. unfold future_cancel, future_ok in *. destruct f as [d h [r|]]; simpl in *.
  - destruct Hf as (Ho & Hid & _).
    assert (cancel r s = cancel_with_owner r s) as Hc.
    { unfold cancel, st_bind, st_get. by rewrite Ho, Nat.eqb_refl. }
    rewrite Hc, cancel_with_owner_run by done. case_decide as Hd.
    + pose proof (cancelled_ok _ _ Hok Hid) as Hok1.
      pose proof (wake_token_registry (reg_token r) (cancelled (reg_id r) s)) as Hr.
      pose proof (same_registry_ok _ _ Hr Hok1) as Hok2. eexists. split; [done|].
      unfold drop_registration. rewrite cancel_with_owner_run by done. rewrite decide_False.
      * cbn [snd]. split; [done|]. by rewrite (sr_wakes _ _ Hr).
      * rewrite (sr_statuses _ _ Hr). simpl. by rewrite lookup_insert_eq.
    + eexists. split; [done|]. unfold drop_registration.
      rewrite cancel_with_owner_run by done. rewrite decide_False by done. split; [done|].
      symmetry. apply delete_id. destruct (wakes s !! reg_id r) as [rec|] eqn:E; [|done].
      by apply (so_wakes s Hok) in E as (_ & _ & E).
  - by exists s.
Qed.

(** A future that is done leaves nothing behind: when a poll is ready, or
    when the future is dropped before, its registration is retired and no
    wake of it stays in the scheduler. *)
Theorem future_retires f w s res f' s' :
  sched_ok s -> future_ok f s -> future_poll f w s = (Ready res, f', s') ->
  fut_registration f' = None /\ sched_ok s' /\
  (forall r, fut_registration f = Some r ->
     wakes s' !! reg_id r = None /\ wakes (future_drop f s) !! reg_id r = None).
Proof.
  intros Hok Hf Hp.
  destruct (future_cancel_run f s Hok Hf) as (s1 & Hc & Hok1 & Hw).
  assert (forall sig, future_finish sig f s = (Ready res, f', s') ->
    f' = mkFuture (fut_deadline f) (fut_token f) None /\ s' = s1) as Hfin.
  { intros sig. unfold future_finish. rewrite Hc. by intros [= _ <- <-]. }
  assert (forall r, fut_registration f = Some r -> wakes s1 !! reg_id r = None) as Hgone.
  { intros r Hr. rewrite Hr in Hw. rewrite Hw. apply lookup_delete_eq. }
  unfold future_drop. rewrite Hc. simpl.
  unfold future_poll in Hp.
  destruct (is_stop _); [by destruct (Hfin _ Hp) as [-> ->]; split_and!; eauto|].
  destruct (expired _ _); [by destruct (Hfin _ Hp) as [-> ->]; split_and!; eauto|].
  destruct (fut_registration f) as [r|] eqn:Er.
  - unfold future_wait in Hp. by simplify_eq/=.
  - rewrite register_wake_run in Hp by done.
    destruct (_ <=? _); [by simplify_eq|]. destruct (_ =? 0); [by simplify_eq|].
    unfold future_wait in Hp. by destruct (take_wake _ _); simplify_eq/=.
Qed.

Lemma future_retires_witness :
  let s := scheduler_new 0 5 2 token_new in
  exists s', future_poll (future_new 4 0) 7 s = (Ready (Ok StopTestGraceful), future_new 4 0, s') /\
    sched_ok s'.
Proof.
  eexists. split; [reflexivity|].
  destruct (future_retires (future_new 4 0) 7 (scheduler_new 0 5 2 token_new)
    (Ok StopTestGraceful) (future_new 4 0) (scheduler_new 0 5 2 token_new)) as (_ & H & _).
  - apply scheduler_new_ok. lia.
  - exact I.
  - reflexivity.
  - exact H.
Defined.

(** ** The future is woken in time *)

Lemma wake_alive k s h : owner_alive (fst (token_wake k s)) h = owner_alive s h.
Proof.
  unfold token_wake. match goal with |- owner_alive (fst (wake_local _ ?s1)) _ = _ => set (s2 := s1) end.
  destruct (wake_local_spec k s2) as (regs & log & -> & _). simpl.
  assert (same_alive s s2) as [_ H] by (by apply flags_same_alive). apply H.
Qed.

Lemma wake_token_eq k s :
  s_tokens (wake_token k s) = fst (token_wake k (s_tokens s)) /\
  woken (wake_token k s) = woken s ++ snd (token_wake k (s_tokens s)).
Proof. unfold wake_token. by destruct (token_wake k (s_tokens s)). Qed.

Lemma wake_tokens_log (l : list WakeRecord) s h w :
  subscribed (s_tokens s) h w -> owner_alive (s_tokens s) h = true ->
  (exists r, r ∈ l /\ rec_token r = h) ->
  exists log, woken (foldl (fun s r => wake_token (rec_token r) s) s l) = woken s ++ log /\ w ∈ log.
Proof.
  assert (forall l s, exists log,
    woken (foldl (fun s r => wake_token (rec_token r) s) s l) = woken s ++ log) as Hlog.
  { clear. induction l as [|r l IH]; intros s; simpl; [exists []; by rewrite app_nil_r|].
    destruct (IH (wake_token (rec_token r) s)) as [log ->].
    rewrite (proj2 (wake_token_eq _ _)), <- (assoc_L (++)). eauto. }
  revert s. induction l as [|r l IH]; intros s Hs Ha (r0 & Hr0 & Hh); [by apply elem_of_nil in Hr0|].
  cbn [foldl]. destruct (wake_token_eq (rec_token r) s) as [Htok Hwk].
  destruct (decide (w ∈ snd (token_wake (rec_token r) (s_tokens s)))) as [Hin|Hout].
  - destruct (Hlog l (wake_token (rec_token r) s)) as [log ->]. rewrite Hwk, <- (assoc_L (++)).
    eexists. split; [done|]. apply elem_of_app. by left.
  - assert (rec_token r <> h) as Hne.
    { intros E. apply Hout. rewrite E. by apply signal_wakes. }
    destruct (op_subscribed (s_tokens s) (TWake (rec_token r)) h w Hs Ha) as [Hs'|]; [|done].
    simpl in Hs'. rewrite <- Htok in Hs'. apply elem_of_cons in Hr0 as [->|Hr0]; [done|].
    destruct (IH (wake_token (rec_token r) s)) as (log & -> & Hin); [done| |eauto|].
    { by rewrite Htok, wake_alive. }
    rewrite Hwk, <- (assoc_L (++)). eexists. split; [done|]. apply elem_of_app. by right.
Qed.

Lemma consume_tokens l s :
  s_tokens (foldr consume s l) = s_tokens s /\ woken (foldr consume s l) = woken s.
Proof. by induction l. Qed.

(** Advancing to a deadline wakes the wakers its token's user registered. *)
Lemma advance_wakes s t id rec h w :
  sched_ok s -> s_now s <= t -> wakes s !! id = Some rec -> wake_deadline (rec_wake rec) <= t ->
  rec_token rec = h -> subscribed (s_tokens s) h w -> owner_alive (s_tokens s) h = true ->
  exists l s' log, advance_to t s = (Ok l, s') /\ woken s' = woken s ++ log /\ w ∈ log /\
    sched_ok s' /\ s_now s' = t /\ s_owner s' = s_owner s /\
    (forall i, is_Some (statuses s !! i) -> is_Some (statuses s' !! i)).
Proof.
  intros Hok Ht Hrec Hd Hh Hsub Ha. unfold advance_to. rewrite (proj2 (Z.ltb_ge _ _)) by done.
  assert (sched_ok (with_now t s)) as Hok1 by (destruct Hok; by split).
  pose proof (poll_ready_spec (with_now t s) Hok1) as Hsp. unfold poll_ready in *. fold (found (with_now t s)) in *.
  destruct Hsp as (_ & Hsr & Hok' & _ & Hnow).
  set (s1 := foldr consume (with_now t s) (found (with_now t s))) in *.
  destruct (consume_tokens (found (with_now t s)) (with_now t s)) as [Htok Hwk]. fold s1 in Htok, Hwk.
  destruct (wake_tokens_log (merge_sort record_le (found (with_now t s))) s1 h w) as (log & Hlog & Hin).
  - by rewrite Htok.
  - by rewrite Htok.
  - exists rec. split; [|done]. rewrite merge_sort_Permutation. apply elem_of_found; [done|].
    destruct (so_wakes s Hok _ _ Hrec) as (-> & _ & _). done.
  - do 3 eexists. split; [done|]. rewrite Hlog, Hwk. split_and!; try done.
    + rewrite (sr_owner _ _ Hsr).
      apply (consume_fields (found (with_now t s)) (with_now t s)).
    + intros i Hi. rewrite (sr_statuses _ _ Hsr). unfold s1. rewrite consume_statuses.
      case_decide; [eauto|done].
Qed.

(** The state a pending poll leaves. *)
Record waiting (f : DeadlineFuture) (w : Z) (s : Scheduler) : Prop := {
  wt_ok : sched_ok s;
  wt_future : future_ok f s;
  wt_time : s_now s < fut_deadline f;
  wt_registered : is_Some (fut_registration f);
  wt_subscribed : subscribed (s_tokens s) (fut_token f) w;
  wt_alive : owner_alive (s_tokens s) (fut_token f) = true
}.

Lemma future_wait_run f fresh w s p f' s' :
  sched_ok s -> future_ok f s -> s_now s < fut_deadline f -> is_Some (fut_registration f) ->
  registry_ok (t_wakers (s_tokens s)) -> owner_alive (s_tokens s) (fut_token f) = true ->
  Z.of_nat (owner_count (purge (s_tokens s) (t_wakers (s_tokens s)))) < MAX_SCHEDULED_WAKEUPS ->
  future_wait f fresh w s = (p, f', s') -> f' = f /\ waiting f w s'.
Proof.
  intros Hok Hf Ht Hr Hreg Ha Hroom Hw. unfold future_wait in Hw.
  set (h := fut_token f) in *. set (t1 := register_waker h w (s_tokens s)) in *.
  pose proof (register_subscribes h w (s_tokens s) Ha Hroom Hreg) as Hsub. fold t1 in Hsub.
  assert (exists t2, same_alive t1 t2 /\ f' = f /\
    (s' = with_tokens t2 s \/ s' = log_wake w (with_tokens t2 s))) as (t2 & [Hw2 Ha2] & -> & Hs').
  { destruct fresh; simpl in Hw.
    - exists (snd (take_wake h t1)). split; [by apply with_view_alive|].
      destruct (_ || _); simplify_eq/=; auto.
    - exists t1. split; [done|]. destruct (_ || _); simplify_eq/=; auto. }
  split; [done|]. assert (subscribed t2 h w) as Hsub2.
  { destruct Hsub as (r & Hr1 & Hr2 & Hr3). exists r. by rewrite Hw2. }
  assert (owner_alive t2 h = true) as Hal2 by (rewrite Ha2; exact Ha).
  destruct Hs' as [->| ->]; (split; [by destruct Hok; split|exact Hf|done|done|done|done]).
Qed.

Lemma future_poll_pending f w s f' s' :
  sched_ok s -> future_ok f s -> registry_ok (t_wakers (s_tokens s)) ->
  owner_alive (s_tokens s) (fut_token f) = true ->
  Z.of_nat (owner_count (purge (s_tokens s) (t_wakers (s_tokens s)))) < MAX_SCHEDULED_WAKEUPS ->
  future_poll f w s = (Pending, f', s') ->
  fut_deadline f' = fut_deadline f /\ fut_token f' = fut_token f /\ waiting f' w s'.
Proof.
  intros Hok Hf Hreg Ha Hroom Hp. unfold future_poll in Hp.
  assert (forall sig, future_finish sig f s <> (Pending, f', s')) as Hno.
  { intros sig. unfold future_finish. destruct (future_cancel f s) as [[]]. done. }
  destruct (is_stop _); [by destruct (Hno _ Hp)|].
  destruct (expired _ _) eqn:Ee; [by destruct (Hno _ Hp)|]. unfold expired in Ee. simpl_bool.
  destruct (fut_registration f) as [r|] eqn:Er.
  - apply future_wait_run in Hp as [-> Hw]; done || (try lia; by rewrite Er).
  - rewrite register_wake_run in Hp by done. destruct (_ <=? _) eqn:Em; [done|].
    destruct (_ =? 0) eqn:En; [done|]. unfold expired in Hp. rewrite (proj2 (Z.leb_gt _ _)) in Hp by lia.
    simpl_bool. pose proof (registered_ok (fut_deadline f) 0 (fut_token f) s Hok ltac:(lia) ltac:(lia)) as Hok1.
    apply future_wait_run in Hp as [-> Hw]; try done.
    unfold future_ok. simpl. split_and!; [done|by rewrite lookup_insert_eq|]. right.
    eexists. split; [by rewrite lookup_insert_eq|done].
Qed.

(** C33 A pending deadline future is never forgotten.  After a poll that stays
    pending, advancing the scheduler to the deadline (or beyond) wakes the
    waker the poll was given, and the next poll is then ready and reports the
    end of the wait, or the stop that was requested meanwhile. *)
Theorem future_completes f w s f' s' t :
  sched_ok s -> future_ok f s -> registry_ok (t_wakers (s_tokens s)) ->
  owner_alive (s_tokens s) (fut_token f) = true ->
  Z.of_nat (owner_count (purge (s_tokens s) (t_wakers (s_tokens s)))) < MAX_SCHEDULED_WAKEUPS ->
  future_poll f w s = (Pending, f', s') -> fut_deadline f <= t ->
  exists l s1 log, advance_to t s' = (Ok l, s1) /\ woken s1 = woken s' ++ log /\ w ∈ log /\
    let sig := token_signal (s_tokens s1) (fut_token f) in
    exists f2 s2, future_poll f' w s1 =
      (Ready (Ok (if is_stop sig then sig else StopTestGraceful)), f2, s2) /\
      fut_registration f2 = None.
Proof.
  intros Hok Hf Hreg Ha Hroom Hp Ht.
  destruct (future_poll_pending f w s f' s' Hok Hf Hreg Ha Hroom Hp) as (Hd & Htk & Hwt).
  destruct Hwt as [Hok' Hf' Htime [r Hr] Hsub Hal]. rewrite Hd in Htime.
  unfold future_ok in Hf'. rewrite Hr in Hf'. destruct Hf' as (Ho & Hid & [?|(rec & Hrec & Hdl & Htok)]); [lia|].
  destruct (advance_wakes s' t (reg_id r) rec (fut_token f') w) as (l & s1 & log & H1 & H2 & H3 & H4 & H5 & H6 & H7);
    try done; [lia|lia|].
  exists l, s1, log. split_and!; try done. intros sig.
  assert (future_ok f' s1) as Hf1.
  { unfold future_ok. rewrite Hr. split_and!; [by rewrite H6|by apply H7|left; lia]. }
  destruct (future_cancel_run f' s1 H4 Hf1) as (s2 & Hc & _ & _).
  rewrite Htk in Hc. exists (mkFuture (fut_deadline f') (fut_token f) None), s2. split; [|done].
  unfold future_poll. rewrite Htk. fold sig. unfold future_finish. rewrite Hc.
  destruct (is_stop sig); [done|]. unfold expired. by rewrite (proj2 (Z.leb_le _ _)) by lia.
Qed.

Lemma future_completes_witness :
  let f' := mkFuture 9 0 (Some (mkRegistration 1 0 0)) in
  let s' := snd (future_poll (future_new 9 0) 7 (scheduler_new 0 5 2 token_new)) in
  exists l s1 log, advance_to 9 s' = (Ok l, s1) /\ woken s1 = woken s' ++ log /\ 7 ∈ log.
Proof.
  destruct (future_completes (future_new 9 0) 7 (scheduler_new 0 5 2 token_new)
    (mkFuture 9 0 (Some (mkRegistration 1 0 0)))
    (snd (future_poll (future_new 9 0) 7 (scheduler_new 0 5 2 token_new))) 9)
    as (l & s1 & log & H1 & H2 & H3 & _).
  - apply scheduler_new_ok. lia.
  - exact I.
  - apply registry_nil.
  - reflexivity.
  - reflexivity.
  - reflexivity.
  - simpl. lia.
  - exists l, s1, log. split; [exact H1|]. split; [exact H2|exact H3].
Defined.
