(* ===== verification/Coordination.v ===== *)
(** * What the coordinators share

    The generations of [crates/runtime/src/coordination.rs], and the order in
    which its maps of names are iterated, which is the order in which users
    are woken. *)

From stdpp Require Import strings sorting.
From S2P Require Import Prelude.

(** ** Generations *)

(** [CoordinationGeneration::new], [initial], [next] *)
Definition generation_new (value : Z) : option Z := if value =? 0 then None else Some value.

Definition generation_initial : Z := 1.

Definition generation_next (g : Z) : option Z :=
  match u64_checked_add g 1 with Some v => generation_new v | None => None end.

(** ** Maps of names *)

(** A [BTreeMap] is iterated in the order of its keys, bytewise. *)
Definition name_le {A} (a b : string * A) : Prop := String.leb a.1 b.1 = true.

#[global] Instance name_le_dec {A} : RelDecision (@name_le A).
Proof. intros a b. unfold name_le. solve_decision. Defined.

Definition in_name_order {A} (m : gmap string A) : list (string * A) :=
  merge_sort name_le (map_to_list m).

Lemma elem_of_in_name_order {A} (m : gmap string A) n a : (n, a) ∈ in_name_order m <-> m !! n = Some a.
Proof.
  unfold in_name_order. rewrite (merge_sort_Permutation name_le (map_to_list m)). apply elem_of_map_to_list.
Qed.
