(* ===== verification/Critical.v ===== *)
(** * Critical sections

    Models the named locks of [crates/runtime/src/coordination.rs]
    ([DeterministicCriticalSectionCoordinator]): fail-fast and queued
    acquisition, release, cancellation and generations, all bounded.  Each
    operation runs under the coordinator's mutex, so it is one atomic
    computation on [CriticalState]; the wakers it invokes after unlocking are
    part of its result.  The second half states the contract of a fair lock as
    a step relation and shows that the coordinator refines it. *)

From S2P Require Import Prelude Coordination.

(** ** State *)

Definition MAX_LOCK_NAME_BYTES : Z := 4096.
Definition MAX_HELD_LOCKS : Z := 65536.
Definition MAX_CRITICAL_WAITERS : Z := 65536.

(** The limits [with_limits] puts into a coordinator: held locks and waiters. *)
Definition with_limits (max_held max_waiters : Z) : Z * Z :=
  (Z.min max_held MAX_HELD_LOCKS, Z.min max_waiters MAX_CRITICAL_WAITERS).

Inductive CriticalSectionError :=
| InvalidName
| InvalidOwner
| Capacity (limit : Z)
| WaiterCapacity (limit : Z)
| Busy (name : string) (owner : Z)
| Queued (name : string)
| NotOwner (name : string) (owner : Z)
| AccountingInvariant
| StaleGeneration (name : string) (expected actual : Z)
| GenerationOverflow.

Definition critical_error_code (e : CriticalSectionError) : string :=
  match e with
  | InvalidName => "runtime.critical-section.invalid-name"
  | InvalidOwner => "runtime.critical-section.invalid-owner"
  | Capacity _ => "runtime.critical-section.capacity"
  | WaiterCapacity _ => "runtime.critical-section.waiter-capacity"
  | Busy _ _ => "runtime.critical-section.busy"
  | Queued _ => "runtime.critical-section.queued"
  | NotOwner _ _ => "runtime.critical-section.not-owner"
  | AccountingInvariant => "runtime.critical-section.accounting-invariant"
  | StaleGeneration _ _ _ => "runtime.critical-section.stale-generation"
  | GenerationOverflow => "runtime.critical-section.generation-overflow"
  end.

Record HeldLock := mkHeld {
  held_owner : Z;
  held_generation : Z
}.

(** A [Waker] is its identity. *)
Record CriticalWaiter := mkWaiter {
  waiter_owner : Z;
  waiter_generation : Z;
  waiter_waker : Z
}.

Record CriticalState := mkCritical {
  generation : Z;
  wait_generation : Z;
  held : gmap string HeldLock;
  waiters : gmap string (list CriticalWaiter);
  waiter_count : Z
}.

Definition critical_default : CriticalState :=
  mkCritical generation_initial generation_initial ∅ ∅ 0.

Definition with_held (h : gmap string HeldLock) (s : CriticalState) : CriticalState :=
  mkCritical (generation s) (wait_generation s) h (waiters s) (waiter_count s).
Definition with_waiters (w : gmap string (list CriticalWaiter)) (s : CriticalState) : CriticalState :=
  mkCritical (generation s) (wait_generation s) (held s) w (waiter_count s).
Definition with_waiter_count (n : Z) (s : CriticalState) : CriticalState :=
  mkCritical (generation s) (wait_generation s) (held s) (waiters s) n.
Definition with_wait_generation (g : Z) (s : CriticalState) : CriticalState :=
  mkCritical (generation s) g (held s) (waiters s) (waiter_count s).
Definition with_generation (g : Z) (s : CriticalState) : CriticalState :=
  mkCritical g (wait_generation s) (held s) (waiters s) (waiter_count s).

Definition CM (A : Type) : Type := ST CriticalState CriticalSectionError A.

Definition modify (f : CriticalState -> CriticalState) : CM () := fun s => (Ok (), f s).

(** [held.len()] *)
Definition held_len (s : CriticalState) : Z := Z.of_nat (size (held s)).

(** The queue of a lock, empty when it has none. *)
Definition queue (s : CriticalState) (name : string) : list CriticalWaiter :=
  default [] (waiters s !! name).

(** ** Guards *)

Definition validate_lock_name (name : string) : result CriticalSectionError () :=
  let len := Z.of_nat (String.length name) in
  if (len =? 0) || (MAX_LOCK_NAME_BYTES <? len) then Err InvalidName else Ok ().

Definition validate_owner (lifecycle_id : Z) : result CriticalSectionError () :=
  if lifecycle_id =? 0 then Err InvalidOwner else Ok ().

Definition validate_generation (g : Z) (name : string) : CM () :=
  do! s <- st_get in
  if generation s =? g then st_ret () else st_fail (StaleGeneration name (generation s) g).

Definition bump_wait_generation : CM () :=
  do! s <- st_get in
  match generation_next (wait_generation s) with
  | None => st_fail GenerationOverflow
  | Some next => modify (with_wait_generation next)
  end.

Definition held_by (h : HeldLock) (id g : Z) : bool :=
  (held_owner h =? id) && (held_generation h =? g).

Definition is_waiter (id g : Z) (w : CriticalWaiter) : bool :=
  (waiter_owner w =? id) && (waiter_generation w =? g).

(** The waiter found first gets the new waker. *)
Fixpoint refresh_queue (id g waker : Z) (q : list CriticalWaiter) : list CriticalWaiter :=
  match q with
  | [] => []
  | w :: rest =>
      if is_waiter id g w then mkWaiter (waiter_owner w) (waiter_generation w) waker :: rest
      else w :: refresh_queue id g waker rest
  end.

Definition refresh (name : string) (id g waker : Z) (s : CriticalState) : CriticalState :=
  with_waiters (alter (refresh_queue id g waker) name (waiters s)) s.

(** The queue [q] of [name] is stored, or removed when it is empty. *)
Definition store_queue (name : string) (q : list CriticalWaiter) (s : CriticalState) : CriticalState :=
  with_waiters (match q with [] => delete name (waiters s) | _ => <[name := q]> (waiters s) end) s.

Definition grant (name : string) (id g : Z) (s : CriticalState) : CriticalState :=
  with_held (<[name := mkHeld id g]> (held s)) s.

(** ** Transitions under the mutex *)

Section limits.
Context (max_held max_waiters : Z).

Definition try_acquire_locked (name : string) (id : Z) : CM () :=
  do! s <- st_get in
  match held s !! name with
  | Some h => st_fail (Busy name (held_owner h))
  | None =>
      match queue s name with
      | _ :: _ => st_fail (Queued name)
      | [] =>
          if max_held <=? held_len s then st_fail (Capacity max_held)
          else modify (grant name id (generation s))
      end
  end.

Definition release_locked (name : string) (id : Z) : CM () :=
  do! s <- st_get in
  match held s !! name with
  | Some h =>
      if held_by h id (generation s) then
        (if waiter_count s =? 0 then st_ret () else bump_wait_generation) ;!
        modify (fun s => with_held (delete name (held s)) s)
      else st_fail (NotOwner name (held_owner h))
  | None => st_fail (NotOwner name id)
  end.

(** [Poll<Result<(), E>>] of an acquisition: [Ready(Err)] is the error of the
    computation, the other two are its values. *)
Inductive poll := Acquired | Pending.

(** The head of the queue enters a free section. *)
Definition admit_front (name : string) (id g waker : Z) : CM poll :=
  do! s <- st_get in
  if max_held <=? held_len s then modify (refresh name id g waker) ;! st_ret Pending
  else
    bump_wait_generation ;!
    do! count <- st_lift (ok_or (u64_checked_sub (waiter_count s) 1) AccountingInvariant) in
    do! s <- st_get in
    match waiters s !! name with
    | None => st_fail AccountingInvariant
    | Some q =>
        modify (store_queue name (tail q)) ;!
        modify (with_waiter_count count) ;!
        modify (grant name id g) ;!
        st_ret Acquired
    end.

(** A new waiter at the end of the queue. *)
Definition enqueue (name : string) (id g waker : Z) : CM poll :=
  do! s <- st_get in
  if max_waiters <=? waiter_count s then st_fail (WaiterCapacity max_waiters)
  else
    do! count <- st_lift (ok_or (u64_checked_add (waiter_count s) 1) AccountingInvariant) in
    bump_wait_generation ;!
    modify (fun s => with_waiters (<[name := queue s name ++ [mkWaiter id g waker]]> (waiters s)) s) ;!
    modify (with_waiter_count count) ;!
    st_ret Pending.

Definition poll_acquire_locked (name : string) (id g waker : Z) : CM poll :=
  do! s <- st_get in
  match held s !! name with
  | Some h =>
      if held_by h id g then st_fail (Busy name (held_owner h))
      else if existsb (is_waiter id g) (queue s name) then
        modify (refresh name id g waker) ;! st_ret Pending
      else enqueue name id g waker
  | None =>
      match queue s name with
      | front :: _ =>
          if is_waiter id g front then admit_front name id g waker
          else if existsb (is_waiter id g) (queue s name) then
            modify (refresh name id g waker) ;! st_ret Pending
          else enqueue name id g waker
      | [] =>
          if max_held <=? held_len s then st_fail (Capacity max_held)
          else modify (grant name id g) ;! st_ret Acquired
      end
  end.

Definition next_waiter_waker (s : CriticalState) (name : string) : list Z :=
  match queue s name with w :: _ => [waiter_waker w] | [] => [] end.

(** The fronts of the queues of free locks, in the order of their names. *)
Definition eligible (s : CriticalState) : list (string * CriticalWaiter) :=
  omap (fun '(name, q) =>
          match q, held s !! name with w :: _, None => Some (name, w) | _, _ => None end)
    (in_name_order (waiters s)).

Definition available_waiter_wakers (s : CriticalState) : list Z :=
  match u64_checked_sub max_held (held_len s) with
  | None => []
  | Some available => take (Z.to_nat available) (map (fun nw => waiter_waker nw.2) (eligible s))
  end.

Definition cancel_waiter_locked (name : string) (id g : Z) : CM bool :=
  do! s <- st_get in
  match waiters s !! name with
  | None => st_ret false
  | Some q =>
      match list_find (fun w => is_waiter id g w = true) q with
      | None => st_ret false
      | Some (index, _) =>
          bump_wait_generation ;!
          do! s <- st_get in
          match waiters s !! name with
          | None => st_fail AccountingInvariant
          | Some q =>
              let q := delete index q in
              modify (fun s => with_waiters (<[name := q]> (waiters s)) s) ;!
              do! s <- st_get in
              do! count <- st_lift (ok_or (u64_checked_sub (waiter_count s) 1) AccountingInvariant) in
              modify (with_waiter_count count) ;!
              modify (fun s => match q with [] => with_waiters (delete name (waiters s)) s | _ => s end) ;!
              st_ret true
          end
      end
  end.

(** ** The coordinator's methods *)

Definition guarded {A} (name : string) (id : Z) (m : CM A) : CM A :=
  st_lift (validate_lock_name name) ;! st_lift (validate_owner id) ;! m.

Definition try_acquire (name : string) (id : Z) : CM () :=
  guarded name id (try_acquire_locked name id).

Definition try_acquire_generation (name : string) (id g : Z) : CM () :=
  guarded name id (validate_generation g name ;! try_acquire_locked name id).

(** A method that wakes returns the wakers it invokes. *)
Definition release (name : string) (id : Z) : CM (list Z) :=
  guarded name id
    (release_locked name id ;! do! s <- st_get in st_ret (available_waiter_wakers s)).

Definition release_generation (name : string) (id g : Z) : CM () :=
  guarded name id (validate_generation g name ;! release_locked name id).

Definition poll_acquire_generation (name : string) (id g waker : Z) : CM poll :=
  guarded name id (validate_generation g name ;! poll_acquire_locked name id g waker).

Definition poll_acquire (name : string) (id waker : Z) : CM poll :=
  do! s <- st_get in poll_acquire_generation name id (generation s) waker.

Definition cancel_acquire_generation (name : string) (id g : Z) : CM (bool * list Z) :=
  guarded name id
    (validate_generation g name ;!
     do! canceled <- cancel_waiter_locked name id g in
     do! s <- st_get in
     st_ret (canceled, if canceled : bool then next_waiter_waker s name else [])).

Definition cancel_acquire (name : string) (id : Z) : CM (bool * list Z) :=
  do! s <- st_get in cancel_acquire_generation name id (generation s).

(** The owner reported by a refused [advance_generation]. *)
Definition blocking_owner (s : CriticalState) : Z :=
  match in_name_order (held s) with
  | (_, h) :: _ => held_owner h
  | [] =>
      match omap (fun nq : string * list CriticalWaiter => head nq.2) (in_name_order (waiters s)) with
      | w :: _ => waiter_owner w
      | [] => 1
      end
  end.

Definition advance_generation : CM Z :=
  do! s <- st_get in
  if negb (bool_decide (held s = ∅)) || negb (waiter_count s =? 0) then
    st_fail (Busy "generation" (blocking_owner s))
  else
    do! g <- st_lift (ok_or (generation_next (generation s)) GenerationOverflow) in
    bump_wait_generation ;!
    modify (with_generation g) ;!
    st_ret g.

End limits.

(** ** The contract of a fair lock

    What one named lock promises, as a step relation on its owner and the
    queue of those waiting for it. *)

Inductive lock_event := Acquire (id : Z) | Wait (id : Z) | Leave (id : Z) | Release (id : Z).

Inductive lock_step : option Z * list Z -> lock_event -> option Z * list Z -> Prop :=
| ls_take id : lock_step (None, []) (Acquire id) (Some id, [])
| ls_admit id q : lock_step (None, id :: q) (Acquire id) (Some id, q)
| ls_wait o q id : id ∈ q -> lock_step (o, q) (Wait id) (o, q)
| ls_enqueue o q id :
    id ∉ q -> o <> Some id -> (o, q) <> (None, []) -> lock_step (o, q) (Wait id) (o, q ++ [id])
| ls_leave o q1 q2 id : lock_step (o, q1 ++ id :: q2) (Leave id) (o, q1 ++ q2)
| ls_release id q : lock_step (Some id, q) (Release id) (None, q).

(** A step of the lock service: an event of one lock, or nothing. *)
Definition service_step (abs : string -> option Z * list Z) (ev : option (string * lock_event))
    (abs' : string -> option Z * list Z) : Prop :=
  match ev with
  | None => forall n, abs' n = abs n
  | Some (name, e) => lock_step (abs name) e (abs' name) /\ forall n, n <> name -> abs' n = abs n
  end.

(** ** The invariant *)

Definition owners (q : list CriticalWaiter) : list Z := map waiter_owner q.

Definition lock_view (s : CriticalState) (name : string) : option Z * list Z :=
  (held_owner <$> held s !! name, owners (queue s name)).

Definition total (m : gmap string (list CriticalWaiter)) : Z :=
  foldr (fun nq n => Z.of_nat (length nq.2) + n) 0 (map_to_list m).

(** No one waits twice, and the owner does not wait. *)
Definition lock_ok (l : option Z * list Z) : Prop :=
  NoDup l.2 /\ forall id, l.1 = Some id -> id ∉ l.2.

Record crit_ok (max_held max_waiters : Z) (s : CriticalState) : Prop := {
  co_count : waiter_count s = total (waiters s);
  co_nonempty n q : waiters s !! n = Some q -> q <> [];
  co_waiter n w : w ∈ queue s n -> waiter_generation w = generation s;
  co_holder n h : held s !! n = Some h -> held_generation h = generation s;
  co_lock n : lock_ok (lock_view s n);
  co_held : held_len s <= max_held;
  co_waiters : waiter_count s <= max_waiters
}.

(** ** Counting *)

Lemma total_perm (l l' : list (string * list CriticalWaiter)) :
  l ≡ₚ l' ->
  foldr (fun nq n => Z.of_nat (length nq.2) + n) 0 l = foldr (fun nq n => Z.of_nat (length nq.2) + n) 0 l'.
Proof. induction 1; simpl; lia. Qed.

Lemma total_insert m n q : m !! n = None -> total (<[n := q]> m) = Z.of_nat (length q) + total m.
Proof. intros Hn. unfold total. by rewrite (total_perm _ _ (map_to_list_insert m n q Hn)). Qed.

Lemma total_delete m n : total m = Z.of_nat (length (default [] (m !! n))) + total (delete n m).
Proof.
  destruct (m !! n) as [q|] eqn:E; simpl.
  - rewrite <- (total_insert (delete n m) n q) by apply lookup_delete_eq. by rewrite insert_delete_id.
  - by rewrite delete_id.
Qed.

Lemma total_replace m n q :
  total (<[n := q]> m) = total m - Z.of_nat (length (default [] (m !! n))) + Z.of_nat (length q).
Proof.
  rewrite (total_delete m n), <- insert_delete_eq, total_insert by apply lookup_delete_eq. lia.
Qed.

Lemma total_nonneg m : 0 <= total m.
Proof. unfold total. induction (map_to_list m); simpl; lia. Qed.

Lemma total_zero m : total m = 0 -> (forall n q, m !! n = Some q -> q <> []) -> m = ∅.
Proof.
  intros Ht Hne. apply map_empty. intros n. destruct (m !! n) as [q|] eqn:E; [|done].
  exfalso. pose proof (total_delete m n) as H. rewrite E in H. simpl in H.
  pose proof (total_nonneg (delete n m)). specialize (Hne n q E).
  destruct q; [done|]. simpl in H. lia.
Qed.

(** ** Queues after an update *)

Lemma queue_insert s n q n' :
  queue (with_waiters (<[n := q]> (waiters s)) s) n' = if decide (n = n') then q else queue s n'.
Proof.
  unfold queue. simpl. case_decide; subst; [by rewrite lookup_insert_eq|by rewrite lookup_insert_ne].
Qed.

Lemma queue_store s n q n' : queue (store_queue n q s) n' = if decide (n = n') then q else queue s n'.
Proof.
  unfold store_queue. destruct q; [|apply queue_insert]. unfold queue. simpl.
  case_decide; subst; [by rewrite lookup_delete_eq|by rewrite lookup_delete_ne].
Qed.

Lemma store_queue_snoc n q w s :
  store_queue n (q ++ [w]) s = with_waiters (<[n := q ++ [w]]> (waiters s)) s.
Proof. by destruct q. Qed.

Lemma store_total n q s :
  total (waiters (store_queue n q s)) = total (waiters s) - Z.of_nat (length (queue s n)) + Z.of_nat (length q).
Proof.
  unfold store_queue, queue. destruct q as [|w q]; simpl waiters; [|apply total_replace].
  rewrite (total_delete (waiters s) n). simpl. lia.
Qed.

Lemma store_nonempty n q s :
  (forall n' q', waiters s !! n' = Some q' -> q' <> []) ->
  forall n' q', waiters (store_queue n q s) !! n' = Some q' -> q' <> [].
Proof.
  intros H n' q'. unfold store_queue. destruct q as [|w q]; simpl.
  - intros [_ ?]%lookup_delete_Some. eauto.
  - intros [[_ <-]|[_ ?]]%lookup_insert_Some; [done|eauto].
Qed.

Lemma refresh_owners id g waker q : owners (refresh_queue id g waker q) = owners q.
Proof. induction q; simpl; [done|]. case_if; simpl; by rewrite ?IHq. Qed.

Lemma refresh_generation id g waker q w :
  w ∈ refresh_queue id g waker q -> exists w', w' ∈ q /\ waiter_generation w' = waiter_generation w.
Proof.
  induction q as [|a q IH]; simpl; [by intros ?%not_elem_of_nil|].
  case_if; intros [->|H]%elem_of_cons.
  - exists a. split; [by left|done].
  - exists w. split; [by right|done].
  - exists a. split; [by left|done].
  - apply IH in H as (w' & ? & ?). exists w'. split; [by right|done].
Qed.

Lemma refresh_queue_of n id g waker s n' :
  queue (refresh n id g waker s) n'
  = if decide (n = n') then refresh_queue id g waker (queue s n') else queue s n'.
Proof.
  unfold queue, refresh. simpl. case_decide; subst.
  - rewrite lookup_alter_eq. by destruct (waiters s !! n').
  - by rewrite lookup_alter_ne.
Qed.

Lemma refresh_length id g waker q : length (refresh_queue id g waker q) = length q.
Proof. induction q; simpl; [done|]. case_if; simpl; lia. Qed.

Lemma refresh_total n id g waker s : total (waiters (refresh n id g waker s)) = total (waiters s).
Proof.
  unfold refresh. simpl. destruct (waiters s !! n) as [q|] eqn:E.
  - rewrite (total_delete (alter _ _ _) n), (total_delete (waiters s) n), lookup_alter_eq, E.
    rewrite delete_alter_eq. simpl. by rewrite refresh_length.
  - f_equal. apply map_eq. intros i. destruct (decide (n = i)) as [->|].
    + by rewrite lookup_alter_eq, E.
    + by rewrite lookup_alter_ne.
Qed.

(** ** The changes of state

    Every operation makes one of these changes; [g'] is the wait generation
    it leaves. *)

Section changes.
Context (max_held max_waiters : Z).

Inductive change (s : CriticalState) : option (string * lock_event) -> CriticalState -> Prop :=
| ch_none : change s None s
| ch_grant n id :
    held s !! n = None -> queue s n = [] -> held_len s < max_held ->
    change s (Some (n, Acquire id)) (grant n id (generation s) s)
| ch_admit n w q g' :
    held s !! n = None -> queue s n = w :: q -> held_len s < max_held ->
    change s (Some (n, Acquire (waiter_owner w)))
      (grant n (waiter_owner w) (generation s)
         (with_waiter_count (waiter_count s - 1) (store_queue n q (with_wait_generation g' s))))
| ch_refresh n id waker :
    id ∈ owners (queue s n) ->
    change s (Some (n, Wait id)) (refresh n id (generation s) waker s)
| ch_enqueue n id waker g' :
    id ∉ owners (queue s n) -> held_owner <$> held s !! n <> Some id ->
    lock_view s n <> (None, []) -> waiter_count s < max_waiters ->
    change s (Some (n, Wait id))
      (with_waiter_count (waiter_count s + 1)
         (store_queue n (queue s n ++ [mkWaiter id (generation s) waker]) (with_wait_generation g' s)))
| ch_leave n i w g' :
    queue s n !! i = Some w ->
    change s (Some (n, Leave (waiter_owner w)))
      (with_waiter_count (waiter_count s - 1)
         (store_queue n (delete i (queue s n)) (with_wait_generation g' s)))
| ch_release n h g' :
    held s !! n = Some h ->
    change s (Some (n, Release (held_owner h)))
      (with_held (delete n (held s)) (with_wait_generation g' s))
| ch_advance g g' :
    held s = ∅ -> waiter_count s = 0 ->
    change s None (with_generation g (with_wait_generation g' s)).

Notation ok := (crit_ok max_held max_waiters).

Lemma grant_view n id g s n' :
  lock_view (grant n id g s) n'
  = if decide (n = n') then (Some id, owners (queue s n')) else lock_view s n'.
Proof.
  unfold lock_view, grant. simpl. case_decide; subst.
  - by rewrite lookup_insert_eq.
  - by rewrite lookup_insert_ne.
Qed.

Lemma store_view n q c s n' :
  lock_view (with_waiter_count c (store_queue n q s)) n'
  = if decide (n = n') then (held_owner <$> held s !! n', owners q) else lock_view s n'.
Proof.
  unfold lock_view. change (queue (with_waiter_count c (store_queue n q s)) n')
    with (queue (store_queue n q s) n'). rewrite queue_store. simpl. by case_decide.
Qed.

(** Each change is a step of the contract. *)
Lemma change_refines s ev s' :
  ok s -> change s ev s' -> service_step (lock_view s) ev (lock_view s').
Proof.
  intros Hok Hc. destruct Hc as [|n id Hh Hq|n w q g' Hh Hq|n id waker Hin|n id waker g' Hni Hho Hv|
    n i w g' Hi|n h g' Hh|g g' Hh Hw]; simpl; try done.
  - split; [|intros n' Hn; by rewrite grant_view, decide_False].
    rewrite grant_view, decide_True by done. unfold lock_view. rewrite Hh, Hq. constructor.
  - split; [|intros n' Hn; by rewrite grant_view, decide_False, store_view, decide_False].
    rewrite grant_view, decide_True by done. unfold lock_view. rewrite Hh, Hq.
    change (queue (with_waiter_count ?c ?x)) with (queue x). rewrite queue_store, decide_True by done.
    constructor.
  - assert (forall n', lock_view (refresh n id (generation s) waker s) n' = lock_view s n') as E.
    { intros n'. unfold lock_view. rewrite refresh_queue_of. simpl.
      case_decide; by rewrite ?refresh_owners. }
    split; [|intros n' Hn; apply E]. rewrite E. by constructor.
  - split; [|intros n' Hn; by rewrite store_view, decide_False].
    rewrite store_view, decide_True by done. unfold lock_view in *. simpl.
    unfold owners. rewrite map_app. by apply ls_enqueue.
  - split; [|intros n' Hn; by rewrite store_view, decide_False].
    rewrite store_view, decide_True by done. unfold lock_view. simpl.
    apply list_elem_of_split_length in Hi as (q1 & q2 & -> & ->).
    rewrite delete_middle. unfold owners. rewrite !map_app. simpl. constructor.
  - split.
    + unfold lock_view. simpl. rewrite lookup_delete_eq, Hh. simpl. constructor.
    + intros n' Hn. unfold lock_view. simpl. by rewrite lookup_delete_ne by done.
Qed.

Lemma lock_step_ok l e l' : lock_ok l -> lock_step l e l' -> lock_ok l'.
Proof.
  intros [Hd Ho] Hs. destruct Hs as [id|id q|o q id Hin|o q id Hni Hne Hno|o q1 q2 id|id q];
    simpl in *; split; simpl; auto.
  - intros ? [= <-]. apply not_elem_of_nil.
  - by apply NoDup_cons in Hd as [_ ?].
  - apply NoDup_cons in Hd as [? _]. by intros ? [= <-].
  - apply NoDup_app. split_and!; [done| |apply NoDup_singleton]. intros x Hx ->%list_elem_of_singleton. done.
  - intros x -> [Hx| ->%list_elem_of_singleton]%elem_of_app; [by eapply Ho|done].
  - apply NoDup_app in Hd as (H1 & H2 & H3). apply NoDup_cons in H3 as [H3 H4].
    apply NoDup_app. split_and!; [done| |done]. intros x Hx ?. eapply H2; [done|by right].
  - intros x -> Hx. apply (Ho x eq_refl). apply elem_of_app in Hx as [Hx|Hx]; apply elem_of_app; [by left|].
    right. by right.
  - done.
Qed.

Lemma change_lock_ok s ev s' :
  ok s -> change s ev s' -> forall n, lock_ok (lock_view s' n).
Proof.
  intros Hok Hc n. pose proof (change_refines _ _ _ Hok Hc) as Hr. pose proof (co_lock _ _ _ Hok n) as Hl.
  destruct ev as [[n' e]|]; simpl in Hr; [|by rewrite Hr].
  destruct Hr as [H1 H2]. destruct (decide (n = n')) as [->|Hn]; [by eapply lock_step_ok|by rewrite H2].
Qed.

(** The generations recorded with locks and waiters are those of the state. *)
Lemma change_generations s ev s' :
  ok s -> change s ev s' ->
  (forall n w, w ∈ queue s' n -> waiter_generation w = generation s') /\
  (forall n h, held s' !! n = Some h -> held_generation h = generation s').
Proof.
  intros Hok Hc. pose proof (co_waiter _ _ _ Hok) as Hw. pose proof (co_holder _ _ _ Hok) as Hh.
  assert (forall c n q x n' w,
    queue x = queue s -> (forall v, v ∈ q -> waiter_generation v = generation s) ->
    w ∈ queue (with_waiter_count c (store_queue n q x)) n' -> waiter_generation w = generation s) as Hst.
  { intros c n q x n' w Hx Hq. change (queue (with_waiter_count c (store_queue n q x)) n')
      with (queue (store_queue n q x) n'). rewrite queue_store, Hx. case_decide; [apply Hq|apply Hw]. }
  assert (forall n id n' h, <[n := mkHeld id (generation s)]> (held s) !! n' = Some h ->
    held_generation h = generation s) as Hg
    by (intros ???? [[_ <-]|[_ ?]]%lookup_insert_Some; [done|eauto]).
  destruct Hc as [|n id Hf Hq|n w q g' Hf Hq|n id waker Hin|n id waker g' Hni Hho Hv|
    n i w g' Hi|n h g' Hf|g g' Hf Hz]; (split; [|try (done || apply Hg)]); try done.
  - intros n' w' Hx. eapply (Hst (waiter_count s - 1) n q (with_wait_generation g' s)); [done| |exact Hx].
    intros v Hv. apply (Hw n). rewrite Hq. by right.
  - intros n' w'. rewrite refresh_queue_of. case_decide; [|apply Hw].
    intros (w2 & H2 & <-)%refresh_generation. by apply (Hw n').
  - intros n' w' Hx. eapply (Hst _ n _ (with_wait_generation g' s)); [done| |exact Hx].
    intros v [Hv'| ->%list_elem_of_singleton]%elem_of_app; [by apply (Hw n)|done].
  - intros n' w' Hx. eapply (Hst _ n _ (with_wait_generation g' s)); [done| |exact Hx].
    intros v Hv. apply (Hw n). by eapply list_elem_of_delete_inv.
  - simpl. intros n' h' [_ ?]%lookup_delete_Some. eauto.
  - intros n w Hx. exfalso. rewrite (co_count _ _ _ Hok) in Hz.
    apply total_zero in Hz; [|apply (co_nonempty _ _ _ Hok)].
    change (queue _ n) with (queue s n) in Hx. unfold queue in Hx. rewrite Hz, lookup_empty in Hx.
    by apply not_elem_of_nil in Hx.
  - simpl. rewrite Hf. intros n h. by rewrite lookup_empty.
Qed.

Lemma held_len_insert n h (m : gmap string HeldLock) :
  m !! n = None -> Z.of_nat (size (<[n := h]> m)) = Z.of_nat (size m) + 1.
Proof. intros H. rewrite map_size_insert_None by done. lia. Qed.

Lemma held_len_delete n (m : gmap string HeldLock) : Z.of_nat (size (delete n m)) <= Z.of_nat (size m).
Proof.
  destruct (m !! n) eqn:E; [rewrite map_size_delete_Some by done|rewrite map_size_delete_None by done]; lia.
Qed.

(** Every change keeps the invariant. *)
Lemma change_ok s ev s' : ok s -> change s ev s' -> ok s'.
Proof.
  intros Hok Hc. pose proof (change_generations _ _ _ Hok Hc) as [Hw Hh].
  pose proof (change_lock_ok _ _ _ Hok Hc) as Hl.
  destruct Hok as [Hcount Hne _ _ _ Hheld Hwait]. unfold held_len in *.
  destruct Hc as [|n id Hf Hq Hlt|n w q g' Hf Hq Hlt|n id waker Hin|n id waker g' Hni Hho Hv Hlt|
    n i w g' Hi|n h g' Hf|g g' Hf Hz]; split; try done; unfold held_len in *; simpl in *; try lia.
  - rewrite held_len_insert by done. lia.
  - pose proof (store_total n q (with_wait_generation g' s)) as Ht.
    change (queue (with_wait_generation g' s) n) with (queue s n) in Ht. rewrite Hq in Ht. simpl in Ht. lia.
  - by apply (store_nonempty n q (with_wait_generation g' s)).
  - rewrite held_len_insert by (by destruct q). destruct q; simpl; lia.
  - pose proof (refresh_total n id (generation s) waker s) as Ht. simpl in Ht. congruence.
  - intros n' q' Hx. destruct (decide (n = n')) as [->|].
    + rewrite lookup_alter_eq in Hx. destruct (waiters s !! n') as [q|] eqn:E; [|done].
      simplify_eq/=. specialize (Hne _ _ E). destruct q; [done|]. simpl. by case_if.
    + rewrite lookup_alter_ne in Hx by done. eauto.
  - pose proof (store_total n (queue s n ++ [mkWaiter id (generation s) waker]) (with_wait_generation g' s))
      as Ht. rewrite length_app in Ht.
    change (queue (with_wait_generation g' s) n) with (queue s n) in Ht. simpl in Ht. lia.
  - apply (store_nonempty n _ (with_wait_generation g' s)). done.
  - pose proof (store_total n (delete i (queue s n)) (with_wait_generation g' s)) as Ht.
    pose proof (lookup_lt_Some _ _ _ Hi). rewrite length_delete in Ht by eauto.
    change (queue (with_wait_generation g' s) n) with (queue s n) in Ht. simpl in Ht. lia.
  - by apply (store_nonempty n _ (with_wait_generation g' s)).

  - pose proof (held_len_delete n (held s)). lia.
Qed.

End changes.

(** ** The operations *)

Inductive crit_op :=
| OTryAcquire (name : string) (id : Z)
| OTryAcquireGeneration (name : string) (id g : Z)
| ORelease (name : string) (id : Z)
| OReleaseGeneration (name : string) (id g : Z)
| OPollAcquire (name : string) (id waker : Z)
| OPollAcquireGeneration (name : string) (id g waker : Z)
| OCancelAcquire (name : string) (id : Z)
| OCancelAcquireGeneration (name : string) (id g : Z)
| OAdvanceGeneration.

(** What the caller of an operation learns, as an event of the contract. *)
Definition polled (name : string) (id : Z) (p : poll) : option (string * lock_event) :=
  Some (name, match p with Acquired => Acquire id | Pending => Wait id end).

Definition left_queue (name : string) (id : Z) (canceled : bool) : option (string * lock_event) :=
  if canceled then Some (name, Leave id) else None.

Definition apply_crit (mh mw : Z) (o : crit_op) : CM (option (string * lock_event) * list Z) :=
  match o with
  | OTryAcquire n id => try_acquire mh n id ;! st_ret (Some (n, Acquire id), [])
  | OTryAcquireGeneration n id g => try_acquire_generation mh n id g ;! st_ret (Some (n, Acquire id), [])
  | ORelease n id => do! woken <- release mh n id in st_ret (Some (n, Release id), woken)
  | OReleaseGeneration n id g => release_generation n id g ;! st_ret (Some (n, Release id), [])
  | OPollAcquire n id w => do! p <- poll_acquire mh mw n id w in st_ret (polled n id p, [])
  | OPollAcquireGeneration n id g w =>
      do! p <- poll_acquire_generation mh mw n id g w in st_ret (polled n id p, [])
  | OCancelAcquire n id => do! r <- cancel_acquire n id in st_ret (left_queue n id r.1, r.2)
  | OCancelAcquireGeneration n id g =>
      do! r <- cancel_acquire_generation n id g in st_ret (left_queue n id r.1, r.2)
  | OAdvanceGeneration => do! _ <- advance_generation in st_ret (None, [])
  end.

Section operations.
Context (mh mw : Z).
Context (Hmw : mw <= MAX_CRITICAL_WAITERS).
Notation ok := (crit_ok mh mw).

(** An operation makes a change that its value announces, or fails and changes
    nothing; it never reports its own accounting as broken. *)
Definition moves {A} (s : CriticalState) (f : A -> option (string * lock_event))
    (r : result CriticalSectionError A * CriticalState) : Prop :=
  match r with
  | (Ok a, s') => change mh mw s (f a) s'
  | (Err e, s') => s' = s /\ e <> AccountingInvariant
  | (OutOfFuel, _) => False
  end.

Lemma moves_map {A B} (m : CM A) (k : A -> B) (f : A -> _) (f' : B -> _) s :
  moves s f (m s) -> (forall a, f' (k a) = f a) -> moves s f' ((do! a <- m in st_ret (k a)) s).
Proof. intros H Hf. unfold st_bind, st_ret. destruct (m s) as [[a|e|] s1]; simpl in *; rewrite ?Hf; done. Qed.

Lemma moves_guarded {A} n id (m : CM A) f s : moves s f (m s) -> moves s f (guarded n id m s).
Proof.
  intros H. unfold guarded, st_bind, st_lift, validate_lock_name, validate_owner.
  case_if; [done|]. case_if; done.
Qed.

Lemma moves_generation {A} g n (m : CM A) f s :
  (generation s = g -> moves s f (m s)) -> moves s f ((validate_generation g n ;! m) s).
Proof.
  intros H. unfold st_bind at 1, validate_generation, st_bind, st_get.
  destruct (Z.eqb_spec (generation s) g); simpl; [auto|done].
Qed.

Lemma bump_cases s :
  (exists g', bump_wait_generation s = (Ok (), with_wait_generation g' s)) \/
  bump_wait_generation s = (Err GenerationOverflow, s).
Proof.
  unfold bump_wait_generation, st_bind, st_get.
  destruct (generation_next (wait_generation s)); [left; by eexists|by right].
Qed.

Lemma try_acquire_locked_moves n id s :
  moves s (fun _ => Some (n, Acquire id)) (try_acquire_locked mh n id s).
Proof.
  unfold try_acquire_locked, st_bind, st_get, st_fail, modify.
  destruct (held s !! n) eqn:Eh; [done|]. destruct (queue s n) eqn:Eq; [|done].
  case_if; [done|]. by constructor.
Qed.

Lemma release_locked_moves n id s :
  moves s (fun _ => Some (n, Release id)) (release_locked n id s).
Proof.
  unfold release_locked, st_bind at 1, st_get. destruct (held s !! n) as [h|] eqn:Eh; [|done].
  unfold held_by. destruct (Z.eqb_spec (held_owner h) id) as [<-|]; [|done]. simpl.
  case_if; [|done]. unfold st_bind, modify, st_ret.
  case_if; [pose proof (ch_release mh mw s n h (wait_generation s) Eh); by destruct s|].
  destruct (bump_cases s) as [[g' ->]| ->]; [by apply (ch_release mh mw s n h g')|done].
Qed.

(** Waiters of the current generation are found by their owner. *)
Lemma waiter_found s n id :
  ok s -> existsb (is_waiter id (generation s)) (queue s n) = bool_decide (id ∈ owners (queue s n)).
Proof.
  intros Hok. pose proof (co_waiter _ _ _ Hok n) as Hg. revert Hg.
  induction (queue s n) as [|w q IH]; intros Hg; simpl; [done|].
  rewrite IH by (intros; apply Hg; by right). unfold is_waiter.
  rewrite (Hg w) by (by left). rewrite Z.eqb_refl, andb_true_r.
  destruct (Z.eqb_spec (waiter_owner w) id) as [->|]; simpl.
  - symmetry. apply bool_decide_eq_true. by left.
  - apply bool_decide_ext. rewrite elem_of_cons. naive_solver.
Qed.

Lemma enqueue_moves s n id waker :
  ok s -> id ∉ owners (queue s n) -> held_owner <$> held s !! n <> Some id ->
  lock_view s n <> (None, []) ->
  moves s (polled n id) (enqueue mw n id (generation s) waker s).
Proof.
  intros Hok Hni Hho Hv. unfold enqueue, st_bind at 1, st_get. case_if; [done|].
  pose proof (total_nonneg (waiters s)). pose proof (co_count _ _ _ Hok).
  unfold st_bind, st_lift, modify, st_ret.
  assert (u64_checked_add (waiter_count s) 1 = Some (waiter_count s + 1)) as ->.
  { apply u64_checked_add_Some. unfold u64_max, MAX_CRITICAL_WAITERS in *. lia. }
  simpl. destruct (bump_cases s) as [[g' ->]| ->]; [|done]. simpl.
  pose proof (ch_enqueue mh mw s n id waker g' Hni Hho Hv ltac:(lia)) as Hc.
  rewrite store_queue_snoc in Hc. exact Hc.
Qed.

Lemma admit_moves s n w q waker :
  ok s -> held s !! n = None -> queue s n = w :: q ->
  moves s (polled n (waiter_owner w)) (admit_front mh n (waiter_owner w) (generation s) waker s).
Proof.
  intros Hok Hh Hq. unfold admit_front, st_bind at 1, st_get.
  assert (waiters s !! n = Some (w :: q)) as Hw.
  { unfold queue in Hq. destruct (waiters s !! n); simpl in Hq; congruence. }
  case_if.
  - unfold st_bind, modify, st_ret. simpl. constructor. rewrite Hq. by left.
  - unfold st_bind, st_lift, modify, st_ret.
    destruct (bump_cases s) as [[g' ->]| ->]; [|done].
    pose proof (total_delete (waiters s) n) as Ht. rewrite Hw in Ht. simpl in Ht.
    pose proof (total_nonneg (delete n (waiters s))). pose proof (co_count _ _ _ Hok).
    assert (u64_checked_sub (waiter_count s) 1 = Some (waiter_count s - 1)) as ->
      by (apply u64_checked_sub_Some; lia).
    simpl. rewrite Hw. simpl. constructor; [done..|lia].
Qed.

Lemma poll_acquire_locked_moves s n id waker :
  ok s -> moves s (polled n id) (poll_acquire_locked mh mw n id (generation s) waker s).
Proof.
  intros Hok. unfold poll_acquire_locked, st_bind at 1, st_get.
  rewrite !waiter_found by done. pose proof (co_waiter _ _ _ Hok n) as Hg.
  assert (id ∈ owners (queue s n) ->
    moves s (polled n id) ((modify (refresh n id (generation s) waker) ;! st_ret Pending) s)) as Hr
    by (intros Hin; by constructor).
  destruct (held s !! n) as [h|] eqn:Eh.
  - unfold held_by. rewrite (co_holder _ _ _ Hok n h Eh), Z.eqb_refl, andb_true_r.
    destruct (Z.eqb_spec (held_owner h) id) as [|Hne]; [done|].
    case_bool_decide; [auto|]. apply enqueue_moves; try done; unfold lock_view; rewrite Eh; simpl; congruence.
  - destruct (queue s n) as [|w q] eqn:Eq.
    + case_if; [done|]. by constructor.
    + unfold is_waiter at 1. rewrite (Hg w) by (by left). rewrite Z.eqb_refl, andb_true_r.
      destruct (Z.eqb_spec (waiter_owner w) id) as [<-|Hne].
      * by eapply admit_moves.
      * rewrite <- Eq in *. case_bool_decide; [auto|].
        apply enqueue_moves; try done; unfold lock_view; rewrite Eh; [done|]. by rewrite Eq.
Qed.

Lemma cancel_waiter_locked_moves s n id :
  ok s -> moves s (left_queue n id) (cancel_waiter_locked n id (generation s) s).
Proof.
  intros Hok. unfold cancel_waiter_locked, st_bind at 1, st_get.
  destruct (waiters s !! n) as [q|] eqn:Ew; [|constructor].
  assert (queue s n = q) as Hq by (unfold queue; by rewrite Ew).
  destruct (list_find _ q) as [[i w]|] eqn:Ef; [|constructor].
  apply list_find_Some in Ef as (Hi & Hw & _).
  assert (waiter_owner w = id) as <-.
  { by apply andb_prop in Hw as [?%Z.eqb_eq _]. }
  unfold st_bind, st_lift, modify, st_ret. destruct (bump_cases s) as [[g' ->]| ->]; [|done]. simpl.
  rewrite Ew. simpl.
  pose proof (total_delete (waiters s) n) as Ht. rewrite Ew in Ht. simpl in Ht.
  pose proof (total_nonneg (delete n (waiters s))). pose proof (co_count _ _ _ Hok).
  pose proof (lookup_lt_Some _ _ _ Hi).
  assert (u64_checked_sub (waiter_count s) 1 = Some (waiter_count s - 1)) as ->
    by (apply u64_checked_sub_Some; lia).
  simpl. pose proof (ch_leave mh mw s n i w g') as Hc. rewrite Hq in Hc. specialize (Hc Hi).
  unfold store_queue in Hc. simpl in Hc. destruct (delete i q); [|exact Hc].
  unfold with_waiters, with_waiter_count in *. simpl in *. by rewrite delete_insert_eq.
Qed.

Lemma advance_generation_moves s : ok s -> moves s (fun _ => None) (advance_generation s).
Proof.
  intros Hok. unfold advance_generation, st_bind at 1, st_get. case_bool_decide as Hh; simpl; [|done].
  destruct (Z.eqb_spec (waiter_count s) 0) as [Hz|]; simpl; [|done].
  unfold st_bind, st_lift, modify, st_ret.
  destruct (generation_next (generation s)) as [g|]; simpl; [|done].
  destruct (bump_cases s) as [[g' ->]| ->]; [|done]. by constructor.
Qed.

Lemma release_moves n id s :
  moves s (fun _ => Some (n, Release id)) (release mh n id s).
Proof.
  apply moves_guarded. pose proof (release_locked_moves n id s) as H. unfold st_bind, st_get, st_ret.
  by destruct (release_locked n id s) as [[[]|e|] s1].
Qed.

Lemma cancel_moves n id g s :
  ok s -> moves s (fun r => left_queue n id r.1) (cancel_acquire_generation n id g s).
Proof.
  intros Hok. apply moves_guarded, moves_generation. intros <-.
  pose proof (cancel_waiter_locked_moves s n id Hok) as H. unfold st_bind, st_get, st_ret.
  by destruct (cancel_waiter_locked n id (generation s) s) as [[b|e|] s1].
Qed.

Lemma poll_moves n id g w s :
  ok s -> moves s (polled n id) (poll_acquire_generation mh mw n id g w s).
Proof. intros Hok. apply moves_guarded, moves_generation. intros <-. by apply poll_acquire_locked_moves. Qed.

Lemma apply_crit_moves o s : ok s -> moves s fst (apply_crit mh mw o s).
Proof.
  intros Hok. destruct o; simpl.
  - apply (moves_map _ (fun _ => _) (fun _ => Some (name, Acquire id))); [|done].
    apply moves_guarded, try_acquire_locked_moves.
  - apply (moves_map _ (fun _ => _) (fun _ => Some (name, Acquire id))); [|done].
    apply moves_guarded, moves_generation. intros _. apply try_acquire_locked_moves.
  - eapply moves_map; [apply release_moves|done].
  - apply (moves_map _ (fun _ => _) (fun _ => Some (name, Release id))); [|done].
    apply moves_guarded, moves_generation. intros _. apply release_locked_moves.
  - eapply moves_map; [by apply (poll_moves name id (generation s) waker)|done].
  - eapply moves_map; [by apply poll_moves|done].
  - eapply moves_map; [by apply (cancel_moves name id (generation s))|done].
  - eapply moves_map; [by apply cancel_moves|done].
  - eapply moves_map; [by apply advance_generation_moves|done].
Qed.

End operations.

Lemma crit_default_ok mh mw : 0 <= mh -> 0 <= mw -> crit_ok mh mw critical_default.
Proof.
  intros Hm Hw. split; simpl; try done.
  - intros n w. unfold queue. simpl. rewrite lookup_empty. by intros ?%not_elem_of_nil.
  - intros n. unfold lock_view, queue. simpl. rewrite !lookup_empty. split; [constructor|done].
Qed.

(** ** Histories *)

(** The events of a history of operations, and the state it ends in. *)
Fixpoint history (mh mw : Z) (ops : list crit_op) (s : CriticalState) :
    list (string * lock_event) * CriticalState :=
  match ops with
  | [] => ([], s)
  | o :: rest =>
      let '(r, s1) := apply_crit mh mw o s in
      let '(evs, s2) := history mh mw rest s1 in
      (match r with Ok (Some ev, _) => ev :: evs | _ => evs end, s2)
  end.

(** Steps of the contract in sequence. *)
Inductive service_steps :
  (string -> option Z * list Z) -> list (string * lock_event) -> (string -> option Z * list Z) -> Prop :=
| ss_nil abs abs' : (forall n, abs' n = abs n) -> service_steps abs [] abs'
| ss_cons abs ev abs1 evs abs2 :
    service_step abs (Some ev) abs1 -> service_steps abs1 evs abs2 -> service_steps abs (ev :: evs) abs2.

Lemma service_steps_ext abs0 abs evs abs' :
  (forall n, abs n = abs0 n) -> service_steps abs evs abs' -> service_steps abs0 evs abs'.
Proof.
  intros E H. destruct H as [abs abs' H|abs [n e] abs1 evs abs2 [H1 H2] H].
  - constructor. intros n. by rewrite H, E.
  - econstructor; [|done]. split; [by rewrite <- E|]. intros m Hm. by rewrite H2, E.
Qed.

Lemma history_refines mh mw ops s :
  mw <= MAX_CRITICAL_WAITERS -> crit_ok mh mw s ->
  let '(evs, s') := history mh mw ops s in
  service_steps (lock_view s) evs (lock_view s') /\ crit_ok mh mw s'.
Proof.
  intros Hmw. revert s. induction ops as [|o ops IH]; intros s Hok; simpl; [split; [by constructor|done]|].
  pose proof (apply_crit_moves mh mw Hmw o s Hok) as Hm.
  destruct (apply_crit mh mw o s) as [[[ev ws]|e|] s1]; simpl in Hm; [| |done].
  - pose proof (change_ok _ _ _ _ _ Hok Hm) as Hok1. pose proof (change_refines _ _ _ _ _ Hok Hm) as Hr.
    specialize (IH s1 Hok1). destruct (history mh mw ops s1) as [evs s2]. destruct IH as [IH ?].
    split; [|done]. destruct ev as [ev|]; [by econstructor|by eapply service_steps_ext].
  - destruct Hm as [-> _]. specialize (IH s Hok). by destruct (history mh mw ops s) as [evs s2].
Qed.



(** ** Exclusion and fairness *)

Lemma held_until_release n a abs evs abs' :
  service_steps abs evs abs' -> (abs n).1 = Some a -> (n, Release a) ∉ evs ->
  (abs' n).1 = Some a /\ forall b, (n, Acquire b) ∉ evs.
Proof.
  induction 1 as [abs abs' E|abs [m e] abs1 evs abs2 [H1 H2] H IH]; intros Ha Hr.
  - rewrite E. split; [done|]. intros b. apply not_elem_of_nil.
  - apply not_elem_of_cons in Hr as [Hr1 Hr2].
    assert ((abs1 n).1 = Some a /\ forall b, (m, e) <> (n, Acquire b)) as [H1a Hnb].
    { destruct (decide (n = m)) as [<-|Hn]; [|rewrite H2 by done; split; [done|congruence]].
      destruct H1; simpl in *; split; try congruence. }
    destruct IH as [IH1 IH2]; [done|done|]. split; [done|]. intros b.
    apply not_elem_of_cons. split; [|apply IH2]. intros E. by eapply Hnb.
Qed.

(** [b] does not come before [a] in a queue that holds [a]. *)
Definition not_before (b a : Z) (q : list Z) : Prop :=
  exists q1 q2, q = q1 ++ a :: q2 /\ b ∉ q1.

Lemma not_before_leave b a q1 id q2 :
  a <> id -> not_before b a (q1 ++ id :: q2) -> not_before b a (q1 ++ q2).
Proof.
  intros Hne (p1 & p2 & E & Hb). apply app_eq_app in E as (k & [[-> E]|[-> E]]).
  - destruct k as [|c k]; simplify_eq/=.
    exists p1, (k ++ q2). by rewrite <- app_assoc.
  - destruct k as [|c k]; simplify_eq/=.
    exists (q1 ++ k), p2. rewrite <- app_assoc. split; [done|].
    rewrite !elem_of_app, elem_of_cons in *. naive_solver.
Qed.

Lemma lock_step_not_before l e l' a b :
  lock_step l e l' -> a <> b -> not_before b a l.2 -> e <> Acquire a -> e <> Leave a ->
  not_before b a l'.2 /\ e <> Acquire b.
Proof.
  intros Hs Hab Hq Ha Hl.
  destruct Hs as [id|id q|o q id Hin|o q id Hni Hne Hno|o q1 q2 id|id q]; simpl in *;
    try (split; [done|congruence]).
  - destruct Hq as ([|] & ? & ? & _); simplify_eq.
  - destruct Hq as ([|c q1] & q2 & E & Hb); simplify_eq/=.
    apply not_elem_of_cons in Hb as [Hb1 Hb2]. split; [by exists q1, q2|congruence].
  - split; [|congruence]. destruct Hq as (q1 & q2 & -> & Hb). exists q1, (q2 ++ [id]).
    by rewrite <- app_assoc.
  - split; [|congruence]. eapply not_before_leave; [|done]. congruence.
Qed.

Lemma queued_before n a b abs evs abs' :
  service_steps abs evs abs' -> a <> b -> not_before b a (abs n).2 ->
  (n, Acquire a) ∉ evs -> (n, Leave a) ∉ evs -> (n, Acquire b) ∉ evs.
Proof.
  intros H Hab. induction H as [abs abs' E|abs [m e] abs1 evs abs2 [H1 H2] H IH]; intros Hq Hna Hnl.
  - apply not_elem_of_nil.
  - apply not_elem_of_cons in Hna as [Ha1 Ha2]. apply not_elem_of_cons in Hnl as [Hl1 Hl2].
    assert (not_before b a (abs1 n).2 /\ (m, e) <> (n, Acquire b)) as [Hq1 Hnb].
    { destruct (decide (n = m)) as [<-|Hn]; [|rewrite H2 by done; split; [done|congruence]].
      destruct (lock_step_not_before _ _ _ a b H1) as [? ?]; try done; try congruence.
      split; [done|congruence]. }
    apply not_elem_of_cons. split; [done|by apply IH].
Qed.

(** Mutual exclusion and fairness, over any continuation of any valid state.
    While [a] holds a lock and does not release it, nobody acquires it.  While
    [a] waits for a lock and neither acquires it nor gives up, nobody who is
    not already ahead of [a] acquires it: neither someone queued behind nor a
    newcomer, whichever acquisition they use. *)
Theorem lock_exclusive_and_fair (mh mw : Z) (ops : list crit_op) (s : CriticalState) (n : string) (a : Z) :
  mw <= MAX_CRITICAL_WAITERS -> crit_ok mh mw s ->
  let evs := (history mh mw ops s).1 in
  (held_owner <$> held s !! n = Some a -> (n, Release a) ∉ evs -> forall b, (n, Acquire b) ∉ evs) /\
  (forall b, a <> b -> not_before b a (owners (queue s n)) ->
     (n, Acquire a) ∉ evs -> (n, Leave a) ∉ evs -> (n, Acquire b) ∉ evs).
Proof.
  intros Hmw Hok evs. subst evs. pose proof (history_refines mh mw ops s Hmw Hok) as H.
  destruct (history mh mw ops s) as [evs s']. destruct H as [H _]. simpl. split.
  - intros Ha Hr. by apply (held_until_release n a (lock_view s) evs (lock_view s')).
  - intros b Hab Hq Hna Hnl. by apply (queued_before n a b (lock_view s) evs (lock_view s')).
Qed.

(** Lock a is held by user 1, users 2 and 3 wait for it. *)
Definition contended : CriticalState :=
  (history 4 4 [OTryAcquire "a" 1; OPollAcquire "a" 2 20; OPollAcquire "a" 3 30] critical_default).2.

Lemma lock_exclusive_and_fair_witness :
  (history 4 4 [ORelease "a" 1; OPollAcquire "a" 3 30; OTryAcquire "a" 4] contended).1
    = [("a", Release 1); ("a", Wait 3)] /\
  ("a", Acquire 3) ∉ (history 4 4 [ORelease "a" 1; OPollAcquire "a" 3 30; OTryAcquire "a" 4] contended).1.
Proof.
  assert ((history 4 4 [ORelease "a" 1; OPollAcquire "a" 3 30; OTryAcquire "a" 4] contended).1
    = [("a", Release 1); ("a", Wait 3)]) as E by (vm_compute; reflexivity).
  split; [exact E|].
  apply (lock_exclusive_and_fair 4 4 [ORelease "a" 1; OPollAcquire "a" 3 30; OTryAcquire "a" 4] contended
           "a" 2).
  - unfold MAX_CRITICAL_WAITERS. lia.
  - pose proof (history_refines 4 4 [OTryAcquire "a" 1; OPollAcquire "a" 2 20; OPollAcquire "a" 3 30]
      critical_default ltac:(unfold MAX_CRITICAL_WAITERS; lia) (crit_default_ok 4 4 ltac:(lia) ltac:(lia))) as H.
    unfold contended. destruct (history 4 4 _ critical_default) as [evs s]. exact (proj2 H).
  - discriminate.
  - exists [], [3]. split; [vm_compute; reflexivity|apply not_elem_of_nil].
  - rewrite E, !list_elem_of_In. simpl. intuition discriminate.
  - rewrite E, !list_elem_of_In. simpl. intuition discriminate.
Defined.

(** ** Wake-ups *)

Lemma elem_of_eligible s m w :
  (m, w) ∈ eligible s <-> held s !! m = None /\ head (queue s m) = Some w.
Proof.
  unfold eligible. rewrite list_elem_of_omap. split.
  - intros ([n q] & Hin & E). apply elem_of_in_name_order in Hin. destruct q as [|w' q]; [done|].
    destruct (held s !! n) eqn:Eh; simplify_eq. unfold queue. by rewrite Hin.
  - intros [Hh Hq]. unfold queue in Hq. destruct (waiters s !! m) as [[|w' q]|] eqn:E; simplify_eq/=.
    exists (m, w :: q). rewrite elem_of_in_name_order. by rewrite Hh.
Qed.

Lemma release_Ok mh n id s woken s' :
  release mh n id s = (Ok woken, s') ->
  woken = available_waiter_wakers mh s' /\ release_locked n id s = (Ok (), s').
Proof.
  unfold release, guarded, st_bind, st_lift, st_get, st_ret.
  destruct (validate_lock_name n); try done. destruct (validate_owner id); try done.
  destruct (release_locked n id s) as [[[]|e|] s1]; try done. by intros [= <- <-].
Qed.

Lemma admit_eligible mh mw m w k s :
  crit_ok mh mw s -> (m, w) ∈ eligible s -> held_len s < mh -> wait_generation s < u64_max ->
  0 <= wait_generation s ->
  fst (poll_acquire_locked mh mw m (waiter_owner w) (generation s) k s) = Ok Acquired.
Proof.
  intros Hok [Hh Hq]%elem_of_eligible Hlt Hg H0.
  destruct (queue s m) as [|w' q] eqn:Eq; simplify_eq/=.
  assert (waiters s !! m = Some (w :: q)) as Hw.
  { unfold queue in Eq. destruct (waiters s !! m); simpl in Eq; congruence. }
  unfold poll_acquire_locked, st_bind at 1, st_get. rewrite Hh, Eq. unfold is_waiter at 1.
  rewrite (co_waiter _ _ _ Hok m w) by (rewrite Eq; by left). rewrite !Z.eqb_refl. simpl.
  unfold admit_front, st_bind at 1, st_get. rewrite (proj2 (Z.leb_gt _ _)) by done.
  assert (exists g', bump_wait_generation s = (Ok (), with_wait_generation g' s)) as [g' Hb].
  { unfold bump_wait_generation, st_bind, st_get, generation_next.
    rewrite (proj2 (u64_checked_add_Some (wait_generation s) 1 (wait_generation s + 1))) by lia.
    unfold generation_new. rewrite (proj2 (Z.eqb_neq _ _)) by lia. by eexists. }
  unfold st_bind, st_lift, modify, st_ret. rewrite Hb.
  pose proof (total_delete (waiters s) m) as Ht. rewrite Hw in Ht. simpl in Ht.
  pose proof (total_nonneg (delete m (waiters s))). pose proof (co_count _ _ _ Hok).
  rewrite (proj2 (u64_checked_sub_Some (waiter_count s) 1 (waiter_count s - 1))) by lia.
  simpl. by rewrite Hw.
Qed.

(** A release wakes whom it can help.  It leaves at least one slot free; the
    wakers it invokes are those of the first waiters of free locks, one per
    lock and as many as there are slots, so that someone is woken whenever
    someone can go on; and each of those waiters acquires its lock when it
    polls next. *)
Theorem release_wakes_admissible (mh mw : Z) (n : string) (id : Z) (s s' : CriticalState)
    (woken : list Z) :
  mw <= MAX_CRITICAL_WAITERS -> crit_ok mh mw s -> release mh n id s = (Ok woken, s') ->
  let slots := Z.to_nat (mh - held_len s') in
  (0 < slots)%nat /\
  woken = map (fun nw => waiter_waker nw.2) (take slots (eligible s')) /\
  (forall m w, (m, w) ∈ eligible s' <-> held s' !! m = None /\ head (queue s' m) = Some w) /\
  (forall m w k, (m, w) ∈ eligible s' -> 0 <= wait_generation s' < u64_max ->
     fst (poll_acquire_locked mh mw m (waiter_owner w) (generation s') k s') = Ok Acquired).
Proof.
  intros Hmw Hok Hr slots. subst slots. pose proof (release_moves mh mw n id s) as Hm. rewrite Hr in Hm.
  simpl in Hm. pose proof (change_ok _ _ _ _ _ Hok Hm) as Hok'. apply release_Ok in Hr as [-> Hrel].
  assert (held_len s' < mh) as Hlt.
  { inversion Hm as [| | | | | |n' h g' Hh|]; subst. pose proof (co_held _ _ _ Hok) as Hb.
    unfold held_len in *. simpl. rewrite map_size_delete_Some by eauto.
    assert (size (held s) <> 0%nat); [|lia].
    intros Hz. apply map_size_empty_inv in Hz. by rewrite Hz, lookup_empty in Hh. }
  split_and!; [lia| | |].
  - unfold available_waiter_wakers.
    rewrite (proj2 (u64_checked_sub_Some mh (held_len s') (mh - held_len s'))) by lia.
    apply firstn_map.
  - apply elem_of_eligible.
  - intros m w k Hel Hg. apply admit_eligible; try done; lia.
Qed.

Lemma release_wakes_admissible_witness :
  exists s', release 4 "a" 1 contended = (Ok [20], s') /\
  [20] = map (fun nw => waiter_waker nw.2) (take (Z.to_nat (4 - held_len s')) (eligible s')).
Proof.
  assert (exists s', release 4 "a" 1 contended = (Ok [20], s')) as [s' E]
    by (eexists; vm_compute; reflexivity).
  exists s'. split; [exact E|].
  apply (release_wakes_admissible 4 4 "a" 1 contended s' [20]).
  - unfold MAX_CRITICAL_WAITERS. lia.
  - pose proof (history_refines 4 4 [OTryAcquire "a" 1; OPollAcquire "a" 2 20; OPollAcquire "a" 3 30]
      critical_default ltac:(unfold MAX_CRITICAL_WAITERS; lia) (crit_default_ok 4 4 ltac:(lia) ltac:(lia))) as H.
    unfold contended. destruct (history 4 4 _ critical_default) as [evs s]. exact (proj2 H).
  - exact E.
Defined.

(** The wakers invoked by a history, in order. *)
Fixpoint woken_by (mh mw : Z) (ops : list crit_op) (s : CriticalState) : list Z :=
  match ops with
  | [] => []
  | o :: rest =>
      let '(r, s1) := apply_crit mh mw o s in
      match r with Ok (_, woken) => woken | _ => [] end ++ woken_by mh mw rest s1
  end.

(** One lock at a time: user 2 waits for b and is woken by its release, but c
    is taken first; the release of c wakes user 2 again, who gives up. *)
Definition slot_declined : list crit_op :=
  [OTryAcquire "b" 1; OPollAcquire "b" 2 20; ORelease "b" 1;
   OTryAcquire "c" 4; OPollAcquire "c" 3 30; ORelease "c" 4;
   OCancelAcquire "b" 2].

(** Two ways to be forgotten.  When the waiter woken for the only free slot
    gives up, the cancellation offers the slot to the queue of the same lock
    only: user 3, first in line for a free lock with a slot to spare, is not
    woken, then or before.  And a release through [release_generation] wakes
    nobody at all, unlike [release]. *)
Theorem waiters_left_asleep :
  (let '(evs, s) := history 1 4 slot_declined critical_default in
   held s = ∅ /\ map (fun nw => (nw.1, waiter_owner nw.2)) (eligible s) = [("c", 3)] /\
   evs = [("b", Acquire 1); ("b", Wait 2); ("b", Release 1); ("c", Acquire 4); ("c", Wait 3);
          ("c", Release 4); ("b", Leave 2)]) /\
  woken_by 1 4 slot_declined critical_default = [20; 20] /\
  (let ops := [OTryAcquire "a" 1; OPollAcquire "a" 2 20; OReleaseGeneration "a" 1 1] in
   held (history 4 4 ops critical_default).2 = ∅ /\
   map (fun nw => (nw.1, waiter_owner nw.2)) (eligible (history 4 4 ops critical_default).2) = [("a", 2)] /\
   woken_by 4 4 ops critical_default = []).
Proof. vm_compute. split_and!; reflexivity. Qed.
