(* ===== verification/Barrier.v ===== *)
(** * Synchronizing barriers

    Models [DeterministicSynchronizingCoordinator] of
    [crates/runtime/src/coordination.rs]: barriers at which a given number of
    users meet, with timeouts, cancellation, completion and reuse in
    generations, and the requests of [crates/runtime/src/timers.rs] it is asked
    with.  Each method runs under the coordinator's mutex and is one atomic
    operation; the wakers it invokes afterwards are part of its result. *)

From S2P Require Import Prelude Control Coordination.

(** ** Requests: [crates/runtime/src/timers.rs] *)

Inductive SynchronizingOutcome := Released | TimedOut.

#[global] Instance SynchronizingOutcome_eq_dec : EqDecision SynchronizingOutcome.
Proof. solve_decision. Defined.

(** A group size of [None] asks for the size of the current thread group. *)
Record SynchronizingRequest := mkRequest {
  req_name : string;
  req_group_size : option Z;
  req_timeout : Z;
  req_now : Z;
  req_participant : string;
  req_thread_name : string;
  req_thread_group : option string;
  req_thread_number : option Z;
  req_lifecycle_id : option Z
}.

(** ** Errors: [ComponentError] of [crates/runtime/src/execution.rs] *)

Inductive ComponentError :=
| Failure (message : string)
| Unsupported (message : string)
| ControlRequested (signal : ControlSignal)
| ResourceLimit (message : string)
| Poisoned (message : string)
| Combined (primary secondary : ComponentError).

(** ** State *)

Definition MAX_BARRIER_NAME_BYTES : Z := 4096.
Definition MAX_BARRIER_GROUP_BYTES : Z := 4096.
Definition MAX_BARRIER_PARTICIPANT_BYTES : Z := 4096.
Definition MAX_BARRIER_PARTICIPANTS : Z := 65536.
Definition MAX_BARRIER_SLOTS : Z := 65536.

(** The name and the group of a barrier. *)
Definition BarrierKey : Type := string * option string.

Record BarrierSlot := mkSlot {
  slot_generation : Z;
  slot_expected : Z;
  slot_deadline : option Z;
  arrivals : gmap string Z;
  retired : gset string;
  slot_outcome : option SynchronizingOutcome
}.

(** A lease is the generation it was taken in. *)
Record BarrierState := mkBarrier {
  slots : gmap BarrierKey BarrierSlot;
  next_generation : gmap BarrierKey Z;
  generation_overflow : gset BarrierKey;
  configured_group_sizes : gmap string Z;
  leases : gmap (BarrierKey * string) Z;
  participant_count : Z;
  wait_generation : Z;
  wait_generation_overflow : bool
}.

Definition barrier_default : BarrierState :=
  mkBarrier ∅ ∅ ∅ ∅ ∅ 0 generation_initial false.

Definition barrier_limits (max_slots max_participants : Z) : Z * Z :=
  (Z.min max_slots MAX_BARRIER_SLOTS, Z.min max_participants MAX_BARRIER_PARTICIPANTS).

Definition with_slots v s := mkBarrier v (next_generation s) (generation_overflow s)
  (configured_group_sizes s) (leases s) (participant_count s) (wait_generation s)
  (wait_generation_overflow s).
Definition with_next_generation v s := mkBarrier (slots s) v (generation_overflow s)
  (configured_group_sizes s) (leases s) (participant_count s) (wait_generation s)
  (wait_generation_overflow s).
Definition with_generation_overflow v s := mkBarrier (slots s) (next_generation s) v
  (configured_group_sizes s) (leases s) (participant_count s) (wait_generation s)
  (wait_generation_overflow s).
Definition with_group_sizes v s := mkBarrier (slots s) (next_generation s) (generation_overflow s)
  v (leases s) (participant_count s) (wait_generation s) (wait_generation_overflow s).
Definition with_leases v s := mkBarrier (slots s) (next_generation s) (generation_overflow s)
  (configured_group_sizes s) v (participant_count s) (wait_generation s) (wait_generation_overflow s).
Definition with_participants v s := mkBarrier (slots s) (next_generation s) (generation_overflow s)
  (configured_group_sizes s) (leases s) v (wait_generation s) (wait_generation_overflow s).
Definition with_wait_generation v s := mkBarrier (slots s) (next_generation s) (generation_overflow s)
  (configured_group_sizes s) (leases s) (participant_count s) v (wait_generation_overflow s).
Definition with_wait_overflow v s := mkBarrier (slots s) (next_generation s) (generation_overflow s)
  (configured_group_sizes s) (leases s) (participant_count s) (wait_generation s) v.

(** Changes of one slot *)
Definition update_slot (key : BarrierKey) (f : BarrierSlot -> BarrierSlot) (s : BarrierState) : BarrierState :=
  with_slots (alter f key (slots s)) s.
Definition with_arrivals (f : gmap string Z -> gmap string Z) (b : BarrierSlot) : BarrierSlot :=
  mkSlot (slot_generation b) (slot_expected b) (slot_deadline b) (f (arrivals b)) (retired b) (slot_outcome b).
Definition retire (p : string) (b : BarrierSlot) : BarrierSlot :=
  mkSlot (slot_generation b) (slot_expected b) (slot_deadline b) (arrivals b) ({[p]} ∪ retired b)
    (slot_outcome b).
Definition settle (o : SynchronizingOutcome) (b : BarrierSlot) : BarrierSlot :=
  mkSlot (slot_generation b) (slot_expected b) (slot_deadline b) (arrivals b) (retired b) (Some o).

(** The wakers of a slot in the order of the participants. *)
Definition arrival_wakers (b : BarrierSlot) : list Z := map snd (in_name_order (arrivals b)).

Definition BM (A : Type) : Type := ST BarrierState ComponentError A.

Definition modify (f : BarrierState -> BarrierState) : BM () := fun s => (Ok (), f s).

Definition too_long (text : string) (limit : Z) : bool :=
  let len := Z.of_nat (String.length text) in (len =? 0) || (limit <? len).

Definition is_zero (v : option Z) : bool := match v with Some n => n =? 0 | None => false end.

(** [key_for] *)
Definition key_for (request : SynchronizingRequest) : result ComponentError BarrierKey :=
  if too_long (req_name request) MAX_BARRIER_NAME_BYTES then
    Err (Failure "invalid synchronizing barrier name")
  else if too_long (req_participant request) MAX_BARRIER_PARTICIPANT_BYTES
          || is_zero (req_thread_number request) || is_zero (req_lifecycle_id request) then
    Err (Failure "invalid synchronizing participant identity")
  else
    match req_group_size request with
    | Some _ => Ok (req_name request, None)
    | None =>
        match req_thread_group request with
        | None => Err (Unsupported "current-thread-group barrier requires a thread-group identity")
        | Some group =>
            if too_long group MAX_BARRIER_GROUP_BYTES then
              Err (Failure "invalid synchronizing thread-group identity")
            else Ok (req_name request, Some group)
        end
    end.

(** [expected_size] *)
Definition expected_size (s : BarrierState) (request : SynchronizingRequest) : result ComponentError Z :=
  let? size :=
    match req_group_size request with
    | Some size => Ok size
    | None =>
        ok_or (req_thread_group request ≫= fun group => configured_group_sizes s !! group)
          (Unsupported "current-thread-group barrier requires a registered participant count")
    end in
  if (size =? 0) || (MAX_BARRIER_PARTICIPANTS <? size)
  then Err (ResourceLimit "synchronizing participant capacity") else Ok size.

(** [bump_barrier_wait_generation] *)
Definition bump_barrier_wait_generation : BM () :=
  do! s <- st_get in
  match generation_next (wait_generation s) with
  | Some next => modify (with_wait_generation next)
  | None =>
      modify (with_wait_overflow true) ;! st_fail (ResourceLimit "synchronizing barrier wait generation")
  end.

(** [advance_barrier_generation] *)
Definition advance_barrier_generation (key : BarrierKey) : BM () :=
  do! s <- st_get in
  match next_generation s !! key with
  | None => st_fail (Failure "synchronizing barrier generation accounting invariant")
  | Some current =>
      match generation_next current with
      | None =>
          modify (with_generation_overflow ({[key]} ∪ generation_overflow s)) ;!
          st_fail (ResourceLimit "synchronizing barrier generation")
      | Some g => modify (with_next_generation (<[key := g]> (next_generation s)))
      end
  end.

(** [register_thread_group], [unregister_thread_group]; a size is not zero. *)
Definition register_thread_group (max_slots max_participants : Z) (group : string) (count : Z) : BM () :=
  if too_long group MAX_BARRIER_GROUP_BYTES then st_fail (Failure "synchronizing thread-group identity")
  else if max_participants <? count then st_fail (ResourceLimit "synchronizing participant capacity")
  else
    do! s <- st_get in
    if bool_decide (configured_group_sizes s !! group = None)
       && (max_slots <=? Z.of_nat (size (configured_group_sizes s)))
    then st_fail (ResourceLimit "synchronizing thread-group capacity")
    else modify (with_group_sizes (<[group := count]> (configured_group_sizes s))).

Definition unregister_thread_group (group : string) (s : BarrierState) : bool * BarrierState :=
  (bool_decide (is_Some (configured_group_sizes s !! group)),
   with_group_sizes (delete group (configured_group_sizes s)) s).

(** ** Arrival *)

(** [Poll<Result<SynchronizingOutcome, E>>]: [Ready(Err)] is the error of the
    computation.  The list holds the wakers that are invoked. *)
Inductive arrival := Done (outcome : SynchronizingOutcome) | Waiting.

Definition slot_missing : ComponentError := Failure "synchronizing barrier slot missing".

Definition get_slot (key : BarrierKey) : BM BarrierSlot :=
  do! s <- st_get in st_lift (ok_or (slots s !! key) slot_missing).

(** The slot ends with [TimedOut] and wakes who waits in it. *)
Definition time_out (key : BarrierKey) : BM (arrival * list Z) :=
  do! slot <- get_slot key in
  modify (update_slot key (settle TimedOut)) ;!
  st_ret (Done TimedOut, arrival_wakers slot).

(** A lease is taken and counted. *)
Definition take_lease (key : BarrierKey) (p : string) (g : Z) : BM () :=
  modify (fun s => with_leases (<[(key, p) := g]> (leases s)) s) ;!
  do! s <- st_get in
  do! count <- st_lift (ok_or (u64_checked_add (participant_count s) 1)
                          (Failure "synchronizing barrier participant accounting invariant")) in
  modify (with_participants count).

(** A participant that holds a lease polls again. *)
Definition poll_again (key : BarrierKey) (p : string) (waker : Z) (expired : bool) :
    BM (arrival * list Z) :=
  do! s <- st_get in
  if expired && match slots s !! key with
                | Some slot => bool_decide (slot_outcome slot = None)
                | None => false
                end
  then bump_barrier_wait_generation ;! time_out key
  else
    match slots s !! key ≫= slot_outcome with
    | Some outcome => st_ret (Done outcome, [])
    | None =>
        do! slot <- get_slot key in
        do! _ <- st_lift (ok_or (arrivals slot !! p)
                            (Failure "synchronizing participant lease accounting invariant")) in
        modify (update_slot key (with_arrivals (insert p waker))) ;!
        st_ret (Waiting, [])
    end.

Section limits.
Context (max_slots max_participants : Z).

(** An arrival at a slot that is settled. *)
Definition arrive_late (key : BarrierKey) (p : string) (outcome : SynchronizingOutcome) :
    BM (arrival * list Z) :=
  if bool_decide (outcome <> TimedOut) then
    st_fail (Failure "synchronizing barrier generation is closed")
  else
    do! slot <- get_slot key in
    if bool_decide (p ∈ retired slot) then
      st_fail (Failure "synchronizing participant was canceled for the current generation")
    else if max_participants <=? Z.of_nat (size (retired slot)) then
      st_fail (ResourceLimit "synchronizing participant capacity")
    else
      bump_barrier_wait_generation ;!
      do! _ <- get_slot key in
      modify (update_slot key (retire p)) ;!
      st_ret (Done outcome, []).

(** An arrival after the deadline of an open slot. *)
Definition arrive_expired (key : BarrierKey) (p : string) (g : Z) : BM (arrival * list Z) :=
  bump_barrier_wait_generation ;! take_lease key p g ;! time_out key.

(** An arrival in time; the last one releases the barrier. *)
Definition arrive (key : BarrierKey) (p : string) (g expected : Z) (deadline : option Z) (waker : Z) :
    BM (arrival * list Z) :=
  bump_barrier_wait_generation ;!
  modify (fun s =>
    match slots s !! key with
    | Some _ => s
    | None => with_slots (<[key := mkSlot g expected deadline ∅ ∅ None]> (slots s)) s
    end) ;!
  take_lease key p g ;!
  do! _ <- get_slot key in
  modify (update_slot key (with_arrivals (insert p waker))) ;!
  do! slot <- get_slot key in
  if slot_expected slot <=? Z.of_nat (size (arrivals slot)) then
    modify (update_slot key (settle Released)) ;!
    st_ret (Done Released, arrival_wakers slot)
  else st_ret (Waiting, []).

(** The absolute deadline a request asks for. *)
Definition requested_deadline (request : SynchronizingRequest) : result ComponentError (option Z) :=
  if req_timeout request =? 0 then Ok None
  else
    let? d := ok_or (duration_checked_add (req_now request) (req_timeout request))
                (ResourceLimit "synchronizing barrier deadline") in
    Ok (Some d).

Definition slot_expired (s : BarrierState) (key : BarrierKey) (now : Z) : bool :=
  match slots s !! key ≫= slot_deadline with Some d => d <=? now | None => false end.

(** The admission checks that follow the resolution of the barrier's
    generation, and the arrival itself. *)
Definition admit_participant (key : BarrierKey) (g expected : Z) (deadline : option Z)
    (request : SynchronizingRequest) (waker : Z) : BM (arrival * list Z) :=
  let p := req_participant request in
  do! s <- st_get in
  if match slots s !! key with Some slot => negb (slot_expected slot =? expected) | None => false end then
    st_fail (Failure "synchronizing barrier participant count changed within a generation")
  else if match leases s !! (key, p) with Some lease => negb (lease =? g) | None => false end then
    st_fail (Failure "synchronizing participant reused before its prior arrival completed")
  else
    let has_lease := bool_decide (is_Some (leases s !! (key, p))) in
    if negb has_lease && (max_participants <=? participant_count s) then
      st_fail (ResourceLimit "synchronizing participant capacity")
    else
      let expired := slot_expired s key (req_now request) in
      if has_lease then poll_again key p waker expired
      else
        match slots s !! key ≫= slot_outcome with
        | Some outcome => arrive_late key p outcome
        | None =>
            if expired then arrive_expired key p g
            else arrive key p g expected deadline waker
        end.

(** [poll_arrival] *)
Definition poll_arrival (request : SynchronizingRequest) (waker : Z) : BM (arrival * list Z) :=
  do! key <- st_lift (key_for request) in
  do! s <- st_get in
  if wait_generation_overflow s then
    st_fail (ResourceLimit "synchronizing barrier wait generation")
  else
    do! expected <- st_lift (expected_size s request) in
    if max_participants <? expected then
      st_fail (ResourceLimit "synchronizing participant capacity")
    else if bool_decide (slots s !! key = None)
            && ((max_slots <=? Z.of_nat (size (slots s)))
                || (bool_decide (next_generation s !! key = None)
                    && (max_slots <=? Z.of_nat (size (next_generation s)))))
    then st_fail (ResourceLimit "synchronizing barrier capacity")
    else if bool_decide (key ∈ generation_overflow s) then
      st_fail (ResourceLimit "synchronizing barrier generation")
    else
      let g := default generation_initial (next_generation s !! key) in
      modify (with_next_generation (<[key := g]> (next_generation s))) ;!
      do! deadline <- st_lift (requested_deadline request) in
      admit_participant key g expected deadline request waker.

End limits.

(** ** Leaving *)

(** Whether some participant holds a lease of the barrier. *)
Definition leased (s : BarrierState) (key : BarrierKey) : bool :=
  existsb (fun l => bool_decide (l.1.1 = key)) (map_to_list (leases s)).

(** A slot without arrivals and leases is removed, and the next arrival opens
    the next generation. *)
Definition remove_drained (key : BarrierKey) (s : BarrierState) : BarrierState :=
  match slots s !! key with
  | None => s
  | Some slot =>
      if bool_decide (arrivals slot = ∅) && negb (leased s key) then
        match advance_barrier_generation key (with_slots (delete key (slots s)) s) with
        | (Ok _, s') => s'
        | (_, s') => with_generation_overflow ({[key]} ∪ generation_overflow s') s'
        end
      else s
  end.

(** [participant_count.checked_sub(1)] with its fallback *)
Definition uncount (s : BarrierState) : BarrierState :=
  match u64_checked_sub (participant_count s) 1 with
  | Some count => with_participants count s
  | None => with_wait_overflow true s
  end.

(** [wait_generation_overflow |= bump_barrier_wait_generation(..).is_err()] *)
Definition bump_or_overflow (s : BarrierState) : BarrierState :=
  match bump_barrier_wait_generation s with
  | (Ok _, s') => s'
  | (_, s') => with_wait_overflow true s'
  end.

(** [cancel] *)
Definition cancel (request : SynchronizingRequest) (s : BarrierState) : BarrierState * list Z :=
  let p := req_participant request in
  match key_for request with
  | Ok key =>
      match leases s !! (key, p) with
      | None => (s, [])
      | Some lease =>
          let s := with_leases (delete (key, p) (leases s)) s in
          let removed :=
            match slots s !! key with
            | Some slot => (slot_generation slot =? lease) && bool_decide (is_Some (arrivals slot !! p))
            | None => false
            end in
          let s := if removed then update_slot key (with_arrivals (delete p)) s else s in
          let s := uncount s in
          let s := if removed then update_slot key (retire p) s else s in
          let '(s, wake) :=
            match slots s !! key with
            | Some slot =>
                if removed && bool_decide (slot_outcome slot = None) then
                  (update_slot key (settle TimedOut) (bump_or_overflow s), arrival_wakers slot)
                else (s, [])
            | None => (s, [])
            end in
          (remove_drained key s, wake)
      end
  | _ => (s, [])
  end.

(** [complete] *)
Definition complete_slot (p : string) (outcome : SynchronizingOutcome) (b : BarrierSlot) : BarrierSlot :=
  let b := match slot_outcome b with None => settle outcome b | Some _ => b end in
  let b := with_arrivals (delete p) b in
  if bool_decide (slot_outcome b = Some TimedOut) then retire p b else b.

Definition complete (request : SynchronizingRequest) (outcome : SynchronizingOutcome) (s : BarrierState) :
    BarrierState :=
  let p := req_participant request in
  match key_for request with
  | Ok key =>
      match leases s !! (key, p) with
      | None => s
      | Some lease =>
          let s := with_leases (delete (key, p) (leases s)) s in
          let s := uncount (bump_or_overflow s) in
          let s := update_slot key
                     (fun slot => if slot_generation slot =? lease then complete_slot p outcome slot else slot) s in
          remove_drained key s
      end
  | _ => s
  end.

(** [generation]: that of the open slot, or the next one. *)
Definition barrier_generation (s : BarrierState) (key : BarrierKey) : option Z :=
  match slots s !! key with
  | Some slot => Some (slot_generation slot)
  | None => next_generation s !! key
  end.

(** ** The invariant *)

(** One barrier: its slot, its next generation and its leases.  A slot is
    there while someone holds a lease, is of the next generation, and is not
    full while it is open; its arrivals hold leases, and the leases without an
    arrival are of a settled slot. *)
Definition key_ok (slot : option BarrierSlot) (next : option Z) (lease : string -> option Z) : Prop :=
  match slot with
  | None => forall p, lease p = None
  | Some b =>
      next = Some (slot_generation b) /\
      (exists p, is_Some (lease p)) /\
      (forall p g, lease p = Some g ->
         g = slot_generation b /\ (is_Some (arrivals b !! p) \/ slot_outcome b <> None)) /\
      (forall p, is_Some (arrivals b !! p) -> is_Some (lease p)) /\
      (slot_outcome b = None -> Z.of_nat (size (arrivals b)) < slot_expected b)
  end.

#[global] Instance key_ok_proper : Proper (eq ==> eq ==> pointwise_relation _ eq ==> iff) key_ok.
Proof.
  intros slot _ <- next _ <- l l' Hl. unfold pointwise_relation in Hl. unfold key_ok.
  destruct slot; setoid_rewrite Hl; done.
Qed.

Definition lease_of (s : BarrierState) (key : BarrierKey) (p : string) : option Z := leases s !! (key, p).

Definition key_ok_at (s : BarrierState) (key : BarrierKey) : Prop :=
  key_ok (slots s !! key) (next_generation s !! key) (lease_of s key).

Record barrier_ok (max_participants : Z) (s : BarrierState) : Prop := {
  bo_key key : key_ok_at s key;
  bo_count : participant_count s = Z.of_nat (size (leases s));
  bo_bound : participant_count s <= max_participants
}.

(** A generation that has ended with an outcome, and one that is over. *)
Definition settled (s : BarrierState) (key : BarrierKey) (g : Z) (o : SynchronizingOutcome) : Prop :=
  exists b, slots s !! key = Some b /\ slot_generation b = g /\ slot_outcome b = Some o.

Definition over (s : BarrierState) (key : BarrierKey) (g : Z) : Prop :=
  key ∈ generation_overflow s \/ exists g', next_generation s !! key = Some g' /\ g < g'.

(** Outcomes are final. *)
Record persists (s s' : BarrierState) : Prop := {
  ps_settled key g o : settled s key g o -> settled s' key g o \/ over s' key g;
  ps_over key g : over s key g -> over s' key g
}.

#[global] Instance persists_preorder : PreOrder persists.
Proof.
  split.
  - intros s. split; auto.
  - intros s1 s2 s3 [H1 H2] [H3 H4]. split; [|auto].
    intros key g o [H|H]%H1; auto.
Qed.

(** Other barriers are left alone. *)
Definition elsewhere (key : BarrierKey) (s s' : BarrierState) : Prop :=
  (forall k, k <> key ->
    slots s' !! k = slots s !! k /\ next_generation s' !! k = next_generation s !! k /\
    forall p, lease_of s' k p = lease_of s k p) /\
  generation_overflow s ⊆ generation_overflow s'.

Section invariant.
Context (max_slots mp : Z).
Notation ok := (barrier_ok mp).

(** A good transition of the coordinator. *)
Definition good (s s' : BarrierState) : Prop := ok s' /\ persists s s'.

Lemma good_trans s1 s2 s3 : good s1 s2 -> good s2 s3 -> good s1 s3.
Proof. intros [_ H1] [H2 H3]. split; [done|by etrans]. Qed.

Lemma good_refl s : ok s -> good s s.
Proof. intros. split; [done|reflexivity]. Qed.

Lemma good_intro key s s' :
  ok s -> elsewhere key s s' -> key_ok_at s' key ->
  participant_count s' = Z.of_nat (size (leases s')) -> participant_count s' <= mp ->
  (forall g o, settled s key g o -> settled s' key g o \/ over s' key g) ->
  (forall g g', next_generation s !! key = Some g' -> g < g' -> over s' key g) ->
  good s s'.
Proof.
  intros Hok [He Ho] Hk Hc Hb Hset Hov. split.
  - split; [|done|done]. intros k. destruct (decide (k = key)) as [->|Hn]; [done|].
    destruct (He k Hn) as (E1 & E2 & E3). pose proof (bo_key _ _ Hok k) as H.
    unfold key_ok_at in *. rewrite E1, E2.
    by rewrite (E3 : pointwise_relation _ eq (lease_of s' k) (lease_of s k)).
  - split.
    + intros k g o (b & H1 & H2 & H3). destruct (decide (k = key)) as [->|Hn]; [apply Hset; by exists b|].
      destruct (He k Hn) as (E1 & _ & _). left. exists b. by rewrite E1.
    + intros k g [H|(g' & H1 & H2)]; [left; set_solver|].
      destruct (decide (k = key)) as [->|Hn]; [by eapply Hov|].
      destruct (He k Hn) as (_ & E2 & _). right. exists g'. by rewrite E2.
Qed.

(** Changes of fields that the invariant does not look at. *)
Definition same_core (s s' : BarrierState) : Prop :=
  slots s' = slots s /\ next_generation s' = next_generation s /\ leases s' = leases s /\
  participant_count s' = participant_count s /\ generation_overflow s ⊆ generation_overflow s'.

Lemma same_core_good s s' : ok s -> same_core s s' -> good s s'.
Proof.
  intros Hok (E1 & E2 & E3 & E4 & E5).
  assert (forall key, settled s' key = settled s key) as Hs by (intros; unfold settled; by rewrite E1).
  split.
  - destruct Hok as [H1 H2 H3]. split; unfold key_ok_at, lease_of in *; rewrite ?E1, ?E2, ?E3, ?E4; done.
  - split; intros key g; rewrite ?Hs; [auto|]. unfold over. rewrite E2. set_solver.
Qed.

Lemma bump_barrier_cases s :
  (exists s1, bump_barrier_wait_generation s = (Ok (), s1) /\ same_core s s1) \/
  (exists s1, bump_barrier_wait_generation s
     = (Err (ResourceLimit "synchronizing barrier wait generation"), s1) /\ same_core s s1).
Proof.
  unfold bump_barrier_wait_generation, st_bind, st_get, modify, st_fail.
  destruct (generation_next (wait_generation s)); [left|right]; (eexists; split; [reflexivity|]);
    unfold same_core; simpl; split_and!; reflexivity.
Qed.

(** The errors that would show broken bookkeeping. *)
Definition internal (e : ComponentError) : Prop :=
  e = slot_missing \/
  e = Failure "synchronizing participant lease accounting invariant" \/
  e = Failure "synchronizing barrier participant accounting invariant" \/
  e = Failure "synchronizing participant reused before its prior arrival completed".

(** What a poll may do: a good transition; an outcome it reports is that of
    the slot; an error is not an internal one. *)
Definition poll_post (key : BarrierKey) (s : BarrierState)
    (r : result ComponentError (arrival * list Z) * BarrierState) : Prop :=
  match r with
  | (Ok (Done o, _), s') => good s s' /\ exists b, slots s' !! key = Some b /\ slot_outcome b = Some o
  | (Ok (Waiting, _), s') => good s s'
  | (Err e, s') => good s s' /\ ~ internal e
  | (OutOfFuel, _) => False
  end.

Lemma post_good key s s1 r : good s s1 -> poll_post key s1 r -> poll_post key s r.
Proof.
  intros Hg. destruct r as [[[[o|] w]|e|] s']; simpl; [| | |done].
  - intros [H ?]. split; [by eapply good_trans|done].
  - by apply good_trans.
  - intros [H ?]. split; [by eapply good_trans|done].
Qed.

Lemma post_fail key s e : ok s -> ~ internal e -> poll_post key s (Err e, s).
Proof. intros H He. split; [by apply good_refl|done]. Qed.

Lemma bump_post key s (m : BM (arrival * list Z)) :
  ok s -> (forall s1, same_core s s1 -> poll_post key s1 (m s1)) ->
  poll_post key s ((bump_barrier_wait_generation ;! m) s).
Proof.
  intros Hok Hm. unfold st_bind.
  destruct (bump_barrier_cases s) as [(s1 & -> & Hs)|(s1 & -> & Hs)].
  - eapply post_good; [by apply same_core_good|by apply Hm].
  - split; [by apply same_core_good|]. unfold internal, slot_missing. intuition discriminate.
Qed.

Lemma alter_known {A} (m : gmap BarrierKey A) k a f : m !! k = Some a -> alter f k m = <[k := f a]> m.
Proof.
  intros H. apply map_eq. intros j. destruct (decide (k = j)) as [->|].
  - by rewrite lookup_alter_eq, lookup_insert_eq, H.
  - by rewrite lookup_alter_ne, lookup_insert_ne.
Qed.

Lemma elsewhere_slot key b s : elsewhere key s (with_slots (<[key := b]> (slots s)) s).
Proof. split; [|done]. intros k Hk. simpl. by rewrite lookup_insert_ne. Qed.

(** A slot is replaced by one of the same generation that keeps its outcome. *)
Lemma replace_slot_good key b b' s :
  ok s -> slots s !! key = Some b -> slot_generation b' = slot_generation b ->
  (forall o, slot_outcome b = Some o -> slot_outcome b' = Some o) ->
  key_ok (Some b') (next_generation s !! key) (lease_of s key) ->
  good s (with_slots (<[key := b']> (slots s)) s).
Proof.
  intros Hok Hb Hg Ho Hk. pose proof Hok as [H1 H2 H3].
  apply (good_intro key); try done; [apply elsewhere_slot| | |].
  - unfold key_ok_at. simpl. by rewrite lookup_insert_eq.
  - intros g o (b0 & E & E1 & E2). left. exists b'. simpl. rewrite lookup_insert_eq. simplify_eq. auto.
  - intros g g' Hn Hlt. right. by exists g'.
Qed.

Lemma slot_facts key b s :
  ok s -> slots s !! key = Some b -> key_ok (Some b) (next_generation s !! key) (lease_of s key).
Proof. intros Hok Hb. pose proof (bo_key _ _ Hok key) as H. unfold key_ok_at in H. by rewrite Hb in H. Qed.

Lemma time_out_post key b s :
  ok s -> slots s !! key = Some b -> slot_outcome b = None -> poll_post key s (time_out key s).
Proof.
  intros Hok Hb Ho. unfold time_out, get_slot, st_bind, st_get, st_lift, modify, st_ret. rewrite Hb. simpl.
  unfold update_slot. rewrite (alter_known _ _ b) by done. split.
  - apply (replace_slot_good key b); try done; [congruence|].
    destruct (slot_facts key b s Hok Hb) as (F1 & F2 & F3 & F4 & F5).
    split_and!; simpl; try done. intros p g Hp. destruct (F3 p g Hp) as [? _]. split; [done|by right].
  - simpl. rewrite lookup_insert_eq. by eexists.
Qed.

Lemma poll_again_post key p waker expired g s :
  ok s -> leases s !! (key, p) = Some g -> poll_post key s (poll_again key p waker expired s).
Proof.
  intros Hok Hl. pose proof (bo_key _ _ Hok key) as Hk. unfold key_ok_at in Hk.
  destruct (slots s !! key) as [b|] eqn:Hb; [|by specialize (Hk p); unfold lease_of in Hk; rewrite Hl in Hk].
  pose proof Hk as (F1 & F2 & F3 & F4 & F5).
  unfold poll_again, st_bind at 1, st_get. rewrite Hb. simpl.
  destruct (expired && bool_decide (slot_outcome b = None)) eqn:E.
  - apply andb_prop in E as [_ E%bool_decide_eq_true]. apply bump_post; [done|].
    intros s1 Hs. pose proof (same_core_good _ _ Hok Hs) as [Hok1 _]. destruct Hs as (E1 & _).
    apply (time_out_post key b); [done|by rewrite E1|done].
  - destruct (slot_outcome b) as [o|] eqn:Ho.
    + split; [by apply good_refl|]. by exists b.
    + destruct (F3 p g Hl) as [_ [[w Hw]|?]]; [|done].
      unfold get_slot, st_bind, st_get, st_lift, modify, st_ret. rewrite Hb. simpl. rewrite Hw. simpl.
      unfold update_slot. rewrite (alter_known _ _ b) by done.
      apply (replace_slot_good key b); try done.
      split_and!; simpl; try done.
      * intros q g' Hq. destruct (F3 q g' Hq) as [? [?|?]]; [|done]. split; [done|left].
        destruct (decide (p = q)) as [->|]; [by rewrite lookup_insert_eq|by rewrite lookup_insert_ne].
      * intros q [v Hq]. destruct (decide (p = q)) as [->|]; [by eexists|].
        rewrite lookup_insert_ne in Hq by done. by apply F4.
      * intros _. rewrite map_size_insert_Some by eauto. by apply F5.
Qed.

Lemma not_internal_limit m : ~ internal (ResourceLimit m).
Proof. unfold internal, slot_missing. intuition discriminate. Qed.

Lemma arrive_late_post key p b o s :
  ok s -> slots s !! key = Some b -> slot_outcome b = Some o -> poll_post key s (arrive_late mp key p o s).
Proof.
  intros Hok Hb Ho. unfold arrive_late. case_bool_decide as Ht.
  { apply post_fail; [done|]. unfold internal, slot_missing. intuition discriminate. }
  unfold st_bind at 1, get_slot at 1, st_bind at 1, st_get, st_lift. rewrite Hb. simpl.
  case_bool_decide.
  { apply post_fail; [done|]. unfold internal, slot_missing. intuition discriminate. }
  case_if; [apply post_fail; [done|apply not_internal_limit]|].
  apply bump_post; [done|]. intros s1 Hs. pose proof (same_core_good _ _ Hok Hs) as [Hok1 _].
  destruct Hs as (E1 & _). rewrite <- E1 in Hb.
  unfold get_slot, st_bind, st_get, st_lift, modify, st_ret. rewrite Hb. simpl.
  unfold update_slot. rewrite (alter_known _ _ b) by done. split.
  - apply (replace_slot_good key b); try done. exact (slot_facts key b s1 Hok1 Hb).
  - simpl. rewrite lookup_insert_eq. by eexists.
Qed.

(** A participant with a new lease, in slot [b']. *)
Definition joined (key : BarrierKey) (p : string) (g : Z) (b' : BarrierSlot) (s : BarrierState) : BarrierState :=
  with_participants (participant_count s + 1)
    (with_leases (<[(key, p) := g]> (leases s)) (with_slots (<[key := b']> (slots s)) s)).

Definition open_at (key : BarrierKey) (s : BarrierState) : Prop :=
  forall b, slots s !! key = Some b -> slot_outcome b = None.

Lemma joined_good key p g b' s :
  ok s -> leases s !! (key, p) = None -> participant_count s < mp ->
  next_generation s !! key = Some g -> slot_generation b' = g -> open_at key s ->
  (forall q, is_Some (arrivals b' !! q) -> q = p \/ is_Some (lease_of s key q)) ->
  (forall q, q = p \/ is_Some (lease_of s key q) ->
     is_Some (arrivals b' !! q) \/ slot_outcome b' <> None) ->
  (slot_outcome b' = None -> Z.of_nat (size (arrivals b')) < slot_expected b') ->
  good s (joined key p g b' s).
Proof.
  intros Hok Hl Hc Hn Hg Ho Ha1 Ha2 Hfull.
  assert (forall q, lease_of (joined key p g b' s) key q
    = if decide (q = p) then Some g else lease_of s key q) as HL.
  { intros q. unfold lease_of. simpl. case_decide; subst; [by rewrite lookup_insert_eq|].
    rewrite lookup_insert_ne; [done|congruence]. }
  assert (forall q g', lease_of s key q = Some g' -> g' = g) as Hold.
  { intros q g' Hq. pose proof (bo_key _ _ Hok key) as Hk. unfold key_ok_at in Hk.
    destruct (slots s !! key) as [b|] eqn:Hb; [|by specialize (Hk q); congruence].
    destruct Hk as (F1 & _ & F3 & _). destruct (F3 q g' Hq). congruence. }
  apply (good_intro key); try done.
  - split; [|done]. intros k Hk. simpl. rewrite lookup_insert_ne by done. split_and!; [done..|].
    intros q. unfold lease_of. simpl. rewrite lookup_insert_ne; congruence.
  - unfold key_ok_at. simpl. rewrite lookup_insert_eq, Hn. split_and!; [by f_equal| | | |done].
    + exists p. rewrite HL, decide_True by done. by eexists.
    + intros q g'. rewrite HL. case_decide; intros Hq.
      * split; [congruence|]. apply Ha2. by left.
      * split; [rewrite Hg; by eapply Hold|]. apply Ha2. right. by eexists.
    + intros q Hq. rewrite HL. case_decide; [by eexists|]. by destruct (Ha1 q Hq).
  - simpl. rewrite map_size_insert_None by done. rewrite (bo_count _ _ Hok). lia.
  - simpl. lia.
  - intros g' o (b & Hb & _ & Hs). apply Ho in Hb. congruence.
  - intros g1 g' Hg' Hlt. right. by exists g'.
Qed.

Context (Hmp : mp <= MAX_BARRIER_PARTICIPANTS).

Lemma take_lease_run key p g s :
  participant_count s < mp ->
  take_lease key p g s =
    (Ok (), with_participants (participant_count s + 1) (with_leases (<[(key, p) := g]> (leases s)) s)).
Proof.
  intros Hc. unfold take_lease, st_bind, st_get, st_lift, modify. simpl.
  rewrite (proj2 (u64_checked_add_Some (participant_count s) 1 (participant_count s + 1))); [done|].
  unfold u64_max, MAX_BARRIER_PARTICIPANTS in *. lia.
Qed.

Lemma expired_run key p g b s :
  participant_count s < mp -> slots s !! key = Some b ->
  (take_lease key p g ;! time_out key) s
  = (Ok (Done TimedOut, arrival_wakers b), joined key p g (settle TimedOut b) s).
Proof.
  intros Hc Hb. unfold st_bind at 1. rewrite take_lease_run by done.
  unfold time_out, get_slot, st_bind, st_get, st_lift, modify, st_ret. simpl. rewrite Hb. simpl.
  unfold joined, update_slot. simpl. by rewrite (alter_known _ _ b).
Qed.

Lemma arrive_expired_post key p g b s :
  ok s -> leases s !! (key, p) = None -> participant_count s < mp ->
  next_generation s !! key = Some g -> slots s !! key = Some b -> slot_outcome b = None ->
  poll_post key s (arrive_expired key p g s).
Proof.
  intros Hok Hl Hc Hn Hb Ho. apply bump_post; [done|]. intros s1 Hs.
  pose proof (same_core_good _ _ Hok Hs) as [Hok1 _]. destruct Hs as (E1 & E2 & E3 & E4 & _).
  rewrite <- E1 in Hb. rewrite <- E2 in Hn. rewrite <- E3 in Hl. rewrite <- E4 in Hc.
  rewrite (expired_run key p g b) by done.
  destruct (slot_facts key b s1 Hok1 Hb) as (F1 & F2 & F3 & F4 & F5). split.
  - apply joined_good; try done.
    + simpl. congruence.
    + intros b0 Hb0. congruence.
    + intros q Hq. right. by apply F4.
    + intros q _. by right.
  - simpl. rewrite lookup_insert_eq. by eexists.
Qed.

(** The slot an arrival finds, or opens. *)
Definition slot_for (key : BarrierKey) (g expected : Z) (deadline : option Z) (s : BarrierState) : BarrierSlot :=
  default (mkSlot g expected deadline ∅ ∅ None) (slots s !! key).

Definition arrive_rest (key : BarrierKey) (p : string) (g expected : Z) (deadline : option Z) (waker : Z) :
    BM (arrival * list Z) :=
  modify (fun s =>
    match slots s !! key with
    | Some _ => s
    | None => with_slots (<[key := mkSlot g expected deadline ∅ ∅ None]> (slots s)) s
    end) ;!
  take_lease key p g ;!
  do! _ <- get_slot key in
  modify (update_slot key (with_arrivals (insert p waker))) ;!
  do! slot <- get_slot key in
  if slot_expected slot <=? Z.of_nat (size (arrivals slot)) then
    modify (update_slot key (settle Released)) ;!
    st_ret (Done Released, arrival_wakers slot)
  else st_ret (Waiting, []).

Lemma arrive_rest_run key p g expected deadline waker s :
  participant_count s < mp ->
  let b := with_arrivals (insert p waker) (slot_for key g expected deadline s) in
  arrive_rest key p g expected deadline waker s =
    if slot_expected b <=? Z.of_nat (size (arrivals b))
    then (Ok (Done Released, arrival_wakers b), joined key p g (settle Released b) s)
    else (Ok (Waiting, []), joined key p g b s).
Proof.
  intros Hc b. unfold arrive_rest, st_bind at 1, modify at 1.
  assert (exists s1, match slots s !! key with
    | Some _ => s
    | None => with_slots (<[key := mkSlot g expected deadline ∅ ∅ None]> (slots s)) s
    end = s1 /\ slots s1 !! key = Some (slot_for key g expected deadline s) /\
      participant_count s1 = participant_count s /\
      forall b', joined key p g b' s1 = joined key p g b' s) as (s1 & -> & Hb & Hc1 & Hj).
  { unfold slot_for. destruct (slots s !! key) as [b0|] eqn:E; eexists; (split; [reflexivity|]).
    - by rewrite E.
    - simpl. rewrite lookup_insert_eq. split_and!; try done. intros b'. unfold joined. simpl.
      by rewrite insert_insert_eq. }
  unfold st_bind at 1. rewrite take_lease_run by congruence.
  unfold get_slot, st_bind, st_get, st_lift, modify, st_ret. simpl. rewrite Hb. simpl.
  rewrite (alter_known _ _ _ _ Hb), lookup_insert_eq. simpl. fold b.
  unfold b at 1 2. simpl. case_if; simpl; rewrite <- Hj; unfold joined, update_slot; simpl;
    rewrite (alter_known _ _ _ _ Hb); [|done].
  fold b. rewrite (alter_known _ _ b) by apply lookup_insert_eq. by rewrite insert_insert_eq.
Qed.

Lemma arrive_post key p g expected deadline waker s :
  ok s -> leases s !! (key, p) = None -> participant_count s < mp ->
  next_generation s !! key = Some g -> open_at key s ->
  poll_post key s (arrive key p g expected deadline waker s).
Proof.
  intros Hok Hl Hc Hn Ho. apply bump_post; [done|]. intros s1 Hs.
  pose proof (same_core_good _ _ Hok Hs) as [Hok1 _]. destruct Hs as (E1 & E2 & E3 & E4 & _).
  unfold open_at in Ho. rewrite <- E1 in Ho. rewrite <- E2 in Hn. rewrite <- E3 in Hl. rewrite <- E4 in Hc.
  change (poll_post key s1 (arrive_rest key p g expected deadline waker s1)).
  rewrite arrive_rest_run by done.
  set (b := with_arrivals (insert p waker) (slot_for key g expected deadline s1)).
  assert (slot_generation b = g /\ slot_outcome b = None /\
    (forall q, is_Some (arrivals b !! q) <-> q = p \/ is_Some (lease_of s1 key q))) as (Hg & Hnone & Harr).
  { unfold b, slot_for. pose proof (bo_key _ _ Hok1 key) as Hk. unfold key_ok_at in Hk.
    destruct (slots s1 !! key) as [b0|] eqn:Hb0; simpl.
    - destruct Hk as (F1 & F2 & F3 & F4 & F5). rewrite Hn in F1. split_and!; [congruence|by apply Ho|].
      intros q. rewrite lookup_insert_is_Some. split.
      + intros [->|[_ ?]]; [by left|right; by apply F4].
      + intros [->|[g' Hq]]; [by left|]. destruct (decide (p = q)); [by left|right; split; [done|]].
        destruct (F3 q g' Hq) as [_ [?|Hx]]; [done|]. by rewrite (Ho b0 eq_refl) in Hx.
    - split_and!; [done..|]. intros q. rewrite lookup_insert_is_Some, lookup_empty. rewrite (Hk q).
      split; [intros [->|[_ [? [=]]]]; by left|intros [->|[? [=]]]; by left]. }
  case_if; simpl.
  - split; [|rewrite lookup_insert_eq; by eexists].
    apply joined_good; try done; [apply Harr|intros; by right].
  - apply joined_good; try done; [apply Harr|]. intros q Hq. left. by apply Harr.
Qed.

Lemma admit_post key g expected deadline request waker s :
  ok s -> next_generation s !! key = Some g ->
  poll_post key s (admit_participant mp key g expected deadline request waker s).
Proof.
  intros Hok Hn. unfold admit_participant. set (p := req_participant request).
  unfold st_bind at 1, st_get.
  assert (forall e, ~ internal e -> poll_post key s (Err e, s)) as Hfail by (intros; by apply post_fail).
  destruct (match slots s !! key with Some _ => _ | None => _ end).
  { apply Hfail. unfold internal, slot_missing. intuition discriminate. }
  destruct (leases s !! (key, p)) as [lease|] eqn:Hl; simpl.
  - pose proof (bo_key _ _ Hok key) as Hk. unfold key_ok_at in Hk.
    destruct (slots s !! key) as [b|] eqn:Hb; [|specialize (Hk p); unfold lease_of in Hk; congruence].
    destruct Hk as (F1 & _ & F3 & _). destruct (F3 p lease Hl) as [-> _].
    assert (slot_generation b = g) as -> by congruence. rewrite Z.eqb_refl. simpl.
    by eapply poll_again_post.
  - destruct (Z.leb_spec mp (participant_count s)); [apply Hfail, not_internal_limit|].
    unfold slot_expired. destruct (slots s !! key) as [b|] eqn:Hb; simpl.
    + destruct (slot_outcome b) as [o|] eqn:Ho; [by eapply arrive_late_post|].
      assert (open_at key s) as Hopen by (intros b0 Hb0; congruence).
      destruct (slot_deadline b) as [d|]; [|by apply arrive_post].
      case_if; [by eapply arrive_expired_post|by apply arrive_post].
    + apply arrive_post; try done. intros b Hb'. congruence.
Qed.

(** The generation of a barrier is fixed when it is first used. *)
Lemma fix_generation_good key s :
  ok s ->
  good s (with_next_generation
            (<[key := default generation_initial (next_generation s !! key)]> (next_generation s)) s).
Proof.
  intros Hok. pose proof Hok as [H1 H2 H3]. apply (good_intro key); try done.
  - split; [|done]. intros k Hk. simpl. by rewrite lookup_insert_ne.
  - unfold key_ok_at. simpl. rewrite lookup_insert_eq. pose proof (H1 key) as Hk. unfold key_ok_at in Hk.
    destruct (slots s !! key); [|done]. destruct Hk as (F1 & Hk). by rewrite F1.
  - intros g o Hs. by left.
  - intros g g' Hg Hlt. right. exists g'. simpl. by rewrite lookup_insert_eq, Hg.
Qed.

Lemma poll_arrival_post request waker s key :
  ok s -> key_for request = Ok key -> poll_post key s (poll_arrival max_slots mp request waker s).
Proof.
  intros Hok Hkey. unfold poll_arrival, st_bind at 1, st_lift at 1. rewrite Hkey.
  unfold st_bind at 1, st_get.
  destruct (wait_generation_overflow s); [apply post_fail; [done|apply not_internal_limit]|].
  unfold st_bind at 1, st_lift at 1. destruct (expected_size s request) as [expected|e|] eqn:He.
  - case_if; [apply post_fail; [done|apply not_internal_limit]|].
    destruct (_ && _); [apply post_fail; [done|apply not_internal_limit]|].
    case_bool_decide; [apply post_fail; [done|apply not_internal_limit]|].
    unfold st_bind at 1, modify at 1. pose proof (fix_generation_good key s Hok) as Hg.
    set (s1 := with_next_generation _ s) in *. eapply post_good; [exact Hg|]. destruct Hg as [Hok1 _].
    unfold st_bind at 1, st_lift at 1, requested_deadline.
    assert (forall d, poll_post key s1 (admit_participant mp key
      (default generation_initial (next_generation s !! key)) expected d request waker s1)) as Ha.
    { intros d. apply admit_post; [exact Hok1|]. subst s1. simpl. by rewrite lookup_insert_eq. }
    case_if; [apply Ha|]. destruct (duration_checked_add _ _); simpl; [apply Ha|].
    exact (post_fail key s1 _ Hok1 (not_internal_limit _)).
  - apply post_fail; [done|]. unfold expected_size, internal, slot_missing in *.
    destruct (req_group_size request); [|destruct (_ ≫= _)]; simpl in He; try case_if; simplify_eq;
      intuition discriminate.
  - exfalso. unfold expected_size in He.
    destruct (req_group_size request); [|destruct (_ ≫= _)]; simpl in He; try case_if; done.
Qed.

Lemma leased_spec s key : leased s key = true <-> exists p, is_Some (lease_of s key p).
Proof.
  unfold leased. rewrite existsb_exists. split.
  - intros ([[k p] g] & Hin & Hk%bool_decide_eq_true). simpl in Hk. subst k. exists p, g.
    apply elem_of_map_to_list. by apply list_elem_of_In.
  - intros (p & g & Hp). exists ((key, p), g). split; [|by apply bool_decide_eq_true].
    apply list_elem_of_In. by apply elem_of_map_to_list.
Qed.

(** [p] has left the slot, which is settled and now [b']. *)
Record left_with (key : BarrierKey) (p : string) (b' : BarrierSlot) (s s1 : BarrierState) : Prop := {
  lw_slots : slots s1 = <[key := b']> (slots s);
  lw_next : next_generation s1 = next_generation s;
  lw_leases : leases s1 = delete (key, p) (leases s);
  lw_count : participant_count s1 = participant_count s - 1;
  lw_overflow : generation_overflow s ⊆ generation_overflow s1
}.

Lemma left_lease key p b' s s1 k q :
  left_with key p b' s s1 ->
  lease_of s1 k q = if decide ((k, q) = (key, p)) then None else lease_of s k q.
Proof.
  intros [_ _ E _ _]. unfold lease_of. rewrite E. case_decide as H.
  - injection H as -> ->. by rewrite lookup_delete_eq.
  - by rewrite lookup_delete_ne by congruence.
Qed.

Lemma advance_run key g s :
  next_generation s !! key = Some g ->
  exists s', match advance_barrier_generation key s with
    | (Ok _, s') => s'
    | (_, s') => with_generation_overflow ({[key]} ∪ generation_overflow s') s'
    end = s' /\
    slots s' = slots s /\ leases s' = leases s /\ participant_count s' = participant_count s /\
    generation_overflow s ⊆ generation_overflow s' /\
    (forall k, k <> key -> next_generation s' !! k = next_generation s !! k) /\
    (forall g', g' <= g -> over s' key g').
Proof.
  intros Hg. unfold advance_barrier_generation, st_bind, st_get, modify, st_fail. rewrite Hg.
  destruct (generation_next g) as [g1|] eqn:E; simpl; eexists; (split; [reflexivity|]); simpl;
    split_and!; try done.
  - intros k Hk. by rewrite lookup_insert_ne.
  - intros g' Hle. right. exists g1. simpl. rewrite lookup_insert_eq. split; [done|].
    unfold generation_next in E. destruct (u64_checked_add g 1) eqn:E2; [|done].
    apply u64_checked_add_Some in E2. unfold generation_new in E. case_if; [done|]. simplify_eq. lia.
  - set_solver.
  - intros g' _. left. simpl. set_solver.
Qed.

(** [p] leaves the slot [b] of a good state, and [b'] is left, settled. *)
Record leaving (key : BarrierKey) (p : string) (b b' : BarrierSlot) (s s1 : BarrierState) : Prop := {
  lv_ok : ok s;
  lv_slot : slots s !! key = Some b;
  lv_lease : is_Some (leases s !! (key, p));
  lv_left : left_with key p b' s s1;
  lv_generation : slot_generation b' = slot_generation b;
  lv_arrivals : arrivals b' = delete p (arrivals b);
  lv_settled : slot_outcome b' <> None;
  lv_outcome o : slot_outcome b = Some o -> slot_outcome b' = Some o
}.

Lemma leaving_count key p b b' s s1 :
  leaving key p b b' s s1 ->
  participant_count s1 = Z.of_nat (size (leases s1)) /\ participant_count s1 <= mp.
Proof.
  intros [Hok _ [g Hl] [_ _ E3 E4 _] _ _ _ _].
  pose proof (bo_bound _ _ Hok). pose proof (bo_count _ _ Hok) as Hc. split; [|lia].
  rewrite E3, E4, Hc. rewrite map_size_delete_Some by eauto.
  assert (size (leases s) <> 0%nat); [|lia]. intros Hz. apply map_size_empty_inv in Hz.
  by rewrite Hz, lookup_empty in Hl.
Qed.

Lemma leaving_elsewhere key p b b' s s1 : leaving key p b b' s s1 -> elsewhere key s s1.
Proof.
  intros Hlv. pose proof (lv_left _ _ _ _ _ _ Hlv) as Hl. split; [|apply Hl]. intros k Hk.
  rewrite (lw_slots _ _ _ _ _ Hl), (lw_next _ _ _ _ _ Hl), lookup_insert_ne by done.
  split_and!; [done..|]. intros q. rewrite (left_lease _ _ _ _ _ _ _ Hl), decide_False; [done|congruence].
Qed.

(** The last one out: the slot goes and its generation is over. *)
Lemma drained_good key p b b' s s1 :
  leaving key p b b' s s1 -> leased s1 key = false ->
  good s (match advance_barrier_generation key (with_slots (delete key (slots s1)) s1) with
    | (Ok _, s') => s'
    | (_, s') => with_generation_overflow ({[key]} ∪ generation_overflow s') s'
    end).
Proof.
  intros Hlv Hno. pose proof (leaving_count _ _ _ _ _ _ Hlv) as [Hc Hb].
  pose proof (leaving_elsewhere _ _ _ _ _ _ Hlv) as [He Ho]. destruct Hlv as [Hok Hs _ [_ E2 _ _ _] _ _ _ _].
  destruct (slot_facts key b s Hok Hs) as (F1 & _).
  destruct (advance_run key (slot_generation b) (with_slots (delete key (slots s1)) s1))
    as (s' & -> & A1 & A2 & A3 & A4 & A5 & A6); [by simpl; rewrite E2|].
  simpl in *. apply (good_intro key); try done; try (rewrite ?A2, ?A3; done).
  - split; [|set_solver]. intros k Hk. destruct (He k Hk) as (B1 & B2 & B3).
    rewrite A1, A5, lookup_delete_ne by done. split_and!; [done..|].
    intros q. unfold lease_of in *. by rewrite A2.
  - unfold key_ok_at. rewrite A1, lookup_delete_eq. intros q. unfold lease_of. rewrite A2.
    destruct (leases s1 !! (key, q)) eqn:Hq; [|done].
    assert (leased s1 key = true); [|congruence]. apply leased_spec. exists q. by eexists.
  - intros g0 o (b0 & Hb0 & <- & _). right. apply A6. simplify_eq. lia.
  - intros g0 g' Hg' Hlt. apply A6. rewrite F1 in Hg'. simplify_eq. lia.
Qed.

(** Others are still there: the settled slot stays for them. *)
Lemma kept_good key p b b' s s1 :
  leaving key p b b' s s1 -> bool_decide (arrivals b' = ∅) && negb (leased s1 key) = false -> good s s1.
Proof.
  intros Hlv E. pose proof (leaving_count _ _ _ _ _ _ Hlv) as [Hc Hb].
  pose proof (leaving_elsewhere _ _ _ _ _ _ Hlv) as He.
  destruct Hlv as [Hok Hs _ Hleft Hgen Harr Hset Hkeep].
  destruct (slot_facts key b s Hok Hs) as (F1 & F2 & F3 & F4 & F5).
  pose proof (fun q => left_lease key p b' s s1 key q Hleft) as HL. destruct Hleft as [E1 E2 _ _ _].
  assert (slots s1 !! key = Some b') as Hb1 by (by rewrite E1, lookup_insert_eq).
  apply (good_intro key); try done.
  - unfold key_ok_at. rewrite Hb1, E2, F1. split_and!; [by rewrite Hgen| | | |by intros ?%Hset].
    + apply andb_false_iff in E as [E%bool_decide_eq_false|E%negb_false_iff]; [|by apply leased_spec].
      apply map_choose in E as (q & w & Hq). rewrite Harr in Hq. apply lookup_delete_Some in Hq as [Hne Hq].
      exists q. rewrite HL, decide_False by congruence. apply F4. by eexists.
    + intros q g' Hq. rewrite HL in Hq. case_decide; [done|]. destruct (F3 q g' Hq) as [-> _].
      split; [congruence|by right].
    + intros q. rewrite Harr. intros [w [Hne Hq]%lookup_delete_Some].
      rewrite HL, decide_False by congruence. apply F4. by eexists.
  - intros g0 o (b0 & Hb0 & <- & Ho). left. exists b'. simplify_eq. split_and!; auto.
  - intros g0 g' Hg' Hlt. right. exists g'. by rewrite E2.
Qed.

Lemma leaving_good key p b b' s s1 : leaving key p b b' s s1 -> good s (remove_drained key s1).
Proof.
  intros Hlv. assert (slots s1 !! key = Some b') as Hb1.
  { rewrite (lw_slots _ _ _ _ _ (lv_left _ _ _ _ _ _ Hlv)). apply lookup_insert_eq. }
  unfold remove_drained. rewrite Hb1.
  destruct (bool_decide (arrivals b' = ∅) && negb (leased s1 key)) eqn:E; [|by eapply kept_good].
  apply andb_prop in E as [_ E%negb_true_iff]. by eapply drained_good.
Qed.

Lemma bump_or_overflow_core s : same_core s (bump_or_overflow s).
Proof.
  unfold bump_or_overflow. by destruct (bump_barrier_cases s) as [(s1 & -> & H)|(s1 & -> & H)].
Qed.

Lemma uncount_run s : 1 <= participant_count s -> uncount s = with_participants (participant_count s - 1) s.
Proof.
  intros H. unfold uncount.
  by rewrite (proj2 (u64_checked_sub_Some (participant_count s) 1 (participant_count s - 1))) by lia.
Qed.

(** A lease comes with a slot of its generation, and is counted. *)
Lemma lease_slot key p g s :
  ok s -> leases s !! (key, p) = Some g ->
  1 <= participant_count s /\
  exists b, slots s !! key = Some b /\ slot_generation b = g /\
    (arrivals b !! p = None -> slot_outcome b <> None).
Proof.
  intros Hok Hl. split.
  - rewrite (bo_count _ _ Hok). assert (size (leases s) <> 0%nat); [|lia].
    intros Hz. apply map_size_empty_inv in Hz. by rewrite Hz, lookup_empty in Hl.
  - pose proof (bo_key _ _ Hok key) as Hk. unfold key_ok_at in Hk.
    destruct (slots s !! key) as [b|] eqn:Hb; [|specialize (Hk p); unfold lease_of in Hk; congruence].
    destruct Hk as (_ & _ & F3 & _). destruct (F3 p g Hl) as [-> Ha]. exists b. split_and!; try done.
    intros Hn. destruct Ha as [[w Hw]|?]; [congruence|done].
Qed.

Lemma cancel_good request s : ok s -> good s (fst (cancel request s)).
Proof.
  intros Hok. unfold cancel. destruct (key_for request) as [key|e|]; try (by apply good_refl).
  set (p := req_participant request). destruct (leases s !! (key, p)) as [g|] eqn:Hl; [|by apply good_refl].
  destruct (lease_slot key p g s Hok Hl) as (Hc & b & Hb & Hg & Hn). simpl. rewrite Hb, Hg, Z.eqb_refl. simpl.
  destruct (arrivals b !! p) as [w|] eqn:Ha.
  - rewrite bool_decide_eq_true_2 by eauto. unfold update_slot. simpl.
    rewrite (alter_known _ _ b _ Hb). rewrite uncount_run by done. simpl.
    rewrite (alter_known _ _ (with_arrivals (delete p) b)) by apply lookup_insert_eq.
    rewrite insert_insert_eq, lookup_insert_eq. simpl.
    destruct (slot_outcome b) as [o|] eqn:Ho; simpl.
    + apply (leaving_good key p b (retire p (with_arrivals (delete p) b))). split; simpl; try done; eauto.
      by rewrite Ho.
    + match goal with |- context [bump_or_overflow ?x] =>
        destruct (bump_or_overflow_core x) as (E1 & E2 & E3 & E4 & E5) end.
      apply (leaving_good key p b (settle TimedOut (retire p (with_arrivals (delete p) b)))).
      split; simpl; try done; eauto; [|congruence]. split; simpl; try done.
      rewrite E1. simpl.
      rewrite (alter_known _ _ (retire p (with_arrivals (delete p) b))) by apply lookup_insert_eq.
      by rewrite insert_insert_eq.
  - rewrite bool_decide_eq_false_2 by (by intros [? ?]). rewrite uncount_run by done. simpl. rewrite Hb. simpl.
    apply (leaving_good key p b b). split; try done; eauto.
    + split; simpl; try done. by rewrite insert_id.
    + by rewrite delete_id.
Qed.

Lemma complete_slot_facts p o b :
  slot_generation (complete_slot p o b) = slot_generation b /\
  arrivals (complete_slot p o b) = delete p (arrivals b) /\
  slot_outcome (complete_slot p o b) = Some (default o (slot_outcome b)).
Proof. unfold complete_slot. destruct b as [g e d a r [[|]|]], o; simpl; done. Qed.

Lemma complete_good request o s : ok s -> good s (complete request o s).
Proof.
  intros Hok. unfold complete. destruct (key_for request) as [key|e|]; try (by apply good_refl).
  set (p := req_participant request). destruct (leases s !! (key, p)) as [g|] eqn:Hl; [|by apply good_refl].
  destruct (lease_slot key p g s Hok Hl) as (Hc & b & Hb & Hg & Hn).
  destruct (complete_slot_facts p o b) as (C1 & C2 & C3).
  destruct (bump_or_overflow_core (with_leases (delete (key, p) (leases s)) s)) as (E1 & E2 & E3 & E4 & E5).
  rewrite uncount_run by (by rewrite E4).
  apply (leaving_good key p b (complete_slot p o b)). split; try done; eauto; [|by rewrite C3|].
  - unfold update_slot. split; simpl; try done; [|by rewrite E4].
    rewrite E1. simpl. rewrite (alter_known _ _ b) by done. by rewrite Hg, Z.eqb_refl.
  - intros o' Ho'. by rewrite C3, Ho'.
Qed.

End invariant.

(** ** Polls do not touch the exhausted barriers *)

Definition keeps_overflow {A} (m : BM A) : Prop :=
  forall s, generation_overflow (snd (m s)) = generation_overflow s.

Lemma ko_bind {A B} (m : BM A) (k : A -> BM B) :
  keeps_overflow m -> (forall a, keeps_overflow (k a)) -> keeps_overflow (st_bind m k).
Proof.
  intros Hm Hk s. unfold st_bind. specialize (Hm s).
  destruct (m s) as [[a|e|] s1]; simpl in *; [by rewrite Hk|done..].
Qed.

Lemma ko_get : keeps_overflow st_get.
Proof. done. Qed.
Lemma ko_ret {A} (a : A) : keeps_overflow (st_ret a).
Proof. done. Qed.
Lemma ko_fail {A} e : keeps_overflow (st_fail e : BM A).
Proof. done. Qed.
Lemma ko_lift {A} r : keeps_overflow (st_lift r : BM A).
Proof. done. Qed.
Lemma ko_modify f : (forall s, generation_overflow (f s) = generation_overflow s) -> keeps_overflow (modify f).
Proof. intros H s. apply H. Qed.

Create HintDb overflow.

Ltac overflow :=
  repeat first
    [ progress intros
    | solve [eauto with overflow]
    | progress cbv zeta
    | apply ko_bind | apply ko_get | apply ko_ret | apply ko_fail | apply ko_lift
    | apply ko_modify; intros ?; reflexivity
    | match goal with |- keeps_overflow (if ?c then _ else _) => destruct c end
    | match goal with |- keeps_overflow (match ?c with _ => _ end) => destruct c end ].

Lemma ko_bump : keeps_overflow bump_barrier_wait_generation.
Proof. unfold bump_barrier_wait_generation. overflow. Qed.
Lemma ko_get_slot key : keeps_overflow (get_slot key).
Proof. unfold get_slot. overflow. Qed.
#[export] Hint Resolve ko_bump ko_get_slot : overflow.

Lemma ko_time_out key : keeps_overflow (time_out key).
Proof. unfold time_out. overflow. Qed.
Lemma ko_take_lease key p g : keeps_overflow (take_lease key p g).
Proof. unfold take_lease. overflow. Qed.
#[export] Hint Resolve ko_time_out ko_take_lease : overflow.

Lemma ko_poll_again key p w x : keeps_overflow (poll_again key p w x).
Proof. unfold poll_again. overflow. Qed.
Lemma ko_arrive_late mp key p o : keeps_overflow (arrive_late mp key p o).
Proof. unfold arrive_late. overflow. Qed.
Lemma ko_arrive_expired key p g : keeps_overflow (arrive_expired key p g).
Proof. unfold arrive_expired. overflow. Qed.
Lemma ko_arrive key p g e d w : keeps_overflow (arrive key p g e d w).
Proof.
  unfold arrive. apply ko_bind; [apply ko_bump|intros _]. apply ko_bind; [|overflow].
  apply ko_modify. intros s. by destruct (slots s !! key).
Qed.
#[export] Hint Resolve ko_poll_again ko_arrive_late ko_arrive_expired ko_arrive : overflow.

Lemma ko_admit mp key g e d request w : keeps_overflow (admit_participant mp key g e d request w).
Proof. unfold admit_participant. overflow. Qed.
#[export] Hint Resolve ko_admit : overflow.

Lemma ko_poll_arrival ms mp request w : keeps_overflow (poll_arrival ms mp request w).
Proof. unfold poll_arrival. overflow. Qed.

Lemma poll_Ok_open ms mp request w s r s' key :
  key_for request = Ok key -> poll_arrival ms mp request w s = (Ok r, s') ->
  key ∉ generation_overflow s'.
Proof.
  intros Hkey Hp. pose proof (ko_poll_arrival ms mp request w s) as Ho. rewrite Hp in Ho. simpl in Ho.
  rewrite Ho. intros Hin. revert Hp. unfold poll_arrival, st_bind at 1, st_lift at 1. rewrite Hkey.
  unfold st_bind at 1, st_get. destruct (wait_generation_overflow s); [done|].
  unfold st_bind at 1, st_lift at 1. destruct (expected_size s request); [|done..].
  destruct (mp <? a); [done|]. destruct (_ && _); [done|]. by rewrite bool_decide_eq_true_2.
Qed.

(** ** Histories *)

Inductive barrier_op :=
| OArrive (request : SynchronizingRequest) (waker : Z)
| OCancel (request : SynchronizingRequest)
| OComplete (request : SynchronizingRequest) (outcome : SynchronizingOutcome)
| ORegisterGroup (group : string) (count : Z)
| OUnregisterGroup (group : string).

(** A participant is told an outcome, in a generation of a barrier. *)
Definition told : Type := BarrierKey * Z * string * SynchronizingOutcome.

(** The new state, what the caller is told, and the wakers invoked. *)
Definition apply_barrier (ms mp : Z) (o : barrier_op) (s : BarrierState) :
    BarrierState * list told * list Z :=
  match o with
  | OArrive request waker =>
      let '(r, s') := poll_arrival ms mp request waker s in
      match r, key_for request with
      | Ok (Done outcome, woken), Ok key =>
          (s', match barrier_generation s' key with
               | Some g => [(key, g, req_participant request, outcome)]
               | None => []
               end, woken)
      | Ok (Waiting, woken), _ => (s', [], woken)
      | _, _ => (s', [], [])
      end
  | OCancel request => let '(s', woken) := cancel request s in (s', [], woken)
  | OComplete request outcome => (complete request outcome s, [], [])
  | ORegisterGroup group count => (snd (register_thread_group ms mp group count s), [], [])
  | OUnregisterGroup group => (snd (unregister_thread_group group s), [], [])
  end.

Fixpoint barrier_history (ms mp : Z) (ops : list barrier_op) (s : BarrierState) :
    BarrierState * list told * list Z :=
  match ops with
  | [] => (s, [], [])
  | o :: rest =>
      let '(s1, t1, w1) := apply_barrier ms mp o s in
      let '(s2, t2, w2) := barrier_history ms mp rest s1 in
      (s2, t1 ++ t2, w1 ++ w2)
  end.

Section histories.
Context (ms mp : Z) (Hmp : mp <= MAX_BARRIER_PARTICIPANTS).
Notation ok := (barrier_ok mp).

Lemma group_sizes_core v s : same_core s (with_group_sizes v s).
Proof. unfold same_core. simpl. split_and!; reflexivity. Qed.

(** One operation: a good transition, and what is told is settled. *)
Lemma apply_barrier_good o s :
  ok s ->
  let '(s', t, _) := apply_barrier ms mp o s in
  good mp s s' /\
  forall key g p out, (key, g, p, out) ∈ t -> settled s' key g out /\ ~ over s' key g.
Proof.
  intros Hok. destruct o as [request w|request|request out|group count|group]; simpl.
  - destruct (key_for request) as [key|e|] eqn:Hkey.
    + pose proof (poll_arrival_post ms mp Hmp request w s key Hok Hkey) as Hp.
      destruct (poll_arrival ms mp request w s) as [[[[o|] woken]|e|] s'] eqn:E; simpl in Hp;
        [| |destruct Hp; split; [done|]; by intros ???? ?%not_elem_of_nil|done].
      * destruct Hp as [Hg (b & Hb & Ho)]. split; [done|]. unfold barrier_generation. rewrite Hb.
        intros key' g p out Hin%list_elem_of_singleton. simplify_eq. split; [by exists b|].
        intros [Hov|(g' & Hn & Hlt)]; [by eapply poll_Ok_open|].
        destruct Hg as [Hok' _]. destruct (slot_facts mp key b s' Hok' Hb) as (F1 & _).
        rewrite F1 in Hn. simplify_eq. lia.
      * split; [done|]. by intros ???? ?%not_elem_of_nil.
    + unfold poll_arrival, st_bind at 1, st_lift at 1. rewrite Hkey.
      split; [by apply good_refl|]. by intros ???? ?%not_elem_of_nil.
    + unfold poll_arrival, st_bind at 1, st_lift at 1. rewrite Hkey.
      split; [by apply good_refl|]. by intros ???? ?%not_elem_of_nil.
  - pose proof (cancel_good mp Hmp request s Hok) as Hg. destruct (cancel request s) as [s' woken].
    split; [done|]. by intros ???? ?%not_elem_of_nil.
  - split; [by apply complete_good|]. by intros ???? ?%not_elem_of_nil.
  - split; [|by intros ???? ?%not_elem_of_nil]. unfold register_thread_group.
    destruct (too_long _ _); [by apply good_refl|]. destruct (_ <? _); [by apply good_refl|].
    unfold st_bind, st_get. destruct (_ && _); [by apply good_refl|].
    apply same_core_good; [done|apply group_sizes_core].
  - split; [|by intros ???? ?%not_elem_of_nil]. apply same_core_good; [done|apply group_sizes_core].
Qed.

End histories.

Lemma barrier_default_ok mp : 0 <= mp -> barrier_ok mp barrier_default.
Proof. intros H. split; simpl; try done. intros key. unfold key_ok_at. simpl. by rewrite lookup_empty. Qed.

(** Every outcome told is that of a settled generation, or of one that is over. *)
Lemma barrier_history_told ms mp ops s ts :
  mp <= MAX_BARRIER_PARTICIPANTS -> barrier_ok mp s ->
  (forall key g p o, (key, g, p, o) ∈ ts -> settled s key g o \/ over s key g) ->
  (forall key g p o p' o', (key, g, p, o) ∈ ts -> (key, g, p', o') ∈ ts -> o = o') ->
  let '(s', t, _) := barrier_history ms mp ops s in
  barrier_ok mp s' /\
  forall key g p o p' o', (key, g, p, o) ∈ ts ++ t -> (key, g, p', o') ∈ ts ++ t -> o = o'.
Proof.
  intros Hmp. revert s ts. induction ops as [|op ops IH]; intros s ts Hok Hinv Hag; simpl.
  { split; [done|]. by rewrite app_nil_r. }
  pose proof (apply_barrier_good ms mp Hmp op s Hok) as H.
  destruct (apply_barrier ms mp op s) as [[s1 t1] w1]. destruct H as [[Hok1 [Hp1 Hp2]] Ht1].
  assert (forall key g p o, (key, g, p, o) ∈ ts -> settled s1 key g o \/ over s1 key g) as Hold.
  { intros key g p o Hin. destruct (Hinv _ _ _ _ Hin) as [Hs|Hs]; [by apply Hp1|right; by apply Hp2]. }
  assert (forall key g p o p' o', (key, g, p, o) ∈ ts -> (key, g, p', o') ∈ t1 -> o = o') as Hmix.
  { intros key g p o p' o' Hin Hin1. destruct (Ht1 _ _ _ _ Hin1) as [(b & Hb & _ & Ho) Hno].
    destruct (Hold _ _ _ _ Hin) as [(b' & Hb' & _ & Ho')|?]; [congruence|done]. }
  specialize (IH s1 (ts ++ t1) Hok1). destruct (barrier_history ms mp ops s1) as [[s2 t2] w2].
  rewrite app_assoc. apply IH.
  - intros key g p o [Hin|Hin]%elem_of_app; [by eapply Hold|left; by eapply Ht1].
  - intros key g p o p' o' [Ha|Ha]%elem_of_app [Hb|Hb]%elem_of_app; eauto using eq_sym.
    destruct (Ht1 _ _ _ _ Ha) as [(b & E1 & _ & E2) _], (Ht1 _ _ _ _ Hb) as [(b' & E3 & _ & E4) _]. congruence.
Qed.

Lemma barrier_history_default ms mp ops :
  0 <= mp <= MAX_BARRIER_PARTICIPANTS ->
  let '(s, t, _) := barrier_history ms mp ops barrier_default in
  barrier_ok mp s /\
  forall key g p o p' o', (key, g, p, o) ∈ t -> (key, g, p', o') ∈ t -> o = o'.
Proof.
  intros [Hm Hmp]. apply (barrier_history_told ms mp ops barrier_default [] Hmp (barrier_default_ok mp Hm)).
  - intros ???? H. by apply not_elem_of_nil in H.
  - intros ?????? H. by apply not_elem_of_nil in H.
Qed.

(** C18 Users that meet at a barrier agree.  Over any history of arrivals,
    repeated polls, cancellations and completions, whatever the clients do, all
    participants that are told an outcome in one generation of a barrier are
    told the same: it was released for all of them, or timed out for all. *)
Theorem barrier_agreement (ms mp : Z) (ops : list barrier_op) :
  0 <= mp ->
  let '(ls, lp) := barrier_limits ms mp in
  let '(_, t, _) := barrier_history ls lp ops barrier_default in
  forall key g p o p' o', (key, g, p, o) ∈ t -> (key, g, p', o') ∈ t -> o = o'.
Proof.
  intros Hm. unfold barrier_limits.
  pose proof (barrier_history_default (Z.min ms MAX_BARRIER_SLOTS) (Z.min mp MAX_BARRIER_PARTICIPANTS) ops
    ltac:(unfold MAX_BARRIER_PARTICIPANTS; lia)) as H.
  destruct (barrier_history _ _ ops barrier_default) as [[s t] w]. apply H.
Qed.

Definition visitor (p : string) (now timeout : Z) : SynchronizingRequest :=
  mkRequest "gate" (Some 2) timeout now p p None None None.

(** Two users meet, and the first polls again. *)
Definition meeting : list barrier_op :=
  [OArrive (visitor "a" 0 100) 1; OArrive (visitor "b" 5 100) 2; OArrive (visitor "a" 0 100) 1].

Lemma barrier_agreement_witness :
  (barrier_history 8 8 meeting barrier_default).1.2
    = [(("gate", None), 1, "b", Released); (("gate", None), 1, "a", Released)] /\
  (let '(_, t, _) := barrier_history 8 8 meeting barrier_default in
   forall key g p o p' o', (key, g, p, o) ∈ t -> (key, g, p', o') ∈ t -> o = o').
Proof.
  split; [vm_compute; reflexivity|]. exact (barrier_agreement 8 8 meeting ltac:(lia)).
Defined.

(** The bookkeeping of the barriers never fails.  In every state the
    coordinator can reach, the participants counted are the leases, within the
    limit; each slot is held by someone, is not full while it is open, and is
    of the generation its leases were taken in; and no poll reports one of the
    errors that would show otherwise, whatever requests clients make. *)
Theorem barrier_bookkeeping (ms mp : Z) (ops : list barrier_op) (request : SynchronizingRequest) (w : Z) :
  0 <= mp ->
  let '(ls, lp) := barrier_limits ms mp in
  let '(s, _, _) := barrier_history ls lp ops barrier_default in
  barrier_ok lp s /\
  forall e, fst (poll_arrival ls lp request w s) = Err e -> ~ internal e.
Proof.
  intros Hm. unfold barrier_limits.
  pose proof (barrier_history_default (Z.min ms MAX_BARRIER_SLOTS) (Z.min mp MAX_BARRIER_PARTICIPANTS) ops
    ltac:(unfold MAX_BARRIER_PARTICIPANTS; lia)) as H.
  destruct (barrier_history _ _ ops barrier_default) as [[s t] tw].
  destruct H as [Hok _]. split; [done|]. intros e He. destruct (key_for request) as [key|e'|] eqn:Hkey.
  - pose proof (poll_arrival_post (Z.min ms MAX_BARRIER_SLOTS) (Z.min mp MAX_BARRIER_PARTICIPANTS)
      ltac:(lia) request w s key Hok Hkey) as Hp.
    destruct (poll_arrival _ _ request w s) as [[[[o|] ?]|e1|] s1]; simplify_eq/=. by destruct Hp.
  - unfold poll_arrival, st_bind at 1, st_lift at 1 in He. rewrite Hkey in He. simplify_eq/=.
    unfold key_for in Hkey. unfold internal, slot_missing.
    repeat case_if; simplify_eq; try (intuition discriminate).
    destruct (req_group_size request); [done|]. destruct (req_thread_group request); [|simplify_eq; intuition discriminate].
    case_if; simplify_eq; intuition discriminate.
  - unfold poll_arrival, st_bind at 1, st_lift at 1 in He. by rewrite Hkey in He.
Qed.

Lemma barrier_bookkeeping_witness :
  let '(s, _, _) := barrier_history 8 8 meeting barrier_default in
  barrier_ok 8 s /\
  forall e, fst (poll_arrival 8 8 (visitor "a" 20 0) 1 s) = Err e -> ~ internal e.
Proof. exact (barrier_bookkeeping 8 8 meeting (visitor "a" 20 0) 1 ltac:(lia)). Defined.

(** ** Release *)

(** A poll that succeeds has passed the checks and admits its participant. *)
Lemma poll_arrival_inv ms mp request w s key r s' :
  key_for request = Ok key -> poll_arrival ms mp request w s = (Ok r, s') ->
  exists expected d,
    expected_size s request = Ok expected /\
    let g := default generation_initial (next_generation s !! key) in
    admit_participant mp key g expected d request w
      (with_next_generation (<[key := g]> (next_generation s)) s) = (Ok r, s').
Proof.
  intros Hkey. unfold poll_arrival, st_bind at 1, st_lift at 1. rewrite Hkey. unfold st_bind at 1, st_get.
  destruct (wait_generation_overflow s); [done|]. unfold st_bind at 1, st_lift at 1.
  destruct (expected_size s request) as [expected|e|]; [|done..].
  destruct (mp <? expected); [done|]. destruct (_ && _); [done|]. case_bool_decide; [done|].
  unfold st_bind at 1, modify, st_bind at 1, st_lift.
  destruct (requested_deadline request) as [d|e|]; [|done..]. intros H'. by exists expected, d.
Qed.

(** A participant that holds a lease is told the outcome of its slot. *)
Lemma leased_poll_outcome ms mp request w s key b o r s' :
  barrier_ok mp s -> key_for request = Ok key -> slots s !! key = Some b -> slot_outcome b = Some o ->
  is_Some (arrivals b !! req_participant request) ->
  poll_arrival ms mp request w s = (Ok r, s') -> r = (Done o, []).
Proof.
  intros Hok Hkey Hb Ho Ha Hp. destruct (slot_facts mp key b s Hok Hb) as (F1 & _ & F3 & F4 & _).
  destruct (F4 _ Ha) as [g Hl]. unfold lease_of in Hl.
  apply (poll_arrival_inv ms mp request w s key) in Hp as (expected & d & _ & Hp); [|done].
  unfold admit_participant, st_bind at 1, st_get in Hp. simpl in Hp. rewrite Hb, Hl in Hp. simpl in Hp.
  destruct (negb (slot_expected b =? expected)); [done|]. destruct (negb _); [done|].
  unfold poll_again, st_bind, st_get in Hp. simpl in Hp. rewrite Hb in Hp. simpl in Hp.
  rewrite Ho, andb_false_r in Hp. simpl in Hp. by injection Hp as <- _.
Qed.

(** The arrival that releases a barrier. *)
Lemma releasing_arrival ms mp request w s key s' woken :
  mp <= MAX_BARRIER_PARTICIPANTS -> key_for request = Ok key ->
  leases s !! (key, req_participant request) = None ->
  poll_arrival ms mp request w s = (Ok (Done Released, woken), s') ->
  exists g expected d s1,
    expected_size s request = Ok expected /\ open_at key s /\ slots s1 = slots s /\
    participant_count s1 < mp /\
    arrive_rest key (req_participant request) g expected d w s1 = (Ok (Done Released, woken), s').
Proof.
  intros Hmp Hkey Hl Hp.
  apply (poll_arrival_inv ms mp request w s key) in Hp as (expected & d & He & Hp); [|done].
  unfold admit_participant, st_bind at 1, st_get in Hp. cbv zeta in Hp.
  set (s0 := with_next_generation _ s) in Hp. change (leases s0) with (leases s) in Hp.
  rewrite Hl in Hp. destruct (match slots s0 !! key with Some _ => _ | None => _ end); [done|].
  simpl in Hp. destruct (Z.leb_spec mp (participant_count s)) as [|Hc]; [done|].
  destruct (slots s !! key ≫= slot_outcome) as [o|] eqn:Ho.
  { unfold arrive_late in Hp. destruct o; [by rewrite bool_decide_eq_true_2 in Hp|].
    rewrite bool_decide_eq_false_2 in Hp by naive_solver. unfold st_bind at 1 in Hp.
    destruct (get_slot key s0) as [[b| |] s2]; [|done..]. destruct (bool_decide _); [done|].
    destruct (mp <=? _); [done|]. unfold st_bind at 1 in Hp.
    destruct (bump_barrier_wait_generation s2) as [[[]| |] s3]; [|done..]. unfold st_bind at 1 in Hp.
    by destruct (get_slot key s3) as [[b'| |] s4]. }
  destruct (slot_expired s0 key (req_now request)).
  { unfold arrive_expired, st_bind at 1 in Hp.
    destruct (bump_barrier_wait_generation s0) as [[[]| |] s2]; [|done..]. unfold st_bind at 1 in Hp.
    destruct (take_lease _ _ _ s2) as [[[]| |] s3]; [|done..].
    unfold time_out, st_bind at 1 in Hp. by destruct (get_slot key s3) as [[b'| |] s4]. }
  unfold arrive, st_bind at 1 in Hp.
  destruct (bump_barrier_cases s0) as [(s2 & Hb & E1 & _ & _ & E4 & _)|(s2 & Hb & _)]; rewrite Hb in Hp; [|done].
  eexists _, expected, d, s2. split_and!; [done| |by rewrite E1|by rewrite E4|exact Hp].
  intros b Hb0. by rewrite Hb0 in Ho.
Qed.

(** The slot after the arrival that releases it, and what the others are told. *)
Lemma group_released (ms mp : Z) (request : SynchronizingRequest) (w : Z) (s s' : BarrierState)
    (key : BarrierKey) (woken : list Z) :
  mp <= MAX_BARRIER_PARTICIPANTS -> barrier_ok mp s -> key_for request = Ok key ->
  (forall n, expected_size s request = Ok n -> 1 <= n) ->
  leases s !! (key, req_participant request) = None ->
  poll_arrival ms mp request w s = (Ok (Done Released, woken), s') ->
  exists b, slots s' !! key = Some b /\ slot_outcome b = Some Released /\
    Z.of_nat (size (arrivals b)) = slot_expected b /\ arrivals b !! req_participant request = Some w /\
    woken = arrival_wakers b /\
    forall request' w' r s2, key_for request' = Ok key -> is_Some (arrivals b !! req_participant request') ->
      poll_arrival ms mp request' w' s' = (Ok r, s2) -> r = (Done Released, []).
Proof.
  intros Hmp Hok Hkey Hpos Hl Hp.
  pose proof (poll_arrival_post ms mp Hmp request w s key Hok Hkey) as Hpost. rewrite Hp in Hpost.
  destruct Hpost as [[Hok' _] _].
  destruct (releasing_arrival ms mp request w s key s' woken Hmp Hkey Hl Hp)
    as (g & expected & d & s1 & He & Hopen & E1 & Hc & Hr).
  rewrite (arrive_rest_run mp Hmp) in Hr by done. cbv zeta in Hr.
  set (b := with_arrivals (insert (req_participant request) w) (slot_for key g expected d s1)) in Hr.
  destruct (slot_expected b <=? Z.of_nat (size (arrivals b))) eqn:Hfull; [|done]. simpl_bool.
  injection Hr as <- <-. assert (slots (joined key (req_participant request) g (settle Released b) s1) !! key
    = Some (settle Released b)) as Hb' by apply lookup_insert_eq.
  exists (settle Released b). split_and!; try done.
  - simpl. apply Z.le_antisymm; [|done]. unfold b, slot_for. rewrite E1. simpl.
    rewrite map_size_insert. destruct (slots s !! key) as [b0|] eqn:Hb0; simpl.
    + destruct (slot_facts mp key b0 s Hok Hb0) as (_ & _ & _ & _ & F5). specialize (F5 (Hopen b0 Hb0)).
      destruct (arrivals b0 !! req_participant request); simpl; lia.
    + rewrite lookup_empty, map_size_empty. specialize (Hpos _ He). lia.
  - simpl. apply lookup_insert_eq.
  - intros request' w' r s2 Hk' Ha Hp'. by eapply (leased_poll_outcome ms mp request' w' _ key).
Qed.

(** A barrier is released by exactly the group it waits for.  When a newly
    arriving user is told [Released], the slot then holds precisely the
    expected number of different users, this one among them; the wakers of all
    of them have been invoked, in the order of their names; and each of them is
    told [Released] by its next poll that is not refused.  (Group sizes are
    not zero, as their type says.) *)
Theorem barrier_releases_group (ms mp : Z) (request : SynchronizingRequest) (w : Z) (s s' : BarrierState)
    (key : BarrierKey) (woken : list Z) :
  mp <= MAX_BARRIER_PARTICIPANTS -> barrier_ok mp s -> key_for request = Ok key ->
  (forall n, expected_size s request = Ok n -> 1 <= n) ->
  leases s !! (key, req_participant request) = None ->
  poll_arrival ms mp request w s = (Ok (Done Released, woken), s') ->
  exists b, slots s' !! key = Some b /\ slot_outcome b = Some Released /\
    Z.of_nat (size (arrivals b)) = slot_expected b /\ arrivals b !! req_participant request = Some w /\
    woken = arrival_wakers b /\
    forall request' w' r s2, key_for request' = Ok key -> is_Some (arrivals b !! req_participant request') ->
      poll_arrival ms mp request' w' s' = (Ok r, s2) -> r = (Done Released, []).
Proof. apply group_released. Qed.

Lemma barrier_releases_group_witness :
  let s := (barrier_history 8 8 [OArrive (visitor "a" 0 100) 1] barrier_default).1.1 in
  let s' := snd (poll_arrival 8 8 (visitor "b" 5 100) 2 s) in
  exists b, slots s' !! ("gate", None) = Some b /\ Z.of_nat (size (arrivals b)) = slot_expected b /\
    [1; 2] = arrival_wakers b.
Proof.
  intros s s'.
  assert (poll_arrival 8 8 (visitor "b" 5 100) 2 s = (Ok (Done Released, [1; 2]), s')) as E
    by (vm_compute; reflexivity).
  destruct (barrier_releases_group 8 8 (visitor "b" 5 100) 2 s s' ("gate", None) [1; 2])
    as (b & H1 & _ & H2 & _ & H3 & _).
  - unfold MAX_BARRIER_PARTICIPANTS. lia.
  - pose proof (barrier_history_default 8 8 [OArrive (visitor "a" 0 100) 1]
      ltac:(unfold MAX_BARRIER_PARTICIPANTS; lia)) as H. subst s.
    destruct (barrier_history 8 8 _ barrier_default) as [[s t] tw]. exact (proj1 H).
  - reflexivity.
  - intros n Hn. vm_compute in Hn. injection Hn as <-. lia.
  - vm_compute. reflexivity.
  - exact E.
  - exists b. auto.
Defined.

(** ** Users left behind *)

Definition trio (p : string) (now timeout : Z) : SynchronizingRequest :=
  mkRequest "gate" (Some 3) timeout now p p None None None.

(** User a times out: its next poll, with the time of its arrival as before,
    still waits, and it completes with [TimedOut], as the synchronizing timer
    does when its own deadline has come. *)
Definition timing_out : list barrier_op :=
  [OArrive (trio "a" 0 10) 1; OArrive (trio "b" 5 10) 2; OArrive (trio "a" 0 10) 1;
   OComplete (trio "a" 0 10) TimedOut].

(** Two things a barrier does to those who are still in it.  When a user
    times out and completes, the generation is settled as [TimedOut] while
    another user is waiting in it, and nobody is woken.  And a user that was
    released, completed, and comes back before the other one has completed is
    not made to wait for the next generation: it is refused with an error. *)
Theorem barrier_stragglers :
  (let '(s, t, woken) := barrier_history 8 8 timing_out barrier_default in
   t = [] /\ woken = [] /\
   option_map (fun b => (slot_outcome b, map_to_list (arrivals b))) (slots s !! ("gate", None))
     = Some (Some TimedOut, [("b", 2)])) /\
  (let '(s, _, _) :=
     barrier_history 8 8 (meeting ++ [OComplete (visitor "a" 0 100) Released]) barrier_default in
   fst (poll_arrival 8 8 (visitor "a" 20 100) 1 s)
     = Err (Failure "synchronizing barrier generation is closed")).
Proof. vm_compute. split_and!; reflexivity. Qed.
