(* ===== verification/Timing.v ===== *)
(** * Sample timing

    Models [crates/results/src/timing.rs]: wall timestamps (signed, in
    milliseconds), the four duration types (non-negative, in milliseconds),
    and [SampleTiming], the timing fields of a sample result with their
    lifecycle: start, pauses, markers, end, and the aggregation of children.
    A mutating method is a computation on the [SampleTiming] it borrows, so
    that what an error leaves behind is part of the model. *)

From S2P Require Import Prelude.

(** ** Errors: [crates/results/src/error.rs] *)

Inductive ResultField :=
| FTimestamp | FElapsed | FLatency | FConnect | FIdle | FReceivedBytes | FSentBytes | FSampleCount
| FErrorCount | FThreadCount | FLabel | FAssertion | FSubResults.

Inductive TimingViolation :=
| EndBeforeStart
| ElapsedExceedsWallSpan
| LatencyExceedsElapsed
| ConnectExceedsElapsed
| IdleExceedsElapsed.

Inductive InputField :=
| NegativeNumber (field : ResultField)
| EmptyLimit
| Value (field : ResultField).

Inductive HierarchyLimit := Depth | Nodes.

Inductive AssertionViolation := FailureAndError.

(** [ResultError], but for its [Context] wrapper, which callers put around an
    error for diagnostics and no operation of this module produces. *)
Inductive ResultError :=
| InvalidInput (field : InputField)
| InvalidTiming (violation : TimingViolation)
| Overflow (field : ResultField)
| HierarchyLimitExceeded (limit : HierarchyLimit) (actual maximum : Z)
| InvalidHierarchy (field : ResultField)
| InvalidAssertion (violation : AssertionViolation)
| ContextLimit (actual maximum : Z).

(** ** Timestamps and durations *)

Definition in_i64 (z : Z) : Prop := i64_min <= z <= i64_max.

Definition i64_checked_add (a b : Z) : option Z :=
  if (i64_min <=? a + b) && (a + b <=? i64_max) then Some (a + b) else None.

(** [WallTimestamp::checked_add_millis] *)
Definition checked_add_millis (self value : Z) : result ResultError Z :=
  ok_or (i64_checked_add self value) (Overflow FTimestamp).

(** [u64::try_from] *)
Definition u64_try_from (z : Z) : option Z :=
  if (0 <=? z) && (z <=? u64_max) then Some z else None.

(** [WallTimestamp::checked_span_to]; the subtraction is in [i128]. *)
Definition checked_span_to (self later : Z) : result ResultError Z :=
  if later <? self then Err (InvalidTiming EndBeforeStart)
  else ok_or (u64_try_from (later - self)) (Overflow FElapsed).

(** [try_from_duration] of a duration type with field [f]; a [Duration] is
    its number of nanoseconds. *)
Definition try_from_duration (f : ResultField) (nanos : Z) : result ResultError Z :=
  ok_or (u64_try_from (nanos / 1000000)) (Overflow f).

(** [checked_add] and [try_from_i64] of a duration type *)
Definition checked_add (f : ResultField) (a b : Z) : result ResultError Z :=
  ok_or (u64_checked_add a b) (Overflow f).

Definition try_from_i64 (f : ResultField) (value : Z) : result ResultError Z :=
  ok_or (u64_try_from value) (InvalidInput (NegativeNumber f)).

Inductive TimestampSource := SourceStart | SourceEnd.

(** [TimestampSource::select] *)
Definition select (source : TimestampSource) (start end_ : Z) : Z :=
  match source with SourceStart => start | SourceEnd => end_ end.

Record TimingReading := mkReading {
  wall : Z;
  monotonic : Z
}.

(** [TimingReading::checked_elapsed_to] *)
Definition checked_elapsed_to (self later : TimingReading) : result ResultError Z :=
  if monotonic later <? monotonic self then Err (InvalidTiming EndBeforeStart)
  else try_from_duration FElapsed (monotonic later - monotonic self).

(** ** [SampleTiming] *)

Record SampleTiming := mkTiming {
  t_timestamp : option Z;
  t_start : option Z;
  t_end : option Z;
  t_pause_start : option Z;
  t_elapsed : option Z;
  t_latency : option Z;
  t_connect : option Z;
  t_idle : option Z
}.

#[global] Instance SampleTiming_eq_dec : EqDecision SampleTiming.
Proof. solve_decision. Defined.

Definition timing_default : SampleTiming := mkTiming None None None None None None None None.

Definition with_timestamp v t := mkTiming v (t_start t) (t_end t) (t_pause_start t) (t_elapsed t)
  (t_latency t) (t_connect t) (t_idle t).
Definition with_start v t := mkTiming (t_timestamp t) v (t_end t) (t_pause_start t) (t_elapsed t)
  (t_latency t) (t_connect t) (t_idle t).
Definition with_end v t := mkTiming (t_timestamp t) (t_start t) v (t_pause_start t) (t_elapsed t)
  (t_latency t) (t_connect t) (t_idle t).
Definition with_pause v t := mkTiming (t_timestamp t) (t_start t) (t_end t) v (t_elapsed t)
  (t_latency t) (t_connect t) (t_idle t).
Definition with_elapsed v t := mkTiming (t_timestamp t) (t_start t) (t_end t) (t_pause_start t) v
  (t_latency t) (t_connect t) (t_idle t).
Definition with_latency v t := mkTiming (t_timestamp t) (t_start t) (t_end t) (t_pause_start t)
  (t_elapsed t) v (t_connect t) (t_idle t).
Definition with_connect v t := mkTiming (t_timestamp t) (t_start t) (t_end t) (t_pause_start t)
  (t_elapsed t) (t_latency t) v (t_idle t).
Definition with_idle v t := mkTiming (t_timestamp t) (t_start t) (t_end t) (t_pause_start t)
  (t_elapsed t) (t_latency t) (t_connect t) v.

(** [checked_wall_span] *)
Definition checked_wall_span (t : SampleTiming) : result ResultError (option Z) :=
  match t_start t, t_end t with
  | Some start, Some end_ => let? span := checked_span_to start end_ in Ok (Some span)
  | _, _ => Ok None
  end.

(** [timestamp_for] *)
Definition timestamp_for (t : SampleTiming) (source : TimestampSource) : option Z :=
  match source with
  | SourceStart => match t_start t with Some v => Some v | None => t_timestamp t end
  | SourceEnd => match t_end t with Some v => Some v | None => t_timestamp t end
  end.

Definition exceeds (part whole : option Z) : bool :=
  match whole, part with
  | Some w, Some p => w <? p
  | _, _ => false
  end.

(** [validate_components] and [validate] *)
Definition validate_components (t : SampleTiming) : result ResultError () :=
  if exceeds (t_latency t) (t_elapsed t) then Err (InvalidTiming LatencyExceedsElapsed)
  else if exceeds (t_connect t) (t_elapsed t) then Err (InvalidTiming ConnectExceedsElapsed)
  else if exceeds (t_idle t) (t_elapsed t) then Err (InvalidTiming IdleExceedsElapsed)
  else Ok ().

Definition validate (t : SampleTiming) : result ResultError () :=
  let? span := checked_wall_span t in
  if exceeds (t_elapsed t) span then Err (InvalidTiming ElapsedExceedsWallSpan)
  else validate_components t.

(** [from_parts] (and [new]), [from_wire_parts] *)
Definition from_wire_parts (timestamp start end_ elapsed latency connect idle : option Z) : SampleTiming :=
  mkTiming timestamp start end_ None elapsed latency connect idle.

Definition from_parts (timestamp start end_ elapsed latency connect idle : option Z) :
    result ResultError SampleTiming :=
  let timing := mkTiming timestamp start end_ None elapsed latency connect idle in
  let? _ := validate timing in Ok timing.

(** [span.checked_sub(idle)] with its error *)
Definition minus_idle (span idle : Z) : result ResultError Z :=
  ok_or (u64_checked_sub span idle) (InvalidTiming IdleExceedsElapsed).

(** [from_clock_readings] *)
Definition from_clock_readings (start end_ : TimingReading) (source : TimestampSource)
    (latency connect idle : option Z) : result ResultError SampleTiming :=
  let? elapsed := checked_elapsed_to start end_ in
  let? elapsed_millis := minus_idle elapsed (default 0 idle) in
  let timestamp := select source (wall start) (wall end_) in
  from_parts (Some timestamp) (Some (wall start)) (Some (wall end_)) (Some elapsed_millis)
    latency connect idle.

Definition TM (A : Type) : Type := ST SampleTiming ResultError A.

(** [replace_checked]: the previous value is put back on an error. *)
Definition replace_checked (update : SampleTiming -> SampleTiming) : TM () :=
  do! previous <- st_get in
  st_put (update previous) ;!
  do! timing <- st_get in
  match validate timing with
  | Err error => st_put previous ;! st_fail error
  | Ok _ => st_ret ()
  | OutOfFuel => st_lift OutOfFuel
  end.

(** The setters *)
Definition set_timestamp (v : option Z) : TM () :=
  do! t <- st_get in st_put (with_timestamp v t).
Definition set_start (v : option Z) : TM () := replace_checked (with_start v).
Definition set_end (v : option Z) : TM () := replace_checked (with_end v).
Definition set_elapsed (v : option Z) : TM () := replace_checked (with_elapsed v).
Definition set_latency (v : option Z) : TM () := replace_checked (with_latency v).
Definition set_connect (v : option Z) : TM () := replace_checked (with_connect v).
Definition set_idle (v : option Z) : TM () := replace_checked (with_idle v).

Definition already : ResultError := InvalidInput (Value FTimestamp).

(** [sample_pause_at] *)
Definition sample_pause_at (at_ : Z) : TM () :=
  do! t <- st_get in
  match t_pause_start t with
  | Some _ => st_fail already
  | None => st_put (with_pause (Some at_) t)
  end.

(** The elapsed time between the endpoints, idle time excluded, put into the
    candidate of [sample_resume_at], [sample_end_at] and [aggregate_child]. *)
Definition derive_elapsed (candidate : SampleTiming) : result ResultError SampleTiming :=
  match t_start candidate, t_end candidate with
  | Some start, Some end_ =>
      let? span := checked_span_to start end_ in
      let? elapsed := minus_idle span (default 0 (t_idle candidate)) in
      Ok (with_elapsed (Some elapsed) candidate)
  | _, _ => Ok candidate
  end.

(** [sample_resume_at] *)
Definition sample_resume_at (at_ : Z) : TM Z :=
  do! t <- st_get in
  match t_pause_start t with
  | None => st_fail already
  | Some start =>
      do! duration <- st_lift (checked_span_to start at_) in
      do! idle <- st_lift (checked_add FIdle (default 0 (t_idle t)) duration) in
      do! candidate <- st_lift (derive_elapsed (with_idle (Some idle) (with_pause None t))) in
      do! _ <- st_lift (validate_components candidate) in
      st_put candidate ;! st_ret duration
  end.

(** [sample_start_at], [sample_start_at_with_source] *)
Definition sample_start_at (at_ : Z) : TM () :=
  do! t <- st_get in
  match t_start t with
  | Some _ => st_fail already
  | None => st_put (with_start (Some at_) t)
  end.

Definition sample_start_at_with_source (at_ : Z) (source : TimestampSource) : TM () :=
  sample_start_at at_ ;!
  match source with
  | SourceStart => do! t <- st_get in st_put (with_timestamp (Some at_) t)
  | SourceEnd => st_ret ()
  end.

(** [sample_end_at], [sample_end_at_with_source] *)
Definition sample_end_at (at_ : Z) : TM () :=
  do! t <- st_get in
  match t_end t with
  | Some _ => st_fail already
  | None =>
      do! candidate <- st_lift (derive_elapsed (with_end (Some at_) t)) in
      do! _ <- st_lift (validate candidate) in
      st_put candidate
  end.

Definition sample_end_at_with_source (at_ : Z) (source : TimestampSource) : TM () :=
  do! previous <- st_get in
  sample_end_at at_ ;!
  do! t <- st_get in
  let t' := with_timestamp (match source with SourceStart => t_start t | SourceEnd => t_end t end) t in
  st_put t' ;!
  match validate t' with
  | Err error => st_put previous ;! st_fail error
  | Ok _ => st_ret ()
  | OutOfFuel => st_lift OutOfFuel
  end.

(** [elapsed_since_start], [latency_end_at], [connect_end_at] *)
Definition elapsed_since_start (t : SampleTiming) (at_ : Z) : result ResultError Z :=
  let? start := ok_or (t_start t) already in
  let? span := checked_span_to start at_ in
  minus_idle span (default 0 (t_idle t)).

Definition latency_end_at (at_ : Z) : TM Z :=
  do! t <- st_get in
  do! value <- st_lift (elapsed_since_start t at_) in
  replace_checked (with_latency (Some value)) ;! st_ret value.

Definition connect_end_at (at_ : Z) : TM Z :=
  do! t <- st_get in
  do! value <- st_lift (elapsed_since_start t at_) in
  replace_checked (with_connect (Some value)) ;! st_ret value.

(** [aggregate_child] *)
Definition aggregate_child (child : SampleTiming) : TM () :=
  do! t <- st_get in
  let candidate :=
    match t_end child with
    | None => t
    | Some child_end =>
        with_end (Some (match t_end t with
                        | Some parent_end => if child_end <? parent_end then parent_end else child_end
                        | None => child_end
                        end)) t
    end in
  let candidate :=
    match t_elapsed candidate with
    | None => with_elapsed (t_elapsed child) candidate
    | Some _ => candidate
    end in
  do! candidate <- st_lift (derive_elapsed candidate) in
  do! _ <- st_lift (validate candidate) in
  st_put candidate.

(** ** Typed values *)

Definition opt_in (P : Z -> Prop) (o : option Z) : Prop := match o with Some v => P v | None => True end.

(** The fields have values of their Rust types. *)
Record typed (t : SampleTiming) : Prop := {
  ty_timestamp : opt_in in_i64 (t_timestamp t);
  ty_start : opt_in in_i64 (t_start t);
  ty_end : opt_in in_i64 (t_end t);
  ty_pause : opt_in in_i64 (t_pause_start t);
  ty_elapsed : opt_in in_u64 (t_elapsed t);
  ty_latency : opt_in in_u64 (t_latency t);
  ty_connect : opt_in in_u64 (t_connect t);
  ty_idle : opt_in in_u64 (t_idle t)
}.

Lemma u64_try_from_Some z v : u64_try_from z = Some v <-> v = z /\ in_u64 z.
Proof. unfold u64_try_from, in_u64. case_if; simpl_bool; naive_solver lia. Qed.

Lemma checked_span_Ok a b v :
  checked_span_to a b = Ok v -> v = b - a /\ in_u64 v.
Proof.
  unfold checked_span_to. case_if; [done|]. rewrite ok_or_Ok, u64_try_from_Some. by intros [-> ?].
Qed.

(** The span of two timestamps never overflows. *)
Lemma checked_span_total a b :
  in_i64 a -> in_i64 b -> a <= b -> checked_span_to a b = Ok (b - a).
Proof.
  unfold in_i64, i64_min, i64_max. intros Ha Hb Hab. unfold checked_span_to.
  rewrite (proj2 (Z.ltb_ge _ _)) by done. apply ok_or_Ok, u64_try_from_Some.
  split; [done|]. unfold in_u64, u64_max. lia.
Qed.

Lemma minus_idle_Ok span idle v : minus_idle span idle = Ok v <-> idle <= span /\ v = span - idle.
Proof. unfold minus_idle. rewrite ok_or_Ok. rewrite u64_checked_sub_Some. naive_solver. Qed.

Lemma typed_idle t : typed t -> in_u64 (default 0 (t_idle t)).
Proof. intros [_ _ _ _ _ _ _ H]. destruct (t_idle t); simpl in *; [done|]. unfold in_u64, u64_max. lia. Qed.

Lemma derive_elapsed_cases c c' :
  derive_elapsed c = Ok c' ->
  (exists a b, t_start c = Some a /\ t_end c = Some b /\ a <= b /\ in_u64 (b - a) /\
     default 0 (t_idle c) <= b - a /\
     c' = with_elapsed (Some (b - a - default 0 (t_idle c))) c) \/
  (c' = c /\ (t_start c = None \/ t_end c = None)).
Proof.
  unfold derive_elapsed. destruct (t_start c) as [a|]; [|intros [= <-]; right; auto].
  destruct (t_end c) as [b|]; [|intros [= <-]; right; auto].
  intros (span & Hs & (e & He & [= <-])%res_bind_Ok)%res_bind_Ok.
  apply checked_span_Ok in Hs as [-> Hu]. apply minus_idle_Ok in He as [Hle ->].
  left. exists a, b. split_and!; try done. unfold in_u64 in Hu. lia.
Qed.

Lemma derive_elapsed_typed c c' : typed c -> derive_elapsed c = Ok c' -> typed c'.
Proof.
  intros Hc [(a & b & _ & _ & _ & Hu & Hle & ->)|[-> _]]%derive_elapsed_cases; [|done].
  pose proof (typed_idle c Hc) as Hi. destruct Hc. split; simpl; try done. unfold in_u64 in *. lia.
Qed.

(** Deriving the elapsed time settles the relation to the wall span. *)
Lemma derive_elapsed_valid c c' :
  typed c -> derive_elapsed c = Ok c' -> validate_components c' = Ok () -> validate c' = Ok ().
Proof.
  intros Hc H Hv. pose proof (typed_idle c Hc) as Hi. unfold validate, checked_wall_span.
  apply derive_elapsed_cases in H as [(a & b & Ha & Hb & Hab & Hu & Hle & ->)|[-> [H|H]]].
  - simpl. rewrite Ha, Hb. unfold checked_span_to. rewrite (proj2 (Z.ltb_ge _ _)) by done.
    rewrite (proj2 (u64_try_from_Some (b - a) (b - a))) by done. simpl.
    rewrite (proj2 (Z.ltb_ge _ _)); [done|]. unfold in_u64 in *. lia.
  - by rewrite H.
  - rewrite H. by destruct (t_start c).
Qed.

(** ** Operations *)

Inductive timing_op :=
| SetTimestamp (v : option Z) | SetStart (v : option Z) | SetEnd (v : option Z)
| SetElapsed (v : option Z) | SetLatency (v : option Z) | SetConnect (v : option Z)
| SetIdle (v : option Z)
| StartAt (at_ : Z) (source : option TimestampSource)
| PauseAt (at_ : Z) | ResumeAt (at_ : Z) | LatencyEndAt (at_ : Z) | ConnectEndAt (at_ : Z)
| EndAt (at_ : Z) (source : option TimestampSource)
| AggregateChild (child : SampleTiming).

Definition apply_timing (o : timing_op) : TM () :=
  match o with
  | SetTimestamp v => set_timestamp v
  | SetStart v => set_start v
  | SetEnd v => set_end v
  | SetElapsed v => set_elapsed v
  | SetLatency v => set_latency v
  | SetConnect v => set_connect v
  | SetIdle v => set_idle v
  | StartAt a None => sample_start_at a
  | StartAt a (Some source) => sample_start_at_with_source a source
  | PauseAt a => sample_pause_at a
  | ResumeAt a => do! _ <- sample_resume_at a in st_ret ()
  | LatencyEndAt a => do! _ <- latency_end_at a in st_ret ()
  | ConnectEndAt a => do! _ <- connect_end_at a in st_ret ()
  | EndAt a None => sample_end_at a
  | EndAt a (Some source) => sample_end_at_with_source a source
  | AggregateChild c => aggregate_child c
  end.

(** The arguments have values of their types. *)
Definition op_typed (o : timing_op) : Prop :=
  match o with
  | SetTimestamp v | SetStart v | SetEnd v => opt_in in_i64 v
  | SetElapsed v | SetLatency v | SetConnect v | SetIdle v => opt_in in_u64 v
  | StartAt a _ | PauseAt a | ResumeAt a | LatencyEndAt a | ConnectEndAt a | EndAt a _ => in_i64 a
  | AggregateChild c => typed c
  end.

(** The one operation that does not look at an end recorded before. *)
Definition in_order (o : timing_op) (t : SampleTiming) : Prop :=
  match o with StartAt _ _ => t_end t = None | _ => True end.

Definition timing_ok (t : SampleTiming) : Prop := typed t /\ validate t = Ok ().

(** What an operation may do to a timing value. *)
Definition outcome_ok {A} (t : SampleTiming) (res : result ResultError A * SampleTiming) : Prop :=
  match res with
  | (Ok _, t') => timing_ok t'
  | (Err _, t') => t' = t
  | (OutOfFuel, _) => False
  end.

Lemma validate_total t : validate t <> OutOfFuel.
Proof.
  unfold validate, checked_wall_span, checked_span_to.
  assert (validate_components t <> OutOfFuel) as Hc
    by (unfold validate_components; repeat case_if; done).
  destruct (t_start t); [|by simpl]. destruct (t_end t); [|by simpl].
  case_if; simpl; [done|]. destruct (u64_try_from _); simpl; [|done]. by destruct (_ : bool).
Qed.

Lemma replace_checked_outcome f t :
  typed (f t) -> outcome_ok t (replace_checked f t).
Proof.
  intros Hf. unfold replace_checked, st_bind, st_get, st_put, st_fail, st_ret, st_lift.
  pose proof (validate_total (f t)). destruct (validate (f t)) as [[]|e|] eqn:E; simpl; try done.
Qed.

(** A result computed before the state is replaced: an error changes nothing. *)
Lemma lift_outcome {A B} (r : result ResultError A) (k : A -> TM B) t :
  r <> OutOfFuel -> (forall a, r = Ok a -> outcome_ok t (k a t)) ->
  outcome_ok t (st_bind (st_lift r) k t).
Proof. intros Hr Hk. unfold st_bind, st_lift. destruct r; simpl in *; auto. Qed.

Lemma ret_outcome {A B} (m : TM A) (b : B) t :
  outcome_ok t (m t) -> outcome_ok t ((do! _ <- m in st_ret b) t).
Proof. unfold st_bind, st_ret. by destruct (m t) as [[a|e|] t1]. Qed.

Lemma checked_span_fuel a b : checked_span_to a b <> OutOfFuel.
Proof. unfold checked_span_to. case_if; [done|]. by destruct (u64_try_from _). Qed.

Lemma minus_idle_fuel span idle : minus_idle span idle <> OutOfFuel.
Proof. unfold minus_idle. by destruct (u64_checked_sub _ _). Qed.

Lemma derive_elapsed_fuel c : derive_elapsed c <> OutOfFuel.
Proof.
  unfold derive_elapsed. destruct (t_start c); [|done]. destruct (t_end c); [|done].
  pose proof (checked_span_fuel z z0). destruct (checked_span_to z z0); simpl; try done.
  pose proof (minus_idle_fuel a (default 0 (t_idle c))). by destruct (minus_idle _ _).
Qed.

Lemma elapsed_since_start_fuel t a : elapsed_since_start t a <> OutOfFuel.
Proof.
  unfold elapsed_since_start. destruct (t_start t); simpl; [|done].
  pose proof (checked_span_fuel z a). destruct (checked_span_to z a); simpl; try done.
  apply minus_idle_fuel.
Qed.

Lemma elapsed_since_start_u64 t a v : typed t -> elapsed_since_start t a = Ok v -> in_u64 v.
Proof.
  intros Ht (s & _ & (span & Hs & He)%res_bind_Ok)%res_bind_Ok.
  apply checked_span_Ok in Hs as [-> Hu]. apply minus_idle_Ok in He as [Hle ->].
  apply typed_idle in Ht. unfold in_u64 in *. lia.
Qed.

#[local] Hint Resolve checked_span_fuel minus_idle_fuel derive_elapsed_fuel elapsed_since_start_fuel
  validate_total : core.

(** The candidate of an operation is committed when it is valid. *)
Lemma commit_outcome c t :
  typed c ->
  outcome_ok t ((do! candidate <- st_lift (derive_elapsed c) in
                 do! _ <- st_lift (validate candidate) in st_put candidate) t).
Proof.
  intros Hc. apply lift_outcome; [auto|]. intros c' Hd.
  apply lift_outcome; [auto|]. intros [] Hv. split; [|done]. by eapply derive_elapsed_typed.
Qed.

Lemma typed_with t :
  typed t ->
  (forall v, opt_in in_i64 v -> typed (with_timestamp v t) /\ typed (with_start v t) /\
     typed (with_end v t) /\ typed (with_pause v t)) /\
  (forall v, opt_in in_u64 v -> typed (with_elapsed v t) /\ typed (with_latency v t) /\
     typed (with_connect v t) /\ typed (with_idle v t)).
Proof. intros []. split; intros v Hv; split_and!; by split. Qed.

Lemma sample_start_outcome a t :
  timing_ok t -> in_i64 a -> t_end t = None -> outcome_ok t (sample_start_at a t).
Proof.
  intros [Ht Hv] Ha He. unfold sample_start_at, st_bind, st_get.
  destruct (t_start t) eqn:Hs; simpl; [done|]. split; [by apply typed_with|].
  revert Hv. unfold validate, checked_wall_span. simpl. by rewrite Hs, He.
Qed.

Lemma sample_end_outcome a t : timing_ok t -> in_i64 a -> outcome_ok t (sample_end_at a t).
Proof.
  intros [Ht Hv] Ha. unfold sample_end_at, st_bind at 1, st_get.
  destruct (t_end t) eqn:Hs; [done|]. apply commit_outcome. by apply typed_with.
Qed.

Lemma sample_resume_outcome a t : timing_ok t -> in_i64 a -> outcome_ok t (sample_resume_at a t).
Proof.
  intros [Ht Hv] Ha. unfold sample_resume_at, st_bind at 1, st_get.
  destruct (t_pause_start t) as [p|] eqn:Hp; [|done].
  apply lift_outcome; [auto|]. intros d Hd.
  apply lift_outcome; [unfold checked_add; by destruct (u64_checked_add _ _)|]. intros i Hi.
  assert (typed (with_idle (Some i) (with_pause None t))) as Hc.
  { apply typed_with; [by apply typed_with|]. simpl. apply checked_span_Ok in Hd as [_ Hd].
    apply typed_idle in Ht. apply ok_or_Ok, u64_checked_add_Some in Hi.
    unfold in_u64 in *. lia. }
  apply lift_outcome; [auto|]. intros c Hd'.
  apply lift_outcome; [unfold validate_components; repeat case_if; done|]. intros [] Hcv.
  split; [by eapply derive_elapsed_typed|by eapply derive_elapsed_valid].
Qed.

Lemma sample_end_source_outcome a source t :
  timing_ok t -> in_i64 a -> outcome_ok t (sample_end_at_with_source a source t).
Proof.
  intros Ht Ha. pose proof (sample_end_outcome a t Ht Ha) as He.
  unfold sample_end_at_with_source, st_bind, st_get, st_put, st_fail, st_ret, st_lift.
  destruct (sample_end_at a t) as [[[]|e|] t1]; simpl in *; try done. destruct He as [H1 _].
  set (t2 := with_timestamp _ t1). pose proof (validate_total t2).
  destruct (validate t2) as [[]|e|] eqn:E; try done. split; [|done].
  apply typed_with; [done|]. destruct H1, source; done.
Qed.

Lemma aggregate_child_outcome c t : timing_ok t -> typed c -> outcome_ok t (aggregate_child c t).
Proof.
  intros [Ht Hv] Hc. unfold aggregate_child, st_bind at 1, st_get. cbv zeta.
  apply commit_outcome.
  set (t1 := match t_end c with Some _ => _ | None => _ end).
  assert (typed t1) as H1.
  { subst t1. destruct (t_end c) eqn:Ec; [|done]. apply typed_with; [done|]. simpl.
    destruct Hc as [_ _ Hc _ _ _ _ _]. rewrite Ec in Hc. destruct Ht as [_ _ Ht _ _ _ _ _].
    destruct (t_end t); [case_if|]; done. }
  destruct (t_elapsed t1); [done|]. apply typed_with; [done|]. by destruct Hc.
Qed.

Lemma marker_outcome (f : option Z -> SampleTiming -> SampleTiming) a t :
  typed t -> (forall v, opt_in in_u64 v -> typed (f v t)) ->
  outcome_ok t ((do! t <- st_get in
    do! value <- st_lift (elapsed_since_start t a) in
    replace_checked (f (Some value)) ;! st_ret value) t).
Proof.
  intros Ht Hf. unfold st_bind at 1, st_get. apply lift_outcome; [auto|]. intros v Hv.
  apply ret_outcome, replace_checked_outcome, Hf. by eapply elapsed_since_start_u64.
Qed.

(** A timing value that is typed and valid (end after start, elapsed within
    the wall span, latency, connect and idle time within the elapsed time)
    stays so under every operation that succeeds, and an operation that fails,
    for whatever reason, leaves it as it was.  The start of a sample is the
    one operation that must come before the end is recorded. *)
Theorem timing_op_safe (o : timing_op) (t : SampleTiming) :
  timing_ok t -> op_typed o -> in_order o t -> outcome_ok t (apply_timing o t).
Proof.
  intros Ht Ho Hord. pose proof Ht as [Hty Hv]. pose proof (typed_with t Hty) as [H64 Hu].
  destruct o; simpl in *; try (apply replace_checked_outcome; by (apply H64 || apply Hu)).
  - split; [by apply H64|done].
  - pose proof (sample_start_outcome at_ t Ht Ho Hord) as Hs. destruct source as [s|]; [|done].
    unfold sample_start_at_with_source, st_bind. destruct (sample_start_at at_ t) as [[[]|e|] t1]; try done.
    destruct s; [|done]. destruct Hs. split; [by apply typed_with|done].
  - unfold sample_pause_at, st_bind, st_get. destruct (t_pause_start t); [done|].
    split; [by apply H64|done].
  - by apply ret_outcome, sample_resume_outcome.
  - apply ret_outcome. apply (marker_outcome with_latency); [done|]. intros v Hx. by apply Hu.
  - apply ret_outcome. apply (marker_outcome with_connect); [done|]. intros v Hx. by apply Hu.
  - destruct source; [by apply sample_end_source_outcome|by apply sample_end_outcome].
  - by apply aggregate_child_outcome.
Qed.

Definition example_timing : SampleTiming :=
  mkTiming (Some 100) (Some 100) None None None None None None.

Lemma timing_op_safe_witness :
  fst (apply_timing (EndAt 160 (Some SourceEnd)) example_timing) = Ok () /\
  timing_ok (snd (apply_timing (EndAt 160 (Some SourceEnd)) example_timing)) /\
  outcome_ok example_timing (apply_timing (EndAt 40 None) example_timing).
Proof.
  assert (timing_ok example_timing) as H by (repeat split; simpl; vm_compute; intuition discriminate).
  split; [vm_compute; reflexivity|]. split.
  - apply (timing_op_safe (EndAt 160 (Some SourceEnd)) example_timing H); simpl; [|exact I].
    vm_compute; intuition discriminate.
  - apply (timing_op_safe (EndAt 40 None) example_timing H); simpl; [|exact I].
    vm_compute; intuition discriminate.
Defined.

(** ** The life of a sample *)

Fixpoint pause_all (ps : list (Z * Z)) : TM () :=
  match ps with
  | [] => st_ret ()
  | (p, q) :: rest =>
      sample_pause_at p ;! (do! _ <- sample_resume_at q in pause_all rest)
  end.

(** A sample: it starts, is paused and resumed some number of times, and ends. *)
Definition lifecycle (start : Z) (ps : list (Z * Z)) (end_ : Z) : TM () :=
  sample_start_at start ;! pause_all ps ;! sample_end_at end_.

(** The times follow each other and are timestamps. *)
Fixpoint chronological (from : Z) (ps : list (Z * Z)) (end_ : Z) : Prop :=
  in_i64 from /\
  match ps with
  | [] => from <= end_ /\ in_i64 end_
  | (p, q) :: rest => from <= p <= q /\ chronological q rest end_
  end.

Definition paused (ps : list (Z * Z)) : Z := foldr (fun pq s => snd pq - fst pq + s) 0 ps.

Lemma paused_bounds from ps end_ :
  chronological from ps end_ -> 0 <= paused ps <= end_ - from.
Proof.
  revert from. induction ps as [|[p q] ps IH]; simpl; intros from H.
  - destruct H as (_ & ? & _). lia.
  - destruct H as (_ & ? & H). specialize (IH _ H). lia.
Qed.

Lemma chronological_i64 from ps end_ : chronological from ps end_ -> in_i64 from /\ in_i64 end_.
Proof.
  revert from. induction ps as [|[p q] ps IH]; simpl; intros from H; [tauto|].
  destruct H as (? & _ & H). apply IH in H. tauto.
Qed.

(** A running sample that has been idle for [i]. *)
Definition running (start : Z) (i : option Z) : SampleTiming :=
  mkTiming None (Some start) None None None None None i.

Definition idle_after (i : option Z) (ps : list (Z * Z)) : option Z :=
  match ps with [] => i | _ => Some (default 0 i + paused ps) end.

Lemma pause_resume_running start i p q :
  in_i64 p -> in_i64 q -> p <= q -> 0 <= default 0 i -> default 0 i + (q - p) <= u64_max ->
  (sample_pause_at p ;! sample_resume_at q) (running start i)
  = (Ok (q - p), running start (Some (default 0 i + (q - p)))).
Proof.
  intros Hp Hq Hle Hi Hmax. unfold st_bind at 1, sample_pause_at, sample_resume_at. cbn.
  unfold st_bind, st_lift, st_put, st_get, st_ret. rewrite checked_span_total by done. cbn.
  unfold checked_add. rewrite (proj2 (u64_checked_add_Some _ _ (default 0 i + (q - p)))) by lia.
  reflexivity.
Qed.

Lemma pause_all_running start i from ps end_ :
  chronological from ps end_ -> 0 <= default 0 i -> default 0 i + (end_ - from) <= u64_max ->
  pause_all ps (running start i) = (Ok (), running start (idle_after i ps)).
Proof.
  revert i from. induction ps as [|[p q] ps IH]; intros i from H Hi Hmax; [done|].
  pose proof (paused_bounds _ _ _ H) as Hb. simpl in H. destruct H as (Hf & Hpq & H).
  pose proof (chronological_i64 _ _ _ H) as [Hq He]. pose proof (paused_bounds _ _ _ H) as Hb'.
  assert (in_i64 p) by (unfold in_i64 in *; lia).
  pose proof (pause_resume_running start i p q ltac:(done) Hq ltac:(lia) Hi ltac:(lia)) as Hs.
  simpl pause_all. unfold st_bind in Hs |- *.
  destruct (sample_pause_at p (running start i)) as [[[]|e|] t1]; try done.
  rewrite Hs, (IH _ q) by (simpl; done || lia).
  destruct ps as [|pq ps]; simpl; do 3 f_equal; lia.
Qed.

Lemma end_running start i end_ :
  in_i64 start -> in_i64 end_ -> start <= end_ -> 0 <= default 0 i <= end_ - start ->
  sample_end_at end_ (running start i) =
    if 2 * default 0 i <=? end_ - start then
      (Ok (), mkTiming None (Some start) (Some end_) None (Some (end_ - start - default 0 i)) None None i)
    else (Err (InvalidTiming IdleExceedsElapsed), running start i).
Proof.
  intros Hs He Hle Hi. unfold sample_end_at, st_bind, st_lift, st_get, st_put, derive_elapsed. cbn.
  rewrite checked_span_total by done. cbn.
  unfold minus_idle. rewrite (proj2 (u64_checked_sub_Some _ _ (end_ - start - default 0 i))) by lia.
  cbn. unfold validate, checked_wall_span. cbn. rewrite checked_span_total by done. cbn.
  rewrite (proj2 (Z.ltb_ge _ _)) by lia. unfold validate_components. cbn.
  destruct i as [i|]; cbn in *.
  - destruct (Z.ltb_spec (end_ - start - i) i), (Z.leb_spec (2 * i) (end_ - start)); try lia; done.
  - by rewrite (proj2 (Z.leb_le _ _)) by lia.
Qed.

(** C35 The life of a sample with any number of pauses: when the pauses take at
    most half of the wall time the sample ends, with the paused time as its
    idle time and the rest as its elapsed time; when they take more than half,
    ending the sample is refused with [IdleExceedsElapsed], although the times
    are in order, because idle time is compared with an elapsed time it has
    already been taken out of. *)
Theorem lifecycle_elapsed (start : Z) (ps : list (Z * Z)) (end_ : Z) :
  chronological start ps end_ ->
  lifecycle start ps end_ timing_default =
    if 2 * paused ps <=? end_ - start then
      (Ok (), mkTiming None (Some start) (Some end_) None (Some (end_ - start - paused ps)) None None
                (idle_after None ps))
    else (Err (InvalidTiming IdleExceedsElapsed), running start (idle_after None ps)).
Proof.
  intros H. pose proof (chronological_i64 _ _ _ H) as [Hs He].
  pose proof (paused_bounds _ _ _ H) as Hb.
  assert (default 0 (idle_after None ps) = paused ps) as Hi by (by destruct ps; simpl).
  pose proof (pause_all_running start None start ps end_ H ltac:(done)) as Hp.
  assert (sample_start_at start timing_default = (Ok (), running start None)) as Hst by done.
  unfold lifecycle, st_bind. rewrite Hst, Hp.
  - rewrite end_running by (done || lia). by rewrite Hi.
  - unfold in_i64, i64_min, i64_max, u64_max in *. simpl. lia.
Qed.

Lemma lifecycle_elapsed_witness :
  fst (lifecycle 0 [(10, 20); (30, 50)] 100 timing_default) = Ok () /\
  fst (lifecycle 0 [(10, 70)] 100 timing_default) = Err (InvalidTiming IdleExceedsElapsed).
Proof.
  split.
  - rewrite (lifecycle_elapsed 0 [(10, 20); (30, 50)] 100); [reflexivity|].
    simpl. unfold in_i64, i64_min, i64_max. lia.
  - rewrite (lifecycle_elapsed 0 [(10, 70)] 100); [reflexivity|].
    simpl. unfold in_i64, i64_min, i64_max. lia.
Defined.

(** ** Aggregation *)

Fixpoint aggregate_all (cs : list SampleTiming) : TM () :=
  match cs with
  | [] => st_ret ()
  | c :: rest => aggregate_child c ;! aggregate_all rest
  end.

(** The latest end of the parent and its children. *)
Definition latest_end (e : Z) (cs : list SampleTiming) : Z :=
  foldr (fun c m => match t_end c with Some x => Z.max x m | None => m end) e cs.

(** A parent that spans [start] to [end_], idle time excluded. *)
Definition spanning (start end_ : Z) (t : SampleTiming) : SampleTiming :=
  with_elapsed (Some (end_ - start - default 0 (t_idle t))) (with_end (Some end_) t).

Lemma latest_end_init e c cs :
  latest_end (match t_end c with Some x => Z.max x e | None => e end) cs
  = match t_end c with Some x => Z.max x (latest_end e cs) | None => latest_end e cs end.
Proof.
  induction cs as [|c' cs IH]; simpl; [done|]. rewrite IH.
  destruct (t_end c), (t_end c'); simpl; lia.
Qed.

Lemma latest_end_perm e cs cs' : cs ≡ₚ cs' -> latest_end e cs = latest_end e cs'.
Proof.
  induction 1 as [|c cs cs' _ IH|c c' cs|cs1 cs2 cs3 _ IH1 _ IH2]; simpl; [done|by rewrite IH| |congruence].
  destruct (t_end c), (t_end c'); lia.
Qed.

Lemma aggregate_child_spanning a e c t t' :
  t_start t = Some a -> t_end t = Some e -> aggregate_child c t = (Ok (), t') ->
  t' = spanning a (match t_end c with Some x => Z.max x e | None => e end) t.
Proof.
  intros Ha He H. unfold aggregate_child, st_bind, st_get, st_lift, st_put in H. cbv zeta in H.
  destruct (derive_elapsed _) as [c1| |] eqn:Hd in H; try done.
  destruct (validate c1) as [[]| |]; try done. injection H as <-.
  apply derive_elapsed_cases in Hd as [(a' & b' & H1 & H2 & _ & _ & _ & ->)|[_ H]].
  - destruct t as [ts st en pa el la co idl]. simpl in Ha, He. subst st en.
    unfold spanning. destruct (t_end c) as [x|]; simpl in *.
    + assert ((if x <? e then e else x) = Z.max x e) as <- by (case_if; lia).
      destruct el; simpl in *; simplify_eq; done.
    + destruct el; simpl in *; simplify_eq; done.
  - exfalso. destruct t as [ts st en pa el la co idl]. simpl in Ha, He. subst st en.
    destruct (t_end c), el; simpl in H; by destruct H.
Qed.

Lemma aggregate_all_spanning a e cs t t' :
  t_start t = Some a -> t_end t = Some e -> cs <> [] -> aggregate_all cs t = (Ok (), t') ->
  t' = spanning a (latest_end e cs) t.
Proof.
  revert e t. induction cs as [|c cs IH]; intros e t Ha He Hne H; [done|].
  simpl in H. unfold st_bind in H.
  destruct (aggregate_child c t) as [[[]|er|] t1] eqn:Hc; try done.
  apply (aggregate_child_spanning a e) in Hc as ->; try done.
  destruct cs as [|c' cs]; [by injection H as <-|].
  eapply IH in H as ->; [|done..]. by rewrite (latest_end_init e c).
Qed.

(** Adding children to a parent that has started and ended gives a parent
    that ends with the latest of them, whose elapsed time is its new span
    without its idle time, and the order of the children does not matter. *)
Theorem aggregation_order_free (a e : Z) (cs cs' : list SampleTiming) (t t1 t2 : SampleTiming) :
  t_start t = Some a -> t_end t = Some e -> cs <> [] -> cs ≡ₚ cs' ->
  aggregate_all cs t = (Ok (), t1) -> aggregate_all cs' t = (Ok (), t2) ->
  t1 = spanning a (latest_end e cs) t /\ t2 = t1.
Proof.
  intros Ha He Hne Hp H1 H2. apply (aggregate_all_spanning a e) in H1 as ->; [|done..].
  apply (aggregate_all_spanning a e) in H2 as ->; [|done..|].
  - by rewrite (latest_end_perm e cs cs').
  - intros ->. apply Permutation_sym, Permutation_nil in Hp. done.
Qed.

Definition example_child (e : Z) : SampleTiming :=
  mkTiming None (Some 110) (Some e) None (Some (e - 110)) None None None.

Definition example_parent : SampleTiming :=
  mkTiming None (Some 100) (Some 150) None (Some 40) None None (Some 10).

Lemma aggregation_order_free_witness :
  spanning 100 200 example_parent = spanning 100 (latest_end 150 [example_child 120; example_child 200])
                                      example_parent /\
  spanning 100 200 example_parent = spanning 100 200 example_parent.
Proof.
  apply (aggregation_order_free 100 150 [example_child 120; example_child 200]
           [example_child 200; example_child 120] example_parent);
    [reflexivity|reflexivity|discriminate|apply perm_swap|vm_compute; reflexivity|vm_compute; reflexivity].
Defined.
