(* ===== verification/Wire.v ===== *)
(** * Bytes on the wire

    What the codecs of the repository use of the language: bytes as integers
    in [0, 256), slices as lists with checked indexing, big-endian integers
    ([push_u16], [read_u16] and their siblings of
    [crates/bridge-protocol/src/lib.rs]) and [str::from_utf8].

    Indexing a slice out of range panics in Rust.  A decoder is therefore a
    computation of type [comp E], whose failures are either an error value of
    the code ([Raised]) or a [Panic]; that a decoder cannot panic is a theorem
    about it, never an assumption of its definition. *)

From Stdlib Require Export ZifyBool.
From S2P Require Import Prelude.

(** ** Computations that may fail or panic *)

Inductive fault (E : Type) : Type :=
| Raised (e : E)
| Panic.
Arguments Raised {E} e.
Arguments Panic {E}.

Notation comp E := (result (fault E)).

Definition raise {E A} (e : E) : comp E A := Err (Raised e).

(** [if bad { return Err(e) }]. *)
Definition reject {E} (bad : bool) (e : E) : comp E () :=
  if bad then raise e else Ok ().

(** [Result::map_err]. *)
Definition map_err {E F A} (f : E -> F) (m : comp E A) : comp F A :=
  match m with
  | Ok a => Ok a
  | Err (Raised e) => Err (Raised (f e))
  | Err Panic => Err Panic
  | OutOfFuel => OutOfFuel
  end.

(** [Option::ok_or(e)?]. *)
Definition some_or {E A} (o : option A) (e : E) : comp E A :=
  match o with Some a => Ok a | None => raise e end.

(** A computation that ends with a value or with an error of the code. *)
Definition returns {E A} (m : comp E A) : Prop :=
  match m with Ok _ | Err (Raised _) => True | Err Panic | OutOfFuel => False end.

(** ** Bytes and slices *)

Definition byte_ok (b : Z) : Prop := 0 <= b < 256.
Definition bytes_ok (l : list Z) : Prop := Forall byte_ok l.

(** [slice.len()]. *)
Definition len {A} (l : list A) : Z := Z.of_nat (length l).

(** [bytes[i]]. *)
Definition index {E} (bytes : list Z) (i : Z) : comp E Z :=
  if i <? 0 then Err Panic
  else match bytes !! Z.to_nat i with Some b => Ok b | None => Err Panic end.

(** [&bytes[a..b]]. *)
Definition slice {E} (bytes : list Z) (a b : Z) : comp E (list Z) :=
  if (0 <=? a) && (a <=? b) && (b <=? len bytes)
  then Ok (take (Z.to_nat (b - a)) (drop (Z.to_nat a) bytes))
  else Err Panic.

(** ** Big-endian integers *)

(** [value.to_be_bytes()] for an integer of [n] bytes. *)
Fixpoint to_be_bytes (n : nat) (value : Z) : list Z :=
  match n with
  | O => []
  | S n => (value / 256 ^ Z.of_nat n) mod 256 :: to_be_bytes n value
  end.

(** [from_be_bytes(bytes)]. *)
Fixpoint from_be_bytes (bytes : list Z) : Z :=
  match bytes with
  | [] => 0
  | b :: r => b * 256 ^ len r + from_be_bytes r
  end.

Definition push_u16 (bytes : list Z) (value : Z) : list Z := bytes ++ to_be_bytes 2 value.
Definition push_u32 (bytes : list Z) (value : Z) : list Z := bytes ++ to_be_bytes 4 value.
Definition push_u64 (bytes : list Z) (value : Z) : list Z := bytes ++ to_be_bytes 8 value.

Definition read_u16 {E} (bytes : list Z) (offset : Z) : comp E Z :=
  let? b0 := index bytes offset in
  let? b1 := index bytes (offset + 1) in
  Ok (from_be_bytes [b0; b1]).

Definition read_u32 {E} (bytes : list Z) (offset : Z) : comp E Z :=
  let? b0 := index bytes offset in
  let? b1 := index bytes (offset + 1) in
  let? b2 := index bytes (offset + 2) in
  let? b3 := index bytes (offset + 3) in
  Ok (from_be_bytes [b0; b1; b2; b3]).

Definition read_u64 {E} (bytes : list Z) (offset : Z) : comp E Z :=
  let? b0 := index bytes offset in
  let? b1 := index bytes (offset + 1) in
  let? b2 := index bytes (offset + 2) in
  let? b3 := index bytes (offset + 3) in
  let? b4 := index bytes (offset + 4) in
  let? b5 := index bytes (offset + 5) in
  let? b6 := index bytes (offset + 6) in
  let? b7 := index bytes (offset + 7) in
  Ok (from_be_bytes [b0; b1; b2; b3; b4; b5; b6; b7]).

(** ** UTF-8

    [str::from_utf8(bytes).is_ok()]: the well-formed byte sequences of the
    Unicode standard (table 3-7), as Rust's validator accepts them: shortest
    forms only, no surrogates, nothing above U+10FFFF. *)
Definition in_range (lo hi b : Z) : bool := (lo <=? b) && (b <=? hi).
Definition continuation (b : Z) : bool := in_range 0x80 0xBF b.

(** The second byte allowed after the first byte of a three-byte sequence. *)
Definition lead3 (b0 b1 : Z) : bool :=
  ((b0 =? 0xE0) && in_range 0xA0 0xBF b1)
  || (in_range 0xE1 0xEC b0 && continuation b1)
  || ((b0 =? 0xED) && in_range 0x80 0x9F b1)
  || (in_range 0xEE 0xEF b0 && continuation b1).

(** The second byte allowed after the first byte of a four-byte sequence. *)
Definition lead4 (b0 b1 : Z) : bool :=
  ((b0 =? 0xF0) && in_range 0x90 0xBF b1)
  || (in_range 0xF1 0xF3 b0 && continuation b1)
  || ((b0 =? 0xF4) && in_range 0x80 0x8F b1).

Fixpoint from_utf8 (bytes : list Z) : bool :=
  match bytes with
  | [] => true
  | b0 :: r0 =>
      if b0 <? 0x80 then from_utf8 r0
      else match r0 with
           | [] => false
           | b1 :: r1 =>
               if in_range 0xC2 0xDF b0 then continuation b1 && from_utf8 r1
               else match r1 with
                    | [] => false
                    | b2 :: r2 =>
                        if in_range 0xE0 0xEF b0
                        then lead3 b0 b1 && continuation b2 && from_utf8 r2
                        else match r2 with
                             | [] => false
                             | b3 :: r3 =>
                                 lead4 b0 b1 && continuation b2 && continuation b3
                                 && from_utf8 r3
                             end
                    end
           end
  end.

(** A [String] is its bytes; the type guarantees that they are UTF-8. *)
Definition str_ok (s : list Z) : Prop := bytes_ok s /\ from_utf8 s = true.

(** The bytes of an ASCII literal. *)
Definition lit (s : string) : list Z :=
  map (fun c => Z.of_N (Ascii.N_of_ascii c)) (String.list_ascii_of_string s).

(** ** Facts on computations *)

Lemma reject_Ok {E} b (e : E) u : reject b e = Ok u <-> b = false.
Proof. destruct b, u; unfold reject, raise; split; congruence. Qed.

Lemma map_err_Ok {E F A} (f : E -> F) (m : comp E A) a : map_err f m = Ok a <-> m = Ok a.
Proof. destruct m as [|[]|]; simpl; split; congruence. Qed.

Lemma some_or_Ok {E A} (o : option A) (e : E) a : some_or o e = Ok a <-> o = Some a.
Proof. destruct o; unfold some_or, raise; split; congruence. Qed.

Lemma returns_bind {E A B} (m : comp E A) (k : A -> comp E B) :
  returns m -> (forall a, m = Ok a -> returns (k a)) -> returns (res_bind m k).
Proof. destruct m as [|[]|]; simpl; auto. Qed.

Lemma returns_reject {E} b (e : E) : returns (reject b e).
Proof. by destruct b. Qed.

Lemma returns_map_err {E F A} (f : E -> F) (m : comp E A) : returns m -> returns (map_err f m).
Proof. by destruct m as [|[]|]. Qed.

Lemma returns_some_or {E A} (o : option A) (e : E) : returns (some_or o e).
Proof. by destruct o. Qed.

Create HintDb wire.
#[export] Hint Resolve returns_reject returns_map_err returns_some_or : wire.

(** Forward and backward reasoning through a chain of checks: [comp_run]
    discharges the next check of the goal, [comp_inv] turns a successful run
    into the facts its checks established. *)
Lemma bind_reject {E A} b (e : E) (k : () -> comp E A) :
  b = false -> res_bind (reject b e) k = k ().
Proof. by intros ->. Qed.

Lemma bind_some_or {E A B} (o : option A) (e : E) (k : A -> comp E B) a :
  o = Some a -> res_bind (some_or o e) k = k a.
Proof. by intros ->. Qed.

Lemma bind_Ok {E A B} (m : comp E A) (k : A -> comp E B) a :
  m = Ok a -> res_bind m k = k a.
Proof. by intros ->. Qed.

Ltac comp_inv :=
  repeat match goal with
  | H : res_bind _ _ = Ok _ |- _ =>
      let a := fresh "r" in let Ha := fresh H in apply res_bind_Ok in H as (a & Ha & H)
  | H : reject _ _ = Ok _ |- _ => apply reject_Ok in H
  | H : map_err _ _ = Ok _ |- _ => apply map_err_Ok in H
  | H : some_or _ _ = Ok _ |- _ => apply some_or_Ok in H
  | H : raise _ = Ok _ |- _ => discriminate H
  | H : Ok _ = Ok _ |- _ => injection H as H
  | H : u64_checked_add _ _ = Some _ |- _ => apply u64_checked_add_Some in H as [? ?]
  end.

Ltac comp_run := rewrite bind_reject by (first [done | lia]); cbv beta.

(** ** Facts on slices *)

Lemma len_nonneg {A} (l : list A) : 0 <= len l.
Proof. unfold len. lia. Qed.

Lemma len_app {A} (l k : list A) : len (l ++ k) = len l + len k.
Proof. unfold len. rewrite length_app. lia. Qed.

Lemma len_cons {A} (x : A) l : len (x :: l) = 1 + len l.
Proof. unfold len. cbn [length]. lia. Qed.

Lemma len_nil {A} : len (@nil A) = 0.
Proof. done. Qed.

Lemma len_0 {A} (l : list A) : len l = 0 -> l = [].
Proof. destruct l; [done|]. rewrite len_cons. pose proof (len_nonneg l). lia. Qed.

Lemma len_be_bytes n v : len (to_be_bytes n v) = Z.of_nat n.
Proof. induction n as [|n IH]; [done|]. cbn [to_be_bytes]. rewrite len_cons, IH. lia. Qed.

#[export] Hint Rewrite @len_app @len_cons @len_nil len_be_bytes : len.

(** [len_lia] decides linear facts about lengths of lists. *)
Ltac len_facts :=
  repeat match goal with
  | |- context [len ?l] =>
      lazymatch goal with H : 0 <= len l |- _ => fail | _ => pose proof (len_nonneg l) end
  | H : context [len ?l] |- _ =>
      lazymatch goal with H : 0 <= len l |- _ => fail | _ => pose proof (len_nonneg l) end
  end.
Ltac len_lia := autorewrite with len in *; len_facts; lia.

Lemma index_mid {E} (pre post : list Z) b i :
  i = len pre -> index (E := E) (pre ++ b :: post) i = Ok b.
Proof.
  intros ->. unfold index. pose proof (len_nonneg pre). case_if; [lia|].
  unfold len. rewrite Nat2Z.id, list_lookup_middle; done.
Qed.

Lemma index_Ok {E} (l : list Z) i b :
  index (E := E) l i = Ok b -> exists pre post, l = pre ++ b :: post /\ i = len pre.
Proof.
  unfold index. case_if; [done|]. destruct (l !! _) eqn:Hl; [|done]. intros [= ->].
  exists (take (Z.to_nat i) l), (drop (S (Z.to_nat i)) l). split; [by rewrite take_drop_middle|].
  apply lookup_lt_Some in Hl. unfold len. rewrite length_take. lia.
Qed.

Lemma index_returns {E} (l : list Z) i : 0 <= i < len l -> exists b, index (E := E) l i = Ok b.
Proof.
  unfold index, len. intros Hi. case_if; [lia|].
  destruct (lookup_lt_is_Some_2 l (Z.to_nat i)) as [b ->]; [lia|by exists b].
Qed.

Lemma index_app {E} (l k : list Z) i : i < len l -> index (E := E) (l ++ k) i = index l i.
Proof.
  unfold index, len. intros Hi. case_if; [done|]. rewrite lookup_app_l; [done|lia].
Qed.

Lemma slice_mid {E} (pre mid post : list Z) a b :
  a = len pre -> b = len pre + len mid -> slice (E := E) (pre ++ mid ++ post) a b = Ok mid.
Proof.
  intros -> ->. unfold slice. rewrite !len_app.
  pose proof (len_nonneg pre). pose proof (len_nonneg mid). pose proof (len_nonneg post).
  rewrite !(proj2 (Z.leb_le _ _)) by lia. cbn [andb]. f_equal.
  replace (Z.to_nat (len pre)) with (length pre) by (unfold len; lia).
  rewrite drop_app_length. apply take_app_length'. unfold len. lia.
Qed.

Lemma slice_suffix {E} (pre m : list Z) a b :
  a = len pre -> b = len (pre ++ m) -> slice (E := E) (pre ++ m) a b = Ok m.
Proof.
  intros -> ->. rewrite <- (app_nil_r m) at 1. apply slice_mid; [done|]. by rewrite len_app.
Qed.

Lemma slice_Ok {E} (l : list Z) a b m :
  slice (E := E) l a b = Ok m ->
  exists pre post, l = pre ++ m ++ post /\ a = len pre /\ b = len pre + len m.
Proof.
  unfold slice. case_if; [|done]. rewrite !andb_true_iff, !Z.leb_le in *. intros [= <-].
  exists (take (Z.to_nat a) l), (drop (Z.to_nat (b - a)) (drop (Z.to_nat a) l)).
  rewrite take_drop, take_drop. split; [done|].
  unfold len in *. rewrite !length_take, length_drop. lia.
Qed.

Lemma slice_returns {E} (l : list Z) a b :
  0 <= a -> a <= b -> b <= len l -> exists m, slice (E := E) l a b = Ok m /\ len m = b - a.
Proof.
  intros. unfold slice. rewrite !(proj2 (Z.leb_le _ _)) by lia. eexists. split; [done|].
  unfold len in *. rewrite length_take, length_drop. lia.
Qed.

Lemma slice_app {E} (l k : list Z) a b :
  b <= len l -> slice (E := E) (l ++ k) a b = slice l a b.
Proof.
  intros Hb. unfold slice. rewrite len_app. pose proof (len_nonneg k).
  destruct (0 <=? a) eqn:Ha, (a <=? b) eqn:Hab; [|done..]. simpl_bool.
  rewrite !(proj2 (Z.leb_le _ _)) by lia. cbn [andb]. f_equal.
  unfold len in *. rewrite drop_app_le, take_app_le; [done| |]; rewrite ?length_drop; lia.
Qed.

(** ** Facts on integers *)

Lemma pow256_pos n : 0 < 256 ^ Z.of_nat n.
Proof. apply Z.pow_pos_nonneg; lia. Qed.

Lemma from_to_be_bytes n v : from_be_bytes (to_be_bytes n v) = v mod 256 ^ Z.of_nat n.
Proof.
  induction n as [|n IH]; [by rewrite Z.mod_1_r|].
  cbn [to_be_bytes from_be_bytes]. rewrite IH, len_be_bytes.
  rewrite Nat2Z.inj_succ, Z.pow_succ_r, (Z.mul_comm 256) by lia.
  rewrite Z.rem_mul_r; [|pose proof (pow256_pos n); lia..]. ring.
Qed.

Lemma from_be_bytes_bound l : bytes_ok l -> 0 <= from_be_bytes l < 256 ^ len l.
Proof.
  induction 1 as [|b l Hb Hl IH]; [done|].
  cbn [from_be_bytes]. rewrite len_cons, Z.pow_add_r by (pose proof (len_nonneg l); lia).
  unfold byte_ok in Hb. nia.
Qed.

Lemma to_be_bytes_add n h v :
  to_be_bytes n (h * 256 ^ Z.of_nat n + v) = to_be_bytes n v.
Proof.
  revert h. induction n as [|n IH]; intros h; [done|]. cbn [to_be_bytes].
  rewrite Nat2Z.inj_succ, Z.pow_succ_r by lia. pose proof (pow256_pos n).
  rewrite Z.mul_assoc. f_equal; [|apply IH].
  rewrite Z.div_add_l by lia. rewrite Z.add_comm, Z.mod_add; lia.
Qed.

Lemma to_from_be_bytes l : bytes_ok l -> to_be_bytes (length l) (from_be_bytes l) = l.
Proof.
  induction 1 as [|b l Hb Hl IH]; [done|]. cbn [length to_be_bytes from_be_bytes].
  unfold len at 1 2. pose proof (pow256_pos (length l)). pose proof (from_be_bytes_bound l Hl) as Hv.
  f_equal; [|by rewrite to_be_bytes_add]. unfold len in Hv.
  rewrite Z.div_add_l, (Z.div_small (from_be_bytes l)), Z.add_0_r by lia.
  by apply Z.mod_small.
Qed.

Lemma to_be_bytes_ok n v : bytes_ok (to_be_bytes n v).
Proof.
  induction n as [|n IH]; constructor; [|done]. apply Z.mod_pos_bound. lia.
Qed.
#[export] Hint Resolve to_be_bytes_ok : wire.

(** Reading an integer is decoding the slice it occupies. *)
Lemma index_drop {E} (l : list Z) off (k : nat) i :
  0 <= off -> i = off + Z.of_nat k ->
  index (E := E) l i = match drop (Z.to_nat off) l !! k with Some b => Ok b | None => Err Panic end.
Proof.
  intros Hoff ->. unfold index. case_if; [lia|]. rewrite lookup_drop.
  by replace (Z.to_nat (off + Z.of_nat k)) with (Z.to_nat off + k)%nat by lia.
Qed.

Definition read_be {E} (n : nat) (bytes : list Z) (offset : Z) : comp E Z :=
  let? s := slice bytes offset (offset + Z.of_nat n) in Ok (from_be_bytes s).

Lemma read_be_drop {E} n (l : list Z) off :
  (0 < n)%nat -> 0 <= off ->
  read_be (E := E) n l off =
  if Nat.leb n (length (drop (Z.to_nat off) l))
  then Ok (from_be_bytes (take n (drop (Z.to_nat off) l))) else Err Panic.
Proof.
  intros Hn Hoff. unfold read_be, slice.
  replace (Z.to_nat (off + Z.of_nat n - off)) with n by lia.
  rewrite (proj2 (Z.leb_le 0 off)) by done. rewrite (proj2 (Z.leb_le off _)) by lia.
  destruct (Nat.leb_spec n (length (drop (Z.to_nat off) l))) as [Hl|Hl];
    rewrite length_drop in Hl; unfold len.
  - by rewrite (proj2 (Z.leb_le _ _)) by lia.
  - by rewrite (proj2 (Z.leb_gt _ _)) by lia.
Qed.

Lemma read_u16_be {E} l off : 0 <= off -> read_u16 (E := E) l off = read_be 2 l off.
Proof.
  intros Hoff. unfold read_u16.
  rewrite read_be_drop by lia.
  rewrite (index_drop l off 0), (index_drop l off 1) by lia.
  by destruct (drop _ l) as [|? [|? ?]].
Qed.

Lemma read_u32_be {E} l off : 0 <= off -> read_u32 (E := E) l off = read_be 4 l off.
Proof.
  intros Hoff. unfold read_u32.
  rewrite read_be_drop by lia.
  rewrite (index_drop l off 0), (index_drop l off 1), (index_drop l off 2),
    (index_drop l off 3) by lia.
  by destruct (drop _ l) as [|? [|? [|? [|? ?]]]].
Qed.

Lemma read_u64_be {E} l off : 0 <= off -> read_u64 (E := E) l off = read_be 8 l off.
Proof.
  intros Hoff. unfold read_u64.
  rewrite read_be_drop by lia.
  rewrite (index_drop l off 0), (index_drop l off 1), (index_drop l off 2),
    (index_drop l off 3), (index_drop l off 4), (index_drop l off 5),
    (index_drop l off 6), (index_drop l off 7) by lia.
  by destruct (drop _ l) as [|? [|? [|? [|? [|? [|? [|? [|? ?]]]]]]]].
Qed.

Lemma read_be_mid {E} n pre v post off :
  off = len pre -> 0 <= v < 256 ^ Z.of_nat n ->
  read_be (E := E) n (pre ++ to_be_bytes n v ++ post) off = Ok v.
Proof.
  intros -> Hv. unfold read_be. rewrite slice_mid by (rewrite ?len_be_bytes; done).
  cbn [res_bind]. by rewrite from_to_be_bytes, Z.mod_small.
Qed.

Lemma read_be_Ok {E} n l off v :
  bytes_ok l -> read_be (E := E) n l off = Ok v ->
  0 <= v < 256 ^ Z.of_nat n /\
  exists pre post, l = pre ++ to_be_bytes n v ++ post /\ off = len pre.
Proof.
  unfold read_be. rewrite res_bind_Ok. intros Hl (s & Hs & [= <-]).
  apply slice_Ok in Hs as (pre & post & -> & -> & Hn).
  assert (length s = n) as <- by (unfold len in *; lia).
  unfold bytes_ok in Hl. rewrite !Forall_app in Hl. destruct Hl as (_ & Hs & _).
  split; [by apply from_be_bytes_bound|].
  exists pre, post. by rewrite to_from_be_bytes.
Qed.

Lemma read_be_bound {E} n l off v :
  bytes_ok l -> read_be (E := E) n l off = Ok v -> 0 <= v < 256 ^ Z.of_nat n.
Proof. intros Hl H. by destruct (read_be_Ok n l off v Hl H). Qed.

Lemma read_be_returns {E} n l off :
  0 <= off -> off + Z.of_nat n <= len l -> exists v, read_be (E := E) n l off = Ok v.
Proof.
  intros. unfold read_be.
  destruct (slice_returns (E := E) l off (off + Z.of_nat n)) as (m & -> & _); [lia..|].
  by eexists.
Qed.

Lemma read_be_app {E} n l k off :
  off + Z.of_nat n <= len l -> read_be (E := E) n (l ++ k) off = read_be n l off.
Proof. intros. unfold read_be. by rewrite slice_app. Qed.

(** The bytes that a successful read covers. *)
Lemma slice_take {E} (l : list Z) a b m :
  slice (E := E) l a b = Ok m -> take (Z.to_nat (b - a)) (drop (Z.to_nat a) l) = m.
Proof. unfold slice. case_if; congruence. Qed.

Lemma read_be_take {E} n l off v :
  bytes_ok l -> read_be (E := E) n l off = Ok v ->
  take n (drop (Z.to_nat off) l) = to_be_bytes n v.
Proof.
  intros Hl H. apply read_be_Ok in H as (_ & pre & post & -> & ->); [|done].
  unfold len. rewrite Nat2Z.id, drop_app_length. apply take_app_length'.
  pose proof (len_be_bytes n v). unfold len in *. lia.
Qed.

Lemma index_take {E} (l : list Z) i b :
  index (E := E) l i = Ok b -> take 1 (drop (Z.to_nat i) l) = [b].
Proof.
  intros H. apply index_Ok in H as (pre & post & -> & ->).
  unfold len. by rewrite Nat2Z.id, drop_app_length.
Qed.

Lemma drop_split {A} n m (l : list A) : drop n l = take m (drop n l) ++ drop (n + m) l.
Proof. by rewrite <- drop_drop, take_drop. Qed.

Lemma bytes_ok_app l k : bytes_ok (l ++ k) <-> bytes_ok l /\ bytes_ok k.
Proof. apply Forall_app. Qed.

Lemma index_byte {E} l i b : bytes_ok l -> index (E := E) l i = Ok b -> byte_ok b.
Proof.
  intros Hl H. apply index_Ok in H as (pre & post & -> & _).
  apply bytes_ok_app in Hl as [_ Hl]. by inversion Hl.
Qed.

(** ** Reads that stay in range do not panic *)

Lemma returns_index {E} (l : list Z) i : 0 <= i < len l -> returns (index (E := E) l i).
Proof. intros H. by destruct (index_returns (E := E) l i H) as [? ->]. Qed.

Lemma returns_slice {E} (l : list Z) a b :
  0 <= a <= b /\ b <= len l -> returns (slice (E := E) l a b).
Proof.
  intros [[? ?] ?]. by destruct (slice_returns (E := E) l a b) as (? & -> & _).
Qed.

Lemma returns_read_be {E} n (l : list Z) off :
  0 <= off /\ off + Z.of_nat n <= len l -> returns (read_be (E := E) n l off).
Proof. intros [? ?]. by destruct (read_be_returns (E := E) n l off) as [? ->]. Qed.

#[export] Hint Extern 3 (returns (index _ _)) => apply returns_index; lia : wire.
#[export] Hint Extern 3 (returns (slice _ _ _)) => apply returns_slice; lia : wire.
#[export] Hint Extern 3 (returns (read_be _ _ _)) => apply returns_read_be; lia : wire.
#[export] Hint Extern 1 (returns (Ok _)) => exact I : wire.
#[export] Hint Extern 1 (returns (raise _)) => exact I : wire.

(** [returns_chain] goes through a chain of checks and reads. *)
Ltac returns_chain :=
  repeat (first [solve [auto with wire] | apply returns_bind; [auto with wire|intros ? ?]]).

(** ** Safety with a postcondition

    [safe m Q]: [m] ends with a value that satisfies [Q] or with an error of
    the code; it does not panic. *)
Definition safe {E A} (m : comp E A) (Q : A -> Prop) : Prop :=
  match m with Ok a => Q a | Err (Raised _) => True | Err Panic | OutOfFuel => False end.

Lemma safe_returns {E A} (m : comp E A) Q : safe m Q -> returns m.
Proof. by destruct m as [|[]|]. Qed.

Lemma safe_Ok {E A} (m : comp E A) Q a : safe m Q -> m = Ok a -> Q a.
Proof. by intros H ->. Qed.

Lemma safe_intro {E A} (m : comp E A) (Q : A -> Prop) :
  returns m -> (forall a, m = Ok a -> Q a) -> safe m Q.
Proof. destruct m as [|[]|]; simpl; auto. Qed.

Lemma safe_bind {E A B} (m : comp E A) (k : A -> comp E B) (P : A -> Prop) Q :
  safe m P -> (forall a, P a -> safe (k a) Q) -> safe (res_bind m k) Q.
Proof. destruct m as [|[]|]; simpl; auto. Qed.

Lemma safe_mono {E A} (m : comp E A) (P Q : A -> Prop) :
  safe m P -> (forall a, P a -> Q a) -> safe m Q.
Proof. destruct m as [|[]|]; simpl; auto. Qed.

(** The checks, as steps of a chain. *)
Lemma safe_reject {E A} b (e : E) (k : () -> comp E A) Q :
  (b = false -> safe (k ()) Q) -> safe (res_bind (reject b e) k) Q.
Proof. destruct b; simpl; auto. Qed.

Lemma safe_some_or {E A B} (o : option A) (e : E) (k : A -> comp E B) Q :
  (forall a, o = Some a -> safe (k a) Q) -> safe (res_bind (some_or o e) k) Q.
Proof. destruct o; simpl; auto. Qed.

Lemma safe_map_err {E F A} (f : E -> F) (m : comp E A) Q : safe (map_err f m) Q <-> safe m Q.
Proof. by destruct m as [|[]|]. Qed.

Lemma safe_index {E A} (l : list Z) i (k : Z -> comp E A) Q :
  0 <= i < len l -> (forall b, index (E := E) l i = Ok b -> safe (k b) Q) ->
  safe (res_bind (index l i) k) Q.
Proof. intros Hi Hk. destruct (index_returns (E := E) l i Hi) as [b Hb]. rewrite Hb. by apply Hk. Qed.

Lemma safe_slice {E A} (l : list Z) a b (k : list Z -> comp E A) Q :
  0 <= a <= b /\ b <= len l ->
  (forall pre m post, l = pre ++ m ++ post -> a = len pre -> b = len pre + len m -> safe (k m) Q) ->
  safe (res_bind (slice l a b) k) Q.
Proof.
  intros [[? ?] ?] Hk. destruct (slice_returns (E := E) l a b) as (m & Hm & _); [done..|].
  rewrite Hm. apply slice_Ok in Hm as (pre & post & ? & ? & ?). by eapply Hk.
Qed.

Lemma safe_read_be {E A} n (l : list Z) off (k : Z -> comp E A) Q :
  bytes_ok l -> 0 <= off /\ off + Z.of_nat n <= len l ->
  (forall pre v post, l = pre ++ to_be_bytes n v ++ post -> off = len pre ->
     0 <= v < 256 ^ Z.of_nat n -> safe (k v) Q) ->
  safe (res_bind (read_be n l off) k) Q.
Proof.
  intros Hl [? ?] Hk. destruct (read_be_returns (E := E) n l off) as [v Hv]; [done..|].
  rewrite Hv. apply read_be_Ok in Hv as (? & pre & post & ? & ?); [|done]. by eapply Hk.
Qed.

(** Two splits of a list at the same place agree. *)
Lemma app_len_inj {A} (l1 l2 k1 k2 : list A) :
  l1 ++ k1 = l2 ++ k2 -> len l1 = len l2 -> l1 = l2 /\ k1 = k2.
Proof. unfold len. intros H Hl. apply app_inj_1; [lia|done]. Qed.
