(* ===== verification/BridgeTypes.v ===== *)
(** * The bridge protocol: constants, enumerations, errors and limits

    The data of [crates/bridge-protocol/src/lib.rs]: the version-1 constants,
    message kinds and their wire numbers, protocol-version ranges, peer
    identities, preservation contracts, the two families of resource limits
    ([FrameLimits] and [HandshakeLimits]) with their validation, and the error
    types of the codec.  An enumeration whose variant names occur in another
    one sits in a module of its own, so that [Decode.PayloadTooLarge] and
    [Encode.PayloadTooLarge] read as in the code. *)

From S2P Require Import Prelude Wire.

(** ** Constants *)

Definition MAGIC : list Z := lit "JMBP".
Definition PROTOCOL_VERSION : Z := 1.
Definition HEADER_LEN : Z := 36.
Definition DEFAULT_MAX_PAYLOAD_LEN : Z := 1024 * 1024.
Definition MAX_FRAME_BYTES : Z := 16 * 1024 * 1024.
Definition DEFAULT_MAX_FRAME_BYTES : Z := MAX_FRAME_BYTES.
Definition MAX_MESSAGE_BYTES : Z := MAX_FRAME_BYTES - HEADER_LEN.
Definition MAX_PROFILE_LEN : Z := 256.
Definition MAX_CAPABILITIES : Z := 256.
Definition MAX_CAPABILITY_LEN : Z := 256.
Definition MAX_METADATA_LEN : Z := 64 * 1024.
Definition MAX_ERROR_MESSAGE_LEN : Z := 4096.
Definition FLAG_CANCEL_REQUESTED : Z := 0x0001.
Definition FLAG_CANCELLED : Z := 0x0002.
Definition FLAG_PROFILE_PRESENT : Z := 0x0004.
Definition KNOWN_FLAGS : Z :=
  Z.lor (Z.lor FLAG_CANCEL_REQUESTED FLAG_CANCELLED) FLAG_PROFILE_PRESENT.
Definition ERROR_PAYLOAD_HEADER_LEN : Z := 5.
Definition ERROR_FLAG_RETRYABLE : Z := 0x01.
Definition HANDSHAKE_PAYLOAD_MAGIC : list Z := lit "JHS1".
Definition HANDSHAKE_PAYLOAD_VERSION : Z := 1.
Definition HANDSHAKE_FIXED_PAYLOAD_LEN : Z := 37.
Definition HANDSHAKE_FLAG_SELECTED_VERSION : Z := 0x01.
Definition HANDSHAKE_FLAG_PRESERVE_UNKNOWN_MESSAGES : Z := 0x02.
Definition HANDSHAKE_FLAG_PRESERVE_UNKNOWN_FIELDS : Z := 0x04.
Definition HANDSHAKE_FLAG_PRESERVE_OPAQUE_PAYLOADS : Z := 0x08.
Definition HANDSHAKE_FLAG_PRESERVE_UNKNOWN_CAPABILITIES : Z := 0x10.
Definition HANDSHAKE_KNOWN_FLAGS : Z :=
  Z.lor (Z.lor (Z.lor (Z.lor HANDSHAKE_FLAG_SELECTED_VERSION
    HANDSHAKE_FLAG_PRESERVE_UNKNOWN_MESSAGES)
    HANDSHAKE_FLAG_PRESERVE_UNKNOWN_FIELDS)
    HANDSHAKE_FLAG_PRESERVE_OPAQUE_PAYLOADS)
    HANDSHAKE_FLAG_PRESERVE_UNKNOWN_CAPABILITIES.
Definition MAX_IDENTITY_NAME_LEN : Z := 256.
Definition MAX_IDENTITY_VERSION_LEN : Z := 128.
Definition MAX_HANDSHAKE_MESSAGE_KINDS : Z := 32.
Definition MAX_HANDSHAKE_CAPABILITY_BYTES : Z := MAX_METADATA_LEN.

Definition u16_max : Z := 65535.

(** [value as u16] and [value as u32] of a [usize]. *)
Definition as_u16 (v : Z) : Z := v mod 2 ^ 16.
Definition as_u32 (v : Z) : Z := v mod 2 ^ 32.

(** [usize::checked_add]. *)
Definition usize_checked_add (a b : Z) : option Z := u64_checked_add a b.

(** [flags & !KNOWN] on an unsigned value. *)
Definition and_not (flags known : Z) : Z := Z.ldiff flags known.

(** [flags & BIT != 0]. *)
Definition has_flag (flags bit : Z) : bool := negb (Z.land flags bit =? 0).

(** ** Message kinds *)

Module Kind.
Inductive MessageKind : Type :=
| Handshake | Request | Response | Cancel | Error.

#[global] Instance MessageKind_eq_dec : EqDecision MessageKind.
Proof. solve_decision. Defined.

(** [kind as u8]. *)
Definition kind_as_u8 (kind : MessageKind) : Z :=
  match kind with
  | Handshake => 1 | Request => 2 | Response => 3 | Cancel => 4 | Error => 5
  end.

(** [MessageKind::all]. *)
Definition all_kinds : list MessageKind := [Handshake; Request; Response; Cancel; Error].
End Kind.

Module Cancel.
Inductive Cancellation : Type := None | Requested | Cancelled.

#[global] Instance Cancellation_eq_dec : EqDecision Cancellation.
Proof. solve_decision. Defined.

(** [Cancellation::is_active]. *)
Definition is_active (c : Cancellation) : bool :=
  match c with None => false | _ => true end.
End Cancel.

(** ** Deadlines: absolute Unix milliseconds, zero reserved for none *)

Definition Deadline : Type := option Z.
Definition NONE : Deadline := None.

Definition at_unix_millis (timestamp : Z) : Deadline :=
  if timestamp =? 0 then NONE else Some timestamp.

Definition is_expired_at (d : Deadline) (now_unix_millis : Z) : bool :=
  match d with Some deadline => deadline <=? now_unix_millis | None => false end.

(** ** Limits and their errors *)

Module Limits.
Inductive FrameLimitsError : Type :=
| FrameBytes (declared minimum maximum : Z)
| MessageExceedsFrame (message frame : Z)
| MetadataExceedsFrame (metadata frame : Z)
| AggregateExceedsFrame (message metadata frame : Z)
| ProfileBytes (declared maximum : Z)
| CapabilityCount (declared maximum : Z)
| CapabilityLength (declared maximum : Z)
| CapabilityBytes (declared maximum : Z)
| ErrorMessage (declared maximum : Z)
| WireLength (field : string) (declared : Z).
End Limits.

Record FrameLimits : Type := mkFrameLimits {
  max_payload_len : Z;
  max_frame_bytes : Z;
  max_profile_len : Z;
  max_capabilities : Z;
  max_capability_len : Z;
  max_capability_bytes : Z;
  max_metadata_len : Z;
  max_error_message_len : Z;
}.

(** [FrameLimits::new]. *)
Definition frame_limits_new (payload : Z) : FrameLimits :=
  {| max_payload_len := payload;
     max_frame_bytes := DEFAULT_MAX_FRAME_BYTES;
     max_profile_len := MAX_PROFILE_LEN;
     max_capabilities := MAX_CAPABILITIES;
     max_capability_len := MAX_CAPABILITY_LEN;
     max_capability_bytes := MAX_HANDSHAKE_CAPABILITY_BYTES;
     max_metadata_len := MAX_METADATA_LEN;
     max_error_message_len := MAX_ERROR_MESSAGE_LEN |}.

(** [FrameLimits::validate]. *)
Definition frame_limits_validate (l : FrameLimits) : comp Limits.FrameLimitsError () :=
  let? _ := reject ((max_frame_bytes l <? HEADER_LEN) || (MAX_FRAME_BYTES <? max_frame_bytes l))
              (Limits.FrameBytes (max_frame_bytes l) HEADER_LEN MAX_FRAME_BYTES) in
  let available := max_frame_bytes l - HEADER_LEN in
  let? _ := reject (available <? max_payload_len l)
              (Limits.MessageExceedsFrame (max_payload_len l) (max_frame_bytes l)) in
  let? _ := reject ((available <? max_metadata_len l) || (MAX_METADATA_LEN <? max_metadata_len l))
              (Limits.MetadataExceedsFrame (max_metadata_len l) (max_frame_bytes l)) in
  let? aggregate := some_or (usize_checked_add (max_payload_len l) (max_metadata_len l))
              (Limits.AggregateExceedsFrame (max_payload_len l) (max_metadata_len l)
                 (max_frame_bytes l)) in
  let? _ := reject (available <? aggregate)
              (Limits.AggregateExceedsFrame (max_payload_len l) (max_metadata_len l)
                 (max_frame_bytes l)) in
  let? _ := reject ((MAX_PROFILE_LEN <? max_profile_len l) || (u16_max <? max_profile_len l))
              (Limits.ProfileBytes (max_profile_len l) (MAX_PROFILE_LEN `min` u16_max)) in
  let? _ := reject ((MAX_CAPABILITIES <? max_capabilities l) || (u16_max <? max_capabilities l))
              (Limits.CapabilityCount (max_capabilities l) (MAX_CAPABILITIES `min` u16_max)) in
  let? _ := reject ((MAX_CAPABILITY_LEN <? max_capability_len l)
                    || (u16_max <? max_capability_len l))
              (Limits.CapabilityLength (max_capability_len l) (MAX_CAPABILITY_LEN `min` u16_max)) in
  let? _ := reject (max_metadata_len l <? max_capability_bytes l)
              (Limits.CapabilityBytes (max_capability_bytes l) (max_metadata_len l)) in
  let? _ := reject ((MAX_ERROR_MESSAGE_LEN <? max_error_message_len l)
                    || (u16_max <? max_error_message_len l))
              (Limits.ErrorMessage (max_error_message_len l)
                 (MAX_ERROR_MESSAGE_LEN `min` u16_max)) in
  reject ((u32_max <? max_payload_len l) || (u32_max <? max_metadata_len l))
    (Limits.WireLength "payload or metadata" (max_payload_len l `max` max_metadata_len l)).

(** [validate_message_limit]. *)
Definition validate_message_limit (maximum : Z) : comp Limits.FrameLimitsError () :=
  reject (MAX_MESSAGE_BYTES <? maximum) (Limits.MessageExceedsFrame maximum MAX_FRAME_BYTES).

(** [validate_capability_limits]. *)
Definition validate_capability_limits (maximum_count maximum_length maximum_bytes metadata_limit : Z)
    : comp Limits.FrameLimitsError () :=
  let? _ := reject ((MAX_CAPABILITIES <? maximum_count) || (u16_max <? maximum_count))
              (Limits.CapabilityCount maximum_count
                 (if MAX_CAPABILITIES <? u16_max then MAX_CAPABILITIES else u16_max)) in
  let? _ := reject ((MAX_CAPABILITY_LEN <? maximum_length) || (u16_max <? maximum_length))
              (Limits.CapabilityLength maximum_length
                 (if MAX_CAPABILITY_LEN <? u16_max then MAX_CAPABILITY_LEN else u16_max)) in
  let? _ := reject (MAX_METADATA_LEN <? metadata_limit)
              (Limits.CapabilityBytes metadata_limit MAX_METADATA_LEN) in
  let? _ := reject (MAX_METADATA_LEN <? maximum_bytes)
              (Limits.CapabilityBytes maximum_bytes MAX_METADATA_LEN) in
  reject (metadata_limit <? maximum_bytes)
    (Limits.CapabilityBytes maximum_bytes
       (if metadata_limit <? MAX_METADATA_LEN then metadata_limit else MAX_METADATA_LEN)).

(** ** Protocol versions *)

Record ProtocolVersionRange : Type := mkRange { minimum : Z; maximum : Z }.

Inductive VersionRangeError : Type := InvalidRange (minimum maximum : Z).

(** [ProtocolVersionRange::new]. *)
Definition range_new (lo hi : Z) : comp VersionRangeError ProtocolVersionRange :=
  if (lo =? 0) || (hi =? 0) || (hi <? lo) then raise (InvalidRange lo hi)
  else Ok (mkRange lo hi).

(** [ProtocolVersionRange::contains]. *)
Definition contains (r : ProtocolVersionRange) (version : Z) : bool :=
  (minimum r <=? version) && (version <=? maximum r).

(** [ProtocolVersionRange::intersect]. *)
Definition range_intersect (a b : ProtocolVersionRange) : option ProtocolVersionRange :=
  let lo := if minimum b <? minimum a then minimum a else minimum b in
  let hi := if maximum a <? maximum b then maximum a else maximum b in
  if lo <=? hi then Some (mkRange lo hi) else None.

(** [ProtocolVersionRange::select]. *)
Definition select_version (a b : ProtocolVersionRange) : option Z :=
  match range_intersect a b with
  | Some common => Some (maximum common)
  | None => None
  end.

(** ** Peers *)

Module Peer.
Inductive PeerKind : Type := Worker | Plugin.

#[global] Instance PeerKind_eq_dec : EqDecision PeerKind.
Proof. solve_decision. Defined.

(** [kind as u8]. *)
Definition peer_as_u8 (kind : PeerKind) : Z :=
  match kind with Worker => 1 | Plugin => 2 end.
End Peer.

Record PeerIdentity : Type := mkIdentity {
  id_kind : Peer.PeerKind;
  id_name : list Z;
  id_version : list Z;
}.

Record PreservationContract : Type := mkContract {
  unknown_messages : bool;
  unknown_fields : bool;
  opaque_payloads : bool;
  unknown_capabilities : bool;
}.

Inductive PreservationContractError : Type :=
| UnknownMessagesUnsupported
| UnknownFieldsUnsupported.

(** [PreservationContract::full]. *)
Definition contract_full : PreservationContract := mkContract false false true true.

(** [PreservationContract::validate]. *)
Definition contract_validate (c : PreservationContract) : comp PreservationContractError () :=
  let? _ := reject (unknown_messages c) UnknownMessagesUnsupported in
  reject (unknown_fields c) UnknownFieldsUnsupported.

(** [PreservationContract::intersect]. *)
Definition contract_intersect (a b : PreservationContract) : PreservationContract :=
  {| unknown_messages := false;
     unknown_fields := false;
     opaque_payloads := opaque_payloads a && opaque_payloads b;
     unknown_capabilities := unknown_capabilities a && unknown_capabilities b |}.

(** ** Limits declared in a handshake *)

Module HLimits.
Inductive HandshakeLimitsError : Type :=
| FrameBytes (declared minimum maximum : Z)
| MessageExceedsFrame (message frame : Z)
| MetadataExceedsFrame (metadata frame : Z)
| AggregateExceedsFrame (message metadata frame : Z)
| CapabilityCount (declared maximum : Z)
| CapabilityBytes (declared maximum : Z).
End HLimits.

Record HandshakeLimits : Type := mkHandshakeLimits {
  hl_max_frame_bytes : Z;
  hl_max_message_bytes : Z;
  hl_max_metadata_bytes : Z;
  hl_max_capabilities : Z;
  hl_max_capability_bytes : Z;
}.

(** [HandshakeLimits::default]. *)
Definition handshake_limits_default : HandshakeLimits :=
  {| hl_max_frame_bytes := DEFAULT_MAX_FRAME_BYTES;
     hl_max_message_bytes := DEFAULT_MAX_PAYLOAD_LEN;
     hl_max_metadata_bytes := MAX_METADATA_LEN;
     hl_max_capabilities := MAX_CAPABILITIES;
     hl_max_capability_bytes := MAX_HANDSHAKE_CAPABILITY_BYTES |}.

(** [HandshakeLimits::validate]. *)
Definition handshake_limits_validate (l : HandshakeLimits) : comp HLimits.HandshakeLimitsError () :=
  let? _ := reject ((hl_max_frame_bytes l <? HEADER_LEN)
                    || (MAX_FRAME_BYTES <? hl_max_frame_bytes l))
              (HLimits.FrameBytes (hl_max_frame_bytes l) HEADER_LEN MAX_FRAME_BYTES) in
  let available := hl_max_frame_bytes l - HEADER_LEN in
  let? _ := reject (available <? hl_max_message_bytes l)
              (HLimits.MessageExceedsFrame (hl_max_message_bytes l) (hl_max_frame_bytes l)) in
  let? _ := reject ((available <? hl_max_metadata_bytes l)
                    || (MAX_METADATA_LEN <? hl_max_metadata_bytes l))
              (HLimits.MetadataExceedsFrame (hl_max_metadata_bytes l) (hl_max_frame_bytes l)) in
  let? aggregate := some_or (usize_checked_add (hl_max_message_bytes l) (hl_max_metadata_bytes l))
              (HLimits.AggregateExceedsFrame (hl_max_message_bytes l)
                 (hl_max_metadata_bytes l) (hl_max_frame_bytes l)) in
  let? _ := reject (available <? aggregate)
              (HLimits.AggregateExceedsFrame (hl_max_message_bytes l)
                 (hl_max_metadata_bytes l) (hl_max_frame_bytes l)) in
  let? _ := reject ((MAX_CAPABILITIES <? hl_max_capabilities l)
                    || (u16_max <? hl_max_capabilities l))
              (HLimits.CapabilityCount (hl_max_capabilities l) (MAX_CAPABILITIES `min` u16_max)) in
  reject (hl_max_metadata_bytes l <? hl_max_capability_bytes l)
    (HLimits.CapabilityBytes (hl_max_capability_bytes l) (hl_max_metadata_bytes l)).

(** [HandshakeLimits::intersect]. *)
Definition limits_intersect (a b : HandshakeLimits)
    : comp HLimits.HandshakeLimitsError HandshakeLimits :=
  let result :=
    {| hl_max_frame_bytes := hl_max_frame_bytes a `min` hl_max_frame_bytes b;
       hl_max_message_bytes := hl_max_message_bytes a `min` hl_max_message_bytes b;
       hl_max_metadata_bytes := hl_max_metadata_bytes a `min` hl_max_metadata_bytes b;
       hl_max_capabilities := hl_max_capabilities a `min` hl_max_capabilities b;
       hl_max_capability_bytes := hl_max_capability_bytes a `min` hl_max_capability_bytes b |} in
  let? _ := handshake_limits_validate result in
  Ok result.

(** [HandshakeLimits::frame_limits]. *)
Definition frame_limits (l : HandshakeLimits) : comp Limits.FrameLimitsError FrameLimits :=
  let limits :=
    {| max_payload_len := hl_max_message_bytes l;
       max_frame_bytes := hl_max_frame_bytes l;
       max_profile_len := MAX_PROFILE_LEN;
       max_capabilities := hl_max_capabilities l;
       max_capability_len := MAX_CAPABILITY_LEN;
       max_capability_bytes := hl_max_capability_bytes l;
       max_metadata_len := hl_max_metadata_bytes l;
       max_error_message_len := hl_max_message_bytes l `min` MAX_ERROR_MESSAGE_LEN |} in
  let? _ := frame_limits_validate limits in
  Ok limits.

(** [FrameLimits::as_handshake_limits]. *)
Definition as_handshake_limits (l : FrameLimits) : HandshakeLimits :=
  {| hl_max_frame_bytes := max_frame_bytes l;
     hl_max_message_bytes := max_payload_len l;
     hl_max_metadata_bytes := max_metadata_len l;
     hl_max_capabilities := max_capabilities l;
     hl_max_capability_bytes := max_capability_bytes l |}.

(** ** Remote error codes *)

Module Remote.
Inductive RemoteErrorCode : Type :=
| ProtocolViolation | UnsupportedVersion | UnsupportedMessageKind
| InvalidRequest | InvalidPayload | ProfileMismatch
| CapabilityUnavailable | WorkerUnavailable | WorkerCrashed | WorkerLimitExceeded
| DeadlineExceeded | Cancelled | Internal
| Unknown (value : Z).

#[global] Instance RemoteErrorCode_eq_dec : EqDecision RemoteErrorCode.
Proof. solve_decision. Defined.

(** [RemoteErrorCode::as_u16]. *)
Definition code_as_u16 (c : RemoteErrorCode) : Z :=
  match c with
  | ProtocolViolation => 0x0001
  | UnsupportedVersion => 0x0002
  | UnsupportedMessageKind => 0x0003
  | InvalidRequest => 0x0100
  | InvalidPayload => 0x0101
  | ProfileMismatch => 0x0102
  | CapabilityUnavailable => 0x0200
  | WorkerUnavailable => 0x0201
  | WorkerCrashed => 0x0202
  | WorkerLimitExceeded => 0x0203
  | DeadlineExceeded => 0x0300
  | Cancelled => 0x0301
  | Internal => 0x7fff
  | Unknown value => value
  end.

(** [RemoteErrorCode::from_u16]. *)
Definition code_from_u16 (value : Z) : RemoteErrorCode :=
  if value =? 0x0001 then ProtocolViolation
  else if value =? 0x0002 then UnsupportedVersion
  else if value =? 0x0003 then UnsupportedMessageKind
  else if value =? 0x0100 then InvalidRequest
  else if value =? 0x0101 then InvalidPayload
  else if value =? 0x0102 then ProfileMismatch
  else if value =? 0x0200 then CapabilityUnavailable
  else if value =? 0x0201 then WorkerUnavailable
  else if value =? 0x0202 then WorkerCrashed
  else if value =? 0x0203 then WorkerLimitExceeded
  else if value =? 0x0300 then DeadlineExceeded
  else if value =? 0x0301 then Cancelled
  else if value =? 0x7fff then Internal
  else Unknown value.

(** [RemoteErrorCode::is_handshake_negotiation]. *)
Definition is_handshake_negotiation (c : RemoteErrorCode) : bool :=
  match c with
  | ProtocolViolation | UnsupportedVersion | UnsupportedMessageKind
  | ProfileMismatch | CapabilityUnavailable => true
  | _ => false
  end.

Inductive RemoteErrorDecodeError : Type :=
| WrongMessageKind (kind : Kind.MessageKind)
| Truncated (minimum actual : Z)
| UnknownFlags (flags : Z)
| MessageTooLong (declared maximum : Z)
| LengthMismatch (declared actual : Z)
| MalformedUtf8.
End Remote.

Record RemoteError : Type := mkRemoteError {
  code : Remote.RemoteErrorCode;
  retryable : bool;
  message : list Z;
}.

(** ** Errors of the codec *)

Module Invalid.
Inductive FrameValidationError : Type :=
| RequestIdMustBeZero (kind : Kind.MessageKind)
| RequestIdMustBeNonZero (kind : Kind.MessageKind)
| ProfileRequired (kind : Kind.MessageKind)
| ProfileNotAllowed (kind : Kind.MessageKind)
| CapabilitiesNotAllowed (kind : Kind.MessageKind)
| InvalidCancellation (kind : Kind.MessageKind) (actual : Cancel.Cancellation)
| HandshakeErrorCodeNotAllowed (code : Remote.RemoteErrorCode).
End Invalid.

Module HEncode.
Inductive HandshakeEncodeError : Type :=
| InvalidVersionRange (e : VersionRangeError)
| SelectedVersionOutsideRange (selected : Z) (versions : ProtocolVersionRange)
| EmptyField (field : string)
| FieldTooLong (field : string) (declared maximum : Z)
| TooManyCapabilities (declared maximum : Z)
| CapabilityBytesTooLarge (declared maximum index : Z)
| DuplicateCapability (index : Z)
| MetadataBytesTooLarge (declared maximum : Z)
| NoMessageKinds
| TooManyMessageKinds (declared maximum : Z)
| DuplicateMessageKind
| InvalidLimits (e : HLimits.HandshakeLimitsError)
| LengthOverflow
| PayloadTooLarge (declared maximum : Z)
| UnsupportedPreservation (e : PreservationContractError).
End HEncode.

Module Encode.
Inductive EncodeError : Type :=
| PayloadTooLarge (declared maximum : Z)
| MetadataTooLarge (declared maximum : Z)
| ProfileTooLong (declared maximum : Z)
| TooManyCapabilities (declared maximum : Z)
| CapabilityTooLong (index declared maximum : Z)
| EmptyProfile
| EmptyCapability (index : Z)
| InvalidFrame (e : Invalid.FrameValidationError)
| LengthOverflow
| ErrorMessageTooLong (declared maximum : Z)
| ReservedRemoteErrorCode (value : Z)
| FrameTooLarge (declared maximum : Z)
| CapabilityBytesTooLarge (declared maximum : Z)
| DuplicateCapability (index : Z)
| InvalidLimits (e : Limits.FrameLimitsError)
| Handshake (e : HEncode.HandshakeEncodeError).
End Encode.

Module Decode.
Inductive Utf8Field : Type := Profile | Capability (index : Z).

Inductive DecodeError : Type :=
| InvalidMagic (found : list Z)
| UnsupportedVersion (version : Z)
| UnknownMessageKind (value : Z)
| UnknownFlags (flags : Z)
| InvalidCancellationFlags
| ProfileFlagMismatch (flag_present : bool) (length : Z)
| PayloadTooLarge (declared maximum : Z)
| MetadataTooLarge (declared maximum : Z)
| ProfileTooLong (declared maximum : Z)
| TooManyCapabilities (declared maximum : Z)
| CapabilityTooLong (index declared maximum : Z)
| EmptyCapability (index : Z)
| InvalidFrame (e : Invalid.FrameValidationError)
| InvalidLimits (e : Limits.FrameLimitsError)
| FrameTooLarge (declared maximum : Z)
| ErrorPayloadTooLarge (declared maximum : Z)
| CapabilityBytesTooLarge (declared maximum : Z)
| DuplicateCapability (index : Z)
| MetadataLengthMismatch (declared consumed : Z)
| MalformedUtf8 (field : Utf8Field)
| LengthOverflow
| TrailingBytes (count : Z)
| Incomplete (needed : Z).
End Decode.

(** [MessageKind::from_wire]. *)
Definition from_wire (value : Z) : comp Decode.DecodeError Kind.MessageKind :=
  if value =? 1 then Ok Kind.Handshake
  else if value =? 2 then Ok Kind.Request
  else if value =? 3 then Ok Kind.Response
  else if value =? 4 then Ok Kind.Cancel
  else if value =? 5 then Ok Kind.Error
  else raise (Decode.UnknownMessageKind value).
