(* ===== verification/FrameCodec.v ===== *)
(** * The frame codec of the bridge protocol

    [Frame], [RemoteError] payloads and [FrameCodec] of
    [crates/bridge-protocol/src/lib.rs]: encoding of a frame, the
    non-consuming decoder and its derived entry points.  A codec is its
    [FrameLimits].  The decoder is the composition of its passes, in the order
    of the code: the fixed header, the header's limits, the metadata, the
    message semantics, the owned values. *)

From S2P Require Import Prelude Wire BridgeTypes.

Record Frame : Type := mkFrame {
  kind : Kind.MessageKind;
  request_id : Z;
  deadline : Deadline;
  cancellation : Cancel.Cancellation;
  profile : option (list Z);
  capabilities : list (list Z);
  payload : list Z;
}.

(** [Frame::new]. *)
Definition frame_new (k : Kind.MessageKind) (id : Z) (body : list Z) : Frame :=
  {| kind := k; request_id := id; deadline := NONE; cancellation := Cancel.None;
     profile := None; capabilities := []; payload := body |}.

(** [Frame::handshake]. *)
Definition frame_handshake (id : Z) (prof : list Z) (caps : list (list Z)) : Frame :=
  {| kind := Kind.Handshake; request_id := id; deadline := NONE; cancellation := Cancel.None;
     profile := Some prof; capabilities := caps; payload := [] |}.

(** ** Remote errors *)

(** [RemoteError::encode_payload_with_limit]. *)
Definition encode_payload_with_limit (e : RemoteError) (limit : Z)
    : comp Encode.EncodeError (list Z) :=
  let? _ := match code e with
            | Remote.Unknown value =>
                reject (negb (bool_decide (Remote.code_from_u16 value = Remote.Unknown value)))
                  (Encode.ReservedRemoteErrorCode value)
            | _ => Ok ()
            end in
  let length := len (message e) in
  let? _ := reject ((limit <? length) || (MAX_ERROR_MESSAGE_LEN <? length) || (u16_max <? length))
              (Encode.ErrorMessageTooLong length
                 ((limit `min` MAX_ERROR_MESSAGE_LEN) `min` u16_max)) in
  let bytes := push_u16 [] (Remote.code_as_u16 (code e)) in
  let bytes := bytes ++ [if retryable e then ERROR_FLAG_RETRYABLE else 0] in
  let bytes := push_u16 bytes (as_u16 length) in
  Ok (bytes ++ message e).

(** [RemoteError::encode_payload]. *)
Definition encode_error_payload (e : RemoteError) : comp Encode.EncodeError (list Z) :=
  encode_payload_with_limit e MAX_ERROR_MESSAGE_LEN.

(** [validate_remote_error_payload]. *)
Definition validate_remote_error_payload (body : list Z) (limit : Z)
    : comp Remote.RemoteErrorDecodeError Remote.RemoteErrorCode :=
  let? _ := reject (len body <? ERROR_PAYLOAD_HEADER_LEN)
              (Remote.Truncated ERROR_PAYLOAD_HEADER_LEN (len body)) in
  let? wire := read_u16 body 0 in
  let c := Remote.code_from_u16 wire in
  let? flags := index body 2 in
  let? _ := reject (negb (and_not flags ERROR_FLAG_RETRYABLE =? 0))
              (Remote.UnknownFlags (and_not flags ERROR_FLAG_RETRYABLE)) in
  let? message_len := read_u16 body 3 in
  let? _ := reject ((limit <? message_len) || (MAX_ERROR_MESSAGE_LEN <? message_len))
              (Remote.MessageTooLong message_len (limit `min` MAX_ERROR_MESSAGE_LEN)) in
  let? expected := some_or (usize_checked_add ERROR_PAYLOAD_HEADER_LEN message_len)
              (Remote.LengthMismatch message_len (0 `max` (len body - ERROR_PAYLOAD_HEADER_LEN))) in
  let? _ := reject (negb (len body =? expected))
              (Remote.LengthMismatch message_len (len body - ERROR_PAYLOAD_HEADER_LEN)) in
  let? text := slice body ERROR_PAYLOAD_HEADER_LEN (len body) in
  let? _ := reject (negb (from_utf8 text)) Remote.MalformedUtf8 in
  Ok c.

(** [RemoteError::decode_payload_with_limit]. *)
Definition decode_payload_with_limit (body : list Z) (limit : Z)
    : comp Remote.RemoteErrorDecodeError RemoteError :=
  let? c := validate_remote_error_payload body limit in
  let? flags := index body 2 in
  let? text := slice body ERROR_PAYLOAD_HEADER_LEN (len body) in
  let? _ := reject (negb (from_utf8 text)) Remote.MalformedUtf8 in
  Ok {| code := c; retryable := has_flag flags ERROR_FLAG_RETRYABLE; message := text |}.

(** [RemoteError::decode_payload]. *)
Definition decode_error_payload (body : list Z) : comp Remote.RemoteErrorDecodeError RemoteError :=
  decode_payload_with_limit body MAX_ERROR_MESSAGE_LEN.

(** [handshake_error_payload_code]: [validate(..).ok()]. *)
Definition handshake_error_payload_code {E} (body : list Z) (limit : Z)
    : comp E (option Remote.RemoteErrorCode) :=
  match validate_remote_error_payload body limit with
  | Ok c => Ok (Some c)
  | Err (Raised _) => Ok None
  | Err Panic => Err Panic
  | OutOfFuel => OutOfFuel
  end.

(** [Frame::error]. *)
Definition frame_error (id : Z) (e : RemoteError) : comp Encode.EncodeError Frame :=
  let? _ := reject ((id =? 0) && negb (Remote.is_handshake_negotiation (code e)))
              (Encode.InvalidFrame (Invalid.HandshakeErrorCodeNotAllowed (code e))) in
  let? body := encode_error_payload e in
  Ok (frame_new Kind.Error id body).

(** [Frame::remote_error]. *)
Definition frame_remote_error (f : Frame) : comp Remote.RemoteErrorDecodeError RemoteError :=
  let? _ := reject (negb (bool_decide (kind f = Kind.Error))) (Remote.WrongMessageKind (kind f)) in
  decode_error_payload (payload f).

(** ** Kind-specific header rules *)

(** [validate_wire_semantics]. *)
Definition validate_wire_semantics (k : Kind.MessageKind) (id : Z) (profile_present : bool)
    (capability_count : Z) (c : Cancel.Cancellation)
    (handshake_error_code : option Remote.RemoteErrorCode)
    : comp Invalid.FrameValidationError () :=
  match k with
  | Kind.Handshake =>
      let? _ := reject (negb (id =? 0)) (Invalid.RequestIdMustBeZero k) in
      let? _ := reject (negb profile_present) (Invalid.ProfileRequired k) in
      reject (negb (bool_decide (c = Cancel.None))) (Invalid.InvalidCancellation k c)
  | Kind.Request =>
      let? _ := reject (id =? 0) (Invalid.RequestIdMustBeNonZero k) in
      reject (bool_decide (c = Cancel.Cancelled)) (Invalid.InvalidCancellation k c)
  | Kind.Response =>
      let? _ := reject (id =? 0) (Invalid.RequestIdMustBeNonZero k) in
      let? _ := reject profile_present (Invalid.ProfileNotAllowed k) in
      let? _ := reject (negb (capability_count =? 0)) (Invalid.CapabilitiesNotAllowed k) in
      reject (bool_decide (c = Cancel.Requested)) (Invalid.InvalidCancellation k c)
  | Kind.Cancel =>
      let? _ := reject (id =? 0) (Invalid.RequestIdMustBeNonZero k) in
      let? _ := reject profile_present (Invalid.ProfileNotAllowed k) in
      let? _ := reject (negb (capability_count =? 0)) (Invalid.CapabilitiesNotAllowed k) in
      reject (negb (bool_decide (c = Cancel.Requested))) (Invalid.InvalidCancellation k c)
  | Kind.Error =>
      let? _ := (if id =? 0 then
                   match handshake_error_code with
                   | Some c =>
                       reject (negb (Remote.is_handshake_negotiation c))
                         (Invalid.HandshakeErrorCodeNotAllowed c)
                   | None => raise (Invalid.RequestIdMustBeNonZero k)
                   end
                 else Ok ()) in
      let? _ := reject profile_present (Invalid.ProfileNotAllowed k) in
      let? _ := reject (negb (capability_count =? 0)) (Invalid.CapabilitiesNotAllowed k) in
      reject (negb (bool_decide (c = Cancel.None))) (Invalid.InvalidCancellation k c)
  end.

(** The code of a correlation-ID-zero error, read from its payload. *)
Definition zero_id_error_code {E} (k : Kind.MessageKind) (id : Z) (body : list Z) (limit : Z)
    : comp E (option Remote.RemoteErrorCode) :=
  if bool_decide (k = Kind.Error) && (id =? 0)
  then handshake_error_payload_code body limit
  else Ok None.

(** [validate_frame_semantics]. *)
Definition validate_frame_semantics (f : Frame) (limit : Z)
    : comp Invalid.FrameValidationError () :=
  let? c := zero_id_error_code (kind f) (request_id f) (payload f) limit in
  validate_wire_semantics (kind f) (request_id f) (bool_decide (is_Some (profile f)))
    (len (capabilities f)) (cancellation f) c.

(** ** Encoding *)

(** The loop of [validate_frame] over [frame.capabilities.iter().enumerate()]:
    [previous] are the capabilities before the current one, the accumulators
    are [metadata_len] and [capability_bytes]. *)
Fixpoint validate_capabilities (l : FrameLimits) (previous caps : list (list Z))
    (metadata_len capability_bytes : Z) : comp Encode.EncodeError (Z * Z) :=
  match caps with
  | [] => Ok (metadata_len, capability_bytes)
  | capability :: rest =>
      let index := len previous in
      let length := len capability in
      let? _ := reject (length =? 0) (Encode.EmptyCapability index) in
      let? _ := reject ((max_capability_len l <? length) || (MAX_CAPABILITY_LEN <? length))
                  (Encode.CapabilityTooLong index length
                     (max_capability_len l `min` MAX_CAPABILITY_LEN)) in
      let? _ := reject (u16_max <? length) (Encode.CapabilityTooLong index length u16_max) in
      let? _ := reject (bool_decide (capability ∈ previous)) (Encode.DuplicateCapability index) in
      let? metadata_len := some_or (usize_checked_add metadata_len 2 ≫= fun v =>
                                    usize_checked_add v length) Encode.LengthOverflow in
      let? capability_bytes := some_or (usize_checked_add capability_bytes 2 ≫= fun v =>
                                        usize_checked_add v length) Encode.LengthOverflow in
      let? _ := reject (max_capability_bytes l <? capability_bytes)
                  (Encode.CapabilityBytesTooLarge capability_bytes (max_capability_bytes l)) in
      validate_capabilities l (previous ++ [capability]) rest metadata_len capability_bytes
  end.

(** [FrameCodec::validate_frame]. *)
Definition validate_frame (l : FrameLimits) (f : Frame) : comp Encode.EncodeError (Z * Z) :=
  let? _ := map_err Encode.InvalidFrame (validate_frame_semantics f (max_error_message_len l)) in
  let payload_len := len (payload f) in
  let? _ := reject ((max_payload_len l <? payload_len) || (u32_max <? payload_len))
              (Encode.PayloadTooLarge payload_len (max_payload_len l `min` u32_max)) in
  let? profile_len :=
    match profile f with
    | None => Ok 0
    | Some p =>
        let length := len p in
        let? _ := reject (length =? 0) Encode.EmptyProfile in
        let? _ := reject ((max_profile_len l <? length) || (MAX_PROFILE_LEN <? length))
                    (Encode.ProfileTooLong length (max_profile_len l `min` MAX_PROFILE_LEN)) in
        let? _ := reject (u16_max <? length) (Encode.ProfileTooLong length u16_max) in
        Ok length
    end in
  let capability_count := len (capabilities f) in
  let? _ := reject ((max_capabilities l <? capability_count)
                    || (MAX_CAPABILITIES <? capability_count))
              (Encode.TooManyCapabilities capability_count
                 (max_capabilities l `min` MAX_CAPABILITIES)) in
  let? lengths := validate_capabilities l [] (capabilities f) profile_len 0 in
  let metadata_len := lengths.1 in
  let? _ := reject ((max_metadata_len l <? metadata_len) || (MAX_METADATA_LEN <? metadata_len)
                    || (u32_max <? metadata_len))
              (Encode.MetadataTooLarge metadata_len (max_metadata_len l `min` MAX_METADATA_LEN)) in
  Ok (metadata_len, payload_len).

(** [HEADER_LEN + metadata_len + payload_len], checked against both frame bounds. *)
Definition frame_total_len (metadata_len payload_len : Z) : option Z :=
  usize_checked_add HEADER_LEN metadata_len ≫= fun length => usize_checked_add length payload_len.

(** The flag bits written for a frame. *)
Definition frame_flags (f : Frame) : Z :=
  let flags := match cancellation f with
               | Cancel.None => 0
               | Cancel.Requested => Z.lor 0 FLAG_CANCEL_REQUESTED
               | Cancel.Cancelled => Z.lor 0 FLAG_CANCELLED
               end in
  match profile f with
  | Some _ => Z.lor flags FLAG_PROFILE_PRESENT
  | None => flags
  end.

(** [for capability in &frame.capabilities { push_u16(len); extend(bytes) }]. *)
Fixpoint push_capabilities (bytes : list Z) (caps : list (list Z)) : list Z :=
  match caps with
  | [] => bytes
  | capability :: rest =>
      push_capabilities (push_u16 bytes (as_u16 (len capability)) ++ capability) rest
  end.

(** [FrameCodec::encode]. *)
Definition encode (l : FrameLimits) (f : Frame) : comp Encode.EncodeError (list Z) :=
  let? _ := map_err Encode.InvalidLimits (frame_limits_validate l) in
  let? lengths := validate_frame l f in
  let '(metadata_len, payload_len) := lengths in
  let? total_len := some_or (frame_total_len metadata_len payload_len) Encode.LengthOverflow in
  let? _ := reject ((max_frame_bytes l <? total_len) || (MAX_FRAME_BYTES <? total_len))
              (Encode.FrameTooLarge total_len (max_frame_bytes l `min` MAX_FRAME_BYTES)) in
  let profile_len := match profile f with Some p => len p | None => 0 end in
  let capability_count := len (capabilities f) in
  let bytes := [] ++ MAGIC in
  let bytes := bytes ++ [PROTOCOL_VERSION] in
  let bytes := bytes ++ [Kind.kind_as_u8 (kind f)] in
  let bytes := push_u16 bytes (frame_flags f) in
  let bytes := push_u64 bytes (request_id f) in
  let bytes := push_u64 bytes (match deadline f with Some timestamp => timestamp | None => 0 end) in
  let bytes := push_u16 bytes (as_u16 profile_len) in
  let bytes := push_u16 bytes (as_u16 capability_count) in
  let bytes := push_u32 bytes (as_u32 metadata_len) in
  let bytes := push_u32 bytes (as_u32 payload_len) in
  let bytes := match profile f with Some p => bytes ++ p | None => bytes end in
  let bytes := push_capabilities bytes (capabilities f) in
  Ok (bytes ++ payload f).

(** ** Decoding *)

Inductive DecodeResult : Type :=
| Complete (frame : Frame) (consumed : Z)
| Incomplete (needed : Z).

(** The fields of the fixed header, as [decode] holds them in locals. *)
Record header : Type := mkHeader {
  h_kind : Kind.MessageKind;
  h_flags : Z;
  h_request_id : Z;
  h_deadline_wire : Z;
  h_profile_len : Z;
  h_capability_count : Z;
  h_metadata_len : Z;
  h_payload_len : Z;
}.

(** The part of [decode] that reads the 36-byte header. *)
Definition decode_header (input : list Z) : comp Decode.DecodeError header :=
  let? magic := slice input 0 (len MAGIC) in
  let? b0 := index input 0 in
  let? b1 := index input 1 in
  let? b2 := index input 2 in
  let? b3 := index input 3 in
  let? _ := reject (negb (bool_decide (magic = MAGIC))) (Decode.InvalidMagic [b0; b1; b2; b3]) in
  let? version := index input 4 in
  let? _ := reject (negb (version =? PROTOCOL_VERSION)) (Decode.UnsupportedVersion version) in
  let? kind_wire := index input 5 in
  let? k := from_wire kind_wire in
  let? flags := read_u16 input 6 in
  let? _ := reject (negb (and_not flags KNOWN_FLAGS =? 0))
              (Decode.UnknownFlags (and_not flags KNOWN_FLAGS)) in
  let? _ := reject (has_flag flags FLAG_CANCEL_REQUESTED && has_flag flags FLAG_CANCELLED)
              Decode.InvalidCancellationFlags in
  let? id := read_u64 input 8 in
  let? deadline_wire := read_u64 input 16 in
  let? profile_len := read_u16 input 24 in
  let? capability_count := read_u16 input 26 in
  let? metadata_len := read_u32 input 28 in
  let? payload_len := read_u32 input 32 in
  Ok {| h_kind := k; h_flags := flags; h_request_id := id; h_deadline_wire := deadline_wire;
        h_profile_len := profile_len; h_capability_count := capability_count;
        h_metadata_len := metadata_len; h_payload_len := payload_len |}.

(** The part of [decode] that checks the declared lengths against the codec's
    limits, before anything past the header is looked at; the result is
    [total_len]. *)
Definition check_header_limits (l : FrameLimits) (h : header) : comp Decode.DecodeError Z :=
  let? _ := reject (max_payload_len l <? h_payload_len h)
              (Decode.PayloadTooLarge (h_payload_len h) (max_payload_len l)) in
  let? _ := (if bool_decide (h_kind h = Kind.Error) then
               let? limit := some_or (usize_checked_add ERROR_PAYLOAD_HEADER_LEN
                                        (max_error_message_len l `min` MAX_ERROR_MESSAGE_LEN))
                               Decode.LengthOverflow in
               reject (limit <? h_payload_len h)
                 (Decode.ErrorPayloadTooLarge (h_payload_len h) limit)
             else Ok ()) in
  let? _ := reject ((max_metadata_len l <? h_metadata_len h)
                    || (MAX_METADATA_LEN <? h_metadata_len h))
              (Decode.MetadataTooLarge (h_metadata_len h)
                 (max_metadata_len l `min` MAX_METADATA_LEN)) in
  let? _ := reject ((max_profile_len l <? h_profile_len h) || (MAX_PROFILE_LEN <? h_profile_len h))
              (Decode.ProfileTooLong (h_profile_len h) (max_profile_len l `min` MAX_PROFILE_LEN)) in
  let? _ := reject ((max_capabilities l <? h_capability_count h)
                    || (MAX_CAPABILITIES <? h_capability_count h))
              (Decode.TooManyCapabilities (h_capability_count h)
                 (max_capabilities l `min` MAX_CAPABILITIES)) in
  let? total_len := some_or (frame_total_len (h_metadata_len h) (h_payload_len h))
                      Decode.LengthOverflow in
  let? _ := reject ((max_frame_bytes l <? total_len) || (MAX_FRAME_BYTES <? total_len))
              (Decode.FrameTooLarge total_len (max_frame_bytes l `min` MAX_FRAME_BYTES)) in
  Ok total_len.

(** [profile_bytes], and the offset after it. *)
Definition decode_profile (metadata : list Z) (profile_len metadata_len : Z)
    : comp Decode.DecodeError (option (list Z) * Z) :=
  if profile_len =? 0 then Ok (None, 0)
  else
    let? end_ := some_or (usize_checked_add 0 profile_len) Decode.LengthOverflow in
    let? _ := reject (len metadata <? end_) (Decode.MetadataLengthMismatch metadata_len end_) in
    let? bytes := slice metadata 0 end_ in
    let? _ := reject (negb (from_utf8 bytes)) (Decode.MalformedUtf8 Decode.Profile) in
    Ok (Some bytes, end_).

(** The inner loop [for _ in 0..index] over the capabilities already checked. *)
Fixpoint check_duplicate (metadata current : list Z) (index : Z) (n : nat) (previous_offset : Z)
    : comp Decode.DecodeError () :=
  match n with
  | O => Ok ()
  | S n =>
      let? previous_length_end := some_or (usize_checked_add previous_offset 2)
                                    Decode.LengthOverflow in
      let? previous_length := read_u16 metadata previous_offset in
      let? previous_end := some_or (usize_checked_add previous_length_end previous_length)
                             Decode.LengthOverflow in
      let? previous := slice metadata previous_length_end previous_end in
      let? _ := reject (bool_decide (previous = current)) (Decode.DuplicateCapability index) in
      check_duplicate metadata current index n previous_end
  end.

(** The loop [for index in 0..capability_count] that validates the
    capabilities; [n] iterations remain, [index] were done, the accumulators
    are [offset] and [capability_bytes]; the result is the final offset. *)
Fixpoint check_capabilities (l : FrameLimits) (metadata : list Z) (profile_len metadata_len : Z)
    (n index : nat) (offset capability_bytes : Z) : comp Decode.DecodeError Z :=
  match n with
  | O => Ok offset
  | S n =>
      let i := Z.of_nat index in
      let? length_end := some_or (usize_checked_add offset 2) Decode.LengthOverflow in
      let? _ := reject (len metadata <? length_end)
                  (Decode.MetadataLengthMismatch metadata_len length_end) in
      let? capability_len := read_u16 metadata offset in
      let offset := length_end in
      let? _ := reject (capability_len =? 0) (Decode.EmptyCapability i) in
      let? _ := reject ((max_capability_len l <? capability_len)
                        || (MAX_CAPABILITY_LEN <? capability_len))
                  (Decode.CapabilityTooLong i capability_len
                     (max_capability_len l `min` MAX_CAPABILITY_LEN)) in
      let? end_ := some_or (usize_checked_add offset capability_len) Decode.LengthOverflow in
      let? _ := reject (len metadata <? end_) (Decode.MetadataLengthMismatch metadata_len end_) in
      let? current := slice metadata offset end_ in
      let? _ := reject (negb (from_utf8 current)) (Decode.MalformedUtf8 (Decode.Capability i)) in
      let? _ := check_duplicate metadata current i index profile_len in
      let? capability_bytes := some_or (usize_checked_add capability_bytes 2 ≫= fun v =>
                                        usize_checked_add v capability_len)
                                 Decode.LengthOverflow in
      let? _ := reject (max_capability_bytes l <? capability_bytes)
                  (Decode.CapabilityBytesTooLarge capability_bytes (max_capability_bytes l)) in
      check_capabilities l metadata profile_len metadata_len n (S index) end_ capability_bytes
  end.

(** The second pass, which copies the validated capabilities. *)
Fixpoint copy_capabilities (metadata : list Z) (n : nat) (offset : Z) (caps : list (list Z))
    : comp Decode.DecodeError (list (list Z)) :=
  match n with
  | O => Ok caps
  | S n =>
      let? capability_len := read_u16 metadata offset in
      let offset := offset + 2 in
      let end_ := offset + capability_len in
      let? bytes := slice metadata offset end_ in
      let? _ := reject (negb (from_utf8 bytes))
                  (Decode.MalformedUtf8 (Decode.Capability (len caps))) in
      copy_capabilities metadata n end_ (caps ++ [bytes])
  end.

Definition flags_cancellation (flags : Z) : Cancel.Cancellation :=
  if has_flag flags FLAG_CANCEL_REQUESTED then Cancel.Requested
  else if has_flag flags FLAG_CANCELLED then Cancel.Cancelled
  else Cancel.None.

(** The part of [decode] after the whole frame is known to be present. *)
Definition decode_body (l : FrameLimits) (h : header) (total_len : Z) (input : list Z)
    : comp Decode.DecodeError DecodeResult :=
  let metadata_len := h_metadata_len h in
  let payload_len := h_payload_len h in
  let profile_len := h_profile_len h in
  let count := Z.to_nat (h_capability_count h) in
  let payload_start := HEADER_LEN + metadata_len in
  let profile_present := has_flag (h_flags h) FLAG_PROFILE_PRESENT in
  let? _ := reject (negb (bool_decide (profile_present = negb (profile_len =? 0))))
              (Decode.ProfileFlagMismatch profile_present profile_len) in
  let? metadata := slice input HEADER_LEN (HEADER_LEN + metadata_len) in
  let? prof := decode_profile metadata profile_len metadata_len in
  let '(profile_bytes, offset) := prof in
  let? offset := check_capabilities l metadata profile_len metadata_len count 0 offset 0 in
  let? _ := reject (negb (offset =? len metadata))
              (Decode.MetadataLengthMismatch metadata_len offset) in
  let c := flags_cancellation (h_flags h) in
  let? body := slice input payload_start (payload_start + payload_len) in
  let? handshake_error_code :=
    zero_id_error_code (h_kind h) (h_request_id h) body (max_error_message_len l) in
  let? _ := map_err Decode.InvalidFrame
              (validate_wire_semantics (h_kind h) (h_request_id h) profile_present
                 (h_capability_count h) c handshake_error_code) in
  let? prof := match profile_bytes with
               | Some bytes =>
                   let? _ := reject (negb (from_utf8 bytes))
                               (Decode.MalformedUtf8 Decode.Profile) in
                   Ok (Some bytes)
               | None => Ok None
               end in
  let? caps := copy_capabilities metadata count profile_len [] in
  Ok (Complete
        {| kind := h_kind h; request_id := h_request_id h;
           deadline := if h_deadline_wire h =? 0 then None else Some (h_deadline_wire h);
           cancellation := c; profile := prof; capabilities := caps; payload := body |}
        total_len).

(** [FrameCodec::decode]. *)
Definition decode (l : FrameLimits) (input : list Z) : comp Decode.DecodeError DecodeResult :=
  let? _ := map_err Decode.InvalidLimits (frame_limits_validate l) in
  if len input <? HEADER_LEN then Ok (Incomplete (HEADER_LEN - len input))
  else
    let? h := decode_header input in
    let? total_len := check_header_limits l h in
    if len input <? total_len then Ok (Incomplete (total_len - len input))
    else decode_body l h total_len input.

(** [FrameCodec::decode_next]: the frame and what is left of the slice. *)
Definition decode_next (l : FrameLimits) (input : list Z)
    : comp Decode.DecodeError (option Frame) * list Z :=
  match decode l input with
  | Ok (Incomplete _) => (Ok None, input)
  | Ok (Complete frame consumed) =>
      match slice input consumed (len input) with
      | Ok rest => (Ok (Some frame), rest)
      | Err e => (Err e, input)
      | OutOfFuel => (OutOfFuel, input)
      end
  | Err e => (Err e, input)
  | OutOfFuel => (OutOfFuel, input)
  end.

(** [FrameCodec::decode_exact]. *)
Definition decode_exact (l : FrameLimits) (input : list Z) : comp Decode.DecodeError Frame :=
  let? r := decode l input in
  match r with
  | Incomplete needed => raise (Decode.Incomplete needed)
  | Complete frame consumed =>
      if consumed =? len input then Ok frame
      else raise (Decode.TrailingBytes (len input - consumed))
  end.

Inductive TrailingPolicy : Type := Allow | Reject.

(** [FrameCodec::decode_with_policy]. *)
Definition decode_with_policy (l : FrameLimits) (input : list Z) (policy : TrailingPolicy)
    : comp Decode.DecodeError DecodeResult :=
  let? r := decode l input in
  match policy, r with
  | Reject, Complete _ consumed =>
      let? _ := reject (negb (consumed =? len input))
                  (Decode.TrailingBytes (len input - consumed)) in
      Ok r
  | _, _ => Ok r
  end.

(** [FrameCodec::error_frame]. *)
Definition error_frame (l : FrameLimits) (id : Z) (e : RemoteError)
    : comp Encode.EncodeError Frame :=
  let? body := encode_payload_with_limit e (max_error_message_len l) in
  let frame := frame_new Kind.Error id body in
  let? _ := validate_frame l frame in
  Ok frame.

(** [FrameCodec::decode_remote_error]. *)
Definition decode_remote_error (l : FrameLimits) (f : Frame)
    : comp Remote.RemoteErrorDecodeError RemoteError :=
  let? _ := reject (negb (bool_decide (kind f = Kind.Error))) (Remote.WrongMessageKind (kind f)) in
  decode_payload_with_limit (payload f) (max_error_message_len l).

(** [FrameCodec::max_frame_len]. *)
Definition max_frame_len (l : FrameLimits) : option Z :=
  match frame_limits_validate l with
  | Ok _ =>
      usize_checked_add HEADER_LEN (max_metadata_len l `min` MAX_METADATA_LEN) ≫= fun v =>
      usize_checked_add v (max_payload_len l `min` u32_max) ≫= fun field_sum =>
      Some ((field_sum `min` max_frame_bytes l) `min` MAX_FRAME_BYTES)
  | _ => None
  end.
