(* ===== verification/FrameFacts.v ===== *)
(** * Correctness of the frame codec

    The wire image of a frame ([frame_bytes]) and the frames a codec accepts
    ([frame_within]) are stated independently of the codec's passes.  The
    encoder writes exactly the image of an accepted frame; the decoder returns
    a frame exactly when its input starts with the image of an accepted one.
    Round trip, canonicity, resource bounds, stability under more input and
    the decoding of a stream follow from these two equivalences. *)

From S2P Require Import Prelude Wire BridgeTypes FrameCodec.

(** ** Well-formed values: what the Rust types guarantee *)

#[global] Instance byte_ok_dec b : Decision (byte_ok b).
Proof. unfold byte_ok. solve_decision. Defined.
#[global] Instance bytes_ok_dec l : Decision (bytes_ok l).
Proof. unfold bytes_ok. solve_decision. Defined.
#[global] Instance str_ok_dec s : Decision (str_ok s).
Proof. unfold str_ok. solve_decision. Defined.

Record frame_ok (f : Frame) : Prop := {
  fo_id : 0 <= request_id f < 2 ^ 64;
  fo_deadline : match deadline f with Some t => 0 < t < 2 ^ 64 | None => True end;
  fo_profile : match profile f with Some p => str_ok p | None => True end;
  fo_capabilities : Forall str_ok (capabilities f);
  fo_payload : bytes_ok (payload f);
}.

(** ** The wire image *)

Definition capability_bytes (c : list Z) : list Z := to_be_bytes 2 (len c) ++ c.
Definition capabilities_bytes (caps : list (list Z)) : list Z := mjoin (capability_bytes <$> caps).

Definition header_bytes (h : header) : list Z :=
  MAGIC ++ [PROTOCOL_VERSION] ++ [Kind.kind_as_u8 (h_kind h)] ++ to_be_bytes 2 (h_flags h)
  ++ to_be_bytes 8 (h_request_id h) ++ to_be_bytes 8 (h_deadline_wire h)
  ++ to_be_bytes 2 (h_profile_len h) ++ to_be_bytes 2 (h_capability_count h)
  ++ to_be_bytes 4 (h_metadata_len h) ++ to_be_bytes 4 (h_payload_len h).

Definition profile_bytes (f : Frame) : list Z := default [] (profile f).
Definition metadata_bytes (f : Frame) : list Z :=
  profile_bytes f ++ capabilities_bytes (capabilities f).

Definition frame_header (f : Frame) : header :=
  {| h_kind := kind f; h_flags := frame_flags f; h_request_id := request_id f;
     h_deadline_wire := default 0 (deadline f);
     h_profile_len := len (profile_bytes f);
     h_capability_count := len (capabilities f);
     h_metadata_len := len (metadata_bytes f);
     h_payload_len := len (payload f) |}.

Definition frame_bytes (f : Frame) : list Z :=
  header_bytes (frame_header f) ++ metadata_bytes f ++ payload f.

(** ** The frames a codec accepts *)

Fixpoint capabilities_within (l : FrameLimits) (previous caps : list (list Z)) (used : Z) : Prop :=
  match caps with
  | [] => True
  | c :: rest =>
      0 < len c <= max_capability_len l /\ c ∉ previous /\
      used + 2 + len c <= max_capability_bytes l /\
      capabilities_within l (previous ++ [c]) rest (used + 2 + len c)
  end.

Record frame_within (l : FrameLimits) (f : Frame) : Prop := {
  fw_semantics : validate_frame_semantics f (max_error_message_len l) = Ok ();
  fw_payload : len (payload f) <= max_payload_len l;
  fw_profile : forall p, profile f = Some p -> 0 < len p <= max_profile_len l;
  fw_count : len (capabilities f) <= max_capabilities l;
  fw_capabilities : capabilities_within l [] (capabilities f) 0;
  fw_metadata : len (metadata_bytes f) <= max_metadata_len l;
}.

(** The decoder, not the encoder, also bounds the payload of an error frame. *)
Definition error_payload_within (l : FrameLimits) (f : Frame) : Prop :=
  kind f = Kind.Error -> len (payload f) <= ERROR_PAYLOAD_HEADER_LEN + max_error_message_len l.

(** ** Limits *)

(** The fields are [usize] values. *)
Definition limits_typed (l : FrameLimits) : Prop :=
  0 <= max_payload_len l /\ 0 <= max_frame_bytes l /\ 0 <= max_profile_len l /\
  0 <= max_capabilities l /\ 0 <= max_capability_len l /\ 0 <= max_capability_bytes l /\
  0 <= max_metadata_len l /\ 0 <= max_error_message_len l.

(** A codec whose limits the constructors accept. *)
Definition codec_ok (l : FrameLimits) : Prop :=
  limits_typed l /\ frame_limits_validate l = Ok ().

(** What a validated declaration of limits guarantees. *)
Record limits_bounded (l : FrameLimits) : Prop := {
  lb_frame : HEADER_LEN <= max_frame_bytes l <= MAX_FRAME_BYTES;
  lb_sum : max_payload_len l + max_metadata_len l <= max_frame_bytes l - HEADER_LEN;
  lb_payload : max_payload_len l <= max_frame_bytes l - HEADER_LEN;
  lb_metadata : max_metadata_len l <= MAX_METADATA_LEN;
  lb_profile : max_profile_len l <= MAX_PROFILE_LEN;
  lb_count : max_capabilities l <= MAX_CAPABILITIES;
  lb_capability : max_capability_len l <= MAX_CAPABILITY_LEN;
  lb_capabilities : max_capability_bytes l <= max_metadata_len l;
  lb_error : max_error_message_len l <= MAX_ERROR_MESSAGE_LEN;
}.

Lemma limits_valid l : frame_limits_validate l = Ok () -> limits_bounded l.
Proof.
  unfold frame_limits_validate. intros H. comp_inv. unfold usize_checked_add in *. comp_inv.
  subst. constructor; lia.
Qed.

Lemma usize_add_small a b : a + b <= u64_max -> usize_checked_add a b = Some (a + b).
Proof. intros. by apply u64_checked_add_Some. Qed.

Lemma frame_limits_validate_returns l : returns (frame_limits_validate l).
Proof. unfold frame_limits_validate. returns_chain. Qed.

(** [consts] exposes the constants of the protocol to [lia]; [limits l] adds
    the bounds of a validated codec; [run] discharges the next check. *)
Ltac consts :=
  unfold HEADER_LEN, MAX_FRAME_BYTES, MAX_METADATA_LEN, MAX_PROFILE_LEN, MAX_CAPABILITIES,
    MAX_CAPABILITY_LEN, MAX_ERROR_MESSAGE_LEN, ERROR_PAYLOAD_HEADER_LEN, u16_max, u32_max,
    u64_max in *.

Ltac limits l :=
  let H := fresh "Hlim" in
  pose proof (limits_valid l ltac:(assumption)) as H; destruct H.

Ltac run := rewrite bind_reject by (first [done | consts; lia]); cbv beta.
Ltac run_add := rewrite usize_add_small by (consts; lia); cbn [some_or res_bind mbind option_bind].

(** ** Flags *)

Lemma and_not_0 f k : 0 <= f -> 0 <= k -> and_not f k = 0 -> Z.land f k = f.
Proof.
  intros ?? H. unfold and_not in H. apply Z.bits_inj'. intros n Hn.
  rewrite Z.land_spec. pose proof (f_equal (fun z => Z.testbit z n) H) as Hb.
  cbn beta in Hb. rewrite Z.ldiff_spec, Z.bits_0 in Hb.
  by destruct (Z.testbit f n), (Z.testbit k n).
Qed.

(** Known flags without both cancellation bits are the flags of a frame. *)
Lemma known_flags f :
  0 <= f -> and_not f KNOWN_FLAGS = 0 ->
  f ∈ [0; 1; 2; 3; 4; 5; 6; 7].
Proof.
  intros Hf H. apply and_not_0 in H; [|done|done].
  change KNOWN_FLAGS with (Z.ones 3) in H. rewrite Z.land_ones in H by lia.
  assert (0 <= f < 8) as Hb by (rewrite <- H; apply Z.mod_pos_bound; done).
  rewrite !elem_of_cons. lia.
Qed.

(** ** The header *)

Record header_ok (h : header) : Prop := {
  ho_flags : 0 <= h_flags h /\ and_not (h_flags h) KNOWN_FLAGS = 0;
  ho_cancel : has_flag (h_flags h) FLAG_CANCEL_REQUESTED
              && has_flag (h_flags h) FLAG_CANCELLED = false;
  ho_id : 0 <= h_request_id h < 2 ^ 64;
  ho_deadline : 0 <= h_deadline_wire h < 2 ^ 64;
  ho_profile : 0 <= h_profile_len h < 2 ^ 16;
  ho_count : 0 <= h_capability_count h < 2 ^ 16;
  ho_metadata : 0 <= h_metadata_len h < 2 ^ 32;
  ho_payload : 0 <= h_payload_len h < 2 ^ 32;
}.

Lemma len_header_bytes h : len (header_bytes h) = HEADER_LEN.
Proof. done. Qed.

Lemma from_wire_as_u8 k : from_wire (Kind.kind_as_u8 k) = Ok k.
Proof. by destruct k. Qed.

Lemma from_wire_Ok v k : from_wire v = Ok k -> v = Kind.kind_as_u8 k.
Proof. unfold from_wire. intros H. repeat case_if; simplify_eq; done. Qed.

(** The header is a function of the first 36 bytes. *)
Lemma decode_header_app hd rest :
  len hd = HEADER_LEN -> decode_header (hd ++ rest) = decode_header hd.
Proof.
  unfold HEADER_LEN. intros Hl. unfold decode_header.
  change (len MAGIC) with 4. rewrite !slice_app, !index_app by lia.
  rewrite !read_u16_be, !read_u64_be, !read_u32_be by lia.
  by rewrite !read_be_app by lia.
Qed.

Lemma decode_header_complete h rest :
  header_ok h -> decode_header (header_bytes h ++ rest) = Ok h.
Proof.
  intros [[Hf Hk] Hc Hid Hd Hp Hn Hm Hpl]. rewrite decode_header_app by apply len_header_bytes.
  assert (h_flags h < 2 ^ 16) as Hf16.
  { pose proof (known_flags _ Hf Hk) as Hin. rewrite !elem_of_cons, elem_of_nil in Hin. lia. }
  unfold decode_header. set (hb := header_bytes h).
  rewrite !read_u16_be, !read_u64_be, !read_u32_be by lia.
  rewrite (read_be_mid 2 (take 6 hb) (h_flags h) (drop 8 hb) 6 eq_refl (conj Hf Hf16)
            : read_be 2 hb 6 = _).
  rewrite (read_be_mid 8 (take 8 hb) (h_request_id h) (drop 16 hb) 8 eq_refl Hid
            : read_be 8 hb 8 = _).
  rewrite (read_be_mid 8 (take 16 hb) (h_deadline_wire h) (drop 24 hb) 16 eq_refl Hd
            : read_be 8 hb 16 = _).
  rewrite (read_be_mid 2 (take 24 hb) (h_profile_len h) (drop 26 hb) 24 eq_refl Hp
            : read_be 2 hb 24 = _).
  rewrite (read_be_mid 2 (take 26 hb) (h_capability_count h) (drop 28 hb) 26 eq_refl Hn
            : read_be 2 hb 26 = _).
  rewrite (read_be_mid 4 (take 28 hb) (h_metadata_len h) (drop 32 hb) 28 eq_refl Hm
            : read_be 4 hb 28 = _).
  rewrite (read_be_mid 4 (take 32 hb) (h_payload_len h) (drop 36 hb) 32 eq_refl Hpl
            : read_be 4 hb 32 = _).
  change (slice hb 0 (len MAGIC)) with (Ok (E := fault Decode.DecodeError) MAGIC).
  change (index hb 5) with (Ok (E := fault Decode.DecodeError) (Kind.kind_as_u8 (h_kind h))).
  cbn -[from_wire Z.eqb and_not has_flag Kind.kind_as_u8]. rewrite from_wire_as_u8, Hk, Hc.
  by destruct h.
Qed.

(** A header of 36 bytes is the sequence of its fields. *)
Lemma header_split (hd : list Z) :
  len hd = HEADER_LEN ->
  hd = take 4 (drop 0 hd) ++ take 1 (drop 4 hd) ++ take 1 (drop 5 hd) ++ take 2 (drop 6 hd)
       ++ take 8 (drop 8 hd) ++ take 8 (drop 16 hd) ++ take 2 (drop 24 hd)
       ++ take 2 (drop 26 hd) ++ take 4 (drop 28 hd) ++ take 4 (drop 32 hd).
Proof.
  unfold HEADER_LEN, len. intros Hl.
  rewrite (take_ge (drop 32 hd)) by (rewrite length_drop; lia).
  rewrite <- (drop_split 28 4), <- (drop_split 26 2), <- (drop_split 24 2), <- (drop_split 16 8),
    <- (drop_split 8 8), <- (drop_split 6 2), <- (drop_split 5 1), <- (drop_split 4 1).
  symmetry. apply (take_drop 4).
Qed.

Lemma decode_header_fields hd h :
  bytes_ok hd -> len hd = HEADER_LEN -> decode_header hd = Ok h ->
  header_ok h /\ hd = header_bytes h.
Proof.
  intros Hb Hlen H. unfold decode_header in H.
  rewrite !read_u16_be, !read_u64_be, !read_u32_be in H by lia. comp_inv.
  apply negb_false_iff, bool_decide_eq_true in H5. subst h r. split.
  - pose proof (read_be_bound _ _ _ _ Hb H10).
    constructor; cbn; [split; lia|done|..];
      match goal with H : read_be _ hd _ = Ok ?v |- 0 <= ?v < _ =>
        exact (read_be_bound _ _ _ _ Hb H) end.
  - rewrite (header_split hd Hlen) at 1. unfold header_bytes. cbn [h_kind h_flags h_request_id
      h_deadline_wire h_profile_len h_capability_count h_metadata_len h_payload_len].
    apply slice_take in H0. apply index_take in H6, H8. apply read_be_take in H10, H13, H14, H15,
      H16, H17, H18; [|done..]. apply from_wire_Ok in H9. subst r7.
    assert (r5 = PROTOCOL_VERSION) as -> by lia. by repeat f_equal.
Qed.

Lemma decode_header_sound input h :
  bytes_ok input -> HEADER_LEN <= len input -> decode_header input = Ok h ->
  header_ok h /\ exists rest, input = header_bytes h ++ rest.
Proof.
  intros Hb Hl H. rewrite <- (take_drop 36 input) in Hb, H.
  assert (len (take 36 input) = HEADER_LEN) as Hlen.
  { unfold len, HEADER_LEN in *. rewrite length_take. lia. }
  rewrite decode_header_app in H by done. apply bytes_ok_app in Hb as [Hb _].
  destruct (decode_header_fields _ _ Hb Hlen H) as [Hok Heq]. split; [done|].
  exists (drop 36 input). by rewrite <- Heq, take_drop.
Qed.

Lemma decode_header_returns input :
  HEADER_LEN <= len input -> returns (decode_header input).
Proof.
  unfold HEADER_LEN. intros Hl. unfold decode_header.
  rewrite !read_u16_be, !read_u64_be, !read_u32_be by lia.
  change (len MAGIC) with 4. returns_chain.
  unfold from_wire. repeat case_if; done.
Qed.

(** ** Capabilities *)

Lemma len_capability_bytes c : len (capability_bytes c) = 2 + len c.
Proof. unfold capability_bytes. by rewrite len_app, len_be_bytes. Qed.

Lemma capabilities_bytes_cons c caps :
  capabilities_bytes (c :: caps) = capability_bytes c ++ capabilities_bytes caps.
Proof. done. Qed.

Lemma capabilities_bytes_snoc caps c :
  capabilities_bytes (caps ++ [c]) = capabilities_bytes caps ++ capability_bytes c.
Proof.
  unfold capabilities_bytes. rewrite fmap_app, join_app. cbn. by rewrite app_nil_r.
Qed.

#[local] Hint Rewrite len_capability_bytes capabilities_bytes_cons : len.

Definition short (c : list Z) : Prop := len c < 2 ^ 16.

Lemma read_capability_len {E} pre c post off :
  off = len pre -> short c ->
  read_u16 (E := E) (pre ++ capability_bytes c ++ post) off = Ok (len c).
Proof.
  intros -> Hc. rewrite read_u16_be by apply len_nonneg. unfold capability_bytes.
  rewrite <- app_assoc. apply read_be_mid; [done|]. split; [apply len_nonneg|exact Hc].
Qed.

Lemma slice_capability {E} pre c post a b :
  a = len pre + 2 -> b = a + len c ->
  slice (E := E) (pre ++ capability_bytes c ++ post) a b = Ok c.
Proof.
  intros -> ->. unfold capability_bytes. rewrite <- app_assoc, app_assoc.
  apply slice_mid; rewrite len_app, len_be_bytes; lia.
Qed.

(** The inner loop compares with every earlier capability. *)
Lemma check_duplicate_eq pre prev post current i :
  Forall short prev -> len (pre ++ capabilities_bytes prev ++ post) <= u64_max ->
  check_duplicate (pre ++ capabilities_bytes prev ++ post) current i (length prev) (len pre)
  = reject (bool_decide (current ∈ prev)) (Decode.DuplicateCapability i).
Proof.
  revert pre. induction prev as [|c prev IH]; intros pre Hs Hlen.
  { by rewrite bool_decide_eq_false_2 by apply not_elem_of_nil. }
  apply Forall_cons in Hs as [Hc Hs]. cbn [length check_duplicate].
  rewrite capabilities_bytes_cons, <- app_assoc in *. unfold u64_max in *.
  rewrite (usize_add_small (len pre) 2) by (unfold u64_max; len_lia). cbn [some_or res_bind].
  rewrite read_capability_len by done. cbn [res_bind].
  rewrite usize_add_small by (unfold u64_max; len_lia). cbn [some_or res_bind].
  rewrite slice_capability by lia. cbn [res_bind].
  destruct (decide (c = current)) as [->|Hne].
  { rewrite !bool_decide_eq_true_2 by (done || by left). done. }
  rewrite bool_decide_eq_false_2 by done. cbn [reject res_bind].
  replace (len pre + 2 + len c) with (len (pre ++ capability_bytes c)) by len_lia.
  rewrite app_assoc in *. rewrite IH by done. f_equal.
  apply bool_decide_ext. rewrite elem_of_cons. naive_solver.
Qed.

(** One iteration of the validating loop on the image of a capability. *)
Lemma check_capabilities_complete l pro prev caps post ml used off :
  frame_limits_validate l = Ok () ->
  Forall short prev -> Forall str_ok caps -> capabilities_within l prev caps used ->
  0 <= used ->
  len (pro ++ capabilities_bytes prev ++ capabilities_bytes caps ++ post) <= MAX_METADATA_LEN ->
  off = len pro + len (capabilities_bytes prev) ->
  check_capabilities l (pro ++ capabilities_bytes prev ++ capabilities_bytes caps ++ post)
    (len pro) ml (length caps) (length prev) off used
  = Ok (off + len (capabilities_bytes caps)).
Proof.
  intros Hl. limits l. revert prev used off.
  induction caps as [|c caps IH]; intros prev used off Hs Hok Hw Hu Hlen Hoff.
  { change (len (capabilities_bytes [])) with 0. by rewrite Z.add_0_r. }
  apply Forall_cons in Hok as [[_ Hutf] Hok]. destruct Hw as (Hc & Hnew & Hbytes & Hw).
  cbn [length check_capabilities]. set (metadata := pro ++ _) in *.
  assert (metadata = (pro ++ capabilities_bytes prev) ++ capability_bytes c
                     ++ (capabilities_bytes caps ++ post)) as Hm1.
  { subst metadata. by rewrite capabilities_bytes_cons, <- !app_assoc. }
  assert (metadata = pro ++ capabilities_bytes (prev ++ [c]) ++ capabilities_bytes caps ++ post)
    as Hm2.
  { rewrite Hm1, capabilities_bytes_snoc, <- !app_assoc. done. }
  assert (off + 2 + len c <= len metadata) as Hend by (rewrite Hm1; len_lia).
  assert (off = len (pro ++ capabilities_bytes prev)) as Hoff' by len_lia.
  run_add.
  pose proof (len_nonneg c). run.
  rewrite Hm1, read_capability_len, <- Hm1 by (done || (unfold short; consts; lia)). cbn [res_bind].
  do 2 run. run_add.
  run. rewrite Hm1, slice_capability, <- Hm1 by lia. cbn [res_bind]. rewrite Hutf.
  run. unfold metadata at 1. rewrite check_duplicate_eq; [|done|fold metadata; consts; lia].
  rewrite bool_decide_eq_false_2 by done. run.
  do 2 run_add. run.
  rewrite Hm2, capabilities_bytes_cons in *. specialize (IH (prev ++ [c]) (used + 2 + len c) (off + 2 + len c)).
  rewrite length_app, Nat.add_1_r in IH. rewrite IH; [f_equal; len_lia|..]; try done.
  - apply Forall_app. split; [done|]. constructor; [unfold short; consts; lia|done].
  - lia.
  - rewrite capabilities_bytes_snoc. len_lia.
Qed.

Lemma copy_capabilities_complete pro caps post acc off :
  Forall str_ok caps -> Forall short caps -> off = len pro ->
  copy_capabilities (pro ++ capabilities_bytes caps ++ post) (length caps) off acc
  = Ok (acc ++ caps).
Proof.
  revert pro acc off. induction caps as [|c caps IH]; intros pro acc off Hok Hs ->.
  { cbn. by rewrite app_nil_r. }
  apply Forall_cons in Hok as [[_ Hutf] Hok]. apply Forall_cons in Hs as [Hc Hs].
  cbn [length copy_capabilities]. rewrite capabilities_bytes_cons, <- app_assoc.
  rewrite read_capability_len by done. cbn [res_bind].
  rewrite slice_capability by lia. cbn [res_bind]. rewrite Hutf. run.
  rewrite app_assoc, IH by (done || len_lia). by rewrite <- app_assoc.
Qed.

Lemma usize_add_Some a b c : usize_checked_add a b = Some c -> c = a + b.
Proof. intros H. by apply u64_checked_add_Some in H as [_ ->]. Qed.

Lemma usize_add2_Some a b d c :
  usize_checked_add a b ≫= (fun v => usize_checked_add v d) = Some c -> c = a + b + d.
Proof.
  intros (v & ->%usize_add_Some & H)%bind_Some. by apply usize_add_Some in H.
Qed.

(** A length prefix and the slice after it are the image of a capability. *)
Lemma capability_image base tail pre1 v post1 pre2 c post2 :
  base ++ tail = pre1 ++ to_be_bytes 2 v ++ post1 -> len base = len pre1 ->
  base ++ tail = pre2 ++ c ++ post2 -> len base + 2 = len pre2 -> len c = v ->
  tail = capability_bytes c ++ post2.
Proof.
  intros H1 Hl1 H2 Hl2 <-. apply app_len_inj in H1 as [<- ->]; [|done].
  unfold capability_bytes. rewrite <- app_assoc. f_equal.
  rewrite app_assoc in H2. apply app_len_inj in H2 as [_ H2]; [done|].
  rewrite len_app, len_be_bytes. done.
Qed.

Lemma check_capabilities_safe l pro prev tail ml n used off :
  frame_limits_validate l = Ok () ->
  bytes_ok (pro ++ capabilities_bytes prev ++ tail) -> Forall short prev ->
  len (pro ++ capabilities_bytes prev ++ tail) <= MAX_METADATA_LEN ->
  off = len pro + len (capabilities_bytes prev) ->
  safe (check_capabilities l (pro ++ capabilities_bytes prev ++ tail) (len pro) ml n
          (length prev) off used)
    (fun off' => exists caps post, tail = capabilities_bytes caps ++ post /\ length caps = n /\
       Forall str_ok caps /\ Forall short caps /\ capabilities_within l prev caps used /\
       off' = off + len (capabilities_bytes caps)).
Proof.
  intros Hl. limits l. revert prev tail used off.
  induction n as [|n IH]; intros prev tail used off Hb Hs Hlen Hoff.
  { exists [], tail. rewrite Z.add_0_r. by repeat constructor. }
  cbn [check_capabilities]. set (metadata := pro ++ _) in *.
  assert (metadata = (pro ++ capabilities_bytes prev) ++ tail) as Hm by apply app_assoc.
  assert (off = len (pro ++ capabilities_bytes prev)) as Hoff' by len_lia.
  pose proof (len_nonneg (pro ++ capabilities_bytes prev)).
  apply safe_some_or. intros le ->%usize_add_Some. apply safe_reject. intros Hle.
  rewrite read_u16_be by lia. apply safe_read_be; [done|lia|]. intros pre1 v post1 Hm1 Hp1 Hv.
  apply safe_reject. intros Hne. apply safe_reject. intros Hmax.
  apply safe_some_or. intros en ->%usize_add_Some. apply safe_reject. intros Hen.
  apply safe_slice; [lia|]. intros pre2 c post2 Hm2 Hp2 Hc.
  apply safe_reject. intros Hutf.
  assert (tail = capability_bytes c ++ post2) as Htail.
  { apply (capability_image (pro ++ capabilities_bytes prev) _ pre1 v post1 pre2);
      rewrite <- ?Hm; lia || done. }
  assert (v = len c) as -> by lia.
  unfold metadata at 1. rewrite check_duplicate_eq; [|done|fold metadata; consts; lia].
  apply safe_reject. intros Hnew%bool_decide_eq_false.
  apply safe_some_or. intros ub ->%usize_add2_Some. apply safe_reject. intros Hub.
  assert (metadata = pro ++ capabilities_bytes (prev ++ [c]) ++ post2) as Hm3.
  { by rewrite Hm, Htail, capabilities_bytes_snoc, <- !app_assoc. }
  assert (short c) as Hshort by (unfold short; consts; lia).
  rewrite Hm3. replace (S (length prev)) with (length (prev ++ [c])) by (rewrite length_app; cbn; lia).
  eapply safe_mono; [apply IH|].
  - by rewrite <- Hm3.
  - apply Forall_app. by repeat constructor.
  - by rewrite <- Hm3.
  - rewrite capabilities_bytes_snoc. len_lia.
  - intros off' (caps & post & -> & Hn & Hok & Hss & Hw & ->). exists (c :: caps), post.
    assert (bytes_ok c) as Hcb.
    { rewrite Hm2, !bytes_ok_app in Hb. tauto. }
    rewrite capabilities_bytes_cons, <- app_assoc. split_and!; try done.
    + cbn. lia.
    + constructor; [split; [done|by destruct (from_utf8 c)]|done].
    + by constructor.
    + cbn. split_and!; try lia; done.
    + len_lia.
Qed.

(** ** Encoding *)

Lemma validate_capabilities_sound l prev caps ml used r :
  validate_capabilities l prev caps ml used = Ok r ->
  capabilities_within l prev caps used /\ r.1 = ml + len (capabilities_bytes caps).
Proof.
  revert prev ml used. induction caps as [|c caps IH]; intros prev ml used H; cbn in H.
  { simplify_eq. split; [done|]. change (len (capabilities_bytes [])) with 0. cbn. lia. }
  comp_inv. apply bool_decide_eq_false in H3. apply usize_add2_Some in H4, H5. subst.
  destruct (IH _ _ _ H) as [Hw ->]. pose proof (len_nonneg c). rewrite capabilities_bytes_cons.
  split; [|len_lia]. cbn. split_and!; try lia; done.
Qed.

Lemma validate_capabilities_complete l prev caps ml used :
  frame_limits_validate l = Ok () -> capabilities_within l prev caps used ->
  0 <= used <= MAX_METADATA_LEN -> 0 <= ml <= used + MAX_PROFILE_LEN ->
  exists u, validate_capabilities l prev caps ml used = Ok (ml + len (capabilities_bytes caps), u).
Proof.
  intros Hl. limits l. revert prev ml used. induction caps as [|c caps IH];
    intros prev ml used Hw Hu Hm.
  { exists used. change (len (capabilities_bytes [])) with 0. by rewrite Z.add_0_r. }
  destruct Hw as (Hc & Hnew & Hub & Hw). cbn [validate_capabilities].
  rewrite (bool_decide_eq_false_2 (c ∈ prev)) by done. do 4 run. do 4 run_add. run.
  destruct (IH (prev ++ [c]) (ml + 2 + len c) (used + 2 + len c)) as [u ->]; [done|lia..|].
  exists u. rewrite capabilities_bytes_cons. do 2 f_equal. len_lia.
Qed.

Lemma push_capabilities_eq bytes caps :
  Forall short caps -> push_capabilities bytes caps = bytes ++ capabilities_bytes caps.
Proof.
  intros Hs. revert bytes. induction Hs as [|c caps Hc Hs IH]; intros bytes.
  { by rewrite app_nil_r. }
  cbn [push_capabilities]. rewrite IH. unfold push_u16, as_u16. rewrite Z.mod_small.
  - rewrite capabilities_bytes_cons. unfold capability_bytes. by rewrite <- !app_assoc.
  - split; [apply len_nonneg|exact Hc].
Qed.

Lemma capabilities_within_short l prev caps used :
  frame_limits_validate l = Ok () -> capabilities_within l prev caps used -> Forall short caps.
Proof.
  intros Hl. limits l. revert prev used. induction caps as [|c caps IH]; intros prev used Hw;
    [constructor|]. destruct Hw as (Hc & _ & _ & Hw). constructor; [|by eapply IH].
  unfold short. consts. lia.
Qed.

(** The validation done by the encoder decides [frame_within]. *)
Lemma validate_frame_sound l f r :
  frame_limits_validate l = Ok () -> validate_frame l f = Ok r ->
  frame_within l f /\ r = (len (metadata_bytes f), len (payload f)).
Proof.
  intros Hl H. unfold validate_frame in H. comp_inv. destruct r0.
  apply validate_capabilities_sound in H4 as [Hw H4].
  assert (r2 = len (profile_bytes f) /\
          forall p, profile f = Some p -> 0 < len p <= max_profile_len l) as [-> Hp].
  { unfold profile_bytes. destruct (profile f) as [p|]; cbn in *.
    - comp_inv. pose proof (len_nonneg p). subst. split; [done|]. intros ? [= <-]. lia.
    - simplify_eq. done. }
  assert (r4.1 = len (metadata_bytes f)) as Hml.
  { unfold metadata_bytes. by rewrite len_app. }
  rewrite Hml in *. split; [|done]. constructor; try done; lia.
Qed.

Lemma validate_frame_complete l f :
  frame_limits_validate l = Ok () -> frame_within l f ->
  validate_frame l f = Ok (len (metadata_bytes f), len (payload f)).
Proof.
  intros Hl [Hsem Hpay Hprof Hcount Hcaps Hmeta]. limits l.
  unfold validate_frame. rewrite Hsem. cbn [map_err res_bind]. run.
  set (profile_len := match profile f with Some _ => _ | None => _ end).
  assert (profile_len = Ok (len (profile_bytes f)) /\ len (profile_bytes f) <= MAX_PROFILE_LEN)
    as [-> Hp].
  { subst profile_len. unfold profile_bytes. destruct (profile f) as [p|]; cbn; [|done].
    specialize (Hprof p eq_refl). cbv zeta. do 3 run. split; [done|lia]. }
  cbn [res_bind]. run.
  destruct (validate_capabilities_complete l [] (capabilities f) (len (profile_bytes f)) 0)
    as [u ->]; [done|done|..].
  { consts; lia. }
  { pose proof (len_nonneg (profile_bytes f)). lia. }
  cbn [res_bind fst]. unfold metadata_bytes in *. rewrite len_app in *. by run.
Qed.

Lemma as_u16_small v : 0 <= v < 2 ^ 16 -> as_u16 v = v.
Proof. apply Z.mod_small. Qed.

Lemma as_u32_small v : 0 <= v < 2 ^ 32 -> as_u32 v = v.
Proof. apply Z.mod_small. Qed.

Lemma frame_total_len_small m p :
  0 <= m -> 0 <= p -> m + p <= MAX_FRAME_BYTES - HEADER_LEN ->
  frame_total_len m p = Some (HEADER_LEN + m + p).
Proof. intros. unfold frame_total_len. do 2 run_add. done. Qed.

(** The lengths of an accepted frame fit the header's fields. *)
Lemma frame_header_ok l f :
  frame_limits_validate l = Ok () -> frame_ok f -> frame_within l f -> header_ok (frame_header f).
Proof.
  intros Hl [Hid Hd _ _ _] [_ Hpay Hprof Hcount _ Hmeta]. limits l.
  assert (0 <= len (profile_bytes f) <= MAX_PROFILE_LEN) as Hp.
  { unfold profile_bytes. destruct (profile f) as [p|]; cbn; [|done].
    specialize (Hprof p eq_refl). lia. }
  pose proof (len_nonneg (capabilities f)). pose proof (len_nonneg (metadata_bytes f)).
  pose proof (len_nonneg (payload f)). consts.
  constructor; cbn; try lia.
  - unfold frame_flags. by destruct (cancellation f), (profile f).
  - unfold frame_flags. by destruct (cancellation f), (profile f).
  - destruct (deadline f); cbn; lia.
Qed.

Lemma encode_complete l f :
  frame_limits_validate l = Ok () -> frame_within l f -> encode l f = Ok (frame_bytes f).
Proof.
  intros Hl Hw. limits l. unfold encode. rewrite Hl, (validate_frame_complete l f) by done.
  cbn [map_err res_bind]. destruct Hw as [_ Hpay Hprof Hcount Hcaps Hmeta].
  pose proof (len_nonneg (capabilities f)). pose proof (len_nonneg (metadata_bytes f)).
  pose proof (len_nonneg (payload f)).
  rewrite frame_total_len_small by lia. cbn [some_or res_bind]. run.
  rewrite push_capabilities_eq by (by eapply capabilities_within_short).
  assert (match profile f with Some p => len p | None => 0 end = len (profile_bytes f)) as ->.
  { unfold profile_bytes. by destruct (profile f). }
  assert (0 <= len (profile_bytes f) <= MAX_PROFILE_LEN) as Hp.
  { unfold profile_bytes. destruct (profile f) as [p|]; cbn; [|done].
    specialize (Hprof p eq_refl). lia. }
  rewrite !as_u16_small, !as_u32_small by (consts; lia).
  assert (forall b, match profile f with Some p => b ++ p | None => b end = b ++ profile_bytes f)
    as ->.
  { intros b. unfold profile_bytes. destruct (profile f); cbn; by rewrite ?app_nil_r. }
  unfold frame_bytes, metadata_bytes. rewrite <- !app_assoc. reflexivity.
Qed.

Lemma encode_sound l f bytes :
  encode l f = Ok bytes ->
  frame_limits_validate l = Ok () /\ frame_within l f /\ bytes = frame_bytes f.
Proof.
  intros H. pose proof H as H'. unfold encode in H'. apply res_bind_Ok in H' as ([] & Hl & H').
  apply map_err_Ok in Hl. apply res_bind_Ok in H' as (r & Hr & _).
  apply validate_frame_sound in Hr as [Hw _]; [|done].
  split_and!; [done..|]. rewrite encode_complete in H by done. congruence.
Qed.

(** ** The code of a correlation-ID-zero error *)

Lemma validate_remote_error_payload_returns body limit :
  returns (validate_remote_error_payload body limit).
Proof.
  unfold validate_remote_error_payload. rewrite !read_u16_be by lia.
  apply returns_bind; [apply returns_reject|]. intros [] Hlen%reject_Ok.
  unfold ERROR_PAYLOAD_HEADER_LEN in *. returns_chain.
Qed.

Lemma validate_wire_semantics_returns k id p n c e :
  returns (validate_wire_semantics k id p n c e).
Proof. destruct k; cbn -[Z.eqb]; returns_chain. case_if; [destruct e|]; auto with wire. Qed.

Lemma zero_id_error_code_total {E F} k id body limit :
  exists c, zero_id_error_code (E := E) k id body limit = Ok c /\
            zero_id_error_code (E := F) k id body limit = Ok c.
Proof.
  unfold zero_id_error_code, handshake_error_payload_code. case_if; [|eauto].
  pose proof (validate_remote_error_payload_returns body limit) as Hr.
  destruct (validate_remote_error_payload body limit) as [|[]|]; eauto; done.
Qed.

(** ** Decoding *)

(** The flag word and the two values it encodes determine each other. *)
Lemma flags_of_header h c p :
  0 <= h -> and_not h KNOWN_FLAGS = 0 ->
  has_flag h FLAG_CANCEL_REQUESTED && has_flag h FLAG_CANCELLED = false ->
  c = flags_cancellation h -> (bool_decide (is_Some p) = has_flag h FLAG_PROFILE_PRESENT) ->
  forall k id d caps body,
    frame_flags {| kind := k; request_id := id; deadline := d; cancellation := c;
                   profile := p; capabilities := caps; payload := body |} = h.
Proof.
  intros Hh Hk Hboth -> Hp k id d caps body. pose proof (known_flags h Hh Hk) as Hin.
  rewrite !elem_of_cons, elem_of_nil in Hin.
  destruct_or!; try done; subst; vm_compute in Hboth; try done;
    destruct p; vm_compute in Hp; done.
Qed.

Lemma flags_of_frame f :
  flags_cancellation (frame_flags f) = cancellation f /\
  has_flag (frame_flags f) FLAG_PROFILE_PRESENT = bool_decide (is_Some (profile f)).
Proof. unfold frame_flags. by destruct (cancellation f), (profile f). Qed.

Lemma check_header_limits_complete l f :
  codec_ok l -> frame_within l f -> error_payload_within l f ->
  check_header_limits l (frame_header f) = Ok (len (frame_bytes f)).
Proof.
  intros [Ht Hl] [_ Hpay Hprof Hcount _ Hmeta] Herr. limits l. unfold limits_typed in Ht.
  assert (len (profile_bytes f) <= max_profile_len l) as Hp.
  { unfold profile_bytes. destruct (profile f) as [p|]; cbn; [|rewrite len_nil; lia].
    specialize (Hprof p eq_refl). lia. }
  pose proof (len_nonneg (capabilities f)). pose proof (len_nonneg (metadata_bytes f)).
  pose proof (len_nonneg (payload f)).
  unfold check_header_limits. cbn [frame_header h_kind h_payload_len h_metadata_len h_profile_len
    h_capability_count]. run. rewrite (bind_Ok _ _ ()).
  2: { case_bool_decide as Hk; [|done]. specialize (Herr Hk). run_add. consts.
       unfold reject. case_if; [lia|done]. }
  do 3 run. rewrite frame_total_len_small by (consts; lia). cbn [some_or res_bind]. run.
  f_equal. unfold frame_bytes. rewrite !len_app, len_header_bytes. lia.
Qed.

Lemma check_header_limits_sound l h total :
  frame_limits_validate l = Ok () -> check_header_limits l h = Ok total ->
  h_payload_len h <= max_payload_len l /\ h_metadata_len h <= max_metadata_len l /\
  h_profile_len h <= max_profile_len l /\ h_capability_count h <= max_capabilities l /\
  (h_kind h = Kind.Error -> h_payload_len h <= ERROR_PAYLOAD_HEADER_LEN + max_error_message_len l) /\
  total = HEADER_LEN + h_metadata_len h + h_payload_len h.
Proof.
  intros Hl H. limits l. unfold check_header_limits in H. comp_inv.
  unfold frame_total_len in *. apply usize_add2_Some in H5. subst.
  split_and!; try lia. intros Hk. rewrite bool_decide_eq_true_2 in H1 by done. comp_inv.
  match goal with H : usize_checked_add _ _ = Some _ |- _ => apply usize_add_Some in H end. lia.
Qed.

Lemma check_header_limits_returns l h : returns (check_header_limits l h).
Proof. unfold check_header_limits. returns_chain. case_if; returns_chain. Qed.

Lemma decode_profile_complete p rest metadata_len :
  0 < len p -> from_utf8 p = true -> len p <= u64_max ->
  decode_profile (p ++ rest) (len p) metadata_len = Ok (Some p, len p).
Proof.
  intros Hp Hutf Hmax. unfold decode_profile. rewrite (proj2 (Z.eqb_neq _ _)) by lia.
  rewrite usize_add_small by lia. cbn [some_or res_bind]. rewrite len_app.
  pose proof (len_nonneg rest). run. rewrite (slice_mid [] p rest) by done. cbn [res_bind].
  rewrite Hutf. by run.
Qed.

Lemma decode_profile_safe metadata profile_len metadata_len :
  0 <= profile_len ->
  safe (decode_profile metadata profile_len metadata_len) (fun r =>
    exists rest, metadata = default [] r.1 ++ rest /\ len (default [] r.1) = profile_len /\
      r.2 = profile_len /\ (r.1 = None <-> profile_len = 0) /\
      match r.1 with Some p => from_utf8 p = true | None => True end).
Proof.
  intros Hp. unfold decode_profile. case_if.
  { exists metadata. by subst. }
  apply safe_some_or. intros en ->%usize_add_Some. apply safe_reject. intros Hen.
  apply safe_slice; [lia|]. intros pre p post -> Hpre Hlen.
  symmetry in Hpre. apply len_0 in Hpre as ->. change (len (@nil Z)) with 0 in Hlen.
  apply safe_reject. intros Hutf. exists post. cbn. destruct (from_utf8 p); [|done].
  split_and!; done || lia || (split; [done|lia]).
Qed.

Lemma decode_profile_frame l f rest metadata_len :
  frame_limits_validate l = Ok () -> frame_ok f -> frame_within l f ->
  decode_profile (profile_bytes f ++ rest) (len (profile_bytes f)) metadata_len
  = Ok (profile f, len (profile_bytes f)).
Proof.
  intros Hl [_ _ Hok _ _] [_ _ Hw _ _ _]. limits l. unfold profile_bytes.
  destruct (profile f) as [p|]; cbn; [|done]. specialize (Hw p eq_refl). destruct Hok.
  apply decode_profile_complete; [lia|done|consts; lia].
Qed.

Lemma check_capabilities_frame l f ml :
  frame_limits_validate l = Ok () -> Forall str_ok (capabilities f) ->
  capabilities_within l [] (capabilities f) 0 -> len (metadata_bytes f) <= max_metadata_len l ->
  check_capabilities l (metadata_bytes f) (len (profile_bytes f)) ml (length (capabilities f)) 0
    (len (profile_bytes f)) 0 = Ok (len (metadata_bytes f)).
Proof.
  intros Hl Hok Hw Hm. limits l.
  pose proof (check_capabilities_complete l (profile_bytes f) [] (capabilities f) [] ml 0
    (len (profile_bytes f))) as H.
  change (capabilities_bytes []) with (@nil Z) in H. rewrite app_nil_l, app_nil_r in H.
  fold (metadata_bytes f) in H. cbn [length] in H. rewrite H; try done; [|lia|rewrite len_nil; lia].
  unfold metadata_bytes. by rewrite len_app.
Qed.

Lemma copy_capabilities_frame f :
  Forall str_ok (capabilities f) -> Forall short (capabilities f) ->
  copy_capabilities (metadata_bytes f) (length (capabilities f)) (len (profile_bytes f)) []
  = Ok (capabilities f).
Proof.
  intros Hok Hs.
  pose proof (copy_capabilities_complete (profile_bytes f) (capabilities f) [] []
    (len (profile_bytes f)) Hok Hs eq_refl) as H. by rewrite app_nil_r in H.
Qed.

Lemma decode_body_complete l f rest :
  frame_limits_validate l = Ok () -> frame_ok f -> frame_within l f ->
  decode_body l (frame_header f) (len (frame_bytes f)) (frame_bytes f ++ rest)
  = Ok (Complete f (len (frame_bytes f))).
Proof.
  intros Hl Hok Hw. limits l. destruct (flags_of_frame f) as [Hc Hp].
  assert (frame_bytes f ++ rest =
          header_bytes (frame_header f) ++ metadata_bytes f ++ payload f ++ rest) as Hin.
  { unfold frame_bytes. by rewrite <- !app_assoc. }
  unfold decode_body. cbn [frame_header h_kind h_flags h_request_id h_deadline_wire h_profile_len
    h_capability_count h_metadata_len h_payload_len]. rewrite Hp, Hc.
  replace (Z.to_nat (len (capabilities f))) with (length (capabilities f)) by (unfold len; lia).
  assert (bool_decide (is_Some (profile f)) = negb (len (profile_bytes f) =? 0)) as Hpres.
  { unfold profile_bytes. destruct Hw as [_ _ Hpr _ _ _]. destruct (profile f) as [p|]; [|done].
    specialize (Hpr p eq_refl). cbn. rewrite (proj2 (Z.eqb_neq _ _)) by lia. done. }
  rewrite <- Hpres, (bool_decide_eq_true_2 (_ = _)) by done. run.
  rewrite Hin at 1. rewrite slice_mid by (rewrite len_header_bytes; done). cbn [res_bind].
  unfold metadata_bytes at 1. rewrite (decode_profile_frame l) by done. cbn [res_bind].
  destruct Hok as [Hid Hd Hpr Hcap Hpay], Hw as [Hsem _ Hpw Hcount Hcaps Hmeta].
  assert (Forall short (capabilities f)) as Hshort by (by eapply capabilities_within_short).
  rewrite check_capabilities_frame by done. cbn [res_bind].
  run. rewrite Hin, app_assoc, slice_mid by (rewrite len_app, len_header_bytes; lia).
  cbn [res_bind].
  destruct (zero_id_error_code_total (E := Decode.DecodeError) (F := Invalid.FrameValidationError)
    (kind f) (request_id f) (payload f) (max_error_message_len l)) as (c & -> & Hz).
  cbn [res_bind]. unfold validate_frame_semantics in Hsem. rewrite Hz in Hsem. cbn in Hsem.
  rewrite Hsem. cbn [map_err res_bind].
  rewrite (bind_Ok _ _ (profile f)).
  2: { destruct (profile f); [|done]. destruct Hpr as [_ ->]. done. }
  rewrite copy_capabilities_frame by done. cbn [res_bind].
  do 2 f_equal. destruct f as [k id d ca p caps body]; cbn in *. f_equal.
  destruct d; cbn; [case_if; [lia|done]|done].
Qed.

Lemma frame_bytes_min f : HEADER_LEN <= len (frame_bytes f).
Proof.
  unfold frame_bytes. rewrite len_app, len_header_bytes.
  pose proof (len_nonneg (metadata_bytes f ++ payload f)). lia.
Qed.

Lemma decode_complete l f rest :
  codec_ok l -> frame_ok f -> frame_within l f -> error_payload_within l f ->
  decode l (frame_bytes f ++ rest) = Ok (Complete f (len (frame_bytes f))).
Proof.
  intros [Ht Hl] Hok Hw He. unfold decode. rewrite Hl. cbn [map_err res_bind].
  pose proof (frame_bytes_min f) as Hlen.
  rewrite len_app. pose proof (len_nonneg rest).
  rewrite (proj2 (Z.ltb_ge _ _)) by lia. unfold frame_bytes at 1.
  rewrite <- app_assoc, decode_header_complete by (by eapply frame_header_ok). cbn [res_bind].
  rewrite check_header_limits_complete by done. cbn [res_bind].
  rewrite (proj2 (Z.ltb_ge _ _)) by lia. by apply decode_body_complete.
Qed.

(** The part after the header only succeeds on the image of a frame. *)
Definition body_post (l : FrameLimits) (h : header) (total : Z) (input : list Z)
    (r : DecodeResult) : Prop :=
  exists f rest, r = Complete f total /\ frame_ok f /\ frame_within l f /\
    frame_header f = h /\ input = frame_bytes f ++ rest.

Lemma capabilities_parsed l metadata p prest ml n :
  frame_limits_validate l = Ok () -> bytes_ok metadata -> len metadata <= max_metadata_len l ->
  metadata = p ++ prest ->
  safe (check_capabilities l metadata (len p) ml n 0 (len p) 0)
    (fun off => off = len metadata -> exists caps, metadata = p ++ capabilities_bytes caps /\
       length caps = n /\ Forall str_ok caps /\ Forall short caps /\
       capabilities_within l [] caps 0).
Proof.
  intros Hl Hb Hlen ->. limits l.
  eapply safe_mono; [apply (check_capabilities_safe l p [] prest ml n 0 (len p))|]; try done.
  - change (capabilities_bytes []) with (@nil Z). rewrite app_nil_l. lia.
  - change (len (capabilities_bytes [])) with 0. lia.
  - intros off (caps & post & -> & Hn & Hok & Hs & Hw & ->) Heq.
    assert (post = []) as -> by (apply len_0; len_lia).
    exists caps. by rewrite app_nil_r.
Qed.

(** The frame assembled from a header and the parsed fields. *)
Definition frame_of (h : header) (p : option (list Z)) (caps : list (list Z)) (body : list Z)
    : Frame :=
  {| kind := h_kind h; request_id := h_request_id h;
     deadline := if h_deadline_wire h =? 0 then None else Some (h_deadline_wire h);
     cancellation := flags_cancellation (h_flags h);
     profile := p; capabilities := caps; payload := body |}.

Lemma frame_of_header h p caps body :
  header_ok h -> has_flag (h_flags h) FLAG_PROFILE_PRESENT = negb (h_profile_len h =? 0) ->
  len (default [] p) = h_profile_len h -> (p = None <-> h_profile_len h = 0) ->
  len caps = h_capability_count h ->
  len (default [] p ++ capabilities_bytes caps) = h_metadata_len h ->
  len body = h_payload_len h ->
  frame_header (frame_of h p caps body) = h.
Proof.
  intros [[Hf0 Hf] Hboth _ _ _ _ _ _] Hpres Hp Hnone Hc Hm Hb.
  unfold frame_header, frame_of. rewrite (flags_of_header (h_flags h)); try done.
  - unfold metadata_bytes, profile_bytes. cbn [profile capabilities payload kind request_id deadline].
    rewrite Hp, Hc, Hm, Hb. destruct h; cbn. f_equal. case_if; cbn; lia.
  - rewrite Hpres. destruct p; cbn.
    + rewrite (proj2 (Z.eqb_neq _ _)); [done|]. intros H0. by apply Hnone in H0.
    + rewrite (proj2 (Z.eqb_eq _ _)); [done|]. by apply Hnone.
Qed.

Lemma frame_of_ok h p caps body :
  header_ok h -> bytes_ok (default [] p) -> Forall str_ok caps -> bytes_ok body ->
  match p with Some p => from_utf8 p = true | None => True end ->
  frame_ok (frame_of h p caps body).
Proof.
  intros [_ _ Hid Hd _ _ _ _] Hp Hc Hb Hutf. constructor; cbn; try done.
  - case_if; [done|lia].
  - by destruct p.
Qed.

Lemma frame_of_within l h p caps body c :
  frame_header (frame_of h p caps body) = h ->
  zero_id_error_code (E := Invalid.FrameValidationError) (h_kind h) (h_request_id h) body
    (max_error_message_len l) = Ok c ->
  validate_wire_semantics (h_kind h) (h_request_id h)
    (has_flag (h_flags h) FLAG_PROFILE_PRESENT) (len caps) (flags_cancellation (h_flags h)) c
  = Ok () ->
  (p = None <-> h_profile_len h = 0) -> capabilities_within l [] caps 0 ->
  h_payload_len h <= max_payload_len l -> h_metadata_len h <= max_metadata_len l ->
  h_profile_len h <= max_profile_len l -> h_capability_count h <= max_capabilities l ->
  frame_within l (frame_of h p caps body).
Proof.
  intros Hfh Hz Hsem Hnone Hcaps Hpl Hm Hp Hn. set (f := frame_of h p caps body) in *.
  assert (h_flags h = frame_flags f /\ h_profile_len h = len (profile_bytes f) /\
          h_capability_count h = len (capabilities f) /\
          h_metadata_len h = len (metadata_bytes f) /\ h_payload_len h = len (payload f))
    as (Hff & Hpp & Hcc & Hmm & Hbb) by (by rewrite <- Hfh).
  destruct (flags_of_frame f) as [_ Hfp]. rewrite <- Hff in Hfp.
  constructor; try done; try lia.
  - unfold validate_frame_semantics. cbn [f frame_of kind request_id payload capabilities
      cancellation]. rewrite Hz. cbn [res_bind]. by rewrite <- Hfp.
  - intros q Hq. unfold profile_bytes in Hpp. rewrite Hq in Hpp. cbn in Hpp, Hq.
    pose proof (len_nonneg q). assert (h_profile_len h <> 0); [|lia].
    rewrite <- Hnone. cbn in Hq. congruence.
Qed.

Lemma decode_body_safe l h total input tail :
  frame_limits_validate l = Ok () -> header_ok h -> bytes_ok input ->
  input = header_bytes h ++ tail -> check_header_limits l h = Ok total -> total <= len input ->
  safe (decode_body l h total input) (body_post l h total input).
Proof.
  intros Hl Hh Hb Hin Hchk Htot. pose proof Hh as [_ _ _ _ Hp Hn Hm Hpl].
  apply check_header_limits_sound in Hchk as (Hpl' & Hm' & Hp' & Hn' & _ & Htotal); [|done].
  pose proof (len_header_bytes h) as Hhl. unfold HEADER_LEN in *.
  unfold decode_body, HEADER_LEN. apply safe_reject. intros Hpres.
  apply negb_false_iff, bool_decide_eq_true in Hpres.
  apply safe_slice; [lia|]. intros pre metadata post Hsl Hpre Hml.
  rewrite Hin in Hsl. apply app_len_inj in Hsl as [<- ->]; [|lia].
  assert (bytes_ok metadata /\ bytes_ok post) as [Hmb Hpb].
  { rewrite Hin, !bytes_ok_app in Hb. tauto. }
  eapply safe_bind; [apply decode_profile_safe; lia|].
  intros [p off] (prest & Hmeta & Hplen & Hoff & Hnone & Hutf). cbn in Hmeta, Hplen, Hoff, Hnone, Hutf.
  subst off. rewrite <- Hplen.
  eapply safe_bind; [apply (capabilities_parsed l metadata (default [] p) prest); try done; lia|].
  intros off Hcaps. apply safe_reject. intros Hoff.
  destruct Hcaps as (caps & -> & Hcount & Hcok & Hshort & Hcw); [lia|].
  apply safe_slice; [lia|]. intros pre2 body post2 Hsl2 Hpre2 Hbl.
  rewrite Hin, app_assoc in Hsl2. apply app_len_inj in Hsl2 as [_ ->]; [|rewrite len_app; lia].
  destruct (zero_id_error_code_total (E := Decode.DecodeError) (F := Invalid.FrameValidationError)
    (h_kind h) (h_request_id h) body (max_error_message_len l)) as (c & Hz & Hz').
  rewrite Hz. cbn [res_bind]. eapply safe_bind; [apply safe_map_err, safe_intro|].
  { apply validate_wire_semantics_returns. }
  { intros ? H. exact H. }
  intros [] Hsem. rewrite (bind_Ok _ _ p) by (destruct p; [by rewrite Hutf|done]).
  rewrite <- Hcount.
  pose proof (copy_capabilities_complete (default [] p) caps [] [] _ Hcok Hshort eq_refl) as Hcopy.
  rewrite app_nil_r in Hcopy. rewrite Hcopy. cbn [res_bind app].
  assert (len caps = h_capability_count h) as Hclen by (unfold len; lia).
  assert (frame_header (frame_of h p caps body) = h) as Hfh.
  { apply frame_of_header; try done; lia. }
  exists (frame_of h p caps body), post2. split_and!; [done|..].
  - apply frame_of_ok; try done; [|]; rewrite ?bytes_ok_app in *; tauto.
  - apply (frame_of_within l h p caps body c); try done; try lia. by rewrite Hclen.
  - done.
  - rewrite Hin. unfold frame_bytes, metadata_bytes. rewrite Hfh, <- !app_assoc. done.
Qed.

Definition decode_post (l : FrameLimits) (input : list Z) (r : DecodeResult) : Prop :=
  match r with
  | Complete f consumed =>
      frame_ok f /\ frame_within l f /\ error_payload_within l f /\
      consumed = len (frame_bytes f) /\ exists rest, input = frame_bytes f ++ rest
  | Incomplete needed =>
      0 < needed /\ len input + needed <= max_frame_bytes l
  end.

Lemma decode_safe l input :
  frame_limits_validate l = Ok () -> bytes_ok input ->
  safe (decode l input) (decode_post l input).
Proof.
  intros Hl Hb. limits l. unfold decode. rewrite Hl. cbn [map_err res_bind]. case_if.
  { cbn. lia. }
  eapply safe_bind; [apply safe_intro|].
  { by apply decode_header_returns. }
  { intros h Hh. exact (conj Hh (decode_header_sound input h Hb ltac:(assumption) Hh)). }
  intros h (Hh & Hok & tail & Hin).
  eapply safe_bind; [apply safe_intro|].
  { apply check_header_limits_returns. }
  { intros total Ht. exact Ht. }
  intros total Ht. pose proof Ht as (Hpl & Hm & _ & _ & Herr & Htot)%check_header_limits_sound; [|done].
  case_if; [cbn; lia|]. eapply safe_mono; [by eapply decode_body_safe|].
  intros r (f & rest & -> & Hfok & Hfw & Hfh & Hrest).
  assert (h_kind h = kind f /\ h_payload_len h = len (payload f) /\
          h_metadata_len h = len (metadata_bytes f)) as (Hk & Hp & Hmm) by (by rewrite <- Hfh).
  unfold decode_post. split_and!; try done; [..|by exists rest].
  - intros Hkf. rewrite <- Hp. apply Herr. by rewrite Hk.
  - unfold frame_bytes. rewrite !len_app, len_header_bytes. lia.
Qed.

Lemma frame_bytes_ok f : frame_ok f -> bytes_ok (frame_bytes f).
Proof.
  intros [_ _ Hp Hc Hb]. unfold frame_bytes, header_bytes, metadata_bytes. rewrite !bytes_ok_app.
  split_and!; auto with wire.
  - apply (bool_decide_unpack _). by vm_compute.
  - by repeat constructor.
  - constructor; [by cbn; destruct (kind f)|constructor].
  - unfold profile_bytes. destruct (profile f); [apply Hp|constructor].
  - induction Hc as [|c caps [Hc _] _ IH]; [constructor|]. rewrite capabilities_bytes_cons.
    apply bytes_ok_app. split; [|done]. apply bytes_ok_app. auto with wire.
Qed.

(** ** More input *)

Lemma decode_header_prefix input more :
  HEADER_LEN <= len input -> decode_header (input ++ more) = decode_header input.
Proof.
  intros Hl. rewrite <- (take_drop 36 input), <- app_assoc.
  rewrite !decode_header_app; [done|..]; unfold len, HEADER_LEN in *; rewrite length_take; lia.
Qed.

Lemma decode_body_prefix l h total input more :
  total = HEADER_LEN + h_metadata_len h + h_payload_len h -> total <= len input ->
  0 <= h_payload_len h ->
  decode_body l h total (input ++ more) = decode_body l h total input.
Proof. intros -> Ht Hp. unfold decode_body. by rewrite !slice_app by lia. Qed.

Lemma decode_Err_stable l input more e :
  frame_limits_validate l = Ok () -> bytes_ok input ->
  decode l input = Err e -> decode l (input ++ more) = Err e.
Proof.
  intros Hl Hb. unfold decode. rewrite Hl, len_app. cbn [map_err res_bind].
  pose proof (len_nonneg more). case_if; [done|]. rewrite (proj2 (Z.ltb_ge _ _)) by lia.
  rewrite decode_header_prefix by done. destruct (decode_header input) as [h| |] eqn:Hh; [|done..].
  cbn [res_bind]. apply decode_header_sound in Hh as [Hok _]; [|done..].
  destruct (check_header_limits l h) as [total| |] eqn:Ht; [|done..]. cbn [res_bind].
  apply check_header_limits_sound in Ht as (_ & _ & _ & _ & _ & Ht); [|done].
  case_if; [done|]. rewrite (proj2 (Z.ltb_ge _ _)) by lia.
  rewrite decode_body_prefix; [done..|]. apply ho_payload, Hok.
Qed.

Lemma decode_Complete_stable l input more f n :
  codec_ok l -> bytes_ok input ->
  decode l input = Ok (Complete f n) -> decode l (input ++ more) = Ok (Complete f n).
Proof.
  intros [Ht Hl] Hb H.
  pose proof (safe_Ok _ _ _ (decode_safe l input Hl Hb) H) as (Hok & Hw & He & -> & rest & ->).
  rewrite <- app_assoc. by apply decode_complete.
Qed.

Lemma decode_body_not_incomplete l h total input n : decode_body l h total input <> Ok (Incomplete n).
Proof. unfold decode_body. intros H. comp_inv. destruct r1. comp_inv. done. Qed.

(** A request for more input is exact: short of it, the decoder asks for the rest. *)
Lemma decode_Incomplete_stable l input more n :
  frame_limits_validate l = Ok () -> decode l input = Ok (Incomplete n) -> len more < n ->
  decode l (input ++ more) = Ok (Incomplete (n - len more)).
Proof.
  intros Hl. unfold decode. rewrite Hl, len_app. cbn [map_err res_bind].
  pose proof (len_nonneg more) as Hmore. case_if.
  { intros [= <-] Hm. rewrite (proj2 (Z.ltb_lt _ _)) by lia. do 2 f_equal. lia. }
  intros H Hm. rewrite (proj2 (Z.ltb_ge _ _)), decode_header_prefix by lia.
  destruct (decode_header input) as [h| |]; [|done..]. cbn [res_bind] in *.
  destruct (check_header_limits l h) as [total| |]; [|done..]. cbn [res_bind] in *.
  destruct (len input <? total) eqn:Hlt; [|by apply decode_body_not_incomplete in H].
  injection H as <-. rewrite (proj2 (Z.ltb_lt _ _)) by lia. do 2 f_equal. lia.
Qed.
