(* ===== verification/FrameProps.v ===== *)
(** * What the bridge codec guarantees

    The properties of [FrameCodec] and of [RemoteError] payloads that callers
    of the crate rely on, derived from the equivalences of [FrameFacts]. *)

From S2P Require Import Prelude Wire BridgeTypes FrameCodec FrameFacts.

(** ** Concrete values *)

Definition sample_codec : FrameLimits := frame_limits_new 1024.

Definition sample_request : Frame :=
  {| kind := Kind.Request; request_id := 7; deadline := Some 1700000000000;
     cancellation := Cancel.Requested; profile := Some (lit "jmeter-5.6");
     capabilities := [lit "http"; lit "jdbc"]; payload := [0; 255; 17] |}.

Definition sample_bytes : list Z :=
  match encode sample_codec sample_request with Ok b => b | _ => [] end.

Lemma sample_codec_ok : codec_ok sample_codec.
Proof. by vm_compute. Defined.

Lemma sample_request_ok : frame_ok sample_request.
Proof.
  constructor; [by vm_compute|by vm_compute|..]; apply (bool_decide_unpack _); by vm_compute.
Defined.

Lemma sample_encode : encode sample_codec sample_request = Ok sample_bytes.
Proof. by vm_compute. Defined.

(** ** Round trip *)

(** C4 Round trip of frames, whatever follows on the wire: a frame that the
    encoder accepts is decoded back, unchanged, from its bytes followed by any
    other bytes; exactly its bytes are consumed, so that [decode_next] leaves
    the rest of the stream for the next call and [decode_exact] accepts the
    bytes alone.  The side condition excludes the oversized error payloads of
    [encoder_emits_undecodable_errors]. *)
Theorem frame_roundtrip l f bytes rest :
  codec_ok l -> frame_ok f -> error_payload_within l f -> encode l f = Ok bytes ->
  decode l (bytes ++ rest) = Ok (Complete f (len bytes)) /\
  decode_next l (bytes ++ rest) = (Ok (Some f), rest) /\
  decode_exact l bytes = Ok f.
Proof.
  intros Hc Hok He Henc. apply encode_sound in Henc as (_ & Hw & ->).
  assert (decode l (frame_bytes f ++ rest) = Ok (Complete f (len (frame_bytes f)))) as Hd
    by by apply decode_complete.
  split; [done|]. split.
  - unfold decode_next. rewrite Hd, <- (app_nil_r rest) at 1.
    by rewrite slice_mid by (rewrite ?app_nil_r, ?len_app; done).
  - unfold decode_exact. rewrite <- (app_nil_r (frame_bytes f)) at 1.
    rewrite decode_complete by done. cbn [res_bind]. by rewrite Z.eqb_refl.
Qed.

Lemma frame_roundtrip_witness :
  codec_ok sample_codec /\ decode_exact sample_codec sample_bytes = Ok sample_request.
Proof.
  split; [exact sample_codec_ok|].
  apply (frame_roundtrip sample_codec sample_request sample_bytes [] sample_codec_ok
           sample_request_ok (fun H => ltac:(discriminate H)) sample_encode).
Defined.

(** C19 Canonical form: whatever bytes the decoder turns into a frame, that
    frame is well typed (its strings are UTF-8, its integers fit their
    fields), the encoder accepts it, and encoding it gives back exactly the
    bytes consumed.  Two byte strings never decode to the same frame. *)
Theorem decode_canonical l input f consumed :
  bytes_ok input -> decode l input = Ok (Complete f consumed) ->
  frame_ok f /\ 0 < consumed <= len input /\
  encode l f = Ok (take (Z.to_nat consumed) input).
Proof.
  intros Hb H. assert (frame_limits_validate l = Ok ()) as Hl.
  { unfold decode in H. apply res_bind_Ok in H as ([] & Hl & _). by apply map_err_Ok in Hl. }
  pose proof (safe_Ok _ _ _ (decode_safe l input Hl Hb) H) as (Hok & Hw & He & -> & rest & ->).
  rewrite encode_complete by done. split; [done|].
  pose proof (len_nonneg rest). pose proof (frame_bytes_min f) as Hmin. unfold HEADER_LEN in Hmin.
  split; [rewrite len_app; lia|]. unfold len. by rewrite Nat2Z.id, take_app_length.
Qed.

Lemma decode_canonical_witness :
  decode sample_codec sample_bytes = Ok (Complete sample_request (len sample_bytes)) /\
  encode sample_codec sample_request = Ok (take (Z.to_nat (len sample_bytes)) sample_bytes).
Proof.
  split; [by vm_compute|].
  apply (decode_canonical sample_codec sample_bytes sample_request (len sample_bytes)).
  - apply (bool_decide_unpack _). by vm_compute.
  - by vm_compute.
Defined.

(** ** Streams *)

(** C28 Decoding a stream as it arrives: every decision of the decoder is
    final.  A frame or an error found in a prefix of the stream is found, the
    same, however the stream continues; and when more input is requested, the
    request is exact, because fewer bytes than requested leave the rest of
    them requested.  How the transport splits the stream into reads therefore
    never changes what is decoded. *)
Theorem decode_stable l input more :
  codec_ok l -> bytes_ok input ->
  match decode l input with
  | Ok (Complete f n) => decode l (input ++ more) = Ok (Complete f n)
  | Err e => decode l (input ++ more) = Err e
  | Ok (Incomplete n) =>
      len more < n -> decode l (input ++ more) = Ok (Incomplete (n - len more))
  | OutOfFuel => False
  end.
Proof.
  intros Hc Hb. pose proof (safe_returns _ _ (decode_safe l input (proj2 Hc) Hb)) as Hr.
  destruct (decode l input) as [[f n|n]|e|] eqn:Hd; [..|done].
  - by apply decode_Complete_stable.
  - by apply decode_Incomplete_stable; [apply Hc|].
  - apply decode_Err_stable; [apply Hc|done..].
Qed.

Lemma decode_stable_witness :
  decode sample_codec (take 20 sample_bytes) = Ok (Incomplete 16) /\
  decode sample_codec (take 20 sample_bytes ++ [0]) = Ok (Incomplete (16 - len [0])).
Proof.
  assert (decode sample_codec (take 20 sample_bytes) = Ok (Incomplete 16)) as Hd by by vm_compute.
  assert (bytes_ok (take 20 sample_bytes)) as Hb by (apply (bool_decide_unpack _); by vm_compute).
  split; [exact Hd|].
  pose proof (decode_stable sample_codec (take 20 sample_bytes) [0] sample_codec_ok Hb) as H.
  rewrite Hd in H. exact (H eq_refl).
Defined.

(** A strict prefix of an encoded frame is never mistaken for anything
    else: the decoder asks for more input, for a positive number of bytes that
    does not reach past the frame, so that a reader which waits for exactly
    the requested bytes ends with the whole frame and nothing of the next. *)
Theorem decode_prefix_incomplete l f bytes rest :
  codec_ok l -> frame_ok f -> error_payload_within l f ->
  encode l f = Ok (bytes ++ rest) -> rest <> [] ->
  exists n, decode l bytes = Ok (Incomplete n) /\ 0 < n <= len rest.
Proof.
  intros Hc Hok He Henc Hrest. apply encode_sound in Henc as (Hl & Hw & Heq).
  assert (decode l (bytes ++ rest) = Ok (Complete f (len (frame_bytes f)))) as Hd.
  { rewrite Heq, <- (app_nil_r (frame_bytes f)) at 1. by apply decode_complete. }
  assert (bytes_ok bytes) as Hb.
  { pose proof (frame_bytes_ok f Hok) as Hb. rewrite <- Heq, bytes_ok_app in Hb. tauto. }
  pose proof (decode_safe l bytes Hl Hb) as Hsafe.
  destruct (decode l bytes) as [[f' n|n]|[e|]|] eqn:Hdb; [..|done|done].
  - exfalso. pose proof (decode_Complete_stable l bytes rest f' n Hc Hb Hdb) as Hd'.
    destruct Hsafe as (_ & _ & _ & Hn & more & ->). rewrite Hd in Hd'. simplify_eq.
    rewrite <- app_assoc in Heq. apply (f_equal len) in Heq. rewrite !len_app in Heq.
    apply Hrest, len_0. pose proof (len_nonneg more). pose proof (len_nonneg rest). lia.
  - exists n. split; [done|]. split; [apply Hsafe|].
    destruct (Z.le_gt_cases n (len rest)) as [|Hlt]; [done|].
    rewrite (decode_Incomplete_stable l bytes rest n Hl Hdb Hlt) in Hd. done.
  - rewrite (decode_Err_stable l bytes rest _ Hl Hb Hdb) in Hd. done.
Qed.

Lemma decode_prefix_incomplete_witness :
  exists n, decode sample_codec (take 40 sample_bytes) = Ok (Incomplete n) /\
            0 < n <= len (drop 40 sample_bytes).
Proof.
  apply (decode_prefix_incomplete sample_codec sample_request _ _ sample_codec_ok
           sample_request_ok); [discriminate|by vm_compute|by vm_compute].
Defined.

(** The decoder is total on bytes: whatever arrives, and whatever limits the
    codec was built with, it answers with a frame, a request for more input or
    one of its errors; no index or slice is out of range.  A request for more
    input never makes a reader hold more than [max_frame_bytes]. *)
Theorem decode_total l input :
  bytes_ok input ->
  returns (decode l input) /\
  forall n, decode l input = Ok (Incomplete n) ->
    0 < n /\ len input + n <= max_frame_bytes l <= MAX_FRAME_BYTES.
Proof.
  intros Hb. destruct (frame_limits_validate l) as [[]|[e|]|] eqn:Hl.
  - pose proof (decode_safe l input Hl Hb) as Hs. split; [by eapply safe_returns|].
    intros n Hn. pose proof (safe_Ok _ _ _ Hs Hn) as [? ?].
    pose proof (limits_valid l Hl) as [? _ _ _ _ _ _ _ _]. lia.
  - unfold decode. by rewrite Hl.
  - by pose proof (frame_limits_validate_returns l) as Hr; rewrite Hl in Hr.
  - by pose proof (frame_limits_validate_returns l) as Hr; rewrite Hl in Hr.
Qed.

Lemma decode_total_witness :
  returns (decode sample_codec [74; 77; 66; 80]) /\
  (forall n, decode sample_codec [74; 77; 66; 80] = Ok (Incomplete n) ->
    0 < n /\ len [74; 77; 66; 80] + n <= max_frame_bytes sample_codec <= MAX_FRAME_BYTES).
Proof. apply decode_total. apply (bool_decide_unpack _). by vm_compute. Defined.

(** ** Bounds *)

(** What is encoded fits: a codec that encodes anything has a computable
    largest frame length, every frame it encodes is at most that long, and no
    choice of limits raises it above the protocol's hard bound. *)
Theorem encoded_len_bounded l f bytes :
  limits_typed l -> encode l f = Ok bytes ->
  exists m, max_frame_len l = Some m /\ HEADER_LEN <= len bytes <= m /\
            m <= max_frame_bytes l <= MAX_FRAME_BYTES.
Proof.
  intros Ht Henc. apply encode_sound in Henc as (Hl & [_ Hp _ _ _ Hm] & ->).
  unfold max_frame_len. rewrite Hl. limits l. unfold limits_typed in Ht.
  do 2 run_add. eexists. split; [done|]. pose proof (frame_bytes_min f).
  assert (len (frame_bytes f) = HEADER_LEN + len (metadata_bytes f) + len (payload f)) as ->.
  { unfold frame_bytes. rewrite !len_app, len_header_bytes. lia. }
  pose proof (len_nonneg (metadata_bytes f)). pose proof (len_nonneg (payload f)). consts. lia.
Qed.

Lemma encoded_len_bounded_witness :
  exists m, max_frame_len sample_codec = Some m /\ HEADER_LEN <= len sample_bytes <= m /\
            m <= max_frame_bytes sample_codec <= MAX_FRAME_BYTES.
Proof.
  apply (encoded_len_bounded sample_codec sample_request sample_bytes).
  - apply sample_codec_ok.
  - apply sample_encode.
Defined.

(** ** Remote errors *)

Definition remote_error_ok (e : RemoteError) : Prop :=
  str_ok (message e) /\
  match code e with Remote.Unknown v => 0 <= v < 2 ^ 16 | _ => True end.

Lemma code_as_from v : Remote.code_as_u16 (Remote.code_from_u16 v) = v.
Proof. unfold Remote.code_from_u16. repeat case_if; cbn; lia. Qed.

Lemma code_from_as c :
  match c with Remote.Unknown v => Remote.code_from_u16 v = Remote.Unknown v | _ => True end ->
  Remote.code_from_u16 (Remote.code_as_u16 c) = c.
Proof. by destruct c. Qed.

Lemma code_from_unknown v w :
  Remote.code_from_u16 v = Remote.Unknown w -> w = v /\ Remote.code_from_u16 w = Remote.Unknown w.
Proof.
  intros H. assert (w = v) as ->; [|done].
  apply (f_equal Remote.code_as_u16) in H. by rewrite code_as_from in H.
Qed.

Lemma code_range e :
  remote_error_ok e -> 0 <= Remote.code_as_u16 (code e) < 256 ^ Z.of_nat 2.
Proof. intros [_ Hc]. destruct (code e); cbn; lia. Qed.

(** The wire image of a remote error. *)
Definition remote_error_bytes (e : RemoteError) : list Z :=
  to_be_bytes 2 (Remote.code_as_u16 (code e)) ++ [if retryable e then 1 else 0]
  ++ to_be_bytes 2 (len (message e)) ++ message e.

Lemma remote_error_bytes_ok e : remote_error_ok e -> bytes_ok (remote_error_bytes e).
Proof.
  intros [[Hm _] _]. unfold remote_error_bytes. rewrite !bytes_ok_app.
  split_and!; auto with wire. constructor; [by destruct (retryable e)|constructor].
Qed.

Lemma error_encode_sound e limit bytes :
  encode_payload_with_limit e limit = Ok bytes ->
  bytes = remote_error_bytes e /\ len (message e) <= limit /\
  len (message e) <= MAX_ERROR_MESSAGE_LEN /\ Remote.code_from_u16 (Remote.code_as_u16 (code e)) = code e.
Proof.
  unfold encode_payload_with_limit. intros H.
  apply res_bind_Ok in H as ([] & Hcode & H). comp_inv. subst bytes.
  unfold MAX_ERROR_MESSAGE_LEN in *. pose proof (len_nonneg (message e)).
  rewrite as_u16_small by lia. split_and!; [|lia|lia|].
  - unfold push_u16, remote_error_bytes, ERROR_FLAG_RETRYABLE. done.
  - apply code_from_as. destruct (code e); try done. comp_inv.
    by apply negb_false_iff, bool_decide_eq_true in Hcode.
Qed.

Lemma validate_remote_error_complete e limit :
  remote_error_ok e -> len (message e) <= limit -> len (message e) <= MAX_ERROR_MESSAGE_LEN ->
  validate_remote_error_payload (remote_error_bytes e) limit
  = Ok (Remote.code_from_u16 (Remote.code_as_u16 (code e))).
Proof.
  intros Hok Hl Hm. pose proof (code_range e Hok) as Hc. pose proof (len_nonneg (message e)).
  unfold validate_remote_error_payload. rewrite !read_u16_be by lia.
  set (b := remote_error_bytes e).
  assert (len b = 5 + len (message e)) as Hlb by (unfold b, remote_error_bytes; len_lia).
  consts. run.
  rewrite (read_be_mid 2 [] _ (drop 2 b) 0 eq_refl Hc : read_be 2 b 0 = _). cbn [res_bind].
  change (index b 2) with (Ok (E := fault Remote.RemoteErrorDecodeError)
                             (if retryable e then 1 else 0)). cbn [res_bind].
  rewrite bind_reject by (by destruct (retryable e)).
  rewrite (read_be_mid 2 (take 3 b) (len (message e)) (message e) 3 eq_refl
             : _ -> read_be 2 b 3 = _) by (cbn; lia). cbn [res_bind].
  run. run_add. run.
  rewrite (slice_suffix (take 5 b) (message e) 5 (len b) eq_refl eq_refl : slice b 5 (len b) = _).
  cbn [res_bind]. destruct Hok as [[_ ->] _]. by run.
Qed.

(** The decoder of error payloads accepts exactly the images of errors. *)
Lemma error_decode_complete e limit :
  remote_error_ok e -> len (message e) <= limit -> len (message e) <= MAX_ERROR_MESSAGE_LEN ->
  Remote.code_from_u16 (Remote.code_as_u16 (code e)) = code e ->
  decode_payload_with_limit (remote_error_bytes e) limit = Ok e.
Proof.
  intros Hok Hl Hm Hc. unfold decode_payload_with_limit.
  rewrite validate_remote_error_complete by done. cbn [res_bind].
  set (b := remote_error_bytes e).
  change (index b 2) with (Ok (E := fault Remote.RemoteErrorDecodeError)
                             (if retryable e then 1 else 0)). cbn [res_bind].
  rewrite (slice_suffix (take 5 b) (message e) 5 (len b) eq_refl eq_refl : slice b 5 (len b) = _).
  cbn [res_bind]. destruct Hok as [[_ ->] _]. run. rewrite Hc. f_equal.
  destruct e as [c r m]; cbn. by destruct r.
Qed.

Lemma retryable_byte b : 0 <= b -> and_not b ERROR_FLAG_RETRYABLE = 0 ->
  b = if has_flag b ERROR_FLAG_RETRYABLE then 1 else 0.
Proof.
  intros Hb H. apply and_not_0 in H; [|done|done]. unfold has_flag. rewrite H.
  change ERROR_FLAG_RETRYABLE with (Z.ones 1) in H. rewrite Z.land_ones in H by lia.
  pose proof (Z.mod_pos_bound b (2 ^ 1) eq_refl). case_if; lia.
Qed.

(** The payload of every error the decoder returns is the image of that error. *)
Lemma error_decode_sound body limit e :
  bytes_ok body -> decode_payload_with_limit body limit = Ok e ->
  remote_error_ok e /\ body = remote_error_bytes e /\ len (message e) <= limit /\
  len (message e) <= MAX_ERROR_MESSAGE_LEN /\
  Remote.code_from_u16 (Remote.code_as_u16 (code e)) = code e.
Proof.
  intros Hb H. unfold decode_payload_with_limit, validate_remote_error_payload in H.
  rewrite !read_u16_be in H by lia. comp_inv. subst. unfold remote_error_ok, remote_error_bytes.
  cbn [code retryable message]. unfold ERROR_PAYLOAD_HEADER_LEN in *.
  apply usize_add_Some in H10. rewrite code_as_from. pose proof (read_be_bound _ _ _ _ Hb H5) as Hc.
  assert (r0 = r5) as -> by congruence.
  assert (drop 5 body = r1) as Hr1.
  { apply slice_take in H2. rewrite take_ge in H2; [done|]. unfold len. rewrite length_drop. lia. }
  assert (len r1 = r7) as Hlen.
  { rewrite <- Hr1. unfold len in *. rewrite length_drop. lia. }
  split_and!; try lia; try done.
  - split; [rewrite <- Hr1; by apply Forall_drop|by destruct (from_utf8 r1)].
  - destruct (Remote.code_from_u16 r4) eqn:He; try done. apply code_from_unknown in He as [-> _].
    exact Hc.
  - rewrite Hlen. apply read_be_take in H5, H8; [|done..]. apply index_take in H6.
    change (Z.to_nat 0) with 0%nat in *. change (Z.to_nat 2) with 2%nat in *.
    change (Z.to_nat 3) with 3%nat in *. rewrite <- H5, <- H8, <- Hr1.
    replace [if has_flag r5 ERROR_FLAG_RETRYABLE then 1 else 0] with [r5].
    + rewrite <- H6, <- (drop_split 3 2), <- (drop_split 2 1). symmetry. apply (take_drop 2).
    + apply index_byte in H1 as [? _]; [|done]. f_equal. apply retryable_byte; lia.
Qed.

Lemma error_encode_complete e limit :
  len (message e) <= limit -> len (message e) <= MAX_ERROR_MESSAGE_LEN ->
  Remote.code_from_u16 (Remote.code_as_u16 (code e)) = code e ->
  encode_payload_with_limit e limit = Ok (remote_error_bytes e).
Proof.
  intros Hl Hm Hc. unfold encode_payload_with_limit. rewrite (bind_Ok _ _ ()).
  2: { destruct (code e); try done. cbn in Hc. by rewrite Hc, bool_decide_eq_true_2. }
  consts. run. pose proof (len_nonneg (message e)). rewrite as_u16_small by lia. done.
Qed.

(** Error payloads: under every message bound, encoding an error gives
    exactly the bytes that decode to it.  In particular an [Unknown] code never
    turns into a known one on the way, and payloads with reserved flags, a
    wrong length or a reserved code have no preimage. *)
Theorem remote_error_codec e bytes limit :
  remote_error_ok e -> bytes_ok bytes ->
  encode_payload_with_limit e limit = Ok bytes <->
  decode_payload_with_limit bytes limit = Ok e.
Proof.
  intros Hok Hb. split.
  - intros (-> & Hl & Hm & Hc)%error_encode_sound. by apply error_decode_complete.
  - intros (_ & -> & Hl & Hm & Hc)%error_decode_sound; [|done]. by apply error_encode_complete.
Qed.

Definition sample_error : RemoteError :=
  {| code := Remote.Unknown 0x4242; retryable := true; message := lit "worker gone" |}.

Lemma remote_error_codec_witness :
  remote_error_ok sample_error /\
  decode_payload_with_limit (remote_error_bytes sample_error) 64 = Ok sample_error.
Proof.
  assert (remote_error_ok sample_error) as Hok.
  { split; [apply (bool_decide_unpack _)|]; by vm_compute. }
  split; [exact Hok|]. apply (remote_error_codec sample_error _ 64 Hok).
  - apply (bool_decide_unpack _). by vm_compute.
  - by vm_compute.
Defined.

Lemma error_frame_ok id e :
  0 <= id < 2 ^ 64 -> remote_error_ok e ->
  frame_ok (frame_new Kind.Error id (remote_error_bytes e)).
Proof. intros Hid He. constructor; try done. by apply remote_error_bytes_ok. Qed.

(** An error built by [error_frame] survives the whole trip: its frame is
    encoded, decoded from any stream that starts with it, and gives back the
    same error. *)
Theorem error_frame_delivered l id e f bytes rest :
  codec_ok l -> 0 <= id < 2 ^ 64 -> remote_error_ok e ->
  error_frame l id e = Ok f -> encode l f = Ok bytes ->
  decode_next l (bytes ++ rest) = (Ok (Some f), rest) /\ decode_remote_error l f = Ok e.
Proof.
  intros Hc Hid He Hf Henc. unfold error_frame in Hf. comp_inv. subst f.
  apply error_encode_sound in Hf0 as (-> & Hl & Hm & Hcode).
  pose proof (error_frame_ok id e Hid He) as Hfok.
  assert (error_payload_within l (frame_new Kind.Error id (remote_error_bytes e))) as Hw.
  { intros _. cbn. unfold remote_error_bytes, ERROR_PAYLOAD_HEADER_LEN. len_lia. }
  apply encode_sound in Henc as (_ & Hfw & ->). split.
  - unfold decode_next. rewrite decode_complete by done.
    rewrite slice_suffix by done. done.
  - unfold decode_remote_error. cbn. by apply error_decode_complete.
Qed.

Definition sample_error_frame : Frame :=
  frame_new Kind.Error 9 (remote_error_bytes sample_error).

Lemma error_frame_delivered_witness :
  decode_remote_error sample_codec sample_error_frame = Ok sample_error.
Proof.
  apply (error_frame_delivered sample_codec 9 sample_error sample_error_frame
    (frame_bytes sample_error_frame) [] sample_codec_ok).
  - lia.
  - split; [apply (bool_decide_unpack _)|]; by vm_compute.
  - by vm_compute.
  - by vm_compute.
Defined.

(** The encoder and the decoder disagree on error payloads: an error frame
    with a correlation ID whose payload is longer than the structured-error
    bound is encoded by a codec that accepts its size, but the decoder of the
    same codec refuses those bytes, whatever follows.  ([validate_frame] does
    not repeat the check of [decode].) *)
Theorem encoder_emits_undecodable_errors l f bytes rest :
  codec_ok l -> frame_ok f -> kind f = Kind.Error ->
  ERROR_PAYLOAD_HEADER_LEN + max_error_message_len l < len (payload f) ->
  encode l f = Ok bytes ->
  decode l (bytes ++ rest) =
  raise (Decode.ErrorPayloadTooLarge (len (payload f))
           (ERROR_PAYLOAD_HEADER_LEN + max_error_message_len l)).
Proof.
  intros [Ht Hl] Hok Hk Hbig Henc. apply encode_sound in Henc as (_ & Hw & ->).
  pose proof (frame_bytes_min f). pose proof (len_nonneg rest). unfold decode. rewrite Hl, len_app.
  cbn [map_err res_bind]. rewrite (proj2 (Z.ltb_ge _ _)) by lia. unfold frame_bytes.
  rewrite <- app_assoc, decode_header_complete by (by eapply frame_header_ok). cbn [res_bind].
  destruct Hw as [_ Hpay _ _ _ _]. limits l. unfold limits_typed in Ht.
  unfold check_header_limits. cbn [frame_header h_kind h_payload_len]. run.
  rewrite bool_decide_eq_true_2 by done. run_add. rewrite Z.min_l by lia.
  unfold reject at 1. rewrite (proj2 (Z.ltb_lt _ _)) by done. done.
Qed.

Definition oversized_error : Frame :=
  frame_new Kind.Error 9 (replicate 4102 0).

Lemma encoder_emits_undecodable_errors_witness :
  decode (frame_limits_new 8192) (frame_bytes oversized_error ++ []) =
  raise (Decode.ErrorPayloadTooLarge (len (payload oversized_error))
           (ERROR_PAYLOAD_HEADER_LEN + max_error_message_len (frame_limits_new 8192))).
Proof.
  apply (encoder_emits_undecodable_errors (frame_limits_new 8192) oversized_error).
  - by vm_compute.
  - constructor; [by vm_compute|done|done|constructor|]. apply (bool_decide_unpack _). by vm_compute.
  - done.
  - by vm_compute.
  - by vm_compute.
Defined.
