(* ===== verification/Handshake.v ===== *)
(** * The structured handshake of the bridge protocol

    [Handshake] of [crates/bridge-protocol/src/lib.rs]: validation of a
    declaration, its payload and frame codecs, and the negotiation of the
    version, the message kinds, the capabilities and the limits of a session. *)

From S2P Require Import Prelude Wire BridgeTypes FrameCodec.

Module HDecode.
Inductive HandshakeField : Type := IdentityName | IdentityVersion.

Inductive HandshakeDecodeError : Type :=
| WrongMessageKind (kind : Kind.MessageKind)
| RequestIdMustBeZero (id : Z)
| InvalidCancellation (c : Cancel.Cancellation)
| MissingProfile
| Truncated (minimum actual : Z)
| InvalidMagic (found : list Z)
| UnsupportedPayloadVersion (version : Z)
| UnknownFlags (flags : Z)
| InvalidVersionRange (e : VersionRangeError)
| SelectedVersionMissing
| SelectedVersionOutsideRange (selected : Z) (versions : ProtocolVersionRange)
| UnexpectedSelectedVersion (version : Z)
| UnknownPeerKind (value : Z)
| IdentityNameTooLong (length : Z)
| IdentityVersionTooLong (length : Z)
| TooManyMessageKinds (count : Z)
| LengthMismatch (declared actual : Z)
| MalformedUtf8 (field : HandshakeField)
| UnknownMessageKind (index wire : Z)
| DuplicateMessageKind
| InvalidLimits (e : HLimits.HandshakeLimitsError)
| LengthOverflow
| InvalidDeclaration (e : HEncode.HandshakeEncodeError)
| PayloadTooLarge (declared maximum : Z)
| UnsupportedPreservation (e : PreservationContractError)
| DuplicateCapability (index : Z)
| CodecViolation (e : Encode.EncodeError).
End HDecode.

Record Handshake : Type := mkHandshake {
  versions : ProtocolVersionRange;
  selected_version : option Z;
  identity : PeerIdentity;
  hs_profile : list Z;
  hs_capabilities : list (list Z);
  supported_message_kinds : list Kind.MessageKind;
  limits : HandshakeLimits;
  preservation : PreservationContract;
}.

(** ** Validation *)

(** [validate_handshake_text]. *)
Definition validate_handshake_text (value : list Z) (maximum : Z) (field : string)
    : comp HEncode.HandshakeEncodeError () :=
  let? _ := reject (len value =? 0) (HEncode.EmptyField field) in
  reject ((maximum <? len value) || (u16_max <? len value))
    (HEncode.FieldTooLong field (len value) maximum).

(** [PeerIdentity::validate]. *)
Definition identity_validate (i : PeerIdentity) : comp HEncode.HandshakeEncodeError () :=
  let? _ := validate_handshake_text (id_name i) MAX_IDENTITY_NAME_LEN "identity name" in
  validate_handshake_text (id_version i) MAX_IDENTITY_VERSION_LEN "identity version".

(** The loop of [Handshake::validate] over the capabilities; the result is
    [capability_bytes]. *)
Fixpoint validate_offered (max_bytes : Z) (previous caps : list (list Z)) (used : Z)
    : comp HEncode.HandshakeEncodeError Z :=
  match caps with
  | [] => Ok used
  | capability :: rest =>
      let index := len previous in
      let? _ := validate_handshake_text capability MAX_CAPABILITY_LEN "capability" in
      let? _ := reject (bool_decide (capability ∈ previous)) (HEncode.DuplicateCapability index) in
      let? used := some_or (usize_checked_add used (len capability) ≫= fun v =>
                            usize_checked_add v 2) HEncode.LengthOverflow in
      let? _ := reject (max_bytes <? used) (HEncode.CapabilityBytesTooLarge used max_bytes index) in
      validate_offered max_bytes (previous ++ [capability]) rest used
  end.

(** [kinds.iter().enumerate().any(|(i, k)| kinds[..i].contains(k))]. *)
Fixpoint has_duplicate_kind (previous kinds : list Kind.MessageKind) : bool :=
  match kinds with
  | [] => false
  | k :: rest => bool_decide (k ∈ previous) || has_duplicate_kind (previous ++ [k]) rest
  end.

(** [Handshake::validate]. *)
Definition handshake_validate (h : Handshake) : comp HEncode.HandshakeEncodeError () :=
  let? _ := map_err HEncode.InvalidVersionRange
              (range_new (minimum (versions h)) (maximum (versions h))) in
  let? _ := match selected_version h with
            | Some selected =>
                reject (negb (contains (versions h) selected))
                  (HEncode.SelectedVersionOutsideRange selected (versions h))
            | None => Ok ()
            end in
  let? _ := identity_validate (identity h) in
  let? _ := map_err HEncode.UnsupportedPreservation (contract_validate (preservation h)) in
  let? _ := validate_handshake_text (hs_profile h) MAX_PROFILE_LEN "profile" in
  let count := len (hs_capabilities h) in
  let? _ := reject ((MAX_CAPABILITIES <? count) || (hl_max_capabilities (limits h) <? count))
              (HEncode.TooManyCapabilities count
                 (MAX_CAPABILITIES `min` hl_max_capabilities (limits h))) in
  let? capability_bytes :=
    validate_offered (hl_max_capability_bytes (limits h)) [] (hs_capabilities h) 0 in
  let? metadata_bytes := some_or (usize_checked_add (len (hs_profile h)) capability_bytes)
                           HEncode.LengthOverflow in
  let? _ := reject (hl_max_metadata_bytes (limits h) <? metadata_bytes)
              (HEncode.MetadataBytesTooLarge metadata_bytes (hl_max_metadata_bytes (limits h))) in
  let kinds := len (supported_message_kinds h) in
  let? _ := reject (kinds =? 0) HEncode.NoMessageKinds in
  let? _ := reject (MAX_HANDSHAKE_MESSAGE_KINDS <? kinds)
              (HEncode.TooManyMessageKinds kinds MAX_HANDSHAKE_MESSAGE_KINDS) in
  let? _ := reject (has_duplicate_kind [] (supported_message_kinds h))
              HEncode.DuplicateMessageKind in
  map_err HEncode.InvalidLimits (handshake_limits_validate (limits h)).

(** ** Encoding *)

Definition flag_if (b : bool) (flag flags : Z) : Z := if b then Z.lor flags flag else flags.

(** The flag byte written by [encode_payload]. *)
Definition handshake_flags (h : Handshake) : Z :=
  let p := preservation h in
  flag_if (unknown_capabilities p) HANDSHAKE_FLAG_PRESERVE_UNKNOWN_CAPABILITIES
  (flag_if (opaque_payloads p) HANDSHAKE_FLAG_PRESERVE_OPAQUE_PAYLOADS
  (flag_if (unknown_fields p) HANDSHAKE_FLAG_PRESERVE_UNKNOWN_FIELDS
  (flag_if (unknown_messages p) HANDSHAKE_FLAG_PRESERVE_UNKNOWN_MESSAGES
  (flag_if (bool_decide (is_Some (selected_version h))) HANDSHAKE_FLAG_SELECTED_VERSION 0)))).

(** [Handshake::encode_payload]. *)
Definition encode_payload (h : Handshake) : comp HEncode.HandshakeEncodeError (list Z) :=
  let? _ := handshake_validate h in
  let name_len := len (id_name (identity h)) in
  let version_len := len (id_version (identity h)) in
  let? _ := some_or (usize_checked_add HANDSHAKE_FIXED_PAYLOAD_LEN name_len ≫= fun v =>
                     usize_checked_add v version_len ≫= fun v =>
                     usize_checked_add v (len (supported_message_kinds h)))
              HEncode.LengthOverflow in
  let bytes := [] ++ HANDSHAKE_PAYLOAD_MAGIC in
  let bytes := bytes ++ [HANDSHAKE_PAYLOAD_VERSION] in
  let bytes := bytes ++ [handshake_flags h] in
  let bytes := push_u16 bytes (minimum (versions h)) in
  let bytes := push_u16 bytes (maximum (versions h)) in
  let bytes := push_u16 bytes (default 0 (selected_version h)) in
  let bytes := bytes ++ [Peer.peer_as_u8 (id_kind (identity h))] in
  let bytes := push_u16 bytes (as_u16 name_len) in
  let bytes := push_u16 bytes (as_u16 version_len) in
  let bytes := push_u16 bytes (as_u16 (len (supported_message_kinds h))) in
  let bytes := push_u32 bytes (as_u32 (hl_max_frame_bytes (limits h))) in
  let bytes := push_u32 bytes (as_u32 (hl_max_message_bytes (limits h))) in
  let bytes := push_u32 bytes (as_u32 (hl_max_metadata_bytes (limits h))) in
  let bytes := push_u16 bytes (as_u16 (hl_max_capabilities (limits h))) in
  let bytes := push_u32 bytes (as_u32 (hl_max_capability_bytes (limits h))) in
  let bytes := bytes ++ id_name (identity h) in
  let bytes := bytes ++ id_version (identity h) in
  let bytes := bytes ++ map Kind.kind_as_u8 (supported_message_kinds h) in
  let? _ := reject (hl_max_message_bytes (limits h) <? len bytes)
              (HEncode.PayloadTooLarge (len bytes) (hl_max_message_bytes (limits h))) in
  Ok bytes.

(** [Handshake::to_frame]. *)
Definition to_frame (h : Handshake) : comp Encode.EncodeError Frame :=
  let? body := map_err Encode.Handshake (encode_payload h) in
  let frame := frame_handshake 0 (hs_profile h) (hs_capabilities h) in
  Ok {| kind := kind frame; request_id := request_id frame; deadline := deadline frame;
        cancellation := cancellation frame; profile := profile frame;
        capabilities := capabilities frame; payload := body |}.

(** [Handshake::encode_frame]. *)
Definition encode_frame (l : FrameLimits) (h : Handshake) : comp Encode.EncodeError (list Z) :=
  let? frame := to_frame h in encode l frame.

(** ** Decoding *)

(** [PeerKind::from_wire]. *)
Definition peer_from_wire (value : Z) : comp HDecode.HandshakeDecodeError Peer.PeerKind :=
  if value =? 1 then Ok Peer.Worker
  else if value =? 2 then Ok Peer.Plugin
  else raise (HDecode.UnknownPeerKind value).

(** The loop over the message kinds of a payload; [kinds] are those decoded. *)
Fixpoint decode_kinds (wires : list Z) (kinds : list Kind.MessageKind)
    : comp HDecode.HandshakeDecodeError (list Kind.MessageKind) :=
  match wires with
  | [] => Ok kinds
  | wire :: rest =>
      let? k := map_err (fun _ => HDecode.UnknownMessageKind (len kinds) wire) (from_wire wire) in
      let? _ := reject (bool_decide (k ∈ kinds)) HDecode.DuplicateMessageKind in
      decode_kinds rest (kinds ++ [k])
  end.

(** [selected_version] of a payload, from its flag and its wire value. *)
Definition decode_selected (flags selected_wire : Z) (vs : ProtocolVersionRange)
    : comp HDecode.HandshakeDecodeError (option Z) :=
  if has_flag flags HANDSHAKE_FLAG_SELECTED_VERSION then
    let? _ := reject (selected_wire =? 0) HDecode.SelectedVersionMissing in
    let? _ := reject (negb (contains vs selected_wire))
                (HDecode.SelectedVersionOutsideRange selected_wire vs) in
    Ok (Some selected_wire)
  else
    let? _ := reject (negb (selected_wire =? 0))
                (HDecode.UnexpectedSelectedVersion selected_wire) in
    Ok None.

(** The fixed fields of a payload after the selected version. *)
Record fixed_fields : Type := mkFixed {
  x_kind : Peer.PeerKind;
  x_name_len : Z;
  x_version_len : Z;
  x_kind_count : Z;
  x_limits : HandshakeLimits;
}.

Definition read_fixed (body : list Z) : comp HDecode.HandshakeDecodeError fixed_fields :=
  let? kind_wire := index body 12 in
  let? k := peer_from_wire kind_wire in
  let? name_len := read_u16 body 13 in
  let? version_len := read_u16 body 15 in
  let? kind_count := read_u16 body 17 in
  let? frame_bytes := read_u32 body 19 in
  let? message_bytes := read_u32 body 23 in
  let? metadata_bytes := read_u32 body 27 in
  let? caps := read_u16 body 31 in
  let? capability_bytes := read_u32 body 33 in
  Ok {| x_kind := k; x_name_len := name_len; x_version_len := version_len;
        x_kind_count := kind_count;
        x_limits := {| hl_max_frame_bytes := frame_bytes; hl_max_message_bytes := message_bytes;
                       hl_max_metadata_bytes := metadata_bytes; hl_max_capabilities := caps;
                       hl_max_capability_bytes := capability_bytes |} |}.

(** The checks of [decode_payload] on the declared lengths. *)
Definition check_fixed (body : list Z) (x : fixed_fields)
    : comp HDecode.HandshakeDecodeError () :=
  let? _ := map_err HDecode.InvalidLimits (handshake_limits_validate (x_limits x)) in
  let? _ := reject (MAX_IDENTITY_NAME_LEN <? x_name_len x)
              (HDecode.IdentityNameTooLong (x_name_len x)) in
  let? _ := reject (x_name_len x =? 0)
              (HDecode.InvalidDeclaration (HEncode.EmptyField "identity name")) in
  let? _ := reject (MAX_IDENTITY_VERSION_LEN <? x_version_len x)
              (HDecode.IdentityVersionTooLong (x_version_len x)) in
  let? _ := reject (x_version_len x =? 0)
              (HDecode.InvalidDeclaration (HEncode.EmptyField "identity version")) in
  let? _ := reject (MAX_HANDSHAKE_MESSAGE_KINDS <? x_kind_count x)
              (HDecode.TooManyMessageKinds (x_kind_count x)) in
  let? _ := reject (x_kind_count x =? 0)
              (HDecode.InvalidDeclaration HEncode.NoMessageKinds) in
  let? total := some_or (usize_checked_add HANDSHAKE_FIXED_PAYLOAD_LEN (x_name_len x) ≫= fun v =>
                         usize_checked_add v (x_version_len x) ≫= fun v =>
                         usize_checked_add v (x_kind_count x)) HDecode.LengthOverflow in
  let? _ := reject (negb (len body =? total)) (HDecode.LengthMismatch total (len body)) in
  reject (hl_max_message_bytes (x_limits x) <? len body)
    (HDecode.PayloadTooLarge (len body) (hl_max_message_bytes (x_limits x))).

(** [Handshake::decode_payload]. *)
Definition decode_payload (body : list Z) : comp HDecode.HandshakeDecodeError Handshake :=
  let? _ := reject (len body <? HANDSHAKE_FIXED_PAYLOAD_LEN)
              (HDecode.Truncated HANDSHAKE_FIXED_PAYLOAD_LEN (len body)) in
  let? magic := slice body 0 4 in
  let? _ := reject (negb (bool_decide (magic = HANDSHAKE_PAYLOAD_MAGIC)))
              (HDecode.InvalidMagic magic) in
  let? schema := index body 4 in
  let? _ := reject (negb (schema =? HANDSHAKE_PAYLOAD_VERSION))
              (HDecode.UnsupportedPayloadVersion schema) in
  let? flags := index body 5 in
  let? _ := reject (negb (and_not flags HANDSHAKE_KNOWN_FLAGS =? 0))
              (HDecode.UnknownFlags (and_not flags HANDSHAKE_KNOWN_FLAGS)) in
  let? _ := reject (has_flag flags HANDSHAKE_FLAG_PRESERVE_UNKNOWN_MESSAGES)
              (HDecode.UnsupportedPreservation UnknownMessagesUnsupported) in
  let? _ := reject (has_flag flags HANDSHAKE_FLAG_PRESERVE_UNKNOWN_FIELDS)
              (HDecode.UnsupportedPreservation UnknownFieldsUnsupported) in
  let? lo := read_u16 body 6 in
  let? hi := read_u16 body 8 in
  let? vs := map_err HDecode.InvalidVersionRange (range_new lo hi) in
  let? selected_wire := read_u16 body 10 in
  let? selected := decode_selected flags selected_wire vs in
  let? x := read_fixed body in
  let? _ := check_fixed body x in
  let name_end := HANDSHAKE_FIXED_PAYLOAD_LEN + x_name_len x in
  let version_end := name_end + x_version_len x in
  let? name := slice body HANDSHAKE_FIXED_PAYLOAD_LEN name_end in
  let? _ := reject (negb (from_utf8 name)) (HDecode.MalformedUtf8 HDecode.IdentityName) in
  let? version := slice body name_end version_end in
  let? _ := reject (negb (from_utf8 version)) (HDecode.MalformedUtf8 HDecode.IdentityVersion) in
  let? wires := slice body version_end (len body) in
  let? kinds := decode_kinds wires [] in
  let contract :=
    {| unknown_messages := has_flag flags HANDSHAKE_FLAG_PRESERVE_UNKNOWN_MESSAGES;
       unknown_fields := has_flag flags HANDSHAKE_FLAG_PRESERVE_UNKNOWN_FIELDS;
       opaque_payloads := has_flag flags HANDSHAKE_FLAG_PRESERVE_OPAQUE_PAYLOADS;
       unknown_capabilities := has_flag flags HANDSHAKE_FLAG_PRESERVE_UNKNOWN_CAPABILITIES |} in
  let? _ := map_err HDecode.UnsupportedPreservation (contract_validate contract) in
  Ok {| versions := vs; selected_version := selected;
        identity := {| id_kind := x_kind x; id_name := name; id_version := version |};
        hs_profile := []; hs_capabilities := []; supported_message_kinds := kinds;
        limits := x_limits x; preservation := contract |}.

(** [Handshake::from_frame]. *)
Definition from_frame (f : Frame) : comp HDecode.HandshakeDecodeError Handshake :=
  let? _ := reject (negb (bool_decide (kind f = Kind.Handshake)))
              (HDecode.WrongMessageKind (kind f)) in
  let? _ := reject (negb (request_id f =? 0)) (HDecode.RequestIdMustBeZero (request_id f)) in
  let? _ := reject (negb (bool_decide (cancellation f = Cancel.None)))
              (HDecode.InvalidCancellation (cancellation f)) in
  let? prof := some_or (profile f) HDecode.MissingProfile in
  let? h := decode_payload (payload f) in
  let h := {| versions := versions h; selected_version := selected_version h;
              identity := identity h; hs_profile := prof; hs_capabilities := capabilities f;
              supported_message_kinds := supported_message_kinds h; limits := limits h;
              preservation := preservation h |} in
  let? _ := map_err (fun e => match e with
                              | HEncode.DuplicateCapability index =>
                                  HDecode.DuplicateCapability index
                              | e => HDecode.InvalidDeclaration e
                              end) (handshake_validate h) in
  Ok h.

(** [FrameCodec::decode_handshake]. *)
Definition decode_handshake (l : FrameLimits) (f : Frame)
    : comp HDecode.HandshakeDecodeError Handshake :=
  let? _ := map_err (fun e => HDecode.CodecViolation (Encode.InvalidLimits e))
              (frame_limits_validate l) in
  if negb (bool_decide (kind f = Kind.Handshake)) then from_frame f
  else
    let? _ := reject (negb (bool_decide (cancellation f = Cancel.None)))
                (HDecode.InvalidCancellation (cancellation f)) in
    match validate_frame l f with
    | Ok (metadata_len, payload_len) =>
        let? total_len := some_or (frame_total_len metadata_len payload_len)
                            (HDecode.CodecViolation Encode.LengthOverflow) in
        let? _ := reject ((max_frame_bytes l <? total_len) || (MAX_FRAME_BYTES <? total_len))
                    (HDecode.CodecViolation
                       (Encode.FrameTooLarge total_len (max_frame_bytes l `min` MAX_FRAME_BYTES))) in
        from_frame f
    | Err (Raised (Encode.InvalidFrame _)) | Err (Raised Encode.EmptyProfile)
    | Err (Raised (Encode.EmptyCapability _)) => from_frame f
    | Err (Raised (Encode.DuplicateCapability index)) => raise (HDecode.DuplicateCapability index)
    | Err (Raised e) => raise (HDecode.CodecViolation e)
    | Err Panic => Err Panic
    | OutOfFuel => OutOfFuel
    end.

(** ** Negotiation *)

Module Negotiate.
Inductive HandshakeError : Type :=
| InvalidLocal (e : HEncode.HandshakeEncodeError)
| InvalidPeer (e : HEncode.HandshakeEncodeError)
| NoCommonVersion (local peer : ProtocolVersionRange)
| SelectedVersionMismatch (selected negotiated : Z)
| ProfileMismatch (local peer : list Z)
| NoCommonMessageKinds
| InvalidNegotiatedLimits (e : HLimits.HandshakeLimitsError)
| CapabilityMismatch (capability : list Z).

(** The code sent to the peer: [HandshakeError::code] followed by the match of
    [HandshakeError::to_remote_error]. *)
Definition remote_code (e : HandshakeError) : Remote.RemoteErrorCode :=
  match e with
  | NoCommonVersion _ _ => Remote.UnsupportedVersion
  | ProfileMismatch _ _ => Remote.ProfileMismatch
  | NoCommonMessageKinds => Remote.UnsupportedMessageKind
  | CapabilityMismatch _ => Remote.CapabilityUnavailable
  | InvalidLocal _ | InvalidPeer _ | SelectedVersionMismatch _ _ | InvalidNegotiatedLimits _ =>
      Remote.ProtocolViolation
  end.

(** [HandshakeError::to_remote_error], with the text of the error given. *)
Definition to_remote_error (e : HandshakeError) (text : list Z) : RemoteError :=
  {| code := remote_code e; retryable := false; message := text |}.
End Negotiate.

Record NegotiatedHandshake : Type := mkNegotiated {
  n_protocol_version : Z;
  n_local_identity : PeerIdentity;
  n_peer_identity : PeerIdentity;
  n_profile : list Z;
  n_capabilities : list (list Z);
  n_message_kinds : list Kind.MessageKind;
  n_limits : HandshakeLimits;
  n_preservation : PreservationContract;
}.

(** The version selected by [negotiate]. *)
Definition negotiate_version (common : ProtocolVersionRange) (local peer : option Z)
    : comp Negotiate.HandshakeError Z :=
  let in_common selected :=
    let? _ := reject (negb (contains common selected))
                (Negotiate.SelectedVersionMismatch selected (maximum common)) in
    Ok selected in
  match local, peer with
  | Some local, Some remote =>
      if negb (local =? remote) then raise (Negotiate.SelectedVersionMismatch remote local)
      else in_common local
  | Some selected, None => in_common selected
  | None, Some selected => in_common selected
  | None, None => Ok PROTOCOL_VERSION
  end.

(** [Handshake::negotiate]. *)
Definition negotiate (local peer : Handshake)
    : comp Negotiate.HandshakeError NegotiatedHandshake :=
  let? _ := map_err Negotiate.InvalidLocal (handshake_validate local) in
  let? _ := map_err Negotiate.InvalidPeer (handshake_validate peer) in
  let? _ := reject (negb (bool_decide (hs_profile local = hs_profile peer)))
              (Negotiate.ProfileMismatch (hs_profile local) (hs_profile peer)) in
  let? common := some_or (range_intersect (versions local) (versions peer))
                   (Negotiate.NoCommonVersion (versions local) (versions peer)) in
  let? _ := reject (negb (contains common PROTOCOL_VERSION))
              (Negotiate.NoCommonVersion (versions local) (versions peer)) in
  let? protocol_version :=
    negotiate_version common (selected_version local) (selected_version peer) in
  let? _ := reject (negb (protocol_version =? PROTOCOL_VERSION))
              (Negotiate.SelectedVersionMismatch protocol_version PROTOCOL_VERSION) in
  let kinds := filter (fun k => k ∈ supported_message_kinds peer) (supported_message_kinds local) in
  let? _ := reject (len kinds =? 0) Negotiate.NoCommonMessageKinds in
  let caps := filter (fun c => c ∈ hs_capabilities peer) (hs_capabilities local) in
  let? _ := reject ((len caps =? 0) &&
                    (negb (len (hs_capabilities local) =? 0)
                     || negb (len (hs_capabilities peer) =? 0)))
              (Negotiate.CapabilityMismatch
                 (match hs_capabilities local, hs_capabilities peer with
                  | c :: _, _ | [], c :: _ => c
                  | [], [] => []
                  end)) in
  let? lims := map_err Negotiate.InvalidNegotiatedLimits
                 (limits_intersect (limits local) (limits peer)) in
  Ok {| n_protocol_version := protocol_version;
        n_local_identity := identity local; n_peer_identity := identity peer;
        n_profile := hs_profile local; n_capabilities := caps; n_message_kinds := kinds;
        n_limits := lims;
        n_preservation := contract_intersect (preservation local) (preservation peer) |}.

(** [Handshake::response_for]. *)
Definition response_for (h peer : Handshake) : comp Negotiate.HandshakeError Handshake :=
  let? n := negotiate peer h in
  Ok {| versions := versions h; selected_version := Some (n_protocol_version n);
        identity := identity h; hs_profile := hs_profile h;
        hs_capabilities := n_capabilities n; supported_message_kinds := n_message_kinds n;
        limits := n_limits n; preservation := n_preservation n |}.
