(* ===== verification/HandshakeFacts.v ===== *)
(** * Correctness of the handshake codec

    The wire image of a declaration, the declarations that [validate] accepts,
    and the proof that the payload codec and the frame codec around it are
    inverse to each other on them. *)

From S2P Require Import Prelude Wire BridgeTypes FrameCodec FrameFacts Handshake.

(** ** Typed and valid declarations *)

(** What the Rust types guarantee. *)
Record handshake_typed (h : Handshake) : Prop := {
  ht_versions : 0 <= minimum (versions h) < 2 ^ 16 /\ 0 <= maximum (versions h) < 2 ^ 16;
  ht_selected : forall s, selected_version h = Some s -> 0 <= s < 2 ^ 16;
  ht_name : str_ok (id_name (identity h));
  ht_version : str_ok (id_version (identity h));
  ht_profile : str_ok (hs_profile h);
  ht_capabilities : Forall str_ok (hs_capabilities h);
  ht_limits : 0 <= hl_max_frame_bytes (limits h) /\ 0 <= hl_max_message_bytes (limits h) /\
              0 <= hl_max_metadata_bytes (limits h) /\ 0 <= hl_max_capabilities (limits h) /\
              0 <= hl_max_capability_bytes (limits h);
}.

(** The framing limits that correspond to declared limits. *)
Definition limits_of (l : HandshakeLimits) : FrameLimits :=
  {| max_payload_len := hl_max_message_bytes l;
     max_frame_bytes := hl_max_frame_bytes l;
     max_profile_len := MAX_PROFILE_LEN;
     max_capabilities := hl_max_capabilities l;
     max_capability_len := MAX_CAPABILITY_LEN;
     max_capability_bytes := hl_max_capability_bytes l;
     max_metadata_len := hl_max_metadata_bytes l;
     max_error_message_len := hl_max_message_bytes l `min` MAX_ERROR_MESSAGE_LEN |}.

Record handshake_limits_valid (l : HandshakeLimits) : Prop := {
  hl_frame : HEADER_LEN <= hl_max_frame_bytes l <= MAX_FRAME_BYTES;
  hl_sum : hl_max_message_bytes l + hl_max_metadata_bytes l <= hl_max_frame_bytes l - HEADER_LEN;
  hl_message : hl_max_message_bytes l <= hl_max_frame_bytes l - HEADER_LEN;
  hl_metadata : hl_max_metadata_bytes l <= hl_max_frame_bytes l - HEADER_LEN /\
                hl_max_metadata_bytes l <= MAX_METADATA_LEN;
  hl_count : hl_max_capabilities l <= MAX_CAPABILITIES;
  hl_capability : hl_max_capability_bytes l <= hl_max_metadata_bytes l;
}.

Lemma handshake_limits_valid_iff l :
  handshake_limits_validate l = Ok () <-> handshake_limits_valid l.
Proof.
  unfold handshake_limits_validate. split.
  - intros H. comp_inv. unfold usize_checked_add in *. comp_inv. subst. constructor; lia.
  - intros [? ? ? ? ? ?]. consts. do 3 run. run_add. do 2 run. unfold reject.
    by rewrite (proj2 (Z.ltb_ge _ _)) by lia.
Qed.

(** What [Handshake::validate] establishes. *)
Record handshake_valid (h : Handshake) : Prop := {
  hv_range : 0 <> minimum (versions h) /\ 0 <> maximum (versions h) /\
             minimum (versions h) <= maximum (versions h);
  hv_selected : forall s, selected_version h = Some s ->
                minimum (versions h) <= s <= maximum (versions h);
  hv_name : 0 < len (id_name (identity h)) <= MAX_IDENTITY_NAME_LEN;
  hv_version : 0 < len (id_version (identity h)) <= MAX_IDENTITY_VERSION_LEN;
  hv_contract : unknown_messages (preservation h) = false /\ unknown_fields (preservation h) = false;
  hv_profile : 0 < len (hs_profile h) <= MAX_PROFILE_LEN;
  hv_count : len (hs_capabilities h) <= MAX_CAPABILITIES /\
             len (hs_capabilities h) <= hl_max_capabilities (limits h);
  hv_capabilities : capabilities_within (limits_of (limits h)) [] (hs_capabilities h) 0;
  hv_metadata : len (hs_profile h) + len (capabilities_bytes (hs_capabilities h))
                <= hl_max_metadata_bytes (limits h);
  hv_kinds : 0 < len (supported_message_kinds h) <= MAX_HANDSHAKE_MESSAGE_KINDS;
  hv_distinct : NoDup (supported_message_kinds h);
  hv_limits : handshake_limits_valid (limits h);
}.

Lemma validate_handshake_text_Ok v m field :
  m <= u16_max ->
  validate_handshake_text v m field = Ok () <-> 0 < len v <= m.
Proof.
  intros Hm. pose proof (len_nonneg v). unfold validate_handshake_text. split.
  - intros H'. comp_inv. lia.
  - intros ?. run. unfold reject. by rewrite (proj2 (orb_false_iff _ _)) by lia.
Qed.

Lemma validate_handshake_text_run v m field :
  m <= u16_max -> 0 < len v <= m -> validate_handshake_text v m field = Ok ().
Proof. intros. by apply validate_handshake_text_Ok. Qed.

Lemma has_duplicate_kind_false prev kinds :
  has_duplicate_kind prev kinds = false <-> NoDup kinds /\ forall k, k ∈ kinds -> k ∉ prev.
Proof.
  revert prev. induction kinds as [|k kinds IH]; intros prev; cbn.
  { split; [|done]. intros _. split; [constructor|]. intros k Hk. by apply elem_of_nil in Hk. }
  rewrite orb_false_iff, bool_decide_eq_false, IH, NoDup_cons. split.
  - intros (Hk & Hnd & Hall). split_and!; [|done|].
    + intros Hin. apply (Hall k Hin). apply elem_of_app. right. by left.
    + intros k' [->|Hk']%elem_of_cons; [done|]. intros Hp. apply (Hall k' Hk').
      apply elem_of_app. by left.
  - intros ([Hk Hnd] & Hall). split_and!; [apply Hall; by left|done|].
    intros k' Hk' [Hp|Hp]%elem_of_app.
    + apply (Hall k'); [by right|done].
    + apply list_elem_of_singleton in Hp as ->. done.
Qed.

Lemma validate_offered_Ok l prev caps used r :
  0 <= used <= MAX_METADATA_LEN -> hl_max_capability_bytes l <= MAX_METADATA_LEN ->
  validate_offered (hl_max_capability_bytes l) prev caps used = Ok r <->
  capabilities_within (limits_of l) prev caps used /\ r = used + len (capabilities_bytes caps).
Proof.
  intros Hu Hmax. revert prev used Hu.
  induction caps as [|c caps IH]; intros prev used Hu; cbn [validate_offered capabilities_within].
  { change (len (capabilities_bytes [])) with 0. rewrite Z.add_0_r. naive_solver. }
  rewrite capabilities_bytes_cons, len_app, len_capability_bytes. cbn [limits_of max_capability_len
    max_capability_bytes]. split.
  - intros H. comp_inv. destruct r0.
    apply validate_handshake_text_Ok in H0; [|done]. apply bool_decide_eq_false in H1.
    apply usize_add2_Some in H2. subst r2.
    apply IH in H as [Hw ->]; [|lia]. split; [|lia].
    replace (used + 2 + len c) with (used + len c + 2) by lia. split_and!; try lia; done.
  - intros [(Hc & Hnew & Hub & Hw) ->].
    rewrite (bind_Ok _ _ ()) by (by apply validate_handshake_text_Ok).
    rewrite (bool_decide_eq_false_2 (c ∈ prev)) by done. run. do 2 run_add. run.
    apply IH; [lia|]. split; [|lia]. by replace (used + len c + 2) with (used + 2 + len c) by lia.
Qed.

Lemma range_new_Ok lo hi r :
  range_new lo hi = Ok r <-> (0 <> lo /\ 0 <> hi /\ lo <= hi) /\ r = mkRange lo hi.
Proof.
  unfold range_new, raise. case_if; split; intros H.
  - done.
  - lia.
  - simplify_eq. split; [lia|done].
  - by destruct H as [_ ->].
Qed.

Lemma contract_validate_Ok c :
  contract_validate c = Ok () <-> unknown_messages c = false /\ unknown_fields c = false.
Proof. unfold contract_validate. destruct c as [[] [] ? ?]; cbn; naive_solver. Qed.

Lemma contains_true r v : contains r v = true <-> minimum r <= v <= maximum r.
Proof. unfold contains. lia. Qed.

Lemma handshake_validate_sound h : handshake_validate h = Ok () -> handshake_valid h.
Proof.
  unfold handshake_validate, identity_validate. intros H. comp_inv.
  assert (handshake_limits_valid (limits h)) as Hlim by by apply handshake_limits_valid_iff.
  apply range_new_Ok in H0 as [Hr _].
  repeat match goal with
  | H : validate_handshake_text _ _ _ = Ok ?u |- _ =>
      destruct u; apply validate_handshake_text_Ok in H; [|done]
  end.
  repeat match goal with u : () |- _ => destruct u end.
  apply contract_validate_Ok in H3.
  match goal with H : validate_offered _ _ _ _ = Ok _ |- _ =>
    apply validate_offered_Ok in H as [Hw ->]; [|done|destruct Hlim; lia] end.
  match goal with H : usize_checked_add _ _ = Some _ |- _ => apply usize_add_Some in H end.
  match goal with H : has_duplicate_kind _ _ = false |- _ =>
    apply has_duplicate_kind_false in H as [Hnd _] end.
  constructor; try done; try lia.
  - intros s Hs. rewrite Hs in H1. comp_inv. apply contains_true. by apply negb_false_iff.
  - pose proof (len_nonneg (supported_message_kinds h)). lia.
Qed.

Lemma handshake_validate_complete h : handshake_valid h -> handshake_validate h = Ok ().
Proof.
  intros [Hr Hs Hn Hv Hc Hp Hcount Hcaps Hm Hk Hd Hl]. unfold handshake_validate.
  rewrite (proj2 (range_new_Ok _ _ _) (conj Hr eq_refl)). cbn [map_err res_bind].
  rewrite (bind_Ok _ _ ()).
  2: { destruct (selected_version h) as [s|]; [|done].
       by rewrite (proj2 (contains_true _ _)) by (by apply Hs). }
  unfold identity_validate.
  rewrite !validate_handshake_text_run by done. cbn [res_bind].
  rewrite (proj2 (contract_validate_Ok _)) by done. cbn [map_err res_bind]. run.
  pose proof Hl as [_ _ _ _ _ Hcb]. pose proof Hl as [_ _ _ [_ Hml] _ _].
  rewrite (proj2 (validate_offered_Ok (limits h) [] (hs_capabilities h) 0 _ ltac:(done)
    ltac:(lia)) (conj Hcaps eq_refl)). cbn [res_bind]. run_add. do 3 run.
  rewrite (proj2 (has_duplicate_kind_false [] _)).
  2: { split; [done|]. intros k _ Hin. by apply elem_of_nil in Hin. }
  run. by rewrite (proj2 (handshake_limits_valid_iff _)).
Qed.


(** ** The wire image of a declaration *)

Definition fixed_bytes (h : Handshake) : list Z :=
  HANDSHAKE_PAYLOAD_MAGIC ++ [HANDSHAKE_PAYLOAD_VERSION] ++ [handshake_flags h]
  ++ to_be_bytes 2 (minimum (versions h)) ++ to_be_bytes 2 (maximum (versions h))
  ++ to_be_bytes 2 (default 0 (selected_version h))
  ++ [Peer.peer_as_u8 (id_kind (identity h))]
  ++ to_be_bytes 2 (len (id_name (identity h))) ++ to_be_bytes 2 (len (id_version (identity h)))
  ++ to_be_bytes 2 (len (supported_message_kinds h))
  ++ to_be_bytes 4 (hl_max_frame_bytes (limits h))
  ++ to_be_bytes 4 (hl_max_message_bytes (limits h))
  ++ to_be_bytes 4 (hl_max_metadata_bytes (limits h))
  ++ to_be_bytes 2 (hl_max_capabilities (limits h))
  ++ to_be_bytes 4 (hl_max_capability_bytes (limits h)).

Definition kinds_bytes (kinds : list Kind.MessageKind) : list Z := map Kind.kind_as_u8 kinds.

Definition payload_bytes (h : Handshake) : list Z :=
  fixed_bytes h ++ id_name (identity h) ++ id_version (identity h)
  ++ kinds_bytes (supported_message_kinds h).

(** A declaration as its payload carries it: without the frame's metadata. *)
Definition bare (h : Handshake) : Handshake :=
  {| versions := versions h; selected_version := selected_version h; identity := identity h;
     hs_profile := []; hs_capabilities := [];
     supported_message_kinds := supported_message_kinds h; limits := limits h;
     preservation := preservation h |}.

Lemma len_fixed_bytes h : len (fixed_bytes h) = 37.
Proof. done. Qed.

Lemma len_kinds_bytes kinds : len (kinds_bytes kinds) = len kinds.
Proof. unfold len, kinds_bytes. by rewrite length_map. Qed.

Lemma len_payload_bytes h :
  len (payload_bytes h) = 37 + len (id_name (identity h)) + len (id_version (identity h))
                          + len (supported_message_kinds h).
Proof. unfold payload_bytes. rewrite !len_app, len_fixed_bytes, len_kinds_bytes. lia. Qed.

(** The ranges of the fixed fields of a valid declaration. *)
Lemma fixed_ranges h :
  handshake_typed h -> handshake_valid h ->
  0 <= default 0 (selected_version h) < 2 ^ 16 /\
  0 <= len (id_name (identity h)) < 2 ^ 16 /\ 0 <= len (id_version (identity h)) < 2 ^ 16 /\
  0 <= len (supported_message_kinds h) < 2 ^ 16 /\
  0 <= hl_max_frame_bytes (limits h) < 2 ^ 32 /\ 0 <= hl_max_message_bytes (limits h) < 2 ^ 32 /\
  0 <= hl_max_metadata_bytes (limits h) < 2 ^ 32 /\ 0 <= hl_max_capabilities (limits h) < 2 ^ 16 /\
  0 <= hl_max_capability_bytes (limits h) < 2 ^ 32.
Proof.
  intros [_ Hs _ _ _ _ Ht] [_ _ Hn Hv _ _ _ _ _ Hk _ [? ? ? ? ? ?]].
  unfold MAX_IDENTITY_NAME_LEN, MAX_IDENTITY_VERSION_LEN, MAX_HANDSHAKE_MESSAGE_KINDS in *. consts.
  split; [|lia]. destruct (selected_version h) as [s|]; [by apply Hs|done].
Qed.

Lemma encode_payload_complete h :
  handshake_typed h -> handshake_valid h ->
  len (payload_bytes h) <= hl_max_message_bytes (limits h) ->
  encode_payload h = Ok (payload_bytes h).
Proof.
  intros Ht Hv Hlen. destruct (fixed_ranges h Ht Hv) as (? & ? & ? & ? & ? & ? & ? & ? & ?).
  unfold encode_payload. rewrite handshake_validate_complete by done. cbn [res_bind].
  unfold HANDSHAKE_FIXED_PAYLOAD_LEN. do 3 run_add.
  rewrite !as_u16_small, !as_u32_small by done.
  match goal with |- res_bind (reject (_ <? len ?b) _) _ = _ =>
    assert (b = payload_bytes h) as -> end.
  { unfold push_u16, push_u32, payload_bytes, fixed_bytes. by rewrite <- !app_assoc. }
  by run.
Qed.

Lemma encode_payload_sound h bytes :
  handshake_typed h -> encode_payload h = Ok bytes ->
  handshake_valid h /\ len (payload_bytes h) <= hl_max_message_bytes (limits h) /\
  bytes = payload_bytes h.
Proof.
  intros Ht H. pose proof H as H'. unfold encode_payload in H'.
  apply res_bind_Ok in H' as ([] & Hv%handshake_validate_sound & H').
  destruct (fixed_ranges h Ht Hv) as (? & ? & ? & ? & ? & ? & ? & ? & ?).
  rewrite !as_u16_small, !as_u32_small in H' by done.
  apply res_bind_Ok in H' as (_ & _ & H').
  match type of H' with res_bind (reject (_ <? len ?b) _) _ = _ =>
    assert (b = payload_bytes h) as Heq end.
  { unfold push_u16, push_u32, payload_bytes, fixed_bytes. by rewrite <- !app_assoc. }
  rewrite Heq in H'. apply res_bind_Ok in H' as ([] & Hlen%reject_Ok & H').
  split_and!; [done|lia|congruence].
Qed.

(** ** Decoding the payload *)

Lemma handshake_flags_bits h :
  unknown_messages (preservation h) = false -> unknown_fields (preservation h) = false ->
  let f := handshake_flags h in
  and_not f HANDSHAKE_KNOWN_FLAGS = 0 /\
  has_flag f HANDSHAKE_FLAG_PRESERVE_UNKNOWN_MESSAGES = false /\
  has_flag f HANDSHAKE_FLAG_PRESERVE_UNKNOWN_FIELDS = false /\
  has_flag f HANDSHAKE_FLAG_PRESERVE_OPAQUE_PAYLOADS = opaque_payloads (preservation h) /\
  has_flag f HANDSHAKE_FLAG_PRESERVE_UNKNOWN_CAPABILITIES = unknown_capabilities (preservation h) /\
  has_flag f HANDSHAKE_FLAG_SELECTED_VERSION = bool_decide (is_Some (selected_version h)).
Proof.
  unfold handshake_flags. intros -> ->.
  by destruct (opaque_payloads _), (unknown_capabilities _), (selected_version h).
Qed.

Lemma decode_kinds_complete kinds prev :
  NoDup (prev ++ kinds) -> decode_kinds (kinds_bytes kinds) prev = Ok (prev ++ kinds).
Proof.
  revert prev. induction kinds as [|k kinds IH]; intros prev Hnd; cbn [kinds_bytes map decode_kinds].
  { by rewrite app_nil_r. }
  rewrite from_wire_as_u8. cbn [map_err res_bind].
  rewrite bool_decide_eq_false_2.
  2: { apply NoDup_app in Hnd as (_ & Hd & _). intros Hin. apply (Hd k Hin). by left. }
  run. replace (prev ++ k :: kinds) with ((prev ++ [k]) ++ kinds) in * by by rewrite <- app_assoc.
  by apply IH.
Qed.

Lemma decode_kinds_sound wires prev kinds :
  NoDup prev -> decode_kinds wires prev = Ok kinds ->
  exists ks, kinds = prev ++ ks /\ wires = kinds_bytes ks /\ NoDup kinds.
Proof.
  revert prev. induction wires as [|w wires IH]; intros prev Hnd H; cbn [decode_kinds] in H.
  { simplify_eq. exists []. by rewrite app_nil_r. }
  comp_inv. apply from_wire_Ok in H0. apply bool_decide_eq_false in H1.
  apply IH in H as (ks & -> & -> & Hnd').
  - exists (r :: ks). subst w. by rewrite <- app_assoc in *.
  - apply NoDup_app. split_and!; [done| |by apply NoDup_singleton].
    intros k Hk ->%list_elem_of_singleton. done.
Qed.

Lemma read_fixed_complete h tail :
  handshake_typed h -> handshake_valid h ->
  read_fixed (fixed_bytes h ++ tail) =
  Ok {| x_kind := id_kind (identity h); x_name_len := len (id_name (identity h));
        x_version_len := len (id_version (identity h));
        x_kind_count := len (supported_message_kinds h); x_limits := limits h |}.
Proof.
  intros Ht Hv. destruct (fixed_ranges h Ht Hv) as (_ & Hn & Hve & Hk & Hf & Hm & Hmd & Hc & Hcb).
  unfold read_fixed. set (b := fixed_bytes h ++ tail). rewrite !read_u16_be, !read_u32_be by lia.
  change (index b 12) with (Ok (E := fault HDecode.HandshakeDecodeError)
    (Peer.peer_as_u8 (id_kind (identity h)))). cbn [res_bind].
  rewrite (read_be_mid 2 (take 13 b) _ (drop 15 b) 13 eq_refl Hn : read_be 2 b 13 = _),
    (read_be_mid 2 (take 15 b) _ (drop 17 b) 15 eq_refl Hve : read_be 2 b 15 = _),
    (read_be_mid 2 (take 17 b) _ (drop 19 b) 17 eq_refl Hk : read_be 2 b 17 = _),
    (read_be_mid 4 (take 19 b) _ (drop 23 b) 19 eq_refl Hf : read_be 4 b 19 = _),
    (read_be_mid 4 (take 23 b) _ (drop 27 b) 23 eq_refl Hm : read_be 4 b 23 = _),
    (read_be_mid 4 (take 27 b) _ (drop 31 b) 27 eq_refl Hmd : read_be 4 b 27 = _),
    (read_be_mid 2 (take 31 b) _ (drop 33 b) 31 eq_refl Hc : read_be 2 b 31 = _),
    (read_be_mid 4 (take 33 b) _ (drop 37 b) 33 eq_refl Hcb : read_be 4 b 33 = _).
  assert (peer_from_wire (Peer.peer_as_u8 (id_kind (identity h))) = Ok (id_kind (identity h))) as ->.
  { by destruct (id_kind (identity h)). }
  cbn [res_bind]. by destruct (limits h).
Qed.

Lemma check_fixed_complete h :
  handshake_valid h -> len (payload_bytes h) <= hl_max_message_bytes (limits h) ->
  check_fixed (payload_bytes h)
    {| x_kind := id_kind (identity h); x_name_len := len (id_name (identity h));
       x_version_len := len (id_version (identity h));
       x_kind_count := len (supported_message_kinds h); x_limits := limits h |} = Ok ().
Proof.
  intros [_ _ Hn Hv _ _ _ _ _ Hk _ Hl] Hlen. unfold check_fixed.
  cbn [x_limits x_name_len x_version_len x_kind_count].
  rewrite (proj2 (handshake_limits_valid_iff _) Hl). cbn [map_err res_bind].
  unfold MAX_IDENTITY_NAME_LEN, MAX_IDENTITY_VERSION_LEN, MAX_HANDSHAKE_MESSAGE_KINDS,
    HANDSHAKE_FIXED_PAYLOAD_LEN in *.
  do 6 run. do 3 run_add. rewrite len_payload_bytes in *. run. unfold reject.
  by rewrite (proj2 (Z.ltb_ge _ _)) by lia.
Qed.

Lemma decode_selected_complete h :
  handshake_valid h -> handshake_typed h ->
  decode_selected (handshake_flags h) (default 0 (selected_version h)) (versions h)
  = Ok (selected_version h).
Proof.
  intros Hv Ht. destruct (handshake_flags_bits h) as (_ & _ & _ & _ & _ & Hsel);
    [apply (hv_contract h Hv)..|].
  unfold decode_selected. rewrite Hsel. destruct (selected_version h) as [s|] eqn:Hs; [|done]. cbn.
  pose proof (hv_selected h Hv s Hs) as Hb. pose proof (hv_range h Hv) as (Hmin & _ & _).
  destruct (ht_versions h Ht) as [Hm _].
  run. rewrite (proj2 (contains_true _ _) Hb). by run.
Qed.

(** The variable part of a payload. *)
Lemma payload_slices {E} h :
  let b := payload_bytes h in
  let name_end := 37 + len (id_name (identity h)) in
  let version_end := name_end + len (id_version (identity h)) in
  slice (E := E) b 37 name_end = Ok (id_name (identity h)) /\
  slice (E := E) b name_end version_end = Ok (id_version (identity h)) /\
  slice (E := E) b version_end (len b) = Ok (kinds_bytes (supported_message_kinds h)).
Proof.
  cbv zeta. unfold payload_bytes. split_and!.
  - by apply slice_mid.
  - rewrite app_assoc. apply slice_mid; by rewrite len_app, len_fixed_bytes.
  - rewrite !app_assoc. apply slice_suffix; [by rewrite !len_app, len_fixed_bytes|done].
Qed.

Lemma decode_payload_complete h :
  handshake_typed h -> handshake_valid h ->
  len (payload_bytes h) <= hl_max_message_bytes (limits h) ->
  decode_payload (payload_bytes h) = Ok (bare h).
Proof.
  intros Ht Hv Hlen. pose proof (len_payload_bytes h) as Hpl.
  destruct (handshake_flags_bits h) as (Hf1 & Hf2 & Hf3 & Hf4 & Hf5 & _);
    [apply (hv_contract h Hv)..|].
  destruct (fixed_ranges h Ht Hv) as (Hs & _). destruct (ht_versions h Ht) as [Hlo Hhi].
  unfold decode_payload. set (b := payload_bytes h) in *. unfold HANDSHAKE_FIXED_PAYLOAD_LEN.
  pose proof (len_nonneg (id_name (identity h))). pose proof (len_nonneg (id_version (identity h))).
  pose proof (len_nonneg (supported_message_kinds h)). run.
  rewrite (slice_mid [] HANDSHAKE_PAYLOAD_MAGIC (drop 4 b) 0 4 eq_refl eq_refl : slice b 0 4 = _).
  cbn [res_bind]. rewrite bool_decide_eq_true_2 by done. run.
  change (index b 4) with (Ok (E := fault HDecode.HandshakeDecodeError) HANDSHAKE_PAYLOAD_VERSION).
  cbn [res_bind]. run.
  change (index b 5) with (Ok (E := fault HDecode.HandshakeDecodeError) (handshake_flags h)).
  cbn [res_bind]. rewrite Hf1, Hf2, Hf3, Hf4, Hf5. do 3 run. rewrite !read_u16_be by lia.
  rewrite (read_be_mid 2 (take 6 b) _ (drop 8 b) 6 eq_refl Hlo : read_be 2 b 6 = _).
  rewrite (read_be_mid 2 (take 8 b) _ (drop 10 b) 8 eq_refl Hhi : read_be 2 b 8 = _).
  rewrite (read_be_mid 2 (take 10 b) _ (drop 12 b) 10 eq_refl Hs : read_be 2 b 10 = _).
  cbn [res_bind]. rewrite (proj2 (range_new_Ok _ _ _) (conj (hv_range h Hv) eq_refl)).
  cbn [map_err res_bind].
  replace {| minimum := minimum (versions h); maximum := maximum (versions h) |}
    with (versions h) by by destruct (versions h).
  rewrite decode_selected_complete by done. cbn [res_bind].
  rewrite (read_fixed_complete h _ Ht Hv : read_fixed b = _). cbn [res_bind].
  rewrite (check_fixed_complete h Hv Hlen : check_fixed b _ = _).
  cbn [res_bind x_name_len x_version_len x_kind x_limits].
  destruct (payload_slices (E := HDecode.HandshakeDecodeError) h) as (Hname & Hversion & Hkinds). fold b in Hname, Hversion, Hkinds.
  rewrite Hname. cbn [res_bind]. rewrite (proj2 (ht_name h Ht)). run.
  rewrite Hversion. cbn [res_bind]. rewrite (proj2 (ht_version h Ht)). run.
  rewrite Hkinds. cbn [res_bind]. rewrite decode_kinds_complete by apply (hv_distinct h Hv).
  cbn [res_bind app]. unfold bare. destruct (hv_contract h Hv) as [Hc1 Hc2].
  destruct h as [? ? [] ? ? ? ? [? ? ? ?]]; cbn in *. by subst.
Qed.

Lemma fixed_split (b : list Z) :
  b = take 4 (drop 0 b) ++ take 1 (drop 4 b) ++ take 1 (drop 5 b) ++ take 2 (drop 6 b)
      ++ take 2 (drop 8 b) ++ take 2 (drop 10 b) ++ take 1 (drop 12 b) ++ take 2 (drop 13 b)
      ++ take 2 (drop 15 b) ++ take 2 (drop 17 b) ++ take 4 (drop 19 b) ++ take 4 (drop 23 b)
      ++ take 4 (drop 27 b) ++ take 2 (drop 31 b) ++ take 4 (drop 33 b) ++ drop 37 b.
Proof.
  rewrite <- (drop_split 33 4), <- (drop_split 31 2), <- (drop_split 27 4), <- (drop_split 23 4),
    <- (drop_split 19 4), <- (drop_split 17 2), <- (drop_split 15 2), <- (drop_split 13 2),
    <- (drop_split 12 1), <- (drop_split 10 2), <- (drop_split 8 2), <- (drop_split 6 2),
    <- (drop_split 5 1), <- (drop_split 4 1).
  symmetry. apply (take_drop 4).
Qed.

(** The flag byte is determined by what is decoded from it. *)
Lemma flags_of_handshake f h :
  0 <= f -> and_not f HANDSHAKE_KNOWN_FLAGS = 0 ->
  has_flag f HANDSHAKE_FLAG_PRESERVE_UNKNOWN_MESSAGES = false ->
  has_flag f HANDSHAKE_FLAG_PRESERVE_UNKNOWN_FIELDS = false ->
  preservation h = {| unknown_messages := false; unknown_fields := false;
    opaque_payloads := has_flag f HANDSHAKE_FLAG_PRESERVE_OPAQUE_PAYLOADS;
    unknown_capabilities := has_flag f HANDSHAKE_FLAG_PRESERVE_UNKNOWN_CAPABILITIES |} ->
  bool_decide (is_Some (selected_version h)) = has_flag f HANDSHAKE_FLAG_SELECTED_VERSION ->
  handshake_flags h = f.
Proof.
  intros Hf Hk Hm Hfi Hp Hs. unfold handshake_flags. rewrite Hp, Hs. cbn. clear Hp Hs.
  apply and_not_0 in Hk; [|done|done]. change HANDSHAKE_KNOWN_FLAGS with (Z.ones 5) in Hk.
  rewrite Z.land_ones in Hk by lia.
  assert (0 <= f < 32) as Hb by (rewrite <- Hk; apply Z.mod_pos_bound; done). clear Hk Hf.
  assert (f ∈ map Z.of_nat (seq 0 32)) as Hin.
  { rewrite <- (Z2Nat.id f) by lia. apply list_elem_of_fmap_2, elem_of_seq. lia. }
  clear Hb. revert Hm Hfi. cbn in Hin. rewrite !elem_of_cons, elem_of_nil in Hin.
  destruct_or!; try done; subst; vm_compute; done.
Qed.

Lemma decode_selected_Ok flags wire vs s :
  decode_selected flags wire vs = Ok s ->
  wire = default 0 s /\ bool_decide (is_Some s) = has_flag flags HANDSHAKE_FLAG_SELECTED_VERSION /\
  (forall v, s = Some v -> minimum vs <= v <= maximum vs).
Proof.
  unfold decode_selected. intros H. destruct (has_flag _ _) eqn:Hf; comp_inv; subst s; cbn.
  - split_and!; [done..|]. intros v [= <-]. apply contains_true. by apply negb_false_iff.
  - split_and!; [lia|done..].
Qed.

Lemma read_fixed_sound b x :
  bytes_ok b -> read_fixed b = Ok x ->
  take 1 (drop 12 b) = [Peer.peer_as_u8 (x_kind x)] /\
  take 2 (drop 13 b) = to_be_bytes 2 (x_name_len x) /\
  take 2 (drop 15 b) = to_be_bytes 2 (x_version_len x) /\
  take 2 (drop 17 b) = to_be_bytes 2 (x_kind_count x) /\
  take 4 (drop 19 b) = to_be_bytes 4 (hl_max_frame_bytes (x_limits x)) /\
  take 4 (drop 23 b) = to_be_bytes 4 (hl_max_message_bytes (x_limits x)) /\
  take 4 (drop 27 b) = to_be_bytes 4 (hl_max_metadata_bytes (x_limits x)) /\
  take 2 (drop 31 b) = to_be_bytes 2 (hl_max_capabilities (x_limits x)) /\
  take 4 (drop 33 b) = to_be_bytes 4 (hl_max_capability_bytes (x_limits x)) /\
  (0 <= x_name_len x /\ 0 <= x_version_len x /\ 0 <= x_kind_count x) /\
  0 <= hl_max_frame_bytes (x_limits x) /\ 0 <= hl_max_message_bytes (x_limits x) /\
  0 <= hl_max_metadata_bytes (x_limits x) /\ 0 <= hl_max_capabilities (x_limits x) /\
  0 <= hl_max_capability_bytes (x_limits x).
Proof.
  intros Hb H. unfold read_fixed in H. rewrite !read_u16_be, !read_u32_be in H by lia. comp_inv.
  subst x. cbn [x_kind x_name_len x_version_len x_kind_count x_limits hl_max_frame_bytes
    hl_max_message_bytes hl_max_metadata_bytes hl_max_capabilities hl_max_capability_bytes].
  apply index_take in H0.
  assert (r = Peer.peer_as_u8 r0) as ->.
  { unfold peer_from_wire in H1. repeat case_if; simplify_eq; done. }
  split_and!; try done;
    match goal with
    | H : read_be _ b _ = Ok ?v |- _ = to_be_bytes _ ?v => by apply read_be_take in H
    | H : read_be _ b _ = Ok ?v |- 0 <= ?v => apply (read_be_bound _ _ _ _ Hb H)
    end.
Qed.

(** The variable part, read back from its slices. *)
Lemma payload_tail {E F G} b n v name version wires :
  0 <= n -> 0 <= v ->
  slice (E := E) b 37 (37 + n) = Ok name -> slice (E := F) b (37 + n) (37 + n + v) = Ok version ->
  slice (E := G) b (37 + n + v) (len b) = Ok wires ->
  drop 37 b = name ++ version ++ wires /\ len name = n /\ len version = v /\
  len wires = len b - (37 + n + v).
Proof.
  intros Hn Hv H1 H2 H3.
  pose proof (slice_Ok _ _ _ _ H1) as (? & ? & _ & ? & ?).
  pose proof (slice_Ok _ _ _ _ H2) as (? & ? & _ & ? & ?).
  pose proof (slice_Ok _ _ _ _ H3) as (? & ? & _ & ? & ?).
  split; [|lia]. apply slice_take in H1, H2, H3.
  rewrite (take_ge (drop (Z.to_nat (37 + n + v)) b)) in H3
    by (unfold len; rewrite length_drop; lia).
  replace (Z.to_nat (37 + n - 37)) with (Z.to_nat n) in H1 by lia.
  replace (Z.to_nat (37 + n + v - (37 + n))) with (Z.to_nat v) in H2 by lia.
  change (Z.to_nat 37) with 37%nat in H1.
  replace (Z.to_nat (37 + n)) with (37 + Z.to_nat n)%nat in H2 by lia.
  replace (Z.to_nat (37 + n + v)) with (37 + Z.to_nat n + Z.to_nat v)%nat in H3 by lia.
  rewrite <- H1, <- H2, <- H3, <- drop_split, <- drop_split. done.
Qed.

Lemma check_fixed_sound b x :
  check_fixed b x = Ok () ->
  len b = 37 + x_name_len x + x_version_len x + x_kind_count x /\
  len b <= hl_max_message_bytes (x_limits x).
Proof.
  unfold check_fixed, HANDSHAKE_FIXED_PAYLOAD_LEN. intros H. comp_inv.
  apply bind_Some in H7 as (v & ->%usize_add_Some & H7). apply usize_add2_Some in H7. lia.
Qed.

Lemma decode_payload_sound body h :
  bytes_ok body -> decode_payload body = Ok h ->
  handshake_typed h /\ body = payload_bytes h /\ len body <= hl_max_message_bytes (limits h) /\
  hs_profile h = [] /\ hs_capabilities h = [].
Proof.
  intros Hb H. unfold decode_payload, HANDSHAKE_FIXED_PAYLOAD_LEN in H.
  rewrite !read_u16_be in H by lia. comp_inv.
  apply negb_false_iff, bool_decide_eq_true in H2. subst r0. destruct r14.
  apply check_fixed_sound in H15 as [Hlen Hmax].
  apply read_fixed_sound in H14 as (? & ? & ? & ? & ? & ? & ? & ? & ? & (? & ? & ?) & Hlims); [|done].
  destruct (payload_tail body (x_name_len r13) (x_version_len r13) _ _ _ ltac:(done) ltac:(done) H16 H18 H20)
    as (Htail & Hn & Hv & Hw).
  apply decode_kinds_sound in H21 as (ks & -> & -> & _); [|constructor]. cbn [app] in *.
  apply range_new_Ok in H11 as [Hr ->]. apply decode_selected_Ok in H13 as (-> & Hsel & Hin).
  pose proof (read_be_bound _ _ _ _ Hb H9) as Hlo. pose proof (read_be_bound _ _ _ _ Hb H10) as Hhi.
  assert (bytes_ok r15 /\ bytes_ok r17) as [Hb15 Hb17].
  { pose proof (Forall_drop _ 37 _ Hb) as Hd. rewrite Htail in Hd. apply Forall_app in Hd as [? Hd].
    by apply Forall_app in Hd as [? _]. }
  rewrite H7, H8 in *. subst h. split_and!; [|..|done|done|done].
  - constructor; cbn; try done.
    + intros s ->. specialize (Hin s eq_refl). cbn in Hin, Hlo, Hhi. lia.
    + split; [done|by destruct (from_utf8 r15)].
    + split; [done|by destruct (from_utf8 r17)].
    + by split; [constructor|].
  - rewrite (fixed_split body), Htail at 1. unfold payload_bytes, fixed_bytes.
    cbn [versions selected_version identity supported_message_kinds limits id_kind id_name
      id_version minimum maximum].
    rewrite (flags_of_handshake r4); try done; [|apply index_byte in H5 as [? _]; done|lia].
    apply slice_take in H1. apply index_take in H3, H5. apply read_be_take in H9, H10, H12; [|done..].
    assert (r2 = HANDSHAKE_PAYLOAD_VERSION) as -> by lia.
    rewrite len_kinds_bytes in Hw. replace (len ks) with (x_kind_count r13) by lia.
    rewrite Hn, Hv, <- !app_assoc. by repeat f_equal.
Qed.

(** ** Frames *)

Definition handshake_frame (h : Handshake) : Frame :=
  {| kind := Kind.Handshake; request_id := 0; deadline := NONE; cancellation := Cancel.None;
     profile := Some (hs_profile h); capabilities := hs_capabilities h;
     payload := payload_bytes h |}.

(** A declaration that can be sent: valid, and within its own message bound. *)
Definition sendable (h : Handshake) : Prop :=
  handshake_valid h /\ len (payload_bytes h) <= hl_max_message_bytes (limits h).

Lemma to_frame_iff h f :
  handshake_typed h -> to_frame h = Ok f <-> sendable h /\ f = handshake_frame h.
Proof.
  intros Ht. unfold to_frame. split.
  - intros H. comp_inv. apply encode_payload_sound in H0 as (Hv & Hl & ->); [|done].
    split; [by split|by subst].
  - intros [[Hv Hl] ->]. by rewrite encode_payload_complete.
Qed.

Lemma from_frame_complete h :
  handshake_typed h -> sendable h -> from_frame (handshake_frame h) = Ok h.
Proof.
  intros Ht [Hv Hl]. unfold from_frame, handshake_frame.
  cbn [kind request_id cancellation profile capabilities payload].
  rewrite !bool_decide_eq_true_2 by done. do 3 run. cbn [some_or res_bind].
  rewrite decode_payload_complete by done. cbn [res_bind bare versions selected_version identity
    supported_message_kinds limits preservation].
  destruct h as [v s i p c k li pr]. cbn in *.
  by rewrite handshake_validate_complete.
Qed.

Lemma from_frame_sound f h :
  frame_ok f -> from_frame f = Ok h ->
  handshake_typed h /\ sendable h /\
  f = {| kind := Kind.Handshake; request_id := 0; deadline := deadline f;
         cancellation := Cancel.None; profile := Some (hs_profile h);
         capabilities := hs_capabilities h; payload := payload_bytes h |}.
Proof.
  intros [_ _ Hp Hc Hb] H. unfold from_frame in H. comp_inv. destruct r4.
  apply decode_payload_sound in H4 as (Ht & Hpay & Hl & _); [|done].
  apply handshake_validate_sound in H5. apply negb_false_iff, bool_decide_eq_true in H0, H2.
  assert (payload_bytes h = payload_bytes r3) as Heq by by subst h.
  rewrite H3 in Hp. split_and!.
  - destruct Ht. subst h. by constructor.
  - split; [by subst h|]. rewrite Heq, <- Hpay. by subst h.
  - destruct f as [k id d c p caps body]. rewrite Heq. cbn in *. subst h. cbn.
    f_equal; [done|lia|done..].
Qed.

(** A sendable declaration fits the codec built from its own limits. *)
Lemma limits_of_valid l :
  handshake_limits_valid l -> 0 <= hl_max_message_bytes l -> 0 <= hl_max_metadata_bytes l ->
  frame_limits l = Ok (limits_of l).
Proof.
  intros [? ? ? ? ? ?] ? ?. unfold frame_limits. change {| max_payload_len := _ |} with (limits_of l).
  rewrite (bind_Ok _ _ ()); [done|]. unfold frame_limits_validate. cbn [limits_of max_payload_len
    max_frame_bytes max_profile_len max_capabilities max_capability_len max_capability_bytes
    max_metadata_len max_error_message_len].
  consts. do 3 run. run_add. do 6 run. unfold reject. by rewrite (proj2 (orb_false_iff _ _)) by lia.
Qed.

Lemma handshake_frame_within h :
  sendable h -> frame_within (limits_of (limits h)) (handshake_frame h).
Proof.
  intros [[_ _ _ _ _ Hp Hn Hc Hm _ _ _] Hl]. constructor; cbn [handshake_frame payload profile
    capabilities limits_of max_payload_len max_profile_len max_capabilities max_metadata_len].
  - done.
  - done.
  - by intros p [= <-].
  - lia.
  - done.
  - unfold metadata_bytes, profile_bytes. cbn [handshake_frame profile capabilities default].
    rewrite len_app. unfold id. cbn. lia.
Qed.

Lemma handshake_frame_ok h : handshake_typed h -> frame_ok (handshake_frame h).
Proof.
  intros Ht. constructor; try (cbn; done); try apply Ht.
  cbn [handshake_frame payload]. unfold payload_bytes, fixed_bytes. rewrite !bytes_ok_app.
  split_and!; auto with wire; try apply Ht.
  - apply (bool_decide_unpack _). by vm_compute.
  - by constructor.
  - constructor; [|constructor]. unfold handshake_flags.
    by destruct (unknown_messages _), (unknown_fields _), (opaque_payloads _),
      (unknown_capabilities _), (selected_version h).
  - constructor; [by destruct (id_kind _)|constructor].
  - apply Forall_fmap, Forall_true. by intros [].
Qed.
