(* ===== verification/Negotiation.v ===== *)
(** * Handshakes over the wire, and what a negotiation agrees on

    The properties of [Handshake] that the two ends of a bridge session rely
    on: a declaration arrives as it was sent, both ends reach the same
    agreement, the agreement is within what both declared, and the codec of
    the session can always be built from it. *)

From S2P Require Import Prelude Wire BridgeTypes FrameCodec FrameFacts FrameProps Handshake HandshakeFacts.

(** ** The declaration on the wire *)

(** A declaration that the codec encodes arrives unchanged: the peer's codec
    finds exactly its frame at the head of the stream, and decoding that frame
    gives back every field of the declaration. *)
Theorem handshake_delivered l h bytes rest :
  codec_ok l -> handshake_typed h -> encode_frame l h = Ok bytes ->
  exists f, decode_next l (bytes ++ rest) = (Ok (Some f), rest) /\ decode_handshake l f = Ok h.
Proof.
  intros Hc Ht H. unfold encode_frame in H. comp_inv.
  apply to_frame_iff in H0 as [Hs ->]; [|done]. apply encode_sound in H as (Hl & Hw & ->).
  exists (handshake_frame h). split.
  - unfold decode_next. rewrite decode_complete; try done.
    + by rewrite slice_suffix.
    + by apply handshake_frame_ok.
  - unfold decode_handshake. rewrite Hl. cbn [map_err res_bind].
    rewrite bool_decide_eq_true_2 by done. cbn [negb].
    rewrite bool_decide_eq_true_2 by done. run. rewrite validate_frame_complete by done.
    destruct Hw as [_ Hp _ _ _ Hm]. limits l.
    pose proof (len_nonneg (metadata_bytes (handshake_frame h))).
    pose proof (len_nonneg (payload (handshake_frame h))).
    rewrite frame_total_len_small by lia. cbn [some_or res_bind]. run.
    by apply from_frame_complete.
Qed.

(** Whatever frame is accepted as a declaration, the declaration is well
    typed, passes [validate], and is the only one with that frame: encoding it
    gives the frame back (but for a deadline, which handshakes ignore). *)
Theorem handshake_canonical f h :
  frame_ok f -> from_frame f = Ok h ->
  handshake_typed h /\ handshake_validate h = Ok () /\
  to_frame h = Ok {| kind := kind f; request_id := request_id f; deadline := NONE;
                     cancellation := cancellation f; profile := profile f;
                     capabilities := capabilities f; payload := payload f |}.
Proof.
  intros Hf H. apply from_frame_sound in H as (Ht & Hs & Heq); [|done].
  split; [done|]. split; [by apply handshake_validate_complete, Hs|].
  apply to_frame_iff; [done|]. split; [done|]. by rewrite Heq.
Qed.

(** The limits a peer declares are enough for the declaration itself: the
    framing codec built from them exists and encodes the declaration. *)
Theorem declaration_fits_own_limits h f :
  handshake_typed h -> to_frame h = Ok f ->
  exists l bytes, frame_limits (limits h) = Ok l /\ encode l f = Ok bytes /\
    len bytes <= hl_max_frame_bytes (limits h).
Proof.
  intros Ht (Hs & ->)%to_frame_iff; [|done]. pose proof (ht_limits h Ht) as Hlt.
  pose proof (hv_limits h (proj1 Hs)) as Hl.
  assert (frame_limits (limits h) = Ok (limits_of (limits h))) as Hfl by (apply limits_of_valid; lia || done).
  pose proof (handshake_frame_within h Hs) as Hw.
  eexists _, _. split; [exact Hfl|].
  assert (frame_limits_validate (limits_of (limits h)) = Ok ()) as Hv.
  { unfold frame_limits in Hfl. by apply res_bind_Ok in Hfl as ([] & Hv & _). }
  split; [by apply encode_complete|].
  destruct Hw as [_ Hp _ _ _ Hm]. limits (limits_of (limits h)).
  unfold frame_bytes. rewrite !len_app, len_header_bytes. cbn [limits_of max_frame_bytes
    max_payload_len max_metadata_len] in *. lia.
Qed.

(** ** Negotiation *)

(** Two declarations that can share a session. *)
Record compatible (a b : Handshake) : Prop := {
  co_valid : handshake_valid a /\ handshake_valid b;
  co_profile : hs_profile a = hs_profile b;
  co_versions : contains (versions a) PROTOCOL_VERSION = true /\
                contains (versions b) PROTOCOL_VERSION = true;
  co_selected : (forall s, selected_version a = Some s -> s = PROTOCOL_VERSION) /\
                (forall s, selected_version b = Some s -> s = PROTOCOL_VERSION);
  co_kinds : exists k, k ∈ supported_message_kinds a /\ k ∈ supported_message_kinds b;
  co_capabilities : (exists c, c ∈ hs_capabilities a /\ c ∈ hs_capabilities b) \/
                    (hs_capabilities a = [] /\ hs_capabilities b = []);
}.

Lemma compatible_sym a b : compatible a b -> compatible b a.
Proof.
  intros [[? ?] ? [? ?] [? ?] (k & ? & ?) Hc]. constructor; try done.
  - by exists k.
  - destruct Hc as [(c & ? & ?)|[? ?]]; [left; by exists c|by right].
Qed.

(** The agreement of two compatible declarations. *)
Definition min_limits (a b : HandshakeLimits) : HandshakeLimits :=
  {| hl_max_frame_bytes := hl_max_frame_bytes a `min` hl_max_frame_bytes b;
     hl_max_message_bytes := hl_max_message_bytes a `min` hl_max_message_bytes b;
     hl_max_metadata_bytes := hl_max_metadata_bytes a `min` hl_max_metadata_bytes b;
     hl_max_capabilities := hl_max_capabilities a `min` hl_max_capabilities b;
     hl_max_capability_bytes := hl_max_capability_bytes a `min` hl_max_capability_bytes b |}.

Definition agreement (a b : Handshake) : NegotiatedHandshake :=
  {| n_protocol_version := PROTOCOL_VERSION;
     n_local_identity := identity a; n_peer_identity := identity b; n_profile := hs_profile a;
     n_capabilities := filter (fun c => c ∈ hs_capabilities b) (hs_capabilities a);
     n_message_kinds :=
       filter (fun k => k ∈ supported_message_kinds b) (supported_message_kinds a);
     n_limits := min_limits (limits a) (limits b);
     n_preservation := contract_intersect (preservation a) (preservation b) |}.

(** The least of two valid declarations of limits is valid. *)
Lemma min_limits_valid a b :
  handshake_limits_valid a -> handshake_limits_valid b -> handshake_limits_valid (min_limits a b).
Proof. intros [? ? ? ? ? ?] [? ? ? ? ? ?]. constructor; cbn; lia. Qed.

Lemma limits_intersect_valid a b :
  handshake_limits_valid a -> handshake_limits_valid b ->
  limits_intersect a b = Ok (min_limits a b).
Proof.
  intros Ha Hb. unfold limits_intersect. fold (min_limits a b).
  by rewrite (proj2 (handshake_limits_valid_iff _) (min_limits_valid a b Ha Hb)).
Qed.

Lemma range_intersect_Some a b c :
  range_intersect a b = Some c ->
  forall v, contains c v = true <-> contains a v = true /\ contains b v = true.
Proof.
  unfold range_intersect. intros H v. case_if; [|done]. injection H as <-.
  unfold contains. cbn. repeat case_if; lia.
Qed.

Lemma range_intersect_contains a b v :
  contains a v = true -> contains b v = true -> is_Some (range_intersect a b).
Proof.
  unfold contains, range_intersect. intros Ha Hb. destruct (minimum b <? minimum a) eqn:?,
    (maximum a <? maximum b) eqn:?; rewrite (proj2 (Z.leb_le _ _)) by lia; eauto.
Qed.

Lemma negotiate_version_Ok common a b v :
  contains common PROTOCOL_VERSION = true ->
  (negotiate_version common a b = Ok v /\ v = PROTOCOL_VERSION) <->
  (v = PROTOCOL_VERSION /\ (forall s, a = Some s -> s = PROTOCOL_VERSION) /\
   (forall s, b = Some s -> s = PROTOCOL_VERSION)).
Proof.
  intros Hc. unfold negotiate_version. split.
  - intros [H ->]. destruct a as [a|], b as [b|]; try case_if; comp_inv; subst;
      split_and!; intros; simplify_eq; done || lia.
  - intros (-> & Ha & Hb). destruct a as [a|], b as [b|];
      try rewrite (Ha _ eq_refl); try rewrite (Hb _ eq_refl); rewrite ?Z.eqb_refl; cbn [negb];
      rewrite ?Hc; done.
Qed.

Lemma filter_common_nil {A} `{EqDecision A} (l k : list A) :
  len (filter (fun x => x ∈ k) l) = 0 <-> ~ exists x, x ∈ l /\ x ∈ k.
Proof.
  split.
  - intros H%len_0 (x & Hl & Hk).
    assert (x ∈ filter (fun x => x ∈ k) l) as Hx by by apply list_elem_of_filter.
    rewrite H in Hx. by apply elem_of_nil in Hx.
  - intros H. destruct (filter _ l) as [|x r] eqn:Hf; [done|]. exfalso. apply H. exists x.
    assert (x ∈ filter (fun x => x ∈ k) l) as Hx by (rewrite Hf; left).
    by apply list_elem_of_filter in Hx as [? ?].
Qed.

Lemma filter_common_pos {A} `{EqDecision A} (l k : list A) :
  len (filter (fun x => x ∈ k) l) <> 0 <-> exists x, x ∈ l /\ x ∈ k.
Proof.
  split.
  - intros H. destruct (filter _ l) as [|x r] eqn:Hf; [done|]. exists x.
    assert (x ∈ filter (fun x => x ∈ k) l) as Hx by (rewrite Hf; left).
    by apply list_elem_of_filter in Hx as [? ?].
  - intros Hx H. by apply filter_common_nil in H.
Qed.

Lemma negotiate_sound a b n : negotiate a b = Ok n -> compatible a b /\ n = agreement a b.
Proof.
  unfold negotiate. intros H. comp_inv. repeat match goal with u : () |- _ => destruct u end.
  apply handshake_validate_sound in H0, H1. apply negb_false_iff, bool_decide_eq_true in H2.
  apply negb_false_iff in H4.
  match goal with H : negotiate_version ?c _ _ = Ok ?v |- _ =>
    pose proof (range_intersect_Some _ _ _ H3 PROTOCOL_VERSION) as Hcommon;
    assert (v = PROTOCOL_VERSION) as -> by lia;
    destruct (proj1 (negotiate_version_Ok c _ _ PROTOCOL_VERSION H4) (conj H eq_refl))
      as (_ & Hsa & Hsb)
  end.
  rewrite limits_intersect_valid in H9 by (by apply hv_limits). injection H9 as <-.
  split; [|by subst n]. constructor; try done.
  - by apply Hcommon.
  - apply Z.eqb_neq in H7. by apply filter_common_pos.
  - destruct (decide (len (filter (fun c => c ∈ hs_capabilities b) (hs_capabilities a)) = 0))
      as [He|Hne]; [right|left; by apply filter_common_pos].
    rewrite He in H8. cbn in H8. split; apply len_0; lia.
Qed.

Lemma negotiate_complete a b : compatible a b -> negotiate a b = Ok (agreement a b).
Proof.
  intros [[Ha Hb] Hp [Hva Hvb] Hs Hk Hc]. unfold negotiate.
  rewrite !handshake_validate_complete by done. cbn [map_err res_bind].
  rewrite bool_decide_eq_true_2 by done. run.
  destruct (range_intersect_contains _ _ _ Hva Hvb) as [common Hcommon]. rewrite Hcommon.
  cbn [some_or res_bind].
  assert (contains common PROTOCOL_VERSION = true) as Hcc by (by eapply range_intersect_Some).
  rewrite Hcc. run.
  destruct (proj2 (negotiate_version_Ok common (selected_version a) (selected_version b)
    PROTOCOL_VERSION Hcc) (conj eq_refl Hs)) as [-> _]. cbn [res_bind]. run.
  apply filter_common_pos in Hk. run. rewrite bind_reject.
  2: { destruct Hc as [Hc%filter_common_pos|[-> ->]]; [lia|done]. }
  by rewrite limits_intersect_valid by (by apply hv_limits).
Qed.

(** ** Capabilities of an agreement *)

(** The budget of a list of capabilities, without its order. *)
Lemma capabilities_within_iff l prev caps used :
  capabilities_within l prev caps used <->
  Forall (fun c => 0 < len c <= max_capability_len l) caps /\ NoDup caps /\
  (forall c, c ∈ caps -> c ∉ prev) /\
  (caps = [] \/ used + len (capabilities_bytes caps) <= max_capability_bytes l).
Proof.
  revert prev used. induction caps as [|c caps IH]; intros prev used; cbn [capabilities_within].
  { split; [intros _|done]. split_and!; [constructor|constructor| |by left].
    intros c Hc. by apply elem_of_nil in Hc. }
  rewrite IH, capabilities_bytes_cons, len_app, len_capability_bytes, Forall_cons, NoDup_cons.
  pose proof (len_nonneg (capabilities_bytes caps)). split.
  - intros (Hc & Hnew & Hub & Hall & Hnd & Hdis & Hsum). split_and!; try done; try lia.
    + intros Hin. apply (Hdis c Hin), elem_of_app. right. by left.
    + intros c' [->|Hin]%elem_of_cons; [done|]. intros Hp. apply (Hdis c' Hin), elem_of_app. by left.
    + right. destruct Hsum as [->|?]; [|lia]. change (len (capabilities_bytes [])) with 0. lia.
  - intros ([Hc Hall] & [Hnin Hnd] & Hdis & [Hnil|Hsum]); [done|]. split_and!; try done; try lia.
    + apply Hdis. by left.
    + intros c' Hin [Hp|Hp]%elem_of_app; [by apply (Hdis c'); [right|]|].
      apply list_elem_of_singleton in Hp as ->. done.
Qed.

Lemma len_capabilities_filter (P : list Z -> Prop) `{forall c, Decision (P c)} caps :
  len (capabilities_bytes (filter P caps)) <= len (capabilities_bytes caps).
Proof.
  induction caps as [|c caps IH]; [done|]. rewrite filter_cons, capabilities_bytes_cons.
  rewrite len_app, len_capability_bytes. pose proof (len_nonneg c).
  case_decide; [|lia]. rewrite capabilities_bytes_cons, len_app, len_capability_bytes. lia.
Qed.

Lemma len_capabilities_perm caps caps' :
  caps ≡ₚ caps' -> len (capabilities_bytes caps) = len (capabilities_bytes caps').
Proof.
  induction 1; rewrite ?capabilities_bytes_cons, ?len_app in *; congruence || lia.
Qed.

Lemma filter_common_perm {A} `{EqDecision A} (l k : list A) :
  NoDup l -> NoDup k -> filter (fun x => x ∈ k) l ≡ₚ filter (fun x => x ∈ l) k.
Proof.
  intros Hl Hk. apply NoDup_Permutation; [by apply NoDup_filter..|].
  intros x. rewrite !list_elem_of_filter. tauto.
Qed.

Lemma length_filter_le {A} (P : A -> Prop) `{forall x, Decision (P x)} (l : list A) :
  len (filter P l) <= len l.
Proof. unfold len. pose proof (length_filter P l). lia. Qed.

Lemma offered_NoDup h : handshake_valid h -> NoDup (hs_capabilities h).
Proof. intros Hv. by apply (hv_capabilities h), capabilities_within_iff in Hv as (_ & ? & _). Qed.

(** The common capabilities fit the budget of either side. *)
Lemma common_capabilities_within a b :
  compatible a b ->
  let caps := n_capabilities (agreement a b) in
  capabilities_within (limits_of (n_limits (agreement a b))) [] caps 0 /\
  len caps <= hl_max_capabilities (n_limits (agreement a b)) /\
  len (hs_profile b) + len (capabilities_bytes caps)
  <= hl_max_metadata_bytes (n_limits (agreement a b)).
Proof.
  intros [[Ha Hb] Hp _ _ _ _]. cbv zeta. pose proof (offered_NoDup a Ha) as Hna.
  pose proof (offered_NoDup b Hb) as Hnb.
  pose proof (filter_common_perm _ _ Hna Hnb) as Hperm.
  pose proof (len_capabilities_perm _ _ Hperm) as Hbytes.
  pose proof (len_capabilities_filter (fun c => c ∈ hs_capabilities b) (hs_capabilities a)) as Hla.
  pose proof (len_capabilities_filter (fun c => c ∈ hs_capabilities a) (hs_capabilities b)) as Hlb.
  pose proof (length_filter_le (fun c => c ∈ hs_capabilities b) (hs_capabilities a)) as Hca.
  pose proof (length_filter_le (fun c => c ∈ hs_capabilities a) (hs_capabilities b)) as Hcb.
  assert (len (filter (fun c => c ∈ hs_capabilities b) (hs_capabilities a)) =
          len (filter (fun c => c ∈ hs_capabilities a) (hs_capabilities b))) as Hlen.
  { unfold len. by rewrite Hperm. }
  pose proof Ha as [_ _ _ _ _ _ [_ ?] Hwa ? _ _ _]. pose proof Hb as [_ _ _ _ _ _ [_ ?] Hwb ? _ _ _].
  cbn [agreement n_capabilities n_limits min_limits hl_max_capabilities hl_max_metadata_bytes].
  rewrite <- Hp in *. split; [|lia].
  apply capabilities_within_iff in Hwa as (Hfa & _ & _ & Hsa), Hwb as (_ & _ & _ & Hsb).
  apply capabilities_within_iff. cbn [limits_of max_capability_len max_capability_bytes
    min_limits hl_max_capability_bytes] in *. split_and!.
  - rewrite Forall_forall in Hfa |- *. intros c [_ Hc]%list_elem_of_filter. by apply Hfa.
  - by apply NoDup_filter.
  - intros c _ Hc. by apply elem_of_nil in Hc.
  - destruct Hsa as [Hnil|Hsa]; [left; by rewrite Hnil|].
    destruct Hsb as [Hnil|Hsb]; [left|right; lia].
    apply Permutation_nil_r. by rewrite Hperm, Hnil.
Qed.

(** ** What the two ends agree on *)

(** Negotiation decides compatibility: it succeeds exactly when both
    declarations are valid, name the same profile, speak the implemented
    version and select no other, and share a message kind and, unless neither
    offers any, a capability; the result is then the common part of both in
    the local order, with the smaller of each limit. *)
Theorem negotiation_exact a b n :
  negotiate a b = Ok n <-> compatible a b /\ n = agreement a b.
Proof.
  split; [apply negotiate_sound|]. intros [Hc ->]. by apply negotiate_complete.
Qed.

(** Both ends reach the same agreement: if one end's negotiation succeeds,
    so does the other's, with the same version, profile, limits and
    preservation contract, the same capabilities and message kinds (each in
    its own order of offer), and the identities exchanged. *)
Theorem negotiation_symmetric a b n :
  negotiate a b = Ok n ->
  exists m, negotiate b a = Ok m /\
    n_protocol_version m = n_protocol_version n /\ n_profile m = n_profile n /\
    n_limits m = n_limits n /\ n_preservation m = n_preservation n /\
    n_capabilities m ≡ₚ n_capabilities n /\ n_message_kinds m ≡ₚ n_message_kinds n /\
    n_local_identity m = n_peer_identity n /\ n_peer_identity m = n_local_identity n.
Proof.
  intros [Hc ->]%negotiate_sound. exists (agreement b a).
  rewrite negotiate_complete by by apply compatible_sym. destruct Hc as [[Ha Hb] Hp _ _ _ _].
  unfold agreement. cbn. split_and!; try done.
  - unfold min_limits. f_equal; lia.
  - unfold contract_intersect. f_equal; apply andb_comm.
  - apply filter_common_perm; by apply offered_NoDup.
  - apply filter_common_perm; by apply hv_distinct.
Qed.

Lemma filter_common_idem {A} `{EqDecision A} (l k : list A) :
  filter (fun x => x ∈ filter (fun y => y ∈ k) l) l = filter (fun y => y ∈ k) l.
Proof. apply list_filter_ext_in. intros x Hx. rewrite list_elem_of_filter. tauto. Qed.

(** The response to an offer is a valid declaration. *)
Lemma response_valid offer h n r :
  compatible offer h -> n = agreement offer h ->
  r = {| versions := versions h; selected_version := Some (n_protocol_version n);
         identity := identity h; hs_profile := hs_profile h;
         hs_capabilities := n_capabilities n; supported_message_kinds := n_message_kinds n;
         limits := n_limits n; preservation := n_preservation n |} ->
  handshake_valid r.
Proof.
  intros Hc -> ->. pose proof (common_capabilities_within _ _ Hc) as (Hw & Hn & Hm).
  destruct Hc as [[Ho Hh] Hp [_ Hv] _ Hk _].
  pose proof (min_limits_valid _ _ (hv_limits _ Ho) (hv_limits _ Hh)) as Hl.
  pose proof (hv_distinct offer Ho) as Hd. pose proof (hv_kinds offer Ho) as Hko.
  destruct Hh as [? ? ? ? ? ? [? ?] ? ? [? ?] ? ?].
  constructor; cbn [versions selected_version identity hs_profile hs_capabilities
    supported_message_kinds limits preservation]; try done.
  - intros s [= <-]. by apply contains_true.
  - destruct Hl. cbn in *. lia.
  - apply filter_common_pos in Hk. pose proof (length_filter_le
      (fun k => k ∈ supported_message_kinds h) (supported_message_kinds offer)).
    cbn. split; [|lia].
    pose proof (len_nonneg (filter (fun k => k ∈ supported_message_kinds h)
      (supported_message_kinds offer))). lia.
  - by apply NoDup_filter.
Qed.

(** C21 A response closes the negotiation: the response computed for an offer is
    itself a valid declaration, and the peer that made the offer, negotiating
    with that response, accepts it and reaches the agreement the responder
    computed. *)
Theorem response_agrees h offer r :
  response_for h offer = Ok r ->
  handshake_validate r = Ok () /\
  exists n, negotiate offer h = Ok n /\ negotiate offer r = Ok n.
Proof.
  unfold response_for. intros H. comp_inv. pose proof H0 as [Hc Hn]%negotiate_sound.
  assert (handshake_valid r) as Hr by (by eapply response_valid; eauto).
  split; [by apply handshake_validate_complete|]. exists r0. split; [done|].
  destruct Hc as [[Ho Hh] Hp [Hva Hvb] [Hso Hsh] Hk Hcap].
  rewrite Hn. rewrite negotiate_complete.
  - subst r r0. unfold agreement. cbn [identity hs_profile hs_capabilities supported_message_kinds
      limits preservation n_capabilities n_message_kinds n_limits n_preservation].
    rewrite !filter_common_idem. do 2 f_equal.
    + unfold min_limits. f_equal; cbn; lia.
    + unfold contract_intersect. cbn. by rewrite !andb_assoc, !andb_diag.
  - assert (n_protocol_version r0 = PROTOCOL_VERSION) as Hver by by rewrite Hn.
    assert (n_capabilities r0 = filter (fun c => c ∈ hs_capabilities h) (hs_capabilities offer) /\
            n_message_kinds r0 = filter (fun k => k ∈ supported_message_kinds h)
                                   (supported_message_kinds offer)) as [Hcs Hks] by by rewrite Hn.
    destruct Hk as (k & Hk1 & Hk2). subst r. clear Hn. constructor; cbn; try done.
    + split; [done|]. by intros s [= <-].
    + exists k. rewrite Hks, list_elem_of_filter. done.
    + rewrite Hcs. destruct Hcap as [(c & Hc1 & Hc2)|[Hn1 Hn2]].
      * left. exists c. by rewrite list_elem_of_filter.
      * right. by rewrite Hn1.
Qed.

(** ** The codec of the session *)

(** A codec whose limits are all at least those of another. *)
Definition limits_le (l m : FrameLimits) : Prop :=
  max_payload_len l <= max_payload_len m /\ max_profile_len l <= max_profile_len m /\
  max_capabilities l <= max_capabilities m /\ max_capability_len l <= max_capability_len m /\
  max_capability_bytes l <= max_capability_bytes m /\ max_metadata_len l <= max_metadata_len m /\
  max_error_message_len l <= max_error_message_len m.

Lemma validate_remote_error_mono body l m c :
  l <= m -> validate_remote_error_payload body l = Ok c ->
  validate_remote_error_payload body m = Ok c.
Proof.
  intros Hlm H. unfold validate_remote_error_payload in *. comp_inv. run. rewrite H1. cbn [res_bind].
  rewrite H2. cbn [res_bind]. run. rewrite H4. cbn [res_bind]. run. rewrite H6. cbn [some_or res_bind].
  run. rewrite H8. cbn [res_bind]. run. by subst.
Qed.

Lemma semantics_mono f l m :
  l <= m -> validate_frame_semantics f l = Ok () -> validate_frame_semantics f m = Ok ().
Proof.
  intros Hlm. unfold validate_frame_semantics, zero_id_error_code, handshake_error_payload_code.
  destruct (bool_decide (kind f = Kind.Error) && (request_id f =? 0)) eqn:Hz; [|done].
  apply andb_true_iff in Hz as [Hk%bool_decide_eq_true Hid].
  pose proof (validate_remote_error_payload_returns (payload f) l) as Hr.
  destruct (validate_remote_error_payload (payload f) l) as [c|[e|]|] eqn:Hv; [|..|done|done].
  - by rewrite (validate_remote_error_mono _ l m c Hlm Hv).
  - cbn [res_bind]. unfold validate_wire_semantics. rewrite Hk, Hid. done.
Qed.

Lemma frame_within_mono l m f : limits_le l m -> frame_within l f -> frame_within m f.
Proof.
  intros (Hp & Hpr & Hn & Hc & Hcb & Hm & He) [Hs ? Hprof ? Hcaps ?].
  constructor; try lia; [by eapply semantics_mono| |].
  - intros p Hpf. specialize (Hprof p Hpf). lia.
  - apply capabilities_within_iff in Hcaps as (Hf & Hnd & Hdis & Hsum).
    apply capabilities_within_iff. split_and!; [|done..|].
    + eapply Forall_impl; [exact Hf|]. cbn. lia.
    + destruct Hsum; [by left|right; lia].
Qed.

Lemma limits_of_codec_ok h :
  handshake_typed h -> handshake_valid h ->
  codec_ok (limits_of (limits h)) /\ frame_limits (limits h) = Ok (limits_of (limits h)).
Proof.
  intros Ht Hv. pose proof (ht_limits h Ht) as Hlt. pose proof (hv_limits h Hv) as Hl.
  assert (frame_limits (limits h) = Ok (limits_of (limits h))) as Hfl
    by (apply limits_of_valid; lia || done).
  split; [|done]. split.
  - unfold limits_typed. cbn. consts. unfold MAX_PROFILE_LEN, MAX_CAPABILITY_LEN. lia.
  - unfold frame_limits in Hfl. by apply res_bind_Ok in Hfl as ([] & ? & _).
Qed.


(** ** Failed negotiations *)

Lemma validate_offered_returns m prev caps used : returns (validate_offered m prev caps used).
Proof.
  revert prev used. induction caps as [|c caps IH]; intros prev used; [done|].
  cbn [validate_offered]. unfold validate_handshake_text. returns_chain.
Qed.
#[local] Hint Resolve validate_offered_returns : wire.

Lemma handshake_validate_returns h : returns (handshake_validate h).
Proof.
  assert (returns (handshake_limits_validate (limits h))) as Hl
    by (unfold handshake_limits_validate; returns_chain).
  assert (forall v m f, returns (validate_handshake_text v m f)) as Ht
    by (intros; unfold validate_handshake_text; returns_chain).
  assert (returns (range_new (minimum (versions h)) (maximum (versions h)))) as Hr
    by (unfold range_new; case_if; done).
  assert (returns (contract_validate (preservation h))) as Hc
    by (unfold contract_validate; returns_chain).
  unfold handshake_validate, identity_validate. returns_chain.
  destruct (selected_version h); auto with wire.
Qed.

Lemma negotiate_returns a b : returns (negotiate a b).
Proof.
  unfold negotiate. pose proof (handshake_validate_returns a). pose proof (handshake_validate_returns b).
  assert (returns (limits_intersect (limits a) (limits b))) as Hl.
  { unfold limits_intersect, handshake_limits_validate. returns_chain. }
  assert (forall c x y, returns (negotiate_version c x y)) as Hv.
  { intros c [x|] [y|]; cbn; try case_if; returns_chain. }
  returns_chain.
Qed.

(** Valid limits always have a valid common part. *)
Lemma negotiated_limits_exist a b le :
  negotiate a b <> Err (Raised (Negotiate.InvalidNegotiatedLimits le)).
Proof.
  intros H. unfold negotiate in H.
  destruct (handshake_validate a) as [[]|[]|] eqn:Ha; try done. cbn [map_err res_bind] in H.
  destruct (handshake_validate b) as [[]|[]|] eqn:Hb; try done. cbn [map_err res_bind] in H.
  apply handshake_validate_sound in Ha, Hb.
  rewrite limits_intersect_valid in H by (by apply hv_limits).
  unfold negotiate_version, reject, some_or, raise in H. cbn [map_err] in H.
  repeat (case_match; cbn [res_bind] in H; simplify_eq).
Qed.

(** The frame of a negotiation error. *)
Lemma negotiation_error_within l e :
  codec_ok l -> remote_error_ok e -> Remote.is_handshake_negotiation (code e) = true ->
  len (message e) <= max_error_message_len l ->
  ERROR_PAYLOAD_HEADER_LEN + len (message e) <= max_payload_len l ->
  frame_within l (frame_new Kind.Error 0 (remote_error_bytes e)).
Proof.
  intros [Ht Hl] Hok Hneg Hm Hp. limits l. unfold limits_typed in Ht.
  assert (Remote.code_from_u16 (Remote.code_as_u16 (code e)) = code e) as Hc.
  { by destruct (code e). }
  constructor; try done.
  - unfold validate_frame_semantics, zero_id_error_code, handshake_error_payload_code.
    cbn [frame_new kind request_id payload profile capabilities cancellation].
    rewrite bool_decide_eq_true_2 by done. cbn [andb Z.eqb].
    rewrite validate_remote_error_complete by (done || lia). cbn [res_bind].
    cbn. rewrite Hc, Hneg. done.
  - cbn. unfold remote_error_bytes. consts. len_lia.
  - cbn. change (len (@nil (list Z))) with 0. lia.
  - unfold metadata_bytes. cbn. change (len (@nil Z)) with 0. lia.
Qed.

(** A failed negotiation can always be reported.  It fails with one of the
    errors of the code, never because the limits of both ends have no valid
    common part, and its structured error, whatever diagnostic text of
    admissible length it carries, is accepted by [handshake_error], encoded
    under the reserved correlation ID, and read back by the peer. *)
Theorem negotiation_failure_reported a b err l text :
  negotiate a b = Err err -> codec_ok l -> str_ok text ->
  len text <= max_error_message_len l ->
  ERROR_PAYLOAD_HEADER_LEN + len text <= max_payload_len l ->
  exists e f bytes,
    err = Raised e /\ (forall le, e <> Negotiate.InvalidNegotiatedLimits le) /\
    frame_error 0 (Negotiate.to_remote_error e text) = Ok f /\ encode l f = Ok bytes /\
    decode_exact l bytes = Ok f /\
    decode_remote_error l f = Ok (Negotiate.to_remote_error e text).
Proof.
  intros Hn Hc Ht Hm Hp. pose proof (negotiate_returns a b) as Hr. rewrite Hn in Hr.
  destruct err as [e|]; [|done]. exists e. set (re := Negotiate.to_remote_error e text).
  assert (remote_error_ok re) as Hok by (split; [done|]; by destruct e).
  assert (Remote.is_handshake_negotiation (code re) = true) as Hneg by by destruct e.
  assert (Remote.code_from_u16 (Remote.code_as_u16 (code re)) = code re) as Hcode by by destruct e.
  assert (len (message re) <= MAX_ERROR_MESSAGE_LEN) as Hmax.
  { destruct Hc as [_ Hl]. limits l. cbn. lia. }
  pose proof (negotiation_error_within l re Hc Hok Hneg Hm Hp) as Hw.
  exists (frame_new Kind.Error 0 (remote_error_bytes re)), (frame_bytes (frame_new Kind.Error 0 (remote_error_bytes re))).
  split_and!; [done|..].
  - intros le ->. by apply negotiated_limits_exist in Hn.
  - unfold frame_error. rewrite Hneg. run. unfold encode_error_payload.
    by rewrite error_encode_complete.
  - apply encode_complete; [apply Hc|done].
  - unfold decode_exact. rewrite <- (app_nil_r (frame_bytes _)) at 1.
    rewrite decode_complete; [cbn [res_bind]; by rewrite Z.eqb_refl|done| |done|].
    + by apply error_frame_ok.
    + intros _. cbn [frame_new payload]. unfold remote_error_bytes, ERROR_PAYLOAD_HEADER_LEN.
      cbn [re Negotiate.to_remote_error message]. len_lia.
  - unfold decode_remote_error. cbn [frame_new kind payload].
    rewrite bool_decide_eq_true_2 by done. run. by apply error_decode_complete.
Qed.

(** ** Concrete sessions *)

Definition engine : Handshake :=
  {| versions := mkRange 1 3; selected_version := None;
     identity := mkIdentity Peer.Worker (lit "engine") (lit "0.1");
     hs_profile := lit "jmeter-5.6"; hs_capabilities := [lit "http"; lit "jdbc"; lit "jms"];
     supported_message_kinds := Kind.all_kinds; limits := handshake_limits_default;
     preservation := contract_full |}.

Definition plugin : Handshake :=
  {| versions := mkRange 1 1; selected_version := None;
     identity := mkIdentity Peer.Plugin (lit "sampler") (lit "2.0");
     hs_profile := lit "jmeter-5.6"; hs_capabilities := [lit "jms"; lit "http"];
     supported_message_kinds := [Kind.Error; Kind.Handshake; Kind.Request; Kind.Response];
     limits := mkHandshakeLimits 70000 4096 1024 8 512;
     preservation := mkContract false false true false |}.

Definition newer_engine : Handshake :=
  {| versions := mkRange 2 3; selected_version := None; identity := identity engine;
     hs_profile := hs_profile engine; hs_capabilities := hs_capabilities engine;
     supported_message_kinds := supported_message_kinds engine; limits := limits engine;
     preservation := preservation engine |}.

Ltac decide_typed := apply (bool_decide_unpack _); by vm_compute.

Lemma engine_typed : handshake_typed engine.
Proof. constructor; [by vm_compute|done|decide_typed..|by vm_compute]. Defined.

Lemma plugin_typed : handshake_typed plugin.
Proof. constructor; [by vm_compute|done|decide_typed..|by vm_compute]. Defined.

Definition plugin_codec : FrameLimits := limits_of (limits plugin).
Definition plugin_bytes : list Z :=
  match encode_frame plugin_codec plugin with Ok b => b | _ => [] end.

Lemma plugin_codec_ok : codec_ok plugin_codec.
Proof. by vm_compute. Defined.

Lemma handshake_delivered_witness :
  exists f, decode_next plugin_codec (plugin_bytes ++ [74]) = (Ok (Some f), [74]) /\
            decode_handshake plugin_codec f = Ok plugin.
Proof.
  assert (encode_frame plugin_codec plugin = Ok plugin_bytes) as H by by vm_compute.
  exact (handshake_delivered plugin_codec plugin plugin_bytes [74] plugin_codec_ok plugin_typed H).
Defined.

Lemma handshake_canonical_witness :
  from_frame (handshake_frame plugin) = Ok plugin /\ handshake_validate plugin = Ok ().
Proof.
  assert (from_frame (handshake_frame plugin) = Ok plugin) as H by by vm_compute.
  split; [exact H|].
  exact (proj1 (proj2 (handshake_canonical (handshake_frame plugin) plugin
    (handshake_frame_ok plugin plugin_typed) H))).
Defined.

Lemma declaration_fits_own_limits_witness :
  exists l bytes, frame_limits (limits plugin) = Ok l /\
    encode l (handshake_frame plugin) = Ok bytes /\ len bytes <= hl_max_frame_bytes (limits plugin).
Proof.
  assert (to_frame plugin = Ok (handshake_frame plugin)) as H by by vm_compute.
  exact (declaration_fits_own_limits plugin (handshake_frame plugin) plugin_typed H).
Defined.

Definition session : NegotiatedHandshake := agreement engine plugin.

Lemma session_negotiated : negotiate engine plugin = Ok session.
Proof. by vm_compute. Defined.

Lemma negotiation_symmetric_witness :
  exists m, negotiate plugin engine = Ok m /\ n_limits m = n_limits session.
Proof.
  destruct (negotiation_symmetric engine plugin session session_negotiated)
    as (m & Hm & _ & _ & Hl & _).
  exists m. split; [exact Hm|exact Hl].
Defined.

Definition plugin_response : Handshake :=
  match response_for plugin engine with Ok r => r | _ => plugin end.

Lemma response_agrees_witness :
  selected_version plugin_response = Some 1 /\
  exists n, negotiate engine plugin = Ok n /\ negotiate engine plugin_response = Ok n.
Proof.
  assert (response_for plugin engine = Ok plugin_response) as H by by vm_compute.
  split; [by vm_compute|].
  exact (proj2 (response_agrees plugin engine plugin_response H)).
Defined.


Lemma negotiation_failure_reported_witness :
  exists e f bytes,
    Raised (Negotiate.NoCommonVersion (mkRange 2 3) (mkRange 1 1)) = Raised e /\
    (forall le, e <> Negotiate.InvalidNegotiatedLimits le) /\
    frame_error 0 (Negotiate.to_remote_error e (lit "no common version")) = Ok f /\
    encode plugin_codec f = Ok bytes /\ decode_exact plugin_codec bytes = Ok f /\
    decode_remote_error plugin_codec f
    = Ok (Negotiate.to_remote_error e (lit "no common version")).
Proof.
  apply (negotiation_failure_reported newer_engine plugin).
  - by vm_compute.
  - exact plugin_codec_ok.
  - decide_typed.
  - by vm_compute.
  - by vm_compute.
Defined.
