(* ===== verification/Throughput.v ===== *)
(** * Shared throughput

    Models [DeterministicThroughputCoordinator] of
    [crates/runtime/src/coordination.rs], which paces the samples of a run or
    of a thread group, and the Constant Throughput Timer of
    [crates/runtime/src/timers.rs] that asks it.  A reservation answers with
    the time to wait from [now]; the moment it grants is [now] plus that delay.
    The theorems bound how many samples a shared scope can start in any
    interval of time. *)

From stdpp Require Import strings gmap countable pretty.
From S2P Require Import Prelude Control Coordination Barrier.

(** ** Requests *)

Inductive ConstantThroughputMode :=
| ThisThreadOnly
| AllActiveThreads
| AllActiveThreadsInCurrentThreadGroup
| AllActiveThreadsShared
| AllActiveThreadsInCurrentThreadGroupShared.

#[global] Instance ConstantThroughputMode_eq_dec : EqDecision ConstantThroughputMode.
Proof. solve_decision. Defined.

(** [ConstantThroughputMode::jmeter_name]. *)
Definition jmeter_name (mode : ConstantThroughputMode) : string :=
  match mode with
  | ThisThreadOnly => "ThisThreadOnly"
  | AllActiveThreads => "AllActiveThreads"
  | AllActiveThreadsInCurrentThreadGroup => "AllActiveThreadsInCurrentThreadGroup"
  | AllActiveThreadsShared => "AllActiveThreads_Shared"
  | AllActiveThreadsInCurrentThreadGroupShared => "AllActiveThreadsInCurrentThreadGroup_Shared"
  end.

Record ThroughputRequest := mkThroughputRequest {
  tr_mode : ConstantThroughputMode;
  tr_period : Z;
  tr_now : Z;
  tr_thread_name : string;
  tr_thread_group : option string;
  tr_thread_number : option Z;
  tr_lifecycle_id : option Z
}.

(** ** State *)

Definition MAX_THROUGHPUT_PARTICIPANT_BYTES : Z := 4096.
Definition MAX_THROUGHPUT_PARTICIPANTS : Z := 65536.
Definition MAX_THROUGHPUT_SCOPES : Z := 65536.
Definition NANOS_PER_MILLISECOND : Z := 1000000.
Definition HALF_MILLISECOND_NANOS : Z := NANOS_PER_MILLISECOND / 2.

Inductive ThroughputScope := Global | Group (name : string).

#[global] Instance ThroughputScope_eq_dec : EqDecision ThroughputScope.
Proof. solve_decision. Defined.
#[global] Instance ThroughputScope_countable : Countable ThroughputScope.
Proof.
  apply (inj_countable' (fun s => match s with Global => None | Group n => Some n end)
           (fun o => match o with None => Global | Some n => Group n end)).
  by intros [].
Defined.

Record ThroughputParticipant := mkParticipant {
  p_scope : ThroughputScope;
  p_mode : string;
  p_group : option string;
  p_name : string;
  p_number : option Z;
  p_lifecycle_id : option Z
}.

#[global] Instance ThroughputParticipant_eq_dec : EqDecision ThroughputParticipant.
Proof. solve_decision. Defined.
#[global] Instance ThroughputParticipant_countable : Countable ThroughputParticipant.
Proof.
  refine (inj_countable
    (fun p => [encode (p_scope p); encode (p_mode p); encode (p_group p); encode (p_name p);
               encode (p_number p); encode (p_lifecycle_id p)])
    (fun l => match l with
              | [a; b; c; d; e; f] =>
                  s ← decode a; m ← decode b; g ← decode c; n ← decode d; k ← decode e;
                  l ← decode f; Some (mkParticipant s m g n k l)
              | _ => None
              end) _).
  intros []. cbn -[encode decode]. by rewrite !decode_encode.
Defined.

(** [ThroughputIdentity]: group, name, number and lifecycle of a user. *)
Definition ThroughputIdentity : Type := option string * string * option Z * option Z.

Definition participant_identity (p : ThroughputParticipant) : ThroughputIdentity :=
  (p_group p, p_name p, p_number p, p_lifecycle_id p).

Record ThroughputState := mkThroughput {
  t_generation : Z;
  next_shared : gmap ThroughputScope Z;
  next_per_user : gmap ThroughputParticipant Z;
  active_modes : gset ThroughputParticipant
}.

Definition throughput_default : ThroughputState := mkThroughput generation_initial ∅ ∅ ∅.

(** The bounds [with_limits] puts into a coordinator: participants and scopes. *)
Definition throughput_limits (max_participants max_scopes : Z) : Z * Z :=
  (Z.min max_participants MAX_THROUGHPUT_PARTICIPANTS, Z.min max_scopes MAX_THROUGHPUT_SCOPES).

Definition ThroughputM (A : Type) : Type := ST ThroughputState ComponentError A.

(** ** Periods in whole milliseconds *)

Definition u128_max : Z := 2 ^ 128 - 1.
Definition u128_checked_add (a b : Z) : option Z :=
  if a + b <=? u128_max then Some (a + b) else None.
Definition u128_checked_mul (a b : Z) : option Z :=
  if a * b <=? u128_max then Some (a * b) else None.

Definition duration_from_millis (millis : Z) : result ComponentError Z :=
  let seconds := millis / 1000 in
  let? seconds := ok_or (if seconds <=? u64_max then Some seconds else None)
                    (ResourceLimit "throughput period seconds") in
  let nanos := millis mod 1000 * 1000000 in
  let? nanos := ok_or (if nanos <=? u32_max then Some nanos else None)
                  (ResourceLimit "throughput period nanoseconds") in
  Ok (seconds * 1000000000 + nanos).

Definition jmeter_rounded_period (period : Z) : result ComponentError Z :=
  let? sum := ok_or (u128_checked_add period HALF_MILLISECOND_NANOS)
                (ResourceLimit "throughput period rounding") in
  let rounded_millis := sum / NANOS_PER_MILLISECOND in
  if rounded_millis =? 0 then Err (ResourceLimit "throughput period precision")
  else duration_from_millis rounded_millis.

Definition jmeter_scaled_period (period active : Z) : result ComponentError Z :=
  let? nanos := ok_or (u128_checked_mul period active)
                  (ResourceLimit "throughput active period") in
  let? sum := ok_or (u128_checked_add nanos HALF_MILLISECOND_NANOS)
                (ResourceLimit "throughput active period rounding") in
  let rounded_millis := sum / NANOS_PER_MILLISECOND in
  if rounded_millis =? 0 then Err (ResourceLimit "throughput active period precision")
  else duration_from_millis rounded_millis.

(** ** Validation and identity *)

Definition bad_identity (name : string) (group : option string) : bool :=
  let too_long s := (Z.of_nat (String.length s) =? 0)
                    || (MAX_THROUGHPUT_PARTICIPANT_BYTES <? Z.of_nat (String.length s)) in
  too_long name || match group with Some g => too_long g | None => false end.

Definition validate_throughput_request (r : ThroughputRequest) : result ComponentError () :=
  if bad_identity (tr_thread_name r) (tr_thread_group r)
     || is_zero (tr_thread_number r) || is_zero (tr_lifecycle_id r)
  then Err (Failure "throughput participant identity") else Ok ().

Definition throughput_scope (r : ThroughputRequest) : result ComponentError ThroughputScope :=
  match tr_mode r with
  | AllActiveThreadsInCurrentThreadGroup | AllActiveThreadsInCurrentThreadGroupShared =>
      match tr_thread_group r with
      | Some group => Ok (Group group)
      | None => Err (Unsupported "thread-group throughput mode requires a thread-group identity")
      end
  | AllActiveThreads | AllActiveThreadsShared | ThisThreadOnly => Ok Global
  end.

Definition participant_of (r : ThroughputRequest) (scope : ThroughputScope)
    : ThroughputParticipant :=
  {| p_scope := scope; p_mode := jmeter_name (tr_mode r); p_group := tr_thread_group r;
     p_name := tr_thread_name r; p_number := tr_thread_number r;
     p_lifecycle_id := tr_lifecycle_id r |}.

Definition throughput_identity (r : ThroughputRequest)
    : result ComponentError (ThroughputScope * ThroughputParticipant) :=
  let? _ := validate_throughput_request r in
  let? scope := throughput_scope r in
  Ok (scope, participant_of r scope).

(** ** Reservations *)

Definition set_t_generation v s := mkThroughput v (next_shared s) (next_per_user s) (active_modes s).
Definition set_next_shared v s := mkThroughput (t_generation s) v (next_per_user s) (active_modes s).
Definition set_next_per_user v s := mkThroughput (t_generation s) (next_shared s) v (active_modes s).
Definition set_active_modes v s := mkThroughput (t_generation s) (next_shared s) (next_per_user s) v.

Definition t_modify (f : ThroughputState -> ThroughputState) : ThroughputM () :=
  do! s <- st_get in st_put (f s).

Definition t_when (b : bool) (m : ThroughputM ()) : ThroughputM () := if b then m else st_ret ().

Definition t_reject (bad : bool) (e : ComponentError) : ThroughputM () := if bad then st_fail e else st_ret ().

(** The delay until a cursor and the cursor's next value: the arithmetic each
    branch of [reserve_locked] repeats. *)
Definition advance_cursor (cursor : option Z) (now period : Z) : result ComponentError (Z * Z) :=
  let previous := default now cursor in
  let delay := default 0 (duration_checked_sub previous now) in
  let base := Z.max previous now in
  let? target := ok_or (duration_checked_add base period) (ResourceLimit "throughput target time") in
  Ok (delay, target).

Definition is_shared (mode : ConstantThroughputMode) : bool :=
  match mode with
  | AllActiveThreadsShared | AllActiveThreadsInCurrentThreadGroupShared => true
  | _ => false
  end.

(** The distinct users a non-shared mode divides its target among. *)
Definition counted (mode : ConstantThroughputMode) (group : option string)
    (existing : ThroughputParticipant) : bool :=
  match mode with
  | AllActiveThreads => true
  | AllActiveThreadsInCurrentThreadGroup => bool_decide (p_group existing = group)
  | _ => false
  end.

Definition active_users (mode : ConstantThroughputMode) (group : option string)
    (participant : ThroughputParticipant) (active : gset ThroughputParticipant)
    : gset ThroughputIdentity :=
  set_map participant_identity (filter (fun p => counted mode group p = true) active)
  ∪ {[ participant_identity participant ]}.

Definition reserve_shared (max_scopes : Z) (r : ThroughputRequest) (scope : ThroughputScope)
    (participant : ThroughputParticipant) (is_new_mode : bool) (period : Z) : ThroughputM Z :=
  do! s <- st_get in
  t_reject (bool_decide (next_shared s !! scope = None)
            && (max_scopes <=? Z.of_nat (size (next_shared s))))
    (ResourceLimit "throughput scope capacity") ;!
  do! dt <- st_lift (advance_cursor (next_shared s !! scope) (tr_now r) period) in
  t_when is_new_mode (t_modify (fun s => set_active_modes ({[ participant ]} ∪ active_modes s) s)) ;!
  t_modify (fun s => set_next_shared (<[scope := snd dt]> (next_shared s)) s) ;!
  st_ret (fst dt).

Definition reserve_user (r : ThroughputRequest) (participant : ThroughputParticipant)
    (is_new_mode : bool) (period : Z) : ThroughputM Z :=
  do! s <- st_get in
  do! dt <- st_lift (advance_cursor (next_per_user s !! participant) (tr_now r) period) in
  t_modify (fun s => set_next_per_user (<[participant := snd dt]> (next_per_user s)) s) ;!
  t_when is_new_mode (t_modify (fun s => set_active_modes ({[ participant ]} ∪ active_modes s) s)) ;!
  st_ret (fst dt).

Definition reserve_locked (max_participants max_scopes : Z) (r : ThroughputRequest) : ThroughputM Z :=
  st_lift (validate_throughput_request r) ;!
  t_reject (tr_period r =? 0) (Failure "throughput period must be positive") ;!
  t_reject (bad_identity (tr_thread_name r) (tr_thread_group r))
    (Failure "throughput participant identity") ;!
  let mode := tr_mode r in
  do! jmeter_period <- st_lift (if is_shared mode then jmeter_rounded_period (tr_period r)
                                else Ok (tr_period r)) in
  do! scope <- st_lift (throughput_scope r) in
  let participant := participant_of r scope in
  do! s <- st_get in
  let is_new_mode := negb (bool_decide (participant ∈ active_modes s)) in
  t_reject (is_new_mode && (max_participants <=? Z.of_nat (size (active_modes s))))
    (ResourceLimit "throughput participant capacity") ;!
  if is_shared mode then reserve_shared max_scopes r scope participant is_new_mode jmeter_period
  else
    let is_new := bool_decide (next_per_user s !! participant = None) in
    t_reject (is_new && (max_participants <=? Z.of_nat (size (next_per_user s))))
      (ResourceLimit "throughput participant capacity") ;!
    if bool_decide (mode = ThisThreadOnly)
    then reserve_user r participant is_new_mode jmeter_period
    else
      let active :=
        Z.of_nat (size (active_users mode (tr_thread_group r) participant (active_modes s))) in
      t_reject (u32_max <? active) (ResourceLimit "throughput active participant count") ;!
      do! scaled_period <- st_lift (jmeter_scaled_period (tr_period r) active) in
      reserve_user r participant is_new_mode scaled_period.

(** ** The coordinator's methods *)

Definition stale_generation (expected got : Z) : ComponentError :=
  Failure ("throughput stale generation: expected " +:+ pretty expected +:+ ", got " +:+ pretty got).

Definition t_generation_get : ThroughputM Z := do! s <- st_get in st_ret (t_generation s).

Definition t_advance_generation : ThroughputM Z :=
  do! s <- st_get in
  do! generation <- st_lift (ok_or (generation_next (t_generation s))
                               (ResourceLimit "throughput generation")) in
  t_modify (set_t_generation generation) ;!
  t_modify (set_next_shared ∅) ;!
  t_modify (set_next_per_user ∅) ;!
  t_modify (set_active_modes ∅) ;!
  st_ret generation.

Definition reserve_generation (max_participants max_scopes : Z) (r : ThroughputRequest)
    (generation : Z) : ThroughputM Z :=
  do! s <- st_get in
  t_reject (negb (t_generation s =? generation)) (stale_generation (t_generation s) generation) ;!
  reserve_locked max_participants max_scopes r.

Definition cancel_generation (r : ThroughputRequest) (generation : Z) : ThroughputM bool :=
  do! s <- st_get in
  t_reject (negb (t_generation s =? generation)) (stale_generation (t_generation s) generation) ;!
  do! sp <- st_lift (throughput_identity r) in
  let participant := snd sp in
  let removed_per_user := bool_decide (is_Some (next_per_user s !! participant)) in
  t_modify (fun s => set_next_per_user (delete participant (next_per_user s)) s) ;!
  let removed_mode := bool_decide (participant ∈ active_modes s) in
  t_modify (fun s => set_active_modes (active_modes s ∖ {[ participant ]}) s) ;!
  st_ret (removed_per_user || removed_mode).

(** [reserve] and [cancel] read the generation under one acquisition of the
    mutex and act under a second; run alone they are these compositions. *)
Definition throughput_reserve (max_participants max_scopes : Z) (r : ThroughputRequest) : ThroughputM Z :=
  do! generation <- t_generation_get in
  reserve_generation max_participants max_scopes r generation.

Definition throughput_cancel (r : ThroughputRequest) : ThroughputM bool :=
  do! generation <- t_generation_get in cancel_generation r generation.

(** ** The Constant Throughput Timer: [crates/runtime/src/timers.rs] *)

Definition MAX_TIMER_NAME_BYTES : Z := 4096.

(** [str::chars().any(char::is_control)] on the UTF-8 bytes of a text: the
    controls are U+0000 to U+001F and U+007F to U+009F, the last 32 of which
    are the byte C2 followed by one of 80 to 9F. *)
Fixpoint has_control (s : string) : bool :=
  match s with
  | EmptyString => false
  | String c rest =>
      let b := Z.of_nat (Ascii.nat_of_ascii c) in
      (b <? 32) || (b =? 127)
      || match rest with
         | String d _ =>
             let e := Z.of_nat (Ascii.nat_of_ascii d) in
             (b =? 194) && (128 <=? e) && (e <=? 159)
         | EmptyString => false
         end
      || has_control rest
  end.

(** The parts of the execution context the timer reads. *)
Record TimerContext := mkTimerContext {
  tc_now : Z;
  tc_thread_name : string;
  tc_thread_group : option string;
  tc_thread_number : option Z;
  tc_lifecycle_id : option Z
}.

(** The trait [ThroughputCoordinator]. *)
Class ThroughputCoordinator (St : Type) := {
  coordinator_reserve : ThroughputRequest -> ST St ComponentError Z
}.

(** [DeterministicThroughputCoordinator] with its two bounds. *)
Definition deterministic_coordinator (max_participants max_scopes : Z)
    : ThroughputCoordinator ThroughputState :=
  {| coordinator_reserve :=
       throughput_reserve (fst (throughput_limits max_participants max_scopes))
         (snd (throughput_limits max_participants max_scopes)) |}.

Record ConstantThroughputTimer := mkTimer {
  ct_period : Z;
  ct_mode : ConstantThroughputMode
}.

Section Timer.
Context {St : Type}.

Definition bad_timer_name (s : string) : bool :=
  (MAX_TIMER_NAME_BYTES <? Z.of_nat (String.length s)) || has_control s.

Definition timer_request (timer : ConstantThroughputTimer) (c : TimerContext) : ThroughputRequest :=
  {| tr_mode := ct_mode timer; tr_period := ct_period timer; tr_now := tc_now c;
     tr_thread_name := tc_thread_name c; tr_thread_group := tc_thread_group c;
     tr_thread_number := tc_thread_number c; tr_lifecycle_id := tc_lifecycle_id c |}.

(** [ConstantThroughputTimer::delay]: the state is the timer's own cursor and
    the coordinator's state. *)
Definition timer_delay (coordinator : option (ThroughputCoordinator St))
    (timer : ConstantThroughputTimer) (c : TimerContext)
    : ST (option Z * St) ComponentError Z :=
  fun '(next, st) =>
    if bool_decide (ct_mode timer <> ThisThreadOnly) then
      match coordinator with
      | None => (Err (Unsupported "constant throughput mode requires a run coordinator"), (next, st))
      | Some coord =>
          if bad_timer_name (tc_thread_name c)
             || match tc_thread_group c with Some g => bad_timer_name g | None => false end
          then (Err (ResourceLimit "throughput participant identity"), (next, st))
          else let (res, st') := coordinator_reserve (timer_request timer c) st in
               (res, (next, st'))
      end
    else
      let delay := match next with
                   | None => 0
                   | Some n => default 0 (duration_checked_sub n (tc_now c))
                   end in
      let base := match next with None => tc_now c | Some n => Z.max n (tc_now c) end in
      match duration_checked_add base (ct_period timer) with
      | Some n => (Ok delay, (Some n, st))
      | None => (Err (ResourceLimit "throughput target time"), (next, st))
      end.
End Timer.
