(* ===== verification/ThroughputProps.v ===== *)
(** * Shared throughput: the rate is kept

    The history of a coordinator is a list of its atomic steps, each under one
    acquisition of the mutex, with arbitrary clocks and generations, so that it
    covers every interleaving of the callers.  The theorems say what the
    moments granted along a history have in common. *)

From stdpp Require Import strings gmap countable sorting.
From S2P Require Import Prelude Control Coordination Barrier Throughput.

(** ** Paced sequences of grants *)

(** A grant is a moment and the period after it. *)
Definition after (a b : Z * Z) : Prop := fst a + snd a <= fst b.

(** Each grant is at or after the cursor, which then moves past its period. *)
Fixpoint paced (cursor : option Z) (l : list (Z * Z)) : Prop :=
  match l with
  | [] => True
  | (g, p) :: l' => match cursor with Some c => c <= g | None => True end /\ paced (Some (g + p)) l'
  end.

Definition in_window (t w : Z) (a : Z * Z) : Prop := t <= fst a < t + w.
#[global] Instance in_window_dec t w a : Decision (in_window t w a).
Proof. unfold in_window. apply _. Defined.

Lemma paced_after l : forall c, Forall (fun a => 0 <= snd a) l -> paced (Some c) l ->
  Forall (fun a => c <= fst a) l.
Proof.
  induction l as [|[g p] l IH]; intros c Hp H; constructor; simpl in *; [tauto|].
  inversion Hp; subst; simpl in *.
  eapply Forall_impl; [apply (IH (g + p)); tauto|]. simpl. lia.
Qed.

Lemma paced_sorted l : forall c, Forall (fun a => 0 <= snd a) l -> paced c l ->
  StronglySorted after l.
Proof.
  induction l as [|[g p] l IH]; intros c Hp H; constructor; inversion Hp; subst; simpl in *.
  - apply (IH (Some (g + p))); tauto.
  - unfold after; simpl. apply paced_after; tauto.
Qed.

Lemma sorted_span q l : forall g p, StronglySorted after ((g, p) :: l) ->
  Forall (fun a => q <= snd a) ((g, p) :: l) -> 0 < q ->
  forall t w, Forall (in_window t w) ((g, p) :: l) -> g + Z.of_nat (length l) * q < t + w.
Proof.
  induction l as [|[g' p'] l IH]; intros g p HS Hq Hpos t w Hw.
  - inversion Hw; subst. unfold in_window in *. simpl in *. lia.
  - inversion HS as [|? ? HS' Ha]; inversion Hq as [|? ? Hq1 Hq']; inversion Hw; subst.
    assert (g' + Z.of_nat (length l) * q < t + w) by (eapply IH; eauto).
    inversion Ha; subst. unfold after in *. simpl in *. lia.
Qed.

Lemma sorted_filter (P : Z * Z -> Prop) `{!forall x, Decision (P x)} l :
  StronglySorted after l -> StronglySorted after (filter P l).
Proof.
  induction 1 as [|a l HS IH Ha]; [constructor|].
  rewrite filter_cons. case_decide; [|done]. constructor; [done|].
  rewrite Forall_forall in Ha |- *. intros x Hx. apply list_elem_of_filter in Hx. naive_solver.
Qed.

(** A paced sequence with periods of at least [q] has, in a window of length
    [w], [n] grants only if [n - 1] periods fit into it. *)
Lemma paced_rate c l q t w : 0 < q -> 0 < w -> Forall (fun a => q <= snd a) l -> paced c l ->
  (Z.of_nat (length (filter (in_window t w) l)) - 1) * q < w.
Proof.
  intros Hq Hw Hp H.
  assert (HS : StronglySorted after (filter (in_window t w) l)).
  { apply sorted_filter, (paced_sorted _ c); [|done].
    eapply Forall_impl; [exact Hp|]. simpl. lia. }
  assert (HF : Forall (fun a => q <= snd a) (filter (in_window t w) l)).
  { rewrite Forall_forall in Hp |- *. intros x Hx. apply list_elem_of_filter in Hx. naive_solver. }
  assert (HW : Forall (in_window t w) (filter (in_window t w) l)).
  { rewrite Forall_forall. intros x Hx. apply list_elem_of_filter in Hx. tauto. }
  destruct (filter (in_window t w) l) as [|[g p] l'] eqn:E; simpl; [lia|].
  pose proof (sorted_span q l' g p HS HF Hq t w HW).
  inversion HW; subst. unfold in_window in *. simpl in *. lia.
Qed.

(** ** Periods *)

Lemma duration_from_millis_Ok m d : 0 <= m -> duration_from_millis m = Ok d -> d = m * 1000000.
Proof.
  unfold duration_from_millis, ok_or. intros Hm.
  pose proof (Z.div_mod m 1000 ltac:(lia)). pose proof (Z.mod_pos_bound m 1000 ltac:(lia)).
  repeat case_match; simpl; intros; simplify_eq; lia.
Qed.

(** Rounding goes to a positive whole number of milliseconds at most half a
    millisecond away. *)
Definition rounds (x d : Z) : Prop :=
  (1000000 | d) /\ 0 < d /\ x - 500000 < d <= x + 500000.

Lemma rounds_intro x m d : 0 <= x -> m = (x + HALF_MILLISECOND_NANOS) / NANOS_PER_MILLISECOND ->
  m <> 0 -> duration_from_millis m = Ok d -> rounds x d.
Proof.
  unfold HALF_MILLISECOND_NANOS, NANOS_PER_MILLISECOND. change (1000000 / 2) with 500000.
  intros Hx Hm Hz Hd.
  pose proof (Z.div_mod (x + 500000) 1000000 ltac:(lia)).
  pose proof (Z.mod_pos_bound (x + 500000) 1000000 ltac:(lia)).
  pose proof (Z.div_pos (x + 500000) 1000000 ltac:(lia) ltac:(lia)).
  apply duration_from_millis_Ok in Hd; [|lia]. subst d.
  split_and!; try lia. by exists m.
Qed.

Lemma rounded_period_Ok p d : 0 <= p -> jmeter_rounded_period p = Ok d -> rounds p d.
Proof.
  unfold jmeter_rounded_period. intros Hp H.
  apply res_bind_Ok in H as (sum & Hs & H).
  unfold u128_checked_add, ok_or in Hs. repeat case_match; simplify_eq.
  eapply rounds_intro; [done|reflexivity| |done]. lia.
Qed.

Lemma scaled_period_Ok p n d : 0 <= p -> 0 <= n -> jmeter_scaled_period p n = Ok d ->
  rounds (p * n) d.
Proof.
  unfold jmeter_scaled_period. intros Hp Hn H.
  apply res_bind_Ok in H as (x & Hx & H). apply res_bind_Ok in H as (sum & Hs & H).
  unfold u128_checked_mul, u128_checked_add, ok_or in *. repeat case_match; simplify_eq.
  eapply rounds_intro; [nia|reflexivity| |done]. lia.
Qed.

(** ** What a reservation does *)

(** The cursor a request moves: its scope's, or its own. *)
Inductive cursor_key := Shared (scope : ThroughputScope) | User (p : ThroughputParticipant).

#[global] Instance cursor_key_eq_dec : EqDecision cursor_key.
Proof. solve_decision. Defined.

Definition request_key (r : ThroughputRequest) (scope : ThroughputScope) : cursor_key :=
  if is_shared (tr_mode r) then Shared scope else User (participant_of r scope).

Definition cursor (s : ThroughputState) (k : cursor_key) : option Z :=
  match k with Shared scope => next_shared s !! scope | User p => next_per_user s !! p end.

Definition set_cursor (k : cursor_key) (v : Z) (s : ThroughputState) : ThroughputState :=
  match k with
  | Shared scope => set_next_shared (<[scope := v]> (next_shared s)) s
  | User p => set_next_per_user (<[p := v]> (next_per_user s)) s
  end.

(** The period a reservation keeps free after the moment it grants. *)
Definition effective_period (s : ThroughputState) (r : ThroughputRequest)
    (scope : ThroughputScope) : result ComponentError Z :=
  match tr_mode r with
  | AllActiveThreadsShared | AllActiveThreadsInCurrentThreadGroupShared =>
      jmeter_rounded_period (tr_period r)
  | ThisThreadOnly => Ok (tr_period r)
  | mode => jmeter_scaled_period (tr_period r)
              (Z.of_nat (size (active_users mode (tr_thread_group r) (participant_of r scope)
                                 (active_modes s))))
  end.

Definition activate (p : ThroughputParticipant) (s : ThroughputState) : ThroughputState :=
  if bool_decide (p ∈ active_modes s) then s
  else set_active_modes ({[ p ]} ∪ active_modes s) s.

(** The moment a request is granted in a state. *)
Definition grant_time (s : ThroughputState) (r : ThroughputRequest) (scope : ThroughputScope) : Z :=
  Z.max (default (tr_now r) (cursor s (request_key r scope))) (tr_now r).

Lemma t_reject_Ok b e s u s' : t_reject b e s = (Ok u, s') <-> b = false /\ s' = s.
Proof. unfold t_reject, st_fail, st_ret. destruct b, u; naive_solver. Qed.

Lemma delay_max a n : default 0 (duration_checked_sub a n) = Z.max a n - n.
Proof. unfold duration_checked_sub. case_match; simpl; lia. Qed.

Lemma advance_cursor_Ok c now period d t : advance_cursor c now period = Ok (d, t) ->
  now + d = Z.max (default now c) now /\ t = Z.max (default now c) now + period
  /\ t <= duration_max.
Proof.
  unfold advance_cursor, duration_checked_sub, duration_checked_add, ok_or.
  intros H. repeat case_match; simplify_eq/=; lia.
Qed.

(** The operations of the monad, run. *)
Ltac throughput_run H :=
  unfold st_bind, st_lift, st_get, st_ret, st_put, st_fail, t_reject, t_when, t_modify in H;
  cbn in H.

Lemma reserve_shared_Ok ms r scope p period s delay s' :
  reserve_shared ms r scope p (negb (bool_decide (p ∈ active_modes s))) period s = (Ok delay, s') ->
  let base := Z.max (default (tr_now r) (next_shared s !! scope)) (tr_now r) in
  tr_now r + delay = base /\ base + period <= duration_max
  /\ s' = activate p (set_cursor (Shared scope) (base + period) s).
Proof.
  unfold reserve_shared, activate. intros H. throughput_run H.
  destruct (_ && _); [done|].
  destruct (advance_cursor _ _ _) as [[d t]|?|] eqn:Ha; try done.
  apply advance_cursor_Ok in Ha as (? & -> & ?). cbn.
  destruct (bool_decide _); cbn in H; injection H as <- <-; done.
Qed.

Lemma reserve_user_Ok r p period s delay s' :
  reserve_user r p (negb (bool_decide (p ∈ active_modes s))) period s = (Ok delay, s') ->
  let base := Z.max (default (tr_now r) (next_per_user s !! p)) (tr_now r) in
  tr_now r + delay = base /\ base + period <= duration_max
  /\ s' = activate p (set_cursor (User p) (base + period) s).
Proof.
  unfold reserve_user, activate. intros H. throughput_run H.
  destruct (advance_cursor _ _ _) as [[d t]|?|] eqn:Ha; try done.
  apply advance_cursor_Ok in Ha as (? & -> & ?). cbn.
  destruct (bool_decide _); cbn in H; injection H as <- <-; done.
Qed.

Lemma reserve_shared_unchanged ms r scope p b period s res s' :
  reserve_shared ms r scope p b period s = (res, s') -> (forall d, res <> Ok d) -> s' = s.
Proof.
  unfold reserve_shared. intros H Hn. throughput_run H.
  destruct (_ && _); [by injection H as <- <-|].
  destruct (advance_cursor _ _ _) as [[d t]|?|]; [|by injection H as <- <-|by injection H as <- <-].
  destruct b; cbn in H; injection H as <- <-; by destruct (Hn d).
Qed.

Lemma reserve_user_unchanged r p b period s res s' :
  reserve_user r p b period s = (res, s') -> (forall d, res <> Ok d) -> s' = s.
Proof.
  unfold reserve_user. intros H Hn. throughput_run H.
  destruct (advance_cursor _ _ _) as [[d t]|?|]; [|by injection H as <- <-|by injection H as <- <-].
  destruct b; cbn in H; injection H as <- <-; by destruct (Hn d).
Qed.

Lemma st_bind_run {St E A B} (m : ST St E A) (k : A -> ST St E B) s res s' :
  st_bind m k s = (res, s') ->
  (exists a s1, m s = (Ok a, s1) /\ k a s1 = (res, s'))
  \/ ((exists e, m s = (Err e, s') /\ res = Err e) \/ (m s = (OutOfFuel, s') /\ res = OutOfFuel)).
Proof. unfold st_bind. destruct (m s) as [[a|e|] s1] eqn:E1; intros; simplify_eq; eauto 8. Qed.

(** A step that only reads: it leaves the state, and so does a run that stops
    in it. *)
Ltac reads H x Hx :=
  let s1 := fresh "s1" in let Hr := fresh "Hr" in
  apply st_bind_run in H as [(x & s1 & Hx & H)|[(? & Hx & Hr)|[Hx Hr]]];
  unfold t_reject, st_fail, st_ret, st_lift, st_get in Hx; cbv beta in Hx;
  [|first [discriminate Hr | try case_match; simplify_eq; done]..];
  try (match type of Hx with (if ?b then _ else _) _ = _ => destruct b eqn:? end; [done|]);
  injection Hx as Hx <-.

Lemma reserve_locked_unchanged mp ms r s res s' :
  reserve_locked mp ms r s = (res, s') -> (forall d, res <> Ok d) -> s' = s.
Proof.
  unfold reserve_locked. intros H Hn.
  reads H u Hv. reads H u1 Hz. reads H u2 Hb. cbv zeta in H.
  reads H period Hp. reads H scope Hs. reads H s0 H0. reads H u3 Hc.
  case_match; [by eapply reserve_shared_unchanged|].
  reads H u4 Hc'. case_match; [by eapply reserve_user_unchanged|].
  reads H u5 Hu. reads H sp Hsp. by eapply reserve_user_unchanged.
Qed.

Lemma reserve_locked_Ok mp ms r s delay s' : reserve_locked mp ms r s = (Ok delay, s') ->
  exists scope period,
    throughput_identity r = Ok (scope, participant_of r scope)
    /\ effective_period s r scope = Ok period /\ tr_period r <> 0
    /\ tr_now r + delay = grant_time s r scope
    /\ grant_time s r scope + period <= duration_max
    /\ s' = activate (participant_of r scope)
              (set_cursor (request_key r scope) (grant_time s r scope + period) s).
Proof.
  unfold reserve_locked. intros H.
  reads H u Hv. reads H u1 Hz. reads H u2 Hb. cbv zeta in H.
  reads H period Hp. reads H scope Hs. reads H s0 H0. subst s0. reads H u3 Hc.
  assert (Hid : throughput_identity r = Ok (scope, participant_of r scope)).
  { unfold throughput_identity. by rewrite Hv, Hs. }
  unfold grant_time, request_key, effective_period. exists scope.
  destruct (is_shared (tr_mode r)) eqn:Esh.
  - apply reserve_shared_Ok in H as (? & ? & ?). exists period.
    destruct (tr_mode r); try done; split_and!; auto; lia.
  - reads H u4 Hc'. case_bool_decide as Em.
    + apply reserve_user_Ok in H as (? & ? & ?). exists period. rewrite Em in *.
      split_and!; auto; lia.
    + reads H u5 Hu. reads H sp Hsp. apply reserve_user_Ok in H as (? & ? & ?). exists sp.
      destruct (tr_mode r); try done; split_and!; auto; lia.
Qed.

(** ** Histories *)

Inductive throughput_op :=
| OpReserve (r : ThroughputRequest) (generation : Z)
| OpCancel (r : ThroughputRequest) (generation : Z)
| OpAdvance.

(** A successful reservation with the generation, the cursor, the moment and
    the period it is for. *)
Record grant := mkGrant { g_generation : Z; g_key : cursor_key; g_slot : Z * Z }.

Definition grant_of (s : ThroughputState) (r : ThroughputRequest) (delay : Z) : option grant :=
  match throughput_scope r with
  | Ok scope =>
      match effective_period s r scope with
      | Ok period => Some (mkGrant (t_generation s) (request_key r scope) (tr_now r + delay, period))
      | _ => None
      end
  | _ => None
  end.

Section Histories.
Variables (mp ms : Z).

Definition throughput_step (op : throughput_op) (s : ThroughputState)
    : option grant * ThroughputState :=
  match op with
  | OpReserve r g =>
      match reserve_generation mp ms r g s with
      | (Ok delay, s') => (grant_of s r delay, s')
      | (_, s') => (None, s')
      end
  | OpCancel r g => (None, snd (cancel_generation r g s))
  | OpAdvance => (None, snd (t_advance_generation s))
  end.

Fixpoint history (ops : list throughput_op) (s : ThroughputState) : list grant * ThroughputState :=
  match ops with
  | [] => ([], s)
  | op :: ops' =>
      let (g, s1) := throughput_step op s in
      let (l, s2) := history ops' s1 in
      (match g with Some g => g :: l | None => l end, s2)
  end.

(** The slots granted to a cursor in a generation, in order. *)
Definition slots_of (g : Z) (k : cursor_key) (l : list grant) : list (Z * Z) :=
  g_slot <$> filter (fun x => g_generation x = g /\ g_key x = k) l.

(** An operation that forgets a user's cursor. *)
Definition cancels (k : cursor_key) (op : throughput_op) : bool :=
  match op, k with
  | OpCancel r _, User p =>
      match throughput_identity r with Ok (_, p') => bool_decide (p' = p) | _ => false end
  | _, _ => false
  end.

Lemma activate_generation p s : t_generation (activate p s) = t_generation s.
Proof. unfold activate. by case_match. Qed.

Lemma activate_cursor p s k : cursor (activate p s) k = cursor s k.
Proof. unfold activate. by case_match; destruct k. Qed.

Lemma set_cursor_generation k v s : t_generation (set_cursor k v s) = t_generation s.
Proof. by destruct k. Qed.

Lemma set_cursor_lookup k v s k' :
  cursor (set_cursor k v s) k' = if decide (k = k') then Some v else cursor s k'.
Proof.
  case_decide as E; [subst k'|]; destruct k; simpl; try apply lookup_insert_eq;
    destruct k'; simpl; try done; apply lookup_insert_ne; congruence.
Qed.

Lemma reserve_generation_run r g s res s' : reserve_generation mp ms r g s = (res, s') ->
  (t_generation s = g /\ reserve_locked mp ms r s = (res, s')) \/ ((forall d, res <> Ok d) /\ s' = s).
Proof.
  unfold reserve_generation, st_bind at 1, st_get, t_reject. intros H.
  destruct (t_generation s =? g) eqn:E; [left|right].
  - split; [lia|done].
  - simpl in H. unfold st_bind, st_fail in H. by simplify_eq.
Qed.

(** A reservation that succeeds is recorded, at or after its cursor, which it
    moves past its period; the other cursors stay. *)
Lemma step_reserve_Ok r g s delay s' : reserve_generation mp ms r g s = (Ok delay, s') ->
  t_generation s = g /\ t_generation s' = t_generation s
  /\ exists k time period, grant_of s r delay = Some (mkGrant g k (time, period))
     /\ match cursor s k with Some c => c <= time | None => True end
     /\ forall k', cursor s' k' = if decide (k = k') then Some (time + period) else cursor s k'.
Proof.
  intros [[Hg H]|[H _]]%reserve_generation_run; [|by destruct (H delay)].
  apply reserve_locked_Ok in H as (scope & period & Hid & Hp & _ & Ht & _ & ->).
  rewrite activate_generation, set_cursor_generation. split_and!; [done..|].
  exists (request_key r scope), (tr_now r + delay), period.
  unfold throughput_identity in Hid. apply res_bind_Ok in Hid as (u & _ & Hid).
  apply res_bind_Ok in Hid as (sc & Hs & Heq). simplify_eq.
  unfold grant_of. rewrite Hs, Hp. split_and!; [done| |].
  - rewrite Ht. unfold grant_time. destruct (cursor s _); simpl; [lia|done].
  - intros k'. by rewrite activate_cursor, set_cursor_lookup, <- Ht.
Qed.

Lemma cancel_generation_step r g s : let s' := snd (cancel_generation r g s) in
  t_generation s' = t_generation s
  /\ forall k, cancels k (OpCancel r g) = false -> cursor s' k = cursor s k.
Proof.
  unfold cancel_generation, st_bind, st_get, t_reject, st_lift, t_modify, st_put, st_ret, st_fail.
  destruct (t_generation s =? g); simpl; [|done].
  destruct (throughput_identity r) as [[sc p]|?|]; simpl; [|done..].
  split; [done|]. intros [scope|p']; simpl; [done|].
  case_bool_decide; [done|]. intros _. by apply lookup_delete_ne.
Qed.

Lemma advance_generation_step s : let s' := snd (t_advance_generation s) in
  s' = s \/ (t_generation s < t_generation s' /\ forall k, cursor s' k = None).
Proof.
  unfold t_advance_generation, st_bind, st_get, st_lift, t_modify, st_put, st_ret, ok_or.
  destruct (generation_next (t_generation s)) as [g|] eqn:E; simpl; [|by left].
  right. unfold generation_next, u64_checked_add, generation_new in E.
  repeat case_match; simplify_eq. split; [lia|]. by intros [].
Qed.

Lemma failed_reserve_step r g s res s' : reserve_generation mp ms r g s = (res, s') ->
  (forall d, res <> Ok d) -> s' = s.
Proof.
  intros [[_ H]|[_ ->]]%reserve_generation_run Hn; [|done].
  by eapply reserve_locked_unchanged.
Qed.

Lemma throughput_step_generation op s : t_generation s <= t_generation (snd (throughput_step op s)).
Proof.
  destruct op as [r g|r g|]; simpl.
  - destruct (reserve_generation mp ms r g s) as [[d|e|] s'] eqn:E; simpl.
    + apply step_reserve_Ok in E as (_ & -> & _). lia.
    + by rewrite (failed_reserve_step _ _ _ _ _ E).
    + by rewrite (failed_reserve_step _ _ _ _ _ E).
  - pose proof (cancel_generation_step r g s) as [-> _]. lia.
  - pose proof (advance_generation_step s) as [->|[? _]]; lia.
Qed.

(** How one step moves a cursor of a generation. *)
Definition live (g : Z) (k : cursor_key) (s : ThroughputState) : option Z :=
  if t_generation s =? g then cursor s k else None.

Lemma history_old g k ops : forall s, g < t_generation s -> slots_of g k (history ops s).1 = [].
Proof.
  induction ops as [|op ops IH]; intros s Hs; [done|]. simpl.
  pose proof (throughput_step_generation op s) as Hle.
  destruct (throughput_step op s) as [o s1] eqn:E. simpl in Hle.
  specialize (IH s1 ltac:(lia)). destruct (history ops s1) as [l s2]. simpl in *.
  destruct o as [x|]; [|done]. unfold slots_of in *. rewrite filter_cons_False; [done|].
  destruct op as [r g'|r g'|]; simpl in E; [|by simplify_eq..].
  destruct (reserve_generation mp ms r g' s) as [[d|e|] s'] eqn:Er; simplify_eq.
  apply step_reserve_Ok in Er as (? & _ & k' & t & p & Hx & _). rewrite Hx in *. simplify_eq. simpl.
  intros [? _]. lia.
Qed.

(** Every cursor that no cancellation forgets grants paced slots. *)
Lemma history_paced g k ops : forall s, Forall (fun op => cancels k op = false) ops ->
  paced (live g k s) (slots_of g k (history ops s).1).
Proof.
  induction ops as [|op ops IH]; intros s Hc; [done|]. inversion Hc as [|? ? Hop Hops]; subst.
  destruct op as [r g'|r g'|]; simpl.
  - destruct (reserve_generation mp ms r g' s) as [res s1] eqn:E.
    specialize (IH s1 Hops). destruct (history ops s1) as [l s2] eqn:El.
    destruct res as [d|e|];
      [|rewrite (failed_reserve_step _ _ _ _ _ E) in IH by done; by rewrite El..].
    apply step_reserve_Ok in E as (Hg & Hg1 & k' & t & p & -> & Hle & Hcur). rewrite El. simpl in *.
unfold slots_of, live in *. rewrite Hg1, Hcur in IH.
    destruct (decide (t_generation s = g /\ k' = k)) as [[Hgen ->]|Hne].
    + rewrite filter_cons_True by (simpl; split; [lia|done]).
      rewrite decide_True in IH by done.
      replace (t_generation s =? g) with true in * by lia. done.
    + rewrite filter_cons_False by (simpl; intros [? ?]; apply Hne; split; [lia|done]).
      destruct (t_generation s =? g) eqn:Eg; [|done].
      rewrite decide_False in IH; [done|]. intros ->. apply Hne. split; [lia|done].
  - pose proof (cancel_generation_step r g' s) as [Hg Hcur].
    specialize (IH (snd (cancel_generation r g' s)) Hops). unfold live in *.
    rewrite Hg, Hcur in IH by done. by destruct (history ops _).
  - pose proof (advance_generation_step s) as [Hs|[Hlt Hcur]].
    + specialize (IH (snd (t_advance_generation s)) Hops). rewrite Hs in IH.
      rewrite Hs. by destruct (history ops s).
    + pose proof (IH (snd (t_advance_generation s)) Hops) as IH'. unfold live in *.
      destruct (t_generation s =? g) eqn:Eg.
      * pose proof (history_old g k ops (snd (t_advance_generation s)) ltac:(lia)) as Ho.
        destruct (history ops _) as [l s2]. simpl in *. by rewrite Ho.
      * rewrite Hcur in IH'. destruct (history ops _). by destruct (_ =? g).
Qed.

(** The requests of a history that use a cursor ask for periods of at least [q]. *)
Definition asks (k : cursor_key) (q : Z) (op : throughput_op) : bool :=
  match op with
  | OpReserve r _ =>
      match throughput_scope r with
      | Ok scope => if decide (request_key r scope = k) then q <=? tr_period r else true
      | _ => true
      end
  | _ => true
  end.

Lemma rounds_above x d q : rounds x d -> (1000000 | q) -> q <= x -> q <= d.
Proof. intros ([a ->] & ? & ?) [b ->] ?. lia. Qed.

Lemma active_users_pos mode group p s : 1 <= Z.of_nat (size (active_users mode group p s)).
Proof.
  assert (size (active_users mode group p s) <> 0%nat); [|lia].
  intros H%size_empty_inv. unfold active_users in H. set_solver.
Qed.

Lemma effective_period_above s r scope d q : effective_period s r scope = Ok d ->
  (1000000 | q) -> 0 < q -> q <= tr_period r -> q <= d.
Proof.
  unfold effective_period. intros H Hd Hq Hp.
  destruct (tr_mode r) eqn:Em; simplify_eq; try done.
  1, 2: apply scaled_period_Ok in H; [|lia..]; eapply rounds_above; [done..|];
    pose proof (active_users_pos (tr_mode r) (tr_thread_group r) (participant_of r scope)
                  (active_modes s)); rewrite Em in *; nia.
  all: apply rounded_period_Ok in H; [|lia]; by eapply rounds_above.
Qed.

Lemma history_periods g k q ops : (1000000 | q) -> 0 < q -> forall s,
  Forall (fun op => asks k q op = true) ops ->
  Forall (fun a => q <= snd a) (slots_of g k (history ops s).1).
Proof.
  intros Hd Hq. induction ops as [|op ops IH]; intros s Ha; [constructor|].
  inversion Ha as [|? ? Hop Hops]; subst. simpl.
  destruct (throughput_step op s) as [o s1] eqn:E.
  specialize (IH s1 Hops). destruct (history ops s1) as [l s2]. simpl in *.
  destruct o as [x|]; [|done]. unfold slots_of in *. rewrite filter_cons.
  destruct (decide _) as [[_ Hk]|]; [|done]. constructor; [|done].
  destruct op as [r g'|r g'|]; simpl in E; [|by simplify_eq..].
  destruct (reserve_generation mp ms r g' s) as [[d|e|] s'] eqn:Er; simplify_eq.
  unfold grant_of in *. simpl in Hop.
  destruct (throughput_scope r) as [scope|?|]; [|done..].
  destruct (effective_period s r scope) as [p|?|] eqn:Ep; simplify_eq. simpl in *.
  rewrite decide_True in Hop by done. eapply effective_period_above; eauto. lia.
Qed.

(** ** Bookkeeping *)

Record throughput_ok (s : ThroughputState) : Prop := {
  ok_active : Z.of_nat (size (active_modes s)) <= mp;
  ok_shared : Z.of_nat (size (next_shared s)) <= ms;
  ok_users : dom (next_per_user s) ⊆ active_modes s;
  ok_cursors : forall k c, cursor s k = Some c -> c <= duration_max
}.

Lemma reserve_locked_room r s d s' : reserve_locked mp ms r s = (Ok d, s') ->
  exists scope, throughput_scope r = Ok scope
    /\ (participant_of r scope ∉ active_modes s -> Z.of_nat (size (active_modes s)) < mp)
    /\ (is_shared (tr_mode r) = true -> next_shared s !! scope = None ->
        Z.of_nat (size (next_shared s)) < ms).
Proof.
  unfold reserve_locked. intros H.
  reads H u Hv. reads H u1 Hz. reads H u2 Hb. cbv zeta in H.
  reads H period Hp. reads H scope Hs. reads H s0 H0. subst s0. reads H u3 Hc.
  exists scope. split_and!; [done| |].
  - intros Hnot. rewrite bool_decide_eq_false_2 in * by done. simpl in *. lia.
  - intros Hsh Hnone. rewrite Hsh in H. unfold reserve_shared in H. reads H s0 H0. subst s0.
    reads H u4 Hc'. rewrite bool_decide_eq_true_2 in * by done. simpl in *. lia.
Qed.

Lemma size_insert_le {K} `{Countable K} (m : gmap K Z) k v n :
  Z.of_nat (size m) <= n -> (m !! k = None -> Z.of_nat (size m) < n) ->
  Z.of_nat (size (<[k := v]> m)) <= n.
Proof.
  intros Hm Hk. destruct (m !! k) as [x|] eqn:E.
  - rewrite map_size_insert_Some by eauto. lia.
  - rewrite map_size_insert_None by done. specialize (Hk eq_refl). lia.
Qed.

Lemma activate_ok p s : throughput_ok s ->
  (p ∉ active_modes s -> Z.of_nat (size (active_modes s)) < mp) -> throughput_ok (activate p s).
Proof.
  intros [Ha Hs Hu Hc] Hroom. unfold activate. case_bool_decide; [done|].
  constructor; simpl; [|done|set_solver|].
  - rewrite size_union by set_solver. rewrite size_singleton. specialize (Hroom ltac:(done)). lia.
  - intros k c H1. by apply (Hc k c); destruct k.
Qed.

Lemma reserve_ok r s d s' : throughput_ok s -> reserve_locked mp ms r s = (Ok d, s') ->
  throughput_ok s'.
Proof.
  intros [Ha Hs Hu Hc] H.
  pose proof (reserve_locked_room _ _ _ _ H) as (sc & Hsc & Hroom & Hscope).
  apply reserve_locked_Ok in H as (scope & p & Hid & _ & _ & _ & Hle & ->).
  unfold throughput_identity in Hid. apply res_bind_Ok in Hid as (u & _ & Hid).
  rewrite Hsc in Hid. simpl in Hid. simplify_eq.
  assert (Hcur : forall k c, cursor (set_cursor (request_key r scope) (grant_time s r scope + p) s) k
                 = Some c -> c <= duration_max).
  { intros k c. rewrite set_cursor_lookup. case_decide; [intros; simplify_eq; lia|apply Hc]. }
  unfold request_key in *. destruct (is_shared (tr_mode r)).
  - apply activate_ok; [|done]. constructor; simpl; [done| |done|done].
    apply size_insert_le; auto.
  - unfold activate. case_bool_decide as Hin; simpl in Hin.
    + constructor; simpl; [done|done| |done]. rewrite dom_insert_L. set_solver.
    + constructor; simpl; [|done|rewrite dom_insert_L; set_solver|].
      * rewrite size_union by set_solver. rewrite size_singleton. specialize (Hroom Hin). lia.
      * intros k c Hk. by apply (Hcur k c); destruct k.
Qed.

Lemma cancel_ok r g s : throughput_ok s -> throughput_ok (snd (cancel_generation r g s)).
Proof.
  intros Hok. unfold cancel_generation, st_bind, st_get, t_reject, st_lift, t_modify, st_put,
    st_ret, st_fail.
  destruct (t_generation s =? g); simpl; [|done].
  destruct (throughput_identity r) as [[sc p]|?|]; simpl; [|done..].
  destruct Hok as [Ha Hs Hu Hc]. constructor; simpl.
  - pose proof (subseteq_size (active_modes s ∖ {[p]}) (active_modes s) ltac:(set_solver)). lia.
  - done.
  - rewrite dom_delete_L. set_solver.
  - intros [scope|p'] c H1; simpl in *; [by apply (Hc (Shared scope))|].
    apply lookup_delete_Some in H1 as [_ H1]. by apply (Hc (User p')).
Qed.

Lemma advance_ok s : 0 <= mp -> 0 <= ms -> throughput_ok s ->
  throughput_ok (snd (t_advance_generation s)).
Proof.
  intros Hmp Hms Hok. unfold t_advance_generation, st_bind, st_get, st_lift, t_modify, st_put,
    st_ret, ok_or.
  destruct (generation_next (t_generation s)); simpl; [|done].
  constructor; cbn [active_modes next_shared next_per_user set_active_modes set_next_per_user
    set_next_shared set_t_generation].
  - rewrite size_empty. lia.
  - rewrite map_size_empty. lia.
  - rewrite dom_empty_L. set_solver.
  - by intros [].
Qed.

Lemma throughput_step_ok op s : 0 <= mp -> 0 <= ms -> throughput_ok s ->
  throughput_ok (snd (throughput_step op s)).
Proof.
  intros Hmp Hms Hok. destruct op as [r g|r g|]; simpl; auto using cancel_ok, advance_ok.
  destruct (reserve_generation mp ms r g s) as [res s'] eqn:E.
  destruct res as [d|e|]; simpl; [|by rewrite (failed_reserve_step _ _ _ _ _ E)..].
  apply reserve_generation_run in E as [[_ E]|[E _]]; [|by destruct (E d)].
  by eapply reserve_ok.
Qed.
End Histories.

(** A boolean fact about each element of a concrete list. *)
Ltac each_by_vm := repeat (apply Forall_cons_2; [vm_compute; reflexivity|]); apply Forall_nil_2.

(** Sample requests: a user of group [g] asking for a slot every 100 ms. *)
Definition sample_request (mode : ConstantThroughputMode) (name : string) (now : Z)
    : ThroughputRequest :=
  mkThroughputRequest mode 100000000 now name (Some "g") (Some 1) None.

Definition sample_ops : list throughput_op :=
  [ OpReserve (sample_request AllActiveThreadsShared "u1" 0) 1;
    OpReserve (sample_request AllActiveThreadsShared "u2" 5) 1;
    OpReserve (sample_request AllActiveThreads "u1" 7) 1;
    OpCancel (sample_request AllActiveThreadsShared "u2" 5) 1;
    OpReserve (sample_request AllActiveThreads "u1" 8) 1;
    OpReserve (sample_request AllActiveThreadsShared "u3" 3) 1;
    OpAdvance;
    OpReserve (sample_request AllActiveThreadsShared "u1" 9) 1 ].

(** ** Properties of the coordinator *)

(** No interleaving of reservations, cancellations and generation changes, with whatever clock
    readings, lets a shared scope start more samples than its target: when every request for the
    scope asks for a period of at least [q], a positive whole number of milliseconds, then of the
    moments granted in one generation [n] fall into a window of length [w] only if [n - 1] whole
    periods are shorter than [w]. *)
Theorem shared_rate_bounded mp ms s ops g scope q t w :
  (1000000 | q) -> 0 < q -> 0 < w -> Forall (fun op => asks (Shared scope) q op = true) ops ->
  (Z.of_nat (length (filter (in_window t w) (slots_of g (Shared scope) (history mp ms ops s).1))) - 1)
    * q < w.
Proof.
  intros Hd Hq Hw Ha. apply (paced_rate (live g (Shared scope) s)); [done..| |].
  - by apply history_periods.
  - apply history_paced, Forall_forall. by intros [] _.
Qed.

Lemma shared_rate_bounded_witness :
  slots_of 1 (Shared Global) (history 10 10 sample_ops throughput_default).1
    = [(0, 100000000); (100000000, 100000000); (200000000, 100000000)]
  /\ (Z.of_nat (length (filter (in_window 0 150000000)
        (slots_of 1 (Shared Global) (history 10 10 sample_ops throughput_default).1))) - 1)
      * 100000000 < 150000000.
Proof.
  split; [vm_compute; reflexivity|].
  apply (shared_rate_bounded 10 10 throughput_default sample_ops 1 Global 100000000 0 150000000).
  - by exists 100.
  - lia.
  - lia.
  - unfold sample_ops. each_by_vm.
Defined.

(** A user's own slots, in the modes that pace each user, never overlap while nobody cancels the
    user: in any history each granted moment lies at least the effective period of every earlier
    grant after it, the period being the requested one times the number of active users, rounded to
    a millisecond. *)
Theorem user_grants_spaced mp ms s ops g p q :
  (1000000 | q) -> 0 < q -> Forall (fun op => cancels (User p) op = false) ops ->
  Forall (fun op => asks (User p) q op = true) ops ->
  StronglySorted after (slots_of g (User p) (history mp ms ops s).1)
  /\ Forall (fun a => q <= snd a) (slots_of g (User p) (history mp ms ops s).1).
Proof.
  intros Hd Hq Hc Ha. pose proof (history_periods mp ms g (User p) q ops Hd Hq s Ha) as Hp.
  split; [|done]. eapply paced_sorted; [|by apply history_paced].
  eapply Forall_impl; [exact Hp|]. simpl. lia.
Qed.

Lemma user_grants_spaced_witness :
  let p := participant_of (sample_request AllActiveThreads "u1" 7) Global in
  slots_of 1 (User p) (history 10 10 sample_ops throughput_default).1
    = [(7, 200000000); (200000007, 100000000)]
  /\ StronglySorted after (slots_of 1 (User p) (history 10 10 sample_ops throughput_default).1)
  /\ Forall (fun a => 100000000 <= snd a)
       (slots_of 1 (User p) (history 10 10 sample_ops throughput_default).1).
Proof.
  intros p. split; [vm_compute; reflexivity|].
  apply (user_grants_spaced 10 10 throughput_default sample_ops 1 p 100000000).
  - by exists 100.
  - lia.
  - unfold sample_ops. each_by_vm.
  - unfold sample_ops. each_by_vm.
Defined.

Lemma history_ok mp ms ops : 0 <= mp -> 0 <= ms -> forall s,
  throughput_ok mp ms s -> throughput_ok mp ms (history mp ms ops s).2.
Proof.
  intros Hmp Hms. induction ops as [|op ops IH]; intros s Hok; [done|]. simpl.
  pose proof (throughput_step_ok mp ms op s Hmp Hms Hok) as H1.
  destruct (throughput_step mp ms op s) as [o s1]. specialize (IH s1 H1).
  by destruct (history mp ms ops s1).
Qed.

(** A coordinator stays within the bounds it was made with: after any history of a fresh
    coordinator there are at most the configured participants and scopes, never more than the
    built-in maxima, every user with a cursor is an active participant, and every cursor is a
    representable duration. *)
Theorem throughput_bookkeeping a b ops : 0 <= a -> 0 <= b ->
  let limits := throughput_limits a b in
  let s := (history limits.1 limits.2 ops throughput_default).2 in
  throughput_ok limits.1 limits.2 s
  /\ Z.of_nat (size (next_per_user s)) <= MAX_THROUGHPUT_PARTICIPANTS
  /\ Z.of_nat (size (next_shared s)) <= MAX_THROUGHPUT_SCOPES.
Proof.
  intros Ha Hb limits s.
  assert (Hok : throughput_ok limits.1 limits.2 s).
  { apply history_ok; [unfold limits, throughput_limits, MAX_THROUGHPUT_PARTICIPANTS; simpl; lia
      | unfold limits, throughput_limits, MAX_THROUGHPUT_SCOPES; simpl; lia|].
    constructor; unfold throughput_default; cbn [active_modes next_shared next_per_user].
    - rewrite size_empty. unfold limits, throughput_limits, MAX_THROUGHPUT_PARTICIPANTS. simpl. lia.
    - rewrite map_size_empty. unfold limits, throughput_limits, MAX_THROUGHPUT_SCOPES. simpl. lia.
    - rewrite dom_empty_L. set_solver.
    - by intros []. }
  split; [done|]. destruct Hok as [H1 H2 H3 _].
  apply subseteq_size in H3. rewrite size_dom in H3.
  unfold limits, throughput_limits in *. simpl in *. lia.
Qed.

Lemma throughput_bookkeeping_witness :
  let s := (history 2 1 sample_ops throughput_default).2 in
  throughput_ok 2 1 s /\ Z.of_nat (size (next_per_user s)) <= MAX_THROUGHPUT_PARTICIPANTS
  /\ Z.of_nat (size (next_shared s)) <= MAX_THROUGHPUT_SCOPES.
Proof. apply (throughput_bookkeeping 2 1 sample_ops); lia. Defined.

(** An operation that fails changes nothing: a refused reservation (a stale generation, an
    invalid identity or period, a full table, an overflowing target), a refused cancellation and a
    generation counter at its end leave the coordinator as it was. *)
Theorem throughput_failure_unchanged mp ms r g s :
  (forall res s', reserve_generation mp ms r g s = (res, s') -> (forall d, res <> Ok d) -> s' = s)
  /\ (forall res s', cancel_generation r g s = (res, s') -> (forall b, res <> Ok b) -> s' = s)
  /\ (forall res s', t_advance_generation s = (res, s') -> (forall n, res <> Ok n) -> s' = s).
Proof.
  split_and!; intros res s' H Hn.
  - by eapply failed_reserve_step.
  - unfold cancel_generation, st_bind, st_get, t_reject, st_lift, t_modify, st_put, st_ret,
      st_fail in H.
    destruct (t_generation s =? g); simpl in H; [|by injection H as <- <-].
    destruct (throughput_identity r) as [[sc p]|?|]; simpl in H; injection H as <- <-; try done.
    by destruct (Hn _ eq_refl).
  - unfold t_advance_generation, st_bind, st_get, st_lift, t_modify, st_put, st_ret, ok_or in H.
    destruct (generation_next (t_generation s)); simpl in H; injection H as <- <-; [|done].
    by destruct (Hn z).
Qed.

(** ** Bursts *)

Lemma throughput_identity_scope r scope p : throughput_identity r = Ok (scope, p) ->
  validate_throughput_request r = Ok () /\ throughput_scope r = Ok scope /\ p = participant_of r scope.
Proof.
  unfold throughput_identity. intros H. apply res_bind_Ok in H as ([] & Hv & H).
  apply res_bind_Ok in H as (sc & Hs & H). by simplify_eq.
Qed.

Lemma validate_identity r : validate_throughput_request r = Ok () ->
  bad_identity (tr_thread_name r) (tr_thread_group r) = false.
Proof. unfold validate_throughput_request. by destruct (bad_identity _ _). Qed.

Lemma advance_cursor_small c now period : Z.max c now + period <= duration_max ->
  advance_cursor (Some c) now period = Ok (Z.max c now - now, Z.max c now + period).
Proof.
  intros H. unfold advance_cursor, duration_checked_sub, duration_checked_add, ok_or. simpl.
  repeat case_match; simplify_eq/=; try lia; do 2 f_equal; lia.
Qed.

(** A shared scope with a cursor serves an active participant. *)
Lemma reserve_shared_again mp ms r s scope period c :
  throughput_identity r = Ok (scope, participant_of r scope) -> tr_period r <> 0 ->
  is_shared (tr_mode r) = true -> jmeter_rounded_period (tr_period r) = Ok period ->
  participant_of r scope ∈ active_modes s -> next_shared s !! scope = Some c ->
  Z.max c (tr_now r) + period <= duration_max ->
  reserve_locked mp ms r s
    = (Ok (Z.max c (tr_now r) - tr_now r),
       set_next_shared (<[scope := Z.max c (tr_now r) + period]> (next_shared s)) s).
Proof.
  intros (Hv & Hs & _)%throughput_identity_scope Hz Hsh Hp Hin Hc Hle.
  pose proof (validate_identity r Hv) as Hb.
  unfold reserve_locked, reserve_shared, st_bind, st_lift, t_reject, st_ret, st_get.
  rewrite Hv, Hb, Hsh, Hp, Hs. replace (tr_period r =? 0) with false by lia.
  rewrite (bool_decide_eq_true_2 _ Hin). cbn [negb andb].
  rewrite Hc. cbn [andb]. rewrite bool_decide_eq_false_2 by done. cbn [andb].
  by rewrite advance_cursor_small.
Qed.

Fixpoint burst (mp ms : Z) (r : ThroughputRequest) (n : nat) (s : ThroughputState)
    : list (result ComponentError Z) :=
  match n with
  | O => []
  | S n' => let (res, s') := reserve_locked mp ms r s in res :: burst mp ms r n' s'
  end.

Lemma burst_from mp ms r scope period n : forall s c,
  throughput_identity r = Ok (scope, participant_of r scope) -> tr_period r <> 0 ->
  is_shared (tr_mode r) = true -> jmeter_rounded_period (tr_period r) = Ok period -> 0 < period ->
  participant_of r scope ∈ active_modes s -> next_shared s !! scope = Some c -> tr_now r <= c ->
  c + Z.of_nat n * period <= duration_max ->
  burst mp ms r n s = (fun i => Ok (c - tr_now r + Z.of_nat i * period)) <$> seq 0 n.
Proof.
  induction n as [|n IH]; intros s c Hid Hz Hsh Hp Hpos Hin Hc Hle Hmax; [done|].
  cbn [burst seq fmap list_fmap].
  rewrite (reserve_shared_again mp ms r s scope period c) by (done || lia).
  f_equal; [f_equal; lia|].
  rewrite (IH _ (c + period)) by
    (done || lia || (simpl; rewrite lookup_insert_eq; f_equal; lia)).
  rewrite <- fmap_S_seq, <- list_fmap_compose. apply list_fmap_ext. intros i x _. simpl. f_equal. lia.
Qed.

(** A burst is spread evenly: once a shared scope has granted a request, further identical
    requests at the same moment are granted at exactly one period after the other, the first of
    them a period after the grant, and none of them fails while the times are representable. *)
Theorem shared_burst_spread mp ms r s d s' period n :
  0 <= tr_period r -> is_shared (tr_mode r) = true ->
  jmeter_rounded_period (tr_period r) = Ok period ->
  reserve_locked mp ms r s = (Ok d, s') ->
  tr_now r + d + (Z.of_nat n + 1) * period <= duration_max ->
  burst mp ms r n s' = (fun i => Ok (d + (Z.of_nat i + 1) * period)) <$> seq 0 n.
Proof.
  intros Hp0 Hsh Hp H Hmax.
  pose proof (rounded_period_Ok _ _ Hp0 Hp) as (_ & Hpos & _).
  apply reserve_locked_Ok in H as (scope & p & Hid & He & Hz & Hd & _ & ->).
  assert (p = period) as ->.
  { unfold effective_period in He. destruct (tr_mode r); try done; congruence. }
  assert (Hnow : tr_now r <= grant_time s r scope) by (unfold grant_time; lia).
  unfold request_key in *. rewrite Hsh in *.
  rewrite (burst_from mp ms r scope period n _ (grant_time s r scope + period)); try done; try lia.
  - apply list_fmap_ext. intros i x _. f_equal. lia.
  - unfold activate. case_bool_decide; simpl; set_solver.
  - unfold activate. case_bool_decide; simpl; apply lookup_insert_eq.
Qed.

Lemma shared_burst_spread_witness :
  let r := sample_request AllActiveThreadsShared "u1" 5 in
  let run := reserve_locked 10 10 r throughput_default in
  run.1 = Ok 0 /\ burst 10 10 r 3 run.2 = [Ok 100000000; Ok 200000000; Ok 300000000].
Proof.
  intros r run. assert (H : run.1 = Ok 0) by (vm_compute; reflexivity). split; [exact H|].
  apply (shared_burst_spread 10 10 r throughput_default 0 run.2 100000000 3);
    [vm_compute; discriminate|reflexivity|vm_compute; reflexivity| |vm_compute; discriminate].
  rewrite <- H. apply surjective_pairing.
Defined.

(** ** The timers *)

Section TimerHistories.
Context {St : Type}.
Implicit Types (coordinator : option (ThroughputCoordinator St)) (st : option Z * St).

(** The slots a timer's callers are granted, in order. *)
Fixpoint timer_slots (coordinator : option (ThroughputCoordinator St))
    (calls : list (ConstantThroughputTimer * TimerContext)) (st : option Z * St) : list (Z * Z) :=
  match calls with
  | [] => []
  | (timer, c) :: calls' =>
      let (res, st') := timer_delay coordinator timer c st in
      match res with
      | Ok d => (tc_now c + d, ct_period timer) :: timer_slots coordinator calls' st'
      | _ => timer_slots coordinator calls' st'
      end
  end.

Lemma local_delay coordinator timer c next (st : St) : ct_mode timer = ThisThreadOnly ->
  let base := Z.max (default (tc_now c) next) (tc_now c) in
  timer_delay coordinator timer c (next, st)
  = if base + ct_period timer <=? duration_max
    then (Ok (base - tc_now c), (Some (base + ct_period timer), st))
    else (Err (ResourceLimit "throughput target time"), (next, st)).
Proof.
  intros Hm. unfold timer_delay, duration_checked_add. rewrite Hm, bool_decide_eq_false_2 by auto.
  destruct next as [n|]; simpl.
  - rewrite delay_max. by destruct (_ <=? _).
  - rewrite Z.max_id, Z.sub_diag. by destruct (_ <=? _).
Qed.

Lemma local_slots_paced coordinator calls : forall next (st : St),
  Forall (fun x => ct_mode x.1 = ThisThreadOnly) calls ->
  paced next (timer_slots coordinator calls (next, st)).
Proof.
  induction calls as [|[timer c] calls IH]; intros next st Hm; [done|].
  inversion Hm as [|? ? Hm1 Hm2]; subst. cbn [timer_slots].
  rewrite local_delay by done. destruct (_ <=? duration_max); [|by apply IH].
  cbn [paced]. replace (tc_now c + (Z.max (default (tc_now c) next) (tc_now c) - tc_now c))
    with (Z.max (default (tc_now c) next) (tc_now c)) by lia.
  split; [destruct next; simpl; [lia|done]|by apply IH].
Qed.

Lemma timer_slots_periods coordinator calls q : forall st,
  Forall (fun x => q <= ct_period x.1) calls ->
  Forall (fun a => q <= snd a) (timer_slots coordinator calls st).
Proof.
  induction calls as [|[timer c] calls IH]; intros st Hq; [constructor|].
  inversion Hq; subst. simpl. destruct (timer_delay coordinator timer c st) as [[d|e|] st'];
    [constructor; [done|]|..]; by apply IH.
Qed.
End TimerHistories.

(** A timer that paces its own thread needs no coordinator and keeps its target: of the moments
    it lets samples start, [n] fall into a window of length [w] only if [n - 1] periods are shorter
    than [w], whatever the clock shows. *)
Theorem local_timer_rate {St} (coordinator : option (ThroughputCoordinator St)) calls next st q t w :
  0 < q -> 0 < w -> Forall (fun x => ct_mode x.1 = ThisThreadOnly) calls ->
  Forall (fun x => q <= ct_period x.1) calls ->
  (Z.of_nat (length (filter (in_window t w) (timer_slots coordinator calls (next, st)))) - 1) * q < w.
Proof.
  intros Hq Hw Hm Hp. apply (paced_rate next); [done|done| |].
  - by apply timer_slots_periods.
  - by apply local_slots_paced.
Qed.

Definition sample_context (now : Z) : TimerContext := mkTimerContext now "u1" (Some "g") (Some 1) None.

Definition sample_calls (mode : ConstantThroughputMode)
    : list (ConstantThroughputTimer * TimerContext) :=
  [(mkTimer 100000000 mode, sample_context 0); (mkTimer 100000000 mode, sample_context 3);
   (mkTimer 100000000 mode, sample_context 2)].

Lemma local_timer_rate_witness :
  (Z.of_nat (length (filter (in_window 0 150000000)
     (timer_slots (St := ()) None (sample_calls ThisThreadOnly) (None, ())))) - 1) * 100000000
  < 150000000.
Proof.
  apply (local_timer_rate (St := ()) None (sample_calls ThisThreadOnly) None () 100000000 0 150000000).
  - lia.
  - lia.
  - repeat (apply Forall_cons_2; [reflexivity|]); apply Forall_nil_2.
  - repeat (apply Forall_cons_2; [simpl; lia|]); apply Forall_nil_2.
Defined.

(** The reservation a timer call makes of the coordinator. *)
Definition call_ops (g : Z) (calls : list (ConstantThroughputTimer * TimerContext))
    : list throughput_op :=
  (fun x => OpReserve (timer_request x.1 x.2) g) <$> filter (fun x =>
     bad_timer_name (tc_thread_name x.2)
     || match tc_thread_group x.2 with Some gr => bad_timer_name gr | None => false end = false) calls.

(** Timers of the run-wide shared mode, run one after the other, get exactly
    the moments the coordinator's history grants. *)
Lemma shared_slots_history a b calls : forall next s,
  Forall (fun x => ct_mode x.1 = AllActiveThreadsShared) calls ->
  fst <$> timer_slots (Some (deterministic_coordinator a b)) calls (next, s)
  = fst <$> slots_of (t_generation s) (Shared Global)
      (history (throughput_limits a b).1 (throughput_limits a b).2
         (call_ops (t_generation s) calls) s).1.
Proof.
  induction calls as [|[timer c] calls IH]; intros next s Hm; [done|].
  inversion Hm as [|? ? Hm1 Hm2]; subst. simpl in Hm1. unfold call_ops in *.
  cbn [timer_slots timer_delay]. rewrite bool_decide_eq_true_2 by (rewrite Hm1; discriminate).
  rewrite filter_cons. cbn [fst snd].
  destruct (bad_timer_name _ || _) eqn:Eb.
  { rewrite decide_False by discriminate. by apply IH. }
  rewrite decide_True by done. cbn [fmap list_fmap history throughput_step coordinator_reserve
    deterministic_coordinator]. unfold throughput_reserve, t_generation_get, st_bind, st_get, st_ret.
  cbn [fst snd]. set (mp := (throughput_limits a b).1). set (ms := (throughput_limits a b).2).
  destruct (reserve_generation mp ms (timer_request timer c) (t_generation s) s)
    as [[d|e|] s1] eqn:E.
  2, 3: rewrite (failed_reserve_step _ _ _ _ _ _ _ E) by done;
    rewrite (IH next s Hm2); by destruct (history _ _ _ s).
  apply step_reserve_Ok in E as (_ & Hg & k & time & p & Hgr & _).
  rewrite Hgr. unfold grant_of in Hgr. unfold throughput_scope, request_key in Hgr.
  cbn [tr_mode timer_request] in Hgr. rewrite Hm1 in Hgr. cbn [is_shared] in Hgr.
  destruct (effective_period s (timer_request timer c) Global) as [p'|?|]; simplify_eq.
  rewrite fmap_cons, (IH next s1 Hm2), Hg. fold mp ms.
  destruct (history mp ms _ s1) as [l s2]. unfold slots_of. cbn [fst].
  rewrite filter_cons_True by done. done.
Qed.

Lemma window_times t w (l : list (Z * Z)) :
  length (filter (fun x => t <= x < t + w) (fst <$> l)) = length (filter (in_window t w) l).
Proof.
  induction l as [|[g p] l IH]; [done|]. rewrite fmap_cons, !filter_cons. unfold in_window at 1.
  cbn [fst]. repeat case_decide; simpl; try lia; tauto.
Qed.

Lemma call_ops_asks g q calls :
  Forall (fun x => ct_mode x.1 = AllActiveThreadsShared) calls ->
  Forall (fun x => q <= ct_period x.1) calls ->
  Forall (fun op => asks (Shared Global) q op = true) (call_ops g calls).
Proof.
  intros Hm Hq. unfold call_ops. apply Forall_fmap, Forall_forall. intros x Hx.
  apply list_elem_of_filter in Hx as [_ Hx]. rewrite Forall_forall in Hm, Hq.
  specialize (Hm x Hx). specialize (Hq x Hx). unfold asks, compose, throughput_scope, request_key.
  cbn [tr_mode timer_request tr_period]. rewrite Hm. cbn [is_shared].
  rewrite decide_True by done. lia.
Qed.

(** C10 The timers and the coordinator together keep the run-wide target: when all timers are of the
    shared all-threads mode with periods of at least [q], a positive whole number of milliseconds,
    then whichever threads call them, in whatever order and with whatever clocks, the samples they
    let start in a window of length [w] are [n] only if [n - 1] periods are shorter than [w]. *)
Theorem shared_timers_rate a b calls next s q t w :
  (1000000 | q) -> 0 < q -> 0 < w ->
  Forall (fun x => ct_mode x.1 = AllActiveThreadsShared) calls ->
  Forall (fun x => q <= ct_period x.1) calls ->
  (Z.of_nat (length (filter (fun x => t <= x < t + w)
     (fst <$> timer_slots (Some (deterministic_coordinator a b)) calls (next, s)))) - 1) * q < w.
Proof.
  intros Hd Hq Hw Hm Hp. rewrite shared_slots_history, window_times by done.
  apply (paced_rate (live (t_generation s) (Shared Global) s)); [done..| |].
  - apply history_periods; [done..|]. by apply call_ops_asks.
  - apply history_paced, Forall_forall. by intros [] _.
Qed.

Lemma shared_timers_rate_witness :
  let run := fst <$> timer_slots (Some (deterministic_coordinator 10 10))
               (sample_calls AllActiveThreadsShared) (None, throughput_default) in
  run = [0; 100000000; 200000000]
  /\ (Z.of_nat (length (filter (fun x => 0 <= x < 0 + 150000000) run)) - 1) * 100000000 < 150000000.
Proof.
  intros run. split; [vm_compute; reflexivity|].
  apply (shared_timers_rate 10 10 (sample_calls AllActiveThreadsShared) None throughput_default
           100000000 0 150000000).
  - by exists 100.
  - lia.
  - lia.
  - repeat (apply Forall_cons_2; [reflexivity|]); apply Forall_nil_2.
  - repeat (apply Forall_cons_2; [simpl; lia|]); apply Forall_nil_2.
Defined.
