(* ===== verification/SyncTimer.v ===== *)
(** * The synchronizing timer

    Models [SynchronizingTimer] of [crates/runtime/src/timers.rs] and the future
    its [delay] returns: a virtual user arrives at a barrier and is held until
    the group is complete, its timeout comes, or it is told to stop.  The future
    is a client of the barrier coordinator ([Barrier]), of the scheduler that
    wakes it at its timeout ([Scheduler]) and of the user's cancellation token
    ([Token]); the state of a run holds all three. *)

From stdpp Require Import strings pretty.
From S2P Require Import Prelude Control Throughput Token Scheduler DeadlineFuture Coordination Barrier.

(** ** Configuration and requests *)

Definition MAX_SYNCHRONIZING_PARTICIPANTS : Z := 65536.

(** [SynchronizingGroupSize::from_configured]: zero stands for the size of the
    current thread group. *)
Definition from_configured (value : Z) : result ComponentError (option Z) :=
  if value =? 0 then Ok None
  else if value <=? MAX_SYNCHRONIZING_PARTICIPANTS then Ok (Some value)
  else Err (ResourceLimit "synchronizing timer group size").

Record SynchronizingTimer := mkSyncTimer {
  st_name : string;
  st_group_size : option Z;
  st_timeout : Z
}.

Definition str_len (s : string) : Z := Z.of_nat (String.length s).

Definition validate_sync_config (name : string) (group_size : option Z) : result ComponentError () :=
  if (str_len name =? 0) || (MAX_TIMER_NAME_BYTES <? str_len name) || has_control name
  then Err (Failure "invalid synchronizing timer name")
  else if match group_size with Some n => MAX_SYNCHRONIZING_PARTICIPANTS <? n | None => false end
  then Err (ResourceLimit "synchronizing timer group size")
  else Ok ().

(** [SynchronizingTimer::with_group] *)
Definition with_group (name : string) (group_size timeout : Z)
    : result ComponentError SynchronizingTimer :=
  let? group_size := from_configured group_size in
  let? _ := validate_sync_config name group_size in
  Ok (mkSyncTimer name group_size timeout).

Definition no_group : ComponentError :=
  Unsupported "synchronizing timer current-thread-group mode requires a non-empty thread-group identity for participant-count resolution".

Definition empty_group (group : option string) : bool :=
  match group with Some g => str_len g =? 0 | None => true end.

Definition bad_group (group : option string) : bool :=
  match group with
  | Some g => (MAX_TIMER_NAME_BYTES <? str_len g) || has_control g
  | None => false
  end.

(** [SynchronizingRequest::new] *)
Definition sync_request_new (name : string) (group_size timeout : Z) (participant : string)
    (c : TimerContext) : result ComponentError SynchronizingRequest :=
  if (str_len participant =? 0) || (str_len (tc_thread_name c) =? 0)
     || (MAX_TIMER_NAME_BYTES <? str_len participant)
     || (MAX_TIMER_NAME_BYTES <? str_len (tc_thread_name c))
     || has_control (tc_thread_name c) || has_control participant
     || bad_group (tc_thread_group c)
  then Err (ResourceLimit "synchronizing participant identity")
  else if (group_size =? 0) && empty_group (tc_thread_group c) then Err no_group
  else
    let? _ := ok_or (duration_checked_add (tc_now c) timeout)
                (ResourceLimit "synchronizing timer timeout deadline") in
    let? group_size := from_configured group_size in
    let? _ := validate_sync_config name group_size in
    Ok {| req_name := name; req_group_size := group_size; req_timeout := timeout;
          req_now := tc_now c; req_participant := participant;
          req_thread_name := tc_thread_name c; req_thread_group := tc_thread_group c;
          req_thread_number := tc_thread_number c; req_lifecycle_id := tc_lifecycle_id c |}.

(** The participant a thread is known by: group, name, number and lifecycle. *)
Definition sync_participant (c : TimerContext) : string :=
  default "" (tc_thread_group c) +:+ ":" +:+ tc_thread_name c +:+ ":"
  +:+ pretty (default 0 (tc_thread_number c)) +:+ ":" +:+ pretty (default 0 (tc_lifecycle_id c)).

Definition sync_request (timer : SynchronizingTimer) (c : TimerContext)
    : result ComponentError SynchronizingRequest :=
  let? _ := validate_sync_config (st_name timer) (st_group_size timer) in
  let? _ := ok_or (duration_checked_add (tc_now c) (st_timeout timer))
              (ResourceLimit "synchronizing timer timeout deadline") in
  if bool_decide (st_group_size timer = None) && empty_group (tc_thread_group c) then Err no_group
  else if has_control (tc_thread_name c)
          || match tc_thread_group c with Some g => has_control g | None => false end
  then Err (ResourceLimit "synchronizing participant identity")
  else
    let? parts := ok_or (u64_checked_add (str_len (default "" (tc_thread_group c)))
                           (str_len (tc_thread_name c)) ≫= fun n => u64_checked_add n 64)
                    (ResourceLimit "synchronizing participant identity") in
    if MAX_TIMER_NAME_BYTES <? parts
    then Err (ResourceLimit "synchronizing participant identity")
    else
      let participant := sync_participant c in
      if MAX_TIMER_NAME_BYTES <? str_len participant
      then Err (ResourceLimit "synchronizing participant identity")
      else sync_request_new (st_name timer) (default 0 (st_group_size timer)) (st_timeout timer)
             participant c.

(** [stable_timer_key]: FNV-1a over the bytes of the name. *)
Fixpoint fnv1a (hash : Z) (s : string) : Z :=
  match s with
  | EmptyString => hash
  | String b rest =>
      fnv1a (Z.lxor hash (Z.of_nat (Ascii.nat_of_ascii b)) * 1099511628211 mod 2 ^ 64) rest
  end.

Definition stable_timer_key (value : string) : Z := fnv1a 14695981039346656037 value.

(** ** The future *)

(** What the futures of a run share: the scheduler with the tokens and the log
    of wakers woken, and the barriers. *)
Record SyncWorld := mkWorld {
  sw_sched : Scheduler;
  sw_barrier : BarrierState
}.

Record SynchronizingDelayFuture := mkSyncFuture {
  sf_request : SynchronizingRequest;
  sf_token : nat;
  sf_registration : option WakeRegistration;
  sf_completed : bool
}.

Inductive sync_poll_result :=
| SyncPending
| SyncReady (res : result ComponentError Z).

Definition log_wakes (l : list Z) (s : Scheduler) : Scheduler :=
  mkSched (wakes s) (statuses s) (s_now s) (next_id s) (max_wakes s) (s_owner s) (s_tokens s)
    (woken s ++ l).

Definition with_registration (r : option WakeRegistration) (f : SynchronizingDelayFuture) :=
  mkSyncFuture (sf_request f) (sf_token f) r (sf_completed f).

Definition mark_completed (f : SynchronizingDelayFuture) :=
  mkSyncFuture (sf_request f) (sf_token f) (sf_registration f) true.

Section Future.
(** [Display] of a scheduler error, which appears in diagnostics only, and the
    bounds of the coordinator. *)
Context (display : SchedulerError -> string) (max_slots max_participants : Z).

Definition scheduler_component_error (e : SchedulerError) : ComponentError :=
  match e with
  | Scheduler.Capacity _ | DeadlineOverflow _ | WakeIdOverflow =>
      ResourceLimit "synchronizing timer wake cancellation"
  | Scheduler.Unsupported message => Unsupported message
  | other => Failure ("synchronizing timer wake cancellation: " +:+ display other)
  end.

(** [cancel_registration]: the handle is taken, cancelled and dropped. *)
Definition sync_cancel_registration (f : SynchronizingDelayFuture) (s : Scheduler)
    : result SchedulerError () * SynchronizingDelayFuture * Scheduler :=
  match sf_registration f with
  | None => (Ok (), f, s)
  | Some r =>
      let '(res, s1) := Scheduler.cancel r s in
      ((let? _ := res in Ok ()), with_registration None f, drop_registration r s1)
  end.

(** The coordinator is told that the arrival is over. *)
Definition sync_leave (request : SynchronizingRequest) (outcome : option SynchronizingOutcome)
    (w : SyncWorld) : SyncWorld :=
  match outcome with
  | Some o => mkWorld (sw_sched w) (complete request o (sw_barrier w))
  | None => let '(b, wake) := Barrier.cancel request (sw_barrier w) in
            mkWorld (log_wakes wake (sw_sched w)) b
  end.

(** [finish] *)
Definition sync_finish (res : result ComponentError Z) (outcome : option SynchronizingOutcome)
    (f : SynchronizingDelayFuture) (w : SyncWorld)
    : sync_poll_result * SynchronizingDelayFuture * SyncWorld :=
  let '(cancellation, f, s) := sync_cancel_registration f (sw_sched w) in
  let w := sync_leave (sf_request f) outcome (mkWorld s (sw_barrier w)) in
  let res :=
    match cancellation with
    | Err e =>
        let error := scheduler_component_error e in
        match res with
        | Ok _ => Err error
        | Err primary => Err (Combined primary error)
        | OutOfFuel => OutOfFuel
        end
    | _ => res
    end in
  (SyncReady res, mark_completed f, w).

(** The end of a poll the coordinator left pending: the waker is registered for
    the signals of the user, and the timeout with the scheduler. *)
Definition sync_wait (f : SynchronizingDelayFuture) (waker : Z) (w : SyncWorld)
    : sync_poll_result * SynchronizingDelayFuture * SyncWorld :=
  let request := sf_request f in
  let s := with_tokens (register_waker (sf_token f) waker (s_tokens (sw_sched w))) (sw_sched w) in
  let w := mkWorld s (sw_barrier w) in
  match sf_registration f with
  | Some _ => (SyncPending, f, w)
  | None =>
      if req_timeout request =? 0 then (SyncPending, f, w)
      else
        match deadline_after (req_now request) (req_timeout request) with
        | None => sync_finish (Err (ResourceLimit "synchronizing timer timeout deadline")) None f w
        | Some deadline =>
            let '(res, s) := register_wake deadline (stable_timer_key (req_name request))
                               (sf_token f) s in
            let w := mkWorld s (sw_barrier w) in
            match res with
            | Ok r => (SyncPending, with_registration (Some r) f, w)
            | Err (Scheduler.Unsupported _) => (SyncPending, f, w)
            | Err (Scheduler.Capacity _) | Err (DeadlineOverflow _) =>
                sync_finish (Err (ResourceLimit "synchronizing timer timeout wake")) None f w
            | Err _ => sync_finish (Err (Failure "synchronizing timer wake registration")) None f w
            | OutOfFuel => (SyncReady OutOfFuel, f, w)
            end
        end
  end.

(** [poll] with the context's waker, the user's controller signal being
    [controller]. *)
Definition sync_poll (controller : ControlSignal) (f : SynchronizingDelayFuture) (waker : Z)
    (w : SyncWorld) : sync_poll_result * SynchronizingDelayFuture * SyncWorld :=
  let signal := combine controller (token_signal (s_tokens (sw_sched w)) (sf_token f)) in
  if negb (bool_decide (signal = Continue))
  then sync_finish (Err (ControlRequested signal)) None f w
  else
    let '(timeout_wake, tokens) := take_wake (sf_token f) (s_tokens (sw_sched w)) in
    let s := with_tokens tokens (sw_sched w) in
    match poll_arrival max_slots max_participants (sf_request f) waker (sw_barrier w) with
    | (Ok (Done outcome, wake), b) =>
        sync_finish (Ok 0) (Some outcome) f (mkWorld (log_wakes wake s) b)
    | (Ok (Waiting, wake), b) =>
        let w := mkWorld (log_wakes wake s) b in
        if timeout_wake then sync_finish (Ok 0) (Some TimedOut) f w else sync_wait f waker w
    | (Err e, b) => sync_finish (Err e) None f (mkWorld s b)
    | (OutOfFuel, b) => (SyncReady OutOfFuel, f, mkWorld s b)
    end.

(** [Drop] *)
Definition sync_drop (f : SynchronizingDelayFuture) (w : SyncWorld) : SyncWorld :=
  if sf_completed f then w
  else
    let '(_, f, s) := sync_cancel_registration f (sw_sched w) in
    sync_leave (sf_request f) None (mkWorld s (sw_barrier w)).
End Future.

(** [SynchronizingTimer::delay] of a timer with a coordinator *)
Definition sync_delay (timer : SynchronizingTimer) (c : TimerContext) (token : nat)
    : result ComponentError SynchronizingDelayFuture :=
  let? request := sync_request timer c in
  Ok (mkSyncFuture request token None false).
