(* ===== verification/SyncTimerProps.v ===== *)
(** * The synchronizing timer: what a wait leaves, and that it ends

    Theorems on the future of [SyncTimer], in the company of the scheduler, the
    tokens and the barriers it uses. *)

From stdpp Require Import strings pretty sorting.
From S2P Require Import Prelude Control Throughput Token Scheduler DeadlineFuture Coordination Barrier SyncTimer.

(** ** The registration of a future *)

Definition sync_deadline (f : SynchronizingDelayFuture) : Z :=
  req_now (sf_request f) + req_timeout (sf_request f).

(** The future seen as one that waits for its timeout. *)
Definition as_deadline (f : SynchronizingDelayFuture) : DeadlineFuture :=
  mkFuture (sync_deadline f) (sf_token f) (sf_registration f).

Definition sync_ok (f : SynchronizingDelayFuture) (s : Scheduler) : Prop := future_ok (as_deadline f) s.

(** The run around a future: scheduler and barriers are consistent, and the
    coordinator can name the barrier of the request. *)
Record world_ok (mp : Z) (key : BarrierKey) (f : SynchronizingDelayFuture) (w : SyncWorld) : Prop := {
  wo_sched : sched_ok (sw_sched w);
  wo_future : sync_ok f (sw_sched w);
  wo_barrier : barrier_ok mp (sw_barrier w);
  wo_bound : mp <= MAX_BARRIER_PARTICIPANTS;
  wo_key : key_for (sf_request f) = Ok key
}.

Lemma same_wakes_ok s s' : wakes s' = wakes s -> statuses s' = statuses s -> s_now s' = s_now s ->
  next_id s' = next_id s -> max_wakes s' = max_wakes s -> sched_ok s -> sched_ok s'.
Proof. intros E1 E2 E3 E4 E5 []. split; rewrite ?E1, ?E2, ?E3, ?E4, ?E5; done. Qed.

Lemma with_tokens_ok t s : sched_ok s -> sched_ok (with_tokens t s).
Proof. by apply same_wakes_ok. Qed.

Lemma log_wakes_ok l s : sched_ok s -> sched_ok (log_wakes l s).
Proof. by apply same_wakes_ok. Qed.

Lemma sync_cancel_run f s : sched_ok s -> sync_ok f s ->
  exists s', sync_cancel_registration f s = (Ok (), with_registration None f, s') /\ sched_ok s' /\
    match sf_registration f with Some r => wakes s' = delete (reg_id r) (wakes s) | None => s' = s end.
Proof.
  intros Hok Hf. destruct (future_cancel_run (as_deadline f) s Hok Hf) as (s' & H & Hok' & Hw).
  unfold future_cancel in H. unfold sync_cancel_registration. destruct f as [req h [r|] c]; simpl in *.
  - destruct (Scheduler.cancel r s) as [res s1]. exists s'. injection H as H ->. by rewrite H.
  - exists s. by injection H as ->.
Qed.

Lemma deadline_after_Some now d t : deadline_after now d = Some t -> t = now + d.
Proof. unfold deadline_after, duration_checked_add. case_if; intros; by simplify_eq. Qed.

(** ** Leaving a barrier *)

Lemma bump_or_overflow_leases b : leases (bump_or_overflow b) = leases b.
Proof. by destruct (bump_or_overflow_core b) as (_ & _ & -> & _). Qed.

Lemma uncount_leases b : leases (uncount b) = leases b.
Proof. unfold uncount. by case_match. Qed.

Lemma remove_drained_leases key b : leases (remove_drained key b) = leases b.
Proof.
  unfold remove_drained, advance_barrier_generation. destruct (slots b !! key); [|done].
  destruct (_ && _); [|done]. unfold st_bind, st_get, modify, st_fail, st_lift, ok_or, st_ret.
  simpl. repeat case_match; simplify_eq/=; done.
Qed.

Lemma complete_lease request key o b : key_for request = Ok key ->
  leases (complete request o b) !! (key, req_participant request) = None.
Proof.
  intros Hk. unfold complete. rewrite Hk.
  destruct (leases b !! (key, req_participant request)) eqn:E; [|done].
  rewrite remove_drained_leases. unfold update_slot. simpl.
  rewrite uncount_leases, bump_or_overflow_leases. apply lookup_delete_eq.
Qed.

Lemma cancel_lease request key b : key_for request = Ok key ->
  leases (fst (Barrier.cancel request b)) !! (key, req_participant request) = None.
Proof.
  intros Hk. unfold Barrier.cancel. rewrite Hk.
  destruct (leases b !! (key, req_participant request)) eqn:E; [|done].
  match goal with |- context [if ?c then update_slot key (with_arrivals _) _ else _] => set (x := c) end.
  clearbody x. destruct x; simpl.
  - repeat case_match; simplify_eq/=; rewrite remove_drained_leases; unfold update_slot; simpl;
      rewrite ?bump_or_overflow_leases; simpl; rewrite ?uncount_leases; apply lookup_delete_eq.
  - repeat case_match; simplify_eq/=; rewrite remove_drained_leases; simpl; rewrite ?uncount_leases;
      apply lookup_delete_eq.
Qed.

(** ** The end of a wait *)

(** Nothing of a future is left in the run. *)
Record gone (mp : Z) (key : BarrierKey) (f : SynchronizingDelayFuture) (w : SyncWorld) : Prop := {
  gn_sched : sched_ok (sw_sched w);
  gn_barrier : barrier_ok mp (sw_barrier w);
  gn_lease : leases (sw_barrier w) !! (key, req_participant (sf_request f)) = None;
  gn_wake r : sf_registration f = Some r -> wakes (sw_sched w) !! reg_id r = None
}.

Definition finished (f : SynchronizingDelayFuture) : SynchronizingDelayFuture :=
  mark_completed (with_registration None f).

Section Polls.
Context (display : SchedulerError -> string) (ms mp : Z) (key : BarrierKey).
Notation poll := (sync_poll display ms mp).

Lemma sync_leave_gone outcome f w : world_ok mp key f w -> forall s,
  sched_ok s -> (forall r, sf_registration f = Some r -> wakes s !! reg_id r = None) ->
  gone mp key f (sync_leave (sf_request f) outcome (mkWorld s (sw_barrier w))).
Proof.
  intros [_ _ Hb Hmp Hk] s Hs Hw. unfold sync_leave. destruct outcome as [o|]; simpl.
  - split; simpl; [done| |by apply complete_lease|done].
    exact (proj1 (complete_good mp Hmp (sf_request f) o _ Hb)).
  - pose proof (cancel_lease (sf_request f) key (sw_barrier w) Hk) as Hl.
    pose proof (cancel_good mp Hmp (sf_request f) _ Hb) as [Hg _].
    destruct (Barrier.cancel (sf_request f) (sw_barrier w)) as [b wake]. simpl in *.
    split; simpl; [by apply log_wakes_ok|done|done|done].
Qed.

Lemma sync_retired f s : sched_ok s -> sync_ok f s ->
  exists s', sync_cancel_registration f s = (Ok (), with_registration None f, s') /\ sched_ok s' /\
    forall r, sf_registration f = Some r -> wakes s' !! reg_id r = None.
Proof.
  intros Hok Hf. destruct (sync_cancel_run f s Hok Hf) as (s' & H & Hok' & Hw).
  exists s'. split_and!; [done..|]. intros r Hr. rewrite Hr in Hw. rewrite Hw. apply lookup_delete_eq.
Qed.

Lemma sync_finish_run res outcome f w : world_ok mp key f w ->
  exists w', sync_finish display res outcome f w = (SyncReady res, finished f, w') /\ gone mp key f w'.
Proof.
  intros Hw. destruct (sync_retired f (sw_sched w) (wo_sched _ _ _ _ Hw) (wo_future _ _ _ _ Hw))
    as (s' & Hc & Hs & Hr).
  unfold sync_finish. rewrite Hc. eexists. split; [done|].
  change (sf_request (with_registration None f)) with (sf_request f). by apply sync_leave_gone.
Qed.

Lemma sync_drop_gone f w : world_ok mp key f w -> sf_completed f = false ->
  gone mp key f (sync_drop f w).
Proof.
  intros Hw Hf. destruct (sync_retired f (sw_sched w) (wo_sched _ _ _ _ Hw) (wo_future _ _ _ _ Hw))
    as (s' & Hc & Hs & Hr).
  unfold sync_drop. rewrite Hf, Hc.
  change (sf_request (with_registration None f)) with (sf_request f). by apply (sync_leave_gone None).
Qed.

(** Waking and token changes, and the coordinator's answer, keep the run. *)
Lemma world_ok_step f w l t b : world_ok mp key f w -> barrier_ok mp b ->
  world_ok mp key f (mkWorld (log_wakes l (with_tokens t (sw_sched w))) b).
Proof.
  intros [Hs Hf _ Hmp Hk] Hb. split; simpl; try done.
  by apply log_wakes_ok, with_tokens_ok.
Qed.

Lemma world_ok_tokens f w t : world_ok mp key f w ->
  world_ok mp key f (mkWorld (with_tokens t (sw_sched w)) (sw_barrier w)).
Proof. intros [Hs Hf Hb Hmp Hk]. split; simpl; try done. by apply with_tokens_ok. Qed.

(** A registered future. *)
Lemma registered_world f w deadline k :
  world_ok mp key f w -> deadline = sync_deadline f ->
  Z.of_nat (size (wakes (sw_sched w))) < max_wakes (sw_sched w) -> next_id (sw_sched w) <> 0 ->
  world_ok mp key (with_registration (Some (mkRegistration (next_id (sw_sched w)) (sf_token f)
                                              (s_owner (sw_sched w)))) f)
    (mkWorld (registered deadline k (sf_token f) (sw_sched w)) (sw_barrier w)).
Proof.
  intros [Hs Hf Hb Hmp Hk] -> Hroom Hid. split; simpl; try done.
  - by apply registered_ok.
  - unfold sync_ok, future_ok, as_deadline. simpl. split_and!; [done|by rewrite lookup_insert_eq|].
    right. eexists. split; [by rewrite lookup_insert_eq|done].
Qed.

(** What a poll may do: end, leaving nothing, with a result; or stay pending,
    in a consistent run, as the same arrival. *)
Definition poll_ends (f : SynchronizingDelayFuture)
    (r : sync_poll_result * SynchronizingDelayFuture * SyncWorld) : Prop :=
  exists res w', r = (SyncReady res, finished f, w') /\ res <> OutOfFuel /\ gone mp key f w'.

Definition same_arrival (f f' : SynchronizingDelayFuture) : Prop :=
  sf_request f' = sf_request f /\ sf_token f' = sf_token f /\ sf_completed f' = sf_completed f.

Definition poll_stays (f : SynchronizingDelayFuture)
    (r : sync_poll_result * SynchronizingDelayFuture * SyncWorld) : Prop :=
  exists f' w', r = (SyncPending, f', w') /\ world_ok mp key f' w' /\ same_arrival f f'.

Lemma finish_ends res outcome f w : world_ok mp key f w -> res <> OutOfFuel ->
  poll_ends f (sync_finish display res outcome f w).
Proof.
  intros Hw Hres. destruct (sync_finish_run res outcome f w Hw) as (w' & -> & Hg).
  by exists res, w'.
Qed.

Lemma woken_world f w h : world_ok mp key f w ->
  world_ok mp key f (mkWorld (wake_token h (sw_sched w)) (sw_barrier w)).
Proof.
  intros [Hs Hf Hb Hmp Hk]. pose proof (wake_token_registry h (sw_sched w)) as Hr.
  split; simpl; try done; [by eapply same_registry_ok|].
  unfold sync_ok, future_ok in *. destruct (fut_registration (as_deadline f)); [|done].
  by rewrite (sr_owner _ _ Hr), (sr_statuses _ _ Hr), (sr_now _ _ Hr), (sr_wakes _ _ Hr).
Qed.

Lemma sync_wait_cases f waker w : world_ok mp key f w ->
  poll_ends f (sync_wait display f waker w) \/ poll_stays f (sync_wait display f waker w).
Proof.
  intros Hw. unfold sync_wait.
  pose proof (world_ok_tokens f w (register_waker (sf_token f) waker (s_tokens (sw_sched w))) Hw) as Hw1.
  set (s1 := with_tokens _ (sw_sched w)) in *. destruct (sf_registration f) eqn:Er.
  { right. by exists f, (mkWorld s1 (sw_barrier w)). }
  destruct (req_timeout (sf_request f) =? 0).
  { right. by exists f, (mkWorld s1 (sw_barrier w)). }
  destruct (deadline_after _ _) as [d|] eqn:Ed; [|left; by apply finish_ends].
  apply deadline_after_Some in Ed. rewrite register_wake_run by apply Hw1. cbv zeta.
  destruct (max_wakes s1 <=? _) eqn:Ecap; [left; by apply finish_ends|].
  destruct (next_id s1 =? 0) eqn:Eid; [left; by apply finish_ends|]. right.
  assert (world_ok mp key (with_registration (Some (mkRegistration (next_id s1) (sf_token f) (s_owner s1))) f)
    (mkWorld (registered d (stable_timer_key (req_name (sf_request f))) (sf_token f) s1) (sw_barrier w)))
    as Hreg by (apply Z.leb_gt in Ecap; apply Z.eqb_neq in Eid;
      by apply (registered_world f (mkWorld s1 (sw_barrier w)))).
  do 2 eexists. split; [reflexivity|]. split; [|done].
  destruct (expired d (s_now s1)); [|done]. exact (woken_world _ _ (sf_token f) Hreg).
Qed.

Lemma sync_poll_cases c f waker w : world_ok mp key f w ->
  poll_ends f (poll c f waker w) \/ poll_stays f (poll c f waker w).
Proof.
  intros Hw. unfold sync_poll. destruct (negb _); [left; by apply finish_ends|].
  destruct (take_wake (sf_token f) (s_tokens (sw_sched w))) as [tw tokens].
  pose proof (poll_arrival_post ms mp (wo_bound _ _ _ _ Hw) (sf_request f) waker (sw_barrier w) key
    (wo_barrier _ _ _ _ Hw) (wo_key _ _ _ _ Hw)) as Hp.
  destruct (poll_arrival _ _ _ _ _) as [[[[o|] wake]|e|] b]; simpl in Hp.
  - left. apply finish_ends; [|done]. apply world_ok_step; [done|]. apply Hp.
  - assert (world_ok mp key f (mkWorld (log_wakes wake (with_tokens tokens (sw_sched w))) b)) as Hw1
      by (apply world_ok_step; [done|]; apply Hp).
    destruct tw; [left; by apply finish_ends|by apply sync_wait_cases].
  - left. apply finish_ends; [|done]. destruct Hp as [[Hb _] _].
    destruct Hw as [Hs Hf _ Hmp Hk]. split; simpl; try done. by apply with_tokens_ok.
  - done.
Qed.
End Polls.

(** A user leaves nothing behind at a barrier.  Whenever the future of the timer ends, with an
    outcome, an error or a stop signal, or is dropped before it has ended, the user's lease at the
    barrier is given back, the wake of its timeout is no longer in the scheduler, and both are
    consistent; and as long as it stays pending it remains the same arrival.  No poll is without a
    result. *)
Theorem sync_leaves_nothing display ms mp key c f waker w :
  world_ok mp key f w ->
  (poll_ends mp key f (sync_poll display ms mp c f waker w)
   \/ poll_stays mp key f (sync_poll display ms mp c f waker w))
  /\ (sf_completed f = false -> gone mp key f (sync_drop f w)).
Proof. intros Hw. split; [by apply sync_poll_cases|by apply sync_drop_gone]. Qed.

(** ** The timeout *)

Lemma with_view_ready k f s h : (forall v, v_wake_ready v = true -> v_wake_ready (f v) = true) ->
  is_wake_ready s h = true -> is_wake_ready (with_view k f s) h = true.
Proof.
  intros Hf. unfold is_wake_ready, view, with_view. simpl.
  destruct (decide (k = h)) as [->|Hne]; [|by rewrite list_lookup_alter_ne].
  rewrite list_lookup_alter_eq. destruct (t_views s !! h); simpl; [apply Hf|done].
Qed.

Lemma token_wake_views k s : exists regs,
  fst (token_wake k s) = with_wakers regs (bump_local_generation k
    (with_view k (fun v => mkView (v_thread_stop v) (v_next_loop v) true (v_generation v) (v_alive v)) s)).
Proof.
  unfold token_wake. match goal with |- context [wake_local _ ?x] => set (s1 := x) end.
  destruct (wake_local_spec k s1) as (regs & log & -> & _). by exists regs.
Qed.

(** A wake raises the flag of its token, and no wake lowers one. *)
Lemma token_wake_keeps k s h : is_wake_ready s h = true -> is_wake_ready (fst (token_wake k s)) h = true.
Proof.
  intros H. destruct (token_wake_views k s) as [regs ->].
  change (is_wake_ready (with_wakers regs ?x) h) with (is_wake_ready x h).
  unfold bump_local_generation. by repeat apply with_view_ready.
Qed.

Lemma token_wake_raises s h : owner_alive s h = true -> is_wake_ready (fst (token_wake h s)) h = true.
Proof.
  intros H. destruct (token_wake_views h s) as [regs ->].
  change (is_wake_ready (with_wakers regs ?x) h) with (is_wake_ready x h).
  unfold bump_local_generation. apply with_view_ready; [done|].
  unfold is_wake_ready, owner_alive, view, with_view in *. simpl.
  rewrite list_lookup_alter_eq. by destruct (t_views s !! h).
Qed.

Lemma wake_tokens_ready (l : list WakeRecord) h : forall s,
  owner_alive (s_tokens s) h = true ->
  is_wake_ready (s_tokens s) h = true \/ (exists r, r ∈ l /\ rec_token r = h) ->
  is_wake_ready (s_tokens (foldl (fun s r => wake_token (rec_token r) s) s l)) h = true.
Proof.
  induction l as [|r l IH]; intros s Ha Hr; simpl.
  - destruct Hr as [|(r & Hr & _)]; [done|by apply elem_of_nil in Hr].
  - destruct (wake_token_eq (rec_token r) s) as [Htok _]. apply IH; rewrite Htok.
    + by rewrite wake_alive.
    + destruct Hr as [Hr|(r0 & Hr0 & <-)]; [left; by apply token_wake_keeps|].
      apply elem_of_cons in Hr0 as [->|Hr0]; [left; by apply token_wake_raises|eauto].
Qed.

Lemma advance_ready s t id rec h l s' :
  sched_ok s -> wakes s !! id = Some rec -> wake_deadline (rec_wake rec) <= t -> rec_token rec = h ->
  owner_alive (s_tokens s) h = true -> advance_to t s = (Ok l, s') -> is_wake_ready (s_tokens s') h = true.
Proof.
  intros Hok Hrec Hd Hh Ha. unfold advance_to. destruct (_ <? _); [done|].
  unfold poll_ready. fold (found (with_now t s)). intros [= _ <-].
  destruct (consume_tokens (found (with_now t s)) (with_now t s)) as [Htok _].
  apply wake_tokens_ready; [by rewrite Htok|]. right. exists rec. split; [|done].
  rewrite merge_sort_Permutation. apply elem_of_found; [by destruct Hok; split|].
  destruct (so_wakes s Hok _ _ Hrec) as (-> & _ & _). done.
Qed.

Lemma same_alive_purge s s' : same_alive s s' -> purge s' (t_wakers s') = purge s (t_wakers s).
Proof.
  intros [Hw Ha]. unfold purge. rewrite Hw. f_equal. apply map_ext. intros r. unfold live_owners.
  f_equal. apply list_filter_ext_in. intros o _. by rewrite Ha.
Qed.

(** The tokens of a run have room for one more waker of a live user. *)
Record room (t : TokenStore) (h : nat) : Prop := {
  rm_registry : registry_ok (t_wakers t);
  rm_alive : owner_alive t h = true;
  rm_count : Z.of_nat (owner_count (purge t (t_wakers t))) < MAX_SCHEDULED_WAKEUPS
}.

Lemma take_wake_room t h : room t h -> room (snd (take_wake h t)) h.
Proof.
  intros [Hr Ha Hc].
  assert (same_alive t (snd (take_wake h t))) as Hs by (by apply with_view_alive).
  split; [by rewrite (proj1 Hs)|by rewrite (proj2 Hs)|by rewrite (same_alive_purge _ _ Hs)].
Qed.

Section Timeouts.
Context (display : SchedulerError -> string) (ms mp : Z) (key : BarrierKey).

Lemma finish_not_pending res o f w f' w' : sync_finish display res o f w <> (SyncPending, f', w').
Proof. unfold sync_finish. by destruct (sync_cancel_registration f (sw_sched w)) as [[? ?] ?]. Qed.

Lemma sync_wait_waiting f waker w f' w' :
  world_ok mp key f w -> room (s_tokens (sw_sched w)) (sf_token f) ->
  req_timeout (sf_request f) <> 0 -> s_now (sw_sched w) < sync_deadline f ->
  sync_wait display f waker w = (SyncPending, f', w') ->
  waiting (as_deadline f') waker (sw_sched w').
Proof.
  intros Hw [Hr Ha Hc] Ht Hnow Hp.
  destruct (sync_wait_cases display mp key f waker w Hw) as [(res & w2 & E & _)|(f2 & w2 & E & Hw2 & Hsame)];
    rewrite E in Hp; [done|]. injection Hp as -> ->.
  destruct Hsame as (Hreq & Htok & _).
  assert (sync_deadline f' = sync_deadline f) as Hd by (unfold sync_deadline; by rewrite Hreq).
  assert (exists s, s_tokens (sw_sched w') = register_waker (sf_token f) waker (s_tokens (sw_sched w))
    /\ s_now (sw_sched w') = s_now (sw_sched w) /\ is_Some (sf_registration f') /\ s = w') as (_ & H1 & H2 & H3 & _).
  { exists w'. unfold sync_wait in E. destruct (sf_registration f) eqn:Er.
    { injection E as <- <-. rewrite Er. eauto. }
    rewrite (proj2 (Z.eqb_neq _ _) Ht) in E.
    destruct (deadline_after _ _) as [d|] eqn:Ed; [|by apply finish_not_pending in E].
    apply deadline_after_Some in Ed as ->. fold (sync_deadline f) in E.
    rewrite register_wake_run in E by (apply with_tokens_ok, Hw).
    set (s1 := with_tokens _ (sw_sched w)) in E.
    destruct (max_wakes s1 <=? _); [by apply finish_not_pending in E|].
    destruct (next_id s1 =? 0); [by apply finish_not_pending in E|].
    assert (expired (sync_deadline f) (s_now s1) = false) as Hx by (unfold expired; apply Z.leb_gt; done).
    rewrite Hx in E. injection E as <- <-. simpl. eauto. }
  split; simpl.
  - apply Hw2.
  - exact (wo_future _ _ _ _ Hw2).
  - rewrite H2, Hd. done.
  - done.
  - rewrite H1, Htok. by apply register_subscribes.
  - rewrite H1, Htok. exact Ha.
Qed.

Lemma sync_poll_waiting c f waker w f' w' :
  world_ok mp key f w -> room (s_tokens (sw_sched w)) (sf_token f) ->
  req_timeout (sf_request f) <> 0 -> s_now (sw_sched w) < sync_deadline f ->
  sync_poll display ms mp c f waker w = (SyncPending, f', w') ->
  waiting (as_deadline f') waker (sw_sched w').
Proof.
  intros Hw Hroom Ht Hnow Hp. unfold sync_poll in Hp.
  destruct (negb _); [by apply finish_not_pending in Hp|].
  pose proof (take_wake_room _ _ Hroom) as Hroom1.
  destruct (take_wake (sf_token f) (s_tokens (sw_sched w))) as [tw tokens]. simpl in Hroom1.
  pose proof (poll_arrival_post ms mp (wo_bound _ _ _ _ Hw) (sf_request f) waker (sw_barrier w) key
    (wo_barrier _ _ _ _ Hw) (wo_key _ _ _ _ Hw)) as Hpost.
  destruct (poll_arrival _ _ _ _ _) as [[[[o|] wake]|e|] b]; simpl in Hpost;
    [by apply finish_not_pending in Hp| |by apply finish_not_pending in Hp|done].
  destruct tw; [by apply finish_not_pending in Hp|].
  apply (sync_wait_waiting f waker _ f' w'
    (world_ok_step mp key f w wake tokens b Hw (proj1 Hpost)) Hroom1 Ht Hnow Hp).
Qed.
End Timeouts.

(** A poll that finds the wake flag of its token raised ends the wait. *)
Lemma woken_poll_ends display ms mp key c f waker w :
  world_ok mp key f w -> is_wake_ready (s_tokens (sw_sched w)) (sf_token f) = true ->
  poll_ends mp key f (sync_poll display ms mp c f waker w).
Proof.
  intros Hw Hr. destruct (sync_poll_cases display ms mp key c f waker w Hw) as [|(f' & w' & E & _)]; [done|].
  exfalso. unfold sync_poll in E. destruct (negb _); [by apply finish_not_pending in E|].
  unfold take_wake in E. unfold is_wake_ready in Hr. rewrite Hr in E.
  pose proof (poll_arrival_post ms mp (wo_bound _ _ _ _ Hw) (sf_request f) waker (sw_barrier w) key
    (wo_barrier _ _ _ _ Hw) (wo_key _ _ _ _ Hw)) as Hpost.
  destruct (poll_arrival _ _ _ _ _) as [[[[o|] wake]|e|] b]; simpl in Hpost;
    [by apply finish_not_pending in E..|done].
Qed.

(** C26 A timeout bounds the wait.  When a user with a timeout is left waiting at a barrier,
    advancing the scheduler to its deadline, or beyond, wakes the waker of its last poll, and its
    next poll ends the wait and leaves nothing of it, whatever the other users have done at the
    barriers meanwhile and whatever its controller signals. *)
Theorem sync_timeout_ends_wait display ms mp key c f waker w f' w' t :
  world_ok mp key f w -> room (s_tokens (sw_sched w)) (sf_token f) ->
  req_timeout (sf_request f) <> 0 -> s_now (sw_sched w) < sync_deadline f ->
  sync_poll display ms mp c f waker w = (SyncPending, f', w') -> sync_deadline f <= t ->
  exists l s1 log, advance_to t (sw_sched w') = (Ok l, s1) /\
    woken s1 = woken (sw_sched w') ++ log /\ waker ∈ log /\
    forall c2 b, barrier_ok mp b ->
      poll_ends mp key f' (sync_poll display ms mp c2 f' waker (mkWorld s1 b)).
Proof.
  intros Hw Hroom Ht Hnow Hp Hdl.
  pose proof (sync_poll_waiting display ms mp key c f waker w f' w' Hw Hroom Ht Hnow Hp) as Hwt.
  destruct (sync_poll_cases display ms mp key c f waker w Hw) as [(? & ? & E & _)|(f2 & w2 & E & Hw2 & Hsame)];
    rewrite Hp in E; [done|]. injection E as <- <-. destruct Hsame as (Hreq & Htok & _).
  assert (sync_deadline f' = sync_deadline f) as Hd by (unfold sync_deadline; by rewrite Hreq).
  destruct Hwt as [Hok Hf Htime [r Hr] Hsub Hal]. simpl in *. rewrite Hd in Htime.
  pose proof Hf as Hf0. unfold future_ok in Hf. simpl in Hf. rewrite Hr in Hf.
  destruct Hf as (Ho & Hid & [?|(rec & Hrec & Hrd & Hrt)]); [lia|].
  destruct (advance_wakes (sw_sched w') t (reg_id r) rec (sf_token f') waker)
    as (l & s1 & log & H1 & H2 & H3 & H4 & H5 & H6 & H7); try done; [lia|lia|].
  exists l, s1, log. split_and!; try done. intros c2 b Hb.
  apply woken_poll_ends.
  - split; simpl; [done| |done|apply Hw|rewrite Hreq; apply Hw].
    unfold sync_ok, future_ok. simpl. rewrite Hr. split_and!; [by rewrite H6|by apply H7|left; lia].
  - simpl. apply (advance_ready (sw_sched w') t (reg_id r) rec (sf_token f') l); try done. lia.
Qed.

(** ** Release *)

(** One who leaves a slot in which another user still is. *)
Lemma complete_leaves_slot request key q o b slot lease :
  key_for request = Ok key -> slots b !! key = Some slot -> slot_outcome slot = Some o ->
  leases b !! (key, req_participant request) = Some lease -> slot_generation slot = lease ->
  q <> req_participant request -> is_Some (arrivals slot !! q) ->
  exists slot', slots (complete request o b) !! key = Some slot' /\ slot_outcome slot' = Some o /\
    arrivals slot' = delete (req_participant request) (arrivals slot).
Proof.
  intros Hk Hs Ho Hl Hg Hq Ha. unfold complete. rewrite Hk, Hl.
  set (b1 := uncount (bump_or_overflow (with_leases (delete (key, req_participant request) (leases b)) b))).
  assert (slots b1 = slots b) as Hs1.
  { unfold b1, uncount. destruct (u64_checked_sub _ _); simpl;
      by rewrite (proj1 (bump_or_overflow_core _)). }
  set (slot' := complete_slot (req_participant request) o slot).
  assert (slot_outcome slot' = Some o /\ arrivals slot' = delete (req_participant request) (arrivals slot))
    as [Ho' Ha'].
  { unfold slot', complete_slot. rewrite Ho. simpl. by destruct (bool_decide _). }
  exists slot'. split_and!; [|done|done]. unfold remove_drained.
  assert (slots (update_slot key (fun slot => if slot_generation slot =? lease
      then complete_slot (req_participant request) o slot else slot) b1) !! key = Some slot') as ->.
  { unfold update_slot. simpl. rewrite lookup_alter_eq, Hs1, Hs. simpl. by rewrite Hg, Z.eqb_refl. }
  rewrite bool_decide_eq_false_2; [|].
  - simpl. unfold update_slot. simpl. rewrite lookup_alter_eq, Hs1, Hs. simpl. by rewrite Hg, Z.eqb_refl.
  - rewrite Ha'. intros He. apply (f_equal (lookup q)) in He.
    rewrite lookup_delete_ne, lookup_empty in He by done. destruct Ha as [x Hx]. by rewrite Hx in He.
Qed.

Lemma continue_poll display ms mp f waker w o wk b :
  token_signal (s_tokens (sw_sched w)) (sf_token f) = Continue ->
  poll_arrival ms mp (sf_request f) waker (sw_barrier w) = (Ok (Done o, wk), b) ->
  sync_poll display ms mp Continue f waker w
  = sync_finish display (Ok 0) (Some o) f
      (mkWorld (log_wakes wk (with_tokens (snd (take_wake (sf_token f) (s_tokens (sw_sched w))))
                                (sw_sched w))) b).
Proof.
  intros Hs Hp. unfold sync_poll. rewrite Hs, bool_decide_eq_true_2 by done. simpl. by rewrite Hp.
Qed.

(** A user of a released slot is let go by its next poll, or refused. *)
Lemma told_released display ms mp key f waker w slot :
  world_ok mp key f w -> token_signal (s_tokens (sw_sched w)) (sf_token f) = Continue ->
  slots (sw_barrier w) !! key = Some slot -> slot_outcome slot = Some Released ->
  is_Some (arrivals slot !! req_participant (sf_request f)) ->
  exists res w', sync_poll display ms mp Continue f waker w = (SyncReady res, finished f, w') /\
    (res = Ok 0 \/
     exists e b, res = Err e /\ poll_arrival ms mp (sf_request f) waker (sw_barrier w) = (Err e, b)).
Proof.
  intros Hw Hsig Hs Ho Ha. pose proof Hw as [Q1 Q2 Hb Hmp Hk].
  pose proof (poll_arrival_post ms mp Hmp (sf_request f) waker (sw_barrier w) key Hb Hk) as Hpost.
  set (t := snd (take_wake (sf_token f) (s_tokens (sw_sched w)))).
  destruct (poll_arrival ms mp (sf_request f) waker (sw_barrier w)) as [[r|e|] b] eqn:Hp; [| |done].
  - assert (r = (Done Released, [])) as -> by (by eapply leased_poll_outcome).
    rewrite (continue_poll display ms mp f waker w Released [] b Hsig Hp). fold t.
    destruct (sync_finish_run display mp key (Ok 0) (Some Released) f
      (mkWorld (log_wakes [] (with_tokens t (sw_sched w))) b)) as (w' & -> & _); [|by exists (Ok 0), w'; auto].
    apply world_ok_step; [done|apply Hpost].
  - destruct (sync_finish_run display mp key (Err e) None f (mkWorld (with_tokens t (sw_sched w)) b))
      as (w' & E & _).
    { split; simpl; try done; [by apply with_tokens_ok|apply Hpost]. }
    exists (Err e), w'. split; [|right; eauto].
    unfold sync_poll. rewrite Hsig, bool_decide_eq_true_2 by done. cbn [negb]. rewrite Hp. exact E.
Qed.

(** C14 A complete group goes on together.  When the arrival of a user completes the group of a
    barrier, its future ends at once without further delay, exactly the expected users are in the
    slot and their wakers are invoked, and every other user of the slot, unless it is told to stop,
    ends its wait with its next poll: without delay, or with the error by which the coordinator
    refuses that poll. *)
Theorem sync_group_released display ms mp key f waker w wk b1 :
  world_ok mp key f w -> sf_registration f = None ->
  token_signal (s_tokens (sw_sched w)) (sf_token f) = Continue ->
  (forall n, expected_size (sw_barrier w) (sf_request f) = Ok n -> 1 <= n) ->
  leases (sw_barrier w) !! (key, req_participant (sf_request f)) = None ->
  poll_arrival ms mp (sf_request f) waker (sw_barrier w) = (Ok (Done Released, wk), b1) ->
  exists slot w', slots b1 !! key = Some slot /\
    Z.of_nat (size (arrivals slot)) = slot_expected slot /\
    sync_poll display ms mp Continue f waker w = (SyncReady (Ok 0), finished f, w') /\
    woken (sw_sched w') = woken (sw_sched w) ++ arrival_wakers slot /\
    forall f2 waker2, world_ok mp key f2 w' ->
      req_participant (sf_request f2) <> req_participant (sf_request f) ->
      is_Some (arrivals slot !! req_participant (sf_request f2)) ->
      token_signal (s_tokens (sw_sched w')) (sf_token f2) = Continue ->
      exists res w2, sync_poll display ms mp Continue f2 waker2 w' = (SyncReady res, finished f2, w2) /\
        (res = Ok 0 \/
         exists e b2, res = Err e /\ poll_arrival ms mp (sf_request f2) waker2 (sw_barrier w') = (Err e, b2)).
Proof.
  intros Hw Hreg Hsig Hpos Hl Hp. pose proof Hw as [Hs Hf Hb Hmp Hk].
  destruct (group_released ms mp (sf_request f) waker (sw_barrier w) b1 key wk Hmp Hb Hk Hpos Hl Hp)
    as (slot & H1 & H2 & H3 & H4 & -> & _).
  pose proof (poll_arrival_post ms mp Hmp (sf_request f) waker _ key Hb Hk) as Hpost.
  rewrite Hp in Hpost. destruct Hpost as [[Hb1 _] _].
  destruct (slot_facts mp key slot b1 Hb1 H1) as (_ & _ & F3 & F4 & _).
  destruct (F4 _ (mk_is_Some _ _ H4)) as [g Hg]. destruct (F3 _ _ Hg) as [Hgen _].
  set (w1 := mkWorld (log_wakes (arrival_wakers slot)
    (with_tokens (snd (take_wake (sf_token f) (s_tokens (sw_sched w)))) (sw_sched w))) b1).
  assert (world_ok mp key f w1) as Hw1 by (by apply world_ok_step).
  exists slot, (mkWorld (sw_sched w1) (complete (sf_request f) Released b1)).
  assert (Hpoll : sync_poll display ms mp Continue f waker w
    = (SyncReady (Ok 0), finished f, mkWorld (sw_sched w1) (complete (sf_request f) Released b1))).
  { rewrite (continue_poll display ms mp f waker w Released _ b1 Hsig Hp). fold w1.
    unfold sync_finish, sync_cancel_registration. rewrite Hreg. simpl. unfold finished.
    by destruct f; simpl in *; subst. }
  split_and!; [done|done|exact Hpoll|done|]. intros f2 waker2 Hw2 Hne Ha Hsig2.
  destruct (complete_leaves_slot (sf_request f) key (req_participant (sf_request f2)) Released b1 slot g)
    as (slot' & S1 & S2 & S3); try done.
  apply (told_released display ms mp key f2 waker2 _ slot'); try done. by rewrite S3, lookup_delete_ne.
Qed.

(** ** Scenarios *)

Definition user_context (name : string) (id now : Z) : TimerContext :=
  mkTimerContext now name (Some "g") (Some id) (Some id).

(** A barrier for two users with a timeout. *)
Definition pair_timer : SynchronizingTimer := mkSyncTimer "gate" (Some 2) 1000.

Definition user_request (name : string) (id now : Z) : SynchronizingRequest :=
  mkRequest "gate" (Some 2) 1000 now (sync_participant (user_context name id now)) name (Some "g")
    (Some id) (Some id).

Definition arrival_of (name : string) (id now : Z) (token : nat) : SynchronizingDelayFuture :=
  mkSyncFuture (user_request name id now) token None false.

(** Two users of a run, with the tokens 0 and 1. *)
Definition pair_world : SyncWorld :=
  mkWorld (scheduler_new 0 0 10 (snd (token_child token_new))) barrier_default.

Definition pair_poll := sync_poll (fun _ => "") 10 10 Continue.

Lemma pair_world_ok name id token :
  key_for (user_request name id 0) = Ok ("gate", None) ->
  world_ok 10 ("gate", None) (arrival_of name id 0 token) pair_world.
Proof.
  intros Hk. split; [apply scheduler_new_ok; lia|exact I| | |exact Hk].
  - apply barrier_default_ok. lia.
  - unfold MAX_BARRIER_PARTICIPANTS. lia.
Qed.

Lemma sync_leaves_nothing_witness :
  let f := arrival_of "A" 1 0 0 in
  (poll_ends 10 ("gate", None) f (pair_poll f 100 pair_world)
   \/ poll_stays 10 ("gate", None) f (pair_poll f 100 pair_world))
  /\ (sf_completed f = false -> gone 10 ("gate", None) f (sync_drop f pair_world)).
Proof.
  intros f. apply (sync_leaves_nothing (fun _ => "") 10 10 ("gate", None) Continue f 100 pair_world).
  apply pair_world_ok. vm_compute. reflexivity.
Defined.

Lemma sync_timeout_ends_wait_witness :
  let r := pair_poll (arrival_of "A" 1 0 0) 100 pair_world in
  r.1.1 = SyncPending /\
  exists l s1 log, advance_to 1000 (sw_sched r.2) = (Ok l, s1) /\
    woken s1 = woken (sw_sched r.2) ++ log /\ 100 ∈ log.
Proof.
  intros r. assert (E : r.1.1 = SyncPending) by (vm_compute; reflexivity). split; [exact E|].
  destruct (sync_timeout_ends_wait (fun _ => "") 10 10 ("gate", None) Continue (arrival_of "A" 1 0 0)
    100 pair_world r.1.2 r.2 1000) as (l & s1 & log & H1 & H2 & H3 & _).
  - apply pair_world_ok. vm_compute. reflexivity.
  - split; [apply registry_nil|reflexivity|reflexivity].
  - discriminate.
  - reflexivity.
  - rewrite <- E. change (pair_poll (arrival_of "A" 1 0 0) 100 pair_world = (r.1.1, r.1.2, r.2)).
    fold r. destruct r as [[? ?] ?]. reflexivity.
  - vm_compute. discriminate.
  - exists l, s1, log. auto.
Defined.


Lemma pending_world display ms mp key c f waker w :
  world_ok mp key f w -> let r := sync_poll display ms mp c f waker w in
  r.1.1 = SyncPending -> sched_ok (sw_sched r.2) /\ barrier_ok mp (sw_barrier r.2).
Proof.
  intros Hw r. unfold r. clear r.
  destruct (sync_poll_cases display ms mp key c f waker w Hw) as [(res & w' & -> & _)|(f' & w' & -> & H & _)];
    [done|]. intros _. split; apply H.
Qed.

Lemma pair_second_ok :
  world_ok 10 ("gate", None) (arrival_of "B" 2 0 1) (pair_poll (arrival_of "A" 1 0 0) 100 pair_world).2.
Proof.
  assert (Hw : world_ok 10 ("gate", None) (arrival_of "A" 1 0 0) pair_world)
    by (apply pair_world_ok; vm_compute; reflexivity).
  assert (Hr : (pair_poll (arrival_of "A" 1 0 0) 100 pair_world).1.1 = SyncPending)
    by (vm_compute; reflexivity).
  destruct (pending_world (fun _ => "") 10 10 _ Continue _ 100 _ Hw Hr) as [H1 H2].
  split; [exact H1|exact I|exact H2|apply Hw|vm_compute; reflexivity].
Qed.

Lemma sync_group_released_witness :
  let w := (pair_poll (arrival_of "A" 1 0 0) 100 pair_world).2 in
  exists slot w', Z.of_nat (size (arrivals slot)) = slot_expected slot /\
    pair_poll (arrival_of "B" 2 0 1) 200 w = (SyncReady (Ok 0), finished (arrival_of "B" 2 0 1), w').
Proof.
  intros w. set (r := poll_arrival 10 10 (user_request "B" 2 0) 200 (sw_barrier w)).
  assert (E : r.1 = Ok (Done Released, [100; 200])) by (vm_compute; reflexivity).
  destruct (sync_group_released (fun _ => "") 10 10 ("gate", None) (arrival_of "B" 2 0 1) 200 w
    [100; 200] r.2) as (slot & w' & _ & H2 & H3 & _).
  - exact pair_second_ok.
  - reflexivity.
  - vm_compute. reflexivity.
  - intros n Hn. vm_compute in Hn. injection Hn as <-. lia.
  - vm_compute. reflexivity.
  - rewrite <- E. change (r = (r.1, r.2)). by destruct r.
  - exists slot, w'. auto.
Defined.
