(* ===== verification/Csv.v ===== *)
(** * CSV records of result files

    Models the record level of the CSV codec of result files,
    [crates/results/src/csv.rs]: how a record and a header are written, how the
    streaming decoder reads records from its input, how a header is recognised
    and its delimiter inferred, and how a decoder is opened.  Strings are their UTF-8 bytes; the input is the bytes the
    reader delivers, one per read. *)

From stdpp Require Import strings pretty.
From S2P Require Import Prelude Wire.

(** ** Fields and columns: [crates/results/src/jtl.rs] *)

Inductive CsvField :=
| Timestamp | Elapsed | Label | ResponseCode | ResponseMessage | ThreadName | DataType | Success
| FailureMessage | Bytes | SentBytes | GroupThreads | AllThreads | Url | Filename | Latency
| Encoding | SampleCount | ErrorCount | Hostname | IdleTime | Connect.

#[global] Instance CsvField_eq_dec : EqDecision CsvField.
Proof. solve_decision. Defined.

Definition field_text (f : CsvField) : string :=
  match f with
  | Timestamp => "timeStamp" | Elapsed => "elapsed" | Label => "label"
  | ResponseCode => "responseCode" | ResponseMessage => "responseMessage"
  | ThreadName => "threadName" | DataType => "dataType" | Success => "success"
  | FailureMessage => "failureMessage" | Bytes => "bytes" | SentBytes => "sentBytes"
  | GroupThreads => "grpThreads" | AllThreads => "allThreads" | Url => "URL"
  | Filename => "Filename" | Latency => "Latency" | Encoding => "Encoding"
  | SampleCount => "SampleCount" | ErrorCount => "ErrorCount" | Hostname => "Hostname"
  | IdleTime => "IdleTime" | Connect => "Connect"
  end.

(** [CsvField::name] *)
Definition field_name (f : CsvField) : list Z := lit (field_text f).

(** The fields in the canonical order. *)
Definition all_fields : list CsvField :=
  [Timestamp; Elapsed; Label; ResponseCode; ResponseMessage; ThreadName; DataType; Success;
   FailureMessage; Bytes; SentBytes; GroupThreads; AllThreads; Url; Filename; Latency; Encoding;
   SampleCount; ErrorCount; Hostname; IdleTime; Connect].

(** [CsvField::parse] *)
Definition field_parse (value : list Z) : option CsvField :=
  find (fun f => bool_decide (field_name f = value)) all_fields.

(** [CsvField::order] *)
Definition field_order (f : CsvField) : Z :=
  match f with
  | Timestamp => 0 | Elapsed => 1 | Label => 2 | ResponseCode => 3 | ResponseMessage => 4
  | ThreadName => 5 | DataType => 6 | Success => 7 | FailureMessage => 8 | Bytes => 9
  | SentBytes => 10 | GroupThreads => 11 | AllThreads => 12 | Url => 13 | Filename => 14
  | Latency => 15 | Encoding => 16 | SampleCount => 17 | ErrorCount => 18 | Hostname => 19
  | IdleTime => 20 | Connect => 21
  end.

Inductive CsvColumn := Field (field : CsvField) | Variable_ (name : list Z).

#[global] Instance CsvColumn_eq_dec : EqDecision CsvColumn.
Proof. solve_decision. Defined.

(** [SampleSaveConfiguration::columns]: the saved fields in the canonical
    order, then the sample variables *)
Definition columns (saves : CsvField -> bool) (sample_variables : list (list Z)) : list CsvColumn :=
  (Field <$> filter (fun f => saves f = true) all_fields) ++ (Variable_ <$> sample_variables).

Inductive LineEnding := Lf | CrLf | Cr.

Definition line_ending (e : LineEnding) : list Z :=
  match e with Lf => [10] | CrLf => [13; 10] | Cr => [13] end.

(** The errors of [JtlError] the record level raises. *)
Inductive JtlError :=
| CsvError (record : Z) (detail : string)
| JtlUnsupported (feature value : string)
| InvalidConfiguration (field detail : string).

Definition is_digit (c : Z) : bool := (48 <=? c) && (c <=? 57).
Definition is_alphabetic (c : Z) : bool :=
  ((65 <=? c) && (c <=? 90)) || ((97 <=? c) && (c <=? 122)).
Definition is_alphanumeric (c : Z) : bool := is_digit c || is_alphabetic c.
Definition is_graphic (c : Z) : bool := (33 <=? c) && (c <=? 126).

Definition validate_delimiter (delimiter : Z) : result JtlError () :=
  if is_alphanumeric delimiter || (delimiter =? 34)
  then Err (InvalidConfiguration "delimiter" "delimiter must not be alphanumeric or a quote")
  else if negb (delimiter =? 9) && negb (is_graphic delimiter) && negb (delimiter =? 32)
  then Err (InvalidConfiguration "delimiter" "delimiter must be TAB or an ASCII printable character")
  else Ok ().

(** ** Writing *)

(** A value that has to be quoted. *)
Definition needs_quotes (delimiter : Z) (value : list Z) : bool :=
  existsb (fun c => (c =? delimiter) || (c =? 34) || (c =? 10) || (c =? 13)) value.

(** Quotes are doubled. *)
Definition escape (value : list Z) : list Z :=
  value ≫= fun c => if c =? 34 then [34; c] else [c].

Definition append_csv_token (output value : list Z) (delimiter : Z) : list Z :=
  if needs_quotes delimiter value then output ++ [34] ++ escape value ++ [34] else output ++ value.

(** The line of [write_record]: the loop over the values with their index. *)
Fixpoint record_line (delimiter : Z) (line : list Z) (first : bool) (values : list (list Z)) : list Z :=
  match values with
  | [] => line
  | value :: values' =>
      let line := if first then line else line ++ [delimiter] in
      record_line delimiter (append_csv_token line value delimiter) false values'
  end.

Section Writer.
Context (max_record_bytes delimiter : Z) (ending : LineEnding).

(** [write_record_raw]: the bytes it hands to the output *)
Definition write_record_raw (value : list Z) : result JtlError (list Z) :=
  let? output_length := ok_or (u64_checked_add (len value) (len (line_ending ending)))
                          (JtlUnsupported "csv-record-limit" "record length overflow") in
  if max_record_bytes <? output_length
  then Err (JtlUnsupported "csv-record-limit"
              (pretty output_length +:+ " bytes exceeds " +:+ pretty max_record_bytes))
  else Ok (value ++ line_ending ending).

(** [write_record] *)
Definition write_record (values : list (list Z)) : result JtlError (list Z) :=
  write_record_raw (record_line delimiter [] true values).

(** The tokens and the record of [write_header]: built-in names as values, variable names always quoted *)
Definition header_token (column : CsvColumn) : list Z :=
  match column with
  | Field f => append_csv_token [] (field_name f) delimiter
  | Variable_ name => [34] ++ escape name ++ [34]
  end.

Fixpoint join (l : list (list Z)) : list Z :=
  match l with
  | [] => []
  | [x] => x
  | x :: l' => x ++ [delimiter] ++ join l'
  end.

Definition header_record (max_columns : Z) (columns : list CsvColumn) : result JtlError (list Z) :=
  if max_columns <? len columns
  then Err (JtlUnsupported "csv-column-limit"
              (pretty (len columns) +:+ " configured columns exceeds " +:+ pretty max_columns))
  else write_record_raw (join (header_token <$> columns)).
End Writer.

(** ** Reading bytes *)

Record CsvToken := mkToken { tok_value : list Z; tok_quoted : bool }.

(** The part of [CsvDecoder] that reads; [cr_input] is what the reader has not
    delivered yet. *)
Record CsvDecoder := mkDecoder {
  cr_input : list Z;
  cr_lookahead : option Z;
  cr_prefix : list Z;
  cr_bom_checked : bool;
  cr_input_bytes : Z;
  cr_eof : bool;
  cr_record_number : Z
}.

Definition decoder_new (input : list Z) : CsvDecoder := mkDecoder input None [] false 0 false 0.

Definition CM (A : Type) : Type := ST CsvDecoder JtlError A.

Definition set_lookahead v s := mkDecoder (cr_input s) v (cr_prefix s) (cr_bom_checked s)
  (cr_input_bytes s) (cr_eof s) (cr_record_number s).
Definition set_prefix v s := mkDecoder (cr_input s) (cr_lookahead s) v (cr_bom_checked s)
  (cr_input_bytes s) (cr_eof s) (cr_record_number s).
Definition set_bom_checked s := mkDecoder (cr_input s) (cr_lookahead s) (cr_prefix s) true
  (cr_input_bytes s) (cr_eof s) (cr_record_number s).
Definition set_eof s := mkDecoder (cr_input s) (cr_lookahead s) (cr_prefix s) (cr_bom_checked s)
  (cr_input_bytes s) true (cr_record_number s).
Definition set_read input count s := mkDecoder input (cr_lookahead s) (cr_prefix s) (cr_bom_checked s)
  count (cr_eof s) (cr_record_number s).
Definition next_number s := mkDecoder (cr_input s) (cr_lookahead s) (cr_prefix s) (cr_bom_checked s)
  (cr_input_bytes s) (cr_eof s) (cr_record_number s + 1).

Definition c_modify (f : CsvDecoder -> CsvDecoder) : CM () := fun s => (Ok (), f s).

Section Reader.
Context (max_input_bytes max_record_bytes max_columns delimiter : Z).

Definition read_byte_raw : CM (option Z) :=
  do! s <- st_get in
  if cr_eof s then st_ret None
  else
    match cr_input s with
    | [] => c_modify set_eof ;! st_ret None
    | byte :: input =>
        match u64_checked_add (cr_input_bytes s) 1 with
        | None =>
            c_modify (set_read input (cr_input_bytes s)) ;!
            st_fail (JtlUnsupported "input-size" "input length overflow")
        | Some count =>
            c_modify (set_read input count) ;!
            if max_input_bytes <? count
            then st_fail (JtlUnsupported "input-size-limit"
                            (pretty count +:+ " bytes exceeds " +:+ pretty max_input_bytes))
            else st_ret (Some byte)
        end
    end.

(** Reads until three bytes are there or the input ends. *)
Fixpoint read_up_to (n : nat) (bytes : list Z) : CM (list Z) :=
  match n with
  | O => st_ret bytes
  | S n' =>
      do! byte <- read_byte_raw in
      match byte with
      | None => st_ret bytes
      | Some b => read_up_to n' (bytes ++ [b])
      end
  end.

Definition ensure_bom : CM () :=
  do! s <- st_get in
  if cr_bom_checked s then st_ret ()
  else
    do! bytes <- read_up_to 3 [] in
    (if bool_decide (bytes = [0xef; 0xbb; 0xbf]) then st_ret ()
     else c_modify (fun s => set_prefix (cr_prefix s ++ bytes) s)) ;!
    c_modify set_bom_checked.

Definition peek_byte : CM (option Z) :=
  ensure_bom ;!
  do! s <- st_get in
  match cr_lookahead s with
  | Some _ => st_ret (cr_lookahead s)
  | None =>
      match cr_prefix s with
      | b :: p =>
          c_modify (fun s => set_lookahead (Some b) (set_prefix p s)) ;! st_ret (Some b)
      | [] =>
          do! b <- read_byte_raw in
          c_modify (set_lookahead b) ;! st_ret b
      end
  end.

Definition take_byte : CM (option Z) :=
  ensure_bom ;!
  do! s <- st_get in
  match cr_lookahead s with
  | Some b => c_modify (set_lookahead None) ;! st_ret (Some b)
  | None =>
      match cr_prefix s with
      | b :: p => c_modify (set_prefix p) ;! st_ret (Some b)
      | [] => read_byte_raw
      end
  end.

(** ** Reading records *)

(** The local variables of [next_record]. *)
Record scan := mkScan {
  sc_record : list CsvToken;
  sc_field : list Z;
  sc_bytes : Z;
  sc_in_quotes : bool;
  sc_was_quoted : bool;
  sc_closed_quote : bool;
  sc_at_field_start : bool;
  sc_saw_any : bool
}.

Definition scan_start : scan := mkScan [] [] 0 false false false true false.

Definition bump_record_bytes (current amount : Z) : CM Z :=
  do! v <- st_lift (ok_or (u64_checked_add current amount)
                      (JtlUnsupported "csv-record-limit" "record length overflow")) in
  if max_record_bytes <? v
  then st_fail (JtlUnsupported "csv-record-limit"
                  ("record exceeds " +:+ pretty max_record_bytes +:+ " bytes"))
  else st_ret v.

Definition push_field (record : list CsvToken) (field : list Z) (quoted : bool) : CM (list CsvToken) :=
  do! s <- st_get in
  if negb (from_utf8 field) then st_fail (CsvError (cr_record_number s + 1) "field is not valid UTF-8")
  else
    let record := record ++ [mkToken field quoted] in
    if max_columns <? len record
    then st_fail (JtlUnsupported "csv-column-limit"
                    (pretty (len record) +:+ " columns exceeds " +:+ pretty max_columns))
    else st_ret record.

(** The end of a record, at a line break or at the end of the input. *)
Definition end_record (c : scan) : CM (option (list CsvToken)) :=
  do! record <- push_field (sc_record c) (sc_field c) (sc_was_quoted c) in
  c_modify next_number ;! st_ret (Some record).

(** A byte inside quotes. *)
Definition scan_quoted (c : scan) (byte : Z) : CM scan :=
  if byte =? 34 then
    do! next <- peek_byte in
    if bool_decide (next = Some 34) then
      take_byte ;!
      do! n <- bump_record_bytes (sc_bytes c) 1 in
      st_ret (mkScan (sc_record c) (sc_field c ++ [34]) n true (sc_was_quoted c) (sc_closed_quote c)
                (sc_at_field_start c) (sc_saw_any c))
    else st_ret (mkScan (sc_record c) (sc_field c) (sc_bytes c) false (sc_was_quoted c) true
                   (sc_at_field_start c) (sc_saw_any c))
  else st_ret (mkScan (sc_record c) (sc_field c ++ [byte]) (sc_bytes c) true (sc_was_quoted c)
                 (sc_closed_quote c) (sc_at_field_start c) (sc_saw_any c)).

(** A byte outside quotes: go on, or the record is complete. *)
Definition scan_plain (c : scan) (byte : Z) : CM (scan + list CsvToken) :=
  if sc_closed_quote c && negb (byte =? delimiter) && negb (byte =? 10) && negb (byte =? 13) then
    do! s <- st_get in
    st_fail (CsvError (cr_record_number s + 1) "characters after a closing quote are not allowed")
  else if (byte =? 34) && sc_at_field_start c then
    st_ret (inl (mkScan (sc_record c) (sc_field c) (sc_bytes c) true true (sc_closed_quote c) false
                   (sc_saw_any c)))
  else if byte =? delimiter then
    do! record <- push_field (sc_record c) (sc_field c) (sc_was_quoted c) in
    st_ret (inl (mkScan record [] (sc_bytes c) (sc_in_quotes c) false false true (sc_saw_any c)))
  else if (byte =? 10) || (byte =? 13) then
    do! next <- (if byte =? 13 then peek_byte else st_ret None) in
    (if bool_decide (next = Some 10) then
       take_byte ;! bump_record_bytes (sc_bytes c) 1 ;! st_ret ()
     else st_ret ()) ;!
    do! record <- push_field (sc_record c) (sc_field c) (sc_was_quoted c) in
    c_modify next_number ;! st_ret (inr record)
  else
    st_ret (inl (mkScan (sc_record c) (sc_field c ++ [byte]) (sc_bytes c) (sc_in_quotes c)
                   (sc_was_quoted c) (sc_closed_quote c) false (sc_saw_any c))).

(** The loop of [next_record]; each round takes a byte. *)
Fixpoint scan_loop (fuel : nat) (c : scan) : CM (option (list CsvToken)) :=
  match fuel with
  | O => st_lift OutOfFuel
  | S fuel =>
      do! byte <- take_byte in
      match byte with
      | None =>
          if sc_in_quotes c then
            do! s <- st_get in
            st_fail (CsvError (cr_record_number s + 1) "unterminated quoted field")
          else if negb (sc_saw_any c) then st_ret None
          else end_record c
      | Some byte =>
          do! n <- bump_record_bytes (sc_bytes c) 1 in
          let c := mkScan (sc_record c) (sc_field c) n (sc_in_quotes c) (sc_was_quoted c)
                     (sc_closed_quote c) (sc_at_field_start c) true in
          if sc_in_quotes c then do! c <- scan_quoted c byte in scan_loop fuel c
          else
            do! r <- scan_plain c byte in
            match r with
            | inl c => scan_loop fuel c
            | inr record => st_ret (Some record)
            end
      end
  end.

(** The bytes that are left, wherever they are buffered. *)
Definition unread (s : CsvDecoder) : list Z :=
  option_list (cr_lookahead s) ++ cr_prefix s ++ cr_input s.

(** [next_record]: every round but the last consumes a byte. *)
Definition next_record : CM (option (list CsvToken)) :=
  fun s => scan_loop (S (length (unread s))) scan_start s.
End Reader.

(** ** Headers *)

Section Header.
(** The [Debug] text of a name, which appears in diagnostics only. *)
Context (debug : list Z -> string).

Definition has_field (f : CsvField) (columns : list CsvColumn) : bool :=
  existsb (fun c => bool_decide (c = Field f)) columns.
Definition has_variable (name : list Z) (columns : list CsvColumn) : bool :=
  existsb (fun c => bool_decide (c = Variable_ name)) columns.

Definition header_error (detail : string) : result JtlError (list CsvColumn) := Err (CsvError 1 detail).

(** The loop of [parse_header]. *)
Fixpoint parse_columns (record : list CsvToken) (columns : list CsvColumn) (previous : option Z)
    (in_variables : bool) : result JtlError (list CsvColumn) :=
  match record with
  | [] => Ok columns
  | token :: record' =>
      match (if tok_quoted token then None else field_parse (tok_value token)) with
      | Some field =>
          if in_variables then
            header_error ("built-in field " +:+ field_text field +:+ " appears after sample variables")
          else if has_field field columns then
            header_error ("duplicate field " +:+ field_text field)
          else if match previous with Some p => field_order field <=? p | None => false end then
            header_error ("field " +:+ field_text field +:+ " is out of canonical order")
          else parse_columns record' (columns ++ [Field field]) (Some (field_order field)) false
      | None =>
          if bool_decide (tok_value token = []) then
            header_error "sample variable column name must not be empty"
          else if has_variable (tok_value token) columns then
            header_error ("duplicate sample variable " +:+ debug (tok_value token))
          else parse_columns record' (columns ++ [Variable_ (tok_value token)]) previous true
      end
  end.

Definition parse_header (record : list CsvToken) (maximum : Z) : result JtlError (list CsvColumn) :=
  if maximum <? len record
  then Err (JtlUnsupported "csv-column-limit"
              (pretty (len record) +:+ " columns exceeds " +:+ pretty maximum))
  else parse_columns record [] None false.

Definition is_header_delimiter_candidate (byte : Z) : bool :=
  (byte =? 9) || (byte =? 32) || (is_graphic byte && negb (is_alphanumeric byte) && negb (byte =? 34)).

(** [split_header_candidate]: the loop over the bytes of the line *)
Fixpoint split_loop (delimiter maximum : Z) (input : list Z) (record : list CsvToken) (field : list Z)
    (quoted was_quoted closed_quote at_field_start : bool) : option (list CsvToken) :=
  match input with
  | [] =>
      if quoted then None
      else if negb (from_utf8 field) then None
      else
        let record := record ++ [mkToken field was_quoted] in
        if len record <=? maximum then Some record else None
  | byte :: input' =>
      if quoted then
        if byte =? 34 then
          match input' with
          | next :: input'' =>
              if next =? 34
              then split_loop delimiter maximum input'' record (field ++ [34]) true was_quoted
                     closed_quote at_field_start
              else split_loop delimiter maximum input' record field false was_quoted true at_field_start
          | [] => split_loop delimiter maximum input' record field false was_quoted true at_field_start
          end
        else split_loop delimiter maximum input' record (field ++ [byte]) true was_quoted closed_quote
               at_field_start
      else if closed_quote && negb (byte =? delimiter) && negb (byte =? 10) && negb (byte =? 13) then None
      else if (byte =? 34) && at_field_start then
        split_loop delimiter maximum input' record field true true closed_quote false
      else if byte =? delimiter then
        if negb (from_utf8 field) then None
        else
          let record := record ++ [mkToken field was_quoted] in
          if maximum <? len record then None
          else split_loop delimiter maximum input' record [] quoted false false true
      else split_loop delimiter maximum input' record (field ++ [byte]) quoted was_quoted closed_quote false
  end.

Definition split_header_candidate (input : list Z) (delimiter maximum : Z) : option (list CsvToken) :=
  split_loop delimiter maximum input [] [] false false false true.

(** [line[..end]] up to the first line break *)
Fixpoint first_line (input : list Z) : list Z :=
  match input with
  | [] => []
  | b :: input' => if (b =? 10) || (b =? 13) then [] else b :: first_line input'
  end.

(** The candidates outside quotes, in order, and whether a quote stays open. *)
Fixpoint candidates (line : list Z) (quoted : bool) : list Z * bool :=
  match line with
  | [] => ([], quoted)
  | byte :: line' =>
      if quoted then
        if byte =? 34 then
          match line' with
          | next :: line'' => if next =? 34 then candidates line'' true else candidates line' false
          | [] => candidates line' false
          end
        else candidates line' true
      else if byte =? 34 then candidates line' true
      else if is_header_delimiter_candidate byte then
        let '(l, q) := candidates line' false in (byte :: l, q)
      else candidates line' false
  end.

Definition is_field (c : CsvColumn) : bool := match c with Field _ => true | Variable_ _ => false end.

(** Whether a candidate splits the line into a header. *)
Definition plausible (line : list Z) (maximum byte : Z) : bool :=
  match split_header_candidate line byte maximum with
  | None => false
  | Some tokens =>
      match parse_header tokens maximum with
      | Ok columns =>
          let built_in_count := length (filter (fun c => is_field c = true) columns) in
          let quoted_variable_count :=
            length (filter (fun tc => tok_quoted tc.1 && negb (is_field tc.2) = true)
                      (combine tokens columns)) in
          (2 <=? built_in_count)%nat || ((1 <=? built_in_count)%nat && (1 <=? quoted_variable_count)%nat)
      | _ => false
      end
  end.

Definition better (line : list Z) (maximum : Z) (found : list Z) (best : option (nat * Z)) (byte : Z)
    : option (nat * Z) :=
  let count := length (filter (fun b => b = byte) found) in
  if (count =? 0)%nat then best
  else if negb (plausible line maximum byte) then best
  else
    match best with
    | None => Some (count, byte)
    | Some (best_count, best_byte) =>
        if (best_count <? count)%nat || ((count =? best_count)%nat && (byte <? best_byte))
        then Some (count, byte) else best
    end.

Definition header_suggests_delimiter (input : list Z) (maximum : Z) : option Z :=
  let line := first_line input in
  let '(found, quoted) := candidates line false in
  if quoted then None
  else snd <$> foldl (better line maximum found) None (Z.of_nat <$> seq 0 128).
End Header.

(** ** Opening a decoder *)

Section Open.
Context (debug : list Z -> string) (max_input_bytes max_record_bytes max_columns : Z).

(** The loop of [prime_delimiter]: the bytes up to the first line break. *)
Fixpoint take_first_record (fuel : nat) (first_record : list Z) : CM (list Z) :=
  match fuel with
  | O => st_lift OutOfFuel
  | S fuel =>
      do! byte <- take_byte max_input_bytes in
      match byte with
      | None => st_ret first_record
      | Some byte =>
          let first_record := first_record ++ [byte] in
          if max_record_bytes <? len first_record
          then st_fail (JtlUnsupported "csv-record-limit"
                          ("record exceeds " +:+ pretty max_record_bytes +:+ " bytes"))
          else if (byte =? 10) || (byte =? 13) then st_ret first_record
          else take_first_record fuel first_record
      end
  end.

(** [prime_delimiter]: the delimiter to read with *)
Definition prime_delimiter (delimiter : Z) : CM Z :=
  ensure_bom max_input_bytes ;!
  if negb (delimiter =? 44) then st_ret delimiter
  else
    do! s <- st_get in
    do! first_record <- take_first_record (S (length (unread s))) [] in
    let suggested := header_suggests_delimiter debug first_record max_columns in
    c_modify (set_prefix first_record) ;!
    match suggested with
    | Some d => st_lift (validate_delimiter d) ;! st_ret d
    | None => st_ret delimiter
    end.

Fixpoint contains (text pattern : string) : bool :=
  String.prefix pattern text
  || match text with EmptyString => false | String _ text' => contains text' pattern end.

Definition is_fatal_header_error (error : JtlError) : bool :=
  match error with
  | CsvError _ detail => contains detail "duplicate" || contains detail "must not be empty"
  | _ => false
  end.

Definition is_header_identifier (value : list Z) : bool :=
  match value with
  | [] => false
  | first :: chars =>
      ((first =? 95) || is_alphabetic first)
      && forallb (fun c => (c =? 95) || is_alphanumeric c) chars
  end.

Definition looks_like_header (record : list CsvToken) (columns configured : list CsvColumn) : bool :=
  if bool_decide (columns = configured) then true
  else
    (2 <=? length (filter (fun c => is_field c = true) columns))%nat
    && forallb (fun tc =>
         match tc.2 with
         | Field field => negb (tok_quoted tc.1) && bool_decide (field_parse (tok_value tc.1) = Some field)
         | Variable_ _ => tok_quoted tc.1 || is_header_identifier (tok_value tc.1)
         end) (combine record columns).

(** What a decoder reads with: its delimiter, its columns and the record read
    while opening that is not a header. *)
Record CsvLayout := mkLayout {
  la_delimiter : Z;
  la_columns : list CsvColumn;
  la_pending : option (list CsvToken)
}.

(** The end of [with_limits]: the columns fit the bound. *)
Definition checked_layout (l : CsvLayout) : CM CsvLayout :=
  if max_columns <? len (la_columns l)
  then st_fail (JtlUnsupported "csv-column-limit"
                  (pretty (len (la_columns l)) +:+ " columns exceeds " +:+ pretty max_columns))
  else st_ret l.

(** [with_limits] once the configuration is validated and the decoder
    allocated: [configured] are the columns of the configuration. *)
Definition open_decoder (delimiter : Z) (print_field_names : bool) (configured : list CsvColumn)
    : CM CsvLayout :=
  do! d <- prime_delimiter delimiter in
  do! first <- next_record max_input_bytes max_record_bytes max_columns d in
  if print_field_names then
    match first with
    | None => st_fail (CsvError 1 "CSV header is missing")
    | Some header =>
        match parse_header debug header max_columns with
        | Ok columns => checked_layout (mkLayout d columns None)
        | Err error =>
            if is_fatal_header_error error then st_fail error
            else checked_layout (mkLayout d configured (Some header))
        | OutOfFuel => st_lift OutOfFuel
        end
    end
  else
    match first with
    | None => checked_layout (mkLayout d configured None)
    | Some first =>
        match parse_header debug first max_columns with
        | Ok columns =>
            if looks_like_header first columns configured
            then checked_layout (mkLayout d columns None)
            else checked_layout (mkLayout d configured (Some first))
        | _ => checked_layout (mkLayout d configured (Some first))
        end
    end.

(** [next_event] up to the decoding of the record: the record kept while
    opening comes first. *)
Definition next_row (l : CsvLayout) : CM (option (list CsvToken) * CsvLayout) :=
  match la_pending l with
  | Some record => st_ret (Some record, mkLayout (la_delimiter l) (la_columns l) None)
  | None =>
      do! r <- next_record max_input_bytes max_record_bytes max_columns (la_delimiter l) in
      st_ret (r, l)
  end.
End Open.
