(* ===== verification/CsvProps.v ===== *)
(** * CSV records: round trip, headers and dates

    What is written is read back: theorems on the record level of the CSV
    codec ([Csv]), on its two readers of header lines, on the bytes it loses
    when a file opens with a very short line, and on the calendar. *)

From stdpp Require Import strings pretty.
From S2P Require Import Prelude Wire Csv.

(** ** The reader as a list of bytes *)

Section Reading.
Context (max_input : Z).

(** A decoder past the byte order mark, with [l] still to be read, within its
    input bound. *)
Record reads_as (s : CsvDecoder) (l : list Z) (k : Z) : Prop := {
  ra_bom : cr_bom_checked s = true;
  ra_unread : unread s = l;
  ra_count : 0 <= cr_input_bytes s;
  ra_bound : cr_input_bytes s + len (cr_input s) <= max_input;
  ra_max : max_input <= u64_max;
  ra_eof : cr_eof s = true -> cr_input s = [];
  ra_number : cr_record_number s = k
}.

Lemma ensure_bom_done s : cr_bom_checked s = true -> ensure_bom max_input s = (Ok (), s).
Proof. intros H. unfold ensure_bom, st_bind, st_get. by rewrite H. Qed.

Lemma len_succ {A} (x : A) l : len (x :: l) = len l + 1.
Proof. unfold len. simpl. lia. Qed.

Lemma read_byte_run s k : reads_as s (cr_input s) k -> cr_lookahead s = None -> cr_prefix s = [] ->
  exists s', read_byte_raw max_input s = (Ok (head (cr_input s)), s')
    /\ reads_as s' (tail (cr_input s)) k /\ cr_lookahead s' = None /\ cr_prefix s' = [].
Proof.
  intros [H1 H2 H3 H4 H5 H6 H7] Hl Hp. unfold read_byte_raw, st_bind, st_get, c_modify, st_ret, st_fail.
  destruct (cr_eof s) eqn:Ee.
  - specialize (H6 eq_refl). rewrite H6. exists s. split_and!; try done.
    split; rewrite ?H6; try done; [unfold unread; by rewrite Hl, Hp, H6|by rewrite H6 in H4].
  - destruct (cr_input s) as [|b input] eqn:Ei.
    + eexists. split; [done|]. split_and!; try done.
      split; simpl; rewrite ?Ei; done.
    + rewrite len_succ in H4. pose proof (Zle_0_nat (length input)). unfold len in *.
      rewrite (proj2 (u64_checked_add_Some _ _ (cr_input_bytes s + 1))) by lia.
      rewrite (proj2 (Z.ltb_ge _ _)) by lia. eexists. split; [done|]. split_and!; try done.
      split; simpl; try done; [unfold unread; simpl; by rewrite Hl, Hp|lia|unfold len; lia|by rewrite Ee].
Qed.

Lemma take_byte_run s l k : reads_as s l k ->
  exists s', take_byte max_input s = (Ok (head l), s') /\ reads_as s' (tail l) k.
Proof.
  intros H. pose proof H as [H1 <- H3 H4 H5 H6 H7]. unfold take_byte, st_bind at 1.
  rewrite ensure_bom_done by done. unfold st_bind, st_get, c_modify, st_ret.
  unfold unread in *. destruct (cr_lookahead s) as [b|] eqn:El; simpl.
  - eexists. split; [done|]. by split.
  - destruct (cr_prefix s) as [|b p] eqn:Ep; simpl.
    + destruct (read_byte_run s k) as (s' & -> & H' & _ & _); [|done..|eauto].
      split; try done. unfold unread. by rewrite El, Ep.
    + eexists. split; [done|]. split; simpl; try done. unfold unread. simpl. by rewrite El.
Qed.

Lemma peek_byte_run s l k : reads_as s l k ->
  exists s', peek_byte max_input s = (Ok (head l), s') /\ reads_as s' l k.
Proof.
  intros H. pose proof H as [H1 Hu H3 H4 H5 H6 H7]. unfold peek_byte, st_bind at 1.
  rewrite ensure_bom_done by done. unfold st_bind, st_get, c_modify, st_ret.
  unfold unread in Hu. destruct (cr_lookahead s) as [b|] eqn:El; simpl in Hu.
  - exists s. by subst l.
  - destruct (cr_prefix s) as [|b p] eqn:Ep; simpl in Hu.
    + destruct (read_byte_run s k) as (s' & -> & [G1 G2 G3 G4 G5 G6 G7] & Gl & Gp); [|done..|].
      { split; try done. unfold unread. by rewrite El, Ep. }
      subst l. eexists. split; [done|]. split; simpl; try done.
      unfold unread in *. simpl in *. rewrite Gl, Gp in G2. rewrite Gp. simpl in *. rewrite G2.
      by destruct (cr_input s).
    + subst l. eexists. split; [done|]. by split.
Qed.

Lemma next_number_reads s l k : reads_as s l k -> reads_as (next_number s) l (k + 1).
Proof. intros [H1 H2 H3 H4 H5 H6 H7]. split; simpl; try done. by rewrite H7. Qed.
End Reading.

(** ** Steps of the record scanner *)

Section Scanning.
Context (mi mr mc d : Z) (Hmr : mr <= u64_max).
Notation loop := (scan_loop mi mr mc d).
Notation reads := (reads_as mi).

Lemma bump_ok n s : 0 <= n -> n + 1 <= mr -> bump_record_bytes mr n 1 s = (Ok (n + 1), s).
Proof.
  intros H1 H2. unfold bump_record_bytes, st_bind, st_lift, ok_or.
  rewrite (proj2 (u64_checked_add_Some _ _ (n + 1))) by lia. by rewrite (proj2 (Z.ltb_ge _ _)) by lia.
Qed.

Lemma push_ok record field q s : from_utf8 field = true -> len record + 1 <= mc ->
  push_field mc record field q s = (Ok (record ++ [mkToken field q]), s).
Proof.
  intros Hu Hc. unfold push_field, st_bind, st_get. rewrite Hu. simpl.
  rewrite (proj2 (Z.ltb_ge _ _)); [done|]. unfold len in *. rewrite length_app. simpl. lia.
Qed.

(** One round of the loop on a byte. *)
Lemma loop_byte fuel c b l s k : reads s (b :: l) k -> 0 <= sc_bytes c -> sc_bytes c + 1 <= mr ->
  exists s', reads s' l k /\
    let c' := mkScan (sc_record c) (sc_field c) (sc_bytes c + 1) (sc_in_quotes c) (sc_was_quoted c)
                (sc_closed_quote c) (sc_at_field_start c) true in
    loop (S fuel) c s =
      (if sc_in_quotes c then do! c <- scan_quoted mi mr c' b in loop fuel c
       else do! r <- scan_plain mi mr mc d c' b in
            match r with inl c => loop fuel c | inr record => st_ret (Some record) end) s'.
Proof.
  intros H H1 H2. destruct (take_byte_run mi s (b :: l) k H) as (s' & E & H'). exists s'. split; [done|].
  cbn [scan_loop]. unfold st_bind at 1. rewrite E. cbn [head]. unfold st_bind at 1.
  by rewrite bump_ok.
Qed.

(** Outside quotes. *)
Lemma loop_plain fuel rec f n w a sw b l s k :
  reads s (b :: l) k -> 0 <= n -> n + 1 <= mr -> b <> d -> b <> 10 -> b <> 13 -> b <> 34 ->
  exists s', reads s' l k /\
    loop (S fuel) (mkScan rec f n false w false a sw) s
    = loop fuel (mkScan rec (f ++ [b]) (n + 1) false w false false true) s'.
Proof.
  intros H H1 H2 Hd H10 H13 H34.
  destruct (loop_byte fuel (mkScan rec f n false w false a sw) b l s k H H1 H2) as (s' & Hs & ->).
  exists s'. split; [done|]. simpl. unfold scan_plain, st_bind. simpl.
  by rewrite (proj2 (Z.eqb_neq b d)), (proj2 (Z.eqb_neq b 10)), (proj2 (Z.eqb_neq b 13)),
    (proj2 (Z.eqb_neq b 34)) by done.
Qed.

Lemma loop_open fuel rec f n w sw l s k :
  reads s (34 :: l) k -> 0 <= n -> n + 1 <= mr ->
  exists s', reads s' l k /\
    loop (S fuel) (mkScan rec f n false w false true sw) s
    = loop fuel (mkScan rec f (n + 1) true true false false true) s'.
Proof.
  intros H H1 H2.
  destruct (loop_byte fuel (mkScan rec f n false w false true sw) 34 l s k H H1 H2) as (s' & Hs & ->).
  by exists s'.
Qed.

Lemma loop_delimiter fuel rec f n w cq a sw l s k :
  reads s (d :: l) k -> 0 <= n -> n + 1 <= mr -> d <> 34 -> from_utf8 f = true -> len rec + 1 <= mc ->
  exists s', reads s' l k /\
    loop (S fuel) (mkScan rec f n false w cq a sw) s
    = loop fuel (mkScan (rec ++ [mkToken f w]) [] (n + 1) false false false true true) s'.
Proof.
  intros H H1 H2 H34 Hu Hc.
  destruct (loop_byte fuel (mkScan rec f n false w cq a sw) d l s k H H1 H2) as (s' & Hs & ->).
  exists s'. split; [done|]. simpl. unfold scan_plain. simpl. rewrite Z.eqb_refl, andb_false_r. simpl.
  rewrite (proj2 (Z.eqb_neq d 34)) by done. simpl. unfold st_bind. by rewrite push_ok.
Qed.

(** Inside quotes. *)
Lemma loop_quoted fuel rec f n w cq a sw b l s k :
  reads s (b :: l) k -> 0 <= n -> n + 1 <= mr -> b <> 34 ->
  exists s', reads s' l k /\
    loop (S fuel) (mkScan rec f n true w cq a sw) s
    = loop fuel (mkScan rec (f ++ [b]) (n + 1) true w cq a true) s'.
Proof.
  intros H H1 H2 H34.
  destruct (loop_byte fuel (mkScan rec f n true w cq a sw) b l s k H H1 H2) as (s' & Hs & ->).
  exists s'. split; [done|]. simpl. unfold scan_quoted, st_bind.
  by rewrite (proj2 (Z.eqb_neq b 34)) by done.
Qed.

Lemma loop_doubled fuel rec f n w cq a sw l s k :
  reads s (34 :: 34 :: l) k -> 0 <= n -> n + 2 <= mr ->
  exists s', reads s' l k /\
    loop (S fuel) (mkScan rec f n true w cq a sw) s
    = loop fuel (mkScan rec (f ++ [34]) (n + 2) true w cq a true) s'.
Proof.
  intros H H1 H2.
  destruct (loop_byte fuel (mkScan rec f n true w cq a sw) 34 (34 :: l) s k H H1 ltac:(simpl; lia))
    as (s1 & Hs & ->). simpl.
  destruct (peek_byte_run mi s1 _ k Hs) as (s2 & E2 & Hs2).
  destruct (take_byte_run mi s2 _ k Hs2) as (s3 & E3 & Hs3). exists s3. split; [done|].
  unfold scan_quoted, st_bind. simpl. rewrite E2. simpl. rewrite E3, bump_ok by lia. simpl.
  by replace (n + 1 + 1) with (n + 2) by lia.
Qed.

Lemma loop_close fuel rec f n w cq a sw l s k :
  reads s (34 :: l) k -> 0 <= n -> n + 1 <= mr -> head l <> Some 34 ->
  exists s', reads s' l k /\
    loop (S fuel) (mkScan rec f n true w cq a sw) s
    = loop fuel (mkScan rec f (n + 1) false w true a true) s'.
Proof.
  intros H H1 H2 Hh.
  destruct (loop_byte fuel (mkScan rec f n true w cq a sw) 34 l s k H H1 H2) as (s1 & Hs & ->). simpl.
  destruct (peek_byte_run mi s1 _ k Hs) as (s2 & E2 & Hs2). exists s2. split; [done|].
  unfold scan_quoted, st_bind. simpl. rewrite E2. by rewrite bool_decide_eq_false_2.
Qed.

(** The end of a record. *)
Lemma loop_break e fuel rec f n w cq a sw rest s k :
  reads s (line_ending e ++ rest) k -> 0 <= n -> n + len (line_ending e) <= mr ->
  d <> 10 -> d <> 13 -> (e = Cr -> head rest <> Some 10) ->
  from_utf8 f = true -> len rec + 1 <= mc ->
  exists s', reads s' rest (k + 1) /\
    loop (S fuel) (mkScan rec f n false w cq a sw) s = (Ok (Some (rec ++ [mkToken f w])), s').
Proof.
  intros H H1 H2 Hd10 Hd13 Hcr Hu Hc.
  assert (exists b l, line_ending e ++ rest = b :: l /\ (b = 10 /\ l = rest /\ e = Lf \/
    b = 13 /\ ((e = CrLf /\ l = 10 :: rest) \/ (e = Cr /\ l = rest)))) as (b & l & El & Hb).
  { destruct e; simpl; eexists _, _; split; eauto 10. }
  rewrite El in H. assert (n + 1 <= mr) by (destruct e; unfold len in *; simpl in *; lia).
  destruct (loop_byte fuel (mkScan rec f n false w cq a sw) b l s k H H1 ltac:(done)) as (s1 & Hs & ->).
  simpl. unfold scan_plain. simpl.
  assert (negb (b =? 10) && negb (b =? 13) = false) as Hbr by (destruct Hb as [[-> _]|[-> _]]; done).
  rewrite <- (andb_assoc (cq && _)), Hbr, andb_false_r.
  rewrite (proj2 (Z.eqb_neq b 34)), (proj2 (Z.eqb_neq b d)) by (destruct Hb as [[-> _]|[-> _]]; done). simpl.
  destruct Hb as [(-> & -> & ->)|(-> & [(-> & ->)|(-> & ->)])]; simpl; unfold st_bind.
  - simpl. rewrite push_ok by done. eexists. split; [by apply next_number_reads|done].
  - destruct (peek_byte_run mi s1 _ k Hs) as (s2 & E2 & Hs2).
    destruct (take_byte_run mi s2 _ k Hs2) as (s3 & E3 & Hs3).
    rewrite E2. simpl. rewrite E3, bump_ok by (unfold len in *; simpl in *; lia). simpl.
    rewrite push_ok by done.
    eexists. split; [by apply next_number_reads|done].
  - destruct (peek_byte_run mi s1 _ k Hs) as (s2 & E2 & Hs2). rewrite E2.
    rewrite bool_decide_eq_false_2 by auto. simpl. rewrite push_ok by done.
    eexists. split; [by apply next_number_reads|done].
Qed.

(** ** Values *)

Lemma needs_quotes_false v b : needs_quotes d v = false -> b ∈ v -> b <> d /\ b <> 34 /\ b <> 10 /\ b <> 13.
Proof.
  unfold needs_quotes. intros H Hb. apply not_true_iff_false in H. rewrite existsb_exists in H.
  split_and!; intros ->; apply H; eexists; (split; [by apply list_elem_of_In|]);
    rewrite Z.eqb_refl, ?orb_true_r; done.
Qed.

Lemma scan_unquoted v : forall fuel rec f n w a sw l s k,
  reads s (v ++ l) k -> 0 <= n -> n + len v <= mr ->
  (forall b, b ∈ v -> b <> d /\ b <> 34 /\ b <> 10 /\ b <> 13) ->
  exists s' a' sw', reads s' l k /\
    loop (length v + fuel) (mkScan rec f n false w false a sw) s
    = loop fuel (mkScan rec (f ++ v) (n + len v) false w false a' sw') s'.
Proof.
  induction v as [|b v IH]; intros fuel rec f n w a sw l s k H H1 H2 Hv.
  - exists s, a, sw. rewrite app_nil_r. by replace (n + len (@nil Z)) with n by (unfold len; simpl; lia).
  - rewrite len_succ in *. pose proof (Zle_0_nat (length v)). unfold len in H2.
    destruct (Hv b ltac:(left)) as (? & ? & ? & ?).
    destruct (loop_plain (length v + fuel) rec f n w a sw b (v ++ l) s k) as (s1 & Hs1 & E1); try done; [lia|].
    destruct (IH fuel rec (f ++ [b]) (n + 1) w false true l s1 k) as (s2 & a2 & sw2 & Hs2 & E2);
      [done|lia|unfold len; lia|intros; apply Hv; by right|].
    exists s2, a2, sw2. split; [done|]. cbn [length Nat.add]. rewrite E1, E2, <- (assoc_L (++)).
    by replace (n + 1 + len v) with (n + (len v + 1)) by lia.
Qed.

Lemma escape_cons b v : escape (b :: v) = (if b =? 34 then [34; b] else [b]) ++ escape v.
Proof. done. Qed.

Lemma scan_escaped v : forall fuel rec f n w cq a sw l s k,
  reads s (escape v ++ l) k -> 0 <= n -> n + len (escape v) <= mr ->
  exists s' sw', reads s' l k /\
    loop (length v + fuel) (mkScan rec f n true w cq a sw) s
    = loop fuel (mkScan rec (f ++ v) (n + len (escape v)) true w cq a sw') s'.
Proof.
  induction v as [|b v IH]; intros fuel rec f n w cq a sw l s k H H1 H2.
  - exists s, sw. rewrite app_nil_r. by replace (n + len (escape [])) with n by (unfold len; simpl; lia).
  - rewrite escape_cons in *. pose proof (Zle_0_nat (length (escape v))).
    cbn [length Nat.add]. destruct (Z.eqb_spec b 34) as [->|Hb].
    + assert (len ([34; 34] ++ escape v) = len (escape v) + 2) as El by (unfold len; simpl; lia).
      rewrite El in *. unfold len in H2.
      destruct (loop_doubled (length v + fuel) rec f n w cq a sw (escape v ++ l) s k) as (s1 & Hs1 & E1);
        [done|done|lia|].
      destruct (IH fuel rec (f ++ [34]) (n + 2) w cq a true l s1 k) as (s2 & sw2 & Hs2 & E2);
        [done|lia|unfold len; lia|].
      exists s2, sw2. split; [done|]. rewrite E1, E2, <- (assoc_L (++)).
      by replace (n + 2 + len (escape v)) with (n + (len (escape v) + 2)) by lia.
    + assert (len ([b] ++ escape v) = len (escape v) + 1) as El by (unfold len; simpl; lia).
      rewrite El in *. unfold len in H2.
      destruct (loop_quoted (length v + fuel) rec f n w cq a sw b (escape v ++ l) s k) as (s1 & Hs1 & E1);
        [done|done|lia|done|].
      destruct (IH fuel rec (f ++ [b]) (n + 1) w cq a true l s1 k) as (s2 & sw2 & Hs2 & E2);
        [done|lia|unfold len; lia|].
      exists s2, sw2. split; [done|]. rewrite E1, E2, <- (assoc_L (++)).
      by replace (n + 1 + len (escape v)) with (n + (len (escape v) + 1)) by lia.
Qed.

(** ** Tokens and records *)

(** The text of a token, and the tokens that may stand for their value. *)
Definition token_text (t : CsvToken) : list Z :=
  if tok_quoted t then [34] ++ escape (tok_value t) ++ [34] else tok_value t.

Record token_ok (t : CsvToken) : Prop := {
  to_utf8 : from_utf8 (tok_value t) = true;
  to_plain : tok_quoted t = false -> needs_quotes d (tok_value t) = false
}.

Definition rounds (t : CsvToken) : nat :=
  if tok_quoted t then S (S (length (tok_value t))) else length (tok_value t).

Lemma escape_length v : (length v <= length (escape v))%nat.
Proof. induction v as [|b v IH]; [done|]. rewrite escape_cons, length_app. case_match; simpl; lia. Qed.

Lemma rounds_le t : (rounds t <= length (token_text t))%nat.
Proof.
  unfold rounds, token_text. destruct (tok_quoted t); [|done]. rewrite !length_app. simpl.
  pose proof (escape_length (tok_value t)). lia.
Qed.

Lemma scan_token t fuel rec n sw l s k :
  token_ok t -> reads s (token_text t ++ l) k -> 0 <= n -> n + len (token_text t) <= mr ->
  head l <> Some 34 ->
  exists s' cq a sw', reads s' l k /\
    loop (rounds t + fuel) (mkScan rec [] n false false false true sw) s
    = loop fuel (mkScan rec (tok_value t) (n + len (token_text t)) false (tok_quoted t) cq a sw') s'.
Proof.
  intros [Hu Hq] H H1 H2 Hh. unfold token_text, rounds in *. destruct (tok_quoted t).
  - assert (len ([34] ++ escape (tok_value t) ++ [34]) = len (escape (tok_value t)) + 2) as El
      by (unfold len; rewrite !length_app; simpl; lia).
    rewrite El in *. pose proof (Zle_0_nat (length (escape (tok_value t)))). unfold len in H2.
    rewrite <- !(assoc_L (++)) in H.
    destruct (loop_open (S (length (tok_value t) + fuel)) rec [] n false sw _ s k H) as (s1 & Hs1 & E1);
      [done|lia|].
    destruct (scan_escaped (tok_value t) (S fuel) rec [] (n + 1) true false false true ([34] ++ l) s1 k)
      as (s2 & sw2 & Hs2 & E2); [done|lia|unfold len; lia|].
    destruct (loop_close fuel rec (tok_value t) (n + 1 + len (escape (tok_value t))) true false false sw2
      l s2 k) as (s3 & Hs3 & E3); [done|unfold len; lia|unfold len; lia|done|].
    exists s3, true, false, true. split; [done|]. cbn [Nat.add]. rewrite E1.
    replace (S (length (tok_value t) + fuel)) with (length (tok_value t) + S fuel)%nat by lia.
    rewrite E2. cbn [app]. rewrite E3.
    by replace (n + 1 + len (escape (tok_value t)) + 1) with (n + (len (escape (tok_value t)) + 2)) by lia.
  - destruct (scan_unquoted (tok_value t) fuel rec [] n false true sw l s k) as (s1 & a & sw1 & Hs1 & E1);
      [done|done|done|intros b; apply needs_quotes_false; by apply Hq|].
    by exists s1, false, a, sw1.
Qed.

Lemma join_cons x y l : join d (x :: y :: l) = x ++ [d] ++ join d (y :: l).
Proof. done. Qed.

Context (Hd34 : d <> 34) (Hd10 : d <> 10) (Hd13 : d <> 13).

Lemma ending_head e rest : head (line_ending e ++ rest) <> Some 34.
Proof. by destruct e. Qed.

Lemma scan_tokens e rest ts : (e = Cr -> head rest <> Some 10) -> forall t rec n sw s k fuel,
  Forall token_ok (t :: ts) -> len rec + len (t :: ts) <= mc -> 0 <= n ->
  n + len (join d (token_text <$> t :: ts)) + len (line_ending e) <= mr ->
  reads s (join d (token_text <$> t :: ts) ++ line_ending e ++ rest) k ->
  (length (join d (token_text <$> t :: ts)) < fuel)%nat ->
  exists s', reads s' rest (k + 1) /\
    loop fuel (mkScan rec [] n false false false true sw) s = (Ok (Some (rec ++ t :: ts)), s').
Proof.
  intros Hcr. induction ts as [|u ts IH]; intros t rec n sw s k fuel Hok Hc H1 H2 H Hf;
    inversion Hok as [|? ? Ht Hts]; subst; pose proof (rounds_le t) as Hr;
    pose proof (Zle_0_nat (length (token_text t))) as Hp0.
  - simpl in *. destruct fuel as [|fuel]; [lia|].
    destruct (scan_token t (S (fuel - rounds t)) rec n sw (line_ending e ++ rest) s k Ht)
      as (s1 & cq & a & sw1 & Hs1 & E1); [done|done|unfold len in *; destruct e; simpl in *; lia
      |apply ending_head|].
    replace (rounds t + S (fuel - rounds t))%nat with (S fuel) in E1 by lia. rewrite E1.
    destruct (loop_break e (fuel - rounds t) rec (tok_value t) (n + len (token_text t)) (tok_quoted t) cq a
      sw1 rest s1 k) as (s2 & Hs2 & E2); try done; [unfold len; lia|apply Ht|].
    exists s2. split; [done|]. rewrite E2. by destruct t.
  - rewrite !fmap_cons, join_cons in *. rewrite <- !(assoc_L (++)) in H.
    assert (len (token_text t ++ [d] ++ join d (token_text <$> u :: ts))
      = len (token_text t) + 1 + len (join d (token_text <$> u :: ts))) as El
      by (unfold len; rewrite !length_app; simpl; lia).
    rewrite <- fmap_cons in *. rewrite El in H2. rewrite !length_app in Hf. cbn [length] in Hf.
    pose proof (Zle_0_nat (length (join d (token_text <$> u :: ts)))) as Hp1.
    assert (0 < len (line_ending e)) as He by (by destruct e).
    destruct (scan_token t (S (fuel - S (rounds t))) rec n sw
      ([d] ++ join d (token_text <$> u :: ts) ++ line_ending e ++ rest) s k Ht)
      as (s1 & cq & a & sw1 & Hs1 & E1); [done|done|unfold len in *; lia|simpl; congruence|].
    replace (rounds t + S (fuel - S (rounds t)))%nat with fuel in E1 by lia. rewrite E1.
    rewrite len_succ in Hc. pose proof (Zle_0_nat (length (u :: ts))) as Hp2.
    destruct (loop_delimiter (fuel - S (rounds t)) rec (tok_value t) (n + len (token_text t))
      (tok_quoted t) cq a sw1 _ s1 k Hs1) as (s2 & Hs2 & E2);
      [unfold len; lia|unfold len in *; lia|done|apply Ht|unfold len in *; lia|].
    rewrite E2. replace (rec ++ [mkToken (tok_value t) (tok_quoted t)]) with (rec ++ [t]) by (by destruct t).
    destruct (IH u (rec ++ [t]) (n + len (token_text t) + 1) true s2 k (fuel - S (rounds t))%nat)
      as (s3 & Hs3 & E3); [done| |unfold len; lia|unfold len in *; lia|done|lia|].
    { unfold len in *. rewrite length_app. simpl in *. lia. }
    exists s3. split; [done|]. by rewrite E3, <- (assoc_L (++)).
Qed.
End Scanning.

(** ** Records *)

Section Records.
Context (mi mr mc d : Z) (Hmr : mr <= u64_max) (Hd : validate_delimiter d = Ok ()).
Notation reads := (reads_as mi).

Lemma valid_delimiter : d <> 34 /\ d <> 10 /\ d <> 13.
Proof.
  split_and!; intros ->; vm_compute in Hd; discriminate.
Qed.

(** The line of tokens, read as a record. *)
Lemma next_record_tokens e rest ts s k : (e = Cr -> head rest <> Some 10) -> ts <> [] ->
  Forall (token_ok d) ts -> len ts <= mc ->
  len (join d (token_text <$> ts)) + len (line_ending e) <= mr ->
  reads s (join d (token_text <$> ts) ++ line_ending e ++ rest) k ->
  exists s', reads s' rest (k + 1) /\ next_record mi mr mc d s = (Ok (Some ts), s').
Proof.
  intros Hcr Hne Hok Hc Hr H. destruct ts as [|t ts]; [done|]. destruct valid_delimiter as (H1 & H2 & H3).
  unfold next_record. rewrite (ra_unread _ _ _ _ H).
  destruct (scan_tokens mi mr mc d Hmr H1 H2 H3 e rest ts Hcr t [] 0 false s k
    (S (length (join d (token_text <$> t :: ts) ++ line_ending e ++ rest)))) as (s' & Hs & E);
    try done; [|eauto].
  rewrite length_app. lia.
Qed.

(** The tokens a list of values is written as. *)
Definition value_token (v : list Z) : CsvToken := mkToken v (needs_quotes d v).

Lemma value_token_text v : token_text (value_token v) = append_csv_token [] v d.
Proof. unfold token_text, append_csv_token. simpl. by destruct (needs_quotes d v). Qed.

Lemma value_token_ok v : from_utf8 v = true -> token_ok d (value_token v).
Proof. by split. Qed.

Lemma append_token_app l v : append_csv_token l v d = l ++ append_csv_token [] v d.
Proof. unfold append_csv_token. by destruct (needs_quotes d v). Qed.

Lemma record_line_app vs l : vs <> [] ->
  record_line d l false vs = l ++ [d] ++ join d (token_text <$> (value_token <$> vs)).
Proof.
  revert l. induction vs as [|v vs IH]; intros l Hne; [done|]. simpl record_line.
  rewrite append_token_app, <- value_token_text. destruct vs as [|w vs].
  - simpl. by rewrite <- !(assoc_L (++)).
  - rewrite IH by done. rewrite !fmap_cons, join_cons. by rewrite <- !(assoc_L (++)).
Qed.

Lemma record_line_join vs : vs <> [] -> record_line d [] true vs = join d (token_text <$> (value_token <$> vs)).
Proof.
  intros Hne. destruct vs as [|v [|w vs]]; [done|simpl; by rewrite value_token_text|].
  change (record_line d [] true (v :: w :: vs)) with (record_line d (append_csv_token [] v d) false (w :: vs)).
  rewrite record_line_app by done. rewrite !fmap_cons, join_cons. by rewrite value_token_text.
Qed.

Lemma write_raw_inv e line bytes : write_record_raw mr e line = Ok bytes ->
  bytes = line ++ line_ending e /\ len line + len (line_ending e) <= mr.
Proof.
  unfold write_record_raw. intros H. apply res_bind_Ok in H as (n & H1 & H).
  destruct (u64_checked_add _ _) as [m|] eqn:E; simplify_eq/=. apply u64_checked_add_Some in E as [_ E]. subst.
  destruct (Z.ltb_spec mr (len line + len (line_ending e))); simplify_eq. done.
Qed.

Lemma write_record_inv e vs bytes : vs <> [] -> write_record mr d e vs = Ok bytes ->
  bytes = join d (token_text <$> (value_token <$> vs)) ++ line_ending e
  /\ len (join d (token_text <$> (value_token <$> vs))) + len (line_ending e) <= mr.
Proof. intros Hne H. unfold write_record in H. rewrite record_line_join in H by done. by apply write_raw_inv. Qed.

(** A record does not begin with a line feed, so a lone carriage return before
    it stays a line break of its own. *)
Lemma token_head v l : head l <> Some 10 -> head (token_text (value_token v) ++ l) <> Some 10.
Proof.
  intros Hl. unfold token_text, value_token. simpl.
  destruct (needs_quotes d v) eqn:E; [done|]. destruct v as [|b v]; simpl; [done|].
  intros [= ->]. by destruct (needs_quotes_false d (10 :: v) 10 E) as (_ & _ & ? & _); [left|].
Qed.

Lemma record_head vs l : head l <> Some 10 ->
  head (join d (token_text <$> (value_token <$> vs)) ++ l) <> Some 10.
Proof.
  intros Hl. destruct vs as [|v [|w vs]]; [done|by apply token_head|].
  rewrite !fmap_cons, join_cons, <- (assoc_L (++)). apply token_head. simpl.
  destruct valid_delimiter. naive_solver.
Qed.

(** ** Rows *)

(** The rows written one after the other, and the rows read until the input
    ends. *)
Fixpoint write_rows (e : LineEnding) (rows : list (list (list Z))) : result JtlError (list Z) :=
  match rows with
  | [] => Ok []
  | row :: rows =>
      let? bytes := write_record mr d e row in
      let? rest := write_rows e rows in
      Ok (bytes ++ rest)
  end.

Fixpoint read_rows (fuel : nat) : CM (list (list CsvToken)) :=
  match fuel with
  | O => st_lift OutOfFuel
  | S fuel =>
      do! row <- next_record mi mr mc d in
      match row with
      | None => st_ret []
      | Some row => do! rows <- read_rows fuel in st_ret (row :: rows)
      end
  end.

Definition row_tokens (row : list (list Z)) : list CsvToken := value_token <$> row.

Definition row_ok (row : list (list Z)) : Prop :=
  row <> [] /\ len row <= mc /\ Forall (fun v => from_utf8 v = true) row.

Lemma rows_head rows bytes : Forall row_ok rows -> write_rows Cr rows = Ok bytes -> head bytes <> Some 10.
Proof.
  intros Hok H. destruct rows as [|row rows]; simpl in H; [by injection H as <-|].
  apply res_bind_Ok in H as (b1 & H1 & H). apply res_bind_Ok in H as (b2 & H2 & H). injection H as <-.
  inversion Hok as [|? ? [Hne _] _]; subst. apply write_record_inv in H1 as [-> _]; [|done].
  rewrite <- (assoc_L (++)). by apply record_head.
Qed.

Lemma next_record_end s k : reads s [] k -> exists s', reads s' [] k /\ next_record mi mr mc d s = (Ok None, s').
Proof.
  intros H. unfold next_record. rewrite (ra_unread _ _ _ _ H). simpl length. cbn [scan_loop].
  destruct (take_byte_run mi s [] k H) as (s' & E & H'). exists s'. split; [done|].
  unfold st_bind. rewrite E. done.
Qed.

Lemma read_rows_written e rows : Forall row_ok rows -> forall bytes s k,
  write_rows e rows = Ok bytes -> reads s bytes k ->
  exists s', reads s' [] (k + len rows) /\
    read_rows (S (length rows)) s = (Ok (row_tokens <$> rows), s').
Proof.
  induction rows as [|row rows IH]; intros Hok bytes s k Hw H.
  - injection Hw as <-. destruct (next_record_end s k H) as (s' & H' & E). exists s'.
    replace (k + len (@nil (list (list Z)))) with k by (unfold len; simpl; lia). split; [done|].
    cbn [read_rows]. unfold st_bind. by rewrite E.
  - inversion Hok as [|? ? (Hne & Hc & Hu) Hok']; subst. simpl in Hw.
    apply res_bind_Ok in Hw as (b1 & H1 & Hw). apply res_bind_Ok in Hw as (b2 & H2 & Hw). injection Hw as <-.
    destruct (write_record_inv e row b1 Hne H1) as [-> Hlen]. rewrite <- (assoc_L (++)) in H.
    destruct (next_record_tokens e b2 (value_token <$> row) s k) as (s1 & Hs1 & E1); try done.
    + intros ->. by eapply rows_head.
    + intros E%fmap_nil_inv. done.
    + apply Forall_fmap. eapply Forall_impl; [exact Hu|]. intros v. apply value_token_ok.
    + unfold len in *. by rewrite length_fmap.
    + destruct (IH Hok' b2 s1 (k + 1) H2 Hs1) as (s2 & Hs2 & E2). exists s2. split.
      * rewrite len_succ. by replace (k + (len rows + 1)) with (k + 1 + len rows) by lia.
      * cbn [length]. remember (S (length rows)) as fuel. cbn [read_rows]. unfold st_bind at 1.
        rewrite E1. unfold st_bind. by rewrite E2.
Qed.
End Records.

(** ** Files *)

(** The byte order mark at the start of a file is dropped. *)
Definition without_bom (input : list Z) : list Z :=
  if bool_decide (take 3 input = [0xef; 0xbb; 0xbf]) then drop 3 input else input.

Lemma read_up_to_run mi n : forall acc s k, mi <= u64_max -> cr_lookahead s = None -> cr_prefix s = [] ->
  cr_eof s = false -> 0 <= cr_input_bytes s -> cr_input_bytes s + len (cr_input s) <= mi ->
  cr_record_number s = k ->
  exists eof, read_up_to mi n acc s = (Ok (acc ++ take n (cr_input s)),
    mkDecoder (drop n (cr_input s)) None [] (cr_bom_checked s)
      (cr_input_bytes s + len (take n (cr_input s))) eof k)
  /\ (eof = true -> drop n (cr_input s) = []).
Proof.
  induction n as [|n IH]; intros acc s k Hm Hl Hp He H0 Hb Hk.
  - exists false. split; [|done]. destruct s; simpl in *; subst. by rewrite app_nil_r, Z.add_0_r.
  - cbn [read_up_to]. unfold st_bind at 1, read_byte_raw. unfold st_bind at 1, st_get. rewrite He.
    destruct (cr_input s) as [|b input] eqn:Ei.
    + exists true. split; [|done]. destruct s; simpl in *; subst. unfold set_eof. simpl.
      by rewrite app_nil_r, Z.add_0_r.
    + rewrite len_succ in Hb. pose proof (Zle_0_nat (length input)). unfold len in Hb.
      rewrite (proj2 (u64_checked_add_Some _ _ (cr_input_bytes s + 1))) by lia.
      unfold st_bind at 1, c_modify. cbn [fst snd].
      rewrite (proj2 (Z.ltb_ge _ _)) by lia. unfold st_ret.
      destruct (IH (acc ++ [b]) (set_read input (cr_input_bytes s + 1) s) k) as (eof & E & He');
        simpl; try done; [lia|unfold len; lia|].
      exists eof. rewrite E. split; [|done]. cbn [set_read cr_input cr_input_bytes cr_bom_checked take drop].
      rewrite <- (assoc_L (++)), len_succ. simpl.
      by replace (cr_input_bytes s + 1 + len (take n input)) with (cr_input_bytes s + (len (take n input) + 1))
        by lia.
Qed.

Lemma ensure_bom_run mi input : len input <= mi -> mi <= u64_max ->
  exists s, ensure_bom mi (decoder_new input) = (Ok (), s) /\ reads_as mi s (without_bom input) 0
    /\ cr_lookahead s = None
    /\ cr_prefix s = (if bool_decide (take 3 input = [0xef; 0xbb; 0xbf]) then [] else take 3 input).
Proof.
  intros H1 H2. remember 3%nat as three.
  destruct (read_up_to_run mi three [] (decoder_new input) 0) as (eof & E & He); try done.
  unfold ensure_bom. rewrite <- Heqthree. unfold st_bind, st_get. cbn [decoder_new cr_bom_checked].
  rewrite E. subst three.
  cbn [decoder_new cr_input cr_bom_checked cr_input_bytes app].
  assert (0 + len (take 3 input) + len (drop 3 input) <= mi) as Hb.
  { unfold len in *. rewrite length_take, length_drop. lia. }
  assert (0 <= 0 + len (take 3 input)) as H0 by (unfold len; lia).
  unfold without_bom. case_bool_decide as Hbom.
  - eexists. split; [done|]. split_and!; [|done|done]. by split.
  - eexists. split; [done|]. split_and!; [|done|done].
    split; simpl; try done. unfold unread. simpl. apply take_drop.
Qed.

(** What is written is read back.  Rows of values, written with a valid
    delimiter and any line ending, come back from the streaming reader as the
    same values, each marked as quoted exactly when it had to be: quotes,
    delimiters and line breaks inside values survive, and a carriage return
    that ends a row never swallows the beginning of the next one.  The input
    begins after the byte order mark, which the reader drops. *)
Theorem csv_rows_round_trip mi mr mc d e rows bytes :
  validate_delimiter d = Ok () -> mr <= u64_max -> mi <= u64_max ->
  Forall (row_ok mc) rows ->
  write_rows mr d e rows = Ok bytes -> len bytes <= mi ->
  take 3 bytes <> [0xef; 0xbb; 0xbf] ->
  exists s, (ensure_bom mi ;! read_rows mi mr mc d (S (length rows))) (decoder_new bytes)
            = (Ok (row_tokens d <$> rows), s)
    /\ unread s = [].
Proof.
  intros Hd Hmr Hmi Hok Hw Hlen Hbom.
  destruct (ensure_bom_run mi bytes Hlen Hmi) as (s & E & H & _).
  unfold without_bom in H. rewrite bool_decide_eq_false_2 in H by done.
  destruct (read_rows_written mi mr mc d Hmr Hd e rows Hok bytes s 0 Hw H) as (s' & H' & E').
  exists s'. split; [|by apply H']. unfold st_bind. by rewrite E.
Qed.

Lemma csv_rows_round_trip_witness :
  exists s, (ensure_bom 1000 ;! read_rows 1000 100 5 44 3)
    (decoder_new ([34; 97; 44; 34; 34; 13; 34; 44; 98; 13] ++ [34; 10; 34; 13]))
    = (Ok [[mkToken [97; 44; 34; 13] true; mkToken [98] false]; [mkToken [10] true]], s)
    /\ unread s = [].
Proof.
  apply (csv_rows_round_trip 1000 100 5 44 Cr [[[97; 44; 34; 13]; [98]]; [[10]]]);
    try (vm_compute; congruence).
  repeat constructor; vm_compute; congruence.
Defined.
