(* ===== verification/CsvHeader.v ===== *)
(** * CSV headers: the two readers agree, and files open as they were written

    Theorems on the header level of the CSV codec ([Csv]): the line splitter
    that looks for a delimiter agrees with the streaming reader, a file written
    with a header opens with its delimiter and its columns, and the opening of
    a file with a very short first line loses bytes. *)

From stdpp Require Import strings pretty sorting.
From S2P Require Import Prelude Wire Csv CsvProps.

(** ** The splitter and the reader *)

Section Splitting.
Context (mi mr mc d : Z) (Hmr : mr <= u64_max).
Notation loop := (scan_loop mi mr mc d).
Notation reads := (reads_as mi).

(** What a run of the reader says about a split. *)
Definition agrees (split : option (list CsvToken)) (run : result JtlError (option (list CsvToken)) * CsvDecoder)
    : Prop :=
  match split with
  | Some tokens => fst run = Ok (Some tokens)
  | None => exists e, fst run = Err e
  end.

Definition no_break (b : Z) : Prop := b <> 10 /\ b <> 13.

Lemma push_agrees rec f w s (k : list CsvToken -> CM (option (list CsvToken))) r :
  (from_utf8 f = true -> len rec + 1 <= mc -> agrees r (k (rec ++ [mkToken f w]) s)) ->
  agrees (if negb (from_utf8 f) then None else if mc <? len (rec ++ [mkToken f w]) then None else r)
    (st_bind (push_field mc rec f w) k s).
Proof.
  intros H. unfold push_field, st_bind, st_get. destruct (from_utf8 f) eqn:Eu; simpl; [|by eexists].
  destruct (Z.ltb_spec mc (len (rec ++ [mkToken f w]))) as [Hl|Hl]; [by eexists|].
  apply H; [done|]. unfold len in *. rewrite length_app in Hl. simpl in Hl. lia.
Qed.

Lemma split_end rec f q w cq a fuel n sw s k : reads s [] k -> (q = true \/ sw = true) ->
  agrees (split_loop d mc [] rec f q w cq a) (loop (S fuel) (mkScan rec f n q w cq a sw) s).
Proof.
  intros H Hsw. cbn [scan_loop]. destruct (take_byte_run mi s [] k H) as (s' & E & H').
  unfold st_bind at 1. rewrite E. cbn [head]. simpl sc_in_quotes. destruct q; simpl.
  - by eexists.
  - destruct Hsw as [| ->]; [done|]. simpl. unfold end_record. simpl.
    pose proof (push_agrees rec f w s' (fun record => c_modify next_number ;! st_ret (Some record))
      (Some (rec ++ [mkToken f w])) (fun _ _ => eq_refl)) as G.
    rewrite Z.leb_antisym. by destruct (from_utf8 f), (mc <? len (rec ++ [mkToken f w])).
Qed.

Ltac go_on IH k :=
  apply (IH k);
  first [done | by auto | unfold len; simpl in *; lia
        | match goal with H : Forall _ (_ :: _) |- _ => by apply Forall_cons in H as [] end].

Lemma split_agrees fuel : forall k l rec f q w cq a n sw s,
  Forall no_break l -> reads s l k -> (length l < fuel)%nat -> 0 <= n -> n + len l <= mr ->
  (q = true \/ sw = true \/ l <> []) ->
  agrees (split_loop d mc l rec f q w cq a) (loop fuel (mkScan rec f n q w cq a sw) s).
Proof.
  induction fuel as [|fuel IH]; intros k l rec f q w cq a n sw s Hl H Hf H0 Hn Hsw; [lia|].
  destruct l as [|b l]; [apply (split_end _ _ _ _ _ _ _ _ _ _ k); naive_solver|].
  apply Forall_cons in Hl as [[H10 H13] Hl']. rewrite len_succ in Hn.
  pose proof (Zle_0_nat (length l)) as Hp. unfold len in Hn. simpl in Hf.
  assert (n + 1 <= mr) as Hn1 by lia.
  destruct q.
  - destruct (decide (b = 34)) as [->|Hb]; cbn [split_loop].
    + destruct l as [|b2 l].
      * destruct (loop_close mi mr mc d Hmr fuel rec f n w cq a sw [] s k) as (s1 & Hs1 & ->); try done.
        go_on IH k.
      * rewrite Z.eqb_refl. destruct (Z.eqb_spec b2 34) as [->|Hb2].
        -- destruct (loop_doubled mi mr mc d Hmr fuel rec f n w cq a sw l s k) as (s1 & Hs1 & ->);
             try done; [simpl in *; lia|].
           go_on IH k.
        -- destruct (loop_close mi mr mc d Hmr fuel rec f n w cq a sw (b2 :: l) s k) as (s1 & Hs1 & ->);
             try done; [simpl; congruence|].
           go_on IH k.
    + rewrite (proj2 (Z.eqb_neq b 34)) by done.
      destruct (loop_quoted mi mr mc d Hmr fuel rec f n w cq a sw b l s k) as (s1 & Hs1 & ->); try done.
      go_on IH k.
  - destruct (loop_byte mi mr mc d Hmr fuel (mkScan rec f n false w cq a sw) b l s k) as (s1 & Hs1 & ->);
      try done. cbn [sc_in_quotes]. unfold scan_plain.
    cbn [split_loop sc_closed_quote sc_at_field_start sc_record sc_field sc_was_quoted sc_bytes sc_in_quotes
         sc_saw_any].
    rewrite (proj2 (Z.eqb_neq b 10)), (proj2 (Z.eqb_neq b 13)) by done. simpl orb. rewrite !andb_true_r.
    destruct (cq && negb (b =? d)); [by eexists|]. destruct ((b =? 34) && a).
    { go_on IH k. }
    destruct (b =? d).
    { rewrite st_bind_assoc. apply push_agrees. intros Hu Hc.
      go_on IH k. }
    unfold st_bind. go_on IH k.
Qed.
End Splitting.

(** C30 The splitter that looks for a delimiter in the first line and the
    streaming reader, which are written separately, are one function: on a
    line without line breaks the splitter finds tokens exactly when the reader
    does, the same tokens, and gives up exactly when the reader fails. *)
Theorem splitter_agrees_with_reader mi mr mc d line :
  mr <= u64_max -> mi <= u64_max -> len line <= mr -> len line <= mi ->
  line <> [] -> Forall no_break line -> take 3 line <> [0xef; 0xbb; 0xbf] ->
  match split_header_candidate line d mc with
  | Some tokens => exists s,
      (ensure_bom mi ;! next_record mi mr mc d) (decoder_new line) = (Ok (Some tokens), s)
  | None => exists e s, (ensure_bom mi ;! next_record mi mr mc d) (decoder_new line) = (Err e, s)
  end.
Proof.
  intros Hmr Hmi H1 H2 Hne Hl Hbom. destruct (ensure_bom_run mi line H2 Hmi) as (s & E & H & _).
  unfold without_bom in H. rewrite bool_decide_eq_false_2 in H by done.
  unfold st_bind. rewrite E. unfold next_record. rewrite (ra_unread _ _ _ _ H).
  pose proof (split_agrees mi mr mc d Hmr (S (length line)) 0 line [] [] false false false true 0 false s
    Hl H ltac:(lia) ltac:(lia) ltac:(lia) ltac:(auto)) as G.
  unfold agrees in G. unfold split_header_candidate, scan_start.
  destruct (split_loop d mc line [] [] false false false true), (scan_loop mi mr mc d _ _ s); simpl in G.
  - subst. by eexists.
  - destruct G as [e ->]. by eexists _, _.
Qed.

Lemma splitter_agrees_with_reader_witness :
  exists s, (ensure_bom 100 ;! next_record 100 100 9 59) (decoder_new (lit "label;'a;b';c"))
    = (Ok (Some [mkToken (lit "label") false; mkToken (lit "'a") false; mkToken (lit "b'") false;
                 mkToken (lit "c") false]), s).
Proof.
  apply (splitter_agrees_with_reader 100 100 9 59 (lit "label;'a;b';c"));
    try (vm_compute; congruence).
  repeat constructor; vm_compute; congruence.
Defined.

(** ** Header tokens *)

Definition header_tok (c : CsvColumn) : CsvToken :=
  match c with
  | Field f => mkToken (field_name f) false
  | Variable_ name => mkToken name true
  end.

Lemma field_name_plain f : forallb is_alphanumeric (field_name f) = true.
Proof. by destruct f. Qed.

Lemma field_name_utf8 f : from_utf8 (field_name f) = true.
Proof. by destruct f. Qed.

Lemma field_name_parse f : field_parse (field_name f) = Some f.
Proof. by destruct f. Qed.

Lemma field_name_long f : (3 <= length (field_name f))%nat.
Proof. destruct f; vm_compute; lia. Qed.

Lemma alphanumeric_not_special b : is_alphanumeric b = true ->
  b <> 34 /\ b <> 10 /\ b <> 13 /\ is_header_delimiter_candidate b = false.
Proof.
  intros H. unfold is_header_delimiter_candidate. rewrite H. unfold is_alphanumeric, is_digit, is_alphabetic in H.
  split_and!; lia.
Qed.

Section HeaderTokens.
Context (d : Z) (Hd : validate_delimiter d = Ok ()).

Lemma delimiter_candidate : is_alphanumeric d = false /\ is_header_delimiter_candidate d = true.
Proof.
  unfold validate_delimiter in Hd. unfold is_header_delimiter_candidate.
  destruct (is_alphanumeric d); [done|]. destruct (d =? 34); [done|]. simpl in *.
  destruct (d =? 9), (d =? 32), (is_graphic d); done.
Qed.

Lemma alphanumeric_unquoted v : forallb is_alphanumeric v = true -> needs_quotes d v = false.
Proof.
  intros H. apply not_true_iff_false. unfold needs_quotes. rewrite existsb_exists. intros (b & Hb & E).
  rewrite forallb_forall in H. specialize (H b Hb). destruct delimiter_candidate as [Hn _].
  destruct (alphanumeric_not_special b H) as (? & ? & ? & _).
  assert (b <> d) by (intros ->; congruence). lia.
Qed.

Lemma header_token_text c : header_token d c = token_text (header_tok c).
Proof.
  destruct c as [f|v]; [|done]. unfold header_token, append_csv_token.
  by rewrite alphanumeric_unquoted by apply field_name_plain.
Qed.

Definition name_ok (v : list Z) : Prop := from_utf8 v = true /\ v <> [] /\ Forall no_break v.

Definition column_ok (c : CsvColumn) : Prop :=
  match c with Field _ => True | Variable_ v => name_ok v end.

Lemma header_tok_ok c : column_ok c -> token_ok d (header_tok c).
Proof.
  destruct c as [f|v]; intros H; split; simpl; try done.
  - apply field_name_utf8.
  - intros _. apply alphanumeric_unquoted, field_name_plain.
  - by destruct H.
Qed.

(** No token of a header breaks the line. *)
Lemma escape_no_break v : Forall no_break v -> Forall no_break (escape v).
Proof.
  induction 1 as [|b v Hb _ IH]; [constructor|]. rewrite escape_cons. apply Forall_app. split; [|done].
  case_match; rewrite ?Forall_cons, ?Forall_nil; done.
Qed.

Lemma header_tok_no_break c : column_ok c -> Forall no_break (token_text (header_tok c)).
Proof.
  destruct c as [f|v]; intros H; unfold token_text; simpl.
  - pose proof (field_name_plain f) as Hp. rewrite forallb_forall in Hp. apply Forall_forall.
    intros b Hb%list_elem_of_In%Hp.
    destruct (alphanumeric_not_special b Hb) as (_ & ? & ? & _). done.
  - destruct H as (_ & _ & H). constructor; [done|]. apply Forall_app. split; [by apply escape_no_break|].
    by rewrite Forall_singleton.
Qed.

Lemma join_no_break (cs : list CsvColumn) : Forall column_ok cs ->
  Forall no_break (join d (token_text <$> (header_tok <$> cs))).
Proof.
  assert (no_break d) as Hbd by (split; intros ->; done).
  induction 1 as [|c cs Hc Hcs IH]; [constructor|].
  destruct cs as [|c' cs]; [by apply header_tok_no_break|].
  rewrite !fmap_cons, join_cons. rewrite !Forall_app. split_and!; [by apply header_tok_no_break| |done].
  by rewrite Forall_singleton.
Qed.

Lemma first_line_app l l' : Forall no_break l -> first_line (l ++ l') = l ++ first_line l'.
Proof.
  induction 1 as [|b l [H1 H2] _ IH]; [done|]. simpl.
  rewrite (proj2 (Z.eqb_neq b 10)), (proj2 (Z.eqb_neq b 13)) by done. simpl. by rewrite IH.
Qed.
End HeaderTokens.

(** ** Parsing a header *)

Section Parsing.
Context (debug : list Z -> string).
Notation parse := (parse_columns debug).

Definition before (f g : CsvField) : Prop := field_order f < field_order g.

(** The columns collected so far leave [f] free. *)
Definition below (cols : list CsvColumn) (previous : option Z) : Prop :=
  forall g, Field g ∈ cols -> exists p, previous = Some p /\ field_order g <= p.

Lemma has_field_false f cols : Field f ∉ cols -> has_field f cols = false.
Proof.
  intros H. apply not_true_iff_false. unfold has_field. rewrite existsb_exists.
  intros (c & Hc & E). apply bool_decide_eq_true in E as ->. by apply H, list_elem_of_In.
Qed.

Lemma has_variable_false v cols : Variable_ v ∉ cols -> has_variable v cols = false.
Proof.
  intros H. apply not_true_iff_false. unfold has_variable. rewrite existsb_exists.
  intros (c & Hc & E). apply bool_decide_eq_true in E as ->. by apply H, list_elem_of_In.
Qed.

Lemma parse_fields fs : forall cols previous rest, StronglySorted before fs -> below cols previous ->
  (forall f p, f ∈ fs -> previous = Some p -> p < field_order f) ->
  exists previous', parse ((header_tok <$> (Field <$> fs)) ++ rest) cols previous false
    = parse rest (cols ++ (Field <$> fs)) previous' false.
Proof.
  induction fs as [|f fs IH]; intros cols previous rest Hs Hb Hp.
  { exists previous. by rewrite app_nil_r. }
  apply StronglySorted_inv in Hs as [Hs Hf]. rewrite Forall_forall in Hf.
  cbn [fmap list_fmap app parse_columns header_tok tok_quoted tok_value]. rewrite field_name_parse.
  rewrite has_field_false.
  2: { intros (p & -> & Hle)%Hb. specialize (Hp f p ltac:(left) eq_refl). lia. }
  assert (match previous with Some p => field_order f <=? p | None => false end = false) as ->.
  { destruct previous as [p|]; [|done]. specialize (Hp f p ltac:(left) eq_refl). lia. }
  destruct (IH (cols ++ [Field f]) (Some (field_order f)) rest) as (previous' & E); [done| | |].
  - intros g [Hg|Hg]%elem_of_app; eexists; (split; [done|]).
    + destruct (Hb g Hg) as (p & -> & Hle). specialize (Hp f p ltac:(left) eq_refl). lia.
    + apply list_elem_of_singleton in Hg as [= ->]. done.
  - intros g p Hg [= <-]. by apply Hf.
  - exists previous'. etransitivity; [exact E|]. by rewrite <- (assoc_L (++)).
Qed.

Lemma parse_variables vs : forall cols previous b, Forall (fun v => v <> []) vs -> NoDup vs ->
  (forall v, v ∈ vs -> Variable_ v ∉ cols) ->
  parse (header_tok <$> (Variable_ <$> vs)) cols previous b = Ok (cols ++ (Variable_ <$> vs)).
Proof.
  induction vs as [|v vs IH]; intros cols previous b Hne Hn Hc; [by rewrite app_nil_r|].
  apply Forall_cons in Hne as [Hv Hne]. apply NoDup_cons in Hn as [Hnv Hn].
  cbn [fmap list_fmap parse_columns header_tok tok_quoted tok_value].
  rewrite bool_decide_eq_false_2, has_variable_false by (try done; apply Hc; left).
  etransitivity; [apply (IH (cols ++ [Variable_ v])); try done|by rewrite <- (assoc_L (++))].
  intros w Hw [Hcw|Hcw]%elem_of_app; [by apply (Hc w); [right|]|].
  apply list_elem_of_singleton in Hcw as [= ->]. done.
Qed.

Lemma all_fields_sorted : StronglySorted before all_fields.
Proof. repeat constructor. Qed.

Lemma StronglySorted_filter {A} (R : A -> A -> Prop) (P : A -> Prop) `{!forall x, Decision (P x)} l :
  StronglySorted R l -> StronglySorted R (filter P l).
Proof.
  induction 1 as [|x l Hl IH Hx]; [constructor|].
  destruct (decide (P x)); [rewrite filter_cons_True by done|by rewrite filter_cons_False by done].
  constructor; [done|]. apply Forall_forall. intros y [_ Hy]%list_elem_of_filter.
  rewrite Forall_forall in Hx. auto.
Qed.

Lemma parse_header_columns saves vs maximum : Forall (fun v => v <> []) vs -> NoDup vs ->
  len (columns saves vs) <= maximum ->
  parse_header debug (header_tok <$> columns saves vs) maximum = Ok (columns saves vs).
Proof.
  intros Hne Hn Hm. unfold parse_header. unfold len in *. rewrite length_fmap.
  rewrite (proj2 (Z.ltb_ge _ _)) by done. unfold columns. rewrite fmap_app.
  destruct (parse_fields (filter (fun f => saves f = true) all_fields) [] None
    (header_tok <$> (Variable_ <$> vs))) as (p & ->); [|by intros g ?%elem_of_nil|done|].
  - apply StronglySorted_filter, all_fields_sorted.
  - apply parse_variables; [done|done|]. by intros v Hv (f & ? & _)%list_elem_of_fmap.
Qed.
End Parsing.

(** ** Finding the delimiter of a header *)

Section Finding.
Context (debug : list Z -> string) (d : Z) (Hd : validate_delimiter d = Ok ()).

Definition add_found (l : list Z) (r : list Z * bool) : list Z * bool := (l ++ r.1, r.2).

Lemma candidates_plain v l : forallb is_alphanumeric v = true -> candidates (v ++ l) false = candidates l false.
Proof.
  induction v as [|b v IH]; intros H; [done|]. simpl in H. apply andb_true_iff in H as [Hb Hv].
  destruct (alphanumeric_not_special b Hb) as (Hq & _ & _ & Hc). simpl.
  rewrite (proj2 (Z.eqb_neq b 34)), Hc by done. by apply IH.
Qed.

Lemma candidates_quoted v l : head l <> Some 34 ->
  candidates (escape v ++ 34 :: l) true = candidates l false.
Proof.
  intros Hl. induction v as [|b v IH].
  - destruct l as [|b l]; [done|].
    change ((if b =? 34 then candidates l true else candidates (b :: l) false) = candidates (b :: l) false).
    rewrite (proj2 (Z.eqb_neq b 34)) by (intros ->; done). done.
  - rewrite escape_cons. destruct (Z.eqb_spec b 34) as [->|Hb]; [exact IH|].
    cbn [app candidates]. by rewrite (proj2 (Z.eqb_neq b 34)) by done.
Qed.

Lemma candidates_token c l : head l <> Some 34 ->
  candidates (token_text (header_tok c) ++ l) false = candidates l false.
Proof.
  intros Hl. destruct c as [f|v]; [apply candidates_plain, field_name_plain|].
  unfold token_text. simpl. rewrite <- (assoc_L (++)). by apply candidates_quoted.
Qed.

Lemma candidates_header c cs :
  candidates (join d (token_text <$> (header_tok <$> c :: cs))) false = (replicate (length cs) d, false).
Proof.
  revert c. induction cs as [|c' cs IH]; intros c.
  - pose proof (candidates_token c [] ltac:(done)) as E. rewrite app_nil_r in E. exact E.
  - rewrite !fmap_cons, join_cons, candidates_token by (simpl; intros [= ->]; done).
    cbn [app candidates]. destruct (delimiter_candidate d Hd) as [_ ->].
    rewrite (proj2 (Z.eqb_neq d 34)) by (intros ->; done).
    pose proof (IH c') as E. rewrite !fmap_cons in E. by rewrite E.
Qed.

(** Only the delimiter can win. *)
Lemma count_other n b : b <> d -> length (filter (fun x => x = b) (replicate n d)) = 0%nat.
Proof.
  clear Hd. intros Hb. induction n as [|n IH]; [done|]. simpl. by rewrite filter_cons_False by congruence.
Qed.

Lemma count_delimiter n : length (filter (fun x => x = d) (replicate n d)) = n.
Proof.
  induction n as [|n IH]; [done|]. simpl. rewrite filter_cons_True by done. simpl. by rewrite IH.
Qed.

Lemma foldl_better line maximum n l best : d ∉ l ->
  foldl (better debug line maximum (replicate n d)) best l = best.
Proof.
  clear Hd. revert best. induction l as [|b l IH]; intros best Hl; [done|]. cbn [foldl].
  apply not_elem_of_cons in Hl as [Hb Hl]. unfold better at 2. rewrite count_other by done. by apply IH.
Qed.

Lemma foldl_found line maximum n l : NoDup l -> d ∈ l ->
  foldl (better debug line maximum (replicate n d)) None l
  = if (0 <? n)%nat && plausible debug line maximum d then Some (n, d) else None.
Proof.
  intros Hn (l1 & l2 & ->)%list_elem_of_split. rewrite foldl_app, (foldl_better _ _ _ l1).
  - cbn [foldl]. rewrite (foldl_better _ _ _ l2).
    + unfold better. rewrite count_delimiter. destruct n as [|n]; [done|]. simpl.
      by destruct (plausible debug line maximum d).
    + apply NoDup_app in Hn as (_ & _ & Hn). by apply NoDup_cons in Hn as [].
  - apply NoDup_app in Hn as (_ & Hn & _). intros H%Hn. apply H. left.
Qed.

Lemma delimiter_ascii : d ∈ Z.of_nat <$> seq 0 128.
Proof.
  assert (0 <= d < 128).
  { unfold validate_delimiter in Hd. destruct (is_alphanumeric d || (d =? 34)); [done|].
    unfold is_graphic in Hd. destruct (negb _ && negb _ && negb _) eqn:E; [done|]. lia. }
  apply list_elem_of_fmap. exists (Z.to_nat d). split; [lia|]. apply elem_of_seq. lia.
Qed.

Lemma suggested_delimiter c cs ending maximum : Forall column_ok (c :: cs) ->
  first_line ending = [] ->
  let line := join d (token_text <$> (header_tok <$> c :: cs)) in
  header_suggests_delimiter debug (line ++ ending) maximum
  = if (0 <? length cs)%nat && plausible debug line maximum d then Some d else None.
Proof.
  intros Hcs He line. unfold header_suggests_delimiter.
  rewrite first_line_app by (by apply join_no_break). rewrite He, app_nil_r. unfold line.
  rewrite candidates_header. rewrite foldl_found.
  - by destruct (_ && _).
  - apply NoDup_fmap; [apply _|]. apply NoDup_seq.
  - apply delimiter_ascii.
Qed.
End Finding.

(** ** Splitting a header *)

Section SplitTokens.
Context (d maximum : Z) (Hd : validate_delimiter d = Ok ()).
Notation split := (split_loop d maximum).

Lemma split_plain v : forall l rec f w a, needs_quotes d v = false ->
  exists a', split (v ++ l) rec f false w false a = split l rec (f ++ v) false w false a'.
Proof.
  induction v as [|b v IH]; intros l rec f w a Hv; [exists a; by rewrite app_nil_r|].
  destruct (needs_quotes_false d (b :: v) b Hv ltac:(left)) as (H1 & H2 & _).
  simpl in Hv. apply orb_false_iff in Hv as [_ Hv].
  destruct (IH l rec (f ++ [b]) w false Hv) as (a' & E). exists a'.
  cbn [app split_loop andb]. rewrite (proj2 (Z.eqb_neq b 34)), (proj2 (Z.eqb_neq b d)) by done.
  cbn [andb]. by rewrite E, <- (assoc_L (++)).
Qed.

Lemma split_escaped v : forall l rec f w cq a,
  split (escape v ++ l) rec f true w cq a = split l rec (f ++ v) true w cq a.
Proof.
  induction v as [|b v IH]; intros l rec f w cq a; [by rewrite app_nil_r|].
  rewrite escape_cons. destruct (Z.eqb_spec b 34) as [->|Hb].
  - cbn [app split_loop]. rewrite Z.eqb_refl, IH, <- (assoc_L (++)). done.
  - cbn [app split_loop]. rewrite (proj2 (Z.eqb_neq b 34)), IH, <- (assoc_L (++)) by done. done.
Qed.

Lemma split_close l rec f w cq a : head l <> Some 34 ->
  split (34 :: l) rec f true w cq a = split l rec f false w true a.
Proof.
  intros Hl. destruct l as [|b l]; [done|].
  change (split (34 :: b :: l) rec f true w cq a)
    with (if b =? 34 then split l rec (f ++ [34]) true w cq a else split (b :: l) rec f false w true a).
  by rewrite (proj2 (Z.eqb_neq b 34)) by (intros ->; done).
Qed.

Lemma split_token t l rec : token_ok d t -> head l <> Some 34 ->
  exists cq a, split (token_text t ++ l) rec [] false false false true
    = split l rec (tok_value t) false (tok_quoted t) cq a.
Proof.
  intros [Hu Hp] Hl. unfold token_text. destruct (tok_quoted t).
  - exists true, false. rewrite <- !(assoc_L (++)). cbn [app split_loop andb]. rewrite Z.eqb_refl.
    cbn [andb]. rewrite split_escaped, split_close by done. done.
  - destruct (split_plain (tok_value t) l rec [] false true (Hp eq_refl)) as (a & ->). by exists false, a.
Qed.

Lemma split_join ts : forall t rec, Forall (token_ok d) (t :: ts) -> len rec + len (t :: ts) <= maximum ->
  split (join d (token_text <$> t :: ts)) rec [] false false false true = Some (rec ++ t :: ts).
Proof.
  induction ts as [|u ts IH]; intros t rec Hok Hm; apply Forall_cons in Hok as [Ht Hok].
  - destruct (split_token t [] rec Ht ltac:(done)) as (cq & a & E). rewrite app_nil_r in E.
    etransitivity; [exact E|]. cbn [split_loop]. rewrite (to_utf8 _ _ Ht). simpl negb. cbv iota.
    rewrite (proj2 (Z.leb_le _ _)); [by destruct t|].
    unfold len in *. rewrite length_app. simpl in *. lia.
  - rewrite !fmap_cons, join_cons.
    destruct (split_token t (d :: join d (token_text <$> u :: ts)) rec Ht) as (cq & a & E).
    { intros [= ->]. done. }
    etransitivity; [exact E|]. cbn [split_loop]. rewrite Z.eqb_refl.
    rewrite andb_false_r, (proj2 (Z.eqb_neq d 34)) by (intros ->; done). cbn [andb].
    rewrite (to_utf8 _ _ Ht). cbn [negb]. rewrite !len_succ in Hm.
    rewrite (proj2 (Z.ltb_ge _ _)) by (unfold len in *; rewrite length_app; simpl; lia).
    replace (rec ++ [mkToken (tok_value t) (tok_quoted t)]) with (rec ++ [t]) by (by destruct t).
    rewrite IH; [by rewrite <- (assoc_L (++))|done|].
    rewrite len_succ. unfold len in *. rewrite length_app. simpl. lia.
Qed.
End SplitTokens.

(** ** Opening a file *)

Section Opening.
Context (debug : list Z -> string) (mi mr mc : Z) (Hmr : mr <= u64_max).
Notation reads := (reads_as mi).

Lemma take_byte_buffered s l k : reads s l k -> cr_lookahead s = None ->
  exists s', take_byte mi s = (Ok (head l), s') /\ reads s' (tail l) k
    /\ cr_lookahead s' = None /\ cr_prefix s' = tail (cr_prefix s).
Proof.
  intros H El. pose proof H as [H1 <- H3 H4 H5 H6 H7]. unfold take_byte, st_bind at 1.
  rewrite ensure_bom_done by done. unfold st_bind, st_get, c_modify, st_ret.
  unfold unread in *. rewrite El in *. destruct (cr_prefix s) as [|b p] eqn:Ep; simpl.
  - by destruct (read_byte_run mi s k) as (s' & -> & H' & ? & ?); [|done..|eauto].
  - eexists. split; [done|]. split_and!; try done. split; simpl; try done. unfold unread. simpl. by rewrite El.
Qed.

Lemma take_first_run l1 b l2 : Forall no_break l1 -> b = 10 \/ b = 13 -> forall acc fuel s k,
  reads s (l1 ++ b :: l2) k -> cr_lookahead s = None -> (length (cr_prefix s) <= S (length l1))%nat ->
  (length l1 < fuel)%nat -> len acc + len l1 + 1 <= mr ->
  exists s', take_first_record mi mr fuel acc s = (Ok (acc ++ l1 ++ [b]), s') /\ reads s' l2 k
    /\ cr_lookahead s' = None /\ cr_prefix s' = [].
Proof.
  intros Hl Hb. induction Hl as [|b1 l1 [H10 H13] Hl IH]; intros acc fuel s k H Hk Hp Hf Hm;
    (destruct fuel as [|fuel]; [lia|]); cbn [take_first_record];
    destruct (take_byte_buffered s _ k H Hk) as (s1 & E1 & Hs1 & Hk1 & Hp1);
    unfold st_bind at 1; rewrite E1; cbn [head app];
    (rewrite (proj2 (Z.ltb_ge _ _)) by (unfold len in *; rewrite length_app; simpl in *; lia)).
  - replace ((b =? 10) || (b =? 13)) with true by (destruct Hb as [-> | ->]; done).
    exists s1. split_and!; try done. rewrite Hp1. apply nil_length_inv. destruct (cr_prefix s); simpl in *; lia.
  - rewrite (proj2 (Z.eqb_neq b1 10)), (proj2 (Z.eqb_neq b1 13)) by done. cbn [orb].
    destruct (IH (acc ++ [b1]) fuel s1 k) as (s2 & E2 & G); try done.
    + rewrite Hp1. destruct (cr_prefix s); simpl in *; lia.
    + simpl in *. lia.
    + unfold len in *. rewrite length_app. simpl in *. lia.
    + exists s2. split; [|done]. by rewrite E2, <- (assoc_L (++)).
Qed.

Lemma prime_comma line b rest s1 input : len input <= mi -> mi <= u64_max ->
  input = line ++ b :: rest -> Forall no_break line -> b = 10 \/ b = 13 -> len line + 1 <= mr ->
  (3 <= length line)%nat -> take 3 input <> [0xef; 0xbb; 0xbf] ->
  s1 = header_suggests_delimiter debug (line ++ [b]) mc ->
  (forall d, s1 = Some d -> validate_delimiter d = Ok ()) ->
  exists s, prime_delimiter debug mi mr mc 44 (decoder_new input) = (Ok (default 44 s1), s) /\ reads s input 0.
Proof.
  intros Hi Hmi Ei Hl Hb Hm H3 Hbom -> Hv.
  destruct (ensure_bom_run mi input Hi Hmi) as (s & E & H & Hk & Hp).
  unfold without_bom in H, Hp. rewrite bool_decide_eq_false_2 in H, Hp by done.
  unfold prime_delimiter, st_bind at 1. rewrite E. cbn [Z.eqb Pos.eqb negb].
  unfold st_bind at 1, st_get. unfold st_bind at 1. rewrite (ra_unread _ _ _ _ H), Ei in *.
  destruct (take_first_run line b rest Hl Hb [] (S (length (line ++ b :: rest))) s 0) as
    (s2 & -> & Hs2 & Hk2 & Hp2); try done.
  - rewrite Hp, length_take. lia.
  - rewrite length_app. lia.
  - unfold st_bind at 1, c_modify. cbn [app].
    assert (reads (set_prefix (line ++ [b]) s2) (line ++ b :: rest) 0) as Hr.
    { destruct Hs2 as [G1 G2 G3 G4 G5 G6 G7]. split; simpl; try done. unfold unread in *. simpl.
      rewrite Hk2, Hp2 in *. simpl in *. by rewrite G2, <- (assoc_L (++)). }
    destruct (header_suggests_delimiter _ _ _) as [d|] eqn:Es; [|by eexists].
    unfold st_bind, st_lift. rewrite (Hv d eq_refl). by eexists.
Qed.
End Opening.

(** ** A file with a header *)

Section WithHeader.
Context (debug : list Z -> string) (mi mr mc d : Z).
Context (Hmr : mr <= u64_max) (Hmi : mi <= u64_max) (Hd : validate_delimiter d = Ok ()).
Context (saves : CsvField -> bool) (vs : list (list Z)).
Context (Hvs : Forall name_ok vs) (Hnd : NoDup vs).

Notation fs := (filter (fun f => saves f = true) all_fields).
Notation cols := (columns saves vs).
Notation toks := (header_tok <$> cols).
Notation line := (join d (token_text <$> toks)).

Lemma columns_ok : Forall column_ok cols.
Proof.
  apply Forall_app. split; apply Forall_fmap; [|done]. by apply Forall_forall.
Qed.

Lemma header_tokens_ok : Forall (token_ok d) toks.
Proof. apply Forall_fmap. eapply Forall_impl; [apply columns_ok|]. intros c. by apply header_tok_ok. Qed.

Lemma columns_parsed : len cols <= mc -> parse_header debug toks mc = Ok cols.
Proof.
  intros Hc. apply parse_header_columns; [|done..]. eapply Forall_impl; [exact Hvs|]. by intros v (_ & ? & _).
Qed.

Lemma header_record_inv e bytes : header_record mr d e mc cols = Ok bytes ->
  bytes = line ++ line_ending e /\ len line + len (line_ending e) <= mr /\ len cols <= mc.
Proof.
  unfold header_record. destruct (Z.ltb_spec mc (len cols)) as [|Hc]; [done|]. intros H.
  replace (header_token d <$> cols) with (token_text <$> toks) in H
    by (rewrite <- list_fmap_compose; apply list_fmap_ext; intros i c _; symmetry; by apply header_token_text).
  apply write_raw_inv in H as []. done.
Qed.

(** The counts of [plausible]. *)
Lemma count_fields (l : list CsvField) (r : list (list Z)) :
  length (filter (fun c => is_field c = true) ((Field <$> l) ++ (Variable_ <$> r))) = length l.
Proof.
  rewrite filter_app, length_app. replace (length (filter _ (Variable_ <$> r))) with 0%nat.
  - induction l as [|f l IH]; [done|]. rewrite fmap_cons, filter_cons_True by done. simpl. lia.
  - induction r as [|v r IH]; [done|]. by rewrite fmap_cons, filter_cons_False by done.
Qed.

Lemma variable_counted v l : Variable_ v ∈ l ->
  (1 <= length (filter (fun tc => tok_quoted tc.1 && negb (is_field tc.2) = true)
          (combine (header_tok <$> l) l)))%nat.
Proof.
  induction l as [|c l IH]; [by intros ?%elem_of_nil|]. intros [<-|Hv]%elem_of_cons; rewrite fmap_cons; cbn [combine].
  - rewrite filter_cons_True by done. simpl. lia.
  - specialize (IH Hv). destruct (decide (tok_quoted (header_tok c) && negb (is_field c) = true)).
    + rewrite filter_cons_True by done. simpl. lia.
    + by rewrite filter_cons_False by done.
Qed.

Lemma header_plausible : fs <> [] -> (2 <= length cols)%nat -> len cols <= mc ->
  plausible debug line mc d = true.
Proof.
  intros Hfs H2 Hc. unfold plausible, split_header_candidate.
  assert (toks <> []) as Hne by (intros E%fmap_nil_inv; rewrite E in H2; simpl in H2; lia).
  pose proof header_tokens_ok as Hok. destruct toks as [|t ts] eqn:Et; [done|].
  rewrite (split_join d mc Hd ts t []); [|done|]. 2: { rewrite <- Et. unfold len in *. rewrite length_fmap. simpl. lia. }
  cbn [app]. rewrite <- Et, columns_parsed by done. unfold columns at 1 2. rewrite count_fields.
  destruct fs as [|f1 [|f2 l]] eqn:Ef; [done| |done].
  apply orb_true_iff. right. apply andb_true_iff. split; [done|].
  assert (exists v, v ∈ vs) as (v & Hv).
  { destruct vs as [|v ?]; [|exists v; left]. unfold columns in H2. rewrite Ef in H2. simpl in H2. lia. }
  apply Nat.leb_le, (variable_counted v). apply elem_of_app. right. by apply list_elem_of_fmap_2.
Qed.

Lemma header_recognised configured : len cols <= mc ->
  configured = cols \/ (2 <= length fs)%nat -> looks_like_header toks cols configured = true.
Proof.
  intros Hc Hor. unfold looks_like_header. case_bool_decide as E; [done|].
  destruct Hor as [->|H2]; [done|]. apply andb_true_iff. split.
  - unfold columns. rewrite count_fields. by apply Nat.leb_le.
  - apply forallb_forall. intros [t c] Htc.
    assert (t = header_tok c) as ->.
    { clear -Htc. induction cols as [|c' l IH]; [done|]. destruct Htc as [[= <- <-]|H]; auto. }
    destruct c as [f|v]; simpl; [|done]. rewrite field_name_parse. by apply bool_decide_eq_true.
Qed.

Lemma columns_cons : fs <> [] -> exists f cs, cols = Field f :: cs.
Proof. unfold columns. destruct fs as [|f l]; [done|]. intros _. by exists f, ((Field <$> l) ++ (Variable_ <$> vs)). Qed.

Lemma header_line_start : fs <> [] -> exists f r, line = field_name f ++ r.
Proof.
  intros (f & cs & ->)%columns_cons. exists f. destruct cs as [|c cs]; [exists []; by rewrite app_nil_r|].
  rewrite !fmap_cons, join_cons. by eexists.
Qed.

Lemma header_no_bom l : fs <> [] -> take 3 (line ++ l) <> [0xef; 0xbb; 0xbf].
Proof. intros (f & r & ->)%header_line_start. rewrite <- (assoc_L (++)). by destruct f. Qed.

Lemma header_line_long : fs <> [] -> (3 <= length line)%nat.
Proof.
  intros (f & r & ->)%header_line_start. rewrite length_app. pose proof (field_name_long f). lia.
Qed.

Lemma suggested_of_header b : fs <> [] -> b = 10 \/ b = 13 ->
  header_suggests_delimiter debug (line ++ [b]) mc
  = if (1 <? length cols)%nat && plausible debug line mc d then Some d else None.
Proof.
  intros Hfs Hb. pose proof columns_ok as Hok. destruct (columns_cons Hfs) as (f & cs & E). rewrite E in *.
  rewrite suggested_delimiter; [done..|]. destruct Hb as [-> | ->]; done.
Qed.

(** The delimiter the file is opened with. *)
Lemma header_primed d0 e rest : fs <> [] -> len cols <= mc ->
  len line + len (line_ending e) <= mr -> len (line ++ line_ending e ++ rest) <= mi ->
  d0 = d \/ (d0 = 44 /\ (2 <= length cols)%nat) ->
  exists s, prime_delimiter debug mi mr mc d0 (decoder_new (line ++ line_ending e ++ rest)) = (Ok d, s)
    /\ reads_as mi s (line ++ line_ending e ++ rest) 0.
Proof.
  intros Hfs Hc Hr Hi Hor. destruct (decide (d0 = 44)) as [->|H44].
  - assert (exists b r, line_ending e ++ rest = b :: r /\ (b = 10 \/ b = 13)) as (b & r & Eb & Hb)
      by (destruct e; simpl; eauto).
    assert (1 <= len (line_ending e)) as He by (by destruct e).
    rewrite Eb in *.
    destruct (prime_comma debug mi mr mc line b r (header_suggests_delimiter debug (line ++ [b]) mc)
      (line ++ b :: r) Hi Hmi eq_refl) as (s & E & Hs); try done.
    + apply join_no_break; [done|]. apply columns_ok.
    + lia.
    + by apply header_line_long.
    + by apply header_no_bom.
    + rewrite suggested_of_header by done. intros d'. by destruct (_ && _); intros [= <-].
    + exists s. split; [|done]. rewrite E. rewrite suggested_of_header by done.
      destruct Hor as [<-|[_ H2]]; [by destruct (_ && _)|].
      by rewrite (proj2 (Nat.ltb_lt _ _)), header_plausible by done.
  - destruct Hor as [->|[? _]]; [|done].
    destruct (ensure_bom_run mi _ Hi Hmi) as (s & E & H & _).
    unfold without_bom in H. rewrite bool_decide_eq_false_2 in H by (by apply header_no_bom).
    exists s. split; [|done]. unfold prime_delimiter, st_bind. rewrite E.
    by rewrite (proj2 (Z.eqb_neq d 44)).
Qed.

Lemma header_opened d0 pf configured e rest :
  (e = Cr -> head rest <> Some 10) -> fs <> [] -> len cols <= mc ->
  len line + len (line_ending e) <= mr -> len (line ++ line_ending e ++ rest) <= mi ->
  d0 = d \/ (d0 = 44 /\ (2 <= length cols)%nat) ->
  pf = true \/ configured = cols \/ (2 <= length fs)%nat ->
  exists s, open_decoder debug mi mr mc d0 pf configured (decoder_new (line ++ line_ending e ++ rest))
      = (Ok (mkLayout d cols None), s)
    /\ reads_as mi s rest 1.
Proof.
  intros Hcr Hfs Hc Hr Hi Hor Hpf. destruct (header_primed d0 e rest) as (s & E & H); try done.
  destruct (next_record_tokens mi mr mc d Hmr Hd e rest toks s 0) as (s' & H' & E'); try done.
  - intros F%fmap_nil_inv. destruct (columns_cons Hfs) as (f & cs & G). congruence.
  - apply header_tokens_ok.
  - unfold len in *. by rewrite length_fmap.
  - exists s'. split; [|done]. unfold open_decoder, st_bind. rewrite E, E'.
    rewrite columns_parsed by done. unfold checked_layout. cbn [la_columns].
    rewrite (proj2 (Z.ltb_ge _ _)) by done. destruct pf; [done|].
    rewrite header_recognised; [done|done|]. by destruct Hpf.
Qed.
End WithHeader.



Lemma no_suggestion debug b0 mc : is_alphanumeric b0 = true ->
  header_suggests_delimiter debug [b0; 10] mc = None.
Proof.
  intros Hb. destruct (alphanumeric_not_special b0 Hb) as (H34 & H10 & H13 & Hc).
  unfold header_suggests_delimiter, first_line.
  rewrite (proj2 (Z.eqb_neq b0 10)), (proj2 (Z.eqb_neq b0 13)) by done. cbn [orb Z.eqb Pos.eqb].
  cbn [candidates]. rewrite (proj2 (Z.eqb_neq b0 34)), Hc by done.
  rewrite (foldl_better debug (-1) [b0] mc 0); [done|].
  intros (n & Hn & _)%list_elem_of_fmap. lia.
Qed.


