(* ===== verification/CsvDates.v ===== *)
(** * Legacy timestamps of result files

    Models the fallback of the CSV decoder for timestamps that are not
    milliseconds, [crates/results/src/csv.rs]: the five date patterns it tries
    in turn, the numbers in them as [str::parse] reads them at their width, and
    the calendar conversion.  An addition at the width of the year may
    overflow, which panics with overflow checks on: such a run is [Panic]. *)

From stdpp Require Import strings.
From S2P Require Import Prelude Wire Csv.

(** ** Strings and numbers *)

(** [str::split_once] *)
Fixpoint split_once (sep : Z) (value : list Z) : option (list Z * list Z) :=
  match value with
  | [] => None
  | c :: value' =>
      if c =? sep then Some ([], value')
      else '(a, b) ← split_once sep value'; Some (c :: a, b)
  end.

(** [str::split] and [collect] *)
Fixpoint split (sep : Z) (value : list Z) : list (list Z) :=
  match value with
  | [] => [[]]
  | c :: value' =>
      if c =? sep then [] :: split sep value'
      else
        match split sep value' with
        | part :: parts => (c :: part) :: parts
        | [] => [[c]]
        end
  end.

Definition decimal (digits : list Z) : Z := foldl (fun n c => 10 * n + (c - 48)) 0 digits.

Definition parse_digits (digits : list Z) : option Z :=
  if bool_decide (digits = []) || negb (forallb is_digit digits) then None else Some (decimal digits).

Definition within (lo hi v : Z) : option Z := if (lo <=? v) && (v <=? hi) then Some v else None.

(** [str::parse::<i32>] and [str::parse::<u32>]: a sign, then digits *)
Definition parse_i32 (value : list Z) : option Z :=
  match value with
  | 43 :: digits => n ← parse_digits digits; within (- 2 ^ 31) (2 ^ 31 - 1) n
  | 45 :: digits => n ← parse_digits digits; within (- 2 ^ 31) (2 ^ 31 - 1) (- n)
  | _ => n ← parse_digits value; within (- 2 ^ 31) (2 ^ 31 - 1) n
  end.

Definition parse_u32 (value : list Z) : option Z :=
  match value with
  | 43 :: digits => n ← parse_digits digits; within 0 u32_max n
  | _ => n ← parse_digits value; within 0 u32_max n
  end.

(** ** The calendar *)

Definition i64_checked (v : Z) : option Z := within i64_min i64_max v.

(** [days_from_civil]; the division of the source truncates. *)
Definition days_from_civil (year month day : Z) : option Z :=
  let year := year - (if month <=? 2 then 1 else 0) in
  let era := Z.quot (if 0 <=? year then year else year - 399) 400 in
  let year_of_era := year - era * 400 in
  let day_of_year := Z.quot (153 * (month + (if 2 <? month then -3 else 9)) + 2) 5 + day - 1 in
  let day_of_era :=
    year_of_era * 365 + Z.quot year_of_era 4 - Z.quot year_of_era 100 + day_of_year in
  v ← i64_checked (era * 146097); v ← i64_checked (v + day_of_era); i64_checked (v - 719468).

Definition leap (year : Z) : bool :=
  ((Z.rem year 4 =? 0) && negb (Z.rem year 100 =? 0)) || (Z.rem year 400 =? 0).

Definition days_in_month (year month : Z) : Z :=
  if (month =? 2) && leap year then 29
  else if month =? 2 then 28
  else if (month =? 4) || (month =? 6) || (month =? 9) || (month =? 11) then 30
  else if (1 <=? month) && (month <=? 12) then 31
  else 0.

(** ** Patterns *)

(** The patterns tried: the separator of the date, whether the month comes
    first, whether there are milliseconds. *)
Record DatePattern := mkPattern { dp_separator : Z; dp_month_first : bool; dp_millis : bool }.

Definition patterns : list DatePattern :=
  [mkPattern 47 false true; mkPattern 47 false false; mkPattern 45 false true; mkPattern 45 false false;
   mkPattern 47 true false].

(** The date of the three parts; a two-digit year gets its century. *)
Definition parse_date (month_first : bool) (p0 p1 p2 : list Z) : comp Empty_set (option (Z * Z * Z)) :=
  if month_first then
    match parse_i32 p2, parse_u32 p0, parse_u32 p1 with
    | Some year, Some month, Some day =>
        let year := year + (if year <? 70 then 2000 else 1900) in
        if year <=? 2 ^ 31 - 1 then Ok (Some (year, month, day)) else Err Panic
    | _, _, _ => Ok None
    end
  else
    match parse_i32 p0, parse_u32 p1, parse_u32 p2 with
    | Some year, Some month, Some day => Ok (Some (year, month, day))
    | _, _, _ => Ok None
    end.

(** The time of the three parts. *)
Definition parse_time (has_millis : bool) (t0 t1 t2 : list Z) : option (Z * Z * Z * Z) :=
  hour ← parse_u32 t0; minute ← parse_u32 t1;
  if has_millis then
    '(seconds, fraction) ← split_once 46 t2;
    second ← parse_u32 seconds; millis ← parse_u32 fraction; Some (hour, minute, second, millis)
  else second ← parse_u32 t2; Some (hour, minute, second, 0).

(** The bounds of the fields, and the milliseconds since the epoch. *)
Definition legacy_millis (year month day hour minute second millis : Z) : option Z :=
  if negb ((1 <=? month) && (month <=? 12)) || (day =? 0) || (days_in_month year month <? day)
     || (23 <? hour) || (59 <? minute) || (59 <? second) || (999 <? millis)
  then None
  else
    days ← days_from_civil year month day;
    v ← i64_checked (days * 86400); v ← i64_checked (v + hour * 3600);
    v ← i64_checked (v + minute * 60); v ← i64_checked (v + second);
    v ← i64_checked (v * 1000); i64_checked (v + millis).

Definition parse_legacy_with_pattern (value : list Z) (p : DatePattern) : comp Empty_set (option Z) :=
  match split_once 32 value with
  | None => Ok None
  | Some (date, time) =>
      match split (dp_separator p) date, split 58 time with
      | [p0; p1; p2], [t0; t1; t2] =>
          let? d := parse_date (dp_month_first p) p0 p1 p2 in
          match d with
          | None => Ok None
          | Some (year, month, day) =>
              match parse_time (dp_millis p) t0 t1 t2 with
              | None => Ok None
              | Some (hour, minute, second, millis) =>
                  Ok (legacy_millis year month day hour minute second millis)
              end
          end
      | _, _ => Ok None
      end
  end.

(** [find_map] over the patterns *)
Fixpoint first_match (value : list Z) (ps : list DatePattern) : comp Empty_set (option Z) :=
  match ps with
  | [] => Ok None
  | p :: ps =>
      let? r := parse_legacy_with_pattern value p in
      match r with Some v => Ok (Some v) | None => first_match value ps end
  end.

Definition parse_legacy_timestamp (value : list Z) : comp Empty_set (option Z) :=
  first_match value patterns.

(** [parse_timestamp] for the numeric formats: milliseconds first *)
Definition parse_millis (value : list Z) : option Z :=
  let digits := match value with 45 :: digits => digits | _ => value end in
  if negb (bool_decide (digits = [])) && forallb is_digit digits
  then i64_checked (match value with 45 :: _ => - decimal digits | _ => decimal digits end)
  else None.

Definition parse_timestamp (value : list Z) (record_number : Z) (debug : list Z -> string)
    : comp JtlError Z :=
  match parse_millis value with
  | Some v => Ok v
  | None =>
      match parse_legacy_timestamp value with
      | Ok (Some v) => Ok v
      | Ok None =>
          raise (CsvError record_number
                   ("timestamp must be milliseconds or a recognized legacy date, got " +:+ debug value))
      | Err _ => Err Panic
      | OutOfFuel => OutOfFuel
      end
  end.

(** ** The conversion is the Gregorian calendar *)

(** Days before the first of March of a year, in closed form. *)
Definition march_days (year : Z) : Z := 365 * year + year / 4 - year / 100 + year / 400.
#[local] Arguments march_days : simpl never.

Lemma era_closed year :
  let era := Z.quot (if 0 <=? year then year else year - 399) 400 in
  let yoe := year - era * 400 in
  era * 146097 + (yoe * 365 + Z.quot yoe 4 - Z.quot yoe 100) = march_days year.
Proof.
  intros era yoe. assert (era = year / 400) as E.
  { unfold era. destruct (Z.leb_spec 0 year); Z.to_euclidean_division_equations; lia. }
  unfold march_days, yoe. rewrite E. clearbody era. clear yoe era E.
  Z.to_euclidean_division_equations. lia.
Qed.

Lemma march_days_succ year : march_days (year + 1) = march_days year + 365 + (if leap (year + 1) then 1 else 0).
Proof.
  unfold march_days, leap.
  destruct (Z.eqb_spec (Z.rem (year + 1) 4) 0), (Z.eqb_spec (Z.rem (year + 1) 100) 0),
    (Z.eqb_spec (Z.rem (year + 1) 400) 0); simpl; Z.to_euclidean_division_equations; lia.
Qed.

(** The day of a date, counted from the epoch. *)
Definition civil_day (year month day : Z) : Z :=
  march_days (year - (if month <=? 2 then 1 else 0))
  + (153 * (month + (if 2 <? month then -3 else 9)) + 2) / 5 + day - 1 - 719468.

Definition date_ok (year month day : Z) : Prop :=
  - 2 ^ 31 <= year < 2 ^ 31 /\ 1 <= month <= 12 /\ 1 <= day <= days_in_month year month.

Lemma days_in_month_bound year month : 0 <= days_in_month year month <= 31.
Proof. unfold days_in_month. repeat case_match; lia. Qed.

Lemma i64_checked_ok v : i64_min <= v <= i64_max -> i64_checked v = Some v.
Proof. intros H. unfold i64_checked, within. by rewrite (proj2 (Z.leb_le _ _)), (proj2 (Z.leb_le _ _)) by lia. Qed.

Lemma bind_checked v (f : Z -> option Z) : i64_min <= v <= i64_max -> (n ← i64_checked v; f n) = f v.
Proof. intros H. by rewrite i64_checked_ok. Qed.

Lemma march_days_bound year : - 2 ^ 31 - 1 <= year < 2 ^ 31 -> - 2 ^ 40 < march_days year < 2 ^ 40.
Proof. unfold march_days. intros H. Z.to_euclidean_division_equations. lia. Qed.

Lemma days_from_civil_day year month day : date_ok year month day ->
  days_from_civil year month day = Some (civil_day year month day).
Proof.
  intros (Hy & Hm & Hd). pose proof (days_in_month_bound year month) as Hb.
  unfold days_from_civil, civil_day. set (y := year - (if month <=? 2 then 1 else 0)).
  assert (- 2 ^ 31 - 1 <= y < 2 ^ 31) as Hy' by (unfold y; case_match; lia).
  pose proof (era_closed y) as Ec. cbv zeta in Ec |- *.
  set (era := Z.quot (if 0 <=? y then y else y - 399) 400) in *.
  assert (- 2 ^ 31 <= era <= 2 ^ 31) as He.
  { unfold era. destruct (Z.leb_spec 0 y); Z.to_euclidean_division_equations; lia. }
  clearbody era. pose proof (march_days_bound y Hy') as Hmd.
  set (mp := 153 * (month + (if 2 <? month then -3 else 9)) + 2) in *.
  assert (0 <= mp <= 2000) as Hmp by (unfold mp; destruct (Z.ltb_spec 2 month); lia).
  rewrite (Z.quot_div_nonneg mp 5) by lia. assert (0 <= mp / 5 <= 400) as Hq by (Z.to_euclidean_division_equations; lia).
  set (doe := (y - era * 400) * 365 + _ - _ + _) in *.
  assert (era * 146097 + doe = march_days y + mp / 5 + day - 1) as Ed by (unfold doe; lia).
  rewrite !bind_checked by (unfold i64_min, i64_max; lia).
  rewrite i64_checked_ok by (unfold i64_min, i64_max; lia). f_equal. lia.
Qed.

(** The calendar of the Gregorian rules: the day after a date. *)
Definition next_day (year month day : Z) : Z * Z * Z :=
  if day <? days_in_month year month then (year, month, day + 1)
  else if month <? 12 then (year, month + 1, 1)
  else (year + 1, 1, 1).

Ltac decide_constants :=
  repeat match goal with
  | |- context [?x <=? ?y] => let v := eval compute in (x <=? y) in change (x <=? y) with v
  | |- context [?x <? ?y] => let v := eval compute in (x <? y) in change (x <? y) with v
  | |- context [?x =? ?y] => let v := eval compute in (x =? y) in change (x =? y) with v
  end.

Lemma civil_day_next year month day : 1 <= month <= 12 -> day <= days_in_month year month ->
  let '(y, m, d) := next_day year month day in civil_day y m d = civil_day year month day + 1.
Proof.
  intros Hm Hd. unfold next_day. destruct (Z.ltb_spec day (days_in_month year month)) as [|Hl].
  { unfold civil_day. lia. }
  assert (day = days_in_month year month) as -> by lia. clear Hd Hl.
  assert (month = 2 \/ month = 1 \/ month = 3 \/ month = 4 \/ month = 5 \/ month = 6 \/ month = 7 \/ month = 8
    \/ month = 9 \/ month = 10 \/ month = 11 \/ month = 12) as Hc by lia.
  unfold civil_day. destruct Hc as [->|Hc].
  - pose proof (march_days_succ (year - 1)) as Hs. replace (year - 1 + 1) with year in Hs by lia.
    change (march_days (year - 0) + 0 + 1 - 1 - 719468
      = march_days (year - 1) + 337 + (if leap year then 29 else 28) - 1 - 719468 + 1).
    rewrite Z.sub_0_r, Hs. destruct (leap year); lia.
  - unfold days_in_month.
    repeat destruct Hc as [->|Hc]; try subst month; decide_constants; cbv beta iota; decide_constants; rewrite ?Z.sub_0_r, ?Z.add_simpl_r;
      cbn [andb orb]; Z.to_euclidean_division_equations; lia.
Qed.

(** ** Printed dates *)

Lemma split_once_app sep a b : sep ∉ a -> split_once sep (a ++ sep :: b) = Some (a, b).
Proof.
  induction a as [|c a IH]; intros H; simpl; [by rewrite Z.eqb_refl|].
  apply not_elem_of_cons in H as [Hc H]. rewrite (proj2 (Z.eqb_neq c sep)) by congruence. by rewrite IH.
Qed.

Lemma split_once_none sep a : sep ∉ a -> split_once sep a = None.
Proof.
  induction a as [|c a IH]; intros H; simpl; [done|].
  apply not_elem_of_cons in H as [Hc H]. rewrite (proj2 (Z.eqb_neq c sep)) by congruence. by rewrite IH.
Qed.

Lemma split_one sep a : sep ∉ a -> split sep a = [a].
Proof.
  induction a as [|c a IH]; intros H; simpl; [done|].
  apply not_elem_of_cons in H as [Hc H]. rewrite (proj2 (Z.eqb_neq c sep)) by congruence. by rewrite IH.
Qed.

Lemma split_app sep a b : sep ∉ a -> split sep (a ++ sep :: b) = a :: split sep b.
Proof.
  induction a as [|c a IH]; intros H; simpl; [by rewrite Z.eqb_refl|].
  apply not_elem_of_cons in H as [Hc H]. rewrite (proj2 (Z.eqb_neq c sep)) by congruence. by rewrite IH.
Qed.

(** A number in [w] digits. *)
Fixpoint digits (w : nat) (n : Z) : list Z :=
  match w with
  | O => []
  | S w => digits w (n / 10) ++ [48 + n mod 10]
  end.

Lemma digits_digit w n : Forall (fun c => is_digit c = true) (digits w n).
Proof.
  revert n. induction w as [|w IH]; intros n; [constructor|]. apply Forall_app. split; [apply IH|].
  apply Forall_singleton. pose proof (Z.mod_pos_bound n 10). unfold is_digit. lia.
Qed.

Lemma digits_free w n c : is_digit c = false -> c ∉ digits w n.
Proof. intros Hc Hin. pose proof (digits_digit w n) as H. rewrite Forall_forall in H. specialize (H c Hin). congruence. Qed.

Lemma digits_decimal w n : 0 <= n < 10 ^ Z.of_nat w -> decimal (digits w n) = n.
Proof.
  revert n. induction w as [|w IH]; intros n H; [simpl in *; unfold decimal; simpl; lia|].
  rewrite Nat2Z.inj_succ, Z.pow_succ_r in H by lia. unfold decimal in *. simpl. rewrite foldl_app, IH.
  - simpl. pose proof (Z.div_mod n 10). lia.
  - Z.to_euclidean_division_equations. nia.
Qed.

Lemma digits_parsed w n : (0 < w)%nat -> 0 <= n < 10 ^ Z.of_nat w -> parse_digits (digits w n) = Some n.
Proof.
  intros Hw Hn. unfold parse_digits. rewrite bool_decide_eq_false_2.
  - replace (forallb is_digit (digits w n)) with true; [simpl; by rewrite digits_decimal|].
    symmetry. apply forallb_forall. intros c Hc. pose proof (digits_digit w n) as H.
    rewrite Forall_forall in H. by apply H, list_elem_of_In.
  - destruct w as [|w]; [lia|]. simpl. intros E%app_eq_nil. by destruct E.
Qed.

Lemma digits_u32 w n : (0 < w <= 9)%nat -> 0 <= n < 10 ^ Z.of_nat w -> parse_u32 (digits w n) = Some n.
Proof.
  intros Hw Hn.
  assert (10 ^ Z.of_nat w <= 10 ^ 9) by (apply Z.pow_le_mono_r; lia).
  assert (parse_u32 (digits w n) = (n ← parse_digits (digits w n); within 0 u32_max n)) as ->.
  { unfold parse_u32. pose proof (digits_digit w n) as H'. destruct (digits w n) as [|c l]; [done|].
    apply Forall_cons in H' as [Hc _]. assert (c <> 43) by (intros ->; done). repeat case_match; done. }
  rewrite digits_parsed by lia. cbn. unfold within, u32_max.
  by rewrite (proj2 (Z.leb_le _ _)), (proj2 (Z.leb_le _ _)) by lia.
Qed.

Lemma digits_i32 w n : (0 < w <= 9)%nat -> 0 <= n < 10 ^ Z.of_nat w -> parse_i32 (digits w n) = Some n.
Proof.
  intros Hw Hn.
  assert (10 ^ Z.of_nat w <= 10 ^ 9) by (apply Z.pow_le_mono_r; lia).
  assert (parse_i32 (digits w n) = (n ← parse_digits (digits w n); within (- 2 ^ 31) (2 ^ 31 - 1) n)) as ->.
  { unfold parse_i32. pose proof (digits_digit w n) as H'. destruct (digits w n) as [|c l]; [done|].
    apply Forall_cons in H' as [Hc _]. assert (c <> 43) by (intros ->; done).
    assert (c <> 45) by (intros ->; done). repeat case_match; done. }
  rewrite digits_parsed by lia. cbn. unfold within.
  by rewrite (proj2 (Z.leb_le _ _)), (proj2 (Z.leb_le _ _)) by lia.
Qed.

#[local] Arguments digits : simpl never.

Section Printed.
Context (sep : Z) (Hsep : sep = 47 \/ sep = 45) (with_millis : bool).
Context (year month day hour minute second millis : Z).
Context (Hyear : 0 <= year <= 9999) (Hdate : date_ok year month day).
Context (Hhour : 0 <= hour <= 23) (Hminute : 0 <= minute <= 59) (Hsecond : 0 <= second <= 59).
Context (Hmillis : 0 <= millis <= 999) (Hnone : with_millis = false -> millis = 0).

Definition print_date : list Z := digits 4 year ++ sep :: digits 2 month ++ sep :: digits 2 day.
Definition print_seconds : list Z :=
  digits 2 second ++ (if with_millis then 46 :: digits 3 millis else []).
Definition print_time : list Z := digits 2 hour ++ 58 :: digits 2 minute ++ 58 :: print_seconds.
Definition print_timestamp : list Z := print_date ++ 32 :: print_time.

Lemma day_two_digits : 0 <= month < 10 ^ Z.of_nat 2 /\ 0 <= day < 10 ^ Z.of_nat 2.
Proof. pose proof (days_in_month_bound year month). destruct Hdate as (_ & ? & ?). lia. Qed.

Lemma print_date_free c : is_digit c = false -> c <> sep -> c ∉ print_date.
Proof.
  intros H1 H2. unfold print_date. rewrite !not_elem_of_app, !not_elem_of_cons, !not_elem_of_app, !not_elem_of_cons.
  split_and!; try done; by apply digits_free.
Qed.

Lemma print_timestamp_split : split_once 32 print_timestamp = Some (print_date, print_time).
Proof. apply split_once_app, print_date_free; [done|]. destruct Hsep; lia. Qed.

Lemma print_date_split : split sep print_date = [digits 4 year; digits 2 month; digits 2 day].
Proof.
  assert (is_digit sep = false) by (by destruct Hsep; subst).
  unfold print_date. rewrite !split_app by (by apply digits_free). by rewrite split_one by (by apply digits_free).
Qed.

Lemma print_time_split : split 58 print_time = [digits 2 hour; digits 2 minute; print_seconds].
Proof.
  unfold print_time. rewrite !split_app by (by apply digits_free). rewrite split_one; [done|].
  unfold print_seconds. rewrite not_elem_of_app. split; [by apply digits_free|].
  destruct with_millis; [|by apply not_elem_of_nil]. rewrite not_elem_of_cons. split; [done|]. by apply digits_free.
Qed.

Lemma print_time_parsed : parse_time with_millis (digits 2 hour) (digits 2 minute) print_seconds
  = Some (hour, minute, second, millis).
Proof.
  unfold parse_time, print_seconds. rewrite !digits_u32 by lia. cbn. destruct with_millis.
  - rewrite split_once_app by (by apply digits_free). cbn. by rewrite !digits_u32 by lia.
  - rewrite app_nil_r, digits_u32 by lia. cbn. by rewrite Hnone.
Qed.

(** A printed timestamp without milliseconds has no fraction. *)
Lemma print_time_no_fraction : with_millis = false ->
  parse_time true (digits 2 hour) (digits 2 minute) print_seconds = None.
Proof.
  intros E. unfold parse_time, print_seconds. rewrite E, app_nil_r, !digits_u32 by lia. cbn.
  by rewrite split_once_none by (by apply digits_free).
Qed.

Lemma printed_other_separator p : dp_separator p <> sep -> dp_separator p = 47 \/ dp_separator p = 45 ->
  parse_legacy_with_pattern print_timestamp p = Ok None.
Proof.
  intros H1 H2. unfold parse_legacy_with_pattern. rewrite print_timestamp_split.
  by rewrite split_one by (apply print_date_free; [by destruct H2 as [-> | ->]|done]).
Qed.

Lemma printed_same_separator has_millis :
  parse_legacy_with_pattern print_timestamp (mkPattern sep false has_millis)
  = Ok ('(h, m, s, ms) ← parse_time has_millis (digits 2 hour) (digits 2 minute) print_seconds;
        legacy_millis year month day h m s ms).
Proof.
  unfold parse_legacy_with_pattern. rewrite print_timestamp_split. cbn [dp_separator dp_month_first dp_millis].
  rewrite print_date_split, print_time_split. unfold parse_date.
  destruct day_two_digits. rewrite digits_i32, !digits_u32 by lia. cbn [res_bind].
  by destruct (parse_time _ _ _ _) as [[[[h m] s] ms]|].
Qed.

Definition epoch_millis : Z :=
  (civil_day year month day * 86400 + hour * 3600 + minute * 60 + second) * 1000 + millis.

Lemma legacy_millis_ok : legacy_millis year month day hour minute second millis = Some epoch_millis.
Proof.
  pose proof Hdate as (Hy & Hm & Hd). unfold legacy_millis, epoch_millis.
  replace (_ || _) with false by lia. rewrite days_from_civil_day by done.
  assert (- 2 ^ 24 < civil_day year month day < 2 ^ 24) as Hb.
  { pose proof (days_in_month_bound year month). unfold civil_day, march_days.
    destruct (month <=? 2), (2 <? month); Z.to_euclidean_division_equations; lia. }
  revert Hb. generalize (civil_day year month day). intros n Hb. cbn [mbind option_bind].
  rewrite !bind_checked by (unfold i64_min, i64_max; lia).
  by rewrite i64_checked_ok by (unfold i64_min, i64_max; lia).
Qed.

Lemma printed_parsed : parse_legacy_with_pattern print_timestamp (mkPattern sep false with_millis)
  = Ok (Some epoch_millis).
Proof. rewrite printed_same_separator, print_time_parsed. cbn. by rewrite legacy_millis_ok. Qed.

Lemma printed_no_fraction : with_millis = false ->
  parse_legacy_with_pattern print_timestamp (mkPattern sep false true) = Ok None.
Proof. intros E. by rewrite printed_same_separator, print_time_no_fraction. Qed.

Lemma printed_timestamp : parse_legacy_timestamp print_timestamp = Ok (Some epoch_millis).
Proof.
  unfold parse_legacy_timestamp, patterns. cbn [first_match].
  pose proof printed_parsed as H1. pose proof printed_no_fraction as H2.
  pose proof printed_other_separator as H3.
  destruct Hsep as [E|E]; rewrite E in *; destruct with_millis;
    rewrite ?(H3 (mkPattern 47 false true)), ?(H3 (mkPattern 47 false false)) by (cbn; lia);
    rewrite ?H2 by done; cbn [res_bind]; rewrite ?H1; done.
Qed.
End Printed.

(** ** Theorems *)

(** The calendar conversion is the proleptic Gregorian calendar.  The epoch is
    day 0, and for every date of a 32-bit year the day that follows by the
    calendar (month lengths, leap years by the rules of 4, 100 and 400) has the
    next number; no intermediate value overflows. *)
Theorem calendar_is_gregorian :
  days_from_civil 1970 1 1 = Some 0
  /\ forall year month day, date_ok year month day -> year < 2 ^ 31 - 1 ->
     exists n, days_from_civil year month day = Some n
       /\ let '(y, m, d) := next_day year month day in
          date_ok y m d /\ days_from_civil y m d = Some (n + 1).
Proof.
  split; [done|]. intros year month day Hd Hy. exists (civil_day year month day).
  split; [by apply days_from_civil_day|]. destruct Hd as (H1 & H2 & H3).
  pose proof (civil_day_next year month day H2 ltac:(lia)) as Hn.
  destruct (next_day year month day) as [[y m] d] eqn:E.
  assert (date_ok y m d) as Hok; [|by rewrite days_from_civil_day, Hn].
  unfold next_day in E.
  destruct (Z.ltb_spec day (days_in_month year month)), (Z.ltb_spec month 12); simplify_eq;
    (split_and!; try lia); unfold days_in_month; simpl; repeat case_match; lia.
Qed.

(** A date in one of the year-first patterns, printed with its digits, is read
    back as its instant in UTC, whatever the separator and with or without
    milliseconds: the patterns that are tried before its own do not match it.
    The day number is the one of the calendar. *)
Theorem legacy_timestamp_round_trip sep with_millis year month day hour minute second millis :
  sep = 47 \/ sep = 45 -> 0 <= year <= 9999 -> date_ok year month day ->
  0 <= hour <= 23 -> 0 <= minute <= 59 -> 0 <= second <= 59 -> 0 <= millis <= 999 ->
  (with_millis = false -> millis = 0) ->
  exists days, days_from_civil year month day = Some days
    /\ parse_legacy_timestamp
         (print_timestamp sep with_millis year month day hour minute second millis)
       = Ok (Some ((days * 86400 + hour * 3600 + minute * 60 + second) * 1000 + millis)).
Proof.
  intros. exists (civil_day year month day). split; [by apply days_from_civil_day|].
  pose proof (printed_timestamp sep ltac:(done) with_millis year month day hour minute second millis) as H'.
  unfold epoch_millis in H'. rewrite H' by done. done.
Qed.

Lemma legacy_timestamp_round_trip_witness :
  exists days, days_from_civil 2024 2 29 = Some days
    /\ parse_legacy_timestamp (lit "2024-02-29 22:13:20.123")
       = Ok (Some ((days * 86400 + 22 * 3600 + 13 * 60 + 20) * 1000 + 123)).
Proof.
  apply (legacy_timestamp_round_trip 45 true 2024 2 29 22 13 20 123); first [by right | split_and!; vm_compute; congruence | done].
Defined.

(** The two-digit year of the last pattern is not bounded to two digits.  When
    the first field is no year of the other patterns (no month follows it), a
    year at the end of the 32-bit range overflows in the addition of the
    century, which panics where overflow checks are on; a year of four digits
    is shifted by 1900. *)
Theorem legacy_year_overflows :
  parse_legacy_timestamp (lit "12/31/2147483647 00:00:00") = Err Panic
  /\ parse_legacy_timestamp (lit "12/31/2023 00:00:00")
     = parse_legacy_timestamp (lit "3923-12-31 00:00:00").
Proof. by vm_compute. Qed.
