(* ===== verification/SaveConfig.v ===== *)
(** * Save configurations of result files

    Models [SampleSaveConfiguration] of [crates/results/src/jtl.rs]: its
    defaults, the JMeter properties it is built from, its validation, and the
    columns it selects.  The boolean members of the struct are a set of
    switches; strings are their UTF-8 bytes, property names are literals.  The
    Unicode tables of the standard library are parameters, known on ASCII. *)

From stdpp Require Import strings pretty gmap.
From S2P Require Import Prelude Wire Csv CsvProps CsvHeader CsvDates.

(** ** Values *)

Inductive JtlFormat := CsvFormat | XmlFormat.
Inductive TimestampFormat := NoTimestamp | Milliseconds | JavaDateFormat (pattern : list Z).
Inductive AssertionResults := NoAssertions | FirstAssertion | AllAssertions.
Inductive XmlSampleElement := Sample | HttpSample.

#[global] Instance JtlFormat_eq_dec : EqDecision JtlFormat.
Proof. solve_decision. Defined.

(** The boolean members of the configuration. *)
Inductive Switch :=
| print_field_names | save_time | save_latency | save_connect_time | save_timestamp | save_success
| save_label | save_response_code | save_response_message | save_thread_name | save_data_type
| save_encoding | save_assertions_enabled | save_subresults | save_response_data
| response_data_on_error | timestamp_start | use_nano_time | subresults_disable_renaming | autoflush
| save_sampler_data | save_response_headers | save_request_headers | save_bytes | save_sent_bytes
| save_url | save_filename | save_hostname | save_thread_counts | save_sample_count | save_idle_time
| save_assertion_failure_message.

#[global] Instance Switch_eq_dec : EqDecision Switch.
Proof. solve_decision. Defined.

Definition all_switches : list Switch :=
  [print_field_names; save_time; save_latency; save_connect_time; save_timestamp; save_success;
   save_label; save_response_code; save_response_message; save_thread_name; save_data_type;
   save_encoding; save_assertions_enabled; save_subresults; save_response_data; response_data_on_error;
   timestamp_start; use_nano_time; subresults_disable_renaming; autoflush; save_sampler_data;
   save_response_headers; save_request_headers; save_bytes; save_sent_bytes; save_url; save_filename;
   save_hostname; save_thread_counts; save_sample_count; save_idle_time;
   save_assertion_failure_message].

#[global] Program Instance Switch_finite : finite.Finite Switch := {| finite.enum := all_switches |}.
Next Obligation. apply (bool_decide_unpack _). by vm_compute. Qed.
Next Obligation. intros []; apply (bool_decide_unpack _); by vm_compute. Qed.

Record SampleSaveConfiguration := mkConfig {
  sv_format : JtlFormat;
  sv_timestamp_format : TimestampFormat;
  sv_delimiter : Z;
  sv_line_ending : LineEnding;
  sv_switches : gset Switch;
  sv_assertions : AssertionResults;
  sv_nano_thread_sleep : Z;
  sv_default_encoding : option (list Z);
  sv_sample_variables : list (list Z);
  sv_xml_sample_element : XmlSampleElement
}.

Definition switch (s : Switch) (c : SampleSaveConfiguration) : bool := bool_decide (s ∈ sv_switches c).

Definition set_switches v c := mkConfig (sv_format c) (sv_timestamp_format c) (sv_delimiter c)
  (sv_line_ending c) v (sv_assertions c) (sv_nano_thread_sleep c) (sv_default_encoding c)
  (sv_sample_variables c) (sv_xml_sample_element c).
Definition set_switch (s : Switch) (v : bool) (c : SampleSaveConfiguration) : SampleSaveConfiguration :=
  set_switches (if v then {[ s ]} ∪ sv_switches c else sv_switches c ∖ {[ s ]}) c.
Definition set_format v c := mkConfig v (sv_timestamp_format c) (sv_delimiter c)
  (sv_line_ending c) (sv_switches c) (sv_assertions c) (sv_nano_thread_sleep c) (sv_default_encoding c)
  (sv_sample_variables c) (sv_xml_sample_element c).
Definition set_timestamp_format v c := mkConfig (sv_format c) v (sv_delimiter c)
  (sv_line_ending c) (sv_switches c) (sv_assertions c) (sv_nano_thread_sleep c) (sv_default_encoding c)
  (sv_sample_variables c) (sv_xml_sample_element c).
Definition put_delimiter v c := mkConfig (sv_format c) (sv_timestamp_format c) v
  (sv_line_ending c) (sv_switches c) (sv_assertions c) (sv_nano_thread_sleep c) (sv_default_encoding c)
  (sv_sample_variables c) (sv_xml_sample_element c).
Definition set_line_ending v c := mkConfig (sv_format c) (sv_timestamp_format c) (sv_delimiter c)
  v (sv_switches c) (sv_assertions c) (sv_nano_thread_sleep c) (sv_default_encoding c)
  (sv_sample_variables c) (sv_xml_sample_element c).
Definition put_assertions v c := mkConfig (sv_format c) (sv_timestamp_format c) (sv_delimiter c)
  (sv_line_ending c) (sv_switches c) v (sv_nano_thread_sleep c) (sv_default_encoding c)
  (sv_sample_variables c) (sv_xml_sample_element c).
Definition set_nano_thread_sleep v c := mkConfig (sv_format c) (sv_timestamp_format c) (sv_delimiter c)
  (sv_line_ending c) (sv_switches c) (sv_assertions c) v (sv_default_encoding c)
  (sv_sample_variables c) (sv_xml_sample_element c).
Definition set_default_encoding v c := mkConfig (sv_format c) (sv_timestamp_format c) (sv_delimiter c)
  (sv_line_ending c) (sv_switches c) (sv_assertions c) (sv_nano_thread_sleep c) v
  (sv_sample_variables c) (sv_xml_sample_element c).
Definition put_sample_variables v c := mkConfig (sv_format c) (sv_timestamp_format c) (sv_delimiter c)
  (sv_line_ending c) (sv_switches c) (sv_assertions c) (sv_nano_thread_sleep c) (sv_default_encoding c)
  v (sv_xml_sample_element c).

(** [SampleSaveConfiguration::default] *)
Definition config_default : SampleSaveConfiguration :=
  mkConfig CsvFormat Milliseconds 44 Lf
    (list_to_set
       [print_field_names; save_time; save_latency; save_connect_time; save_timestamp; save_success;
        save_label; save_response_code; save_response_message; save_thread_name; save_data_type;
        save_assertions_enabled; save_subresults; timestamp_start; use_nano_time; save_bytes;
        save_sent_bytes; save_url; save_thread_counts; save_idle_time; save_assertion_failure_message])
    NoAssertions 5000 (Some (lit "UTF-8")) [] Sample.

(** ** Text *)

(** [to_ascii_lowercase] and [eq_ignore_ascii_case] *)
Definition to_ascii_lowercase (value : list Z) : list Z :=
  (fun c => if (65 <=? c) && (c <=? 90) then c + 32 else c) <$> value.
Definition eq_ignore_ascii_case (a b : list Z) : bool :=
  bool_decide (to_ascii_lowercase a = to_ascii_lowercase b).

(** The bytes of a value as a diagnostic string. *)
Definition text (value : list Z) : string :=
  String.string_of_list_ascii ((fun b => Ascii.ascii_of_N (Z.to_N b)) <$> value).

(** [str::chars]: the code points of well-formed UTF-8 *)
Fixpoint chars (value : list Z) : list Z :=
  match value with
  | [] => []
  | b0 :: r0 =>
      if b0 <? 0x80 then b0 :: chars r0
      else match r0 with
           | [] => []
           | b1 :: r1 =>
               if b0 <? 0xE0 then 64 * (b0 - 0xC0) + (b1 - 0x80) :: chars r1
               else match r1 with
                    | [] => []
                    | b2 :: r2 =>
                        if b0 <? 0xF0
                        then 4096 * (b0 - 0xE0) + 64 * (b1 - 0x80) + (b2 - 0x80) :: chars r2
                        else match r2 with
                             | [] => []
                             | b3 :: r3 =>
                                 262144 * (b0 - 0xF0) + 4096 * (b1 - 0x80) + 64 * (b2 - 0x80)
                                 + (b3 - 0x80) :: chars r3
                             end
                    end
           end
  end.

(** [str::parse::<i64>] *)
Definition parse_i64 (value : list Z) : option Z :=
  match value with
  | 43 :: digits => n ← parse_digits digits; i64_checked n
  | 45 :: digits => n ← parse_digits digits; i64_checked (- n)
  | _ => n ← parse_digits value; i64_checked n
  end.

(** ** Properties *)

Section Properties.
(** The [Debug] text of a value, which appears in diagnostics only, and
    [char::is_alphabetic] and [char::is_alphanumeric]. *)
Context (debug : list Z -> string) (char_alphabetic char_alphanumeric : Z -> bool).

Definition invalid {A} (field detail : string) : result JtlError A := Err (InvalidConfiguration field detail).

(** [JtlFormat::parse] *)
Definition parse_format (value : list Z) : result JtlError JtlFormat :=
  let lower := to_ascii_lowercase value in
  if bool_decide (lower = lit "csv") then Ok CsvFormat
  else if bool_decide (lower = lit "xml") then Ok XmlFormat
  else invalid "output_format" ("unsupported output format " +:+ debug value).

(** [LineEnding::parse] *)
Definition parse_line_ending (value : list Z) : result JtlError LineEnding :=
  let lower := to_ascii_lowercase value in
  if bool_decide (lower = lit "lf") || bool_decide (lower = lit "\n") then Ok Lf
  else if bool_decide (lower = lit "crlf") || bool_decide (lower = lit "\r\n") then Ok CrLf
  else if bool_decide (lower = lit "cr") || bool_decide (lower = lit "\r") then Ok Cr
  else invalid "line_ending" ("unsupported line ending " +:+ debug value).

Definition parse_timestamp_format (value : list Z) : TimestampFormat :=
  let lower := to_ascii_lowercase value in
  if bool_decide (lower = lit "none") then NoTimestamp
  else if bool_decide (lower = lit "ms") then Milliseconds
  else JavaDateFormat value.

(** [set_delimiter] and [set_delimiter_str] *)
Definition set_delimiter (delimiter : Z) (c : SampleSaveConfiguration)
    : result JtlError SampleSaveConfiguration :=
  let? _ := validate_delimiter delimiter in Ok (put_delimiter delimiter c).

Definition set_delimiter_str (delimiter : list Z) (c : SampleSaveConfiguration)
    : result JtlError SampleSaveConfiguration :=
  if bool_decide (delimiter = lit "\t") || bool_decide (delimiter = lit "TAB")
     || bool_decide (delimiter = lit "tab")
  then set_delimiter 9 c
  else
    match chars delimiter with
    | [] => invalid "delimiter" "delimiter must not be empty"
    | [character] => set_delimiter character c
    | _ => invalid "delimiter" "delimiter must be one character or \t"
    end.

(** [is_xml_name] and [xml_attribute_name] *)
Definition is_xml_name (value : list Z) : bool :=
  match chars value with
  | [] => false
  | first :: rest =>
      ((first =? 95) || (first =? 58) || char_alphabetic first)
      && forallb (fun ch => (ch =? 95) || (ch =? 58) || (ch =? 45) || (ch =? 46) || char_alphanumeric ch) rest
  end.

Definition xml_attribute_name (value : list Z) : result JtlError (list Z) :=
  if bool_decide (value = []) then invalid "sample_variables" "variable names must not be empty"
  else if negb (is_xml_name value)
  then invalid "sample_variables" ("invalid XML attribute name " +:+ debug value)
  else Ok value.

(** [set_sample_variables]: the loop over the names *)
Fixpoint collect_variables (variables values : list (list Z)) : result JtlError (list (list Z)) :=
  match variables with
  | [] => Ok values
  | variable :: variables' =>
      if bool_decide (variable = []) then invalid "sample_variables" "variable names must not be empty"
      else
        let? _ := xml_attribute_name variable in
        if existsb (fun existing => bool_decide (existing = variable)) values
        then invalid "sample_variables" ("duplicate variable " +:+ debug variable)
        else collect_variables variables' (values ++ [variable])
  end.

Definition set_sample_variables (variables : list (list Z)) (c : SampleSaveConfiguration)
    : result JtlError SampleSaveConfiguration :=
  let? values := collect_variables variables [] in Ok (put_sample_variables values c).

(** What a property name selects. *)
Inductive Property :=
| OutputFormat | TimestampFormatProperty | DefaultDelimiter | Flag (s : Switch) | Assertions
| AssertionResultsProperty | ErrorCountProperty | NanoThreadSleep | DefaultEncoding
| LineEndingProperty | XmlPi | BasePrefix | SampleVariables.

#[global] Instance Property_eq_dec : EqDecision Property.
Proof. solve_decision. Defined.

(** The arms of [apply_property]. *)
Definition property_table : list (string * Property) :=
  let save name p := ("jmeter.save.saveservice." +:+ name, p) in
  [save "output_format" OutputFormat; save "timestamp_format" TimestampFormatProperty;
   save "default_delimiter" DefaultDelimiter; save "print_field_names" (Flag print_field_names);
   save "time" (Flag save_time); save "latency" (Flag save_latency);
   save "connect_time" (Flag save_connect_time); save "timestamp" (Flag save_timestamp);
   save "successful" (Flag save_success); save "label" (Flag save_label);
   save "response_code" (Flag save_response_code); save "response_message" (Flag save_response_message);
   save "thread_name" (Flag save_thread_name); save "data_type" (Flag save_data_type);
   save "encoding" (Flag save_encoding); save "assertions" Assertions;
   save "assertion_results" AssertionResultsProperty; save "subresults" (Flag save_subresults);
   save "response_data" (Flag save_response_data);
   save "response_data.on_error" (Flag response_data_on_error);
   save "samplerData" (Flag save_sampler_data); save "responseHeaders" (Flag save_response_headers);
   save "requestHeaders" (Flag save_request_headers); save "bytes" (Flag save_bytes);
   save "sent_bytes" (Flag save_sent_bytes); save "url" (Flag save_url);
   save "filename" (Flag save_filename); save "hostname" (Flag save_hostname);
   save "thread_counts" (Flag save_thread_counts); save "sample_count" (Flag save_sample_count);
   save "error_count" ErrorCountProperty; save "idle_time" (Flag save_idle_time);
   save "assertion_results_failure_message" (Flag save_assertion_failure_message);
   save "failure_message" (Flag save_assertion_failure_message);
   ("sampleresult.timestamp.start", Flag timestamp_start); ("sampleresult.useNanoTime", Flag use_nano_time);
   ("sampleresult.nanoThreadSleep", NanoThreadSleep);
   ("subresults.disable_renaming", Flag subresults_disable_renaming);
   ("sampleresult.default.encoding", DefaultEncoding); save "autoflush" (Flag autoflush);
   ("line_ending", LineEndingProperty); save "xml_pi" XmlPi; save "base_prefix" BasePrefix;
   ("sample_variables", SampleVariables); save "sample_variables" SampleVariables].

Definition property_of (key : string) : option Property :=
  snd <$> find (fun p => String.eqb key p.1) property_table.

Definition bool_value (key : string) (value : list Z) : result JtlError bool :=
  if eq_ignore_ascii_case value (lit "true") then Ok true
  else if eq_ignore_ascii_case value (lit "false") then Ok false
  else invalid "save-service-property" (key +:+ " must be true or false, got " +:+ debug value).

(** The arms of [assertions] and [assertion_results]. *)
Definition apply_assertions (value : list Z) (c : SampleSaveConfiguration)
    : result JtlError SampleSaveConfiguration :=
  let lower := to_ascii_lowercase value in
  if bool_decide (lower = lit "true") then Ok (set_switch save_assertions_enabled true c)
  else if bool_decide (lower = lit "false") || bool_decide (lower = lit "none")
  then Ok (put_assertions NoAssertions (set_switch save_assertions_enabled false c))
  else if bool_decide (lower = lit "first")
  then Ok (put_assertions FirstAssertion (set_switch save_assertions_enabled true c))
  else if bool_decide (lower = lit "all")
  then Ok (put_assertions AllAssertions (set_switch save_assertions_enabled true c))
  else invalid "assertions" ("expected true, false, none, first, or all, got " +:+ debug value).

Definition apply_assertion_results (value : list Z) (c : SampleSaveConfiguration)
    : result JtlError SampleSaveConfiguration :=
  let lower := to_ascii_lowercase value in
  if bool_decide (lower = lit "none")
  then Ok (put_assertions NoAssertions (set_switch save_assertions_enabled false c))
  else if bool_decide (lower = lit "first") then Ok (put_assertions FirstAssertion c)
  else if bool_decide (lower = lit "all") then Ok (put_assertions AllAssertions c)
  else invalid "assertion_results" ("expected none, first, or all, got " +:+ debug value).

Definition jtl_unsupported {A} (feature value : string) : result JtlError A := Err (JtlUnsupported feature value).

(** One arm of [apply_property]. *)
Definition apply (p : Property) (key : string) (value : list Z) (c : SampleSaveConfiguration)
    : result JtlError SampleSaveConfiguration :=
  match p with
  | OutputFormat => let? f := parse_format value in Ok (set_format f c)
  | TimestampFormatProperty => Ok (set_timestamp_format (parse_timestamp_format value) c)
  | DefaultDelimiter => set_delimiter_str value c
  | Flag s => let? b := bool_value key value in Ok (set_switch s b c)
  | Assertions => apply_assertions value c
  | AssertionResultsProperty => apply_assertion_results value c
  | ErrorCountProperty => jtl_unsupported "jtl-save-property" key
  | NanoThreadSleep =>
      match parse_i64 value with
      | Some v => Ok (set_nano_thread_sleep v c)
      | None =>
          invalid "sampleresult.nanoThreadSleep"
            ("sampleresult.nanoThreadSleep must be a signed integer, got " +:+ debug value)
      end
  | DefaultEncoding => Ok (set_default_encoding (Some value) c)
  | LineEndingProperty => let? e := parse_line_ending value in Ok (set_line_ending e c)
  | XmlPi => jtl_unsupported "xml-processing-instruction" (text value)
  | BasePrefix => jtl_unsupported "jtl-base-prefix" (text value)
  | SampleVariables =>
      set_sample_variables (if bool_decide (value = []) then [] else split 44 value) c
  end.

Definition apply_property (key : string) (value : list Z) (c : SampleSaveConfiguration)
    : result JtlError SampleSaveConfiguration :=
  match property_of key with
  | Some p => apply p key value c
  | None =>
      if String.prefix "jmeter.save.saveservice." key then jtl_unsupported "jtl-save-property" key else Ok c
  end.

(** ** Validation and construction *)

Definition reserved_xml_names : list (list Z) :=
  lit <$> ["t"; "it"; "lt"; "ct"; "ts"; "s"; "lb"; "rc"; "rs"; "rm"; "tn"; "dt"; "de"; "by"; "sby"; "sc";
           "ec"; "ng"; "na"; "hn"]%string.

(** The loop of [validate] over the sample variables. *)
Fixpoint validate_variables (variables xml_names : list (list Z)) : result JtlError () :=
  match variables with
  | [] => Ok ()
  | variable :: variables' =>
      let? encoded := xml_attribute_name variable in
      if existsb (fun name => bool_decide (name = encoded)) reserved_xml_names
      then invalid "sample_variables"
             ("sample variable " +:+ debug variable +:+ " collides with XML attribute " +:+ debug encoded)
      else if existsb (fun name => bool_decide (name = encoded)) xml_names
      then invalid "sample_variables" ("XML attribute name collision for " +:+ debug variable)
      else validate_variables variables' (xml_names ++ [encoded])
  end.

Definition validate_config (c : SampleSaveConfiguration) : result JtlError () :=
  let? _ := validate_delimiter (sv_delimiter c) in
  if bool_decide (sv_format c = CsvFormat) && (switch save_response_data c || switch response_data_on_error c)
  then jtl_unsupported "csv-response-data" "response_data is not supported for CSV output"
  else if match sv_default_encoding c with Some [] => true | _ => false end
  then invalid "default_encoding" "default encoding must not be empty"
  else if match sv_timestamp_format c with JavaDateFormat [] => true | _ => false end
  then invalid "timestamp_format" "Java date format pattern must not be empty"
  else validate_variables (sv_sample_variables c) [].

Fixpoint apply_properties (properties : list (string * list Z)) (c : SampleSaveConfiguration)
    : result JtlError SampleSaveConfiguration :=
  match properties with
  | [] => Ok c
  | (key, value) :: properties' => let? c := apply_property key value c in apply_properties properties' c
  end.

Definition from_properties (properties : list (string * list Z)) : result JtlError SampleSaveConfiguration :=
  let? c := apply_properties properties config_default in
  let? _ := validate_config c in
  Ok c.
End Properties.

(** ** Selection *)

Definition timestamp_column_enabled (c : SampleSaveConfiguration) : bool :=
  switch save_timestamp c && match sv_timestamp_format c with NoTimestamp => false | _ => true end.

Definition saves (c : SampleSaveConfiguration) (field : CsvField) : bool :=
  match field with
  | Timestamp => timestamp_column_enabled c
  | Elapsed => switch save_time c
  | Label => switch save_label c
  | ResponseCode => switch save_response_code c
  | ResponseMessage => switch save_response_message c
  | ThreadName => switch save_thread_name c
  | DataType => switch save_data_type c
  | Success => switch save_success c
  | FailureMessage => switch save_assertion_failure_message c
  | Bytes => switch save_bytes c
  | SentBytes => switch save_sent_bytes c
  | GroupThreads | AllThreads => switch save_thread_counts c
  | Url => switch save_url c
  | Filename => switch save_filename c
  | Latency => switch save_latency c
  | Encoding => switch save_encoding c
  | SampleCount | ErrorCount => switch save_sample_count c
  | Hostname => switch save_hostname c
  | IdleTime => switch save_idle_time c
  | Connect => switch save_connect_time c
  end.

(** [columns] and [column_count] *)
Definition config_columns (c : SampleSaveConfiguration) : list CsvColumn :=
  columns (saves c) (sv_sample_variables c).

Definition column_count (c : SampleSaveConfiguration) : result JtlError Z :=
  ok_or (u64_checked_add (len (filter (fun f => saves c f = true) all_fields)) (len (sv_sample_variables c)))
    (JtlUnsupported "csv-column-limit" "configured column count overflow").

Definition assertion_selection (c : SampleSaveConfiguration) : AssertionResults :=
  if negb (switch save_assertions_enabled c) then NoAssertions
  else match sv_assertions c with NoAssertions => AllAssertions | selection => selection end.

Definition should_save_response_data (c : SampleSaveConfiguration) (result_success : option bool) : bool :=
  switch save_response_data c
  || (switch response_data_on_error c && bool_decide (result_success = Some false)).

Definition should_save_sampler_data (c : SampleSaveConfiguration) (result_success : option bool) : bool :=
  switch save_sampler_data c
  || (switch response_data_on_error c && bool_decide (result_success = Some false)).

(** ** Limits *)

Record JtlLimits := mkLimits {
  max_input_bytes : Z;
  max_output_bytes : Z;
  max_record_bytes : Z;
  max_attribute_bytes : Z;
  max_columns : Z;
  max_depth : Z;
  max_nodes : Z;
  max_samples : Z;
  max_attributes : Z
}.

Definition MAX_JTL_INPUT_BYTES : Z := 64 * 1024 * 1024.
Definition MAX_JTL_OUTPUT_BYTES : Z := 64 * 1024 * 1024.
Definition MAX_JTL_RECORD_BYTES : Z := 16 * 1024 * 1024.
Definition MAX_JTL_ATTRIBUTE_BYTES : Z := 4 * 1024 * 1024.
Definition MAX_JTL_COLUMNS : Z := 4096.
Definition MAX_JTL_DEPTH : Z := 512.
Definition MAX_JTL_NODES : Z := 1000000.
Definition MAX_JTL_SAMPLES : Z := 1000000.
Definition MAX_JTL_ATTRIBUTES : Z := 4096.

Definition jtl_limits_default : JtlLimits :=
  mkLimits (16 * 1024 * 1024) (16 * 1024 * 1024) (4 * 1024 * 1024) (256 * 1024) 512 128 100000 100000 256.

Definition validate_jtl_bound (field : string) (value maximum : Z) : result JtlError () :=
  if value =? 0 then invalid field "limit must be non-zero"
  else if maximum <? value
  then invalid field ("limit " +:+ pretty value +:+ " exceeds product maximum " +:+ pretty maximum)
  else Ok ().

Definition validate_limits (l : JtlLimits) : result JtlError () :=
  let? _ := validate_jtl_bound "max_input_bytes" (max_input_bytes l) MAX_JTL_INPUT_BYTES in
  let? _ := validate_jtl_bound "max_output_bytes" (max_output_bytes l) MAX_JTL_OUTPUT_BYTES in
  let? _ := validate_jtl_bound "max_record_bytes" (max_record_bytes l) MAX_JTL_RECORD_BYTES in
  let? _ := validate_jtl_bound "max_attribute_bytes" (max_attribute_bytes l) MAX_JTL_ATTRIBUTE_BYTES in
  let? _ := validate_jtl_bound "max_columns" (max_columns l) MAX_JTL_COLUMNS in
  let? _ := validate_jtl_bound "max_depth" (max_depth l) MAX_JTL_DEPTH in
  let? _ := validate_jtl_bound "max_nodes" (max_nodes l) MAX_JTL_NODES in
  let? _ := validate_jtl_bound "max_samples" (max_samples l) MAX_JTL_SAMPLES in
  let? _ := validate_jtl_bound "max_attributes" (max_attributes l) MAX_JTL_ATTRIBUTES in
  Ok ().

(** ** Reading and writing with a configuration *)

Section Codec.
Context (debug : list Z -> string) (char_alphabetic char_alphanumeric : Z -> bool) (limits : JtlLimits).

Definition too_many_columns {A} (count : Z) : result JtlError A :=
  Err (JtlUnsupported "csv-column-limit"
         (pretty count +:+ " configured columns exceeds " +:+ pretty (max_columns limits))).

(** The bytes of [write_header] for a fresh encoder. *)
Definition write_header (c : SampleSaveConfiguration) : result JtlError (list Z) :=
  if switch print_field_names c then
    let? count := column_count c in
    if max_columns limits <? count then too_many_columns count
    else header_record (max_record_bytes limits) (sv_delimiter c) (sv_line_ending c) (max_columns limits)
           (config_columns c)
  else Ok [].

(** [CsvDecoder::with_limits] *)
Definition decoder_with_limits (c : SampleSaveConfiguration) : CM CsvLayout :=
  st_lift (validate_config debug char_alphabetic char_alphanumeric c) ;!
  st_lift (validate_limits limits) ;!
  do! count <- st_lift (column_count c) in
  if max_columns limits <? count then st_lift (too_many_columns count)
  else
    open_decoder debug (max_input_bytes limits) (max_record_bytes limits) (max_columns limits)
      (sv_delimiter c) (switch print_field_names c) (config_columns c).
End Codec.
