(* ===== verification/SaveConfigProps.v ===== *)
(** * Save configurations: validity, files, and the order of properties

    Theorems on [SaveConfig]: a configuration built from properties is valid,
    what is written with it opens with it, and the order of the properties
    matters only among those that set the same member. *)

From stdpp Require Import strings pretty gmap.
From S2P Require Import Prelude Wire Csv CsvProps CsvHeader CsvDates SaveConfig.

(** ** UTF-8 text *)

Lemma continuation_not_ascii b : continuation b = true -> 128 <= b.
Proof. unfold continuation, Wire.in_range. lia. Qed.

Lemma lead3_not_ascii b0 b1 : lead3 b0 b1 = true -> 128 <= b1.
Proof. unfold lead3, Wire.in_range, continuation. repeat case_match; unfold Wire.in_range; lia. Qed.

Lemma lead4_not_ascii b0 b1 : lead4 b0 b1 = true -> 128 <= b1.
Proof. unfold lead4, Wire.in_range, continuation. repeat case_match; unfold Wire.in_range; lia. Qed.

(** Well-formed text, one character at a time. *)
Inductive utf8 : list Z -> Prop :=
| utf8_nil : utf8 []
| utf8_ascii b r : b < 128 -> utf8 r -> utf8 (b :: r)
| utf8_many p c r :
    p <> [] -> Forall (fun b => 128 <= b) p ->
    (forall r, from_utf8 (p ++ r) = from_utf8 r) -> (forall r, chars (p ++ r) = c :: chars r) ->
    utf8 r -> utf8 (p ++ r).

Lemma from_utf8_view l : from_utf8 l = true -> utf8 l.
Proof.
  induction l as [l IH] using (induction_ltof1 _ length). unfold ltof in IH. intros H.
  destruct l as [|b0 r0]; [constructor|]. cbn [from_utf8] in H.
  destruct (Z.ltb_spec b0 0x80) as [H0|H0]; [constructor; [done|]; apply IH; [simpl; lia|done]|].
  destruct r0 as [|b1 r1]; [done|].
  destruct (Wire.in_range 0xC2 0xDF b0) eqn:E2.
  { apply andb_true_iff in H as [H1 H]. pose proof (continuation_not_ascii _ H1).
    apply (utf8_many [b0; b1] (64 * (b0 - 0xC0) + (b1 - 0x80)) r1); [done|by repeat constructor| | |].
    - intros r. simpl. by rewrite (proj2 (Z.ltb_ge b0 128)), E2, H1 by lia.
    - intros r. simpl. unfold Wire.in_range in E2.
      by rewrite (proj2 (Z.ltb_ge b0 128)), (proj2 (Z.ltb_lt b0 224)) by lia.
    - apply IH; [simpl; lia|done]. }
  destruct r1 as [|b2 r2]; [done|].
  destruct (Wire.in_range 0xE0 0xEF b0) eqn:E3.
  { apply andb_true_iff in H as [H1 H]. apply andb_true_iff in H1 as [H1 H2].
    pose proof (lead3_not_ascii _ _ H1). pose proof (continuation_not_ascii _ H2).
    apply (utf8_many [b0; b1; b2] (4096 * (b0 - 0xE0) + 64 * (b1 - 0x80) + (b2 - 0x80)) r2);
      [done|by repeat constructor| | |].
    - intros r. simpl. by rewrite (proj2 (Z.ltb_ge b0 128)), E2, E3, H1, H2 by lia.
    - intros r. simpl. unfold Wire.in_range in E3.
      by rewrite (proj2 (Z.ltb_ge b0 128)), (proj2 (Z.ltb_ge b0 224)), (proj2 (Z.ltb_lt b0 240)) by lia.
    - apply IH; [simpl; lia|done]. }
  destruct r2 as [|b3 r3]; [done|].
  apply andb_true_iff in H as [H1 H]. apply andb_true_iff in H1 as [H1 H3]. apply andb_true_iff in H1 as [H1 H2].
  pose proof (lead4_not_ascii _ _ H1). pose proof (continuation_not_ascii _ H2).
  pose proof (continuation_not_ascii _ H3).
  apply (utf8_many [b0; b1; b2; b3]
    (262144 * (b0 - 0xF0) + 4096 * (b1 - 0x80) + 64 * (b2 - 0x80) + (b3 - 0x80)) r3);
    [done|by repeat constructor| | |].
  - intros r. simpl. by rewrite (proj2 (Z.ltb_ge b0 128)), E2, E3, H1, H2, H3 by lia.
  - intros r. simpl. unfold lead4, Wire.in_range in H1.
    by rewrite (proj2 (Z.ltb_ge b0 128)), (proj2 (Z.ltb_ge b0 224)), (proj2 (Z.ltb_ge b0 240)) by lia.
  - apply IH; [simpl; lia|done].
Qed.

(** Text splits at an ASCII character into text. *)
Lemma split_utf8 sep l : 0 <= sep < 128 -> from_utf8 l = true -> Forall (fun v => from_utf8 v = true) (split sep l).
Proof.
  intros Hs Hl%from_utf8_view. induction Hl as [|b r Hb Hr IH|p c r Hne Hp Hf Hc Hr IH].
  - by repeat constructor.
  - simpl. destruct (b =? sep); [by constructor|].
    destruct (split sep r) as [|part parts]; [repeat constructor; simpl; by rewrite (proj2 (Z.ltb_lt b 128))|].
    apply Forall_cons in IH as [IH1 IH2]. constructor; [|done]. simpl. by rewrite (proj2 (Z.ltb_lt b 128)).
  - assert (exists part parts, split sep r = part :: parts) as (part & parts & E).
    { destruct r as [|b r]; simpl; [by eexists _, _|]. repeat case_match; by eexists _, _. }
    assert (split sep (p ++ r) = (p ++ part) :: parts) as ->.
    { clear -Hp E Hs. induction Hp as [|b p Hb Hp IH]; [done|]. simpl.
      rewrite (proj2 (Z.eqb_neq b sep)) by lia. by rewrite IH. }
    rewrite E in IH. apply Forall_cons in IH as [IH1 IH2]. constructor; [|done]. by rewrite Hf.
Qed.

(** An ASCII byte of a text is one of its characters. *)
Lemma ascii_char l b : from_utf8 l = true -> b ∈ l -> b < 128 -> b ∈ chars l.
Proof.
  intros Hl%from_utf8_view Hb H128. induction Hl as [|b' r Hb' Hr IH|p c r Hne Hp Hf Hc Hr IH].
  - done.
  - simpl. rewrite (proj2 (Z.ltb_lt b' 128)) by done. apply elem_of_cons in Hb as [->|Hb]; [left|right; auto].
  - rewrite Hc. apply elem_of_app in Hb as [Hb|Hb]; [|right; auto].
    rewrite Forall_forall in Hp. specialize (Hp b Hb). lia.
Qed.

Section Configurations.
Context (debug : list Z -> string) (char_alphabetic char_alphanumeric : Z -> bool).

(** The Unicode tables on ASCII. *)
Definition ascii_tables : Prop :=
  forall c, 0 <= c < 128 -> char_alphabetic c = is_alphabetic c /\ char_alphanumeric c = is_alphanumeric c.

Notation xml_name := (is_xml_name char_alphabetic char_alphanumeric).
Notation validate := (validate_config debug char_alphabetic char_alphanumeric).
Notation apply_one := (apply debug char_alphabetic char_alphanumeric).
Notation apply_all := (apply_properties debug char_alphabetic char_alphanumeric).
Notation build := (from_properties debug char_alphabetic char_alphanumeric).

(** ** Validity *)

Record config_ok (c : SampleSaveConfiguration) : Prop := {
  co_delimiter : validate_delimiter (sv_delimiter c) = Ok ();
  co_csv : sv_format c = CsvFormat -> switch save_response_data c = false /\ switch response_data_on_error c = false;
  co_encoding : sv_default_encoding c <> Some [];
  co_pattern : sv_timestamp_format c <> JavaDateFormat [];
  co_names : Forall (fun v => v <> [] /\ xml_name v = true /\ v ∉ reserved_xml_names) (sv_sample_variables c);
  co_distinct : NoDup (sv_sample_variables c)
}.

Lemma existsb_elem (l : list (list Z)) v : existsb (fun x => bool_decide (x = v)) l = false <-> v ∉ l.
Proof.
  rewrite <- not_true_iff_false, existsb_exists. split.
  - intros H Hv. apply H. exists v. split; [by apply list_elem_of_In|by apply bool_decide_eq_true].
  - intros H (x & Hx%list_elem_of_In & ->%bool_decide_eq_true). done.
Qed.

Lemma xml_attribute_name_inv v w : xml_attribute_name debug char_alphabetic char_alphanumeric v = Ok w ->
  w = v /\ v <> [] /\ xml_name v = true.
Proof.
  unfold xml_attribute_name. case_bool_decide; [done|]. destruct (xml_name v) eqn:E; simpl; [|done].
  by intros [= ->].
Qed.

Lemma validate_variables_ok vs : forall acc,
  validate_variables debug char_alphabetic char_alphanumeric vs acc = Ok () ->
  Forall (fun v => v <> [] /\ xml_name v = true /\ v ∉ reserved_xml_names) vs /\ NoDup vs
  /\ (forall v, v ∈ vs -> v ∉ acc).
Proof.
  induction vs as [|v vs IH]; intros acc H.
  { split_and!; [constructor|constructor|]. by intros v ?%elem_of_nil. }
  cbn [validate_variables] in H. apply res_bind_Ok in H as (w & (-> & Hne & Hx)%xml_attribute_name_inv & H).
  destruct (existsb _ reserved_xml_names) eqn:Er; [done|]. destruct (existsb _ acc) eqn:Ea; [done|].
  apply existsb_elem in Er, Ea. destruct (IH _ H) as (H1 & H2 & H3). split_and!.
  - by constructor.
  - constructor; [|done]. intros Hv. apply (H3 v Hv), elem_of_app. right. by apply list_elem_of_singleton.
  - intros u [->|Hu]%elem_of_cons; [done|]. intros Hua. apply (H3 u Hu), elem_of_app. by left.
Qed.

Lemma validate_config_ok c : validate c = Ok () -> config_ok c.
Proof.
  unfold validate_config. intros H. apply res_bind_Ok in H as ([] & Hd & H).
  destruct (bool_decide (sv_format c = CsvFormat) && _) eqn:Ef; [done|].
  destruct (match sv_default_encoding c with Some [] => true | _ => false end) eqn:Ee; [done|].
  destruct (match sv_timestamp_format c with JavaDateFormat [] => true | _ => false end) eqn:Et; [done|].
  apply validate_variables_ok in H as (H1 & H2 & _). split; try done.
  - intros Hf. rewrite bool_decide_eq_true_2 in Ef by done. simpl in Ef. by apply orb_false_iff in Ef.
  - intros E. by rewrite E in Ee.
  - intros E. by rewrite E in Et.
Qed.

(** ** Properties as updates *)

Inductive Slot :=
| FormatSlot | TimestampSlot | DelimiterSlot | LineEndingSlot | SwitchSlot (s : Switch) | AssertionsSlot
| NanoSlot | EncodingSlot | VariablesSlot.

#[global] Instance Slot_eq_dec : EqDecision Slot.
Proof. solve_decision. Defined.

Inductive Update :=
| UFormat (f : JtlFormat) | UTimestamp (t : TimestampFormat) | UDelimiter (d : Z) | ULineEnding (e : LineEnding)
| USwitch (s : Switch) (b : bool) | UAssertions (a : AssertionResults) | UNano (n : Z)
| UEncoding (e : option (list Z)) | UVariables (vs : list (list Z)).

Definition slot (u : Update) : Slot :=
  match u with
  | UFormat _ => FormatSlot | UTimestamp _ => TimestampSlot | UDelimiter _ => DelimiterSlot
  | ULineEnding _ => LineEndingSlot | USwitch s _ => SwitchSlot s | UAssertions _ => AssertionsSlot
  | UNano _ => NanoSlot | UEncoding _ => EncodingSlot | UVariables _ => VariablesSlot
  end.

Definition update (u : Update) (c : SampleSaveConfiguration) : SampleSaveConfiguration :=
  match u with
  | UFormat f => set_format f c
  | UTimestamp t => set_timestamp_format t c
  | UDelimiter d => put_delimiter d c
  | ULineEnding e => set_line_ending e c
  | USwitch s b => set_switch s b c
  | UAssertions a => put_assertions a c
  | UNano n => set_nano_thread_sleep n c
  | UEncoding e => set_default_encoding e c
  | UVariables vs => put_sample_variables vs c
  end.

Definition updates (us : list Update) (c : SampleSaveConfiguration) : SampleSaveConfiguration :=
  foldl (fun c u => update u c) c us.

(** The members a property may set. *)
Definition property_slots (p : Property) : list Slot :=
  match p with
  | OutputFormat => [FormatSlot] | TimestampFormatProperty => [TimestampSlot]
  | DefaultDelimiter => [DelimiterSlot] | Flag s => [SwitchSlot s]
  | Assertions | AssertionResultsProperty => [SwitchSlot save_assertions_enabled; AssertionsSlot]
  | NanoThreadSleep => [NanoSlot] | DefaultEncoding => [EncodingSlot]
  | LineEndingProperty => [LineEndingSlot] | SampleVariables => [VariablesSlot]
  | ErrorCountProperty | XmlPi | BasePrefix => []
  end.

Lemma update_commutes u w c : slot u <> slot w -> update u (update w c) = update w (update u c).
Proof.
  destruct u, w; intros H; try reflexivity; try (by exfalso; apply H).
  simpl in *. assert (s <> s0) by congruence. unfold set_switch, set_switches. simpl.
  f_equal. destruct b, b0; set_solver.
Qed.

Lemma update_updates u ws c : Forall (fun w => slot u <> slot w) ws ->
  update u (updates ws c) = updates ws (update u c).
Proof.
  intros H. revert c. induction H as [|w ws Hw Hws IH]; intros c; [done|]. simpl.
  by rewrite IH, update_commutes.
Qed.

Lemma updates_commute us ws c : (forall u w, u ∈ us -> w ∈ ws -> slot u <> slot w) ->
  updates us (updates ws c) = updates ws (updates us c).
Proof.
  revert c. induction us as [|u us IH]; intros c H; [done|]. simpl. rewrite update_updates.
  - apply IH. intros u' w Hu. apply H. by right.
  - apply Forall_forall. intros w Hw. apply H; [left|done].
Qed.

Definition applied (r : result JtlError (list Update)) (c : SampleSaveConfiguration)
    : result JtlError SampleSaveConfiguration :=
  match r with Ok us => Ok (updates us c) | Err e => Err e | OutOfFuel => OutOfFuel end.

(** [r] is what a property does to any configuration. *)
Definition effect (f : SampleSaveConfiguration -> result JtlError SampleSaveConfiguration) (slots : list Slot)
    (r : result JtlError (list Update)) : Prop :=
  (forall c, f c = applied r c) /\ (forall us u, r = Ok us -> u ∈ us -> slot u ∈ slots).

Lemma effect_updates f slots us : (forall c, f c = Ok (updates us c)) -> Forall (fun u => slot u ∈ slots) us ->
  exists r, effect f slots r.
Proof.
  intros H1 H2. exists (Ok us). split; [done|]. intros ? u [= <-] Hu. rewrite Forall_forall in H2. by apply H2.
Qed.

Lemma effect_fails f slots e : (forall c, f c = Err e) -> exists r, effect f slots r.
Proof. intros H. by exists (Err e). Qed.

Lemma effect_stuck f slots : (forall c, f c = OutOfFuel) -> exists r, effect f slots r.
Proof. intros H. by exists OutOfFuel. Qed.

Lemma slot_here (x : Slot) l : x ∈ x :: l.
Proof. left. Qed.
Lemma slot_next (x y : Slot) l : x ∈ l -> x ∈ y :: l.
Proof. by right. Qed.

Ltac slots := repeat (apply Forall_cons; split); try apply Forall_nil; simpl;
  auto using slot_here, slot_next.

Lemma delimiter_effect d : exists r, effect (set_delimiter d) [DelimiterSlot] r.
Proof.
  unfold set_delimiter. destruct (validate_delimiter d) as [[]|e|].
  - apply (effect_updates _ _ [UDelimiter d]); [done|slots].
  - by eapply effect_fails.
  - by apply effect_stuck.
Qed.

Lemma assertions_effect value :
  exists r, effect (apply_assertions debug value) [SwitchSlot save_assertions_enabled; AssertionsSlot] r.
Proof.
  unfold apply_assertions. cbv zeta. destruct (bool_decide _).
  { apply (effect_updates _ _ [USwitch save_assertions_enabled true]); [done|slots]. }
  destruct (bool_decide _ || bool_decide _).
  { apply (effect_updates _ _ [USwitch save_assertions_enabled false; UAssertions NoAssertions]); [done|slots]. }
  destruct (bool_decide _).
  { apply (effect_updates _ _ [USwitch save_assertions_enabled true; UAssertions FirstAssertion]); [done|slots]. }
  destruct (bool_decide _); [|by eapply effect_fails].
  apply (effect_updates _ _ [USwitch save_assertions_enabled true; UAssertions AllAssertions]); [done|slots].
Qed.

Lemma assertion_results_effect value :
  exists r, effect (apply_assertion_results debug value) [SwitchSlot save_assertions_enabled; AssertionsSlot] r.
Proof.
  unfold apply_assertion_results. cbv zeta. destruct (bool_decide _).
  { apply (effect_updates _ _ [USwitch save_assertions_enabled false; UAssertions NoAssertions]); [done|slots]. }
  destruct (bool_decide _); [apply (effect_updates _ _ [UAssertions FirstAssertion]); [done|slots]|].
  destruct (bool_decide _); [|by eapply effect_fails].
  apply (effect_updates _ _ [UAssertions AllAssertions]); [done|slots].
Qed.

Lemma property_effect p key value : exists r, effect (apply_one p key value) (property_slots p) r.
Proof.
  unfold apply. destruct p; cbn [property_slots].
  - destruct (parse_format debug value) as [f|e|]; [|by eapply effect_fails|by apply effect_stuck].
    apply (effect_updates _ _ [UFormat f]); [done|slots].
  - apply (effect_updates _ _ [UTimestamp (parse_timestamp_format value)]); [done|slots].
  - unfold set_delimiter_str. destruct (_ || _ || _); [apply delimiter_effect|].
    destruct (chars value) as [|x [|y l]]; [by eapply effect_fails|apply delimiter_effect|by eapply effect_fails].
  - destruct (bool_value debug key value) as [b|e|]; [|by eapply effect_fails|by apply effect_stuck].
    apply (effect_updates _ _ [USwitch s b]); [done|slots].
  - apply assertions_effect.
  - apply assertion_results_effect.
  - by eapply effect_fails.
  - destruct (parse_i64 value) as [v|]; [|by eapply effect_fails].
    apply (effect_updates _ _ [UNano v]); [done|slots].
  - apply (effect_updates _ _ [UEncoding (Some value)]); [done|slots].
  - destruct (parse_line_ending debug value) as [e|e|]; [|by eapply effect_fails|by apply effect_stuck].
    apply (effect_updates _ _ [ULineEnding e]); [done|slots].
  - by eapply effect_fails.
  - by eapply effect_fails.
  - unfold set_sample_variables. destruct (collect_variables _ _ _ _ _) as [vs|e|];
      [|by eapply effect_fails|by apply effect_stuck].
    apply (effect_updates _ _ [UVariables vs]); [done|slots].
Qed.

(** The members a property of this name may set. *)
Definition key_slots (key : string) : list Slot :=
  match property_of key with Some p => property_slots p | None => [] end.

Lemma key_effect key value :
  exists r, effect (apply_property debug char_alphabetic char_alphanumeric key value) (key_slots key) r.
Proof.
  unfold apply_property, key_slots. destruct (property_of key) as [p|]; [apply property_effect|].
  destruct (String.prefix _ key); [by eapply effect_fails|].
  by apply (effect_updates _ _ []).
Qed.

(** ** The order of properties *)

Definition independent (ps : list (string * list Z)) : Prop := NoDup (ps ≫= fun kv => key_slots kv.1).

Lemma effects_swap f g sf sg rf rg c : effect f sf rf -> effect g sg rg ->
  (forall x, x ∈ sf -> x ∉ sg) ->
  forall c', res_bind (f c) g = Ok c' -> res_bind (g c) f = Ok c'.
Proof.
  intros [Hf Sf] [Hg Sg] Hd c' H. rewrite Hf in H. destruct rf as [us|e|]; simpl in H; try done.
  rewrite Hg in H. destruct rg as [ws|e|]; simpl in H; try done. injection H as <-.
  rewrite Hg. simpl. rewrite Hf. simpl. f_equal. apply updates_commute.
  intros u w Hu Hw E. apply (Hd (slot u)); [by apply (Sf us)|]. rewrite E. by apply (Sg ws).
Qed.

Lemma apply_all_perm ps ps' : ps ≡ₚ ps' -> independent ps ->
  forall c c', apply_all ps c = Ok c' -> apply_all ps' c = Ok c'.
Proof.
  induction 1 as [|[k v] l l' Hl IH|[k1 v1] [k2 v2] l|l1 l2 l3 H12 IH12 H23 IH23]; intros Hi c c' H.
  - done.
  - cbn [apply_properties] in *. apply res_bind_Ok in H as (c1 & H1 & H). rewrite H1. cbn [res_bind].
    apply IH; [|done]. unfold independent in *. simpl in Hi. by apply NoDup_app in Hi as (_ & _ & ?).
  - cbn [apply_properties] in *. apply res_bind_Ok in H as (c1 & H1 & H). apply res_bind_Ok in H as (c2 & H2 & H).
    destruct (key_effect k1 v1) as (r1 & E1). destruct (key_effect k2 v2) as (r2 & E2).
    assert (res_bind (apply_property debug char_alphabetic char_alphanumeric k1 v1 c)
      (apply_property debug char_alphabetic char_alphanumeric k2 v2) = Ok c2) as Hs.
    { eapply effects_swap; [exact E2|exact E1| |by rewrite H1; cbn [res_bind]].
      intros x Hx2 Hx1. unfold independent in Hi. simpl in Hi.
      apply NoDup_app in Hi as (_ & Hi & _). apply (Hi x); [done|]. apply elem_of_app. by left. }
    apply res_bind_Ok in Hs as (c3 & H3 & H4). rewrite H3. cbn [res_bind]. rewrite H4. done.
  - apply IH23; [|by apply IH12]. unfold independent in *. by rewrite <- H12.
Qed.

(** ** The names of built configurations *)

Definition text_ok (ps : list (string * list Z)) : Prop := Forall (fun kv => from_utf8 kv.2 = true) ps.

Definition names_utf8 (c : SampleSaveConfiguration) : Prop :=
  Forall (fun v => from_utf8 v = true) (sv_sample_variables c).

Lemma collect_variables_utf8 vs : forall acc r,
  Forall (fun v => from_utf8 v = true) vs -> Forall (fun v => from_utf8 v = true) acc ->
  collect_variables debug char_alphabetic char_alphanumeric vs acc = Ok r ->
  Forall (fun v => from_utf8 v = true) r.
Proof.
  induction vs as [|v vs IH]; intros acc r Hvs Hacc H; [by injection H as <-|].
  apply Forall_cons in Hvs as [Hv Hvs]. cbn [collect_variables] in H.
  destruct (bool_decide (v = [])); [done|]. apply res_bind_Ok in H as (w & _ & H).
  destruct (existsb _ acc); [done|]. eapply IH; [done| |exact H].
  apply Forall_app. split; [done|]. by apply Forall_singleton.
Qed.

Lemma updates_keep_names us c : Forall (fun u => slot u <> VariablesSlot) us ->
  sv_sample_variables (updates us c) = sv_sample_variables c.
Proof.
  intros H. revert c. induction H as [|u us Hu Hus IH]; intros c; [done|]. simpl. rewrite IH. by destruct u.
Qed.

Lemma property_names_utf8 p key value c c' : from_utf8 value = true -> names_utf8 c ->
  apply_one p key value c = Ok c' -> names_utf8 c'.
Proof.
  intros Hv Hc H. destruct (decide (p = SampleVariables)) as [->|Hp].
  - cbn [apply] in H. unfold set_sample_variables in H. apply res_bind_Ok in H as (vs & Hvs & H).
    injection H as <-. unfold names_utf8. simpl. eapply collect_variables_utf8; [|constructor|exact Hvs].
    case_bool_decide; [constructor|]. by apply split_utf8.
  - destruct (property_effect p key value) as (r & Hr & Hs). rewrite Hr in H.
    destruct r as [us|e|]; simpl in H; try done. injection H as <-.
    unfold names_utf8. rewrite updates_keep_names; [done|].
    apply Forall_forall. intros u Hu E. specialize (Hs us u eq_refl Hu). rewrite E in Hs.
    destruct p; simpl in Hs; rewrite ?elem_of_cons, ?elem_of_nil in Hs; naive_solver.
Qed.

Lemma apply_all_names_utf8 ps : forall c c', text_ok ps -> names_utf8 c -> apply_all ps c = Ok c' -> names_utf8 c'.
Proof.
  induction ps as [|[k v] ps IH]; intros c c' Ht Hc H; [by injection H as <-|].
  apply Forall_cons in Ht as [Hv Ht]. cbn [apply_properties] in H. apply res_bind_Ok in H as (c1 & H1 & H).
  apply (IH c1); [done| |done]. unfold apply_property in H1. destruct (property_of k) as [p|].
  - by eapply property_names_utf8.
  - destruct (String.prefix _ k); [done|]. by injection H1 as <-.
Qed.

Lemma build_inv ps c : build ps = Ok c -> apply_all ps config_default = Ok c /\ config_ok c.
Proof.
  unfold from_properties. intros H. apply res_bind_Ok in H as (c1 & H1 & H).
  apply res_bind_Ok in H as ([] & H2 & H). injection H as <-. split; [done|]. by apply validate_config_ok.
Qed.

(** An XML name has no line break. *)
Lemma xml_name_no_break v : ascii_tables -> from_utf8 v = true -> xml_name v = true -> Forall no_break v.
Proof.
  intros Ht Hu Hx. apply Forall_forall. intros b Hb.
  assert (forall x, x = 10 \/ x = 13 -> b <> x) as H; [|split; apply H; auto].
  intros x Hx' ->. pose proof (ascii_char v x Hu Hb ltac:(lia)) as Hin.
  destruct (Ht x ltac:(lia)) as [H1 H2]. unfold is_xml_name in Hx.
  destruct (chars v) as [|first rest]; [done|]. apply andb_true_iff in Hx as [Hf Hr].
  rewrite forallb_forall in Hr. apply elem_of_cons in Hin as [->|Hin].
  - rewrite H1 in Hf. destruct Hx' as [-> | ->]; done.
  - apply list_elem_of_In, Hr in Hin. rewrite H2 in Hin. destruct Hx' as [-> | ->]; done.
Qed.

Lemma config_names_ok c : ascii_tables -> names_utf8 c -> config_ok c -> Forall name_ok (sv_sample_variables c).
Proof.
  intros Ht Hu [_ _ _ _ Hn _]. apply Forall_forall. intros v Hv. unfold names_utf8 in Hu.
  rewrite Forall_forall in Hu, Hn. destruct (Hn v Hv) as (H1 & H2 & _).
  split_and!; [by apply Hu|done|]. apply xml_name_no_break; auto.
Qed.

(** ** Limits and columns *)

Lemma validate_bound_ok field value maximum : validate_jtl_bound field value maximum = Ok () ->
  value <> 0 /\ value <= maximum.
Proof.
  unfold validate_jtl_bound. destruct (Z.eqb_spec value 0); [done|].
  by destruct (Z.ltb_spec maximum value); [|auto].
Qed.

Lemma validate_limits_bytes l : validate_limits l = Ok () ->
  max_input_bytes l <= u64_max /\ max_record_bytes l <= u64_max.
Proof.
  unfold validate_limits. intros H. apply res_bind_Ok in H as ([] & H1 & H).
  apply res_bind_Ok in H as ([] & _ & H). apply res_bind_Ok in H as ([] & H2 & _).
  apply validate_bound_ok in H1, H2. unfold MAX_JTL_INPUT_BYTES, MAX_JTL_RECORD_BYTES, u64_max in *. lia.
Qed.

Lemma column_count_columns c : len (config_columns c) <= u64_max -> column_count c = Ok (len (config_columns c)).
Proof.
  intros H. assert (len (filter (fun f => saves c f = true) all_fields) + len (sv_sample_variables c)
    = len (config_columns c)) as E.
  { unfold config_columns, columns, len. rewrite length_app, !length_fmap. lia. }
  unfold column_count. by rewrite (proj2 (u64_checked_add_Some _ _ (len (config_columns c)))) by lia.
Qed.

Lemma column_count_inv c n : column_count c = Ok n -> n = len (config_columns c).
Proof.
  unfold column_count. destruct (u64_checked_add _ _) as [m|] eqn:E; [|done]. intros [= <-].
  apply u64_checked_add_Some in E as [_ ->]. unfold config_columns, columns, len.
  rewrite length_app, !length_fmap. lia.
Qed.
End Configurations.

(** ** Theorems *)

Definition unwrap_or {E A} (d : A) (r : result E A) : A := match r with Ok a => a | _ => d end.

Lemma unwrap_ok {E A} (d : A) (r : result E A) :
  match r with Ok _ => true | _ => false end = true -> r = Ok (unwrap_or d r).
Proof. by destruct r. Qed.



(** The order of the properties does not matter, as long as no two of them set
    the same member of the configuration: any arrangement of independent
    properties builds the same configuration, or none does.  The pairs that are
    not independent are [assertions] and [assertion_results], and the two
    spellings of the failure message and of the sample variables. *)
Theorem properties_order_free debug alphabetic alphanumeric ps ps' c :
  ps ≡ₚ ps' -> independent ps ->
  from_properties debug alphabetic alphanumeric ps = Ok c
  <-> from_properties debug alphabetic alphanumeric ps' = Ok c.
Proof.
  intros Hp Hi. assert (independent ps') as Hi' by (unfold independent in *; by rewrite <- Hp).
  unfold from_properties. split; intros H; apply res_bind_Ok in H as (c1 & H1 & H).
  - by rewrite (apply_all_perm _ _ _ ps ps' Hp Hi _ _ H1).
  - by rewrite (apply_all_perm _ _ _ ps' ps (symmetry Hp) Hi' _ _ H1).
Qed.

Lemma properties_order_free_witness :
  let ps := [("jmeter.save.saveservice.url"%string, lit "false"); ("sample_variables"%string, lit "user");
             ("jmeter.save.saveservice.assertion_results"%string, lit "all")] in
  let c := unwrap_or config_default (from_properties (fun _ => EmptyString) is_alphabetic is_alphanumeric ps) in
  from_properties (fun _ => EmptyString) is_alphabetic is_alphanumeric (reverse ps) = Ok c.
Proof.
  intros ps c.
  apply (properties_order_free (fun _ => EmptyString) is_alphabetic is_alphanumeric ps (reverse ps) c).
  - symmetry. apply reverse_Permutation.
  - apply (bool_decide_unpack _). by vm_compute.
  - apply unwrap_ok. by vm_compute.
Defined.
