(* ===== verification/Logic.v ===== *)
(** * Logic controllers

    Models [crates/runtime/src/logic.rs], the controller machine a virtual user
    runs: the tree of logic controllers ([LogicNode]), its compilation
    ([LogicProgram::compile_with_limits]) and the runner ([LogicRunner]), a
    stack of work items advanced by [step].

    A [String] is its UTF-8 bytes, one [ascii] per byte.  An [f64] is a binary64
    value of [SpecFloat].  The stack [work] is a list with the top first;
    [active_ifs] keeps the order of the code, the innermost frame last.  The
    counters behind [Arc<LogicSharedState>] are part of the runner's record
    while the runner is stepped: [shared_state] is what the cell holds. *)

From Stdlib Require Import SpecFloat.
From stdpp Require Import strings pretty gmap.
From S2P Require Import Prelude Control Plan Random Wire.

Definition LOGIC_MAX_NODES : Z := 65536.
Definition LOGIC_MAX_DEPTH : Z := 256.
Definition LOGIC_MAX_TRANSITIONS : Z := 65536.
Definition MAX_KIND_BYTES : Z := 4096.

(** ** Text

    What the controllers use of [str]: [trim], [to_ascii_lowercase],
    [parse::<usize>] and [parse::<i32>]. *)

(** [bounded_text] *)
Definition bounded_text (value : string) : string :=
  if Z.of_nat (String.length value) <=? MAX_KIND_BYTES then value
  else String.substring 0 (boundary_before value (Z.to_nat MAX_KIND_BYTES)) value.

(** The encodings of the characters with the property White_Space. *)
Definition white_space : list (list nat) :=
  [[9]; [10]; [11]; [12]; [13]; [32]; [0xC2; 0x85]; [0xC2; 0xA0]; [0xE1; 0x9A; 0x80];
   [0xE2; 0x80; 0x80]; [0xE2; 0x80; 0x81]; [0xE2; 0x80; 0x82]; [0xE2; 0x80; 0x83];
   [0xE2; 0x80; 0x84]; [0xE2; 0x80; 0x85]; [0xE2; 0x80; 0x86]; [0xE2; 0x80; 0x87];
   [0xE2; 0x80; 0x88]; [0xE2; 0x80; 0x89]; [0xE2; 0x80; 0x8A]; [0xE2; 0x80; 0xA8];
   [0xE2; 0x80; 0xA9]; [0xE2; 0x80; 0xAF]; [0xE2; 0x81; 0x9F]; [0xE3; 0x80; 0x80]]%nat.

(** One character of [chars] taken off the front of [s]. *)
Fixpoint strip_one (chars : list (list nat)) (s : list nat) : option (list nat) :=
  match chars with
  | [] => None
  | c :: chars =>
      if bool_decide (take (length c) s = c) then Some (drop (length c) s) else strip_one chars s
  end.

Fixpoint strip_all (fuel : nat) (chars : list (list nat)) (s : list nat) : list nat :=
  match fuel with
  | O => s
  | S fuel => match strip_one chars s with Some s' => strip_all fuel chars s' | None => s end
  end.

Definition bytes_of (s : string) : list nat := map Ascii.nat_of_ascii (String.list_ascii_of_string s).
Definition string_of (l : list nat) : string :=
  String.string_of_list_ascii (map Ascii.ascii_of_nat l).

(** [str::trim] *)
Definition trim (s : string) : string :=
  let start := strip_all (String.length s) white_space (bytes_of s) in
  string_of (reverse (strip_all (length start) (map reverse white_space) (reverse start))).

Definition lower_ascii (c : Ascii.ascii) : Ascii.ascii :=
  let n := Ascii.nat_of_ascii c in
  if (Nat.leb 65 n && Nat.leb n 90)%bool then Ascii.ascii_of_nat (n + 32) else c.

(** [str::to_ascii_lowercase] *)
Definition to_ascii_lowercase (s : string) : string :=
  String.string_of_list_ascii (map lower_ascii (String.list_ascii_of_string s)).

Definition eq_ignore_ascii_case (a b : string) : bool :=
  bool_decide (to_ascii_lowercase a = to_ascii_lowercase b).

Definition ascii_digit (c : Ascii.ascii) : option Z :=
  let n := Z.of_nat (Ascii.nat_of_ascii c) in
  if (48 <=? n) && (n <=? 57) then Some (n - 48) else None.

(** [value.chars().all(|c| c.is_ascii_digit())] *)
Definition all_digits (s : string) : bool :=
  forallb (fun c => bool_decide (is_Some (ascii_digit c))) (String.list_ascii_of_string s).

(** The value of a non-empty string of digits. *)
Definition digits_value (l : list Ascii.ascii) : option Z :=
  if bool_decide (l = []) then None
  else foldl (fun acc c => n ← acc; d ← ascii_digit c; Some (10 * n + d)) (Some 0) l.

Definition parse_unsigned (maximum : Z) (s : string) : option Z :=
  let l := String.list_ascii_of_string s in
  n ← digits_value (match l with
                    | c :: l' => if Nat.eqb (Ascii.nat_of_ascii c) 43 then l' else l
                    | [] => []
                    end);
  if n <=? maximum then Some n else None.

(** [str::parse::<usize>] *)
Definition parse_usize (s : string) : option Z := parse_unsigned usize_max s.

(** ** Binary floating point

    [f64] and [f32] with their roundings, to nearest, ties to even. *)

Abbreviation f64 := spec_float (only parsing).

Definition f64_of_u64 (n : Z) : f64 := binary_normalize 53 1024 n 0 false.
Definition f64_mul : f64 -> f64 -> f64 := SFmul 53 1024.
Definition f64_add : f64 -> f64 -> f64 := SFadd 53 1024.
Definition f64_div : f64 -> f64 -> f64 := SFdiv 53 1024.

(** [value as f32], and [f64::from], at a precision and an exponent bound. *)
Definition convert (prec emax : Z) (value : spec_float) : spec_float :=
  match value with
  | S754_finite s m e => binary_normalize prec emax (cond_Zopp s (Z.pos m)) e s
  | _ => value
  end.

Definition is_finite (value : f64) : bool :=
  match value with S754_zero _ | S754_finite _ _ _ => true | _ => false end.

(** ** Errors *)

Inductive LogicControllerError :=
| PlanTooLarge (count limit : Z)
| PlanTooDeep (depth limit : Z)
| TransitionLimit (used limit : Z)
| Unsupported (controller capability_id : string)
| UnresolvedReplacement (controller : Z)
| InvalidSwitchIndex (controller : Z) (value : string)
| InvalidForEachValue (controller : Z) (variable : string)
| InvalidPercentage (controller : Z) (value : f64)
| MissingGlobalState (controller : Z)
| DuplicateControllerId (controller : Z)
| InvariantViolation (detail : string).

(** [LogicControllerError::code] *)
Definition logic_error_code (e : LogicControllerError) : string :=
  match e with
  | PlanTooLarge _ _ => "runtime.logic.plan-too-large"
  | PlanTooDeep _ _ => "runtime.logic.plan-too-deep"
  | TransitionLimit _ _ => "runtime.logic.transition-limit"
  | Unsupported _ _ => "runtime.logic.unsupported"
  | UnresolvedReplacement _ => "runtime.logic.unresolved-replacement"
  | InvalidSwitchIndex _ _ => "runtime.logic.invalid-switch"
  | InvalidForEachValue _ _ => "runtime.logic.invalid-foreach"
  | InvalidPercentage _ _ => "runtime.logic.invalid-percentage"
  | MissingGlobalState _ => "runtime.logic.missing-global-state"
  | DuplicateControllerId _ => "runtime.logic.duplicate-controller-id"
  | InvariantViolation _ => "runtime.logic.invariant"
  end.

(** ** Conditions and selections *)

Abbreviation Variables := (gmap string string) (only parsing).

Inductive LogicCondition :=
| Always
| Never
| VariableEquals (name value : string)
| VariableBoolean (name : string)
| LastSampleSuccess (expected : bool)
| Literal (value : string)
| External (capability_id : string).

(** [parse_bool] *)
Definition parse_bool (value : option string) : bool :=
  match value with
  | Some value =>
      let text := to_ascii_lowercase (trim value) in
      bool_decide (text = "true" \/ text = "1" \/ text = "yes" \/ text = "on")
  | None => false
  end.

(** [LogicCondition::evaluate] *)
Definition evaluate (c : LogicCondition) (variables : Variables)
    (last_sample_success : option bool) : result LogicControllerError bool :=
  match c with
  | Always => Ok true
  | Never => Ok false
  | VariableEquals name value => Ok (bool_decide (variables !! name = Some value))
  | VariableBoolean name => Ok (parse_bool (variables !! name))
  | LastSampleSuccess expected => Ok (bool_decide (last_sample_success = Some expected))
  | Literal value => Ok (parse_bool (Some value))
  | External capability_id => Err (Unsupported "If/While condition" (bounded_text capability_id))
  end.

(** [uniform_index] of this file: [bound] is a length, a [usize]. *)
Definition uniform_choice (value : Z) (bound : nat) : option nat :=
  let bound := Z.of_nat bound in
  if bound =? 0 then None
  else
    let remainder := u64_max mod bound in
    let threshold := (remainder + 1) mod bound in
    if value <? threshold then None else Some (Z.to_nat (value mod bound)).

Inductive ThroughputMode := Total | Percentage.

(** [ThroughputState] *)
Record VisitCounters := mkThroughput { iterations : Z; executions : Z }.

(** [ThroughputState::default] *)
Definition visit_default : VisitCounters := mkThroughput 0 0.

Definition u64_saturating_succ (n : Z) : Z := Z.min (n + 1) u64_max.

(** [throughput_decide] *)
Definition throughput_decide (counters : VisitCounters) (mode : ThroughputMode) (limit : Z)
    (percent : f64) : bool :=
  match mode with
  | Total => executions counters <? limit
  | Percentage =>
      let iteration := u64_saturating_succ (iterations counters) in
      let percent := convert 53 1024 (convert 24 128 percent) in
      let estimate :=
        f64_div (f64_add (f64_mul (f64_of_u64 100) (f64_of_u64 (executions counters))) (f64_of_u64 50))
          (f64_of_u64 iteration) in
      SFltb estimate percent
  end.

Inductive SwitchSelection :=
| SelectIndex (index : Z)
| SelectVariable (name : string)
| SelectVariableWithNames (variable : string) (child_names : list string)
| SelectRandom.

(** [switch_numeric_index] *)
Definition switch_numeric_index (value : string) (child_count : nat) : option nat :=
  if bool_decide (value = "") then Some 0%nat
  else if negb (all_digits value) then None
  else
    index ← parse_unsigned (2 ^ 31 - 1) value;
    Some (if index <? Z.of_nat child_count then Z.to_nat index else 0%nat).

(** [iter().enumerate().find(..).map(|(index, _)| index)] over the names
    before [child_count]. *)
Definition find_name (test : string -> bool) (names : list string) (child_count : nat) : option nat :=
  fst <$> list_find (fun name => test name) (take child_count names).

(** [switch_named_index] *)
Definition switch_named_index (value : string) (child_names : list string) (child_count : nat) :
    option nat :=
  match find_name (fun name => bool_decide (name = value)) child_names child_count with
  | Some index => Some index
  | None => find_name (fun name => eq_ignore_ascii_case name "default") child_names child_count
  end.

(** ** The controller tree

    The constructors of [LogicNode], with an [L] in front. *)
Inductive LogicNode :=
| LSample (id : Z)
| LSequence (id : Z) (children : list LogicNode)
| LLoop (id : Z) (count : LoopCount) (children : list LogicNode)
| LIf (id : Z) (condition : LogicCondition) (evaluate_each_iteration : bool)
    (children : list LogicNode)
| LWhile (id : Z) (condition : LogicCondition) (max_iterations : option Z)
    (children : list LogicNode)
| LForEach (id : Z) (input_prefix output_variable : string) (children : list LogicNode)
| LSwitch (id : Z) (selection : SwitchSelection) (children : list LogicNode)
| LInterleave (id : Z) (children : list LogicNode)
| LRandom (id : Z) (children : list LogicNode)
| LRandomOrder (id : Z) (children : list LogicNode)
| LOnceOnly (id : Z) (children : list LogicNode)
| LThroughput (id : Z) (mode : ThroughputMode) (limit : Z) (percent : f64) (per_user : bool)
    (children : list LogicNode)
| LRuntime (id : Z) (duration : Z) (children : list LogicNode)
| LTransaction (id : Z) (parent include_timers : bool) (children : list LogicNode)
| LModule (id : Z) (target : option LogicNode)
| LInclude (id : Z) (target : option LogicNode)
| LRecording (id : Z) (children : list LogicNode)
| LCriticalSection (id : Z) (lock_name : string) (children : list LogicNode).

(** [LogicNode::id] *)
Definition node_id (node : LogicNode) : Z :=
  match node with
  | LSample id | LSequence id _ | LLoop id _ _ | LIf id _ _ _ | LWhile id _ _ _
  | LForEach id _ _ _ | LSwitch id _ _ | LInterleave id _ | LRandom id _ | LRandomOrder id _
  | LOnceOnly id _ | LThroughput id _ _ _ _ _ | LRuntime id _ _ | LTransaction id _ _ _
  | LModule id _ | LInclude id _ | LRecording id _ | LCriticalSection id _ _ => id
  end.

(** [LogicNode::children] *)
Definition node_children (node : LogicNode) : option (list LogicNode) :=
  match node with
  | LSequence _ children | LLoop _ _ children | LIf _ _ _ children | LWhile _ _ _ children
  | LForEach _ _ _ children | LSwitch _ _ children | LInterleave _ children | LRandom _ children
  | LRandomOrder _ children | LOnceOnly _ children | LThroughput _ _ _ _ _ children
  | LRuntime _ _ children | LTransaction _ _ _ children | LRecording _ children
  | LCriticalSection _ _ children => Some children
  | LSample _ | LModule _ _ | LInclude _ _ => None
  end.

Record LogicLimits := mkLogicLimits {
  max_nodes : Z;
  max_depth : Z;
  max_transitions : Z
}.

(** [LogicLimits::default] *)
Definition logic_limits_default : LogicLimits :=
  mkLogicLimits LOGIC_MAX_NODES LOGIC_MAX_DEPTH LOGIC_MAX_TRANSITIONS.

Record LogicProgram := mkLogicProgram {
  program_root : LogicNode;
  program_limits : LogicLimits;
  program_uses_random : bool
}.

(** ** Compilation *)

Fixpoint node_size (node : LogicNode) : nat :=
  let fix sizes (l : list LogicNode) : nat :=
    match l with [] => O | n :: l => (node_size n + sizes l)%nat end in
  match node with
  | LSequence _ ch | LLoop _ _ ch | LIf _ _ _ ch | LWhile _ _ _ ch | LForEach _ _ _ ch
  | LSwitch _ _ ch | LInterleave _ ch | LRandom _ ch | LRandomOrder _ ch | LOnceOnly _ ch
  | LThroughput _ _ _ _ _ ch | LRuntime _ _ ch | LTransaction _ _ _ ch | LRecording _ ch
  | LCriticalSection _ _ ch => S (sizes ch)
  | LModule _ (Some t) | LInclude _ (Some t) => S (node_size t)
  | LSample _ | LModule _ None | LInclude _ None => 1%nat
  end.

Definition several {A} (l : list A) : bool := Nat.ltb 1 (length l).

(** [!percent.is_finite() || !(0.0..=100.0).contains(percent)] *)
Definition bad_percentage (percent : f64) : bool :=
  negb (is_finite percent)
  || negb (SFleb (S754_zero false) percent && SFleb percent (f64_of_u64 100)).

(** The [match node] that ends the loop body of [compile_with_limits]: the
    stack and [uses_random] after it. *)
Definition compile_kind (node : LogicNode) (depth : Z) (stack : list (LogicNode * Z))
    (uses_random : bool) : result LogicControllerError (list (LogicNode * Z) * bool) :=
  match node with
  | LRandom _ children | LRandomOrder _ children | LSwitch _ SelectRandom children =>
      Ok (stack, uses_random || several children)
  | LModule id target | LInclude id target =>
      let? replacement := ok_or target (UnresolvedReplacement id) in
      Ok ((replacement, usize_saturating_succ depth) :: stack, uses_random)
  | LThroughput id Percentage _ percent _ _ =>
      if bad_percentage percent then Err (InvalidPercentage id percent) else Ok (stack, uses_random)
  | _ => Ok (stack, uses_random)
  end.

(** The loop of [compile_with_limits].  Each turn takes one node of the tree
    off the stack, so the size of the tree is enough fuel. *)
Fixpoint logic_compile_loop (fuel : nat) (limits : LogicLimits) (stack : list (LogicNode * Z))
    (count : Z) (uses_random : bool) (seen_ids : gset Z) : result LogicControllerError bool :=
  match fuel with
  | O => OutOfFuel
  | S fuel =>
      match stack with
      | [] => Ok uses_random
      | (node, depth) :: stack =>
          if max_depth limits <? depth then Err (PlanTooDeep depth (max_depth limits))
          else
            let count := usize_saturating_succ count in
            if max_nodes limits <? count then Err (PlanTooLarge count (max_nodes limits))
            else if bool_decide (node_id node ∈ seen_ids) then Err (DuplicateControllerId (node_id node))
            else
              let seen_ids := {[node_id node]} ∪ seen_ids in
              let stack :=
                match node_children node with
                | Some children =>
                    map (fun child => (child, usize_saturating_succ depth)) children ++ stack
                | None => stack
                end in
              let? '(stack, uses_random) := compile_kind node depth stack uses_random in
              logic_compile_loop fuel limits stack count uses_random seen_ids
      end
  end.

(** [LogicProgram::compile_with_limits] and [LogicProgram::compile] *)
Definition logic_compile_with_limits (root : LogicNode) (limits : LogicLimits) :
    result LogicControllerError LogicProgram :=
  let? uses_random := logic_compile_loop (S (node_size root)) limits [(root, 0)] 0 false ∅ in
  Ok (mkLogicProgram root limits uses_random).

Definition logic_compile (root : LogicNode) : result LogicControllerError LogicProgram :=
  logic_compile_with_limits root logic_limits_default.

(** ** The runner's state *)

Record LogicCursor := mkLogicCursor {
  lc_id : Z;
  lc_kind : string;
  lc_iteration : Z
}.

(** The constructors of [WorkItem], with a [W] in front. *)
Inductive WorkItem :=
| WNode (node : LogicNode) (path : list LogicCursor) (iteration : Z)
| WIfEnd (id : Z)
| WLoopAgain (id : Z) (count : LoopCount) (children : list LogicNode) (path : list LogicCursor)
    (iteration : Z)
| WWhileAgain (id : Z) (condition : LogicCondition) (max_iterations : option Z)
    (children : list LogicNode) (path : list LogicCursor) (iteration : Z)
| WForEachAgain (id : Z) (input_prefix output_variable : string) (count : Z)
    (children : list LogicNode) (path : list LogicCursor) (index : Z)
| WRuntimeAgain (id : Z) (duration : Z) (children : list LogicNode) (path : list LogicCursor)
    (iteration deadline : Z).

Record PendingRandomOrder := mkPending {
  po_id : Z;
  po_path : list LogicCursor;
  po_iteration : Z;
  po_order : list LogicNode;
  po_remaining : nat
}.

Record TransactionInfo := mkTransaction {
  ti_id : Z;
  ti_parent : bool;
  ti_include_timers : bool
}.

Record LogicSelection := mkLogicSelection {
  sampler_id : Z;
  execution_iteration : Z;
  sel_path : list LogicCursor;
  transactions : list Z;
  transaction_details : list TransactionInfo;
  critical_sections : list string;
  critical_section_ids : list Z
}.

Record LogicInput := mkLogicInput {
  in_signal : ControlSignal;
  in_last_sample_success : option bool;
  in_elapsed : Z;
  in_random_value : option Z
}.

(** The constructors of [LogicStep], with a [Step] in front. *)
Inductive LogicStep :=
| StepSample (selection : LogicSelection)
| StepNeedsRandom
| StepComplete
| StepStopped (signal : ControlSignal).

Record ActiveIfFrame := mkIfFrame {
  if_id : Z;
  if_condition : LogicCondition;
  reset_state_ids : gset Z
}.

(** [LogicRunner], its [program] apart. *)
Record LogicRunner := mkLogicRunner {
  work : list WorkItem;
  variables : Variables;
  root_started : bool;
  finished : bool;
  terminal : option ControlSignal;
  root_iteration : Z;
  loop_iterations : gmap Z Z;
  once_done : gset Z;
  interleave_next : gmap Z Z;
  throughput : gmap Z VisitCounters;
  runtime_starts : gmap Z Z;
  transition_count : Z;
  shared_state : option (gmap Z VisitCounters);
  transaction_metadata : gmap Z (bool * bool);
  pending_random_order : option PendingRandomOrder;
  active_ifs : list ActiveIfFrame;
  if_check_pending : bool
}.

(** [LogicRunner::new], with the shared cell a caller attaches
    ([LogicProgram::runner], [runner_with_shared_state], [clone_for_user]). *)
Definition logic_runner_new (shared : option (gmap Z VisitCounters)) : LogicRunner :=
  mkLogicRunner [] ∅ false false None 0 ∅ ∅ ∅ ∅ ∅ 0 shared ∅ None [] false.

(** [LogicRunner::reset]: every field but the program and the shared cell. *)
Definition logic_reset (r : LogicRunner) : LogicRunner :=
  mkLogicRunner [] ∅ false false None 0 ∅ ∅ ∅ ∅ ∅ 0 (shared_state r) ∅ None [] false.

(** Field updates. *)
Definition with_work (w : list WorkItem) (r : LogicRunner) : LogicRunner :=
  mkLogicRunner w (variables r) (root_started r) (finished r) (terminal r) (root_iteration r)
    (loop_iterations r) (once_done r) (interleave_next r) (throughput r) (runtime_starts r)
    (transition_count r) (shared_state r) (transaction_metadata r) (pending_random_order r)
    (active_ifs r) (if_check_pending r).
Definition with_variables (v : Variables) (r : LogicRunner) : LogicRunner :=
  mkLogicRunner (work r) v (root_started r) (finished r) (terminal r) (root_iteration r)
    (loop_iterations r) (once_done r) (interleave_next r) (throughput r) (runtime_starts r)
    (transition_count r) (shared_state r) (transaction_metadata r) (pending_random_order r)
    (active_ifs r) (if_check_pending r).
Definition with_root_started (b : bool) (r : LogicRunner) : LogicRunner :=
  mkLogicRunner (work r) (variables r) b (finished r) (terminal r) (root_iteration r)
    (loop_iterations r) (once_done r) (interleave_next r) (throughput r) (runtime_starts r)
    (transition_count r) (shared_state r) (transaction_metadata r) (pending_random_order r)
    (active_ifs r) (if_check_pending r).
Definition with_finished (b : bool) (r : LogicRunner) : LogicRunner :=
  mkLogicRunner (work r) (variables r) (root_started r) b (terminal r) (root_iteration r)
    (loop_iterations r) (once_done r) (interleave_next r) (throughput r) (runtime_starts r)
    (transition_count r) (shared_state r) (transaction_metadata r) (pending_random_order r)
    (active_ifs r) (if_check_pending r).
Definition with_terminal (t : option ControlSignal) (r : LogicRunner) : LogicRunner :=
  mkLogicRunner (work r) (variables r) (root_started r) (finished r) t (root_iteration r)
    (loop_iterations r) (once_done r) (interleave_next r) (throughput r) (runtime_starts r)
    (transition_count r) (shared_state r) (transaction_metadata r) (pending_random_order r)
    (active_ifs r) (if_check_pending r).
Definition with_loop_iterations (m : gmap Z Z) (r : LogicRunner) : LogicRunner :=
  mkLogicRunner (work r) (variables r) (root_started r) (finished r) (terminal r)
    (root_iteration r) m (once_done r) (interleave_next r) (throughput r) (runtime_starts r)
    (transition_count r) (shared_state r) (transaction_metadata r) (pending_random_order r)
    (active_ifs r) (if_check_pending r).
Definition with_once_done (s : gset Z) (r : LogicRunner) : LogicRunner :=
  mkLogicRunner (work r) (variables r) (root_started r) (finished r) (terminal r)
    (root_iteration r) (loop_iterations r) s (interleave_next r) (throughput r)
    (runtime_starts r) (transition_count r) (shared_state r) (transaction_metadata r)
    (pending_random_order r) (active_ifs r) (if_check_pending r).
Definition with_interleave_next (m : gmap Z Z) (r : LogicRunner) : LogicRunner :=
  mkLogicRunner (work r) (variables r) (root_started r) (finished r) (terminal r)
    (root_iteration r) (loop_iterations r) (once_done r) m (throughput r) (runtime_starts r)
    (transition_count r) (shared_state r) (transaction_metadata r) (pending_random_order r)
    (active_ifs r) (if_check_pending r).
Definition with_throughput (m : gmap Z VisitCounters) (r : LogicRunner) : LogicRunner :=
  mkLogicRunner (work r) (variables r) (root_started r) (finished r) (terminal r)
    (root_iteration r) (loop_iterations r) (once_done r) (interleave_next r) m
    (runtime_starts r) (transition_count r) (shared_state r) (transaction_metadata r)
    (pending_random_order r) (active_ifs r) (if_check_pending r).
Definition with_runtime_starts (m : gmap Z Z) (r : LogicRunner) : LogicRunner :=
  mkLogicRunner (work r) (variables r) (root_started r) (finished r) (terminal r)
    (root_iteration r) (loop_iterations r) (once_done r) (interleave_next r) (throughput r) m
    (transition_count r) (shared_state r) (transaction_metadata r) (pending_random_order r)
    (active_ifs r) (if_check_pending r).
Definition with_transition_count (n : Z) (r : LogicRunner) : LogicRunner :=
  mkLogicRunner (work r) (variables r) (root_started r) (finished r) (terminal r)
    (root_iteration r) (loop_iterations r) (once_done r) (interleave_next r) (throughput r)
    (runtime_starts r) n (shared_state r) (transaction_metadata r) (pending_random_order r)
    (active_ifs r) (if_check_pending r).
Definition with_shared_state (s : option (gmap Z VisitCounters)) (r : LogicRunner) : LogicRunner :=
  mkLogicRunner (work r) (variables r) (root_started r) (finished r) (terminal r)
    (root_iteration r) (loop_iterations r) (once_done r) (interleave_next r) (throughput r)
    (runtime_starts r) (transition_count r) s (transaction_metadata r) (pending_random_order r)
    (active_ifs r) (if_check_pending r).
Definition with_transaction_metadata (m : gmap Z (bool * bool)) (r : LogicRunner) : LogicRunner :=
  mkLogicRunner (work r) (variables r) (root_started r) (finished r) (terminal r)
    (root_iteration r) (loop_iterations r) (once_done r) (interleave_next r) (throughput r)
    (runtime_starts r) (transition_count r) (shared_state r) m (pending_random_order r)
    (active_ifs r) (if_check_pending r).
Definition with_pending (o : option PendingRandomOrder) (r : LogicRunner) : LogicRunner :=
  mkLogicRunner (work r) (variables r) (root_started r) (finished r) (terminal r)
    (root_iteration r) (loop_iterations r) (once_done r) (interleave_next r) (throughput r)
    (runtime_starts r) (transition_count r) (shared_state r) (transaction_metadata r) o
    (active_ifs r) (if_check_pending r).
Definition with_active_ifs (l : list ActiveIfFrame) (r : LogicRunner) : LogicRunner :=
  mkLogicRunner (work r) (variables r) (root_started r) (finished r) (terminal r)
    (root_iteration r) (loop_iterations r) (once_done r) (interleave_next r) (throughput r)
    (runtime_starts r) (transition_count r) (shared_state r) (transaction_metadata r)
    (pending_random_order r) l (if_check_pending r).
Definition with_if_check (b : bool) (r : LogicRunner) : LogicRunner :=
  mkLogicRunner (work r) (variables r) (root_started r) (finished r) (terminal r)
    (root_iteration r) (loop_iterations r) (once_done r) (interleave_next r) (throughput r)
    (runtime_starts r) (transition_count r) (shared_state r) (transaction_metadata r)
    (pending_random_order r) (active_ifs r) b.

(** [set_variable] and [replace_variables] *)
Definition set_variable (name value : string) (r : LogicRunner) : LogicRunner :=
  with_variables (<[name := value]> (variables r)) r.
Definition replace_variables (values : Variables) (r : LogicRunner) : LogicRunner :=
  with_variables values r.

(** A step works on the runner and on the input it may take the random value
    from. *)
Record Machine := mkMachine { m_runner : LogicRunner; m_input : LogicInput }.

Definition M (A : Type) : Type := ST Machine (fault LogicControllerError) A.

Definition get_runner : M LogicRunner := fun m => (Ok (m_runner m), m).
Definition get_input : M LogicInput := fun m => (Ok (m_input m), m).
Definition update (f : LogicRunner -> LogicRunner) : M () :=
  fun m => (Ok (), mkMachine (f (m_runner m)) (m_input m)).

(** [input.random_value.take()] *)
Definition take_random : M (option Z) := fun m =>
  let i := m_input m in
  (Ok (in_random_value i),
   mkMachine (m_runner m) (mkLogicInput (in_signal i) (in_last_sample_success i) (in_elapsed i) None)).

(** [?] on a [Result], [return Err(e)] and an index out of range. *)
Definition lift {A} (r : result LogicControllerError A) : M A :=
  st_lift (match r with Ok a => Ok a | Err e => Err (Raised e) | OutOfFuel => OutOfFuel end).
Definition fail {A} (e : LogicControllerError) : M A := st_fail (Raised e).
Definition panic {A} : M A := st_fail Panic.
Definition nothing : M (option LogicStep) := st_ret None.

(** ** Helpers of the runner *)

(** [cursor] *)
Definition cursor (id : Z) (kind : string) (iteration : Z) : LogicCursor :=
  mkLogicCursor id kind iteration.

(** The first cursor with this identity and kind gets the iteration. *)
Fixpoint update_first (path : list LogicCursor) (id : Z) (kind : string) (iteration : Z) :
    option (list LogicCursor) :=
  match path with
  | [] => None
  | c :: path =>
      if (lc_id c =? id) && bool_decide (lc_kind c = kind)
      then Some (mkLogicCursor (lc_id c) (lc_kind c) iteration :: path)
      else (fun path => c :: path) <$> update_first path id kind iteration
  end.

(** [update_cursor_iteration]: the last matching cursor of the path. *)
Definition update_cursor_iteration (path : list LogicCursor) (id : Z) (kind : string)
    (iteration : Z) : result LogicControllerError (list LogicCursor) :=
  match update_first (reverse path) id kind iteration with
  | Some path => Ok (reverse path)
  | None =>
      Err (InvariantViolation (kind +:+ " " +:+ pretty id +:+ " marker has no matching path cursor"))
  end.

(** [collect_if_state_ids_from_node] and [collect_if_state_ids] *)
Fixpoint collect_if_state_ids_from_node (node : LogicNode) (ids : gset Z) : gset Z :=
  let fix each (l : list LogicNode) (ids : gset Z) : gset Z :=
    match l with
    | [] => ids
    | child :: l => each l (collect_if_state_ids_from_node child ids)
    end in
  match node with
  | LForEach id _ _ ch | LInterleave id ch | LOnceOnly id ch | LThroughput id _ _ _ _ ch
  | LTransaction id _ _ ch | LRandomOrder id ch => each ch ({[id]} ∪ ids)
  | LModule _ (Some target) | LInclude _ (Some target) =>
      collect_if_state_ids_from_node target ids
  | LSequence _ ch | LLoop _ _ ch | LIf _ _ _ ch | LWhile _ _ _ ch | LSwitch _ _ ch
  | LRandom _ ch | LRuntime _ _ ch | LRecording _ ch | LCriticalSection _ _ ch => each ch ids
  | LSample _ | LModule _ None | LInclude _ None => ids
  end.

Definition collect_if_state_ids (children : list LogicNode) : gset Z :=
  foldl (fun ids child => collect_if_state_ids_from_node child ids) ∅ children.

(** [schedule_children] *)
Definition schedule_children (children : list LogicNode) (path : list LogicCursor) (iteration : Z)
    (marker : option WorkItem) : M () :=
  update (fun r =>
    with_work (map (fun child => WNode child path iteration) children
                 ++ option_list marker ++ work r) r).

(** [self.work.push(..)] *)
Definition push_item (item : WorkItem) : M () :=
  update (fun r => with_work (item :: work r) r).

(** A condition against the variables and the last sample. *)
Definition eval_condition (c : LogicCondition) : M bool :=
  do! r <- get_runner in
  do! input <- get_input in
  lift (evaluate c (variables r) (in_last_sample_success input)).

(** [reset_if_state] *)
Definition reset_if_state (ids : gset Z) (r : LogicRunner) : LogicRunner :=
  let drop {A} (m : gmap Z A) : gmap Z A := filter (fun '(id, _) => id ∉ ids) m in
  mkLogicRunner (work r) (variables r) (root_started r) (finished r) (terminal r)
    (root_iteration r) (drop (loop_iterations r)) (once_done r ∖ ids) (drop (interleave_next r))
    (drop (throughput r)) (runtime_starts r) (transition_count r) (shared_state r)
    (drop (transaction_metadata r))
    (match pending_random_order r with
     | Some pending => if bool_decide (po_id pending ∈ ids) then None else Some pending
     | None => None
     end)
    (active_ifs r) (if_check_pending r).

(** [finish_if] *)
Definition finish_if (id : Z) : M () :=
  do! r <- get_runner in
  match last (active_ifs r) with
  | None => fail (InvariantViolation ("IfController " +:+ pretty id +:+ " ended without an active frame"))
  | Some frame =>
      if negb (if_id frame =? id)
      then fail (InvariantViolation ("IfController end marker " +:+ pretty id
                   +:+ " mismatched active frame " +:+ pretty (if_id frame)))
      else update (fun r => with_active_ifs (take (length (active_ifs r) - 1) (active_ifs r)) r)
  end.

(** [while let Some(item) = self.work.pop()] up to the end marker of [id]. *)
Fixpoint pop_to_marker (id : Z) (w : list WorkItem) : option (list WorkItem) :=
  match w with
  | [] => None
  | WIfEnd marker_id :: w => if marker_id =? id then Some w else pop_to_marker id w
  | _ :: w => pop_to_marker id w
  end.

(** [abort_if_frame] *)
Definition abort_if_frame (index : nat) : M () :=
  do! r <- get_runner in
  match active_ifs r !! index with
  | None => fail (InvariantViolation ("missing active IfController frame at index "
                    +:+ pretty (Z.of_nat index)))
  | Some frame =>
      match pop_to_marker (if_id frame) (work r) with
      | None =>
          update (with_work []) ;!
          fail (InvariantViolation ("IfController " +:+ pretty (if_id frame)
                  +:+ " frame has no end marker"))
      | Some rest =>
          update (fun r =>
            with_if_check false
              (reset_if_state (reset_state_ids frame)
                 (with_active_ifs (take index (active_ifs r)) (with_work rest r))))
      end
  end.

(** [recheck_active_ifs], from the frame at [index] on. *)
Fixpoint recheck_from (index : nat) (frames : list ActiveIfFrame) : M () :=
  match frames with
  | [] => st_ret ()
  | frame :: frames =>
      do! enters <- eval_condition (if_condition frame) in
      if negb enters then abort_if_frame index else recheck_from (S index) frames
  end.

Definition recheck_active_ifs : M () :=
  do! r <- get_runner in recheck_from 0 (active_ifs r).

(** The ids of the end markers on the stack. *)
Definition if_marker (item : WorkItem) : option Z :=
  match item with WIfEnd id => Some id | _ => None end.

(** [drop_unbacked_if_frames]: [frames] is [active_ifs], innermost first. *)
Fixpoint drop_unbacked (marker_ids : gset Z) (frames : list ActiveIfFrame) (r : LogicRunner) :
    LogicRunner :=
  match frames with
  | [] => with_active_ifs [] r
  | frame :: outer =>
      if bool_decide (if_id frame ∈ marker_ids) then with_active_ifs (reverse frames) r
      else drop_unbacked marker_ids outer (reset_if_state (reset_state_ids frame) r)
  end.

Definition drop_unbacked_if_frames (r : LogicRunner) : LogicRunner :=
  drop_unbacked (list_to_set (omap if_marker (work r))) (reverse (active_ifs r)) r.

(** [throughput_allow] on a map of counters: the decision and the map after
    it. *)
Definition throughput_visit (state : gmap Z VisitCounters) (id : Z) (mode : ThroughputMode)
    (limit : Z) (percent : f64) : bool * gmap Z VisitCounters :=
  let counters := default visit_default (state !! id) in
  let allow := throughput_decide counters mode limit percent in
  let counters' :=
    mkThroughput (u64_saturating_succ (iterations counters))
      (if allow then u64_saturating_succ (executions counters) else executions counters) in
  (allow, <[id := counters']> state).

Definition throughput_allow (id : Z) (mode : ThroughputMode) (limit : Z) (percent : f64)
    (per_user : bool) : M bool :=
  do! r <- get_runner in
  if negb per_user then
    match shared_state r with
    | None => fail (MissingGlobalState id)
    | Some state =>
        let '(allow, state) := throughput_visit state id mode limit percent in
        update (with_shared_state (Some state)) ;! st_ret allow
    end
  else
    let '(allow, state) := throughput_visit (throughput r) id mode limit percent in
    update (with_throughput state) ;! st_ret allow.

(** [replace_node] *)
Definition replace_node (id : Z) (kind : string) (target : option LogicNode)
    (path : list LogicCursor) (iteration : Z) : M (option LogicStep) :=
  match target with
  | None => fail (UnresolvedReplacement id)
  | Some target => push_item (WNode target (path ++ [cursor id kind iteration]) iteration) ;! nothing
  end.

(** ** Processing one node

    One definition per arm of [process_node]. *)

Definition needs_random : M (option LogicStep) := st_ret (Some StepNeedsRandom).

Definition lock_prefix : string := "CriticalSection:".

(** What the arm [Sample] reports. *)
Definition make_selection (r : LogicRunner) (id : Z) (path : list LogicCursor) : LogicSelection :=
  let transactions :=
    map lc_id (filter (fun c => lc_kind c = "TransactionController") path) in
  let details :=
    omap (fun id =>
      '(parent, include_timers) ← transaction_metadata r !! id;
      Some (mkTransaction id parent include_timers)) transactions in
  let locks := filter (fun c => String.prefix lock_prefix (lc_kind c)) path in
  mkLogicSelection id (root_iteration r) path transactions details
    (map (fun c => String.substring (String.length lock_prefix)
                     (String.length (lc_kind c) - String.length lock_prefix) (lc_kind c)) locks)
    (map lc_id locks).

Definition process_sample (id : Z) (path : list LogicCursor) : M (option LogicStep) :=
  do! r <- get_runner in st_ret (Some (StepSample (make_selection r id path))).

(** The arms that enter their children once, in order. *)
Definition enter_children (id : Z) (kind : string) (children : list LogicNode)
    (path : list LogicCursor) (iteration : Z) : M (option LogicStep) :=
  schedule_children children (path ++ [cursor id kind iteration]) iteration None ;! nothing.

(** The arms that enter one child. *)
Definition enter_child (id : Z) (kind : string) (child : LogicNode) (path : list LogicCursor)
    (iteration : Z) : M (option LogicStep) :=
  push_item (WNode child (path ++ [cursor id kind iteration]) iteration) ;! nothing.

Definition process_loop (id : Z) (count : LoopCount) (children : list LogicNode)
    (path : list LogicCursor) (iteration : Z) : M (option LogicStep) :=
  if bool_decide (count = Finite 0) then nothing
  else
    let path := path ++ [cursor id "LoopController" iteration] in
    schedule_children children path iteration (Some (WLoopAgain id count children path iteration)) ;!
    nothing.

Definition process_if (id : Z) (condition : LogicCondition) (evaluate_each_iteration : bool)
    (children : list LogicNode) (path : list LogicCursor) (iteration : Z) : M (option LogicStep) :=
  do! enters <- eval_condition condition in
  if negb enters then update (reset_if_state (collect_if_state_ids children)) ;! nothing
  else
    let path := path ++ [cursor id "IfController" iteration] in
    (if evaluate_each_iteration : bool then
       let frame := mkIfFrame id condition (collect_if_state_ids children) in
       update (fun r => with_active_ifs (active_ifs r ++ [frame]) r) ;!
       schedule_children children path iteration (Some (WIfEnd id))
     else schedule_children children path iteration None) ;!
    nothing.

Definition process_while (id : Z) (condition : LogicCondition) (max_iterations : option Z)
    (children : list LogicNode) (path : list LogicCursor) (iteration : Z) : M (option LogicStep) :=
  if bool_decide (max_iterations = Some 0) then nothing
  else
    do! enters <- eval_condition condition in
    if negb enters then nothing
    else
      let path := path ++ [cursor id "WhileController" iteration] in
      schedule_children children path 0
        (Some (WWhileAgain id condition max_iterations children path 0)) ;!
      nothing.

(** [self.variables.get(&key).cloned().unwrap_or_default()] for the element at
    [position] of a ForEach, stored in the output variable. *)
Definition bind_element (input_prefix output_variable : string) (position : Z) : M () :=
  update (fun r =>
    let key := input_prefix +:+ "_" +:+ pretty position in
    with_variables (<[output_variable := default "" (variables r !! key)]> (variables r)) r).

Definition process_for_each (id : Z) (input_prefix output_variable : string)
    (children : list LogicNode) (path : list LogicCursor) : M (option LogicStep) :=
  let match_nr_name := input_prefix +:+ "_matchNr" in
  do! r <- get_runner in
  do! count <- lift (ok_or (parse_usize (default "0" (variables r !! match_nr_name)))
                       (InvalidForEachValue id match_nr_name)) in
  if count =? 0 then nothing
  else
    let index := default 0 (loop_iterations r !! id) in
    if count <=? index
    then update (fun r => with_loop_iterations (<[id := 0]> (loop_iterations r)) r) ;! nothing
    else
      bind_element input_prefix output_variable (u64_saturating_succ index) ;!
      update (fun r =>
        with_loop_iterations (<[id := u64_saturating_succ index]> (loop_iterations r)) r) ;!
      let path := path ++ [cursor id "ForeachController" index] in
      schedule_children children path index
        (Some (WForEachAgain id input_prefix output_variable count children path (index + 1))) ;!
      nothing.

(** An index below [bound] from the injected value; [None] asks for another. *)
Definition draw_index (bound : nat) : M (option nat) :=
  do! value <- take_random in
  match value with
  | None => st_ret None
  | Some value => st_ret (uniform_choice value bound)
  end.

(** How the arm [Switch] picks its child. *)
Inductive Picked := PickChild (index : nat) | PickNone | PickRandom.

Definition switch_index (id : Z) (selection : SwitchSelection) (child_count : nat) : M Picked :=
  do! r <- get_runner in
  match selection with
  | SelectIndex value =>
      st_ret (PickChild (if value <? Z.of_nat child_count then Z.to_nat value else 0%nat))
  | SelectVariable name =>
      match switch_numeric_index (default "" (variables r !! name)) child_count with
      | Some index => st_ret (PickChild index)
      | None => fail (Unsupported ("SwitchController " +:+ pretty id) "switch-child-names")
      end
  | SelectVariableWithNames variable child_names =>
      let value := default "" (variables r !! variable) in
      match switch_numeric_index value child_count with
      | Some index => st_ret (PickChild index)
      | None =>
          match switch_named_index value child_names child_count with
          | Some index => st_ret (PickChild index)
          | None => st_ret PickNone
          end
      end
  | SelectRandom =>
      if Nat.eqb child_count 1 then st_ret (PickChild 0)
      else
        do! index <- draw_index child_count in
        st_ret (match index with Some index => PickChild index | None => PickRandom end)
  end.

Definition process_switch (id : Z) (selection : SwitchSelection) (children : list LogicNode)
    (path : list LogicCursor) (iteration : Z) : M (option LogicStep) :=
  if bool_decide (children = []) then nothing
  else
    do! picked <- switch_index id selection (length children) in
    match picked with
    | PickRandom => needs_random
    | PickNone => nothing
    | PickChild index =>
        match children !! index with
        | None => nothing
        | Some child => enter_child id "SwitchController" child path iteration
        end
    end.

Definition process_interleave (id : Z) (children : list LogicNode) (path : list LogicCursor)
    (iteration : Z) : M (option LogicStep) :=
  if bool_decide (children = []) then nothing
  else
    do! r <- get_runner in
    let index := default 0 (interleave_next r !! id) in
    match children !! Z.to_nat (index mod Z.of_nat (length children)) with
    | None => panic
    | Some child =>
        update (fun r =>
          with_interleave_next (<[id := usize_saturating_succ index]> (interleave_next r)) r) ;!
        enter_child id "InterleaveControl" child path iteration
    end.

Definition process_random (id : Z) (children : list LogicNode) (path : list LogicCursor)
    (iteration : Z) : M (option LogicStep) :=
  if bool_decide (children = []) then nothing
  else
    do! index <- (if Nat.eqb (length children) 1 then st_ret (Some 0%nat)
                  else draw_index (length children)) in
    match index with
    | None => needs_random
    | Some index =>
        match children !! index with
        | None => panic
        | Some child => enter_child id "RandomController" child path iteration
        end
    end.

(** A shuffle for [id] is in progress. *)
Definition shuffling (r : LogicRunner) (id : Z) : bool :=
  match pending_random_order r with Some pending => po_id pending =? id | None => false end.

(** [pending.order.swap(index, last)], which panics out of range. *)
Definition swap_order (order : list LogicNode) (i j : nat) : M (list LogicNode) :=
  if Nat.ltb i (length order) && Nat.ltb j (length order) then st_ret (swap order i j) else panic.

(** One accepted or rejected draw of the shuffle in progress. *)
Definition shuffle_step (value : Z) : M (option LogicStep) :=
  do! r <- get_runner in
  match pending_random_order r with
  | None => fail (InvariantViolation "random-order state disappeared before selection")
  | Some pending =>
      match uniform_choice value (po_remaining pending) with
      | None => needs_random
      | Some index =>
          let last := (po_remaining pending - 1)%nat in
          do! order <- swap_order (po_order pending) index last in
          if Nat.ltb 1 last then
            update (with_pending (Some (mkPending (po_id pending) (po_path pending)
                                          (po_iteration pending) order last))) ;!
            needs_random
          else
            update (with_pending None) ;!
            schedule_children order (po_path pending) (po_iteration pending) None ;!
            nothing
      end
  end.

Definition process_random_order (id : Z) (children : list LogicNode) (path : list LogicCursor)
    (iteration : Z) : M (option LogicStep) :=
  match children with
  | [] => nothing
  | [child] => enter_child id "RandomOrderController" child path iteration
  | _ =>
      update (fun r =>
        if shuffling r id then r
        else with_pending (Some (mkPending id (path ++ [cursor id "RandomOrderController" iteration])
                                   iteration children (length children))) r) ;!
      do! value <- take_random in
      match value with
      | None => needs_random
      | Some value => shuffle_step value
      end
  end.

Definition process_once_only (id : Z) (children : list LogicNode) (path : list LogicCursor)
    (iteration : Z) : M (option LogicStep) :=
  do! r <- get_runner in
  if bool_decide (id ∈ once_done r) then nothing
  else
    update (fun r => with_once_done ({[id]} ∪ once_done r) r) ;!
    enter_children id "OnceOnlyController" children path iteration.

Definition process_throughput (id : Z) (mode : ThroughputMode) (limit : Z) (percent : f64)
    (per_user : bool) (children : list LogicNode) (path : list LogicCursor) (iteration : Z) :
    M (option LogicStep) :=
  do! allow <- throughput_allow id mode limit percent per_user in
  if negb allow then nothing
  else enter_children id "ThroughputController" children path iteration.

(** [Duration::saturating_add] *)
Definition duration_saturating_add (a b : Z) : Z := Z.min (a + b) duration_max.

Definition process_runtime (id : Z) (duration : Z) (children : list LogicNode)
    (path : list LogicCursor) (iteration : Z) : M (option LogicStep) :=
  do! r <- get_runner in
  do! input <- get_input in
  let start := default (in_elapsed input) (runtime_starts r !! id) in
  update (fun r => with_runtime_starts (<[id := start]> (runtime_starts r)) r) ;!
  let deadline := duration_saturating_add start duration in
  if deadline <=? in_elapsed input
  then update (fun r => with_runtime_starts (delete id (runtime_starts r)) r) ;! nothing
  else
    let path := path ++ [cursor id "RunTime" iteration] in
    schedule_children children path iteration
      (Some (WRuntimeAgain id duration children path iteration deadline)) ;!
    nothing.

Definition process_transaction (id : Z) (parent include_timers : bool) (children : list LogicNode)
    (path : list LogicCursor) (iteration : Z) : M (option LogicStep) :=
  update (fun r =>
    with_transaction_metadata (<[id := (parent, include_timers)]> (transaction_metadata r)) r) ;!
  enter_children id "TransactionController" children path iteration.

Definition process_critical_section (id : Z) (lock_name : string) (children : list LogicNode)
    (path : list LogicCursor) (iteration : Z) : M (option LogicStep) :=
  let lock_kind := lock_prefix +:+ lock_name in
  if existsb (fun c => bool_decide (lc_kind c = lock_kind)) path
  then fail (Unsupported ("CriticalSectionController " +:+ pretty id) "critical-section-reentrant-name")
  else
    schedule_children children
      (path ++ [cursor id "CriticalSectionController" iteration; mkLogicCursor id lock_kind iteration])
      iteration None ;!
    nothing.

(** [process_node] *)
Definition process_node (node : LogicNode) (path : list LogicCursor) (iteration : Z) :
    M (option LogicStep) :=
  match node with
  | LSample id => process_sample id path
  | LSequence id children => enter_children id "GenericController" children path iteration
  | LLoop id count children => process_loop id count children path iteration
  | LIf id condition each children => process_if id condition each children path iteration
  | LWhile id condition max_iterations children =>
      process_while id condition max_iterations children path iteration
  | LForEach id input_prefix output_variable children =>
      process_for_each id input_prefix output_variable children path
  | LSwitch id selection children => process_switch id selection children path iteration
  | LInterleave id children => process_interleave id children path iteration
  | LRandom id children => process_random id children path iteration
  | LRandomOrder id children => process_random_order id children path iteration
  | LOnceOnly id children => process_once_only id children path iteration
  | LThroughput id mode limit percent per_user children =>
      process_throughput id mode limit percent per_user children path iteration
  | LRuntime id duration children => process_runtime id duration children path iteration
  | LTransaction id parent include_timers children =>
      process_transaction id parent include_timers children path iteration
  | LModule id target => replace_node id "ModuleController" target path iteration
  | LInclude id target => replace_node id "IncludeController" target path iteration
  | LRecording id children => enter_children id "RecordingController" children path iteration
  | LCriticalSection id lock_name children =>
      process_critical_section id lock_name children path iteration
  end.

(** ** Stepping *)

Section program.
Context (p : LogicProgram).

Definition transition_limit (r : LogicRunner) : LogicControllerError :=
  TransitionLimit (transition_count r) (max_transitions (program_limits p)).

(** [iteration.checked_add(1).ok_or(TransitionLimit { .. })?] *)
Definition next_iteration (iteration : Z) : M Z :=
  do! r <- get_runner in
  lift (ok_or (u64_checked_add iteration 1) (transition_limit r)).

(** [process_item], one definition per marker. *)
Definition process_loop_again (id : Z) (count : LoopCount) (children : list LogicNode)
    (path : list LogicCursor) (iteration : Z) : M (option LogicStep) :=
  do! next <- next_iteration iteration in
  if match finite_count count with Some total => total <=? next | None => false end then nothing
  else
    do! path <- lift (update_cursor_iteration path id "LoopController" next) in
    schedule_children children path next (Some (WLoopAgain id count children path next)) ;!
    nothing.

Definition process_while_again (id : Z) (condition : LogicCondition) (max_iterations : option Z)
    (children : list LogicNode) (path : list LogicCursor) (iteration : Z) : M (option LogicStep) :=
  do! next <- next_iteration iteration in
  do! stop <- (if match max_iterations with Some maximum => maximum <=? next | None => false end
               then st_ret true
               else do! enters <- eval_condition condition in st_ret (negb enters)) in
  if stop : bool then nothing
  else
    do! path <- lift (update_cursor_iteration path id "WhileController" next) in
    schedule_children children path next
      (Some (WWhileAgain id condition max_iterations children path next)) ;!
    nothing.

Definition process_for_each_again (id : Z) (input_prefix output_variable : string) (count : Z)
    (children : list LogicNode) (path : list LogicCursor) (index : Z) : M (option LogicStep) :=
  if count <=? index
  then update (fun r => with_loop_iterations (<[id := 0]> (loop_iterations r)) r) ;! nothing
  else
    bind_element input_prefix output_variable (usize_saturating_succ index) ;!
    update (fun r =>
      with_loop_iterations (<[id := usize_saturating_succ index]> (loop_iterations r)) r) ;!
    do! path <- lift (update_cursor_iteration path id "ForeachController" index) in
    schedule_children children path index
      (Some (WForEachAgain id input_prefix output_variable count children path
               (usize_saturating_succ index))) ;!
    nothing.

Definition process_runtime_again (id : Z) (duration : Z) (children : list LogicNode)
    (path : list LogicCursor) (iteration deadline : Z) : M (option LogicStep) :=
  do! input <- get_input in
  if deadline <=? in_elapsed input
  then update (fun r => with_runtime_starts (delete id (runtime_starts r)) r) ;! nothing
  else
    do! next <- next_iteration iteration in
    do! path <- lift (update_cursor_iteration path id "RunTime" next) in
    schedule_children children path next
      (Some (WRuntimeAgain id duration children path next deadline)) ;!
    nothing.

Definition process_item (item : WorkItem) : M (option LogicStep) :=
  match item with
  | WNode node path iteration => process_node node path iteration
  | WIfEnd id => finish_if id ;! nothing
  | WLoopAgain id count children path iteration => process_loop_again id count children path iteration
  | WWhileAgain id condition max_iterations children path iteration =>
      process_while_again id condition max_iterations children path iteration
  | WForEachAgain id input_prefix output_variable count children path index =>
      process_for_each_again id input_prefix output_variable count children path index
  | WRuntimeAgain id duration children path iteration deadline =>
      process_runtime_again id duration children path iteration deadline
  end.

Definition is_loop_marker (item : WorkItem) : bool :=
  match item with
  | WLoopAgain _ _ _ _ _ | WWhileAgain _ _ _ _ _ _ | WForEachAgain _ _ _ _ _ _ _ => true
  | _ => false
  end.

(** The topmost loop marker and the items below it. *)
Fixpoint find_loop (w : list WorkItem) : option (WorkItem * list WorkItem) :=
  match w with
  | [] => None
  | item :: w => if is_loop_marker item then Some (item, w) else find_loop w
  end.

(** [next_loop] *)
Definition next_loop : M () :=
  update (with_runtime_starts ∅) ;!
  do! r <- get_runner in
  match find_loop (work r) with
  | None =>
      update (fun r =>
        let r := foldl (fun r frame => reset_if_state (reset_state_ids frame) r)
                   (with_work [] r) (reverse (active_ifs r)) in
        with_finished true (with_if_check false (with_active_ifs [] r)))
  | Some (marker, below) =>
      update (fun r => drop_unbacked_if_frames (with_work below r)) ;!
      process_item marker ;!
      st_ret ()
  end.

(** The start of the root on the first transition of an iteration. *)
Definition start_root : M () :=
  update (fun r =>
    if root_started r then r
    else with_work (WNode (program_root p) [] 0 :: work r) (with_root_started true r)).

(** One turn of the loop of [step], the limit apart: [None] continues. *)
Definition transition : M (option LogicStep) :=
  update (fun r => with_transition_count (usize_saturating_succ (transition_count r)) r) ;!
  do! r <- get_runner in
  if finished r then st_ret (Some StepComplete)
  else
    start_root ;!
    do! r <- get_runner in
    match work r with
    | [] => update (with_finished true) ;! st_ret (Some StepComplete)
    | item :: rest =>
        update (with_work rest) ;!
        do! out <- process_item item in
        match out with
        | Some StepNeedsRandom => push_item item ;! needs_random
        | Some (StepSample s) =>
            update (fun r => with_if_check (negb (bool_decide (active_ifs r = []))) r) ;!
            st_ret (Some (StepSample s))
        | Some step => st_ret (Some step)
        | None => nothing
        end
    end.

(** The loop of [step]; [max_transitions + 1] turns are enough fuel. *)
Fixpoint logic_step_loop (fuel : nat) (used : Z) : M LogicStep :=
  match fuel with
  | O => st_lift OutOfFuel
  | S fuel =>
      let used := usize_saturating_succ used in
      if max_transitions (program_limits p) <? used
      then fail (TransitionLimit used (max_transitions (program_limits p)))
      else
        do! out <- transition in
        match out with
        | Some step => st_ret step
        | None => logic_step_loop fuel used
        end
  end.

Definition logic_step_fuel : nat := S (Z.to_nat (max_transitions (program_limits p))).

(** The part of [step] after the stop signals. *)
Definition step_running : M LogicStep :=
  do! input <- get_input in
  (if bool_decide (in_signal input = NextLoop)
   then update (with_pending None) ;! next_loop
   else st_ret ()) ;!
  do! r <- get_runner in
  if bool_decide (in_signal input = NextLoop) && finished r then st_ret StepComplete
  else
    (if if_check_pending r then update (with_if_check false) ;! recheck_active_ifs else st_ret ()) ;!
    logic_step_loop logic_step_fuel 0.

(** [step] *)
Definition step_body : M LogicStep :=
  do! r <- get_runner in
  do! input <- get_input in
  let signal := in_signal input in
  match terminal r with
  | Some existing =>
      if is_stop signal then
        let signal := combine existing signal in
        update (fun r => with_pending None (with_terminal (Some signal) r)) ;!
        st_ret (StepStopped signal)
      else st_ret (StepStopped existing)
  | None =>
      if is_stop signal then
        update (fun r => with_pending None (with_terminal (Some signal) r)) ;!
        st_ret (StepStopped signal)
      else step_running
  end.

Definition logic_step (input : LogicInput) (r : LogicRunner) :
    comp LogicControllerError LogicStep * LogicRunner :=
  let '(out, m) := step_body (mkMachine r input) in (out, m_runner m).

(** [next_root_iteration] *)
Definition logic_next_root_iteration (r : LogicRunner) :
    result LogicControllerError () * LogicRunner :=
  if negb (finished r) then (Err (transition_limit r), r)
  else match u64_checked_add (root_iteration r) 1 with
       | None => (Err (transition_limit r), r)
       | Some n =>
           (Ok (), mkLogicRunner [] (variables r) false false None n ∅ (once_done r)
                     (interleave_next r) (throughput r) ∅ (transition_count r) (shared_state r)
                     (transaction_metadata r) None [] false)
       end.
End program.
