(* ===== verification/LogicTree.v ===== *)
(** * Controller trees and their compilation

    The nodes of a logic-controller tree in the order the compiler visits them,
    an induction principle for trees, and the exact set of trees that
    [compile_with_limits] of [Logic] accepts. *)

From stdpp Require Import gmap.
From S2P Require Import Prelude Control Plan Random Wire Logic.

(** ** Trees *)

(** The nodes directly below a node: its children, or the target of a module
    or include controller. *)
Definition parts (node : LogicNode) : list LogicNode :=
  match node with
  | LModule _ target | LInclude _ target => option_list target
  | _ => default [] (node_children node)
  end.

Section tree_ind.
Context (P : LogicNode -> Prop).
Context (Hnode : forall node, Forall P (parts node) -> P node).

Lemma tree_ind : forall node, P node.
Proof.
  fix IH 1. intros node. apply Hnode.
  assert (Hlist : forall l : list LogicNode, Forall P l).
  { fix IHl 1. intros [|n l]; constructor; [apply IH | apply IHl]. }
  destruct node as [| | | | | | | | | | | | | |id [t|]|id [t|]| |]; cbn; try apply Hlist; repeat constructor; apply IH.
Qed.
End tree_ind.

(** The nodes of a tree with their depths, in visiting order. *)
Fixpoint placed (depth : Z) (node : LogicNode) : list (LogicNode * Z) :=
  let fix all (l : list LogicNode) : list (LogicNode * Z) :=
    match l with [] => [] | n :: l => placed (usize_saturating_succ depth) n ++ all l end in
  (node, depth) ::
  match node with
  | LSequence _ ch | LLoop _ _ ch | LIf _ _ _ ch | LWhile _ _ _ ch | LForEach _ _ _ ch
  | LSwitch _ _ ch | LInterleave _ ch | LRandom _ ch | LRandomOrder _ ch | LOnceOnly _ ch
  | LThroughput _ _ _ _ _ ch | LRuntime _ _ ch | LTransaction _ _ _ ch | LRecording _ ch
  | LCriticalSection _ _ ch => all ch
  | LModule _ (Some t) | LInclude _ (Some t) => placed (usize_saturating_succ depth) t
  | LSample _ | LModule _ None | LInclude _ None => []
  end.

Definition subnodes (node : LogicNode) : list LogicNode := map fst (placed 0 node).
Definition ids (node : LogicNode) : list Z := map node_id (subnodes node).

Definition placed_all (stack : list (LogicNode * Z)) : list (LogicNode * Z) :=
  concat (map (fun '(node, depth) => placed depth node) stack).

Definition below (depth : Z) (node : LogicNode) : list (LogicNode * Z) :=
  map (fun child => (child, usize_saturating_succ depth)) (parts node).

Lemma placed_eq depth node : placed depth node = (node, depth) :: placed_all (below depth node).
Proof.
  assert (Hall : forall l : list LogicNode,
    (fix all (l : list LogicNode) : list (LogicNode * Z) :=
       match l with [] => [] | n :: l => placed (usize_saturating_succ depth) n ++ all l end) l
    = placed_all (map (fun child => (child, usize_saturating_succ depth)) l)).
  { intros l. unfold placed_all. induction l as [|n l IH]; [done|]. cbn. by rewrite IH. }
  destruct node as [| | | | | | | | | | | | | |id [t|]|id [t|]| |]; cbn [placed]; f_equal;
    try apply Hall; unfold placed_all; cbn; by rewrite ?app_nil_r.
Qed.

Lemma placed_nodes d1 d2 node : map fst (placed d1 node) = map fst (placed d2 node).
Proof.
  revert d1 d2. induction node as [node IH] using tree_ind. intros d1 d2. rewrite !placed_eq. cbn.
  f_equal. unfold placed_all, below. induction IH as [|n l Hn _ IH]; [done|].
  cbn. rewrite !map_app. f_equal; [apply Hn | apply IH].
Qed.

Lemma subnodes_eq node : subnodes node = node :: concat (map subnodes (parts node)).
Proof.
  unfold subnodes at 1. rewrite placed_eq. cbn. f_equal. unfold placed_all, below.
  induction (parts node) as [|n l IH]; [done|]. cbn. rewrite map_app, IH.
  f_equal. apply placed_nodes.
Qed.

Lemma ids_eq node : ids node = node_id node :: concat (map ids (parts node)).
Proof.
  unfold ids at 1. rewrite subnodes_eq. cbn. f_equal.
  induction (parts node) as [|n l IH]; [done|]. cbn. by rewrite map_app, IH.
Qed.

Lemma node_size_placed depth node : node_size node = length (placed depth node).
Proof.
  revert depth. induction node as [node IH] using tree_ind. intros depth. rewrite placed_eq. cbn.
  assert (Hs : forall l, Forall (fun n => forall d, node_size n = length (placed d n)) l ->
    (fix sizes (l : list LogicNode) : nat :=
       match l with [] => O | n :: l => (node_size n + sizes l)%nat end) l
    = length (placed_all (map (fun child => (child, usize_saturating_succ depth)) l))).
  { induction 1 as [|n l Hn _ IHl]; [done|]. unfold placed_all in *. cbn.
    by rewrite length_app, (Hn (usize_saturating_succ depth)), IHl. }
  destruct node as [| | | | | | | | | | | | | |id [t|]|id [t|]| |]; cbn [node_size];
    try (f_equal; by apply Hs); try done.
  all: rewrite (Forall_inv IH (usize_saturating_succ depth)); unfold placed_all; cbn; by rewrite app_nil_r.
Qed.

(** ** The compiler's loop visits the tree in order *)

(** A node that draws a random value when it is entered. *)
Definition draws (node : LogicNode) : bool :=
  match node with
  | LRandom _ children | LRandomOrder _ children | LSwitch _ SelectRandom children => several children
  | _ => false
  end.

(** What the compiler refuses in a node by itself. *)
Definition node_fault (node : LogicNode) : option LogicControllerError :=
  match node with
  | LModule id None | LInclude id None => Some (UnresolvedReplacement id)
  | LThroughput id Percentage _ percent _ _ =>
      if bad_percentage percent then Some (InvalidPercentage id percent) else None
  | _ => None
  end.

(** The compiler as a pass over the nodes in visiting order. *)
Fixpoint scan (limits : LogicLimits) (nodes : list (LogicNode * Z)) (count : Z)
    (uses_random : bool) (seen_ids : gset Z) : result LogicControllerError bool :=
  match nodes with
  | [] => Ok uses_random
  | (node, depth) :: nodes =>
      if max_depth limits <? depth then Err (PlanTooDeep depth (max_depth limits))
      else
        let count := usize_saturating_succ count in
        if max_nodes limits <? count then Err (PlanTooLarge count (max_nodes limits))
        else if bool_decide (node_id node ∈ seen_ids) then Err (DuplicateControllerId (node_id node))
        else match node_fault node with
             | Some e => Err e
             | None =>
                 scan limits nodes count (uses_random || draws node) ({[node_id node]} ∪ seen_ids)
             end
  end.

Lemma compile_kind_eq node depth stack uses :
  compile_kind node depth
    match node_children node with
    | Some children => map (fun child => (child, usize_saturating_succ depth)) children ++ stack
    | None => stack
    end uses
  = match node_fault node with
    | Some e => Err e
    | None => Ok (below depth node ++ stack, uses || draws node)
    end.
Proof.
  unfold below.
  destruct node as [| | | | | |id []| | | | |id []| | |id [t|]|id [t|]| |]; cbn; rewrite ?orb_false_r;
    try done.
  by destruct (bad_percentage percent).
Qed.

Lemma compile_loop_scan limits stack : forall fuel count uses seen,
  (length (placed_all stack) < fuel)%nat ->
  logic_compile_loop fuel limits stack count uses seen = scan limits (placed_all stack) count uses seen.
Proof.
  intros fuel. revert stack.
  induction fuel as [|fuel IH]; intros stack count uses seen Hfuel; [lia|].
  destruct stack as [|[node depth] stack]; [done|].
  assert (Hpl : placed_all ((node, depth) :: stack)
                = (node, depth) :: placed_all (below depth node ++ stack)).
  { unfold placed_all at 1. cbn. rewrite placed_eq. cbn. f_equal.
    unfold placed_all. by rewrite map_app, concat_app. }
  rewrite Hpl in *. cbn [logic_compile_loop scan].
  destruct (max_depth limits <? depth); [done|].
  destruct (max_nodes limits <? usize_saturating_succ count); [done|].
  case_bool_decide; [done|]. rewrite compile_kind_eq.
  destruct (node_fault node); [done|]. cbn [res_bind]. apply IH. cbn in Hfuel. lia.
Qed.

(** ** What the pass accepts *)

Lemma scan_Ok limits nodes : forall count uses seen u,
  0 <= count -> max_nodes limits < usize_max ->
  scan limits nodes count uses seen = Ok u <->
  u = uses || existsb (fun '(n, _) => draws n) nodes /\
  Forall (fun '(_, depth) => depth <= max_depth limits) nodes /\
  (nodes <> [] -> count + Z.of_nat (length nodes) <= max_nodes limits) /\
  NoDup (map (fun '(n, _) => node_id n) nodes) /\
  Forall (fun '(n, _) => node_id n ∉ seen) nodes /\
  Forall (fun '(n, _) => node_fault n = None) nodes.
Proof.
  induction nodes as [|[node depth] nodes IH]; intros count uses seen u Hc Hm.
  { cbn. rewrite orb_false_r. split; [intros [= ->] | by intros [-> _]].
    repeat split; try constructor. done. }
  assert (Hsucc : max_nodes limits < usize_saturating_succ count <-> max_nodes limits < count + 1)
    by (unfold usize_saturating_succ; lia).
  cbn [scan map existsb]. rewrite !Forall_cons, NoDup_cons. cbn beta iota.
  destruct (max_depth limits <? depth) eqn:Ed; simpl_bool; [split; [done|]; intros; destruct_and?; lia|].
  destruct (max_nodes limits <? usize_saturating_succ count) eqn:Ec; simpl_bool.
  { split; [done|]. intros (_&_&Hl&_). specialize (Hl ltac:(done)). cbn in Hl. lia. }
  case_bool_decide as Hin; [split; [done|]; intros; by destruct_and?|].
  destruct (node_fault node) eqn:Ef; [split; [done|]; intros; destruct_and?; congruence|].
  assert (Hcnt : usize_saturating_succ count = count + 1) by (unfold usize_saturating_succ in *; lia).
  rewrite Hcnt, IH by lia. rewrite !Forall_forall, list_elem_of_fmap, orb_assoc. cbn [length].
  split.
  - intros (->&H1&H2&H3&H4&H5). split_and!; try done.
    + intros _. destruct nodes; [cbn; lia|]. specialize (H2 ltac:(done)). lia.
    + intros ([n d]&Hn&Hx). specialize (H4 _ Hx). cbn in H4. set_solver.
    + intros [n d] Hx. specialize (H4 _ Hx). cbn in H4. set_solver.
  - intros (->&[_ H1]&H2&[Hni H3]&[_ H4]&[_ H5]). split_and!; try done.
    + intros _. specialize (H2 ltac:(done)). lia.
    + intros [n d] Hx. specialize (H4 _ Hx). cbn in H4.
      assert (node_id n <> node_id node); [|set_solver]. intros Heq. apply Hni. exists (n, d). by rewrite Heq.
Qed.

(** The trees [logic_compile_with_limits] accepts. *)
Record admissible (limits : LogicLimits) (root : LogicNode) : Prop := {
  adm_depth : Forall (fun '(_, depth) => depth <= max_depth limits) (placed 0 root);
  adm_size : Z.of_nat (length (subnodes root)) <= max_nodes limits;
  adm_ids : NoDup (ids root);
  adm_nodes : Forall (fun n => node_fault n = None) (subnodes root)
}.

Lemma compile_Ok limits root p :
  max_nodes limits < usize_max ->
  logic_compile_with_limits root limits = Ok p <->
  p = mkLogicProgram root limits (existsb draws (subnodes root)) /\ admissible limits root.
Proof.
  intros Hm. unfold logic_compile_with_limits.
  assert (Hp : placed_all [(root, 0)] = placed 0 root) by apply app_nil_r.
  rewrite compile_loop_scan, Hp by (rewrite Hp, <- node_size_placed; lia).
  rewrite res_bind_Ok.
  assert (Hids : map (fun '(n, _) => node_id n) (placed 0 root) = ids root).
  { unfold ids, subnodes. rewrite map_map. apply map_ext. by intros []. }
  assert (Hdraws : existsb (fun '(n, _) => draws n) (placed 0 root) = existsb draws (subnodes root)).
  { unfold subnodes. clear. induction (placed 0 root) as [|[n d] l IH]; [done|]. cbn.
    f_equal. exact IH. }
  assert (Hfault : Forall (fun '(n, _) => node_fault n = None) (placed 0 root)
                   <-> Forall (fun n => node_fault n = None) (subnodes root)).
  { unfold subnodes. rewrite Forall_fmap. apply Forall_iff. by intros []. }
  assert (Hne : placed 0 root <> []) by by rewrite placed_eq.
  assert (Hlen : length (subnodes root) = length (placed 0 root)) by apply length_map.
  split.
  - intros (u&Hs&[= <-]). apply scan_Ok in Hs as (->&Hd&Hl&Hnd&_&Hf); [|done..].
    rewrite Hdraws. split; [done|]. split; [done| |by rewrite <- Hids|by apply Hfault].
    rewrite Hlen. by apply Hl.
  - intros (->&[Hd Hl Hnd Hf]). eexists. split; [|done]. apply scan_Ok; [done..|].
    rewrite Hids, Hdraws, Hfault. split_and!; try done.
    + intros _. lia.
    + apply Forall_forall. intros []. set_solver.
Qed.
