(* ===== verification/LogicSafe.v ===== *)
(** * The logic runner keeps its stack consistent

    The invariant of the runner of [Logic]: every work item carries nodes that
    are disjoint from its path, every resumption marker finds its cursor, the
    end markers on the stack are exactly the active If frames, and a shuffle in
    progress belongs to the item on top.  Every operation keeps it, so none of
    the errors the code reserves for a corrupted runner is ever raised, and no
    index is out of range. *)

From stdpp Require Import gmap.
From S2P Require Import Prelude Control Plan Random Wire Logic LogicTree.

(** ** Sound trees *)

(** What compilation guarantees of every node. *)
Definition sound (node : LogicNode) : Prop :=
  NoDup (ids node) /\ Forall (fun n => node_fault n = None) (subnodes node).

Lemma elem_of_concat {A} (ls : list (list A)) x : x ∈ concat ls <-> exists l, l ∈ ls /\ x ∈ l.
Proof. induction ls as [|l ls IH]; cbn; [set_solver|]. rewrite elem_of_app, IH. set_solver. Qed.

Lemma part_ids node child : child ∈ parts node -> ids child ⊆ ids node.
Proof.
  intros Hc i Hi. rewrite (ids_eq node). right. apply elem_of_concat.
  exists (ids child). split; [|done]. by apply list_elem_of_fmap_2.
Qed.

Lemma part_id_fresh node child : sound node -> child ∈ parts node -> node_id node ∉ ids child.
Proof.
  intros [Hnd _] Hc Hi. rewrite ids_eq, NoDup_cons in Hnd. destruct Hnd as [Hni _]. apply Hni.
  apply elem_of_concat. exists (ids child). split; [|done]. by apply list_elem_of_fmap_2.
Qed.

Lemma NoDup_concat_in {A} (ls : list (list A)) l : NoDup (concat ls) -> l ∈ ls -> NoDup l.
Proof.
  intros Hnd Hl. induction Hl as [l ls|l k ls _ IH]; cbn in Hnd; apply NoDup_app in Hnd; naive_solver.
Qed.

Lemma sound_part node child : sound node -> child ∈ parts node -> sound child.
Proof.
  intros [Hnd Hf] Hc. split.
  - rewrite ids_eq, NoDup_cons in Hnd. destruct Hnd as [_ Hnd].
    apply (NoDup_concat_in _ _ Hnd). by apply list_elem_of_fmap_2.
  - rewrite subnodes_eq, Forall_cons in Hf. destruct Hf as [_ Hf].
    rewrite Forall_forall in *. intros n Hn. apply Hf.
    apply elem_of_concat. exists (subnodes child). split; [|done]. by apply list_elem_of_fmap_2.
Qed.

(** ** Work items *)

Definition item_path (item : WorkItem) : list LogicCursor :=
  match item with
  | WNode _ path _ | WLoopAgain _ _ _ path _ | WWhileAgain _ _ _ _ path _
  | WForEachAgain _ _ _ _ _ path _ | WRuntimeAgain _ _ _ path _ _ => path
  | WIfEnd _ => []
  end.

Definition item_nodes (item : WorkItem) : list LogicNode :=
  match item with
  | WNode node _ _ => [node]
  | WLoopAgain _ _ children _ _ | WWhileAgain _ _ _ children _ _
  | WForEachAgain _ _ _ _ children _ _ | WRuntimeAgain _ _ children _ _ _ => children
  | WIfEnd _ => []
  end.

(** The cursor a resumption marker updates. *)
Definition item_cursor (item : WorkItem) : option (Z * string) :=
  match item with
  | WLoopAgain id _ _ _ _ => Some (id, "LoopController")
  | WWhileAgain id _ _ _ _ _ => Some (id, "WhileController")
  | WForEachAgain id _ _ _ _ _ _ => Some (id, "ForeachController")
  | WRuntimeAgain id _ _ _ _ _ => Some (id, "RunTime")
  | WNode _ _ _ | WIfEnd _ => None
  end.

Definition path_ids (path : list LogicCursor) : list Z := map lc_id path.
Definition markers (w : list WorkItem) : list Z := omap if_marker w.

Definition has_cursor (path : list LogicCursor) (c : Z * string) : Prop :=
  exists iteration, mkLogicCursor c.1 c.2 iteration ∈ path.

(** A path is outside the nodes it leads to, and names every If that is open
    below it on the stack. *)
Definition fits (Q : LogicNode -> Prop) (path : list LogicCursor) (nodes : list LogicNode)
    (rest : list WorkItem) : Prop :=
  Forall Q nodes /\
  Forall (fun n => forall i, i ∈ path_ids path -> i ∉ ids n) nodes /\
  Forall (fun i => i ∈ path_ids path) (markers rest).

Definition item_ok (Q : LogicNode -> Prop) (item : WorkItem) (rest : list WorkItem) : Prop :=
  match item with
  | WIfEnd id => id ∉ markers rest
  | _ => fits Q (item_path item) (item_nodes item) rest /\
         (forall c, item_cursor item = Some c -> has_cursor (item_path item) c)
  end.

Fixpoint stack_ok (Q : LogicNode -> Prop) (w : list WorkItem) : Prop :=
  match w with
  | [] => True
  | item :: rest => item_ok Q item rest /\ stack_ok Q rest
  end.

Definition aligned (w : list WorkItem) (frames : list ActiveIfFrame) : Prop :=
  map if_id frames = reverse (markers w).

(** The shuffle [q] belongs to the item. *)
Definition shuffles (item : WorkItem) (q : PendingRandomOrder) : Prop :=
  match item with
  | WNode (LRandomOrder id children) path iteration =>
      po_id q = id /\ po_order q ≡ₚ children /\ po_iteration q = iteration /\
      po_path q = path ++ [cursor id "RandomOrderController" iteration] /\
      (1 < po_remaining q <= length children)%nat
  | _ => False
  end.

Definition pending_for (item : WorkItem) (r : LogicRunner) : Prop :=
  match pending_random_order r with Some q => shuffles item q | None => True end.

(** The invariant. *)
Record inv (Q : LogicNode -> Prop) (r : LogicRunner) : Prop := {
  inv_stack : stack_ok Q (work r);
  inv_ifs : aligned (work r) (active_ifs r);
  inv_start : root_started r = false -> work r = [];
  inv_pending : pending_random_order r <> None ->
    if_check_pending r = false /\
    exists item rest, work r = item :: rest /\ pending_for item r
}.

(** What holds after an item was processed to its end. *)
Definition settled (Q : LogicNode -> Prop) (r : LogicRunner) : Prop :=
  stack_ok Q (work r) /\ aligned (work r) (active_ifs r) /\ pending_random_order r = None.

(** ** Entering nodes *)

Section entering.
Context (Q : LogicNode -> Prop).
Context (HQ : forall node child, Q node -> child ∈ parts node -> Q child).
Context (Hsound : forall node, Q node -> sound node).

Lemma path_ids_app p1 p2 : path_ids (p1 ++ p2) = path_ids p1 ++ path_ids p2.
Proof. apply map_app. Qed.

Lemma fits_sub path nodes nodes' rest :
  fits Q path nodes rest -> nodes' ⊆ nodes -> fits Q path nodes' rest.
Proof.
  intros (H1&H2&H3) Hs. split_and!; [| |done]; rewrite Forall_forall in *; intros; auto.
Qed.

(** Entering a node keeps the fit. *)
Lemma fits_enter node path rest cursors :
  fits Q path [node] rest -> Forall (fun c => lc_id c = node_id node) cursors ->
  fits Q (path ++ cursors) (parts node) rest.
Proof.
  intros (HQn&Hd&Hm) Hc. rewrite Forall_singleton in HQn, Hd. split_and!; rewrite Forall_forall.
  - intros child. by apply HQ.
  - intros child Hch i. rewrite path_ids_app, elem_of_app. intros [Hi|Hi] Hin.
    + apply (Hd i Hi). by apply (part_ids node child).
    + apply list_elem_of_fmap in Hi as (c&->&Hcc). rewrite Forall_forall in Hc.
      rewrite (Hc c Hcc) in Hin. by apply (part_id_fresh node child (Hsound _ HQn)).
  - intros i Hi. rewrite path_ids_app, elem_of_app. left. rewrite Forall_forall in Hm. auto.
Qed.

Lemma markers_nodes children path iteration rest :
  markers (map (fun child => WNode child path iteration) children ++ rest) = markers rest.
Proof. unfold markers. induction children; [done|]. by csimpl. Qed.

Lemma stack_ok_nodes children path iteration rest :
  fits Q path children rest -> stack_ok Q rest ->
  stack_ok Q (map (fun child => WNode child path iteration) children ++ rest).
Proof.
  intros Hfit Hr. induction children as [|n l IH]; [done|]. cbn. split; [split; [|done]|].
  - destruct Hfit as (H1&H2&H3). rewrite Forall_cons in H1, H2. cbn.
    split_and!; [apply Forall_singleton; naive_solver..|]. by rewrite markers_nodes.
  - apply IH. eapply fits_sub; [done|]. set_solver.
Qed.

(** Children above a resumption marker. *)
Lemma stack_ok_marker children path iteration marker rest :
  item_path marker = path -> item_nodes marker = children -> if_marker marker = None ->
  fits Q path children rest -> (forall c, item_cursor marker = Some c -> has_cursor path c) ->
  stack_ok Q rest ->
  stack_ok Q (map (fun child => WNode child path iteration) children ++ marker :: rest).
Proof.
  intros <- <- Hm Hfit Hc Hr. apply stack_ok_nodes.
  - unfold fits, markers in *. cbn. by rewrite Hm.
  - split; [|done]. by destruct marker.
Qed.

(** Children above the end marker of the If that is entered. *)
Lemma stack_ok_if_end node path iteration kind rest id :
  id = node_id node -> fits Q path [node] rest -> stack_ok Q rest ->
  stack_ok Q (map (fun child => WNode child (path ++ [cursor id kind iteration]) iteration)
                (parts node) ++ WIfEnd id :: rest).
Proof.
  intros -> Hfit Hr.
  assert (Hni : node_id node ∉ markers rest).
  { destruct Hfit as (_&Hd&Hm). rewrite Forall_singleton in Hd. rewrite Forall_forall in Hm.
    intros Hi. apply (Hd _ (Hm _ Hi)). rewrite ids_eq. by left. }
  pose proof (fits_enter node path rest [cursor (node_id node) kind iteration] Hfit
                ltac:(by apply Forall_singleton)) as (H1&H2&H3).
  apply stack_ok_nodes; [|done]. split_and!; [done..|]. unfold markers in *. cbn.
  apply Forall_cons. split; [|done]. rewrite path_ids_app. set_solver.
Qed.

Lemma markers_NoDup w : stack_ok Q w -> NoDup (markers w).
Proof.
  induction w as [|item w IH]; [constructor|]. cbn. intros [Hi Hw]. unfold markers. csimpl.
  destruct item; cbn in *; auto. constructor; auto.
Qed.

Lemma stack_ok_app w1 w2 : stack_ok Q (w1 ++ w2) -> stack_ok Q w2.
Proof. induction w1; cbn; naive_solver. Qed.
End entering.

(** ** Running the monad *)

Section running.
Context (r : LogicRunner) (i : LogicInput).

Lemma bind_runner {B} (f : LogicRunner -> M B) :
  st_bind get_runner f (mkMachine r i) = f r (mkMachine r i).
Proof. done. Qed.
Lemma bind_input {B} (f : LogicInput -> M B) :
  st_bind get_input f (mkMachine r i) = f i (mkMachine r i).
Proof. done. Qed.
Lemma bind_update {B} (f : () -> M B) g :
  st_bind (update g) f (mkMachine r i) = f tt (mkMachine (g r) i).
Proof. done. Qed.
Lemma bind_ret {B C} (f : B -> M C) b :
  st_bind (st_ret b) f (mkMachine r i) = f b (mkMachine r i).
Proof. done. Qed.
Lemma bind_lift_ok {B C} (f : B -> M C) b :
  st_bind (lift (Ok b)) f (mkMachine r i) = f b (mkMachine r i).
Proof. done. Qed.
Lemma bind_lift_err {B C} (f : B -> M C) e :
  st_bind (lift (Err e)) f (mkMachine r i) = fail e (mkMachine r i).
Proof. done. Qed.
Lemma bind_fail {B C} (f : B -> M C) e :
  st_bind (fail e) f (mkMachine r i) = fail e (mkMachine r i).
Proof. done. Qed.
Lemma bind_eq {B C} (m : M B) (f : B -> M C) s :
  st_bind m f s = match m s with
                  | (Ok b, s') => f b s'
                  | (Err e, s') => (Err e, s')
                  | (OutOfFuel, s') => (OutOfFuel, s')
                  end.
Proof. done. Qed.
End running.

Ltac run :=
  repeat (first [rewrite bind_runner | rewrite bind_input | rewrite bind_update | rewrite bind_ret
                | rewrite bind_lift_ok | rewrite bind_lift_err | rewrite bind_fail]);
  cbv beta.

(** ** Processing one item *)

(** The runner when an item has been taken off the stack. *)
Record ready (Q : LogicNode -> Prop) (item : WorkItem) (rest : list WorkItem) (r : LogicRunner) :
    Prop := {
  ready_work : work r = rest;
  ready_item : item_ok Q item rest;
  ready_stack : stack_ok Q rest;
  ready_ifs : aligned (item :: rest) (active_ifs r);
  ready_pending : pending_for item r
}.

(** How processing it may end. *)
Definition processed (Q : LogicNode -> Prop) (item : WorkItem) (rest : list WorkItem)
    (r0 : LogicRunner) (res : comp LogicControllerError (option LogicStep) * Machine) : Prop :=
  let r := m_runner res.2 in
  root_started r = root_started r0 /\ if_check_pending r = if_check_pending r0 /\
  match res.1 with
  | Ok (Some StepNeedsRandom) =>
      work r = rest /\ aligned (item :: rest) (active_ifs r) /\ pending_for item r
  | Ok _ => settled Q r
  | Err (Raised (InvariantViolation _)) | Err Panic | OutOfFuel => False
  | Err (Raised _) => settled Q r
  end.

Section processing.
Context (Q : LogicNode -> Prop).
Context (HQ : forall node child, Q node -> child ∈ parts node -> Q child).
Context (Hsound : forall node, Q node -> sound node).

Lemma settled_rest item rest r :
  ready Q item rest r -> if_marker item = None -> pending_random_order r = None -> settled Q r.
Proof.
  intros [Hw Hi Hs Ha Hp] Hm Hpend. split_and!; [by rewrite Hw| |done].
  unfold aligned, markers in *. cbn in Ha. rewrite Hm in Ha. by rewrite Hw.
Qed.

Lemma settled_nodes item rest r r' children path iteration :
  ready Q item rest r -> if_marker item = None -> pending_random_order r' = None ->
  active_ifs r' = active_ifs r ->
  work r' = map (fun child => WNode child path iteration) children ++ rest ->
  fits Q path children rest -> settled Q r'.
Proof.
  intros [Hw Hi Hs Ha Hp] Hm Hpend Hact Hwork Hfit. split_and!; [| |done]; rewrite Hwork.
  - by apply stack_ok_nodes.
  - unfold aligned. rewrite markers_nodes, Hact. unfold aligned, markers in Ha. cbn in Ha.
    by rewrite Hm in Ha.
Qed.

Lemma settled_marker item rest r r' children path iteration marker :
  ready Q item rest r -> if_marker item = None -> pending_random_order r' = None ->
  active_ifs r' = active_ifs r ->
  work r' = map (fun child => WNode child path iteration) children ++ marker :: rest ->
  item_path marker = path -> item_nodes marker = children -> if_marker marker = None ->
  (forall c, item_cursor marker = Some c -> has_cursor path c) ->
  fits Q path children rest -> settled Q r'.
Proof.
  intros [Hw Hi Hs Ha Hp] Hm Hpend Hact Hwork Hpath Hnodes Hmark Hc Hfit.
  split_and!; [| |done]; rewrite Hwork.
  - by apply stack_ok_marker.
  - unfold aligned. rewrite markers_nodes, Hact. unfold markers in *. cbn. rewrite Hmark.
    unfold aligned, markers in Ha. cbn in Ha. by rewrite Hm in Ha.
Qed.

Lemma has_cursor_last path id kind iteration :
  has_cursor (path ++ [cursor id kind iteration]) (id, kind).
Proof. exists iteration. apply elem_of_app. right. by left. Qed.

(** Nodes that do not shuffle find no shuffle in progress. *)
Definition is_random_order (node : LogicNode) : bool :=
  match node with LRandomOrder _ _ => true | _ => false end.

Section node.
Context (node : LogicNode) (path : list LogicCursor) (iteration : Z).
Context (rest : list WorkItem) (r : LogicRunner) (input : LogicInput).
Context (Hready : ready Q (WNode node path iteration) rest r).

Lemma node_fits : fits Q path [node] rest.
Proof. apply (ready_item _ _ _ _ Hready). Qed.

Lemma node_entered cursors :
  Forall (fun c => lc_id c = node_id node) cursors -> fits Q (path ++ cursors) (parts node) rest.
Proof. apply fits_enter; auto using node_fits. Qed.

Lemma node_sound : sound node.
Proof. apply Hsound. destruct node_fits as (H&_&_). by inversion H. Qed.

Lemma no_pending : is_random_order node = false -> pending_random_order r = None.
Proof.
  intros Hr. pose proof (ready_pending _ _ _ _ Hready) as Hp. unfold pending_for in Hp.
  destruct (pending_random_order r); [|done]. by destruct node.
Qed.

(** The work of this item is done without new items. *)
Lemma done_with r' :
  is_random_order node = false -> work r' = rest -> active_ifs r' = active_ifs r ->
  pending_random_order r' = None -> settled Q r'.
Proof.
  intros Hr Hw Ha Hp. destruct Hready as [Hw0 Hi Hs Hal _].
  split_and!; [by rewrite Hw| |done]. unfold aligned in *. by rewrite Hw, Ha.
Qed.

(** The runner changed in fields the invariant does not mention. *)
Definition alike (r1 : LogicRunner) : Prop :=
  work r1 = rest /\ active_ifs r1 = active_ifs r /\ pending_random_order r1 = None /\
  root_started r1 = root_started r /\ if_check_pending r1 = if_check_pending r.

Lemma alike_self : is_random_order node = false -> alike r.
Proof. intros. split_and!; try done; [apply Hready | by apply no_pending]. Qed.

Abbreviation good_end := (processed Q (WNode node path iteration) rest r).

Lemma end_ok r1 i o : alike r1 -> o <> Some StepNeedsRandom ->
  is_random_order node = false -> good_end (Ok o, mkMachine r1 i).
Proof.
  intros (H1&H2&H3&H4&H5) Ho Hn. split_and!; [done..|]. cbn.
  assert (settled Q r1) by by apply (done_with r1). by destruct o as [[]|].
Qed.

Lemma nothing_ok r1 i : alike r1 -> is_random_order node = false -> good_end (nothing (mkMachine r1 i)).
Proof. intros. by apply end_ok. Qed.

Lemma needs_random_ok r1 i : alike r1 -> good_end (needs_random (mkMachine r1 i)).
Proof.
  intros (H1&H2&H3&H4&H5). split_and!; [done..|]. cbn. split_and!; [done| |].
  - rewrite H2. apply Hready.
  - unfold pending_for. by rewrite H3.
Qed.

Lemma raise_ok r1 i e : alike r1 -> is_random_order node = false ->
  (forall d, e <> InvariantViolation d) -> good_end (fail e (mkMachine r1 i)).
Proof.
  intros (H1&H2&H3&H4&H5) Hn He. split_and!; [done..|]. cbn.
  assert (settled Q r1) by by apply (done_with r1). destruct e; try done. by destruct (He detail).
Qed.

Lemma enter_children_ok r1 i kind children :
  alike r1 -> is_random_order node = false -> parts node = children ->
  good_end (enter_children (node_id node) kind children path iteration (mkMachine r1 i)).
Proof.
  intros (H1&H2&H3&H4&H5) Hn <-. split_and!; [done..|]. cbn.
  eapply settled_nodes; [exact Hready|done..|cbn; by rewrite H1|].
  apply node_entered. by apply Forall_singleton.
Qed.

Lemma enter_child_ok r1 i kind child :
  alike r1 -> is_random_order node = false -> child ∈ parts node ->
  good_end (enter_child (node_id node) kind child path iteration (mkMachine r1 i)).
Proof.
  intros (H1&H2&H3&H4&H5) Hn Hc. split_and!; [done..|]. cbn.
  apply (settled_nodes (WNode node path iteration) rest r _ [child]
           (path ++ [cursor (node_id node) kind iteration]) iteration); try done.
  - cbn. by rewrite H1.
  - eapply fits_sub; [apply node_entered; by apply Forall_singleton|]. intros x. rewrite list_elem_of_singleton.
    by intros ->.
Qed.

(** Children scheduled above a resumption marker. *)
Lemma schedule_marker_ok r1 i children kind it1 it2 marker :
  alike r1 -> is_random_order node = false -> parts node = children ->
  let path' := path ++ [cursor (node_id node) kind it1] in
  item_path marker = path' -> item_nodes marker = children -> if_marker marker = None ->
  (forall c, item_cursor marker = Some c -> c = (node_id node, kind)) ->
  good_end ((schedule_children children path' it2 (Some marker) ;! nothing) (mkMachine r1 i)).
Proof.
  intros (H1&H2&H3&H4&H5) Hn <- path' Hp Hc Hm Hcur. split_and!; [done..|]. cbn.
  eapply (settled_marker (WNode node path iteration) rest r _ (parts node) path' it2 marker);
    try done; [cbn; by rewrite H1| |].
  - intros c Hcc. rewrite (Hcur c Hcc). apply has_cursor_last.
  - apply node_entered. by apply Forall_singleton.
Qed.
End node.

(** ** Processing each kind of node *)

Section kinds.
Context (path : list LogicCursor) (iteration : Z) (rest : list WorkItem).
Context (r : LogicRunner) (input : LogicInput).

Abbreviation start node := (ready Q (WNode node path iteration) rest r) (only parsing).
Abbreviation good_run node m :=
  (processed Q (WNode node path iteration) rest r (m (mkMachine r input))) (only parsing).

Lemma eval_condition_cases c (k : bool -> M (option LogicStep)) (P : _ -> Prop) :
  (forall b, P (k b (mkMachine r input))) ->
  (forall controller capability, P (fail (Unsupported controller capability) (mkMachine r input))) ->
  P (st_bind (eval_condition c) k (mkMachine r input)).
Proof. intros Hk Hf. destruct c; try apply Hk. apply Hf. Qed.

Lemma loop_ok id count ch :
  start (LLoop id count ch) -> good_run (LLoop id count ch) (process_loop id count ch path iteration).
Proof.
  intros Hr. pose proof (alike_self _ _ _ _ _ Hr eq_refl) as Hself. unfold process_loop.
  case_bool_decide; [by apply nothing_ok|].
  eapply schedule_marker_ok; try done. cbn. by intros c [= <-].
Qed.

Lemma while_ok id c maximum ch :
  start (LWhile id c maximum ch) ->
  good_run (LWhile id c maximum ch) (process_while id c maximum ch path iteration).
Proof.
  intros Hr. pose proof (alike_self _ _ _ _ _ Hr eq_refl) as Hself. unfold process_while.
  case_bool_decide; [by apply nothing_ok|].
  apply eval_condition_cases; [|intros; by apply raise_ok]. intros [|]; [|by apply nothing_ok].
  eapply schedule_marker_ok; try done. cbn. by intros ? [= <-].
Qed.

Lemma reset_if_alike rest0 r0 ids0 :
  alike rest0 r r0 -> alike rest0 r (reset_if_state ids0 r0).
Proof. intros (?&?&Hp&?&?). split_and!; try done. cbn. by rewrite Hp. Qed.

Lemma if_ok id c each ch :
  start (LIf id c each ch) -> good_run (LIf id c each ch) (process_if id c each ch path iteration).
Proof.
  intros Hr. pose proof (alike_self _ _ _ _ _ Hr eq_refl) as Hself. unfold process_if.
  apply eval_condition_cases; [|intros; by apply raise_ok]. intros [|].
  2: { apply nothing_ok; [done| |done]. by apply reset_if_alike. }
  destruct Hself as (H1&H2&H3&H4&H5). destruct each.
  - split_and!; [done..|]. split_and!; cbn; [| |done]; rewrite H1.
    + apply (stack_ok_if_end Q HQ Hsound (LIf id c true ch) path iteration "IfController" rest);
        [done|apply (node_fits _ _ _ _ _ Hr)|apply Hr].
    + unfold aligned. rewrite markers_nodes, map_app, (ready_ifs _ _ _ _ Hr).
      change (markers (WIfEnd id :: rest)) with (id :: markers rest). by rewrite reverse_cons.
  - split_and!; [done..|]. cbn.
    eapply settled_nodes; [exact Hr|done..|cbn; by rewrite H1|].
    apply (node_entered _ _ _ _ _ Hr). by apply Forall_singleton.
Qed.

Lemma for_each_ok id pre out ch :
  start (LForEach id pre out ch) ->
  good_run (LForEach id pre out ch) (process_for_each id pre out ch path).
Proof.
  intros Hr. pose proof (alike_self _ _ _ _ _ Hr eq_refl) as Hself.
  unfold process_for_each. run. cbv zeta.
  destruct (parse_usize _) as [count|]; cbn [ok_or]; run; [|by apply raise_ok].
  case_if; [by apply nothing_ok|]. case_if; run; [by apply nothing_ok|].
  unfold bind_element. run. cbv zeta.
  eapply schedule_marker_ok; try done. cbn. by intros ? [= <-].
Qed.

Lemma uniform_choice_lt value bound i : uniform_choice value bound = Some i -> (i < bound)%nat.
Proof.
  unfold uniform_choice. destruct (Z.of_nat bound =? 0) eqn:E; [done|]. simpl_bool.
  cbv zeta. case_if; [done|]. intros [= <-]. pose proof (Z.mod_pos_bound value (Z.of_nat bound)). lia.
Qed.

Lemma draw_cases bound (k : option nat -> M (option LogicStep)) (P : _ -> Prop) :
  (forall i' o, (forall x, o = Some x -> (x < bound)%nat) -> P (k o (mkMachine r i'))) ->
  P (st_bind (draw_index bound) k (mkMachine r input)).
Proof.
  intros Hk. unfold draw_index, take_random, st_bind. cbn.
  destruct (in_random_value input) as [v|]; cbn; apply Hk; [|done].
  apply uniform_choice_lt.
Qed.

Lemma switch_numeric_lt value n i : (0 < n)%nat -> switch_numeric_index value n = Some i -> (i < n)%nat.
Proof.
  intros Hn. unfold switch_numeric_index. repeat case_bool_decide; [naive_solver|].
  destruct (negb _); [done|]. intros (z&Hz&Hi)%bind_Some. case_if; naive_solver lia.
Qed.

Lemma switch_ok id sel ch :
  start (LSwitch id sel ch) -> good_run (LSwitch id sel ch) (process_switch id sel ch path iteration).
Proof.
  intros Hr. pose proof (alike_self _ _ _ _ _ Hr eq_refl) as Hself. unfold process_switch.
  case_bool_decide; [by apply nothing_ok|].
  assert (Hpick : forall picked i, processed Q (WNode (LSwitch id sel ch) path iteration) rest r
    (match picked with
     | PickRandom => needs_random
     | PickNone => nothing
     | PickChild index =>
         match ch !! index with
         | None => nothing
         | Some child => enter_child id "SwitchController" child path iteration
         end
     end (mkMachine r i))).
  { intros [index| |] i; [|by apply nothing_ok|by apply needs_random_ok].
    destruct (ch !! index) as [child|] eqn:Ec; [|by apply nothing_ok].
    apply (enter_child_ok _ _ _ _ _ Hr); try done. by apply list_elem_of_lookup_2 in Ec. }
  unfold switch_index. rewrite st_bind_assoc. run. cbv zeta.
  destruct sel as [v|name|name names|].
  - apply (Hpick (PickChild _)).
  - destruct (switch_numeric_index _ _); [apply (Hpick (PickChild _)) | by apply raise_ok].
  - destruct (switch_numeric_index _ _); [apply (Hpick (PickChild _))|].
    destruct (switch_named_index _ _ _); [apply (Hpick (PickChild _)) | apply (Hpick PickNone)].
  - destruct (Nat.eqb _ _); [apply (Hpick (PickChild _))|]. rewrite st_bind_assoc.
    apply draw_cases. intros i' [o|] _; [apply (Hpick (PickChild _)) | apply (Hpick PickRandom)].
Qed.

Lemma interleave_ok id ch :
  start (LInterleave id ch) -> good_run (LInterleave id ch) (process_interleave id ch path iteration).
Proof.
  intros Hr. pose proof (alike_self _ _ _ _ _ Hr eq_refl) as Hself. unfold process_interleave.
  case_bool_decide as Hne; [by apply nothing_ok|]. run. cbv zeta.
  set (index := default 0 _).
  assert (Hl : (0 < length ch)%nat) by (destruct ch; [done|cbn; lia]).
  destruct (lookup_lt_is_Some_2 ch (Z.to_nat (index mod Z.of_nat (length ch)))) as [child Hc].
  { pose proof (Z.mod_pos_bound index (Z.of_nat (length ch))). lia. }
  rewrite Hc. run. apply (enter_child_ok _ _ _ _ _ Hr); try done. by apply list_elem_of_lookup_2 in Hc.
Qed.

Lemma random_ok id ch :
  start (LRandom id ch) -> good_run (LRandom id ch) (process_random id ch path iteration).
Proof.
  intros Hr. pose proof (alike_self _ _ _ _ _ Hr eq_refl) as Hself. unfold process_random.
  case_bool_decide as Hne; [by apply nothing_ok|].
  assert (Hl : (0 < length ch)%nat) by (destruct ch; [done|cbn; lia]).
  assert (Hpick : forall o i, (forall x, o = Some x -> (x < length ch)%nat) ->
    processed Q (WNode (LRandom id ch) path iteration) rest r
    (match o with
     | None => needs_random
     | Some index =>
         match ch !! index with
         | None => panic
         | Some child => enter_child id "RandomController" child path iteration
         end
     end (mkMachine r i))).
  { intros [index|] i Ho; [|by apply needs_random_ok].
    destruct (lookup_lt_is_Some_2 ch index (Ho _ eq_refl)) as [child Hc]. rewrite Hc.
    apply (enter_child_ok _ _ _ _ _ Hr); try done. by apply list_elem_of_lookup_2 in Hc. }
  destruct (Nat.eqb _ _); [apply (Hpick (Some 0%nat)); by intros ? [= <-]|].
  apply draw_cases. intros i' o Ho. by apply Hpick.
Qed.

Lemma once_only_ok id ch :
  start (LOnceOnly id ch) -> good_run (LOnceOnly id ch) (process_once_only id ch path iteration).
Proof.
  intros Hr. pose proof (alike_self _ _ _ _ _ Hr eq_refl) as Hself. unfold process_once_only. run.
  case_bool_decide; [by apply nothing_ok|]. run. by apply (enter_children_ok _ _ _ _ _ Hr).
Qed.

Lemma throughput_ok id mode limit percent user ch :
  start (LThroughput id mode limit percent user ch) ->
  good_run (LThroughput id mode limit percent user ch)
    (process_throughput id mode limit percent user ch path iteration).
Proof.
  intros Hr. pose proof (alike_self _ _ _ _ _ Hr eq_refl) as Hself.
  unfold process_throughput, throughput_allow. rewrite st_bind_assoc. run. destruct user; cbn [negb].
  - rewrite (surjective_pairing (throughput_visit _ _ _ _ _)). rewrite st_bind_assoc. run.
    destruct (throughput_visit _ _ _ _ _).1; [by apply (enter_children_ok _ _ _ _ _ Hr) | by apply nothing_ok].
  - destruct (shared_state r) as [m|] eqn:Es; run; [|by apply raise_ok].
    rewrite (surjective_pairing (throughput_visit _ _ _ _ _)). rewrite st_bind_assoc. run.
    destruct (throughput_visit _ _ _ _ _).1; [by apply (enter_children_ok _ _ _ _ _ Hr) | by apply nothing_ok].
Qed.

Lemma runtime_ok id duration ch :
  start (LRuntime id duration ch) ->
  good_run (LRuntime id duration ch) (process_runtime id duration ch path iteration).
Proof.
  intros Hr. pose proof (alike_self _ _ _ _ _ Hr eq_refl) as Hself. unfold process_runtime. run. cbv zeta.
  case_if; run; [by apply nothing_ok|].
  eapply schedule_marker_ok; try done. cbn. by intros ? [= <-].
Qed.

Lemma replace_ok node id kind target :
  start node -> node = LModule id target \/ node = LInclude id target ->
  good_run node (replace_node id kind target path iteration).
Proof.
  intros Hr Hn.
  assert (Ht : exists t, target = Some t).
  { destruct (node_sound _ _ _ _ _ Hr) as [_ Hf]. rewrite subnodes_eq, Forall_cons in Hf.
    destruct target; [by eexists|]. by destruct Hn as [-> | ->], Hf. }
  destruct Ht as [t ->].
  assert (Hside : is_random_order node = false /\ t ∈ parts node /\ node_id node = id)
    by (destruct Hn as [-> | ->]; cbn; set_solver).
  destruct Hside as (H1&H2&<-). apply (enter_child_ok _ _ _ _ _ Hr); try done.
  by apply (alike_self _ _ _ _ _ Hr).
Qed.

Lemma critical_ok id name ch :
  start (LCriticalSection id name ch) ->
  good_run (LCriticalSection id name ch) (process_critical_section id name ch path iteration).
Proof.
  intros Hr. pose proof (alike_self _ _ _ _ _ Hr eq_refl) as (H1&H2&H3&H4&H5).
  unfold process_critical_section. destruct (existsb _ _); [by apply raise_ok|].
  split_and!; [done..|]. eapply settled_nodes; [exact Hr|done..|cbn; by rewrite H1|].
  apply (node_entered _ _ _ _ _ Hr). repeat constructor.
Qed.

(** A shuffle: at every turn the runner holds a permutation of the children,
    and at the end it schedules one. *)
Definition shuffle_of id ch : PendingRandomOrder :=
  mkPending id (path ++ [cursor id "RandomOrderController" iteration]) iteration ch (length ch).

Lemma shuffle_started id ch :
  start (LRandomOrder id ch) -> several ch = true ->
  exists q, shuffles (WNode (LRandomOrder id ch) path iteration) q /\
    pending_random_order
      (if shuffling r id then r else with_pending (Some (shuffle_of id ch)) r) = Some q.
Proof.
  intros Hr Hs. pose proof (ready_pending _ _ _ _ Hr) as Hp. unfold pending_for in Hp.
  apply Nat.ltb_lt in Hs.
  assert (Hnew : shuffles (WNode (LRandomOrder id ch) path iteration) (shuffle_of id ch))
    by (cbn; split_and!; auto with lia).
  unfold shuffling. destruct (pending_random_order r) as [q|] eqn:Eq.
  - exists q. split; [done|]. destruct Hp as (->&_). by rewrite Z.eqb_refl.
  - exists (shuffle_of id ch). done.
Qed.

Lemma shuffle_step_ok id ch q r1 i value :
  start (LRandomOrder id ch) -> shuffles (WNode (LRandomOrder id ch) path iteration) q ->
  work r1 = rest -> active_ifs r1 = active_ifs r -> pending_random_order r1 = Some q ->
  root_started r1 = root_started r -> if_check_pending r1 = if_check_pending r ->
  processed Q (WNode (LRandomOrder id ch) path iteration) rest r
    (shuffle_step value (mkMachine r1 i)).
Proof.
  intros Hr Hq H1 H2 H3 H4 H5. pose proof (ready_ifs _ _ _ _ Hr) as Ha.
  unfold shuffle_step. run. rewrite H3. cbv zeta.
  destruct (uniform_choice _ _) as [index|] eqn:Eu.
  2: { split_and!; [done..|]. cbn. split_and!; [done|by rewrite H2|]. unfold pending_for. by rewrite H3. }
  apply uniform_choice_lt in Eu. destruct Hq as (Hid&Hperm&Hit&Hpath&Hrem).
  assert (Hlen : length (po_order q) = length ch) by by rewrite Hperm.
  unfold swap_order.
  destruct (Nat.ltb_spec index (length (po_order q))); [|lia].
  destruct (Nat.ltb_spec (po_remaining q - 1) (length (po_order q))); [|lia]. cbn [andb]. run.
  assert (Hsw : swap (po_order q) index (po_remaining q - 1) ≡ₚ ch) by by rewrite swap_permutation.
  destruct (Nat.ltb_spec 1 (po_remaining q - 1)); run.
  - split_and!; [done..|]. cbn. rewrite H2. split; [done|]. split; [done|].
    unfold pending_for. cbn. do 4 (split; [done|]). lia.
  - split_and!; [done..|]. eapply (settled_nodes (WNode (LRandomOrder id ch) path iteration) rest r);
      [exact Hr|done..|cbn; by rewrite H1|].
    rewrite Hpath.
    eapply fits_sub; [apply (node_entered _ _ _ _ _ Hr); by apply Forall_singleton|].
    intros x. cbn. by rewrite Hsw.
Qed.

Lemma random_order_ok id ch :
  start (LRandomOrder id ch) ->
  good_run (LRandomOrder id ch) (process_random_order id ch path iteration).
Proof.
  intros Hr. pose proof (ready_work _ _ _ _ Hr) as Hw.
  destruct (decide (several ch = true)) as [Hs|Hs].
  - destruct (shuffle_started id ch Hr Hs) as (q&Hq&Hpend).
    set (r1 := if shuffling r id then r else _) in Hpend.
    assert (Hsame : work r1 = rest /\ active_ifs r1 = active_ifs r /\
      root_started r1 = root_started r /\ if_check_pending r1 = if_check_pending r)
      by (unfold r1; by destruct (shuffling r id)).
    destruct Hsame as (H1&H2&H4&H5).
    assert (Hrun : process_random_order id ch path iteration (mkMachine r input)
      = st_bind take_random
          (fun value => match value with None => needs_random | Some value => shuffle_step value end)
          (mkMachine r1 input)) by (by destruct ch as [|c0 [|c1 l]]).
    rewrite Hrun. unfold take_random, st_bind. cbn [m_input m_runner].
    destruct (in_random_value input) as [value|]; [by apply (shuffle_step_ok id ch q)|].
    split_and!; [done..|]. cbn. rewrite H2. split; [done|]. split; [apply Hr|].
    unfold pending_for. by rewrite Hpend.
  - pose proof (ready_pending _ _ _ _ Hr) as Hp. unfold pending_for in Hp.
    assert (Hl : (length ch <= 1)%nat) by (unfold several in Hs; destruct (Nat.ltb_spec 1 (length ch)); [done|lia]).
    assert (Hnone : pending_random_order r = None).
    { destruct (pending_random_order r) as [q|]; [|done]. cbn in Hp. destruct_and! Hp. lia. }
    destruct ch as [|c0 [|c1 l]]; [| |cbn in Hl; lia].
    + split_and!; [done..|]. eapply settled_rest; [exact Hr|done..].
    + split_and!; [done..|]. eapply (settled_nodes _ rest r _ [c0]); [exact Hr|done..|cbn; by rewrite Hw|].
      apply (node_entered _ _ _ _ _ Hr). by apply Forall_singleton.
Qed.

Lemma process_node_ok node : start node -> good_run node (process_node node path iteration).
Proof.
  intros Hr. destruct node; cbn [process_node].
  all: try (pose proof (alike_self _ _ _ _ _ Hr eq_refl) as Hself).
  - unfold process_sample. run. by apply end_ok.
  - by apply (enter_children_ok _ _ _ _ _ Hr).
  - by apply loop_ok.
  - by apply if_ok.
  - by apply while_ok.
  - by apply for_each_ok.
  - by apply switch_ok.
  - by apply interleave_ok.
  - by apply random_ok.
  - by apply random_order_ok.
  - by apply once_only_ok.
  - by apply throughput_ok.
  - by apply runtime_ok.
  - unfold process_transaction. run. by apply (enter_children_ok _ _ _ _ _ Hr).
  - apply replace_ok; auto.
  - apply replace_ok; auto.
  - by apply (enter_children_ok _ _ _ _ _ Hr).
  - by apply critical_ok.
Qed.
End kinds.
End processing.
