(* ===== verification/LogicInv.v ===== *)
(** * The logic runner never corrupts itself

    Every operation of the runner of [Logic] keeps the invariant of
    [LogicSafe]: resuming a loop, ending or aborting an If, moving to the next
    loop, and whole steps.  A program that compiled therefore never raises the
    error reserved for a corrupted runner, whatever signals, variables and
    random values it is given. *)

From stdpp Require Import gmap.
From S2P Require Import Prelude Control Plan Random Wire Logic LogicTree LogicSafe.

(** ** Resuming a marker *)

Lemma update_first_ids path id kind n path' :
  update_first path id kind n = Some path' ->
  path_ids path' = path_ids path /\ has_cursor path' (id, kind).
Proof.
  revert path'. induction path as [|c path IH]; intros path'; [done|]. cbn [update_first].
  destruct ((lc_id c =? id) && bool_decide (lc_kind c = kind)) eqn:E.
  - intros [= <-]. apply andb_true_iff in E as [E1%Z.eqb_eq E2%bool_decide_eq_true].
    split; [done|]. exists n. cbn. rewrite E1, E2. by left.
  - intros (p1&Hp&->)%fmap_Some. destruct (IH _ Hp) as [H1 [m H2]]. split; [by cbn; f_equal|].
    exists m. by right.
Qed.

Lemma update_first_found path id kind n :
  has_cursor path (id, kind) -> is_Some (update_first path id kind n).
Proof.
  intros [m Hm]. induction path as [|c path IH]; [set_solver|]. cbn [update_first].
  destruct ((lc_id c =? id) && bool_decide (lc_kind c = kind)) eqn:E; [done|].
  apply elem_of_cons in Hm as [<-|Hm]; [|by apply fmap_is_Some, IH].
  cbn in E. rewrite Z.eqb_refl, bool_decide_true in E by done. done.
Qed.

Lemma path_reverse path : path_ids (reverse path) = reverse (path_ids path).
Proof. apply fmap_reverse. Qed.

Lemma update_cursor_ok path id kind n :
  has_cursor path (id, kind) ->
  exists path', update_cursor_iteration path id kind n = Ok path' /\
    path_ids path' = path_ids path /\ has_cursor path' (id, kind).
Proof.
  intros Hc. unfold update_cursor_iteration.
  assert (Hrev : has_cursor (reverse path) (id, kind))
    by (destruct Hc as [m Hm]; exists m; by apply elem_of_reverse).
  destruct (update_first_found _ _ _ n Hrev) as [path' Hp]. rewrite Hp.
  apply update_first_ids in Hp as [Hids [m Hm]]. exists (reverse path'). split; [done|].
  rewrite path_reverse, Hids, path_reverse, reverse_involutive. split; [done|].
  exists m. by apply elem_of_reverse.
Qed.

Section invariant.
Context (p : LogicProgram) (Q : LogicNode -> Prop).
Context (HQ : forall node child, Q node -> child ∈ parts node -> Q child).
Context (Hsound : forall node, Q node -> sound node).

Section resume.
Context (rest : list WorkItem) (r : LogicRunner) (input : LogicInput).

(** What every resumption marker does: nothing more, an error of the user's
    plan, or its children again under the updated path. *)
Lemma marker_alike item : ready Q item rest r -> item_cursor item <> None -> alike rest r r.
Proof.
  intros Hr Hm. split_and!; try done; [apply Hr|].
  pose proof (ready_pending _ _ _ _ Hr) as Hp. unfold pending_for in Hp.
  destruct (pending_random_order r); [|done]. by destruct item.
Qed.

Lemma marker_done item r1 i :
  ready Q item rest r -> item_cursor item <> None -> alike rest r r1 ->
  processed Q item rest r (nothing (mkMachine r1 i)).
Proof.
  intros Hr Hm (H1&H2&H3&H4&H5). split_and!; [done..|]. cbn. split_and!; [rewrite H1; apply Hr| |done].
  unfold aligned. rewrite H1, H2, (ready_ifs _ _ _ _ Hr). by destruct item.
Qed.

Lemma marker_raise item r1 i e :
  ready Q item rest r -> item_cursor item <> None -> alike rest r r1 ->
  (forall d, e <> InvariantViolation d) ->
  processed Q item rest r (fail e (mkMachine r1 i)).
Proof.
  intros Hr Hm Hal He. destruct (marker_done item r1 i Hr Hm Hal) as (H1&H2&H3).
  split_and!; [done..|]. cbn in *. destruct e; try done. by destruct (He detail).
Qed.

Lemma marker_again item marker r1 i path' n kind id :
  ready Q item rest r -> item_cursor item = Some (id, kind) -> alike rest r r1 ->
  path_ids path' = path_ids (item_path item) -> has_cursor path' (id, kind) ->
  item_path marker = path' -> item_nodes marker = item_nodes item ->
  item_cursor marker = Some (id, kind) ->
  processed Q item rest r
    ((schedule_children (item_nodes item) path' n (Some marker) ;! nothing) (mkMachine r1 i)).
Proof.
  intros Hr Hi (H1&H2&H3&H4&H5) Hids Hc Hp Hn Hm. split_and!; [done..|]. cbn.
  eapply (settled_marker Q HQ Hsound item rest r _ (item_nodes item) path' n marker); try done.
  - by destruct item.
  - cbn. by rewrite H1.
  - by destruct marker.
  - intros c. rewrite Hm. by intros [= <-].
  - pose proof (ready_item _ _ _ _ Hr) as Hok. unfold fits. rewrite Hids.
    destruct item; try done; apply Hok.
Qed.

Lemma item_has_cursor item c :
  ready Q item rest r -> item_cursor item = Some c -> has_cursor (item_path item) c.
Proof. intros Hr Hc. pose proof (ready_item _ _ _ _ Hr). destruct item; try done; naive_solver. Qed.

Lemma next_iteration_cases n (k : Z -> M (option LogicStep)) (P : _ -> Prop) :
  (forall m, P (k m (mkMachine r input))) ->
  (forall e, (forall d, e <> InvariantViolation d) -> P (fail e (mkMachine r input))) ->
  P (st_bind (next_iteration p n) k (mkMachine r input)).
Proof.
  intros Hk Hf. unfold next_iteration. rewrite st_bind_assoc. run.
  destruct (u64_checked_add n 1) as [m|]; cbn [ok_or]; run; [apply Hk | by apply Hf].
Qed.

Lemma loop_again_ok id count ch path n :
  ready Q (WLoopAgain id count ch path n) rest r ->
  processed Q (WLoopAgain id count ch path n) rest r
    (process_loop_again p id count ch path n (mkMachine r input)).
Proof.
  intros Hr. pose proof (marker_alike _ Hr ltac:(done)) as Hal. unfold process_loop_again.
  apply next_iteration_cases; [|intros; by apply marker_raise]. intros m.
  case_if; [by apply marker_done|].
  destruct (update_cursor_ok path id "LoopController" m) as (path'&->&Hids&Hc);
    [by apply (item_has_cursor (WLoopAgain id count ch path n))|].
  run. by eapply (marker_again (WLoopAgain id count ch path n)).
Qed.

Lemma while_again_ok id c maximum ch path n :
  ready Q (WWhileAgain id c maximum ch path n) rest r ->
  processed Q (WWhileAgain id c maximum ch path n) rest r
    (process_while_again p id c maximum ch path n (mkMachine r input)).
Proof.
  intros Hr. pose proof (marker_alike _ Hr ltac:(done)) as Hal. unfold process_while_again.
  apply next_iteration_cases; [|intros; by apply marker_raise]. intros m.
  assert (Hagain : processed Q (WWhileAgain id c maximum ch path n) rest r
    ((do! path <- lift (update_cursor_iteration path id "WhileController" m) in
      schedule_children ch path m (Some (WWhileAgain id c maximum ch path m)) ;! nothing)
       (mkMachine r input))).
  { destruct (update_cursor_ok path id "WhileController" m) as (path'&->&Hids&Hc);
      [by apply (item_has_cursor (WWhileAgain id c maximum ch path n))|].
    run. by eapply (marker_again (WWhileAgain id c maximum ch path n)). }
  case_if; [run; by apply marker_done|]. rewrite st_bind_assoc.
  apply eval_condition_cases; [|intros; by apply marker_raise].
  intros [|]; run; cbn [negb]; [done | by apply marker_done].
Qed.

Lemma for_each_again_ok id pre out count ch path n :
  ready Q (WForEachAgain id pre out count ch path n) rest r ->
  processed Q (WForEachAgain id pre out count ch path n) rest r
    (process_for_each_again id pre out count ch path n (mkMachine r input)).
Proof.
  intros Hr. pose proof (marker_alike _ Hr ltac:(done)) as Hal. unfold process_for_each_again.
  case_if; run; [by apply marker_done|]. unfold bind_element. run. cbv zeta.
  destruct (update_cursor_ok path id "ForeachController" n) as (path'&->&Hids&Hc);
    [by apply (item_has_cursor (WForEachAgain id pre out count ch path n))|].
  run. by eapply (marker_again (WForEachAgain id pre out count ch path n)).
Qed.

Lemma runtime_again_ok id duration ch path n deadline :
  ready Q (WRuntimeAgain id duration ch path n deadline) rest r ->
  processed Q (WRuntimeAgain id duration ch path n deadline) rest r
    (process_runtime_again p id duration ch path n deadline (mkMachine r input)).
Proof.
  intros Hr. pose proof (marker_alike _ Hr ltac:(done)) as Hal. unfold process_runtime_again. run.
  case_if; run; [by apply marker_done|].
  apply next_iteration_cases; [|intros; by apply marker_raise]. intros m.
  destruct (update_cursor_ok path id "RunTime" m) as (path'&->&Hids&Hc);
    [by apply (item_has_cursor (WRuntimeAgain id duration ch path n deadline))|].
  run. by eapply (marker_again (WRuntimeAgain id duration ch path n deadline)).
Qed.

(** The end marker of an If closes the innermost frame, its own. *)
Lemma if_end_ok id :
  ready Q (WIfEnd id) rest r ->
  processed Q (WIfEnd id) rest r ((finish_if id ;! nothing) (mkMachine r input)).
Proof.
  intros Hr. pose proof (ready_ifs _ _ _ _ Hr) as Ha. unfold aligned in Ha.
  change (markers (WIfEnd id :: rest)) with (id :: markers rest) in Ha. rewrite reverse_cons in Ha.
  pose proof (ready_pending _ _ _ _ Hr) as Hp. unfold pending_for in Hp.
  destruct (active_ifs r) as [|frame frames _] eqn:Eact using rev_ind.
  { apply (f_equal length) in Ha. rewrite length_app in Ha. cbn in Ha. lia. }
  rewrite map_app in Ha. apply app_inj_2 in Ha as [Ha [= Hid]]; [|done].
  unfold finish_if. rewrite st_bind_assoc. run. rewrite Eact, last_snoc, Hid, Z.eqb_refl. cbn [negb]. run.
  split_and!; [done..|]. split_and!; cbn.
  - rewrite (ready_work _ _ _ _ Hr). apply Hr.
  - unfold aligned. rewrite (ready_work _ _ _ _ Hr), Eact, length_app, Nat.add_sub.
    by rewrite take_app_length.
  - by destruct (pending_random_order r).
Qed.

Lemma process_item_ok item :
  ready Q item rest r -> processed Q item rest r (process_item p item (mkMachine r input)).
Proof.
  destruct item; intros Hr; cbn [process_item].
  - by apply process_node_ok.
  - by apply if_end_ok.
  - by apply loop_again_ok.
  - by apply while_again_ok.
  - by apply for_each_again_ok.
  - by apply runtime_again_ok.
Qed.
End resume.

(** ** Ending Ifs early *)

(** A result that is not the mark of a corrupted runner. *)
Definition clean {A} (o : comp LogicControllerError A) : Prop :=
  match o with Err (Raised (InvariantViolation _)) | Err Panic | OutOfFuel => False | _ => True end.

(** Between items, with no shuffle in progress. *)
Definition calm (r : LogicRunner) : Prop :=
  settled Q r /\ (root_started r = false -> work r = []).

Lemma NoDup_split {A} (l1 l2 k1 k2 : list A) x :
  NoDup (l1 ++ x :: l2) -> l1 ++ x :: l2 = k1 ++ x :: k2 -> l1 = k1 /\ l2 = k2.
Proof.
  revert k1. induction l1 as [|y l1 IH]; intros [|z k1] Hnd Heq; cbn in *;
    rewrite ?NoDup_cons in Hnd; simplify_eq; [done|set_solver..|].
  destruct Hnd as [_ Hnd]. edestruct IH; [done..|]. by subst.
Qed.

Lemma pop_to_marker_split id w :
  id ∈ markers w -> exists pre rest, w = pre ++ WIfEnd id :: rest /\ pop_to_marker id w = Some rest.
Proof.
  induction w as [|item w IH]; [set_solver|]. intros Hi.
  assert (Hdec : item = WIfEnd id \/ item <> WIfEnd id /\ id ∈ markers w /\
    pop_to_marker id (item :: w) = pop_to_marker id w).
  { unfold markers in Hi. destruct item; cbn in Hi; try (right; split_and!; done).
    cbn. destruct (id0 =? id) eqn:E; simpl_bool; [left; congruence|].
    right. split; [congruence|]. split; [set_solver|done]. }
  destruct Hdec as [->|(_&Hw&Hpop)].
  - exists [], w. cbn. by rewrite Z.eqb_refl.
  - destruct (IH Hw) as (pre&rest&->&Hp). exists (item :: pre), rest. by rewrite Hpop.
Qed.

Lemma markers_app w1 w2 : markers (w1 ++ w2) = markers w1 ++ markers w2.
Proof. apply omap_app. Qed.

(** Aborting a frame pops exactly the work of that If and of the Ifs inside. *)
Lemma abort_ok r i index :
  calm r -> (index < length (active_ifs r))%nat ->
  exists r', abort_if_frame index (mkMachine r i) = (Ok tt, mkMachine r' i) /\
    calm r' /\ if_check_pending r' = false.
Proof.
  intros [(Hs&Ha&Hp) Hst] Hi. unfold abort_if_frame. run.
  destruct (lookup_lt_is_Some_2 _ _ Hi) as [frame Hf]. rewrite Hf.
  unfold aligned in Ha. pose proof (markers_NoDup Q _ Hs) as Hnd.
  assert (Hm : markers (work r) = reverse (map if_id (active_ifs r))) by by rewrite Ha, reverse_involutive.
  pose proof (take_drop_middle _ _ _ Hf) as Hsplit. rewrite <- Hsplit, map_app in Hm. cbn in Hm.
  rewrite reverse_app, reverse_cons, <- app_assoc in Hm. cbn in Hm.
  destruct (pop_to_marker_split (if_id frame) (work r)) as (pre&rest&Hw&Hpop); [rewrite Hm; set_solver|].
  rewrite Hpop. run. eexists. split; [done|]. split; [|done].
  assert (Hrest : markers rest = reverse (map if_id (take index (active_ifs r)))).
  { rewrite Hw, markers_app in Hm, Hnd.
    change (markers (WIfEnd (if_id frame) :: rest)) with (if_id frame :: markers rest) in Hm, Hnd.
    by apply NoDup_split in Hm as [_ ?]. }
  split; [split_and!|]; cbn.
  - rewrite Hw in Hs. apply stack_ok_app in Hs. apply Hs.
  - unfold aligned. by rewrite Hrest, reverse_involutive.
  - by rewrite Hp.
  - intros Hroot. rewrite (Hst Hroot) in Hw. by destruct pre.
Qed.

Lemma recheck_ok r i frames : forall index,
  calm r -> if_check_pending r = false -> (index + length frames = length (active_ifs r))%nat ->
  let res := recheck_from index frames (mkMachine r i) in
  clean res.1 /\ calm (m_runner res.2) /\ if_check_pending (m_runner res.2) = false.
Proof.
  induction frames as [|frame frames IH]; intros index Hc Hif Hl; [done|].
  cbn [recheck_from]. cbv zeta. cbn in Hl.
  unfold eval_condition. rewrite st_bind_assoc. run. rewrite st_bind_assoc. run.
  destruct (evaluate _ _ _) as [b|e|] eqn:Ee; run.
  - destruct b; cbn [negb]; [apply IH; auto with lia|].
    destruct (abort_ok r i index) as (r'&->&?&?); [done|lia|done].
  - split; [|done]. cbn. by destruct (if_condition frame); simplify_eq/=.
  - by destruct (if_condition frame).
Qed.

(** ** The next loop *)

Lemma find_loop_split w marker below :
  find_loop w = Some (marker, below) -> is_loop_marker marker = true /\ exists pre, w = pre ++ marker :: below.
Proof.
  induction w as [|item w IH]; [done|]. cbn. destruct (is_loop_marker item) eqn:E.
  - intros [= <- <-]. split; [done|]. by exists [].
  - intros H. destruct (IH H) as (?&pre&->). split; [done|]. by exists (item :: pre).
Qed.

(** Frames whose end marker is gone are dropped, the others stay. *)
Lemma drop_unbacked_eq ms gone kept r :
  (forall f, f ∈ gone -> if_id f ∉ ms) -> (forall f, f ∈ kept -> if_id f ∈ ms) ->
  let r' := drop_unbacked ms (gone ++ kept) r in
  active_ifs r' = reverse kept /\ work r' = work r /\ root_started r' = root_started r /\
  (pending_random_order r = None -> pending_random_order r' = None).
Proof.
  revert r. induction gone as [|f gone IH]; intros r Hg Hk; cbn.
  - destruct kept as [|f kept]; [done|]. cbn. rewrite bool_decide_true by (apply Hk; by left). done.
  - rewrite bool_decide_false by (apply Hg; by left).
    destruct (IH (reset_if_state (reset_state_ids f) r)) as (H1&H2&H3&H4); [set_solver|done|].
    split_and!; [done..|]. intros Hp. apply H4. cbn. by rewrite Hp.
Qed.

Lemma drop_unbacked_aligned r w pre below :
  stack_ok Q w -> aligned w (active_ifs r) -> w = pre ++ below -> work r = below ->
  pending_random_order r = None ->
  let r' := drop_unbacked_if_frames r in
  aligned below (active_ifs r') /\ work r' = below /\ root_started r' = root_started r /\
  pending_random_order r' = None.
Proof.
  intros Hs Ha -> Hw Hp. unfold aligned in Ha. pose proof (markers_NoDup Q _ Hs) as Hnd.
  rewrite markers_app in Ha, Hnd.
  assert (Hrev : map if_id (reverse (active_ifs r)) = markers pre ++ markers below)
    by (etransitivity; [apply fmap_reverse|]; rewrite <- (reverse_involutive (markers pre ++ _)); by f_equal).
  apply fmap_app_inv in Hrev as (gone&kept&Hg&Hk&Hsplit).
  unfold drop_unbacked_if_frames. rewrite Hsplit, Hw. apply NoDup_app in Hnd as (_&Hdis&_).
  destruct (drop_unbacked_eq (list_to_set (omap if_marker below)) gone kept r) as (H1&H2&H3&H4).
  - intros f Hf Hin. apply (Hdis (if_id f)).
    + rewrite Hg. by apply list_elem_of_fmap_2.
    + by apply elem_of_list_to_set in Hin.
  - intros f Hf. apply elem_of_list_to_set. change (if_id f ∈ markers below). rewrite Hk. by apply list_elem_of_fmap_2.
  - cbv zeta. split_and!; [|congruence|done|auto]. unfold aligned. rewrite H1, Hk. apply fmap_reverse.
Qed.

Lemma processed_settled item rest r res :
  processed Q item rest r res -> stack_ok Q rest -> item_cursor item <> None ->
  clean res.1 /\ settled Q (m_runner res.2).
Proof.
  intros (_&_&H) Hs Hc. destruct res as [[[[]|]|[[]|]|] m]; try done. cbn in *.
  destruct H as (Hw&Ha&Hp). split; [done|]. split_and!.
  - by rewrite Hw.
  - rewrite Hw. by destruct item.
  - unfold pending_for in Hp. destruct (pending_random_order _); [|done]. by destruct item.
Qed.

Lemma foldl_reset frames r :
  let r' := foldl (fun r f => reset_if_state (reset_state_ids f) r) r frames in
  pending_random_order r = None ->
  work r' = work r /\ pending_random_order r' = None /\ root_started r' = root_started r.
Proof.
  revert r. induction frames as [|f frames IH]; intros r; [done|]. cbn. intros Hp.
  apply (IH (reset_if_state (reset_state_ids f) r)). cbn. by rewrite Hp.
Qed.

Lemma next_loop_ok r i :
  calm r ->
  let res := next_loop p (mkMachine r i) in clean res.1 /\ calm (m_runner res.2).
Proof.
  intros [(Hs&Ha&Hp) Hst]. unfold next_loop. run. cbv zeta.
  change (work (with_runtime_starts ∅ r)) with (work r).
  destruct (find_loop (work r)) as [[marker below]|] eqn:Ef; run.
  - apply find_loop_split in Ef as (Hm&pre&Hw).
    set (r0 := with_work below _).
    assert (Hstack : stack_ok Q (marker :: below)) by (rewrite Hw in Hs; by apply stack_ok_app in Hs).
    destruct (drop_unbacked_aligned r0 (work r) (pre ++ [marker]) below) as (H1&H2&H3&H4); try done.
    { by rewrite <- app_assoc. }
    assert (Hready : ready Q marker below (drop_unbacked_if_frames r0)).
    { split; [done|apply Hstack..| |unfold pending_for; by rewrite H4].
      unfold aligned in *. rewrite H1. by destruct marker. }
    pose proof (process_item_ok below _ i marker Hready) as Hres.
    assert (Hroot : root_started (m_runner (process_item p marker
        (mkMachine (drop_unbacked_if_frames r0) i)).2) = root_started r)
      by (destruct Hres as (->&_); by rewrite H3).
    apply processed_settled in Hres as [Hcl Hset]; [|apply Hstack|by destruct marker].
    unfold st_bind. destruct (process_item p marker _) as [[o|e|] m]; cbn in *; [|split..]; try done.
    + split; [done|]. split; [done|]. rewrite Hroot. intros H. rewrite (Hst H) in Hw. by destruct pre.
    + split; [done|]. rewrite Hroot. intros H. rewrite (Hst H) in Hw. by destruct pre.
  - split; [done|].
    destruct (foldl_reset (reverse (active_ifs r)) (with_work [] (with_runtime_starts ∅ r)) Hp) as (H1&H2&H3).
    unfold update. cbn [snd m_runner]. revert H1 H2 H3.
    change (active_ifs (with_runtime_starts ∅ r)) with (active_ifs r).
    generalize (foldl (fun r frame => reset_if_state (reset_state_ids frame) r)
      (with_work [] (with_runtime_starts ∅ r)) (reverse (active_ifs r))).
    intros r2 H1 H2 H3. split; [split_and!|]; cbn; rewrite ?H1; done.
Qed.

(** ** Transitions and steps *)

Lemma inv_head r item rest :
  inv Q r -> work r = item :: rest -> ready Q item rest (with_work rest r).
Proof.
  intros [Hs Ha _ Hp] Hw. rewrite Hw in Hs, Ha. destruct Hs as [Hi Hs]. split; try done.
  unfold pending_for in *. cbn. destruct (pending_random_order r) eqn:E; [|done].
  destruct Hp as (_&item'&rest'&Hw'&Hp'); [done|]. congruence.
Qed.

Lemma inv_calm r : pending_random_order r = None -> inv Q r <-> calm r.
Proof.
  intros Hp. split; [by intros [? ? ? _] | intros [(?&?&?) ?]; by split].
Qed.

Lemma start_root_inv r i :
  Q (program_root p) -> inv Q r ->
  exists r', start_root p (mkMachine r i) = (Ok tt, mkMachine r' i) /\ inv Q r' /\
    root_started r' = true /\ if_check_pending r' = if_check_pending r.
Proof.
  intros HQr Hinv. unfold start_root, update. cbn. eexists. split; [done|].
  destruct (root_started r) eqn:Er; [done|]. destruct Hinv as [Hs Ha Hst Hp].
  pose proof (Hst Er) as Hw. rewrite Hw in *.
  assert (Hnone : pending_random_order r = None).
  { destruct (pending_random_order r) eqn:E; [|done]. destruct Hp as (_&?&?&?&_); [congruence|done]. }
  split; [split|]; cbn; try done.
  split; [|done]. split; [|done]. split_and!; [by apply Forall_singleton| |constructor].
  apply Forall_singleton. set_solver.
Qed.

(** The state after a turn of the loop. *)
Definition turned (res : comp LogicControllerError (option LogicStep) * Machine) : Prop :=
  clean res.1 /\ inv Q (m_runner res.2) /\
  (res.1 = Ok None -> if_check_pending (m_runner res.2) = false).

Lemma processed_turned item rest r i :
  ready Q item rest r -> root_started r = true -> if_check_pending r = false -> item_ok Q item rest ->
  turned ((do! out <- process_item p item in
           match out with
           | Some StepNeedsRandom => push_item item ;! needs_random
           | Some (StepSample s) =>
               update (fun r => with_if_check (negb (bool_decide (active_ifs r = []))) r) ;!
               st_ret (Some (StepSample s))
           | Some step => st_ret (Some step)
           | None => nothing
           end) (mkMachine r i)).
Proof.
  intros Hr Hroot Hif Hok. pose proof (process_item_ok rest r i item Hr) as (H1&H2&H3).
  unfold st_bind. destruct (process_item p item (mkMachine r i)) as [o [r' i']]. cbn [fst snd m_runner] in *.
  rewrite Hroot in H1. rewrite Hif in H2.
  assert (Hset : settled Q r' -> inv Q r').
  { intros (?&?&?). apply inv_calm; [done|]. split; [done|]. by rewrite H1. }
  destruct o as [[[]|]|[[]|]|]; try done; try (split_and!; cbn; by auto).
  - split_and!; cbn; [done| |done]. destruct H3 as (?&?&?). split; cbn; try done; congruence.
  - destruct H3 as (Hw&Ha&Hp). split_and!; cbn; [done| |done]. split; cbn.
    + rewrite Hw. split; [done|apply Hr].
    + by rewrite Hw.
    + congruence.
    + intros Hne. split; [done|]. by exists item, (work r').
Qed.

Lemma transition_ok r i :
  Q (program_root p) -> inv Q r -> if_check_pending r = false -> turned (transition p (mkMachine r i)).
Proof.
  intros HQr Hinv Hif. unfold transition. run.
  set (r0 := with_transition_count _ r).
  assert (Hinv0 : inv Q r0) by (destruct Hinv; by split).
  assert (Hif0 : if_check_pending r0 = false) by done.
  destruct (finished r0); [by split_and!|].
  destruct (start_root_inv r0 i HQr Hinv0) as (r1&Hst&Hinv1&Hroot&Hif1).
  unfold st_bind at 1. rewrite Hst. run.
  destruct (work r1) as [|item rest] eqn:Ew; run.
  - split_and!; [done| |done]. cbn. destruct Hinv1. by split.
  - pose proof (inv_head r1 item rest Hinv1 Ew) as Hready.
    apply (processed_turned item rest); try done; [by cbn; rewrite Hif1|apply Hready].
Qed.

Lemma step_loop_ok r i fuel : forall used,
  Q (program_root p) -> inv Q r -> if_check_pending r = false ->
  0 <= used -> max_transitions (program_limits p) < usize_max ->
  max_transitions (program_limits p) - used < Z.of_nat fuel ->
  used <= max_transitions (program_limits p) ->
  let res := logic_step_loop p fuel used (mkMachine r i) in clean res.1 /\ inv Q (m_runner res.2).
Proof.
  revert r i. induction fuel as [|fuel IH]; intros r i used HQr Hinv Hif Hu Hmax Hfuel Hle; [lia|].
  cbn [logic_step_loop]. cbv zeta.
  assert (Hsat : usize_saturating_succ used = used + 1) by (unfold usize_saturating_succ; lia).
  rewrite Hsat. case_if; [done|].
  pose proof (transition_ok r i HQr Hinv Hif) as (Hcl&Hinv'&Hif').
  unfold st_bind. destruct (transition p (mkMachine r i)) as [o [r' i']]. cbn in *.
  destruct o as [[step|]|e|]; cbn; try done. apply IH; auto; lia.
Qed.

(** A step that does not stop either ends before the loop, or enters the loop
    in a consistent state with nothing left to re-evaluate. *)
Definition enters_loop (res : comp LogicControllerError LogicStep * Machine) : Prop :=
  (clean res.1 /\ inv Q (m_runner res.2) /\ res.1 <> Ok StepNeedsRandom) \/
  (exists r i, inv Q r /\ if_check_pending r = false /\
     res = logic_step_loop p (logic_step_fuel p) 0 (mkMachine r i)).

Lemma recheck_enters r i : inv Q r ->
  enters_loop
    (((if if_check_pending r then update (with_if_check false) ;! recheck_active_ifs else st_ret ()) ;!
      logic_step_loop p (logic_step_fuel p) 0) (mkMachine r i)).
Proof.
  intros Hinv. destruct (if_check_pending r) eqn:Eif; [|right; by exists r, i].
  rewrite st_bind_assoc. run. unfold recheck_active_ifs. rewrite st_bind_assoc. run.
  assert (Hnone : pending_random_order r = None).
  { destruct (pending_random_order r) eqn:E; [|done].
    destruct (inv_pending _ _ Hinv) as [Hf _]; congruence. }
  destruct (recheck_ok (with_if_check false r) i (active_ifs r) 0) as (Hcl&Hcalm&Hif);
    [by apply (inv_calm r Hnone) in Hinv|done..|].
  rewrite bind_eq. destruct (recheck_from 0 _ _) as [[[]|e|] [r' i']]; cbn [fst snd m_runner clean] in *; try done.
  - right. exists r', i'. split; [|done]. by apply inv_calm; [apply Hcalm|].
  - left. split; [done|]. split; [|done]. by apply inv_calm; [apply Hcalm|].
Qed.

Lemma step_running_enters r i : inv Q r -> enters_loop (step_running p (mkMachine r i)).
Proof.
  intros Hinv. unfold step_running. run.
  case_bool_decide as Hsig; cbn [andb]; [|run; by apply recheck_enters].
  rewrite st_bind_assoc. run.
  assert (Hcalm : calm (with_pending None r)).
  { apply inv_calm; [done|]. destruct Hinv. by split. }
  destruct (next_loop_ok (with_pending None r) i Hcalm) as [Hcl Hcalm'].
  rewrite (bind_eq (next_loop p)). destruct (next_loop p _) as [[[]|e|] [r' i']]; cbn [fst snd m_runner clean] in *; try done.
  - assert (inv Q r') by (apply inv_calm; [apply Hcalm'|done]). run.
    destruct (finished r'); [by left|by apply recheck_enters].
  - left. split; [done|]. split; [|done]. by apply inv_calm; [apply Hcalm'|].
Qed.

Lemma step_inv r input :
  Q (program_root p) -> inv Q r ->
  0 <= max_transitions (program_limits p) < usize_max ->
  clean (logic_step p input r).1 /\ inv Q (logic_step p input r).2.
Proof.
  intros HQr Hinv Hmax.
  assert (Hrun : clean (step_running p (mkMachine r input)).1 /\
                 inv Q (m_runner (step_running p (mkMachine r input)).2)).
  { destruct (step_running_enters r input Hinv) as [(?&?&_)|(r'&i'&Hi&Hif&->)]; [done|].
    apply step_loop_ok; try done; unfold logic_step_fuel; lia. }
  unfold logic_step, step_body. run. cbv zeta.
  assert (Hstop : forall s, inv Q (with_pending None (with_terminal s r))) by (intros; destruct Hinv; by split).
  destruct (terminal r) as [existing|]; [by destruct (is_stop (in_signal input)); cbn|].
  destruct (is_stop (in_signal input)); [cbn; auto|].
  by destruct (step_running p (mkMachine r input)) as [o m].
Qed.
End invariant.

(** ** Every run *)

(** The runners a program's users can have: a fresh one, with or without the
    run's shared counters, and what any sequence of operations makes of it.
    Other users may move the shared counters at any time. *)
Inductive reachable (p : LogicProgram) : LogicRunner -> Prop :=
| reach_new shared : reachable p (logic_runner_new shared)
| reach_step r input : reachable p r -> reachable p (logic_step p input r).2
| reach_set r name value : reachable p r -> reachable p (set_variable name value r)
| reach_replace r values : reachable p r -> reachable p (replace_variables values r)
| reach_reset r : reachable p r -> reachable p (logic_reset r)
| reach_root r : reachable p r -> reachable p (logic_next_root_iteration p r).2
| reach_shared r shared :
    reachable p r -> (shared_state r = None <-> shared = None) -> reachable p (with_shared_state shared r).

Section reachable.
Context (p : LogicProgram) (Q : LogicNode -> Prop).
Context (HQ : forall node child, Q node -> child ∈ parts node -> Q child).
Context (Hsound : forall node, Q node -> sound node).
Context (Hroot : Q (program_root p)).
Context (Hmax : 0 <= max_transitions (program_limits p) < usize_max).

Lemma reachable_inv r : reachable p r -> inv Q r.
Proof.
  induction 1 as [shared|r input _ IH|r name value _ IH|r values _ IH|r _ IH|r _ IH|r shared _ IH _].
  - by split.
  - by apply step_inv.
  - destruct IH. by split.
  - destruct IH. by split.
  - by split.
  - unfold logic_next_root_iteration. destruct (negb _); [done|].
    destruct (u64_checked_add _ _); [by split|done].
  - destruct IH. by split.
Qed.
End reachable.

Lemma compiled_sound root limits p :
  max_nodes limits < usize_max -> logic_compile_with_limits root limits = Ok p ->
  sound (program_root p) /\ program_limits p = limits.
Proof. intros Hm Hc. apply compile_Ok in Hc as (->&[_ _ Hn Hf]); done. Qed.

(** C9 The runner of a compiled program never corrupts itself: in every state it
    can be in, a step ends with a step or with an error of the user's plan,
    never with an [InvariantViolation], an index out of range or an exhausted
    loop. *)
Theorem logic_runner_never_corrupt root limits p r input :
  max_nodes limits < usize_max -> 0 <= max_transitions limits < usize_max ->
  logic_compile_with_limits root limits = Ok p -> reachable p r ->
  match (logic_step p input r).1 with
  | Ok _ => True
  | Err (Raised e) => forall detail, e <> InvariantViolation detail
  | Err Panic | OutOfFuel => False
  end.
Proof.
  intros Hn Ht Hc Hr. destruct (compiled_sound root limits p Hn Hc) as [Hs Hl]. rewrite <- Hl in Ht.
  pose proof (reachable_inv p sound sound_part (fun _ H => H) Hs Ht r Hr) as Hinv.
  destruct (step_inv p sound sound_part (fun _ H => H) r input Hs Hinv Ht) as [Hcl _].
  destruct (logic_step p input r).1 as [?|[[]|]|]; try done.
Qed.

Definition checked_tree : LogicNode :=
  LLoop 1 (Finite 2) [LIf 2 (VariableBoolean "go") true [LRandomOrder 3 [LSample 4; LSample 5]]].

Lemma logic_runner_never_corrupt_witness :
  let p := mkLogicProgram checked_tree logic_limits_default true in
  let r := set_variable "go" "yes" (logic_runner_new None) in
  match (logic_step p (mkLogicInput NextLoop None 0 (Some 7)) r).1 with
  | Ok _ => True
  | Err (Raised e) => forall detail, e <> InvariantViolation detail
  | Err Panic | OutOfFuel => False
  end.
Proof.
  apply (logic_runner_never_corrupt checked_tree logic_limits_default
           (mkLogicProgram checked_tree logic_limits_default true));
    [reflexivity|split; [discriminate|reflexivity]|vm_compute; reflexivity|].
  apply reach_set, reach_new.
Defined.
