(* ===== verification/LogicRandom.v ===== *)
(** * Random choices and shared throughput of the logic controllers

    When the runner of [Logic] asks for a random value, that the random-order
    controller deals every order of its children by exactly one sequence of
    choices, and how many visits a throughput controller admits when all users
    of a run share its counters. *)

From stdpp Require Import gmap.
From S2P Require Import Prelude Control Plan Random Wire Logic LogicTree LogicSafe LogicInv.

(** ** Who asks for a random value *)

Section asks.
Context (p : LogicProgram).

(** The processing of an item that never asks. *)
Definition never_asks (m : M (option LogicStep)) : Prop := forall s, (m s).1 <> Ok (Some StepNeedsRandom).

Lemma never_nothing : never_asks nothing.
Proof. by intros s. Qed.

Lemma never_fail e : never_asks (fail e).
Proof. by intros s. Qed.

Lemma never_bind {A} (m : M A) k : (forall a, never_asks (k a)) -> never_asks (st_bind m k).
Proof. intros Hk s. unfold st_bind. destruct (m s) as [[a|e|] s']; [apply Hk|done..]. Qed.

Lemma never_if (b : bool) m1 m2 : never_asks m1 -> never_asks m2 -> never_asks (if b then m1 else m2).
Proof. by destruct b. Qed.

Ltac never :=
  repeat first
    [ apply never_nothing | apply never_fail | apply never_bind; intros | apply never_if
    | progress cbv zeta | match goal with |- never_asks (match ?x with _ => _ end) => destruct x end
    | by intros s ].

Lemma several_not_one {A} (l : list A) : several l = false -> l <> [] -> length l = 1%nat.
Proof. unfold several. destruct l as [|x [|y l]]; [done|done|done]. Qed.

Definition item_draws (item : WorkItem) : bool :=
  match item with WNode node _ _ => draws node | _ => false end.

Lemma never_switch id sel ch path it :
  draws (LSwitch id sel ch) = false -> never_asks (process_switch id sel ch path it).
Proof.
  intros Hd. unfold process_switch. case_bool_decide as Hne; [apply never_nothing|].
  intros s. unfold switch_index. rewrite st_bind_assoc. destruct s as [r i]. run. cbv zeta.
  assert (Hpick : forall picked s, picked <> PickRandom -> ((match picked with
    | PickRandom => needs_random
    | PickNone => nothing
    | PickChild index =>
        match ch !! index with
        | None => nothing
        | Some child => enter_child id "SwitchController" child path it
        end
    end) s).1 <> Ok (Some StepNeedsRandom)).
  { intros [index| |] s Hp; try done. by destruct (ch !! index). }
  destruct sel as [v|name|name names|].
  - by apply (Hpick (PickChild _)).
  - by destruct (switch_numeric_index _ _); [apply (Hpick (PickChild _))|].
  - destruct (switch_numeric_index _ _); [by apply (Hpick (PickChild _))|].
    by destruct (switch_named_index _ _ _); [apply (Hpick (PickChild _)) | apply (Hpick PickNone)].
  - rewrite (several_not_one ch Hd Hne). cbn [Nat.eqb]. by apply (Hpick (PickChild _)).
Qed.

Lemma never_node node path it : draws node = false -> never_asks (process_node node path it).
Proof.
  intros Hd. destruct node; cbn [process_node];
    try (unfold process_sample, enter_children, process_loop, process_if, process_while,
           process_for_each, process_interleave, process_once_only, process_throughput,
           process_runtime, process_transaction, replace_node, process_critical_section,
           enter_child; solve [never]).
  - by apply never_switch.
  - unfold process_random. case_bool_decide as Hne; [apply never_nothing|].
    rewrite (several_not_one children Hd Hne). cbn [Nat.eqb]. intros [r i]. run.
    by destruct (children !! 0%nat).
  - destruct children as [|c [|c' l]]; try done.
Qed.

Lemma never_item item : item_draws item = false -> never_asks (process_item p item).
Proof.
  intros Hd. destruct item; cbn [process_item]; [by apply never_node|..].
  all: unfold process_loop_again, process_while_again, process_for_each_again, process_runtime_again; never.
Qed.

(** A tree in which no node draws. *)
Definition drawless (node : LogicNode) : Prop := sound node /\ Forall (fun n => draws n = false) (subnodes node).

Lemma drawless_part node child : drawless node -> child ∈ parts node -> drawless child.
Proof.
  intros [Hs Hd] Hc. split; [by eapply sound_part|].
  rewrite subnodes_eq, Forall_cons in Hd. destruct Hd as [_ Hd]. rewrite Forall_forall in *.
  intros n Hn. apply Hd, elem_of_concat. exists (subnodes child). split; [|done]. by apply list_elem_of_fmap_2.
Qed.

Lemma drawless_item item rest : item_ok drawless item rest -> item_draws item = false.
Proof.
  destruct item; try done. intros ((HQ&_)&_). cbn in *. rewrite Forall_singleton in HQ.
  destruct HQ as [_ Hd]. rewrite subnodes_eq, Forall_cons in Hd. apply Hd.
Qed.

Lemma transition_never r i :
  drawless (program_root p) -> inv drawless r -> (transition p (mkMachine r i)).1 <> Ok (Some StepNeedsRandom).
Proof.
  intros Hroot Hinv. unfold transition. run.
  set (r0 := with_transition_count _ r).
  assert (Hinv0 : inv drawless r0) by (destruct Hinv; by split).
  destruct (finished r0); [done|].
  destruct (start_root_inv p drawless drawless_part (fun _ H => proj1 H) r0 i Hroot Hinv0) as (r1&Hst&Hinv1&_).
  rewrite bind_eq, Hst. run. destruct (work r1) as [|item rest] eqn:Ew; [done|]. run.
  pose proof (inv_stack _ _ Hinv1) as Hs. rewrite Ew in Hs. destruct Hs as [Hi _].
  pose proof (never_item item (drawless_item item rest Hi) (mkMachine (with_work rest r1) i)) as Hn.
  unfold st_bind. destruct (process_item p item _) as [[[[]|]|e|] m]; try done.
Qed.

Lemma step_loop_never fuel : forall used r i,
  drawless (program_root p) -> inv drawless r -> if_check_pending r = false ->
  (logic_step_loop p fuel used (mkMachine r i)).1 <> Ok StepNeedsRandom.
Proof.
  induction fuel as [|fuel IH]; intros used r i Hroot Hinv Hif; [done|]. cbn [logic_step_loop]. cbv zeta.
  case_if; [done|]. pose proof (transition_never r i Hroot Hinv) as Hn.
  destruct (transition_ok p drawless drawless_part (fun _ H => proj1 H) r i Hroot Hinv Hif) as (_&Hinv'&Hif').
  unfold st_bind. destruct (transition p (mkMachine r i)) as [[[o|]|e|] [r' i']]; try done.
  - intros Heq. apply Hn. cbn in *. by simplify_eq.
  - by apply IH; [|apply Hinv'|apply Hif'].
Qed.

Lemma step_never r input :
  drawless (program_root p) -> inv drawless r -> (logic_step p input r).1 <> Ok StepNeedsRandom.
Proof.
  intros Hroot Hinv.
  assert (Hrun : (step_running p (mkMachine r input)).1 <> Ok StepNeedsRandom).
  { destruct (step_running_enters p drawless drawless_part (fun _ H => proj1 H) r input Hinv)
      as [(_&_&?)|(r'&i'&Hi&Hif&->)]; [done|]. by apply step_loop_never. }
  unfold logic_step, step_body. run. cbv zeta.
  destruct (terminal r); [by destruct (is_stop (in_signal input))|].
  destruct (is_stop (in_signal input)); [done|].
  by destruct (step_running p (mkMachine r input)).
Qed.
End asks.

(** A program whose [uses_random] is false never asks for a random value, in
    any state it can reach: a run without a random source is enough for it. *)
Theorem random_only_when_declared root limits p r input :
  max_nodes limits < usize_max -> 0 <= max_transitions limits < usize_max ->
  logic_compile_with_limits root limits = Ok p -> program_uses_random p = false -> reachable p r ->
  (logic_step p input r).1 <> Ok StepNeedsRandom.
Proof.
  intros Hn Ht Hc Hu Hr. apply compile_Ok in Hc as (->&[_ _ Hnd Hf]); [|done]. cbn in Hu.
  assert (Hd : drawless root).
  { split; [done|]. apply Forall_forall. intros n Hin. destruct (draws n) eqn:E; [|done].
    assert (existsb draws (subnodes root) = true); [|congruence].
    apply existsb_exists. exists n. split; [by apply list_elem_of_In|done]. }
  apply step_never; [done|].
  by eapply (reachable_inv _ drawless drawless_part (fun _ H => proj1 H)); [| |exact Hr].
Qed.

Lemma random_only_when_declared_witness :
  let p := mkLogicProgram (LLoop 1 Forever [LSample 2]) logic_limits_default false in
  (logic_step p (mkLogicInput NextLoop None 0 None) (logic_runner_new None)).1 <> Ok StepNeedsRandom.
Proof.
  apply (random_only_when_declared (LLoop 1 Forever [LSample 2]) logic_limits_default);
    [reflexivity|split; [discriminate|reflexivity]|vm_compute; reflexivity|reflexivity|apply reach_new].
Defined.

(** ** Shuffles *)

(** The shuffle of the random-order controller on its own: [choices] are the
    accepted indices, the first one below the number of children. *)
Fixpoint shuffled (remaining : nat) (order : list LogicNode) (choices : list nat) : list LogicNode :=
  match choices with
  | [] => order
  | c :: choices => shuffled (remaining - 1) (swap order c (remaining - 1)) choices
  end.

(** One choice below each of [remaining], [remaining - 1], ..., 2. *)
Fixpoint choices_ok (remaining : nat) (choices : list nat) : Prop :=
  match choices with
  | [] => (remaining <= 1)%nat
  | c :: choices => (1 < remaining)%nat /\ (c < remaining)%nat /\ choices_ok (remaining - 1) choices
  end.

Lemma swap_app_l {A} (l1 l2 : list A) i j :
  (i < length l1)%nat -> (j < length l1)%nat -> swap (l1 ++ l2) i j = swap l1 i j ++ l2.
Proof.
  intros Hi Hj. unfold swap. rewrite !lookup_app_l by done.
  destruct (lookup_lt_is_Some_2 l1 i Hi) as [x ->]. destruct (lookup_lt_is_Some_2 l1 j Hj) as [y ->].
  rewrite insert_app_l by done. rewrite insert_app_l by by rewrite length_insert. done.
Qed.

(** What is behind the remaining children stays. *)
Lemma shuffled_app remaining l1 l2 choices :
  length l1 = remaining -> choices_ok remaining choices ->
  shuffled remaining (l1 ++ l2) choices = shuffled remaining l1 choices ++ l2.
Proof.
  revert remaining l1 l2. induction choices as [|c choices IH]; intros remaining l1 l2 Hl Hc; [done|].
  destruct Hc as (H1&H2&H3). cbn [shuffled].
  rewrite swap_app_l by lia.
  destruct (swap l1 c (remaining - 1)) as [|x l _] eqn:E using rev_ind.
  { apply (f_equal length) in E. rewrite length_swap in E. cbn in E. lia. }
  assert (Hlen : length l = (remaining - 1)%nat).
  { apply (f_equal length) in E. rewrite length_swap, length_app in E. cbn in E. lia. }
  rewrite <- app_assoc, !IH by done. by rewrite <- app_assoc.
Qed.

Lemma shuffled_perm remaining order choices : shuffled remaining order choices ≡ₚ order.
Proof.
  revert remaining order. induction choices as [|c choices IH]; intros remaining order; [done|].
  cbn [shuffled]. by rewrite IH, swap_permutation.
Qed.

(** The last child of a swap is the one chosen. *)
Lemma swap_last (l : list LogicNode) c n x :
  length l = S n -> (c < S n)%nat -> l !! c = Some x ->
  exists l', swap l c n = l' ++ [x] /\ length l' = n /\ l ≡ₚ l' ++ [x].
Proof.
  intros Hl Hc Hx. destruct (swap l c n) as [|y l' _] eqn:E using rev_ind.
  { apply (f_equal length) in E. rewrite length_swap, Hl in E. done. }
  assert (Hlen : length l' = n).
  { apply (f_equal length) in E. rewrite length_swap, Hl, length_app in E. cbn in E. lia. }
  exists l'. assert (Hy : y = x).
  { assert (Hlook : swap l c n !! n = Some y) by (rewrite E, lookup_app_r, Hlen, Nat.sub_diag by lia; done).
    unfold swap in Hlook. rewrite Hx in Hlook.
    destruct (lookup_lt_is_Some_2 l n ltac:(lia)) as [z Hz]. rewrite Hz in Hlook.
    rewrite list_lookup_insert_eq in Hlook by (rewrite length_insert; lia). congruence. }
  subst. split; [done|]. split; [done|]. rewrite <- E. symmetry. apply swap_permutation.
Qed.

(** Every order is dealt by exactly one sequence of choices. *)
Lemma shuffled_bijective n : forall order target,
  length order = n -> NoDup order -> target ≡ₚ order ->
  exists choices, choices_ok n choices /\ shuffled n order choices = target /\
    forall choices', choices_ok n choices' -> shuffled n order choices' = target -> choices' = choices.
Proof.
  induction n as [|n IH]; intros order target Hl Hnd Hp.
  { exists []. apply nil_length_inv in Hl as ->. apply Permutation_nil_r in Hp as ->.
    split; [cbn; lia|]. split; [done|]. intros [|c l]; [done|]. cbn. lia. }
  destruct (decide (n = 0)%nat) as [->|Hn].
  { destruct order as [|x [|y order]]; [done| |done]. apply Permutation_singleton_r in Hp as ->.
    exists []. split; [cbn; lia|]. split; [done|]. intros [|c l]; [done|]. cbn. lia. }
  destruct target as [|x target _] using rev_ind; [apply Permutation_length in Hp; cbn in Hp; lia|].
  assert (Hx : x ∈ order) by (rewrite <- Hp; set_solver).
  apply list_elem_of_lookup_1 in Hx as [c Hc]. pose proof (lookup_lt_Some _ _ _ Hc) as Hlt.
  destruct (swap_last order c n x Hl ltac:(lia) Hc) as (l'&Hsw&Hl'&Hperm).
  assert (Hnd' : NoDup l') by (rewrite Hperm in Hnd; apply NoDup_app in Hnd; naive_solver).
  assert (Hp' : target ≡ₚ l').
  { apply (Permutation_app_inv_r [x]). by rewrite Hp. }
  destruct (IH l' target Hl' Hnd' Hp') as (choices&Hok&Hsh&Huniq).
  exists (c :: choices). cbn [choices_ok shuffled]. rewrite Nat.sub_succ, Nat.sub_0_r.
  split; [split_and!; [lia|lia|done]|]. split.
  { rewrite Hsw, shuffled_app by done. by rewrite Hsh. }
  intros [|c' rest'] Hok' Hsh'; [cbn in Hok'; lia|].
  cbn [choices_ok shuffled] in *. rewrite Nat.sub_succ, Nat.sub_0_r in *. destruct Hok' as (_&Hc'&Hok').
  destruct (lookup_lt_is_Some_2 order c' ltac:(lia)) as [y Hy].
  destruct (swap_last order c' n y Hl Hc' Hy) as (l2&Hsw2&Hl2&_).
  rewrite Hsw2, shuffled_app in Hsh' by done. apply app_inj_2 in Hsh' as [Hsh' [= ->]]; [|done].
  assert (Hcc : c' = c) by (eapply NoDup_lookup; [exact Hnd|exact Hy|exact Hc]). subst c'. rewrite Hsw in Hsw2.
  apply app_inj_2 in Hsw2 as [-> _]; [|done]. f_equal. by apply Huniq.
Qed.

(** A caller that feeds a random-order controller one value after another
    until it has scheduled its children. *)
Fixpoint feed (id : Z) (ch : list LogicNode) (path : list LogicCursor) (it : Z) (values : list Z)
    (r : LogicRunner) : option LogicRunner :=
  match values with
  | [] => None
  | v :: values =>
      match process_random_order id ch path it (mkMachine r (mkLogicInput Continue None 0 (Some v))) with
      | (Ok (Some StepNeedsRandom), m) => feed id ch path it values (m_runner m)
      | (Ok None, m) => match values with [] => Some (m_runner m) | _ => None end
      | _ => None
      end
  end.

(** The indices the values stand for, the rejected values left out. *)
Fixpoint accepted (remaining : nat) (values : list Z) : list nat :=
  match values with
  | [] => []
  | v :: values =>
      match uniform_choice v remaining with
      | None => accepted remaining values
      | Some c => c :: accepted (remaining - 1) values
      end
  end.

Section feeding.
Context (id : Z) (ch : list LogicNode) (path : list LogicCursor) (it : Z).
Context (Hch : several ch = true).

Definition order_path : list LogicCursor := path ++ [cursor id "RandomOrderController" it].

(** The pending shuffle, or the one that starts. *)
Definition holds_order (r : LogicRunner) (order : list LogicNode) (remaining : nat) : Prop :=
  pending_random_order r = Some (mkPending id order_path it order remaining) \/
  pending_random_order r = None /\ order = ch /\ remaining = length ch.

Definition shuffle_outcome (r : LogicRunner) (order : list LogicNode) (remaining : nat) :
    comp LogicControllerError (option LogicStep) * LogicRunner :=
  if Nat.ltb 1 remaining then
    (Ok (Some StepNeedsRandom), with_pending (Some (mkPending id order_path it order remaining)) r)
  else (Ok None, with_work (map (fun child => WNode child order_path it) order ++ work r) (with_pending None r)).

Lemma process_shuffle r order remaining v i :
  holds_order r order remaining -> (1 < remaining <= length order)%nat ->
  in_random_value i = Some v ->
  let res := process_random_order id ch path it (mkMachine r i) in
  (res.1, m_runner res.2) =
    match uniform_choice v remaining with
    | None => (Ok (Some StepNeedsRandom), with_pending (Some (mkPending id order_path it order remaining)) r)
    | Some c => shuffle_outcome r (swap order c (remaining - 1)) (remaining - 1)
    end.
Proof.
  intros Hr Hrem Hv. cbv zeta.
  set (r1 := with_pending (Some (mkPending id order_path it order remaining)) r).
  assert (Hrun : process_random_order id ch path it (mkMachine r i)
    = shuffle_step v (mkMachine r1 (mkLogicInput (in_signal i) (in_last_sample_success i) (in_elapsed i) None))).
  { destruct ch as [|c0 [|c1 l]] eqn:Ech; [done..|]. rewrite <- Ech in *.
    transitivity ((do! value <- take_random in
      match value with None => needs_random | Some value => shuffle_step value end)
      (mkMachine (if shuffling r id then r
                  else with_pending (Some (mkPending id order_path it ch (length ch))) r) i));
      [by rewrite Ech|].
    assert (Hr1 : (if shuffling r id then r
                   else with_pending (Some (mkPending id order_path it ch (length ch))) r) = r1).
    { unfold shuffling, r1. destruct Hr as [Hp|(Hp&->&->)]; rewrite Hp; [|done].
      cbn. rewrite Z.eqb_refl. destruct r. cbn in Hp. by subst. }
    rewrite Hr1. unfold take_random, st_bind. cbn [m_input m_runner]. by rewrite Hv. }
  rewrite Hrun. unfold shuffle_step. run. cbn [pending_random_order r1 with_pending po_remaining po_order po_path po_id po_iteration].
  destruct (uniform_choice v remaining) as [c|] eqn:Ec; [|done]. apply uniform_choice_lt in Ec.
  cbv zeta. unfold swap_order.
  destruct (Nat.ltb_spec c (length order)); [|lia].
  destruct (Nat.ltb_spec (remaining - 1) (length order)); [|lia]. cbn [andb]. run.
  unfold shuffle_outcome. by destruct (Nat.ltb 1 (remaining - 1)).
Qed.

Lemma choice_of_one v : 0 <= v -> uniform_choice v 1 = Some 0%nat.
Proof.
  intros Hv. unfold uniform_choice. cbn. rewrite !Z.mod_1_r.
  destruct (v <? 0) eqn:E; simpl_bool; [lia|done].
Qed.

Lemma feed_shuffles values : forall r order remaining,
  Forall (fun v => 0 <= v) values -> holds_order r order remaining -> (1 < remaining)%nat -> (remaining <= length order)%nat ->
  choices_ok remaining (accepted remaining values) ->
  feed id ch path it values r
  = Some (with_work (map (fun child => WNode child order_path it)
                       (shuffled remaining order (accepted remaining values)) ++ work r)
            (with_pending None r)).
Proof.
  induction values as [|v values IH]; intros r order remaining Hvs Hr Hrem Hlen Hok; [cbn in Hok; lia|].
  apply Forall_cons in Hvs as [Hv Hvs].
  cbn [feed accepted] in *.
  pose proof (process_shuffle r order remaining v (mkLogicInput Continue None 0 (Some v)) Hr
                ltac:(lia) eq_refl) as Hp. cbv zeta in Hp.
  destruct (process_random_order id ch path it _) as [o m]. cbn [fst snd] in Hp.
  destruct (uniform_choice v remaining) as [c|].
  - cbn [choices_ok shuffled] in *. destruct Hok as (_&Hc&Hok). unfold shuffle_outcome in Hp.
    destruct (Nat.ltb_spec 1 (remaining - 1)).
    + injection Hp as -> Hm. rewrite Hm.
      rewrite (IH _ (swap order c (remaining - 1)) (remaining - 1)%nat); [done|done|by left|done| |done].
      rewrite length_swap. lia.
    + injection Hp as -> Hm. rewrite Hm. assert (Hr1 : (remaining - 1 = 1)%nat) by lia.
      rewrite Hr1 in *. destruct values as [|v' values]; [done|].
      exfalso. apply Forall_cons in Hvs as [Hv' _]. cbn [accepted] in Hok.
      rewrite choice_of_one in Hok by done. cbn in Hok. lia.
  - injection Hp as -> Hm. rewrite Hm. rewrite (IH _ order remaining); [done|done|by left|done..].
Qed.
End feeding.



(** ** Throughput controllers of all users *)

(** Visits to all-user throughput controllers, by any users in any order, on
    the shared cell: each visit is [throughput_allow] of some user's runner.
    [config] gives the settings of a controller. *)
Fixpoint visits (config : Z -> ThroughputMode * Z * f64) (cell : gmap Z VisitCounters)
    (l : list (LogicRunner * LogicInput * Z)) : list (Z * bool) :=
  match l with
  | [] => []
  | (r, i, id) :: l =>
      let '(mode, limit, percent) := config id in
      match throughput_allow id mode limit percent false (mkMachine (with_shared_state (Some cell) r) i) with
      | (Ok allow, m) => (id, allow) :: visits config (default ∅ (shared_state (m_runner m))) l
      | _ => []
      end
  end.

Definition decisions (id : Z) (out : list (Z * bool)) : list bool :=
  omap (fun '(id', allow) => if id' =? id then Some allow else None) out.

Definition visits_of (id : Z) (l : list (LogicRunner * LogicInput * Z)) : nat :=
  length (filter (fun '(_, _, id') => id' = id) l).

(** The first visits, up to the limit, are admitted and no other. *)
Definition first_visits (admitted total : nat) : list bool :=
  replicate (Nat.min admitted total) true ++ replicate (total - admitted) false.

Lemma visits_cons config cell r i id mode limit percent l :
  config id = (mode, limit, percent) ->
  visits config cell ((r, i, id) :: l)
  = (id, (throughput_visit cell id mode limit percent).1)
    :: visits config (throughput_visit cell id mode limit percent).2 l.
Proof.
  intros Hc. cbn [visits]. rewrite Hc. unfold throughput_allow. run. cbn [negb].
  cbn [shared_state with_shared_state].
  by destruct (throughput_visit cell id mode limit percent) as [allow m].
Qed.

Lemma shared_total_from config id limit percent l : forall cell,
  config id = (Total, limit, percent) ->
  let e := executions (default visit_default (cell !! id)) in
  0 <= e -> e + Z.of_nat (visits_of id l) <= u64_max ->
  decisions id (visits config cell l) = first_visits (Z.to_nat (limit - e)) (visits_of id l).
Proof.
  induction l as [|[[r i] id'] l IH]; intros cell Hc e He Hn; [by destruct (Z.to_nat (limit - e))|].
  destruct (config id') as [[mode lim] pct] eqn:Ec.
  rewrite (visits_cons _ _ _ _ _ _ _ _ _ Ec). unfold decisions at 1. csimpl.
  destruct (decide (id' = id)) as [->|Hne].
  - rewrite Hc in Ec. simplify_eq. rewrite Z.eqb_refl.
    assert (Hv : visits_of id ((r, i, id) :: l) = S (visits_of id l))
      by (unfold visits_of; by rewrite filter_cons_True).
    rewrite Hv in *. unfold throughput_visit. cbn [fst snd throughput_decide].
    fold e. set (cell' := <[id := _]> cell).
    assert (He' : executions (default visit_default (cell' !! id))
                  = if e <? lim then u64_saturating_succ e else e)
      by (unfold cell'; rewrite lookup_insert_eq; done).
    change (omap _ (visits config cell' l)) with (decisions id (visits config cell' l)).
    rewrite (IH cell' Hc); rewrite He'; unfold u64_saturating_succ.
    + unfold first_visits. destruct (e <? lim) eqn:El; simpl_bool.
      * rewrite Z.min_l by lia.
        replace (Z.to_nat (lim - e)) with (S (Z.to_nat (lim - (e + 1)))) by lia. done.
      * replace (Z.to_nat (lim - e)) with 0%nat by lia. cbn. by rewrite Nat.sub_0_r.
    + destruct (e <? lim); lia.
    + destruct (e <? lim); lia.
  - apply Z.eqb_neq in Hne as Hne'. rewrite Hne'.
    assert (Hv : visits_of id ((r, i, id') :: l) = visits_of id l)
      by (unfold visits_of; by rewrite filter_cons_False).
    rewrite Hv in *. unfold throughput_visit. cbn [fst snd]. set (cell' := <[id' := _]> cell).
    assert (He' : cell' !! id = cell !! id) by (unfold cell'; by rewrite lookup_insert_ne).
    change (omap _ (visits config cell' l)) with (decisions id (visits config cell' l)).
    rewrite (IH cell' Hc); rewrite He'; done.
Qed.

(** A throughput controller in total mode, shared by all users of a run, admits
    exactly its first [limit] visits, whichever users make them and whatever
    other controllers are visited in between. *)
Theorem shared_throughput_total config id limit percent l :
  config id = (Total, limit, percent) -> Z.of_nat (visits_of id l) <= u64_max ->
  decisions id (visits config ∅ l) = first_visits (Z.to_nat limit) (visits_of id l).
Proof.
  intros Hc Hn. rewrite (shared_total_from config id limit percent l ∅ Hc); [|done|done].
  by rewrite Z.sub_0_r.
Qed.

Lemma shared_throughput_total_witness :
  let config (_ : Z) := (Total, 2, f64_of_u64 0) in
  let user := (logic_runner_new (Some ∅), mkLogicInput Continue None 0 None) in
  let l := [(user, 7); (user, 8); (user, 7); (user, 7)] in
  decisions 7 (visits config ∅ l) = [true; true; false].
Proof.
  apply (shared_throughput_total (fun _ => (Total, 2, f64_of_u64 0)) 7 2 (f64_of_u64 0)
    [(logic_runner_new (Some ∅), mkLogicInput Continue None 0 None, 7);
     (logic_runner_new (Some ∅), mkLogicInput Continue None 0 None, 8);
     (logic_runner_new (Some ∅), mkLogicInput Continue None 0 None, 7);
     (logic_runner_new (Some ∅), mkLogicInput Continue None 0 None, 7)]); [reflexivity|discriminate].
Defined.
