(* ===== verification/LogicPlay.v ===== *)
(** * What a controller tree plays

    A recursive reading of the logic controllers: [play] walks a tree and
    returns the samples it selects, in order, with the user's state after them
    and the number of transitions spent.  The stack machine of [Logic] is
    proved to do exactly this, sample by sample, whatever is below on its
    stack.  [play] covers the controllers whose course is fixed by the user's
    state: random choices, open-ended loops, the run-time controller and Ifs
    that are re-evaluated at every sample are left to [LogicInv]. *)

From stdpp Require Import gmap strings pretty.
From S2P Require Import Prelude Control Plan Random Wire Logic LogicTree LogicSafe.

(** ** The reading *)

(** The state after a walk, the samples selected and the transitions spent;
    [None] where the controllers are not covered or report an error. *)
Abbreviation walk := (option (LogicRunner * list LogicSelection * nat)).

Definition tick (r : LogicRunner) : LogicRunner :=
  with_transition_count (usize_saturating_succ (transition_count r)) r.

Definition quiet (r : LogicRunner) : walk := Some (r, [], 1%nat).

Definition and_then (w : walk) (k : LogicRunner -> walk) : walk :=
  '(r, out, n) ← w;
  '(r', out', n') ← k r;
  Some (r', out ++ out', (n + n')%nat).

Definition spend (w : walk) : walk :=
  '(r, out, n) ← w; Some (r, out, S n).

(** A controller that resumes: [decide] says, at its position [j], whether it
    ends or plays its body once more, at which iteration, and its position
    after that. *)
Section resume.
Context (decide : Z -> LogicRunner -> option (LogicRunner * option (Z * Z))).
Context (body : Z -> LogicRunner -> walk).

Fixpoint resume (fuel : nat) (j : Z) (r : LogicRunner) : walk :=
  match fuel with
  | O => None
  | S fuel =>
      match decide j (tick r) with
      | None => None
      | Some (r, None) => quiet r
      | Some (r, Some (iteration, j')) => spend (and_then (body iteration r) (resume fuel j'))
      end
  end.
End resume.

Definition decide_loop (total : Z) (j : Z) (r : LogicRunner) : option (LogicRunner * option (Z * Z)) :=
  next ← u64_checked_add j 1;
  Some (r, if total <=? next then None else Some (next, next)).

Definition holds (c : LogicCondition) (r : LogicRunner) (last : option bool) : option bool :=
  match evaluate c (variables r) last with Ok b => Some b | _ => None end.

Definition decide_while (c : LogicCondition) (maximum : Z) (last : option bool) (j : Z)
    (r : LogicRunner) : option (LogicRunner * option (Z * Z)) :=
  next ← u64_checked_add j 1;
  if maximum <=? next then Some (r, None)
  else enters ← holds c r last; Some (r, if enters : bool then Some (next, next) else None).

(** The element at [index], counted from zero, becomes the output variable. *)
Definition bind_next (id : Z) (pre out : string) (index : Z) (r : LogicRunner) : LogicRunner :=
  let value := default "" (variables r !! (pre +:+ "_" +:+ pretty (index + 1))) in
  with_loop_iterations (<[id := index + 1]> (loop_iterations r))
    (with_variables (<[out := value]> (variables r)) r).

Definition decide_for_each (id : Z) (pre out : string) (count index : Z) (r : LogicRunner) :
    option (LogicRunner * option (Z * Z)) :=
  Some (if count <=? index then (with_loop_iterations (<[id := 0]> (loop_iterations r)) r, None)
        else (bind_next id pre out index r, Some (index, index + 1))).

(** The position a switch selects, if any; [None] where it needs a random
    value or child names it does not have. *)
Definition switch_child (selection : SwitchSelection) (r : LogicRunner) (n : nat) :
    option (option nat) :=
  match selection with
  | SelectIndex i => Some (Some (if i <? Z.of_nat n then Z.to_nat i else 0%nat))
  | SelectVariable name =>
      i ← switch_numeric_index (default "" (variables r !! name)) n; Some (Some i)
  | SelectVariableWithNames name names =>
      let value := default "" (variables r !! name) in
      Some (match switch_numeric_index value n with
            | Some i => Some i
            | None => switch_named_index value names n
            end)
  | SelectRandom => if Nat.eqb n 1 then Some (Some 0%nat) else None
  end.

(** [OnceOnly], [Interleave] and [Throughput] as state changes. *)
Definition mark_once (id : Z) (r : LogicRunner) : LogicRunner :=
  with_once_done ({[id]} ∪ once_done r) r.

Definition interleave_at (id : Z) (r : LogicRunner) : Z := default 0 (interleave_next r !! id).

Definition advance_interleave (id : Z) (r : LogicRunner) : LogicRunner :=
  with_interleave_next (<[id := usize_saturating_succ (interleave_at id r)]> (interleave_next r)) r.

Definition admit_visit (id : Z) (mode : ThroughputMode) (limit : Z) (percent : f64) (per_user : bool)
    (r : LogicRunner) : option (bool * LogicRunner) :=
  if per_user then
    let '(allow, m) := throughput_visit (throughput r) id mode limit percent in
    Some (allow, with_throughput m r)
  else
    m ← shared_state r;
    let '(allow, m) := throughput_visit m id mode limit percent in
    Some (allow, with_shared_state (Some m) r).

Section play.
Context (last : option bool).

Fixpoint play (node : LogicNode) (path : list LogicCursor) (it : Z) (r : LogicRunner) : walk :=
  let fix all (l : list LogicNode) (path : list LogicCursor) (it : Z) (r : LogicRunner) : walk :=
    match l with
    | [] => Some (r, [], 0%nat)
    | n :: l => and_then (play n path it r) (all l path it)
    end in
  let fix nth (l : list LogicNode) (k : nat) (path : list LogicCursor) (r : LogicRunner) : walk :=
    match l, k with
    | [], _ => Some (r, [], 0%nat)
    | n :: _, O => play n path it r
    | _ :: l, S k => nth l k path r
    end in
  let r := tick r in
  match node with
  | LSample id => Some (r, [make_selection r id path], 1%nat)
  | LSequence id ch => spend (all ch (path ++ [cursor id "GenericController" it]) it r)
  | LRecording id ch => spend (all ch (path ++ [cursor id "RecordingController" it]) it r)
  | LLoop id (Finite total) ch =>
      let body j := all ch (path ++ [cursor id "LoopController" j]) j in
      if total =? 0 then quiet r
      else spend (and_then (body it r) (resume (decide_loop total) body (S (Z.to_nat total)) it))
  | LIf id c false ch =>
      enters ← holds c r last;
      if enters : bool then spend (all ch (path ++ [cursor id "IfController" it]) it r)
      else quiet (reset_if_state (collect_if_state_ids ch) r)
  | LWhile id c (Some maximum) ch =>
      let body j := all ch (path ++ [cursor id "WhileController" j]) j in
      if maximum =? 0 then quiet r
      else
        enters ← holds c r last;
        if enters : bool then
          spend (and_then (all ch (path ++ [cursor id "WhileController" it]) 0 r)
                   (resume (decide_while c maximum last) body (S (Z.to_nat maximum)) 0))
        else quiet r
  | LForEach id pre out ch =>
      count ← parse_usize (default "0" (variables r !! (pre +:+ "_matchNr")));
      let body j := all ch (path ++ [cursor id "ForeachController" j]) j in
      let index := default 0 (loop_iterations r !! id) in
      if count =? 0 then quiet r
      else if count <=? index then quiet (with_loop_iterations (<[id := 0]> (loop_iterations r)) r)
      else spend (and_then (body index (bind_next id pre out index r))
                    (resume (decide_for_each id pre out count) body (S (Z.to_nat count)) (index + 1)))
  | LSwitch id sel ch =>
      if bool_decide (ch = []) then quiet r
      else match switch_child sel r (length ch) with
           | Some (Some i) => spend (nth ch i (path ++ [cursor id "SwitchController" it]) r)
           | Some None => quiet r
           | None => None
           end
  | LInterleave id ch =>
      if bool_decide (ch = []) then quiet r
      else spend (nth ch (Z.to_nat (interleave_at id r mod Z.of_nat (length ch)))
                    (path ++ [cursor id "InterleaveControl" it]) (advance_interleave id r))
  | LOnceOnly id ch =>
      if bool_decide (id ∈ once_done r) then quiet r
      else spend (all ch (path ++ [cursor id "OnceOnlyController" it]) it (mark_once id r))
  | LThroughput id mode limit percent per_user ch =>
      '(allow, r) ← admit_visit id mode limit percent per_user r;
      if allow : bool then spend (all ch (path ++ [cursor id "ThroughputController" it]) it r)
      else quiet r
  | LTransaction id parent timers ch =>
      spend (all ch (path ++ [cursor id "TransactionController" it]) it
               (with_transaction_metadata (<[id := (parent, timers)]> (transaction_metadata r)) r))
  | LModule id (Some t) => spend (play t (path ++ [cursor id "ModuleController" it]) it r)
  | LInclude id (Some t) => spend (play t (path ++ [cursor id "IncludeController" it]) it r)
  | LCriticalSection id name ch =>
      if existsb (fun c => bool_decide (lc_kind c = lock_prefix +:+ name)) path then None
      else spend (all ch (path ++ [cursor id "CriticalSectionController" it;
                                   mkLogicCursor id (lock_prefix +:+ name) it]) it r)
  | _ => None
  end.

(** Several nodes in order, and one of several. *)
Fixpoint play_all (l : list LogicNode) (path : list LogicCursor) (it : Z) (r : LogicRunner) : walk :=
  match l with
  | [] => Some (r, [], 0%nat)
  | n :: l => and_then (play n path it r) (play_all l path it)
  end.

Definition play_nth (l : list LogicNode) (k : nat) (path : list LogicCursor) (it : Z)
    (r : LogicRunner) : walk :=
  match l !! k with Some n => play n path it r | None => Some (r, [], 0%nat) end.
End play.

(** ** Runs of the machine *)

Section machine.
Context (p : LogicProgram) (input : LogicInput).

(** In the middle of a walk, with no If to re-evaluate and no shuffle. *)
Record walking (r : LogicRunner) : Prop := {
  w_started : root_started r = true;
  w_finished : finished r = false;
  w_terminal : terminal r = None;
  w_ifs : active_ifs r = [];
  w_check : if_check_pending r = false;
  w_pending : pending_random_order r = None
}.

(** [n] transitions that select the samples [out]. *)
Inductive leads : LogicRunner -> list LogicSelection -> nat -> LogicRunner -> Prop :=
| leads_refl r : leads r [] 0 r
| leads_quiet r r1 r2 out n :
    transition p (mkMachine r input) = (Ok None, mkMachine r1 input) ->
    leads r1 out n r2 -> leads r out (S n) r2
| leads_sample r r1 r2 s out n :
    transition p (mkMachine r input) = (Ok (Some (StepSample s)), mkMachine r1 input) ->
    walking r1 -> leads r1 out n r2 -> leads r (s :: out) (S n) r2.

Lemma leads_chain r1 out1 n1 r2 out2 n2 r3 :
  leads r1 out1 n1 r2 -> leads r2 out2 n2 r3 -> leads r1 (out1 ++ out2) (n1 + n2) r3.
Proof. induction 1; cbn; eauto using leads. Qed.

Lemma walking_work r w : walking r -> walking (with_work w r).
Proof. by intros []. Qed.
Lemma walking_tick r : walking r -> walking (tick r).
Proof. by intros []. Qed.

(** One item taken off the stack without a sample. *)
Lemma transition_quiet r item rest r1 :
  walking r -> process_item p item (mkMachine (with_work rest (tick r)) input) = (Ok None, mkMachine r1 input) ->
  transition p (mkMachine (with_work (item :: rest) r) input) = (Ok None, mkMachine r1 input).
Proof.
  intros Hw Hp. unfold transition. run.
  change (finished (with_transition_count _ _)) with (finished r). rewrite (w_finished _ Hw).
  unfold start_root. run. change (root_started (with_transition_count _ _)) with (root_started r).
  rewrite (w_started _ Hw). cbn [work with_work with_transition_count]. run.
  rewrite bind_eq.
  change (with_work rest _) with (with_work rest (tick r)). by rewrite Hp.
Qed.

Lemma with_if_check_same r : if_check_pending r = false -> with_if_check false r = r.
Proof. destruct r. by intros [= ->]. Qed.

Lemma transition_sample r id path it rest :
  walking r ->
  transition p (mkMachine (with_work (WNode (LSample id) path it :: rest) r) input)
  = (Ok (Some (StepSample (make_selection (tick r) id path))), mkMachine (with_work rest (tick r)) input).
Proof.
  intros Hw. unfold transition. run.
  change (finished (with_transition_count _ _)) with (finished r). rewrite (w_finished _ Hw).
  unfold start_root. run. change (root_started (with_transition_count _ _)) with (root_started r).
  rewrite (w_started _ Hw). cbn [work with_work with_transition_count]. run.
  rewrite bind_eq. cbn [process_item process_node]. unfold process_sample. run.
  cbn [st_ret]. unfold st_ret. run.
  change (active_ifs (with_work rest _)) with (active_ifs r). rewrite (w_ifs _ Hw).
  rewrite bool_decide_true by done. cbn [negb]. rewrite with_if_check_same by apply Hw. done.
Qed.

Lemma leads_item r item rest r1 out n r2 :
  walking r -> process_item p item (mkMachine (with_work rest (tick r)) input) = (Ok None, mkMachine r1 input) ->
  leads r1 out n r2 -> leads (with_work (item :: rest) r) out (S n) r2.
Proof. intros Hw Hp Hl. eapply leads_quiet; [by apply transition_quiet|done]. Qed.

(** ** The machine performs the walk *)

(** From [r], the items on top of any stack are consumed with the effect of
    the walk. *)
Definition performs (w : walk) (items : list WorkItem) (r : LogicRunner) : Prop :=
  forall r' out n, w = Some (r', out, n) -> walking r ->
    walking r' /\ forall rest, leads (with_work (items ++ rest) r) out n (with_work rest r').

Lemma performs_nil r : performs (Some (r, [], 0%nat)) [] r.
Proof. intros r' out n [= <- <- <-] Hw. split; [done|]. intros rest. constructor. Qed.

Lemma performs_None items r : performs None items r.
Proof. by intros ????. Qed.

Lemma performs_then w k items1 items2 r :
  performs w items1 r -> (forall r1, performs (k r1) items2 r1) ->
  performs (and_then w k) (items1 ++ items2) r.
Proof.
  intros Hw Hk r' out n He Hr. unfold and_then in He.
  apply bind_Some in He as ([[r1 out1] n1]&H1&He). apply bind_Some in He as ([[r2 out2] n2]&H2&[= <- <- <-]).
  destruct (Hw _ _ _ H1 Hr) as [Hr1 Hl1]. destruct (Hk _ _ _ _ H2 Hr1) as [Hr2 Hl2].
  split; [done|]. intros rest. rewrite <- app_assoc. eapply leads_chain; [apply Hl1|apply Hl2].
Qed.

(** Processing [item] from [r] leaves [items] on the stack and the state [r1]. *)
Definition expands (item : WorkItem) (r : LogicRunner) (items : list WorkItem) (r1 : LogicRunner) : Prop :=
  (walking r -> walking r1) /\
  forall rest, process_item p item (mkMachine (with_work rest (tick r)) input)
               = (Ok None, mkMachine (with_work (items ++ rest) r1) input).

Lemma performs_spend w item items r r1 :
  expands item r items r1 -> performs w items r1 -> performs (spend w) [item] r.
Proof.
  intros [Hr1 Hp] Hw r' out n He Hr. unfold spend in He.
  apply bind_Some in He as ([[r2 out2] n2]&H2&[= <- <- <-]).
  destruct (Hw _ _ _ H2 (Hr1 Hr)) as [Hr2 Hl]. split; [done|]. intros rest.
  eapply leads_item; [done|apply Hp|apply Hl].
Qed.

Lemma performs_quiet item r r1 : expands item r [] r1 -> performs (quiet r1) [item] r.
Proof.
  intros [Hr1 Hp] r' out n [= <- <- <-] Hr. split; [by apply Hr1|]. intros rest.
  eapply leads_item; [done|apply Hp|constructor].
Qed.

(** A resuming controller, its marker being [mk c j] after an iteration [c]. *)
Lemma performs_resume decide body mk (items : Z -> list WorkItem) :
  (forall c j r r1, decide j (tick r) = Some (r1, None) -> expands (mk c j) r [] r1) ->
  (forall c j r r1 it j', decide j (tick r) = Some (r1, Some (it, j')) ->
     expands (mk c j) r (items it ++ [mk it j']) r1) ->
  (forall it r, performs (body it r) (items it) r) ->
  forall fuel c j r, performs (resume decide body fuel j r) [mk c j] r.
Proof.
  intros Hend Hagain Hbody. induction fuel as [|fuel IH]; intros c j r; [apply performs_None|].
  cbn [resume]. destruct (decide j (tick r)) as [[r1 [[it j']|]]|] eqn:Ed; [| |apply performs_None].
  - eapply performs_spend; [by eapply Hagain|]. by apply performs_then.
  - by apply performs_quiet, (Hend c j).
Qed.

Lemma update_last_cursor path id kind c n :
  update_cursor_iteration (path ++ [cursor id kind c]) id kind n = Ok (path ++ [cursor id kind n]).
Proof.
  unfold update_cursor_iteration. rewrite reverse_snoc. cbn [update_first].
  cbn [lc_id lc_kind cursor]. rewrite Z.eqb_refl, bool_decide_true by done. cbn [andb].
  by rewrite reverse_cons, reverse_involutive.
Qed.

(** The children of a controller under a path. *)
Definition items_of (ch : list LogicNode) (path : list LogicCursor) (it : Z) : list WorkItem :=
  map (fun child => WNode child path it) ch.

Lemma schedule_runs ch path it marker r i :
  (schedule_children ch path it marker ;! nothing) (mkMachine r i)
  = (Ok None, mkMachine (with_work (items_of ch path it ++ option_list marker ++ work r) r) i).
Proof. done. Qed.

Abbreviation last := (in_last_sample_success input).
Abbreviation playable node :=
  (forall path it r, performs (play last node path it r) [WNode node path it] r) (only parsing).

Lemma all_performs ch : Forall (fun n => playable n) ch ->
  forall path it r, performs (play_all last ch path it r) (items_of ch path it) r.
Proof.
  induction 1 as [|n ch Hn _ IH]; intros path it r; [apply performs_nil|].
  apply (performs_then _ _ [WNode n path it]); [apply Hn | intros; apply IH].
Qed.

Lemma nth_performs ch k : Forall (fun n => playable n) ch ->
  forall path it r, performs (play_nth last ch k path it r) (items_of (option_list (ch !! k)) path it) r.
Proof.
  intros Hch path it r. unfold play_nth. destruct (ch !! k) as [n|] eqn:En; [|apply performs_nil].
  rewrite Forall_lookup in Hch. by apply (Hch k n).
Qed.

Lemma nth_eq last it ch : forall k path r,
  (fix nth (l : list LogicNode) (k : nat) (path : list LogicCursor) (r : LogicRunner) : walk :=
    match l, k with
    | [], _ => Some (r, [], 0%nat)
    | n :: _, O => play last n path it r
    | _ :: l, S k => nth l k path r
    end) ch k path r = play_nth last ch k path it r.
Proof. induction ch as [|n ch IH]; by intros [|k] path r. Qed.

Lemma eval_runs (c : LogicCondition) (k : bool -> M (option LogicStep)) r rest b :
  holds c r last = Some b ->
  st_bind (eval_condition c) k (mkMachine (with_work rest r) input)
  = k b (mkMachine (with_work rest r) input).
Proof.
  intros Hb. unfold eval_condition. rewrite st_bind_assoc. run. rewrite st_bind_assoc. run.
  change (variables (with_work rest r)) with (variables r).
  unfold holds in Hb. destruct (evaluate _ _ _); simplify_eq. by run.
Qed.

Lemma loop_performs id total ch : Forall (fun n => playable n) ch -> playable (LLoop id (Finite total) ch).
Proof.
  intros Hch path it r.
  change (performs
    (let body j := play_all last ch (path ++ [cursor id "LoopController" j]) j in
     if total =? 0 then quiet (tick r)
     else spend (and_then (body it (tick r)) (resume (decide_loop total) body (S (Z.to_nat total)) it)))
    [WNode (LLoop id (Finite total) ch) path it] r).
  cbv zeta. destruct (total =? 0) eqn:Et; simpl_bool.
  - apply performs_quiet. split; [apply walking_tick|]. intros rest. subst. done.
  - set (mk := fun c j => WLoopAgain id (Finite total) ch (path ++ [cursor id "LoopController" c]) j).
    eapply (performs_spend _ _ (items_of ch (path ++ [cursor id "LoopController" it]) it ++ [mk it it])).
    { split; [apply walking_tick|]. intros rest. cbn [process_item process_node]. unfold process_loop.
      rewrite bool_decide_false by congruence. rewrite schedule_runs. cbn [option_list].
      by rewrite <- app_assoc. }
    apply performs_then; [by apply all_performs|]. intros r1.
    apply (performs_resume _ _ mk (fun j => items_of ch (path ++ [cursor id "LoopController" j]) j)).
    + intros c j r2 r3. unfold decide_loop. intros (next&Hn&Hd)%bind_Some.
      destruct (total <=? next) eqn:E; simplify_eq. split; [apply walking_tick|]. intros rest.
      unfold mk. cbn [process_item]. unfold process_loop_again, next_iteration. rewrite st_bind_assoc. run.
      rewrite Hn. cbn [ok_or]. run. cbn [finite_count]. by rewrite E.
    + intros c j r2 r3 it' j'. unfold decide_loop. intros (next&Hn&Hd)%bind_Some.
      destruct (total <=? next) eqn:E; simplify_eq. split; [apply walking_tick|]. intros rest.
      unfold mk. cbn [process_item]. unfold process_loop_again, next_iteration. rewrite st_bind_assoc. run.
      rewrite Hn. cbn [ok_or]. run. cbn [finite_count]. rewrite E, update_last_cursor. run.
      rewrite schedule_runs. cbn [option_list]. by rewrite <- app_assoc.
    + intros. by apply all_performs.
Qed.

Lemma while_resumes id c maximum ch path : Forall (fun n => playable n) ch ->
  forall fuel c0 j r, performs
    (resume (decide_while c maximum last)
       (fun j => play_all last ch (path ++ [cursor id "WhileController" j]) j) fuel j r)
    [WWhileAgain id c (Some maximum) ch (path ++ [cursor id "WhileController" c0]) j] r.
Proof.
  intros Hch.
  apply (performs_resume _ _
    (fun c0 j => WWhileAgain id c (Some maximum) ch (path ++ [cursor id "WhileController" c0]) j)
    (fun j => items_of ch (path ++ [cursor id "WhileController" j]) j)).
  - intros c0 j r r1. unfold decide_while. intros (next&Hn&Hd)%bind_Some.
    assert (Hst : r1 = tick r /\ (maximum <=? next = true \/
      maximum <=? next = false /\ holds c (tick r) last = Some false)).
    { destruct (maximum <=? next); simplify_eq; [by auto|].
      apply bind_Some in Hd as (b&Hb&Hd). destruct b; simplify_eq. auto. }
    destruct Hst as [-> Hst]. split; [apply walking_tick|]. intros rest.
    cbn [process_item]. unfold process_while_again, next_iteration. rewrite st_bind_assoc. run.
    rewrite Hn. cbn [ok_or]. run. destruct Hst as [->|[-> Hb]]; [by run|].
    rewrite st_bind_assoc, (eval_runs c _ (tick r) rest false Hb). by run.
  - intros c0 j r r1 it j'. unfold decide_while. intros (next&Hn&Hd)%bind_Some.
    destruct (maximum <=? next) eqn:E; [done|]. apply bind_Some in Hd as (b&Hb&Hd).
    destruct b; simplify_eq. split; [apply walking_tick|]. intros rest.
    cbn [process_item]. unfold process_while_again, next_iteration. rewrite st_bind_assoc. run.
    rewrite Hn. cbn [ok_or]. run. rewrite E, st_bind_assoc, (eval_runs c _ (tick r) rest true Hb). run. cbn [negb].
    rewrite update_last_cursor. run. rewrite schedule_runs. cbn [option_list]. by rewrite <- app_assoc.
  - intros. by apply all_performs.
Qed.

Lemma while_performs id c maximum ch :
  Forall (fun n => playable n) ch -> playable (LWhile id c (Some maximum) ch).
Proof.
  intros Hch path it r.
  change (performs
    (if maximum =? 0 then quiet (tick r)
     else
       enters ← holds c (tick r) last;
       if enters : bool then
         spend (and_then (play_all last ch (path ++ [cursor id "WhileController" it]) 0 (tick r))
                  (resume (decide_while c maximum last)
                     (fun j => play_all last ch (path ++ [cursor id "WhileController" j]) j)
                     (S (Z.to_nat maximum)) 0))
       else quiet (tick r)) [WNode (LWhile id c (Some maximum) ch) path it] r).
  destruct (maximum =? 0) eqn:Em; simpl_bool.
  { subst. apply performs_quiet. by split; [apply walking_tick|]. }
  destruct (holds c (tick r) last) as [b|] eqn:Eb; [|apply performs_None]. cbn [mbind option_bind].
  assert (Hrun : forall rest, process_item p (WNode (LWhile id c (Some maximum) ch) path it)
    (mkMachine (with_work rest (tick r)) input)
    = (if negb b then nothing
       else schedule_children ch (path ++ [cursor id "WhileController" it]) 0
              (Some (WWhileAgain id c (Some maximum) ch (path ++ [cursor id "WhileController" it]) 0)) ;!
            nothing) (mkMachine (with_work rest (tick r)) input)).
  { intros rest. cbn [process_item process_node]. unfold process_while.
    rewrite bool_decide_false by congruence. by rewrite (eval_runs c _ (tick r) rest b Eb). }
  destruct b; [|apply performs_quiet; split; [apply walking_tick|]; intros rest; by rewrite Hrun].
  eapply (performs_spend _ _ (items_of ch (path ++ [cursor id "WhileController" it]) 0 ++
    [WWhileAgain id c (Some maximum) ch (path ++ [cursor id "WhileController" it]) 0])).
  { split; [apply walking_tick|]. intros rest. rewrite Hrun. cbn [negb]. rewrite schedule_runs.
    cbn [option_list]. by rewrite <- app_assoc. }
  apply performs_then; [by apply all_performs|]. intros r1. by apply while_resumes.
Qed.

Lemma saturating_small n m : n < m -> m <= usize_max -> usize_saturating_succ n = n + 1.
Proof. unfold usize_saturating_succ. lia. Qed.

Lemma for_each_resumes id pre out count ch path : count <= usize_max ->
  Forall (fun n => playable n) ch ->
  forall fuel c0 j r, performs
    (resume (decide_for_each id pre out count)
       (fun j => play_all last ch (path ++ [cursor id "ForeachController" j]) j) fuel j r)
    [WForEachAgain id pre out count ch (path ++ [cursor id "ForeachController" c0]) j] r.
Proof.
  intros Hmax Hch.
  apply (performs_resume _ _
    (fun c0 j => WForEachAgain id pre out count ch (path ++ [cursor id "ForeachController" c0]) j)
    (fun j => items_of ch (path ++ [cursor id "ForeachController" j]) j)).
  - intros c0 j r r1. unfold decide_for_each. intros [= Hd].
    destruct (count <=? j) eqn:E; simplify_eq. split; [by intros []|]. intros rest.
    cbn [process_item]. unfold process_for_each_again. by rewrite E.
  - intros c0 j r r1 it j'. unfold decide_for_each. intros [= Hd].
    destruct (count <=? j) eqn:E; simplify_eq. split; [by intros []|]. intros rest.
    cbn [process_item]. unfold process_for_each_again, bind_element. rewrite E. simpl_bool. run.
    rewrite (saturating_small it count) by done. rewrite update_last_cursor. run.
    rewrite schedule_runs. cbn [option_list]. by rewrite <- app_assoc.
  - intros. by apply all_performs.
Qed.

Lemma parse_usize_max s n : parse_usize s = Some n -> n <= usize_max.
Proof.
  unfold parse_usize, parse_unsigned. intros (m&_&H)%bind_Some. case_if; simplify_eq. done.
Qed.

Lemma for_each_performs id pre out ch :
  Forall (fun n => playable n) ch -> playable (LForEach id pre out ch).
Proof.
  intros Hch path it r.
  change (performs
    (count ← parse_usize (default "0" (variables r !! (pre +:+ "_matchNr")));
     let index := default 0 (loop_iterations r !! id) in
     if count =? 0 then quiet (tick r)
     else if count <=? index
     then quiet (with_loop_iterations (<[id := 0]> (loop_iterations r)) (tick r))
     else spend (and_then (play_all last ch (path ++ [cursor id "ForeachController" index]) index
                             (bind_next id pre out index (tick r)))
            (resume (decide_for_each id pre out count)
               (fun j => play_all last ch (path ++ [cursor id "ForeachController" j]) j)
               (S (Z.to_nat count)) (index + 1))))
    [WNode (LForEach id pre out ch) path it] r).
  destruct (parse_usize _) as [count|] eqn:Ec; [|apply performs_None]. cbn [mbind option_bind]. cbv zeta.
  set (index := default 0 (loop_iterations r !! id)).
  assert (Hrun : forall rest, process_item p (WNode (LForEach id pre out ch) path it)
    (mkMachine (with_work rest (tick r)) input)
    = (if count =? 0 then nothing
       else if count <=? index
       then update (fun r => with_loop_iterations (<[id := 0]> (loop_iterations r)) r) ;! nothing
       else
         bind_element pre out (u64_saturating_succ index) ;!
         update (fun r => with_loop_iterations (<[id := u64_saturating_succ index]> (loop_iterations r)) r) ;!
         schedule_children ch (path ++ [cursor id "ForeachController" index]) index
           (Some (WForEachAgain id pre out count ch (path ++ [cursor id "ForeachController" index]) (index + 1))) ;!
         nothing) (mkMachine (with_work rest (tick r)) input)).
  { intros rest. cbn [process_item process_node]. unfold process_for_each. run.
    change (variables (with_work _ _)) with (variables r). rewrite Ec. cbn [ok_or]. by run. }
  destruct (count =? 0); [apply performs_quiet; split; [apply walking_tick|]; intros rest; by rewrite Hrun|].
  destruct (count <=? index) eqn:E; simpl_bool.
  { apply performs_quiet. split; [by intros []|]. intros rest. by rewrite Hrun. }
  pose proof (parse_usize_max _ _ Ec) as Hmax.
  apply (performs_spend _ _ (items_of ch (path ++ [cursor id "ForeachController" index]) index ++
    [WForEachAgain id pre out count ch (path ++ [cursor id "ForeachController" index]) (index + 1)])
    r (bind_next id pre out index (tick r))).
  { split; [by intros []|]. intros rest. rewrite Hrun. unfold bind_element. run.
    assert (Hs : u64_saturating_succ index = index + 1)
      by (unfold u64_saturating_succ; unfold usize_max in Hmax; lia).
    rewrite Hs, schedule_runs. cbn [option_list]. by rewrite <- app_assoc. }
  apply performs_then; [by apply all_performs|]. intros r1. by apply for_each_resumes.
Qed.

(** The controllers that enter their children once: [r1] is the user's state
    at that point. *)
Lemma enter_all_performs node id kind ch path it r r1 : Forall (fun n => playable n) ch ->
  (walking r -> walking r1) ->
  (forall rest, process_node node path it (mkMachine (with_work rest (tick r)) input)
     = enter_children id kind ch path it (mkMachine (with_work rest r1) input)) ->
  performs (spend (play_all last ch (path ++ [cursor id kind it]) it r1)) [WNode node path it] r.
Proof.
  intros Hch Hw Hrun. eapply performs_spend; [|by apply all_performs].
  split; [exact Hw|]. intros rest. cbn [process_item]. by rewrite Hrun.
Qed.

Lemma enter_nth_performs node id kind ch k path it r r1 : Forall (fun n => playable n) ch ->
  (walking r -> walking r1) ->
  (forall rest, process_node node path it (mkMachine (with_work rest (tick r)) input)
     = (match ch !! k with Some child => enter_child id kind child path it | None => nothing end)
         (mkMachine (with_work rest r1) input)) ->
  performs (spend (play_nth last ch k (path ++ [cursor id kind it]) it r1)) [WNode node path it] r.
Proof.
  intros Hch Hw Hrun. eapply performs_spend; [|by apply nth_performs].
  split; [exact Hw|]. intros rest. cbn [process_item]. rewrite Hrun. by destruct (ch !! k).
Qed.

Lemma quiet_performs node path it r r1 :
  (walking r -> walking r1) ->
  (forall rest, process_node node path it (mkMachine (with_work rest (tick r)) input)
     = (Ok None, mkMachine (with_work rest r1) input)) ->
  performs (quiet r1) [WNode node path it] r.
Proof. intros Hw Hrun. by apply performs_quiet. Qed.

Lemma if_performs id c ch : Forall (fun n => playable n) ch -> playable (LIf id c false ch).
Proof.
  intros Hch path it r.
  change (performs
    (enters ← holds c (tick r) last;
     if enters : bool then spend (play_all last ch (path ++ [cursor id "IfController" it]) it (tick r))
     else quiet (reset_if_state (collect_if_state_ids ch) (tick r)))
    [WNode (LIf id c false ch) path it] r).
  destruct (holds c (tick r) last) as [[|]|] eqn:Eb; [| |apply performs_None]; cbn [mbind option_bind].
  - apply enter_all_performs; [done|apply walking_tick|]. intros rest. cbn [process_node]. unfold process_if.
    by rewrite (eval_runs c _ (tick r) rest true Eb).
  - apply quiet_performs.
    + intros [? ? ? ? ? Hp]. split; try done. cbn. by rewrite Hp.
    + intros rest. cbn [process_node]. unfold process_if. by rewrite (eval_runs c _ (tick r) rest false Eb).
Qed.

Lemma switch_runs id sel n r rest picked (k : Picked -> M (option LogicStep)) :
  switch_child sel r n = Some picked ->
  st_bind (switch_index id sel n) k (mkMachine (with_work rest r) input)
  = k (match picked with Some i => PickChild i | None => PickNone end) (mkMachine (with_work rest r) input).
Proof.
  unfold switch_child, switch_index. rewrite st_bind_assoc. run. cbv zeta.
  change (variables (with_work rest r)) with (variables r).
  destruct sel as [i|name|name names|]; intros Hp.
  - simplify_eq. by run.
  - apply bind_Some in Hp as (i&->&[= <-]). by run.
  - simplify_eq. destruct (switch_numeric_index _ _); [by run|]. by destruct (switch_named_index _ _ _); run.
  - destruct (Nat.eqb n 1); simplify_eq. by run.
Qed.

Lemma switch_performs id sel ch : Forall (fun n => playable n) ch -> playable (LSwitch id sel ch).
Proof.
  intros Hch path it r. cbn [play]. cbv zeta.
  case_bool_decide as Hne.
  { apply quiet_performs; [apply walking_tick|]. intros rest. cbn [process_node]. unfold process_switch.
    by rewrite bool_decide_true. }
  destruct (switch_child sel (tick r) (length ch)) as [[i|]|] eqn:Es; [| |apply performs_None].
  - rewrite nth_eq. apply enter_nth_performs; [done|apply walking_tick|]. intros rest.
    cbn [process_node]. unfold process_switch. rewrite bool_decide_false by done.
    by rewrite (switch_runs id sel _ _ rest _ _ Es).
  - apply quiet_performs; [apply walking_tick|]. intros rest. cbn [process_node]. unfold process_switch.
    rewrite bool_decide_false by done. by rewrite (switch_runs id sel _ _ rest _ _ Es).
Qed.

Lemma interleave_performs id ch : Forall (fun n => playable n) ch -> playable (LInterleave id ch).
Proof.
  intros Hch path it r. cbn [play]. cbv zeta. case_bool_decide as Hne.
  { apply quiet_performs; [apply walking_tick|]. intros rest. cbn [process_node]. unfold process_interleave.
    by rewrite bool_decide_true. }
  rewrite nth_eq. apply enter_nth_performs; [done|by intros []|]. intros rest.
  cbn [process_node]. unfold process_interleave. rewrite bool_decide_false by done. run. cbv zeta.
  change (default 0 (interleave_next (with_work rest (tick r)) !! id)) with (interleave_at id (tick r)).
  assert (Hl : (0 < length ch)%nat) by (destruct ch; [done|cbn; lia]).
  destruct (lookup_lt_is_Some_2 ch (Z.to_nat (interleave_at id (tick r) mod Z.of_nat (length ch))))
    as [child Hc].
  { pose proof (Z.mod_pos_bound (interleave_at id (tick r)) (Z.of_nat (length ch))). lia. }
  rewrite Hc. by run.
Qed.

Lemma once_performs id ch : Forall (fun n => playable n) ch -> playable (LOnceOnly id ch).
Proof.
  intros Hch path it r.
  change (performs
    (if bool_decide (id ∈ once_done (tick r)) then quiet (tick r)
     else spend (play_all last ch (path ++ [cursor id "OnceOnlyController" it]) it (mark_once id (tick r))))
    [WNode (LOnceOnly id ch) path it] r).
  destruct (bool_decide (id ∈ once_done (tick r))) eqn:Eo.
  - apply quiet_performs; [apply walking_tick|]. intros rest. cbn [process_node]. unfold process_once_only. run.
    change (once_done (with_work rest (tick r))) with (once_done (tick r)). by rewrite Eo.
  - apply enter_all_performs; [done|by intros []|]. intros rest. cbn [process_node].
    unfold process_once_only. run.
    change (once_done (with_work rest (tick r))) with (once_done (tick r)). rewrite Eo. by run.
Qed.

Lemma allow_runs id mode limit percent user r rest allow r1 (k : bool -> M (option LogicStep)) :
  admit_visit id mode limit percent user r = Some (allow, r1) ->
  st_bind (throughput_allow id mode limit percent user) k (mkMachine (with_work rest r) input)
  = k allow (mkMachine (with_work rest r1) input).
Proof.
  intros Ha. unfold throughput_allow. rewrite st_bind_assoc. run. unfold admit_visit in Ha.
  change (shared_state (with_work rest r)) with (shared_state r).
  change (throughput (with_work rest r)) with (throughput r).
  destruct user; cbn [negb].
  - destruct (throughput_visit _ _ _ _ _) as [a m]. simplify_eq. rewrite st_bind_assoc. by run.
  - destruct (shared_state r) as [m0|]; [|done]. cbn [mbind option_bind] in Ha.
    destruct (throughput_visit _ _ _ _ _) as [a m]. simplify_eq. rewrite st_bind_assoc. by run.
Qed.

Lemma admit_walking id mode limit percent user r allow r1 :
  admit_visit id mode limit percent user r = Some (allow, r1) -> walking r -> walking r1.
Proof.
  unfold admit_visit. destruct user; [|destruct (shared_state r); [|done]; cbn [mbind option_bind]].
  all: destruct (throughput_visit _ _ _ _ _); intros [= <- <-]; by intros [].
Qed.

Lemma throughput_performs id mode limit percent user ch :
  Forall (fun n => playable n) ch -> playable (LThroughput id mode limit percent user ch).
Proof.
  intros Hch path it r.
  change (performs
    ('(allow, r) ← admit_visit id mode limit percent user (tick r);
     if allow : bool then spend (play_all last ch (path ++ [cursor id "ThroughputController" it]) it r)
     else quiet r) [WNode (LThroughput id mode limit percent user ch) path it] r).
  destruct (admit_visit id mode limit percent user (tick r)) as [[allow r1]|] eqn:Ea;
    [|apply performs_None]. cbn [mbind option_bind].
  assert (Hw : walking r -> walking r1).
  { intros Hr. by eapply admit_walking, walking_tick. }
  destruct allow.
  - apply enter_all_performs; [done..|]. intros rest. cbn [process_node]. unfold process_throughput.
    by rewrite (allow_runs _ _ _ _ _ _ rest _ _ _ Ea).
  - apply quiet_performs; [done|]. intros rest. cbn [process_node]. unfold process_throughput.
    by rewrite (allow_runs _ _ _ _ _ _ rest _ _ _ Ea).
Qed.

Lemma replace_performs node id kind t : playable t ->
  (forall path it, process_node node path it = replace_node id kind (Some t) path it) ->
  forall path it r, performs (spend (play last t (path ++ [cursor id kind it]) it (tick r)))
                      [WNode node path it] r.
Proof.
  intros Ht Hrun path it r. eapply (performs_spend _ _ [WNode t (path ++ [cursor id kind it]) it]); [|apply Ht].
  split; [apply walking_tick|]. intros rest. cbn [process_item]. by rewrite Hrun.
Qed.

Lemma critical_performs id name ch : Forall (fun n => playable n) ch -> playable (LCriticalSection id name ch).
Proof.
  intros Hch path it r.
  change (performs
    (if existsb (fun c => bool_decide (lc_kind c = lock_prefix +:+ name)) path then None
     else spend (play_all last ch (path ++ [cursor id "CriticalSectionController" it;
                                     mkLogicCursor id (lock_prefix +:+ name) it]) it (tick r)))
    [WNode (LCriticalSection id name ch) path it] r).
  destruct (existsb _ _) eqn:Ee; [apply performs_None|].
  eapply performs_spend; [|by apply all_performs]. split; [apply walking_tick|]. intros rest.
  cbn [process_item process_node]. unfold process_critical_section. by rewrite Ee.
Qed.

(** The machine plays every tree as [play] reads it. *)
Lemma play_performs node : playable node.
Proof.
  induction node as [node IH] using tree_ind. intros path it r.
  destruct node as [id|id ch|id [total|] ch|id c [] ch|id c [maximum|] ch|id pre out ch|id sel ch|id ch
    |id ch|id ch|id ch|id mode limit percent user ch|id d ch|id parent timers ch|id [t|]|id [t|]|id ch|id name ch];
    try apply performs_None; cbn [parts node_children default option_list] in IH.
  - intros r' out n [= <- <- <-] Hw. split; [by apply walking_tick|]. intros rest.
    eapply leads_sample; [by apply transition_sample|by apply walking_work, walking_tick|constructor].
  - by apply enter_all_performs; [|apply walking_tick|].
  - by apply loop_performs.
  - by apply if_performs.
  - by apply while_performs.
  - by apply for_each_performs.
  - by apply switch_performs.
  - by apply interleave_performs.
  - by apply once_performs.
  - by apply throughput_performs.
  - by apply enter_all_performs; [|intros []|].
  - by apply replace_performs; [apply Forall_inv in IH|].
  - by apply replace_performs; [apply Forall_inv in IH|].
  - by apply enter_all_performs; [|apply walking_tick|].
  - by apply critical_performs.
Qed.

(** ** Steps *)

(** A caller that takes steps until the runner completes: the samples it
    gets, and whether it saw the end within [k] steps. *)
Fixpoint drive (k : nat) (r : LogicRunner) : list LogicSelection * bool :=
  match k with
  | O => ([], false)
  | S k =>
      match logic_step p input r with
      | (Ok (StepSample s), r) => let '(out, ended) := drive k r in (s :: out, ended)
      | (Ok StepComplete, _) => ([], true)
      | _ => ([], false)
      end
  end.

Context (Hsignal : in_signal input = Continue).
Context (Hmax : max_transitions (program_limits p) < usize_max).

Lemma step_is_loop r : terminal r = None -> if_check_pending r = false ->
  logic_step p input r = (let '(o, m) := logic_step_loop p (logic_step_fuel p) 0 (mkMachine r input) in (o, m_runner m)).
Proof.
  intros Ht Hc. unfold logic_step, step_body. run. rewrite Ht, Hsignal. cbn [is_stop].
  unfold step_running. run. rewrite Hsignal. rewrite bool_decide_false by done. run. cbn [andb].
  rewrite Hc. by run.
Qed.

Lemma step_loop_turn fuel used r : 0 <= used -> used < max_transitions (program_limits p) ->
  logic_step_loop p (S fuel) used (mkMachine r input)
  = match transition p (mkMachine r input) with
    | (Ok (Some o), m) => (Ok o, m)
    | (Ok None, m) => logic_step_loop p fuel (used + 1) m
    | (Err e, m) => (Err e, m)
    | (OutOfFuel, m) => (OutOfFuel, m)
    end.
Proof.
  intros H0 Hu. cbn [logic_step_loop]. cbv zeta.
  assert (Hs : usize_saturating_succ used = used + 1) by (unfold usize_saturating_succ; lia).
  rewrite Hs. destruct (max_transitions (program_limits p) <? used + 1) eqn:E; simpl_bool; [lia|].
  unfold st_bind. by destruct (transition p (mkMachine r input)) as [[[o|]|e|] m].
Qed.

(** Up to the next sample. *)
Lemma leads_next_sample r s out n r2 :
  leads r (s :: out) n r2 ->
  exists k r1, (k < n)%nat /\ walking r1 /\ leads r1 out (n - S k) r2 /\
    forall fuel used, (k < fuel)%nat -> 0 <= used ->
      used + Z.of_nat k < max_transitions (program_limits p) ->
      logic_step_loop p fuel used (mkMachine r input) = (Ok (StepSample s), mkMachine r1 input).
Proof.
  remember (s :: out) as l eqn:El. intros Hl.
  induction Hl as [r|r r1 r2 l n Ht Hl IH|r r1 r2 s' l n Ht Hw Hl IH]; [done| |].
  - destruct (IH El) as (k&r3&Hk&Hw3&Hl3&Hrun). exists (S k), r3. split; [lia|]. split; [done|]. split; [done|].
    intros [|fuel] used Hf H0 Hu; [lia|]. rewrite step_loop_turn by lia. rewrite Ht. apply Hrun; lia.
  - simplify_eq. exists 0%nat, r1. split; [lia|]. split; [done|]. split; [by rewrite Nat.sub_1_r|].
    intros [|fuel] used Hf H0 Hu; [lia|]. rewrite step_loop_turn by lia. by rewrite Ht.
Qed.

(** Up to the end of the walk. *)
Lemma leads_end r n r2 :
  leads r [] n r2 -> walking r2 -> work r2 = [] ->
  forall fuel used, (n < fuel)%nat -> 0 <= used ->
    used + Z.of_nat n < max_transitions (program_limits p) ->
    exists m, logic_step_loop p fuel used (mkMachine r input) = (Ok StepComplete, m).
Proof.
  remember [] as l eqn:El. intros Hl Hw Hwork.
  induction Hl as [r|r r1 r2 l n Ht Hl IH|r r1 r2 s' l n Ht Hw' Hl IH]; [| |done]; intros [|fuel] used Hf H0 Hu;
    try lia; rewrite step_loop_turn by lia.
  - unfold transition. run.
    change (finished (with_transition_count _ _)) with (finished r). rewrite (w_finished _ Hw).
    unfold start_root. run. change (root_started (with_transition_count _ _)) with (root_started r).
    rewrite (w_started _ Hw). cbn [work with_transition_count]. rewrite Hwork. by eexists.
  - rewrite Ht. apply IH; auto; lia.
Qed.

Lemma drive_leads out : forall r n r2,
  leads r out n r2 -> walking r -> walking r2 -> work r2 = [] ->
  Z.of_nat n < max_transitions (program_limits p) ->
  drive (S (length out)) r = (out, true).
Proof.
  induction out as [|s out IH]; intros r n r2 Hl Hr Hr2 Hw Hn; cbn [drive length].
  - destruct (leads_end r n r2 Hl Hr2 Hw (logic_step_fuel p) 0) as [m Hm]; [unfold logic_step_fuel; lia|lia..|].
    rewrite step_is_loop, Hm by apply Hr. done.
  - destruct (leads_next_sample r s out n r2 Hl) as (k&r1&Hk&Hr1&Hl1&Hrun).
    rewrite step_is_loop, Hrun by (apply Hr || unfold logic_step_fuel; lia). cbn [m_runner].
    change (match logic_step p input r1 with
            | (Ok (StepSample s), r) => let '(out, ended) := drive (length out) r in (s :: out, ended)
            | (Ok StepComplete, _) => ([], true)
            | _ => ([], false)
            end) with (drive (S (length out)) r1).
    rewrite (IH r1 _ r2 Hl1 Hr1 Hr2 Hw) by lia. done.
Qed.
End machine.
