(* ===== verification/LogicProps.v ===== *)
(** * What the logic controllers guarantee

    The theorems about the machine of [Logic] as its callers see it: which
    trees compile, the samples a tree selects, how often nested loops run their
    bodies, when a random value is asked for, how a shuffle covers the orders of
    its children, and how many visits a throughput controller admits when its
    counters are shared by all users. *)

From stdpp Require Import gmap.
From S2P Require Import Prelude Control Plan Random Wire Logic LogicTree LogicSafe LogicInv LogicPlay.

(** ** Compilation *)

(** [logic_compile_with_limits] accepts exactly the trees within the two limits whose
    node identities are distinct, whose module and include controllers are
    resolved and whose percentages lie in [0, 100]; the program keeps the tree,
    and [uses_random] says whether some node of it draws. *)
Theorem logic_compile_accepts root limits p :
  max_nodes limits < usize_max ->
  logic_compile_with_limits root limits = Ok p <->
  p = mkLogicProgram root limits (existsb draws (subnodes root)) /\
  Forall (fun '(_, depth) => depth <= max_depth limits) (placed 0 root) /\
  Z.of_nat (length (subnodes root)) <= max_nodes limits /\
  NoDup (ids root) /\
  Forall (fun node => node_fault node = None) (subnodes root).
Proof.
  intros Hm. rewrite compile_Ok by done. split.
  - by intros [-> []].
  - by intros (->&?&?&?&?).
Qed.

Definition small_tree : LogicNode :=
  LSequence 1 [LLoop 2 (Finite 2) [LSample 3]; LRandom 4 [LSample 5; LSample 6]].

Lemma logic_compile_accepts_witness :
  logic_compile_with_limits small_tree logic_limits_default
  = Ok (mkLogicProgram small_tree logic_limits_default true).
Proof.
  apply (logic_compile_accepts small_tree logic_limits_default); [done|].
  split; [done|]. split; [repeat constructor; done|]. split; [done|]. split; [|repeat constructor].
  apply (bool_decide_unpack _). vm_compute. done.
Defined.

(** ** Whole iterations *)

(** A runner at the start of a root iteration. *)
Definition at_start (r : LogicRunner) : Prop :=
  work r = [] /\ root_started r = false /\ finished r = false /\ terminal r = None /\
  active_ifs r = [] /\ if_check_pending r = false /\ pending_random_order r = None.

Lemma new_at_start shared : at_start (logic_runner_new shared).
Proof. by split_and!. Qed.

Section start.
Context (p : LogicProgram) (input : LogicInput).
Context (Hsignal : in_signal input = Continue).

(** The first transition puts the root on the stack and takes it off. *)
Definition begun (r : LogicRunner) : LogicRunner := with_root_started true r.

Lemma transition_begins r :
  at_start r ->
  transition p (mkMachine r input)
  = transition p (mkMachine (with_work [WNode (program_root p) [] 0] (begun r)) input).
Proof.
  intros (Hw&Hs&Hf&_). unfold transition. run.
  change (finished (with_transition_count _ r)) with (finished r).
  change (finished (with_transition_count _ (with_work _ _))) with (finished r). rewrite Hf.
  unfold start_root. run. cbn [root_started with_transition_count with_work begun with_root_started].
  rewrite Hs. cbn [work with_work with_transition_count with_root_started]. by rewrite Hw.
Qed.

Lemma step_begins r :
  at_start r -> 0 < max_transitions (program_limits p) ->
  logic_step p input r = logic_step p input (with_work [WNode (program_root p) [] 0] (begun r)).
Proof.
  intros Hr Hmax. pose proof (transition_begins r Hr) as Ht.
  destruct Hr as (Hw&Hs&Hf&Hte&Hi&Hc&Hp).
  rewrite !step_is_loop by done. unfold logic_step_fuel. cbn [logic_step_loop]. cbv zeta.
  assert (H1 : usize_saturating_succ 0 = 1) by done. rewrite H1.
  case_if; [lia|]. unfold st_bind. by rewrite Ht.
Qed.

Lemma begun_walking r : at_start r -> walking (begun r).
Proof. by intros (?&?&?&?&?&?&?). Qed.
End start.

Lemma plays_tree p input r r' out n :
  in_signal input = Continue -> at_start r ->
  play (in_last_sample_success input) (program_root p) [] 0 (with_root_started true r) = Some (r', out, n) ->
  Z.of_nat n < max_transitions (program_limits p) < usize_max ->
  drive p input (S (length out)) r = (out, true).
Proof.
  intros Hsig Hr Hplay [Hn Hmax].
  destruct (play_performs p input (program_root p) [] 0 (begun r) r' out n Hplay (begun_walking r Hr))
    as [Hr' Hl]. specialize (Hl []).
  assert (Hd : drive p input (S (length out)) r
    = drive p input (S (length out)) (with_work [WNode (program_root p) [] 0] (begun r)))
    by (cbn [drive]; rewrite step_begins; [done|done..|lia]).
  rewrite Hd. eapply drive_leads; [done|done|exact Hl| | |done|done].
  - by apply walking_work, begun_walking.
  - by apply walking_work.
Qed.

(** C3 The stack machine refines the recursive reading of the tree: a caller that
    takes steps from the start of an iteration gets exactly the samples [play]
    lists, in order and with their paths, transactions and locks, and then the
    end of the iteration. *)
Theorem logic_plays_tree p input r r' out n :
  in_signal input = Continue -> at_start r ->
  play (in_last_sample_success input) (program_root p) [] 0 (with_root_started true r) = Some (r', out, n) ->
  Z.of_nat n < max_transitions (program_limits p) < usize_max ->
  drive p input (S (length out)) r = (out, true).
Proof. apply plays_tree. Qed.

Definition mixed_tree : LogicNode :=
  LSequence 1
    [LLoop 2 (Finite 2) [LTransaction 3 true false [LInterleave 4 [LSample 5; LSample 6]]];
     LForEach 7 "host" "target" [LCriticalSection 8 "db" [LSample 9]];
     LSwitch 10 (SelectVariableWithNames "mode" ["fast"; "Default"]) [LSample 11; LSample 12]].

Definition mixed_program : LogicProgram := mkLogicProgram mixed_tree logic_limits_default false.

Definition plain_input : LogicInput := mkLogicInput Continue None 0 None.

Definition mixed_runner : LogicRunner :=
  set_variable "host_matchNr" "2" (set_variable "mode" "slow" (logic_runner_new None)).

Abbreviation mixed_walk :=
  (play (in_last_sample_success plain_input) (program_root mixed_program) [] 0
    (with_root_started true mixed_runner)) (only parsing).

Definition walk_parts (w : option (LogicRunner * list LogicSelection * nat)) :
    LogicRunner * list LogicSelection * nat := default (mixed_runner, [], 0%nat) w.

Lemma walk_eta w : match w with Some _ => true | None => false end = true ->
  w = Some ((walk_parts w).1.1, (walk_parts w).1.2, (walk_parts w).2).
Proof. by destruct w as [[[r out] n]|]. Qed.

Lemma logic_plays_tree_witness :
  let out := (walk_parts mixed_walk).1.2 in
  map sampler_id out = [5; 6; 9; 9; 12] /\
  drive mixed_program plain_input (S (length out)) mixed_runner = (out, true).
Proof.
  split; [vm_compute; reflexivity|].
  apply (logic_plays_tree mixed_program plain_input mixed_runner (walk_parts mixed_walk).1.1
           (walk_parts mixed_walk).1.2 (walk_parts mixed_walk).2); [reflexivity|by split_and!| |].
  - apply (walk_eta mixed_walk). vm_compute. reflexivity.
  - split; vm_compute; reflexivity.
Defined.

(** ** Nested loops *)

Fixpoint sum_from (f : Z -> nat) (j : Z) (k : nat) : nat :=
  match k with O => O | S k => (f j + sum_from f (j + 1) k)%nat end.

Lemma sum_from_le f g j k :
  (forall i, j <= i < j + Z.of_nat k -> (f i <= g i)%nat) -> (sum_from f j k <= sum_from g j k)%nat.
Proof.
  revert j. induction k as [|k IH]; intros j Hfg; cbn; [lia|].
  pose proof (Hfg j ltac:(lia)). pose proof (IH (j + 1) ltac:(intros; apply Hfg; lia)). lia.
Qed.

Lemma sum_from_const c j k : sum_from (fun _ => c) j k = (k * c)%nat.
Proof. revert j. induction k as [|k IH]; intros j; cbn; [done|]. by rewrite IH. Qed.

(** A walk that selects [l] samples in [c] transitions. *)
Definition takes (w : option (LogicRunner * list LogicSelection * nat)) (l c : nat) : Prop :=
  exists r out, w = Some (r, out, c) /\ length out = l.

Lemma takes_cost w l c c' : takes w l c -> c = c' -> takes w l c'.
Proof. by intros ? <-. Qed.

Lemma takes_then w k l1 c1 l2 c2 :
  takes w l1 c1 -> (forall r, takes (k r) l2 c2) -> takes (and_then w k) (l1 + l2) (c1 + c2).
Proof.
  intros (r&out&->&<-) Hk. destruct (Hk r) as (r'&out'&Hr&<-). exists r', (out ++ out').
  unfold and_then. cbn. rewrite Hr. by rewrite length_app.
Qed.

Lemma takes_spend w l c : takes w l c -> takes (spend w) l (S c).
Proof. intros (r&out&->&<-). by exists r, out. Qed.

Lemma resume_takes total body (l c : Z -> nat) : total <= u64_max ->
  (forall j r, 0 <= j < u64_max -> takes (body j r) (l j) (c j)) ->
  forall k fuel j r, (k < fuel)%nat -> 0 <= j < u64_max -> Z.of_nat k = Z.max 0 (total - 1 - j) ->
  takes (resume (decide_loop total) body fuel j r)
    (sum_from l (j + 1) k) (S (sum_from (fun i => S (c i)) (j + 1) k)).
Proof.
  intros Ht Hb. induction k as [|k IH]; intros [|fuel] j r Hf Hj Hk; try lia; cbn [resume].
  all: unfold decide_loop; rewrite (proj2 (u64_checked_add_Some j 1 (j + 1))) by (split; [lia|done]);
    cbn [mbind option_bind].
  - destruct (total <=? j + 1) eqn:E; simpl_bool; [|lia]. by exists (tick r), [].
  - destruct (total <=? j + 1) eqn:E; simpl_bool; [lia|].
    eapply takes_cost.
    + apply takes_spend. cbn [sum_from]. apply takes_then; [apply Hb; lia|]. intros r1. apply IH; lia.
    + cbn [sum_from]. lia.
Qed.

(** How often the body of a loop of [m] passes runs when the loop is entered at
    iteration [j] of the loop around it. *)
Definition passes (m j : Z) : nat := Z.to_nat (Z.max 1 (m - j)).

Lemma loop_takes last id m ch path j r (l c : Z -> nat) :
  0 < m <= u64_max -> 0 <= j < u64_max ->
  (forall i r, 0 <= i < u64_max ->
    takes (play_all last ch (path ++ [cursor id "LoopController" i]) i r) (l i) (c i)) ->
  takes (play last (LLoop id (Finite m) ch) path j r)
    (sum_from l j (passes m j)) (S (sum_from (fun i => S (c i)) j (passes m j))).
Proof.
  intros Hm Hj Hb.
  change (takes
    (let body j := play_all last ch (path ++ [cursor id "LoopController" j]) j in
     if m =? 0 then quiet (tick r)
     else spend (and_then (body j (tick r)) (resume (decide_loop m) body (S (Z.to_nat m)) j)))
    (sum_from l j (passes m j)) (S (sum_from (fun i => S (c i)) j (passes m j)))).
  cbv zeta. destruct (m =? 0) eqn:E; simpl_bool; [lia|].
  assert (Hp : passes m j = S (Z.to_nat (Z.max 0 (m - 1 - j)))) by (unfold passes; lia).
  rewrite Hp. cbn [sum_from].
  eapply takes_cost; [|apply Nat.add_succ_r].
  apply takes_spend, takes_then; [by apply Hb|]. intros r1. apply resume_takes; try done; lia.
Qed.

Lemma sample_takes last id path it r : takes (play_all last [LSample id] path it r) 1 1.
Proof. by eexists _, _. Qed.

Definition nested_loops (outer inner sample n m : Z) : LogicNode :=
  LLoop outer (Finite n) [LLoop inner (Finite m) [LSample sample]].

Lemma all_one last node path it r l c :
  takes (play last node path it r) l c -> takes (play_all last [node] path it r) l c.
Proof.
  intros H. eapply takes_cost; [|apply Nat.add_0_r]. rewrite <- (Nat.add_0_r l).
  apply (takes_then _ _ l c 0 0); [done|]. intros r1. by exists r1, [].
Qed.

Lemma nested_takes last outer inner sample n m r :
  0 < n <= u64_max -> 0 < m <= u64_max ->
  takes (play last (nested_loops outer inner sample n m) [] 0 r)
    (sum_from (passes m) 0 (Z.to_nat n)) (S (sum_from (fun i => 2 + 2 * passes m i)%nat 0 (Z.to_nat n))).
Proof.
  intros Hn Hm.
  assert (Hp : passes n 0 = Z.to_nat n) by (unfold passes; lia). rewrite <- Hp.
  apply (loop_takes last outer n _ [] 0 r (passes m) (fun i => S (2 * passes m i))); [done|done|].
  intros i r1 Hi. apply all_one. eapply takes_cost.
  - rewrite <- (Nat.mul_1_r (passes m i)), <- (sum_from_const 1 i).
    apply (loop_takes last inner m _ _ i r1 (fun _ => 1%nat) (fun _ => 1%nat)); [done|done|].
    intros. apply sample_takes.
  - rewrite sum_from_const. lia.
Qed.

Lemma passes_lose n m : 1 < n -> 1 < m -> Z.of_nat (sum_from (passes m) 0 (Z.to_nat n)) < n * m.
Proof.
  intros Hn Hm. destruct (Z.to_nat n) as [|[|k]] eqn:Ek; [lia..|]. cbn [sum_from].
  assert (Hle : (sum_from (passes m) (0 + 1 + 1) k <= k * Z.to_nat m)%nat).
  { rewrite <- (sum_from_const _ (0 + 1 + 1)). apply sum_from_le. intros i Hi. unfold passes. lia. }
  assert (H0 : passes m 0 = Z.to_nat m) by (unfold passes; lia).
  assert (H1 : passes m (0 + 1) = (Z.to_nat m - 1)%nat) by (unfold passes; lia).
  rewrite H0, H1. nia.
Qed.

(** C38 Nested loops do not multiply: an inner loop of [m] passes that is entered at
    iteration [j] of the outer loop runs its body only [max 1 (m - j)] times, so
    the whole tree selects its sampler fewer than [n * m] times. *)
Theorem nested_loops_lose_iterations p outer inner sample n m shared :
  0 < n -> 0 < m -> program_root p = nested_loops outer inner sample n m ->
  2 * n * (m + 1) + 1 < max_transitions (program_limits p) < usize_max ->
  let total := sum_from (fun j => Z.to_nat (Z.max 1 (m - j))) 0 (Z.to_nat n) in
  (exists out, drive p plain_input (S total) (logic_runner_new shared) = (out, true) /\
               length out = total) /\
  (1 < n -> 1 < m -> Z.of_nat total < n * m).
Proof.
  intros Hn Hm Hroot [Hcost Hmax] total.
  assert (Hu : usize_max = u64_max) by done.
  destruct (nested_takes None outer inner sample n m (begun (logic_runner_new shared)))
    as (r'&out&Hplay&Hlen); [nia..|].
  change total with (sum_from (passes m) 0 (Z.to_nat n)) in *. clear total. split.
  - exists out. rewrite <- Hlen. split; [|done].
    eapply plays_tree; [done|apply new_at_start|rewrite Hroot; exact Hplay|]. split; [|done].
    assert (Hle : (sum_from (fun i => 2 + 2 * passes m i) 0 (Z.to_nat n)
                   <= Z.to_nat n * (2 + 2 * Z.to_nat m))%nat).
    { rewrite <- (sum_from_const _ 0). apply sum_from_le. intros i Hi. unfold passes. lia. }
    nia.
  - intros Hn1 Hm1. by apply passes_lose.
Qed.

Lemma nested_loops_lose_iterations_witness :
  let p := mkLogicProgram (nested_loops 1 2 3 3 2) logic_limits_default false in
  exists out, drive p plain_input 5 (logic_runner_new None) = (out, true) /\ length out = 4%nat.
Proof.
  apply (nested_loops_lose_iterations (mkLogicProgram (nested_loops 1 2 3 3 2) logic_limits_default false)
           1 2 3 3 2 None); [done|done|reflexivity|split; reflexivity].
Defined.
