(* ===== verification/ModelTree.v ===== *)
(** * The identity tree of test plans

    Models [crates/model/src/tree.rs]: an ordered forest of nodes that are
    known by their identities.  The tree is a map from identities to nodes, the
    list of its roots and the next identity to hand out; every operation on it,
    its traversals and its consistency check are rendered as they are written,
    and so is the hash view that keeps siblings in identity order.

    A traversal's callback is a function of a state of its own.  The stacks of
    the traversals are lists with the top first. *)

From stdpp Require Import gmap sorting.
From S2P Require Import Prelude.

(** [TreeError] of [crates/model/src/error.rs] *)
Inductive TreeError :=
| NodeNotFound (id : Z)
| ParentNotFound (id : Z)
| DuplicateNodeId (id : Z)
| NodeIdExhausted
| NodeHasChildren (id : Z)
| TraversalLimitExceeded (limit : Z)
| QueryLimitExceeded (operation : string) (limit : Z)
| ParentMismatch (id : Z) (expected actual : option Z)
| TreeInvariant (detail : string).

(** [ValidationLimitKind] of [crates/model/src/limits.rs], and the parts of
    [ModelError] a bounded validation can report. *)
Inductive ValidationLimitKind :=
| LimitNodes | LimitTreeDepth | LimitProperties | LimitPropertyDepth | LimitOpaqueBytes | LimitStringBytes.

Inductive ModelError :=
| LimitExceeded (kind : ValidationLimitKind) (limit actual : Z)
| TreeFault (e : TreeError).

Inductive VisitEvent :=
| Enter (id : Z) (depth : Z)
| Leave (id : Z) (depth : Z).

(** [VisitEvent::is_enter] *)
Definition is_enter (e : VisitEvent) : bool :=
  match e with Enter _ _ => true | Leave _ _ => false end.

Inductive TraversalControl := VisitContinue | VisitStop.

Record TraversalOutcome := mkTraversal {
  tr_events : Z;
  tr_entered : Z;
  tr_stopped : bool
}.

(** [PreorderFrame] and [TraversalFrame] *)
Record PreorderFrame := mkPreFrame {
  pf_id : Z;
  pf_next_child : nat;
  pf_yielded : bool
}.

Record TraversalFrame := mkTravFrame {
  tf_id : Z;
  tf_depth : Z;
  tf_next_child : nat;
  tf_entered : bool
}.

Section tree.
Context {T : Type}.

Record TreeNode := mkTreeNode {
  tn_id : Z;
  tn_parent : option Z;
  tn_value : T;
  tn_children : list Z
}.

(** [TreeNode::new] *)
Definition tree_node_new (id : Z) (parent : option Z) (value : T) : TreeNode :=
  mkTreeNode id parent value [].

Record IdentityTree := mkIdentityTree {
  nodes : gmap Z TreeNode;
  roots : list Z;
  next_id : option Z
}.

(** [IdentityTree::new] *)
Definition identity_tree_new : IdentityTree := mkIdentityTree ∅ [] (Some 1).

Definition with_nodes (m : gmap Z TreeNode) (t : IdentityTree) : IdentityTree :=
  mkIdentityTree m (roots t) (next_id t).
Definition with_roots (l : list Z) (t : IdentityTree) : IdentityTree :=
  mkIdentityTree (nodes t) l (next_id t).
Definition with_next_id (n : option Z) (t : IdentityTree) : IdentityTree :=
  mkIdentityTree (nodes t) (roots t) n.

Definition with_value (v : T) (n : TreeNode) : TreeNode :=
  mkTreeNode (tn_id n) (tn_parent n) v (tn_children n).
Definition with_children (l : list Z) (n : TreeNode) : TreeNode :=
  mkTreeNode (tn_id n) (tn_parent n) (tn_value n) l.

Abbreviation TM A := (ST IdentityTree TreeError A).

Definition modify (f : IdentityTree -> IdentityTree) : TM () := fun t => (Ok (), f t).
Definition invariant {A} (detail : string) : result TreeError A := Err (TreeInvariant detail).

(** ** Queries *)

(** [get_array_bounded] *)
Definition get_array_bounded (t : IdentityTree) (max_roots : Z) : result TreeError (list Z) :=
  if max_roots <? Z.of_nat (length (roots t))
  then Err (QueryLimitExceeded "get_array" max_roots) else Ok (roots t).

(** [lookup] *)
Definition tree_lookup (t : IdentityTree) (id : Z) : result TreeError TreeNode :=
  ok_or (nodes t !! id) (NodeNotFound id).

(** [value], [parent], [children] and [is_leaf] *)
Definition tree_value (t : IdentityTree) (id : Z) : result TreeError T :=
  let? n := tree_lookup t id in Ok (tn_value n).
Definition tree_parent (t : IdentityTree) (id : Z) : result TreeError (option Z) :=
  let? n := tree_lookup t id in Ok (tn_parent n).
Definition tree_children (t : IdentityTree) (id : Z) : result TreeError (list Z) :=
  let? n := tree_lookup t id in Ok (tn_children n).
Definition tree_is_leaf (t : IdentityTree) (id : Z) : result TreeError bool :=
  let? n := tree_lookup t id in Ok (bool_decide (tn_children n = [])).

(** [require_parent] *)
Definition require_parent (t : IdentityTree) (parent : option Z) : result TreeError () :=
  match parent with
  | None => Ok ()
  | Some parent =>
      match nodes t !! parent with Some _ => Ok () | None => Err (ParentNotFound parent) end
  end.

(** ** The consistency check *)

(** The loop of [validate] over the roots: [seen] after it. *)
Fixpoint validate_roots (t : IdentityTree) (l : list Z) (seen : gset Z) : result TreeError (gset Z) :=
  match l with
  | [] => Ok seen
  | root :: l =>
      match nodes t !! root with
      | None => invariant "root list points to a missing node"
      | Some node =>
          if bool_decide (is_Some (tn_parent node)) || bool_decide (root ∈ seen)
          then invariant "root has a parent or appears twice"
          else validate_roots t l ({[root]} ∪ seen)
      end
  end.

(** The loop over the children of one node. *)
Fixpoint validate_children (t : IdentityTree) (id : Z) (l : list Z) (seen : gset Z) :
    result TreeError (gset Z) :=
  match l with
  | [] => Ok seen
  | child :: l =>
      match nodes t !! child with
      | None => invariant "child list points to a missing node"
      | Some child_node =>
          if negb (bool_decide (tn_parent child_node = Some id)) || bool_decide (child ∈ seen)
          then invariant "child parent link is inconsistent or duplicated"
          else validate_children t id l ({[child]} ∪ seen)
      end
  end.

(** The loop over the nodes, in key order. *)
Fixpoint validate_nodes (t : IdentityTree) (l : list (Z * TreeNode)) (seen : gset Z) :
    result TreeError (gset Z) :=
  match l with
  | [] => Ok seen
  | (id, node) :: l =>
      if negb (tn_id node =? id) then invariant "identity index key differs from node ID"
      else let? seen := validate_children t id (tn_children node) seen in validate_nodes t l seen
  end.

Definition key_le (a b : Z * TreeNode) : Prop := a.1 <= b.1.
#[local] Instance key_le_dec : RelDecision key_le := fun a b => decide (a.1 <= b.1).

Definition in_key_order (m : gmap Z TreeNode) : list (Z * TreeNode) := merge_sort key_le (map_to_list m).

(** [validate] *)
Definition tree_validate (t : IdentityTree) : result TreeError () :=
  let? seen := validate_roots t (roots t) ∅ in
  let? seen := validate_nodes t (in_key_order (nodes t)) seen in
  if negb (Nat.eqb (size seen) (size (nodes t))) then invariant "a node is unreachable from the roots"
  else Ok ().

(** ** Insertion *)

(** [NodeId::checked_add(1)] on the raw counter *)
Definition succ_id (id : Z) : option Z := u64_checked_add id 1.

(** The loop of [allocate_id]: an identity that is taken is skipped, so one
    turn more than there are nodes is enough. *)
Fixpoint allocate_loop (fuel : nat) : TM Z :=
  match fuel with
  | O => st_lift OutOfFuel
  | S fuel =>
      do! t <- st_get in
      match next_id t with
      | None => st_fail NodeIdExhausted
      | Some raw =>
          modify (with_next_id (succ_id raw)) ;!
          if bool_decide (is_Some (nodes t !! raw)) then allocate_loop fuel else st_ret raw
      end
  end.

Definition allocate_id : TM Z :=
  do! t <- st_get in allocate_loop (S (size (nodes t))).

(** [advance_allocator_past] *)
Definition advance_allocator_past (id : Z) (t : IdentityTree) : IdentityTree :=
  match next_id t with
  | Some next => if next <=? id then with_next_id (succ_id id) t else t
  | None => t
  end.

(** [insert_with_id] *)
Definition insert_with_id (parent : option Z) (id : Z) (value : T) : TM Z :=
  do! t <- st_get in
  if bool_decide (is_Some (nodes t !! id)) then st_fail (DuplicateNodeId id)
  else
    st_lift (require_parent t parent) ;!
    let node := tree_node_new id parent value in
    (match parent with
     | Some parent =>
         match nodes t !! parent with
         | None => st_lift (invariant "validated parent disappeared before insertion")
         | Some parent_node =>
             modify (fun t =>
               with_nodes (<[id := node]>
                 (<[parent := with_children (tn_children parent_node ++ [id]) parent_node]> (nodes t))) t)
         end
     | None => modify (fun t => with_roots (roots t ++ [id]) (with_nodes (<[id := node]> (nodes t)) t))
     end) ;!
    modify (advance_allocator_past id) ;!
    st_ret id.

(** [insert], with the allocator put back when the insertion fails. *)
Definition tree_insert (parent : option Z) (value : T) : TM Z :=
  do! t <- st_get in
  st_lift (require_parent t parent) ;!
  do! id <- allocate_id in
  fun t' =>
    match insert_with_id parent id value t' with
    | (Ok inserted, t'') => (Ok inserted, t'')
    | (Err e, t'') => (Err e, with_next_id (next_id t) t'')
    | (OutOfFuel, t'') => (OutOfFuel, t'')
    end.

(** ** Removal and replacement *)

(** The children of [id] pushed by [collect_subtree_ids], the last one first:
    the stack after them. *)
Fixpoint push_children (t : IdentityTree) (id : Z) (l : list Z) (pending : list Z) :
    result TreeError (list Z) :=
  match l with
  | [] => Ok pending
  | child :: l =>
      match nodes t !! child with
      | None => invariant "child link points to a missing node during removal"
      | Some child_node =>
          if negb (bool_decide (tn_parent child_node = Some id))
          then invariant "child parent link is inconsistent during removal"
          else push_children t id l (child :: pending)
      end
  end.

(** The loop of [collect_subtree_ids]; a node is visited once, so that one turn
    more than there are nodes ends it. *)
Fixpoint collect_loop (fuel : nat) (t : IdentityTree) (pending : list Z) (ids : list Z) (seen : gset Z) :
    result TreeError (list Z) :=
  match fuel with
  | O => OutOfFuel
  | S fuel =>
      match pending with
      | [] => Ok ids
      | id :: pending =>
          match nodes t !! id with
          | None => invariant "child link points to a missing node during removal"
          | Some node =>
              if bool_decide (id ∈ seen)
              then invariant "subtree links contain a cycle or duplicate child"
              else
                let? pending := push_children t id (reverse (tn_children node)) pending in
                collect_loop fuel t pending (ids ++ [id]) ({[id]} ∪ seen)
          end
      end
  end.

Definition collect_subtree_ids (t : IdentityTree) (root : Z) : result TreeError (list Z) :=
  collect_loop (S (size (nodes t))) t [root] [] ∅.

Definition remove_nodes (ids : list Z) (m : gmap Z TreeNode) : gmap Z TreeNode :=
  foldl (fun m id => delete id m) m ids.

(** [self.nodes.get_mut(&id)] with an update of the node. *)
Definition update_node (id : Z) (f : TreeNode -> TreeNode) (t : IdentityTree) : IdentityTree :=
  match nodes t !! id with
  | Some node => with_nodes (<[id := f node]> (nodes t)) t
  | None => t
  end.

(** [remove_subtree] and [remove] *)
Definition remove_subtree (id : Z) : TM T :=
  do! t <- st_get in
  st_lift (tree_lookup t id) ;!
  st_lift (tree_validate t) ;!
  do! ids <- st_lift (collect_subtree_ids t id) in
  do! node <- st_lift (tree_lookup t id) in
  (match tn_parent node with
   | Some parent =>
       match nodes t !! parent with
       | None => st_lift (invariant "child node points to a missing parent")
       | Some _ =>
           modify (update_node parent (fun n =>
             with_children (filter (fun child => child <> id) (tn_children n)) n))
       end
   | None => modify (fun t => with_roots (filter (fun root => root <> id) (roots t)) t)
   end) ;!
  do! t' <- st_get in
  modify (fun t => with_nodes (remove_nodes ids (nodes t)) t) ;!
  st_lift (if bool_decide (id ∈ ids)
           then match nodes t' !! id with
                | Some node => Ok (tn_value node)
                | None => invariant "subtree root disappeared during removal"
                end
           else invariant "subtree root disappeared during removal").

(** [remove_leaf] *)
Definition remove_leaf (id : Z) : TM T :=
  do! t <- st_get in
  do! leaf <- st_lift (tree_is_leaf t id) in
  if negb leaf then st_fail (NodeHasChildren id) else remove_subtree id.

(** The branches of [clear_children], collected one after the other. *)
Fixpoint collect_all (t : IdentityTree) (l : list Z) (ids : list Z) : result TreeError (list Z) :=
  match l with
  | [] => Ok ids
  | child :: l => let? more := collect_subtree_ids t child in collect_all t l (ids ++ more)
  end.

(** [clear_children] *)
Definition clear_children (id : Z) : TM Z :=
  do! t <- st_get in
  st_lift (tree_lookup t id) ;!
  st_lift (tree_validate t) ;!
  do! children <- st_lift (tree_children t id) in
  do! ids <- st_lift (collect_all t children []) in
  match nodes t !! id with
  | None => st_lift (invariant "validated node disappeared while clearing children")
  | Some _ =>
      modify (update_node id (with_children [])) ;!
      modify (fun t => with_nodes (remove_nodes ids (nodes t)) t) ;!
      st_ret (Z.of_nat (length ids))
  end.

(** [lookup_mut] with an assignment to the node it refers to: any caller can put
    a copy of another node in its place. *)
Definition assign_node (id : Z) (node : TreeNode) : TM () :=
  do! t <- st_get in
  st_lift (tree_lookup t id) ;!
  modify (update_node id (fun _ => node)).

(** [replace] *)
Definition tree_replace (id : Z) (value : T) : TM T :=
  do! t <- st_get in
  do! node <- st_lift (tree_lookup t id) in
  modify (update_node id (with_value value)) ;!
  st_ret (tn_value node).

(** [replace_subtree] and [set] *)
Definition replace_subtree (id : Z) (value : T) : TM T :=
  do! t <- st_get in
  st_lift (tree_lookup t id) ;!
  clear_children id ;!
  tree_replace id value.

(** ** Traversals *)

Definition repeated_link {A} : result TreeError A :=
  invariant "ordered topology references a node more than once".

(** The turns of a checked walk: every node is pushed, entered and left at most
    once, and the last turn finds no root. *)
Definition walk_fuel (t : IdentityTree) : nat := 2 + 3 * size (nodes t).

(** The loop of [traverse_bounded].  The visitor's state is threaded through
    and returned also when the walk fails. *)
Section traverse.
Context {S' : Type} (visitor : S' -> VisitEvent -> TraversalControl * S').

Record Walk := mkWalk {
  wk_next_root : nat;
  wk_stack : list TraversalFrame;
  wk_visited : gset Z;
  wk_events : Z;
  wk_entered : Z
}.

(** The start of a turn: with an empty stack the next root is pushed; [None]
    when there is none. *)
Definition walk_root (t : IdentityTree) (w : Walk) : result TreeError (option Walk) :=
  match wk_stack w with
  | _ :: _ => Ok (Some w)
  | [] =>
      match roots t !! wk_next_root w with
      | None => Ok None
      | Some id =>
          if bool_decide (id ∈ wk_visited w) then repeated_link
          else Ok (Some (mkWalk (S (wk_next_root w)) [mkTravFrame id 0 0 false]
                           ({[id]} ∪ wk_visited w) (wk_events w) (wk_entered w)))
      end
  end.

(** The rest of the turn: the event to deliver, or [None] after a child was
    pushed. *)
Definition walk_turn (t : IdentityTree) (w : Walk) : result TreeError (option VisitEvent * Walk) :=
  match wk_stack w with
  | [] => invariant "traversal frame stack unexpectedly empty"
  | frame :: stack =>
      match nodes t !! tf_id frame with
      | None => invariant "ordered link points to a missing node during traversal"
      | Some node =>
          if negb (tf_entered frame) then
            Ok (Some (Enter (tf_id frame) (tf_depth frame)),
                mkWalk (wk_next_root w)
                  (mkTravFrame (tf_id frame) (tf_depth frame) (tf_next_child frame) true :: stack)
                  (wk_visited w) (wk_events w) (wk_entered w))
          else
            match tn_children node !! tf_next_child frame with
            | Some child =>
                if bool_decide (child ∈ wk_visited w) then repeated_link
                else
                  Ok (None,
                      mkWalk (wk_next_root w)
                        (mkTravFrame child (usize_saturating_succ (tf_depth frame)) 0 false
                         :: mkTravFrame (tf_id frame) (tf_depth frame) (S (tf_next_child frame)) true
                         :: stack)
                        ({[child]} ∪ wk_visited w) (wk_events w) (wk_entered w))
            | None =>
                Ok (Some (Leave (tf_id frame) (tf_depth frame)),
                    mkWalk (wk_next_root w) stack (wk_visited w) (wk_events w) (wk_entered w))
            end
      end
  end.

(** The delivery of an event: it counts against the limit before the visitor
    sees it. *)
Definition count_event (e : VisitEvent) (w : Walk) : Walk :=
  mkWalk (wk_next_root w) (wk_stack w) (wk_visited w) (wk_events w + 1)
    (if is_enter e then wk_entered w + 1 else wk_entered w).

Fixpoint traverse_loop (fuel : nat) (t : IdentityTree) (max_events : Z) (w : Walk) (s : S') :
    result TreeError TraversalOutcome * S' :=
  match fuel with
  | O => (OutOfFuel, s)
  | S fuel =>
      match walk_root t w with
      | Err e => (Err e, s)
      | OutOfFuel => (OutOfFuel, s)
      | Ok None => (Ok (mkTraversal (wk_events w) (wk_entered w) false), s)
      | Ok (Some w) =>
          match walk_turn t w with
          | Err e => (Err e, s)
          | OutOfFuel => (OutOfFuel, s)
          | Ok (None, w) => traverse_loop fuel t max_events w s
          | Ok (Some event, w) =>
              if max_events <=? wk_events w then (Err (TraversalLimitExceeded max_events), s)
              else
                let w := count_event event w in
                match visitor s event with
                | (VisitStop, s) => (Ok (mkTraversal (wk_events w) (wk_entered w) true), s)
                | (VisitContinue, s) => traverse_loop fuel t max_events w s
                end
          end
      end
  end.

Definition traverse_bounded (t : IdentityTree) (max_events : Z) (s : S') :
    result TreeError TraversalOutcome * S' :=
  traverse_loop (walk_fuel t) t max_events (mkWalk 0 [] ∅ 0 0) s.

(** [traverse] *)
Definition traverse (t : IdentityTree) (s : S') : result TreeError TraversalOutcome * S' :=
  traverse_bounded t usize_max s.
End traverse.

(** [visit_preorder_checked], its visitor threading a state; the loop. *)
Section checked.
Context {S' : Type} (visitor : S' -> TreeNode -> result TreeError S').
Context (node_limit : option (string * Z)).

Definition limit_reached (count : Z) : result TreeError () :=
  match node_limit with
  | Some (operation, limit) =>
      if count =? limit then Err (QueryLimitExceeded operation limit) else Ok ()
  | None => Ok ()
  end.

(** With an empty stack the next root is pushed; [None] when there is none. *)
Definition checked_root (t : IdentityTree) (next_root : nat) (stack : list PreorderFrame)
    (visited : gset Z) : result TreeError (option (nat * list PreorderFrame * gset Z)) :=
  match stack with
  | _ :: _ => Ok (Some (next_root, stack, visited))
  | [] =>
      match roots t !! next_root with
      | None => Ok None
      | Some id =>
          if bool_decide (id ∈ visited) then repeated_link
          else Ok (Some (S next_root, [mkPreFrame id 0 false], {[id]} ∪ visited))
      end
  end.

Fixpoint checked_loop (fuel : nat) (t : IdentityTree) (next_root : nat) (stack : list PreorderFrame)
    (visited : gset Z) (count : Z) (s : S') : result TreeError (Z * S') :=
  match fuel with
  | O => OutOfFuel
  | S fuel =>
      let? turn := checked_root t next_root stack visited in
      match turn with
      | None => Ok (count, s)
      | Some (_, [], _) => invariant "preorder query frame stack unexpectedly empty"
      | Some (next_root, frame :: stack, visited) =>
          match nodes t !! pf_id frame with
          | None => invariant "ordered link points to a missing node during preorder query"
          | Some node =>
              if negb (pf_yielded frame) then
                let? _ := limit_reached count in
                let? s := visitor s node in
                checked_loop fuel t next_root
                  (mkPreFrame (pf_id frame) (pf_next_child frame) true :: stack) visited
                  (usize_saturating_succ count) s
              else
                match tn_children node !! pf_next_child frame with
                | Some child =>
                    if bool_decide (child ∈ visited) then repeated_link
                    else checked_loop fuel t next_root
                           (mkPreFrame child 0 false
                            :: mkPreFrame (pf_id frame) (S (pf_next_child frame)) true :: stack)
                           ({[child]} ∪ visited) count s
                | None => checked_loop fuel t next_root stack visited count s
                end
          end
      end
  end.

Definition visit_preorder_checked (t : IdentityTree) (s : S') : result TreeError (Z * S') :=
  checked_loop (walk_fuel t) t 0 [] ∅ 0 s.
End checked.

(** [preorder_ids_bounded] *)
Definition preorder_ids_bounded (t : IdentityTree) (max_nodes : Z) : result TreeError (list Z) :=
  let? out := visit_preorder_checked (fun ids node => Ok (ids ++ [tn_id node]))
                (Some ("preorder_ids"%string, max_nodes)) t [] in
  Ok out.2.

(** [find_all_bounded]; the predicate does not carry a state. *)
Definition find_visitor (predicate : TreeNode -> bool) (max_results : Z) (ids : list Z) (node : TreeNode) :
    result TreeError (list Z) :=
  if predicate node then
    if Z.of_nat (length ids) =? max_results then Err (QueryLimitExceeded "find_all" max_results)
    else Ok (ids ++ [tn_id node])
  else Ok ids.

Definition find_all_bounded (t : IdentityTree) (max_results : Z) (predicate : TreeNode -> bool) :
    result TreeError (list Z) :=
  let? out := visit_preorder_checked (find_visitor predicate max_results) None t [] in
  Ok out.2.

(** ** The preorder iterator *)

Record PreorderIter := mkIter {
  it_next_root : nat;
  it_stack : list PreorderFrame;
  it_visited : gset Z
}.

(** [iter_preorder] *)
Definition iter_preorder : PreorderIter := mkIter 0 [] ∅.

(** The inner loop of [next], over the roots from the next one on: the roots
    that were visited are skipped. *)
Fixpoint iter_root (l : list Z) (it : PreorderIter) : option PreorderIter :=
  match l with
  | [] => None
  | id :: l =>
      if bool_decide (id ∈ it_visited it)
      then iter_root l (mkIter (S (it_next_root it)) (it_stack it) (it_visited it))
      else Some (mkIter (S (it_next_root it)) [mkPreFrame id 0 false] ({[id]} ∪ it_visited it))
  end.

(** A turn of the loop of [next]: [None] when the iterator ends, otherwise the
    node that the turn yields, if it yields one, and the iterator after it. *)
Definition iter_turn (t : IdentityTree) (it : PreorderIter) : option (option TreeNode * PreorderIter) :=
  match match it_stack it with
        | _ :: _ => Some it
        | [] => iter_root (drop (it_next_root it) (roots t)) it
        end with
  | None => None
  | Some (mkIter _ [] _) => None
  | Some (mkIter next_root (frame :: stack) visited) =>
      match nodes t !! pf_id frame with
      | None => None
      | Some node =>
          if negb (pf_yielded frame) then
            Some (Some node, mkIter next_root
                    (mkPreFrame (pf_id frame) (pf_next_child frame) true :: stack) visited)
          else
            match tn_children node !! pf_next_child frame with
            | Some child =>
                let parent := mkPreFrame (pf_id frame) (S (pf_next_child frame)) true in
                if bool_decide (child ∈ visited) then Some (None, mkIter next_root (parent :: stack) visited)
                else Some (None, mkIter next_root (mkPreFrame child 0 false :: parent :: stack)
                                   ({[child]} ∪ visited))
            | None => Some (None, mkIter next_root stack visited)
            end
      end
  end.

(** [PreorderIter::next]: the node it yields and the iterator after it.  The
    fuel is enough for a tree without repeated links. *)
Fixpoint iter_next (fuel : nat) (t : IdentityTree) (it : PreorderIter) :
    result TreeError (option (TreeNode * PreorderIter)) :=
  match fuel with
  | O => OutOfFuel
  | S fuel =>
      match iter_turn t it with
      | None => Ok None
      | Some (Some node, it) => Ok (Some (node, it))
      | Some (None, it) => iter_next fuel t it
      end
  end.

(** The iterator run to its end, as [collect] does; a node is yielded once. *)
Fixpoint iter_collect (fuel : nat) (t : IdentityTree) (it : PreorderIter) : result TreeError (list TreeNode) :=
  match fuel with
  | O => OutOfFuel
  | S fuel =>
      let? step := iter_next (walk_fuel t) t it in
      match step with
      | None => Ok []
      | Some (node, it) => let? more := iter_collect fuel t it in Ok (node :: more)
      end
  end.

(** [preorder_ids], [find_all] and [find]: [find] is the first of the nodes
    that satisfy the predicate, of which the iterator goes no further. *)
Definition preorder_ids (t : IdentityTree) : result TreeError (list Z) :=
  let? l := iter_collect (S (size (nodes t))) t iter_preorder in Ok (map tn_id l).
Definition find_all (t : IdentityTree) (predicate : TreeNode -> bool) : result TreeError (list Z) :=
  let? l := iter_collect (S (size (nodes t))) t iter_preorder in
  Ok (map tn_id (List.filter predicate l)).

Fixpoint search_loop (fuel : nat) (t : IdentityTree) (predicate : TreeNode -> bool) (it : PreorderIter) :
    result TreeError (option Z) :=
  match fuel with
  | O => OutOfFuel
  | S fuel =>
      let? step := iter_next (walk_fuel t) t it in
      match step with
      | None => Ok None
      | Some (node, it) =>
          if predicate node then Ok (Some (tn_id node)) else search_loop fuel t predicate it
      end
  end.

Definition tree_find (t : IdentityTree) (predicate : TreeNode -> bool) : result TreeError (option Z) :=
  search_loop (S (size (nodes t))) t predicate iter_preorder.

(** ** Paths and bounded validation *)

(** The loop of [path_to_bounded], which ends by its own check on the number of
    nodes. *)
Fixpoint path_loop (fuel : nat) (t : IdentityTree) (max_path_nodes : Z) (current : option Z) (path : list Z) :
    result TreeError (list Z) :=
  match fuel with
  | O => OutOfFuel
  | S fuel =>
      match current with
      | None => Ok (reverse path)
      | Some node_id =>
          if Nat.leb (size (nodes t)) (length path) then invariant "parent links contain a cycle"
          else if Z.of_nat (length path) =? max_path_nodes then Err (QueryLimitExceeded "path_to" max_path_nodes)
          else
            match nodes t !! node_id with
            | None => invariant "parent link points to a missing node"
            | Some node => path_loop fuel t max_path_nodes (tn_parent node) (path ++ [node_id])
            end
      end
  end.

Definition path_to_bounded (t : IdentityTree) (id max_path_nodes : Z) : result TreeError (list Z) :=
  let? _ := tree_lookup t id in
  path_loop (2 + size (nodes t)) t max_path_nodes (Some id) [].

(** [path_to] and [depth] *)
Definition path_to (t : IdentityTree) (id : Z) : result TreeError (list Z) :=
  path_to_bounded t id usize_max.
Definition tree_depth (t : IdentityTree) (id : Z) : result TreeError Z :=
  let? path := path_to t id in Ok (Z.max 0 (Z.of_nat (length path) - 1)).

(** The loop of [validate_tree_depth] *)
Fixpoint depth_loop (fuel : nat) (t : IdentityTree) (max_depth : Z) (pending : list (Z * Z)) :
    result ModelError () :=
  match fuel with
  | O => OutOfFuel
  | S fuel =>
      match pending with
      | [] => Ok ()
      | (id, depth) :: pending =>
          if max_depth <? depth then Err (LimitExceeded LimitTreeDepth max_depth depth)
          else
            match nodes t !! id with
            | None =>
                Err (TreeFault (TreeInvariant
                       "ordered link points to a missing node during depth validation"))
            | Some node =>
                depth_loop fuel t max_depth
                  (map (fun child => (child, usize_saturating_succ depth)) (tn_children node) ++ pending)
            end
      end
  end.

Definition validate_tree_depth (t : IdentityTree) (max_depth : Z) : result ModelError () :=
  depth_loop (S (size (nodes t))) t max_depth (map (fun id => (id, 0)) (roots t)).

(** [validate_bounded], of the limits' [max_nodes] and [max_tree_depth] *)
Definition validate_bounded (t : IdentityTree) (max_nodes max_tree_depth : Z) : result ModelError () :=
  if max_nodes <? Z.of_nat (size (nodes t))
  then Err (LimitExceeded LimitNodes max_nodes (Z.of_nat (size (nodes t))))
  else
    match tree_validate t with
    | Err e => Err (TreeFault e)
    | OutOfFuel => OutOfFuel
    | Ok _ => validate_tree_depth t max_tree_depth
    end.

(** ** The hash view *)

(** [HashTree::normalize] and [HashTree::from_tree] *)
Definition normalize (t : IdentityTree) : IdentityTree :=
  mkIdentityTree ((fun n => with_children (merge_sort Z.le (tn_children n)) n) <$> nodes t)
    (merge_sort Z.le (roots t)) (next_id t).

(** An operation of the backing tree that is followed by [normalize] when it
    succeeds. *)
Definition then_normalize {A} (m : TM A) : TM A :=
  do! a <- m in modify normalize ;! st_ret a.

Definition hash_insert (parent : option Z) (value : T) : TM Z := then_normalize (tree_insert parent value).
Definition hash_insert_with_id (parent : option Z) (id : Z) (value : T) : TM Z :=
  then_normalize (insert_with_id parent id value).

(** [add_with_id]: an identity that is there under the same parent is kept. *)
Definition hash_add_with_id (parent : option Z) (id : Z) (value : T) : TM Z :=
  do! t <- st_get in
  match nodes t !! id with
  | Some existing =>
      if negb (bool_decide (tn_parent existing = parent))
      then st_fail (ParentMismatch id (tn_parent existing) parent)
      else st_ret id
  | None => hash_insert_with_id parent id value
  end.

(** [set_with_id] *)
Definition hash_set_with_id (parent : option Z) (id : Z) (value : T) : TM Z :=
  do! t <- st_get in
  match nodes t !! id with
  | Some existing =>
      if negb (bool_decide (tn_parent existing = parent))
      then st_fail (ParentMismatch id (tn_parent existing) parent)
      else replace_subtree id value ;! st_ret id
  | None => hash_insert_with_id parent id value
  end.

Definition hash_remove (id : Z) : TM T := then_normalize (remove_subtree id).
Definition hash_remove_leaf (id : Z) : TM T := then_normalize (remove_leaf id).
Definition hash_clear_children (id : Z) : TM Z := then_normalize (clear_children id).

End tree.
Arguments TreeNode : clear implicits.
Arguments IdentityTree : clear implicits.
