(* ===== verification/ModelForest.v ===== *)
(** * The ordered forest an identity tree stands for

    The contract of [crates/model/src/tree.rs]: an ordered forest of labelled
    nodes, the edits that its operations promise on it, and the relation
    [represents] between a forest and the maps and lists that hold it.  The
    last part shows that a forest's edit changes the entries of one subtree and
    leaves all others alone. *)

From stdpp Require Import gmap sorting.
From S2P Require Import Prelude ModelTree.

Section forest.
Context {T : Type}.
Implicit Types (i d : Z) (v : T) (q : option Z).

Inductive rose := Rose (id : Z) (value : T) (children : list rose).

Definition rid (r : rose) : Z := match r with Rose i _ _ => i end.
Definition rvalue (r : rose) : T := match r with Rose _ v _ => v end.
Definition rchildren (r : rose) : list rose := match r with Rose _ _ cs => cs end.

(** Induction over a forest: the first tree's children, then its siblings. *)
Section induction.
Context (P : list rose -> Prop).
Hypothesis Pnil : P [].
Hypothesis Pcons : forall i v cs F, P cs -> P F -> P (Rose i v cs :: F).

Fixpoint tree_case (r : rose) : forall F, P F -> P (r :: F) :=
  match r with
  | Rose i v cs => fun F HF =>
      Pcons i v cs F
        ((fix all l : P l := match l with [] => Pnil | c :: l => tree_case c l (all l) end) cs) HF
  end.

Lemma forest_ind F : P F.
Proof. induction F as [|r F IH]; [exact Pnil | exact (tree_case r F IH)]. Qed.
End induction.

(** ** Reading a forest *)

(** The node a tree's root is stored as, and the entries of a whole forest in
    preorder. *)
Definition node_of q (r : rose) : TreeNode T :=
  mkTreeNode (rid r) q (rvalue r) (map rid (rchildren r)).

Fixpoint tentries q (r : rose) : list (Z * TreeNode T) :=
  match r with
  | Rose i v cs => (i, mkTreeNode i q v (map rid cs)) :: concat (map (tentries (Some i)) cs)
  end.
Definition entries q (F : list rose) : list (Z * TreeNode T) := concat (map (tentries q) F).

Definition ids (F : list rose) : list Z := (entries None F).*1.

(** The events of a walk over a forest at a depth. *)
Fixpoint ttour d (r : rose) : list VisitEvent :=
  match r with
  | Rose i _ cs => Enter i d :: concat (map (ttour (usize_saturating_succ d)) cs) ++ [Leave i d]
  end.
Definition tour d (F : list rose) : list VisitEvent := concat (map (ttour d) F).

(** The number of levels of a forest. *)
Fixpoint theight (r : rose) : Z :=
  match r with Rose _ _ cs => 1 + foldr Z.max 0 (map theight cs) end.
Definition height (F : list rose) : Z := foldr Z.max 0 (map theight F).

(** The paths from a root downwards. *)
Inductive downpath : list rose -> list Z -> Prop :=
| path_here F r : r ∈ F -> downpath F [rid r]
| path_down F r p : r ∈ F -> downpath (rchildren r) p -> downpath F (rid r :: p).

(** ** Editing a forest *)

(** The subtree of an identity replaced by its image. *)
Fixpoint talter i (f : rose -> rose) (r : rose) : rose :=
  match r with
  | Rose j v cs => if j =? i then f r else Rose j v (map (talter i f) cs)
  end.
Definition alter i (f : rose -> rose) (F : list rose) : list rose := map (talter i f) F.

Definition add_child (c : rose) (r : rose) : rose := Rose (rid r) (rvalue r) (rchildren r ++ [c]).
Definition set_value v (r : rose) : rose := Rose (rid r) v (rchildren r).
Definition no_children (r : rose) : rose := Rose (rid r) (rvalue r) [].
Definition drop_child i (r : rose) : rose :=
  Rose (rid r) (rvalue r) (filter (fun c => rid c <> i) (rchildren r)).

(** A new leaf at the end of its siblings. *)
Definition graft q i v (F : list rose) : list rose :=
  match q with
  | None => F ++ [Rose i v []]
  | Some p => alter p (add_child (Rose i v [])) F
  end.

(** The subtree of an identity taken out, wherever it is. *)
Fixpoint tprune i (r : rose) : rose :=
  match r with
  | Rose j v cs => Rose j v (filter (fun c => rid c <> i) (map (tprune i) cs))
  end.
Definition prune i (F : list rose) : list rose := filter (fun c => rid c <> i) (map (tprune i) F).

(** Siblings in identity order, at every level. *)
Definition rid_le (a b : rose) : Prop := rid a <= rid b.
#[global] Instance rid_le_dec : RelDecision rid_le := fun a b => decide (rid a <= rid b).

Fixpoint tsorted (r : rose) : rose :=
  match r with Rose i v cs => Rose i v (merge_sort rid_le (map tsorted cs)) end.
Definition in_order (F : list rose) : list rose := merge_sort rid_le (map tsorted F).

(** The subtree of an identity. *)
Fixpoint tfind i (r : rose) : option rose :=
  match r with
  | Rose j v cs =>
      if j =? i then Some r
      else foldr (fun c rest => match tfind i c with Some x => Some x | None => rest end) None cs
  end.
Definition find_in i (F : list rose) : option rose :=
  foldr (fun c rest => match tfind i c with Some x => Some x | None => rest end) None F.

(** ** The representation *)

Record represents (t : IdentityTree T) (F : list rose) : Prop := {
  rep_roots : roots t = map rid F;
  rep_nodup : NoDup (ids F);
  rep_nodes : nodes t = list_to_map (entries None F);
  rep_fresh : forall k, next_id t = Some k -> Forall (fun i => i < k) (ids F)
}.

(** A forest that is stored in a map, under a parent. *)
Definition held (m : gmap Z (TreeNode T)) q (F : list rose) : Prop :=
  Forall (fun e => m !! e.1 = Some e.2) (entries q F).

(** ** Equations *)

Lemma entries_cons q i v cs F :
  entries q (Rose i v cs :: F)
  = (i, mkTreeNode i q v (map rid cs)) :: entries (Some i) cs ++ entries q F.
Proof. done. Qed.

Lemma entries_app q F G : entries q (F ++ G) = entries q F ++ entries q G.
Proof. unfold entries. by rewrite map_app, concat_app. Qed.

Lemma entries_fst q F : (entries q F).*1 = ids F.
Proof.
  unfold ids. revert q. induction F as [|i v cs F _ IHF] using forest_ind; intros q; [done|].
  rewrite !entries_cons. cbn [fmap list_fmap fst]. by rewrite !fmap_app, (IHF q).
Qed.

Lemma ids_cons i v cs F : ids (Rose i v cs :: F) = i :: ids cs ++ ids F.
Proof.
  unfold ids at 1. rewrite entries_cons. cbn [fmap list_fmap fst]. by rewrite fmap_app, !entries_fst.
Qed.

Lemma ids_app F G : ids (F ++ G) = ids F ++ ids G.
Proof. unfold ids. by rewrite entries_app, fmap_app. Qed.

Lemma tour_cons d i v cs F :
  tour d (Rose i v cs :: F)
  = Enter i d :: tour (usize_saturating_succ d) cs ++ Leave i d :: tour d F.
Proof. unfold tour. cbn. by rewrite <- app_assoc. Qed.

Lemma height_cons i v cs F : height (Rose i v cs :: F) = Z.max (1 + height cs) (height F).
Proof. done. Qed.

Lemma alter_cons j f i v cs F :
  alter j f (Rose i v cs :: F)
  = (if i =? j then f (Rose i v cs) else Rose i v (alter j f cs)) :: alter j f F.
Proof. done. Qed.

Lemma held_nil m q : held m q [].
Proof. constructor. Qed.

Lemma held_cons m q i v cs F :
  held m q (Rose i v cs :: F)
  <-> m !! i = Some (mkTreeNode i q v (map rid cs)) /\ held m (Some i) cs /\ held m q F.
Proof. unfold held. by rewrite entries_cons, Forall_cons, Forall_app. Qed.

Lemma rids_in F : map rid F ⊆+ ids F.
Proof.
  induction F as [|i v cs F _ IHF] using forest_ind; [done|].
  rewrite ids_cons. cbn. apply submseteq_skip. etrans; [exact IHF|]. apply submseteq_inserts_l. done.
Qed.

(** ** Edits change one subtree *)

Definition keeps_id (f : rose -> rose) : Prop := forall r, rid (f r) = rid r.

Lemma find_cons j i v cs F :
  find_in j (Rose i v cs :: F)
  = if i =? j then Some (Rose i v cs)
    else match find_in j cs with Some x => Some x | None => find_in j F end.
Proof. unfold find_in. cbn. by destruct (i =? j). Qed.

Lemma rids_alter j f F : keeps_id f -> map rid (alter j f F) = map rid F.
Proof.
  intros Hf. unfold alter. rewrite map_map. apply map_ext. intros [i v cs]. cbn.
  destruct (i =? j); [by rewrite Hf | done].
Qed.

Lemma alter_absent j f F : j ∉ ids F -> alter j f F = F.
Proof.
  induction F as [|i v cs F IHcs IHF] using forest_ind; [done|].
  rewrite ids_cons, alter_cons. intros Hj. rewrite IHcs, IHF by set_solver.
  destruct (Z.eqb_spec i j); [set_solver | done].
Qed.

Lemma find_absent j F : j ∉ ids F -> find_in j F = None.
Proof.
  induction F as [|i v cs F IHcs IHF] using forest_ind; [done|].
  rewrite ids_cons, find_cons. intros Hj. rewrite IHcs, IHF by set_solver.
  destruct (Z.eqb_spec i j); [set_solver | done].
Qed.

Lemma nodup_cons i v cs F :
  NoDup (ids (Rose i v cs :: F))
  -> i ∉ ids cs /\ i ∉ ids F /\ NoDup (ids cs) /\ NoDup (ids F) /\ (forall j, j ∈ ids cs -> j ∉ ids F).
Proof. rewrite ids_cons, NoDup_cons, NoDup_app. set_solver. Qed.

Lemma perm_first {A} (e : A) l k m : e :: (l ++ k) ++ m ≡ₚ l ++ e :: k ++ m.
Proof. rewrite <- app_assoc. apply Permutation_middle. Qed.

Lemma perm_second {A} (e : A) l k m : e :: m ++ (l ++ k) ≡ₚ l ++ e :: m ++ k.
Proof. by rewrite <- Permutation_middle, Permutation_app_swap_app. Qed.

(** The subtree at an identity, and the entries around it, which an edit there
    does not touch. *)
Lemma focus q F i :
  NoDup (ids F) -> i ∈ ids F ->
  exists q' r rest,
    rid r = i /\ find_in i F = Some r /\ entries q F ≡ₚ tentries q' r ++ rest /\
    forall f, keeps_id f -> entries q (alter i f F) ≡ₚ tentries q' (f r) ++ rest.
Proof.
  revert q. induction F as [|j v cs F IHcs IHF] using forest_ind; intros q Hnd Hi; [by apply not_elem_of_nil in Hi|].
  apply nodup_cons in Hnd as (Hjc & HjF & Hc & HF & Hdisj). rewrite ids_cons in Hi.
  apply elem_of_cons in Hi as [->|[Hi|Hi]%elem_of_app].
  - exists q, (Rose j v cs), (entries q F). rewrite find_cons, Z.eqb_refl. split_and!; [done..|].
    intros f Hf. by rewrite alter_cons, Z.eqb_refl, alter_absent.
  - destruct (IHcs (Some j) Hc Hi) as (q' & r & rest & Hr & Hfind & Hent & Hf).
    assert (j =? i = false) as Hji by (apply Z.eqb_neq; congruence).
    exists q', r, ((j, mkTreeNode j q v (map rid cs)) :: rest ++ entries q F).
    rewrite find_cons, Hji, Hfind. split_and!; [done..| |].
    + rewrite entries_cons, Hent. apply perm_first.
    + intros f Hk. rewrite alter_cons, Hji, (alter_absent _ _ F) by (by apply Hdisj).
      rewrite entries_cons, (Hf f Hk), rids_alter by done. apply perm_first.
  - assert (i ∉ ids cs) as Hic by (intros Hic; by apply (Hdisj i)).
    destruct (IHF q HF Hi) as (q' & r & rest & Hr & Hfind & Hent & Hf).
    assert (j =? i = false) as Hji by (apply Z.eqb_neq; congruence).
    exists q', r, ((j, mkTreeNode j q v (map rid cs)) :: entries (Some j) cs ++ rest).
    rewrite find_cons, Hji, (find_absent _ cs) by done. split_and!; [done..| |].
    + rewrite entries_cons, Hent. apply perm_second.
    + intros f Hk. rewrite alter_cons, Hji, (alter_absent _ _ cs) by done.
      rewrite entries_cons, (Hf f Hk). apply perm_second.
Qed.

(** A subtree that is there is stored under its parent. *)
Lemma tentries_eq q r : tentries q r = (rid r, node_of q r) :: entries (Some (rid r)) (rchildren r).
Proof. by destruct r. Qed.

Lemma ids_single r : ids [r] = rid r :: ids (rchildren r).
Proof. destruct r as [i v cs]. rewrite ids_cons. by rewrite app_nil_r. Qed.

(** ** Links between entries *)

Lemma entry_id q F k n : (k, n) ∈ entries q F -> tn_id n = k.
Proof.
  revert q. induction F as [|i v cs F IHcs IHF] using forest_ind; intros q; [by intros ?%not_elem_of_nil|].
  rewrite entries_cons, elem_of_cons, elem_of_app. intros [[= -> ->]|[Hin|Hin]]; eauto.
Qed.

Lemma root_entry q F c : c ∈ map rid F -> exists n, (c, n) ∈ entries q F /\ tn_parent n = q.
Proof.
  induction F as [|i v cs F _ IHF] using forest_ind; [by intros ?%not_elem_of_nil|].
  rewrite entries_cons. cbn [map rid]. intros [->|Hc]%elem_of_cons.
  - eexists. split; [rewrite elem_of_cons; by left | done].
  - destruct (IHF Hc) as (n & Hn & Hq). exists n. split; [|done]. rewrite elem_of_cons, elem_of_app. auto.
Qed.

(** A child is stored, and names its parent. *)
Lemma child_entry q F k n c :
  (k, n) ∈ entries q F -> c ∈ tn_children n ->
  exists cn, (c, cn) ∈ entries q F /\ tn_parent cn = Some k.
Proof.
  revert q. induction F as [|i v cs F IHcs IHF] using forest_ind; intros q; [by intros ?%not_elem_of_nil|].
  rewrite entries_cons. setoid_rewrite elem_of_cons. setoid_rewrite elem_of_app.
  intros [[= -> ->]|[Hin|Hin]] Hc.
  - destruct (root_entry (Some i) cs c Hc) as (cn & Hcn & Hp). exists cn. auto.
  - destruct (IHcs _ Hin Hc) as (cn & Hcn & Hp). exists cn. auto.
  - destruct (IHF _ Hin Hc) as (cn & Hcn & Hp). exists cn. auto.
Qed.

(** A node's parent is stored, and lists it; without one it is a root. *)
Lemma parent_entry q F k n :
  (k, n) ∈ entries q F ->
  (tn_parent n = q /\ k ∈ map rid F)
  \/ exists a an, (a, an) ∈ entries q F /\ tn_parent n = Some a /\ k ∈ tn_children an.
Proof.
  revert q. induction F as [|i v cs F IHcs IHF] using forest_ind; intros q; [by intros ?%not_elem_of_nil|].
  rewrite entries_cons. cbn [map rid]. setoid_rewrite elem_of_cons. setoid_rewrite elem_of_app.
  intros [[= -> ->]|[Hin|Hin]].
  - left. auto.
  - right. destruct (IHcs _ Hin) as [[Hp Hk]|(a & an & Ha & Hp & Hk)].
    + exists i. eexists. split; [left; reflexivity | auto].
    + exists a, an. auto.
  - destruct (IHF _ Hin) as [[Hp Hk]|(a & an & Ha & Hp & Hk)]; [left; auto|].
    right. exists a, an. auto.
Qed.

(** Every identity is a root or a child of exactly one entry. *)
Lemma links_perm q F : map rid F ++ concat (map (fun e => tn_children e.2) (entries q F)) ≡ₚ ids F.
Proof.
  revert q. induction F as [|i v cs F IHcs IHF] using forest_ind; intros q; [done|].
  rewrite entries_cons, ids_cons. cbn. rewrite map_app, concat_app.
  apply perm_skip. rewrite <- (IHF q), <- (IHcs (Some i)), !app_assoc.
  f_equiv. rewrite (Permutation_app_comm (map rid F)). by rewrite <- !app_assoc, (Permutation_app_comm (map rid F)), !app_assoc.
Qed.

(** ** Pruning *)

Definition drop_link i (n : TreeNode T) : TreeNode T :=
  with_children (filter (fun c => c <> i) (tn_children n)) n.

Lemma rids_prune i F : map rid (prune i F) = filter (fun c => c <> i) (map rid F).
Proof.
  unfold prune. induction F as [|[j v cs] F IH]; [done|]. cbn [map tprune rid].
  rewrite !filter_cons. cbn [rid]. case_decide; cbn [map rid]; by rewrite IH.
Qed.

Lemma prune_cons i j v cs F :
  prune i (Rose j v cs :: F)
  = if decide (j <> i) then Rose j v (prune i cs) :: prune i F else prune i F.
Proof. unfold prune. cbn [map tprune]. rewrite filter_cons. cbn [rid]. by case_decide. Qed.

Lemma prune_absent i F : i ∉ ids F -> prune i F = F.
Proof.
  induction F as [|j v cs F IHcs IHF] using forest_ind; [done|].
  rewrite ids_cons, prune_cons. intros Hi. rewrite IHcs, IHF by set_solver.
  rewrite decide_True by set_solver. done.
Qed.

Lemma links_in q F k n : (k, n) ∈ entries q F -> forall c, c ∈ tn_children n -> c ∈ ids F.
Proof.
  intros Hin c Hc. destruct (child_entry _ _ _ _ _ Hin Hc) as (cn & Hcn & _).
  rewrite <- (entries_fst q). apply list_elem_of_fmap. by exists (c, cn).
Qed.

Lemma filter_out_absent i (l : list Z) : i ∉ l -> filter (fun c => c <> i) l = l.
Proof.
  induction l as [|j l IH]; [done|]. intros Hi. rewrite filter_cons, decide_True by set_solver.
  f_equal. apply IH. set_solver.
Qed.

Lemma drop_link_absent i n : i ∉ tn_children n -> drop_link i n = n.
Proof. intros Hi. unfold drop_link, with_children. rewrite filter_out_absent by done. by destruct n. Qed.

Lemma entries_drop_absent q F i : i ∉ ids F -> prod_map id (drop_link i) <$> entries q F = entries q F.
Proof.
  intros Hi. rewrite <- (list_fmap_id (entries q F)) at 2. apply list_fmap_ext. intros x [k n] Hin%list_elem_of_lookup_2.
  unfold prod_map. cbn. rewrite drop_link_absent; [done|]. intros Hc. by apply Hi, (links_in _ _ _ _ Hin).
Qed.

(** The entries of a pruned forest: those outside the subtree, without the
    link to it. *)
Lemma prune_entries q F i :
  NoDup (ids F) -> i ∈ ids F ->
  exists q' r rest,
    rid r = i /\ find_in i F = Some r /\ entries q F ≡ₚ tentries q' r ++ rest /\
    entries q (prune i F) ≡ₚ prod_map id (drop_link i) <$> rest.
Proof.
  revert q. induction F as [|j v cs F IHcs IHF] using forest_ind; intros q Hnd Hi; [by apply not_elem_of_nil in Hi|].
  apply nodup_cons in Hnd as (Hjc & HjF & Hc & HF & Hdisj). rewrite ids_cons in Hi.
  assert (forall cs', map rid cs' = filter (fun c => c <> i) (map rid cs) ->
    (j, mkTreeNode j q v (map rid cs')) = prod_map id (drop_link i) (j, mkTreeNode j q v (map rid cs))) as Hnode
    by (intros cs' Heq; unfold prod_map, drop_link, with_children; cbn; by rewrite Heq).
  apply elem_of_cons in Hi as [->|[Hi|Hi]%elem_of_app].
  - exists q, (Rose j v cs), (entries q F). rewrite find_cons, Z.eqb_refl, prune_cons, decide_False by naive_solver.
    rewrite entries_drop_absent, prune_absent by done. done.
  - destruct (IHcs (Some j) Hc Hi) as (q' & r & rest & Hr & Hfind & Hent & Hpr).
    assert (j <> i) as Hji by congruence.
    exists q', r, ((j, mkTreeNode j q v (map rid cs)) :: rest ++ entries q F).
    rewrite find_cons, (proj2 (Z.eqb_neq _ _) Hji), Hfind. split_and!; [done..| |].
    + rewrite entries_cons, Hent. apply perm_first.
    + rewrite prune_cons, decide_True, (prune_absent i F), entries_cons, Hpr by (by try apply Hdisj).
      by rewrite fmap_cons, fmap_app, entries_drop_absent, <- (Hnode _ (rids_prune i cs)) by (by apply Hdisj).
  - assert (i ∉ ids cs) as Hic by (intros Hic; by apply (Hdisj i)).
    destruct (IHF q HF Hi) as (q' & r & rest & Hr & Hfind & Hent & Hpr).
    assert (j <> i) as Hji by congruence.
    exists q', r, ((j, mkTreeNode j q v (map rid cs)) :: entries (Some j) cs ++ rest).
    rewrite find_cons, (proj2 (Z.eqb_neq _ _) Hji), (find_absent _ cs) by done. split_and!; [done..| |].
    + rewrite entries_cons, Hent. apply perm_second.
    + rewrite prune_cons, decide_True, entries_cons, Hpr by done.
      rewrite fmap_cons, fmap_app, <- (Hnode _ (rids_prune i cs)).
      by rewrite (prune_absent i cs), entries_drop_absent by done.
Qed.

End forest.
Arguments rose : clear implicits.
