(* ===== verification/ModelRefine.v ===== *)
(** * The identity tree implements the forest

    Every operation of [crates/model/src/tree.rs], on the maps and lists that
    represent a forest, returns what the forest's edit promises and leaves the
    representation of the edited forest.  The consistency check that removals
    run first is shown to accept every represented tree, and the search for a
    subtree's identities to find exactly them. *)

From stdpp Require Import gmap sorting.
From S2P Require Import Prelude ModelTree ModelForest.

Section facts.
Context {T : Type}.
Implicit Types (t : IdentityTree T) (F : list (rose T)) (i : Z) (q : option Z).

(** ** Looking at a represented tree *)

Lemma rep_keys t F : represents t F -> NoDup (entries None F).*1.
Proof. intros Hr. rewrite entries_fst. apply Hr. Qed.

Lemma rep_lookup t F i n : represents t F -> nodes t !! i = Some n <-> (i, n) ∈ entries None F.
Proof.
  intros Hr. rewrite (rep_nodes _ _ Hr). symmetry. apply elem_of_list_to_map, rep_keys with t, Hr.
Qed.

Lemma rep_held t F : represents t F -> held (nodes t) None F.
Proof. intros Hr. apply Forall_forall. intros [k n] Hin. by apply (rep_lookup _ _ _ _ Hr). Qed.

Lemma rep_in t F i : represents t F -> i ∈ ids F <-> is_Some (nodes t !! i).
Proof.
  intros Hr. unfold ids. rewrite list_elem_of_fmap. split.
  - intros ([k n] & -> & Hin). exists n. by apply (rep_lookup _ _ _ _ Hr).
  - intros [n Hn]. exists (i, n). split; [done | by apply (rep_lookup _ _ _ _ Hr)].
Qed.

Lemma rep_out t F i : represents t F -> nodes t !! i = None -> i ∉ ids F.
Proof. intros Hr Hn Hi. apply (rep_in _ _ _ Hr) in Hi as [n Hi]. congruence. Qed.

Lemma rep_size t F : represents t F -> size (nodes t) = length (ids F).
Proof.
  intros Hr. rewrite (rep_nodes _ _ Hr), map_size_list_to_map by (eapply rep_keys, Hr).
  unfold ids. by rewrite length_fmap.
Qed.

(** The subtree of a stored node, with what surrounds it. *)
Lemma rep_focus t F i n :
  represents t F -> nodes t !! i = Some n ->
  exists q r rest,
    rid r = i /\ n = node_of q r /\ find_in i F = Some r /\ entries None F ≡ₚ tentries q r ++ rest /\
    forall f, keeps_id f -> entries None (alter i f F) ≡ₚ tentries q (f r) ++ rest.
Proof.
  intros Hr Hn. assert (i ∈ ids F) as Hi by (apply (rep_in _ _ _ Hr); by rewrite Hn).
  destruct (focus None F i (rep_nodup _ _ Hr) Hi) as (q & r & rest & Hrid & Hfind & Hent & Hf).
  exists q, r, rest. split_and!; try done.
  assert ((i, node_of q r) ∈ entries None F) as Hin
    by (rewrite Hent, tentries_eq, Hrid; apply elem_of_app; left; apply elem_of_cons; by left).
  apply (rep_lookup _ _ _ _ Hr) in Hin. congruence.
Qed.

(** A representation after a change that keeps the roots. *)
Lemma represents_intro t F l :
  roots t = map rid F -> entries None F ≡ₚ l -> NoDup l.*1 -> nodes t = list_to_map l ->
  (forall k, next_id t = Some k -> Forall (fun i => i < k) l.*1) -> represents t F.
Proof.
  intros Hroots Hperm Hnd Hnodes Hfresh.
  assert (ids F ≡ₚ l.*1) as Hids by (unfold ids; by rewrite Hperm).
  split; [done | by rewrite Hids | | intros k Hk; rewrite Hids; auto].
  rewrite Hnodes. symmetry. apply list_to_map_proper; [|done]. by rewrite Hperm.
Qed.

(** ** The consistency check accepts *)

Lemma validate_roots_ok t l seen :
  (forall c, c ∈ l -> exists n, nodes t !! c = Some n /\ tn_parent n = None) ->
  NoDup l -> (forall c, c ∈ l -> c ∉ seen) ->
  validate_roots t l seen = Ok (list_to_set l ∪ seen).
Proof.
  revert seen. induction l as [|c l IH]; intros seen Hl Hnd Hseen; cbn [validate_roots].
  - f_equal. set_solver.
  - apply NoDup_cons in Hnd as [Hc Hnd]. destruct (Hl c) as (n & -> & ->); [set_solver|].
    rewrite (bool_decide_eq_false_2 (c ∈ seen)) by set_solver.
    rewrite bool_decide_eq_false_2 by (intros [? ?]; done). cbn. rewrite IH; [|set_solver..]. f_equal. set_solver.
Qed.

Lemma validate_children_ok t i l seen :
  (forall c, c ∈ l -> exists n, nodes t !! c = Some n /\ tn_parent n = Some i) ->
  NoDup l -> (forall c, c ∈ l -> c ∉ seen) ->
  validate_children t i l seen = Ok (list_to_set l ∪ seen).
Proof.
  revert seen. induction l as [|c l IH]; intros seen Hl Hnd Hseen; cbn [validate_children].
  - f_equal. set_solver.
  - apply NoDup_cons in Hnd as [Hc Hnd]. destruct (Hl c) as (n & -> & ->); [set_solver|].
    rewrite (bool_decide_eq_false_2 (c ∈ seen)) by set_solver.
    rewrite bool_decide_eq_true_2 by done. cbn. rewrite IH; [|set_solver..]. f_equal. set_solver.
Qed.

Definition links (l : list (Z * TreeNode T)) : list Z := concat (map (fun e => tn_children e.2) l).

Lemma validate_nodes_ok t l seen :
  (forall k n, (k, n) ∈ l -> tn_id n = k /\
     forall c, c ∈ tn_children n -> exists cn, nodes t !! c = Some cn /\ tn_parent cn = Some k) ->
  NoDup (links l) -> (forall c, c ∈ links l -> c ∉ seen) ->
  validate_nodes t l seen = Ok (list_to_set (links l) ∪ seen).
Proof.
  revert seen. induction l as [|[k n] l IH]; intros seen Hl Hnd Hseen; cbn [validate_nodes].
  - f_equal. cbn. set_solver.
  - cbn in Hnd, Hseen. apply NoDup_app in Hnd as (Hn & Hdisj & Hnd).
    destruct (Hl k n) as [Hid Hcs]; [set_solver|]. rewrite Hid, Z.eqb_refl. cbn [negb].
    rewrite validate_children_ok; [|done..|set_solver]. cbn [res_bind].
    rewrite IH; [|set_solver..]. f_equal. cbn. set_solver.
Qed.

Lemma in_key_order_perm (m : gmap Z (TreeNode T)) : in_key_order m ≡ₚ map_to_list m.
Proof. apply merge_sort_Permutation. Qed.

Lemma links_proper l l' : l ≡ₚ l' -> links l ≡ₚ links l'.
Proof. intros Hp. unfold links. by rewrite Hp. Qed.

Lemma validate_ok t F : represents t F -> tree_validate t = Ok ().
Proof.
  intros Hr. pose proof (links_perm None F) as Hlinks.
  assert (in_key_order (nodes t) ≡ₚ entries None F) as Hperm.
  { rewrite in_key_order_perm, (rep_nodes _ _ Hr). apply map_to_list_to_map. eapply rep_keys, Hr. }
  pose proof (rep_nodup _ _ Hr) as Hnd. rewrite <- Hlinks in Hnd. apply NoDup_app in Hnd as (Hnd1 & Hdisj & Hnd2).
  fold (links (entries None F)) in Hdisj, Hnd2, Hlinks. rewrite <- (links_proper _ _ Hperm) in Hlinks, Hnd2.
  unfold tree_validate. rewrite (rep_roots _ _ Hr), validate_roots_ok; [|..|set_solver]; [|..|done].
  2: { intros c Hc. destruct (root_entry None F c Hc) as (n & Hn & Hp). exists n. by rewrite (rep_lookup _ _ _ _ Hr). }
  cbn [res_bind]. rewrite validate_nodes_ok; [|..|done|].
  2: { intros k n Hin. rewrite Hperm in Hin. split; [by eapply entry_id|]. intros c Hc.
       destruct (child_entry _ _ _ _ _ Hin Hc) as (cn & Hcn & Hp). exists cn. by rewrite (rep_lookup _ _ _ _ Hr). }
  2: { intros c. rewrite (links_proper _ _ Hperm). set_solver. }
  cbn [res_bind]. replace (size _) with (size (nodes t)); [by rewrite Nat.eqb_refl|].
  rewrite (rep_size _ _ Hr), <- (size_list_to_set (C := gset Z) (ids F)) by apply Hr.
  f_equal. apply leibniz_equiv. intros x. rewrite !elem_of_union, !elem_of_list_to_set, elem_of_empty.
  rewrite <- Hlinks, elem_of_app. tauto.
Qed.

(** ** The identities of a subtree *)

Lemma push_children_ok t q i F pending :
  (forall c, c ∈ map rid F -> exists n, nodes t !! c = Some n /\ tn_parent n = Some i) ->
  push_children t i (reverse (map rid F)) pending = Ok (map rid F ++ pending).
Proof.
  intros HF. rewrite <- (reverse_involutive (map rid F)) at 2.
  assert (forall c, c ∈ reverse (map rid F) -> exists n, nodes t !! c = Some n /\ tn_parent n = Some i) as Hl
    by (intros c; rewrite elem_of_reverse; apply HF).
  revert pending Hl. induction (reverse (map rid F)) as [|c l IH]; intros pending Hl; [done|].
  cbn [push_children]. destruct (Hl c) as (n & -> & ->); [set_solver|].
  rewrite bool_decide_eq_true_2 by done. cbn [negb]. rewrite IH by set_solver.
  by rewrite reverse_cons, <- app_assoc.
Qed.

Lemma held_roots m q F c :
  held m q F -> c ∈ map rid F -> exists n, m !! c = Some n /\ tn_parent n = q.
Proof.
  intros Hh Hc. destruct (root_entry q F c Hc) as (n & Hn & Hp). exists n.
  split; [|done]. exact (proj1 (Forall_forall _ _) Hh _ Hn).
Qed.

Lemma collect_loop_forest t fuel pending F :
  forall q acc seen, held (nodes t) q F -> NoDup (ids F) -> (forall c, c ∈ ids F -> c ∉ seen) ->
  collect_loop (length (ids F) + fuel) t (map rid F ++ pending) acc seen
  = collect_loop fuel t pending (acc ++ ids F) (list_to_set (ids F) ∪ seen).
Proof.
  revert fuel pending. induction F as [|i v cs F IHcs IHF] using forest_ind; intros fuel pending q acc seen Hh Hnd Hseen.
  { cbn. rewrite app_nil_r. f_equal. set_solver. }
  apply held_cons in Hh as (Hi & Hcs & HF). apply nodup_cons in Hnd as (Hic & HiF & Hc & HnF & Hdisj).
  rewrite ids_cons in Hseen |- *. cbn [length app map rid Nat.add collect_loop]. rewrite Hi. cbn [tn_children].
  rewrite bool_decide_eq_false_2 by (apply Hseen; set_solver).
  rewrite (push_children_ok t q) by (intros c; by apply held_roots). cbn [res_bind].
  rewrite length_app, <- Nat.add_assoc, (IHcs _ _ (Some i)); [|done..|].
  2: { intros c Hc'. rewrite not_elem_of_union, not_elem_of_singleton.
       split; [congruence | apply Hseen; rewrite elem_of_cons, elem_of_app; auto]. }
  rewrite (IHF _ _ q); [|done..|].
  2: { intros c Hc'. rewrite !not_elem_of_union, elem_of_list_to_set, not_elem_of_singleton.
       split_and!; [intros Hin; by apply (Hdisj c) | congruence | apply Hseen; rewrite elem_of_cons, elem_of_app; auto]. }
  rewrite <- !app_assoc. cbn. f_equal. apply leibniz_equiv. clear. set_solver.
Qed.

Lemma collect_subtree_ok t q r :
  held (nodes t) q [r] -> NoDup (ids [r]) -> (length (ids [r]) <= size (nodes t))%nat ->
  collect_subtree_ids t (rid r) = Ok (ids [r]).
Proof.
  intros Hh Hnd Hlen. unfold collect_subtree_ids.
  replace (S (size (nodes t))) with (length (ids [r]) + S (size (nodes t) - length (ids [r])))%nat by lia.
  change [rid r] with (map rid [r] ++ []). rewrite (collect_loop_forest _ _ _ _ q) by (done || set_solver). done.
Qed.

Lemma collect_all_ok t q F acc :
  held (nodes t) q F -> NoDup (ids F) -> (length (ids F) <= size (nodes t))%nat ->
  collect_all t (map rid F) acc = Ok (acc ++ ids F).
Proof.
  revert acc. induction F as [|r F IH]; intros acc Hh Hnd Hlen; [by rewrite app_nil_r|].
  change (r :: F) with ([r] ++ F) in *. rewrite ids_app in Hnd, Hlen |- *. rewrite length_app in Hlen.
  unfold held in Hh. rewrite entries_app, Forall_app in Hh. destruct Hh as [H1 H2].
  apply NoDup_app in Hnd as (N1 & _ & N2).
  cbn [map app collect_all]. rewrite (collect_subtree_ok t q) by (done || lia). cbn [res_bind].
  rewrite IH by (done || lia). by rewrite app_assoc.
Qed.

End facts.
