(* ===== verification/ModelOps.v ===== *)
(** * Operations of the identity tree against their contract

    The operations of [crates/model/src/tree.rs] and of its hash view as steps
    of one machine, the contract of each on a forest and a counter, and the
    proof that every step agrees with its contract: the same result or the same
    error, and a tree that represents the contract's forest. *)

From stdpp Require Import gmap sorting.
From S2P Require Import Prelude ModelTree ModelForest ModelRefine.

Section ops.
Context {T : Type}.
Implicit Types (t : IdentityTree T) (F : list (rose T)) (i : Z) (q : option Z) (v : T).

(** ** Maps of entries *)

Lemma list_to_map_perm (l l' : list (Z * TreeNode T)) :
  NoDup l'.*1 -> l ≡ₚ l' -> (list_to_map l : gmap Z (TreeNode T)) = list_to_map l'.
Proof. intros Hnd Hp. apply list_to_map_proper; [by rewrite Hp | done]. Qed.

Lemma remove_nodes_app (l k : list (Z * TreeNode T)) :
  NoDup (l ++ k).*1 -> remove_nodes l.*1 (list_to_map (l ++ k)) = list_to_map k.
Proof.
  unfold remove_nodes. induction l as [|[i n] l IH]; [done|]. cbn. rewrite NoDup_cons. intros [Hi Hnd].
  rewrite delete_insert_id; [by apply IH|]. by apply not_elem_of_list_to_map.
Qed.

Lemma remove_below i n n' (l k : list (Z * TreeNode T)) :
  NoDup ((i, n) :: l ++ k).*1 ->
  remove_nodes l.*1 (<[i := n']> (list_to_map ((i, n) :: l ++ k))) = list_to_map ((i, n') :: k).
Proof.
  intros Hnd. cbn. rewrite insert_insert_eq.
  assert (NoDup (l ++ (i, n') :: k).*1) as Hnd' by (by rewrite <- Permutation_middle).
  etrans; [|exact (remove_nodes_app _ _ Hnd')]. f_equal.
  apply (list_to_map_perm ((i, n') :: l ++ k)); [done | apply Permutation_middle].
Qed.

(** ** Contracts *)

(** What is promised: a forest and the next identity. *)
Abbreviation Promise A := (ST (list (rose T) * option Z) TreeError A).

Definition need_parent q F : result TreeError () :=
  match q with
  | Some p => if bool_decide (p ∈ ids F) then Ok () else Err (ParentNotFound p)
  | None => Ok ()
  end.

Definition after_explicit i (next : option Z) : option Z :=
  match next with Some k => if k <=? i then succ_id i else Some k | None => None end.

Definition spec_insert q v : Promise Z := fun '(F, next) =>
  match need_parent q F, next with
  | Ok _, Some k => (Ok k, (graft q k v F, succ_id k))
  | Ok _, None => (Err NodeIdExhausted, (F, next))
  | Err e, _ => (Err e, (F, next))
  | OutOfFuel, _ => (OutOfFuel, (F, next))
  end.

Definition spec_insert_with_id q i v : Promise Z := fun '(F, next) =>
  if bool_decide (i ∈ ids F) then (Err (DuplicateNodeId i), (F, next))
  else
    match need_parent q F with
    | Ok _ => (Ok i, (graft q i v F, after_explicit i next))
    | Err e => (Err e, (F, next))
    | OutOfFuel => (OutOfFuel, (F, next))
    end.

(** An edit of the subtree of an identity, that returns something of it. *)
Definition spec_edit {A} i (edit : list (rose T) -> list (rose T)) (out : rose T -> A) : Promise A :=
  fun '(F, next) =>
    match find_in i F with
    | Some r => (Ok (out r), (edit F, next))
    | None => (Err (NodeNotFound i), (F, next))
    end.

Definition spec_replace i v : Promise T := spec_edit i (alter i (set_value v)) rvalue.
Definition spec_clear i : Promise Z :=
  spec_edit i (alter i no_children) (fun r => Z.of_nat (length (ids (rchildren r)))).
Definition spec_replace_subtree i v : Promise T :=
  spec_edit i (alter i (fun r => Rose (rid r) v [])) rvalue.
Definition spec_remove i : Promise T := spec_edit i (prune i) rvalue.
Definition spec_remove_leaf i : Promise T := fun '(F, next) =>
  match find_in i F with
  | Some r => if bool_decide (ids (rchildren r) = []) then spec_remove i (F, next)
              else (Err (NodeHasChildren i), (F, next))
  | None => (Err (NodeNotFound i), (F, next))
  end.

(** What an operation does is what it promises. *)
Definition agrees {A} (x : result TreeError A * IdentityTree T)
    (y : result TreeError A * (list (rose T) * option Z)) : Prop :=
  x.1 = y.1 /\ represents x.2 y.2.1 /\ next_id x.2 = y.2.2.

Definition keeps_promise {A} (m : ST (IdentityTree T) TreeError A) (promise : Promise A) : Prop :=
  forall t F, represents t F -> agrees (m t) (promise (F, next_id t)).

(** ** Insertion *)

Lemma require_parent_ok t F q : represents t F -> require_parent t q = need_parent q F.
Proof.
  intros Hr. destruct q as [p|]; [|done]. unfold require_parent, need_parent.
  destruct (nodes t !! p) eqn:Hp.
  - rewrite bool_decide_eq_true_2; [done|]. apply (rep_in _ _ _ Hr). by rewrite Hp.
  - rewrite bool_decide_eq_false_2; [done|]. by eapply rep_out.
Qed.

Lemma rep_contains t F i : represents t F -> bool_decide (is_Some (nodes t !! i)) = bool_decide (i ∈ ids F).
Proof. intros Hr. apply bool_decide_ext. symmetry. by apply rep_in. Qed.

(** The tree with a new leaf linked, before the counter moves. *)
Definition linked q i v t : IdentityTree T :=
  match q with
  | Some p => update_node p (fun n => with_children (tn_children n ++ [i]) n) t
  | None => with_roots (roots t ++ [i]) t
  end.
Definition grafted q i v t : IdentityTree T :=
  with_nodes (<[i := tree_node_new i q v]> (nodes (linked q i v t))) (linked q i v t).

Lemma graft_entries t F q i v :
  represents t F -> i ∉ ids F -> need_parent q F = Ok () ->
  exists l, entries None (graft q i v F) ≡ₚ (i, tree_node_new i q v) :: l /\ l.*1 ≡ₚ ids F /\
    nodes (linked q i v t) = list_to_map l /\ roots (linked q i v t) = map rid (graft q i v F).
Proof.
  intros Hr Hi Hq. destruct q as [p|]; cbn [graft linked].
  - cbn in Hq. case_bool_decide as Hp; [|done]. apply (rep_in _ _ _ Hr) in Hp as [n Hn].
    destruct (rep_focus _ _ _ _ Hr Hn) as (q & r & rest & Hrid & -> & _ & Hent & Hf).
    assert (keeps_id (add_child (Rose i v []))) as Hk by done.
    pose proof (rep_keys _ _ Hr) as Hnd. rewrite Hent, tentries_eq, Hrid in Hnd.
    set (n' := mkTreeNode p q (rvalue r) (map rid (rchildren r) ++ [i])).
    exists ((p, n') :: entries (Some p) (rchildren r) ++ rest). split_and!.
    + rewrite (Hf _ Hk), tentries_eq. cbn [add_child rid rchildren]. rewrite Hrid, entries_app.
      unfold node_of. cbn [rid rvalue rchildren add_child]. rewrite map_app, Hrid. cbn. rewrite <- !app_assoc. cbn.
      etrans; [apply perm_skip, Permutation_sym, Permutation_middle | apply perm_swap].
    + unfold ids. by rewrite Hent, tentries_eq, Hrid.
    + unfold update_node. rewrite Hn. cbn.
      rewrite (rep_nodes _ _ Hr), (list_to_map_perm _ _ Hnd) by (by rewrite Hent, tentries_eq, Hrid). cbn.
      rewrite insert_insert_eq. unfold with_children, node_of. cbn. by rewrite Hrid.
    + unfold update_node. rewrite Hn. cbn. rewrite (rep_roots _ _ Hr). symmetry. by apply rids_alter.
  - exists (entries None F). split_and!; [|by rewrite entries_fst| |].
    + rewrite entries_app. cbn. by rewrite <- Permutation_cons_append.
    + apply Hr.
    + cbn. by rewrite (rep_roots _ _ Hr), map_app.
Qed.

Lemma grafted_represents t F q i v next :
  represents t F -> i ∉ ids F -> need_parent q F = Ok () ->
  (forall k, next = Some k -> i < k /\ Forall (fun j => j < k) (ids F)) ->
  represents (with_next_id next (grafted q i v t)) (graft q i v F).
Proof.
  intros Hr Hi Hq Hnext. destruct (graft_entries t F q i v Hr Hi Hq) as (l & Hent & Hl & Hnodes & Hroots).
  apply (represents_intro _ _ ((i, tree_node_new i q v) :: l)); [done..| | |].
  - cbn. rewrite NoDup_cons, Hl. split; [done | apply Hr].
  - cbn. by rewrite Hnodes.
  - intros k Hk. cbn. rewrite Forall_cons, Hl. by apply Hnext.
Qed.

(** The code's own order of the two updates. *)
Lemma insert_with_id_eq t F q i v :
  represents t F -> i ∉ ids F -> need_parent q F = Ok () ->
  insert_with_id q i v t = (Ok i, advance_allocator_past i (grafted q i v t)).
Proof.
  intros Hr Hi Hq. unfold insert_with_id, st_bind, st_get, st_lift. cbn.
  rewrite (rep_contains _ _ _ Hr), bool_decide_eq_false_2, (require_parent_ok _ _ _ Hr), Hq by done.
  destruct q as [p|]; [|done]. cbn in Hq. case_bool_decide as Hp; [|done].
  apply (rep_in _ _ _ Hr) in Hp as [n Hn]. rewrite Hn. cbn. unfold grafted, linked, update_node. by rewrite Hn.
Qed.

Lemma succ_id_Some i k : succ_id i = Some k -> k = i + 1.
Proof. unfold succ_id, u64_checked_add. case_match; naive_solver. Qed.

Lemma advance_eq i t : advance_allocator_past i t = with_next_id (after_explicit i (next_id t)) t.
Proof.
  unfold advance_allocator_past, after_explicit. destruct t as [m l [k|]]; cbn; [|done].
  by destruct (k <=? i).
Qed.

Lemma next_id_grafted q i v t : next_id (grafted q i v t) = next_id t.
Proof. destruct q; [|done]. unfold grafted, linked, update_node. cbn. by case_match. Qed.

Lemma after_explicit_fresh t F i k :
  represents t F -> after_explicit i (next_id t) = Some k -> i < k /\ Forall (fun j => j < k) (ids F).
Proof.
  intros Hr. pose proof (rep_fresh _ _ Hr) as Hf. destruct (next_id t) as [n|]; cbn; [|done].
  specialize (Hf n eq_refl). destruct (Z.leb_spec n i).
  - intros ->%succ_id_Some. split; [lia|]. eapply Forall_impl; [exact Hf | intros x Hx; cbn beta in *; lia].
  - intros [= ->]. done.
Qed.

Lemma insert_with_id_promise q i v : keeps_promise (insert_with_id q i v) (spec_insert_with_id q i v).
Proof.
  intros t F Hr. unfold spec_insert_with_id. case_bool_decide as Hi.
  - unfold insert_with_id, st_bind, st_get. cbn.
    by rewrite (rep_contains _ _ _ Hr), bool_decide_eq_true_2.
  - destruct (need_parent q F) as [[]|e|] eqn:Hq.
    + rewrite (insert_with_id_eq _ _ _ _ _ Hr Hi Hq), advance_eq, next_id_grafted. cbn. split_and!; [done| |done].
      apply grafted_represents; try done. intros k Hk. by eapply after_explicit_fresh.
    + unfold insert_with_id, st_bind, st_get, st_lift. cbn.
      by rewrite (rep_contains _ _ _ Hr), bool_decide_eq_false_2, (require_parent_ok _ _ _ Hr), Hq.
    + unfold need_parent in Hq. by repeat case_match.
Qed.

Lemma rep_next_free t F k : represents t F -> next_id t = Some k -> k ∉ ids F.
Proof.
  intros Hr Hk Hin. exact (Z.lt_irrefl k (proj1 (Forall_forall _ _) (rep_fresh _ _ Hr _ Hk) k Hin)).
Qed.

Lemma insert_promise q v : keeps_promise (tree_insert q v) (spec_insert q v).
Proof.
  intros t F Hr. unfold spec_insert, tree_insert, st_bind at 1 2, st_get, st_lift. cbn [fst snd].
  rewrite (require_parent_ok _ _ _ Hr). destruct (need_parent q F) as [[]|e|] eqn:Hq; [|done|].
  2: { unfold need_parent in Hq. by repeat case_match. }
  unfold allocate_id, st_bind at 1 2, st_get. cbn [allocate_loop].
  unfold st_bind at 1, st_get. destruct (next_id t) as [k|] eqn:Hk; [|split_and!; cbn; [done|done|by rewrite Hk]].
  pose proof (rep_next_free _ _ _ Hr Hk) as Hfree.
  unfold st_bind at 1, modify. rewrite (rep_contains _ _ _ Hr), bool_decide_eq_false_2 by done. cbn [st_ret].
  set (t' := with_next_id (succ_id k) t).
  assert (forall j, succ_id k = Some j -> k < j /\ Forall (fun x => x < j) (ids F)) as Hnext.
  { intros j ->%succ_id_Some. split; [lia|]. eapply Forall_impl; [exact (rep_fresh _ _ Hr _ Hk) | intros x Hx; cbn beta in *; lia]. }
  assert (represents t' F) as Hr' by (destruct Hr; split; [done..|]; intros j Hj; by apply Hnext).
  unfold st_ret. rewrite (insert_with_id_eq _ _ _ _ _ Hr' Hfree Hq), advance_eq, next_id_grafted.
  assert (after_explicit k (next_id t') = succ_id k) as ->.
  { cbn. destruct (succ_id k) as [j|] eqn:Hj; [|done]. cbn.
    apply succ_id_Some in Hj as ->. by rewrite (proj2 (Z.leb_gt _ _)) by lia. }
  cbn. split_and!; [done| |done]. by apply grafted_represents.
Qed.

(** ** Edits of one subtree *)

Lemma entries_single q (r : rose T) : entries q [r] = tentries q r.
Proof. unfold entries. cbn. apply app_nil_r. Qed.

Lemma tentries_fst q (r : rose T) : (tentries q r).*1 = ids [r].
Proof. by rewrite <- entries_single, entries_fst. Qed.

(** A stored node's subtree is held, and has no identity twice. *)
Lemma focus_held t F q r rest :
  represents t F -> entries None F ≡ₚ tentries q r ++ rest ->
  held (nodes t) q [r] /\ NoDup (ids [r]) /\ (length (ids [r]) <= size (nodes t))%nat.
Proof.
  intros Hr Hent. pose proof (rep_held _ _ Hr) as Hh. unfold held in *. rewrite Hent in Hh.
  assert (ids F ≡ₚ ids [r] ++ rest.*1) as Hids by (by rewrite <- (tentries_fst q), <- fmap_app, <- Hent).
  pose proof (rep_nodup _ _ Hr) as Hnd. rewrite (rep_size _ _ Hr), Hids, length_app, entries_single.
  rewrite Hids in Hnd. apply Forall_app in Hh as [Hh _]. apply NoDup_app in Hnd as [Hnd _].
  split_and!; [done..|lia].
Qed.

(** Two trees with the same entries around a subtree. *)
Lemma edited_represents t F i f q r rest m :
  represents t F -> keeps_id f -> entries None F ≡ₚ tentries q r ++ rest ->
  entries None (alter i f F) ≡ₚ tentries q (f r) ++ rest ->
  ids [f r] ⊆+ ids [r] -> m = list_to_map (tentries q (f r) ++ rest) ->
  represents (with_nodes m t) (alter i f F).
Proof.
  intros Hr Hk Hent Hent' Hsub ->.
  assert ((tentries q (f r) ++ rest).*1 ⊆+ ids F) as Hin.
  { unfold ids at 1. rewrite Hent, !fmap_app. apply submseteq_app; [|done].
    by rewrite !tentries_fst. }
  apply (represents_intro _ _ (tentries q (f r) ++ rest)); [|done| |done|].
  - cbn. rewrite rids_alter by done. apply Hr.
  - apply submseteq_Permutation in Hin as [x Hx]. pose proof (rep_nodup _ _ Hr) as Hnd.
    rewrite Hx in Hnd. by apply NoDup_app in Hnd as [Hnd _].
  - intros k Hk'. apply submseteq_Permutation in Hin as [x Hx]. pose proof (rep_fresh _ _ Hr k Hk') as Hlt.
    rewrite Hx in Hlt. by apply Forall_app in Hlt as [Hlt _].
Qed.

Lemma lookup_ok t F i :
  represents t F ->
  match find_in i F with
  | Some r => exists q rest,
      rid r = i /\ nodes t !! i = Some (node_of q r) /\ entries None F ≡ₚ tentries q r ++ rest /\
      forall f, keeps_id f -> entries None (alter i f F) ≡ₚ tentries q (f r) ++ rest
  | None => nodes t !! i = None
  end.
Proof.
  intros Hr. destruct (nodes t !! i) as [n|] eqn:Hn.
  - destruct (rep_focus _ _ _ _ Hr Hn) as (q & r & rest & Hrid & -> & -> & Hent & Hf). by exists q, rest.
  - rewrite find_absent; [done|]. by eapply rep_out.
Qed.

Lemma nodes_focus t F q r rest :
  represents t F -> entries None F ≡ₚ tentries q r ++ rest ->
  NoDup (tentries q r ++ rest).*1 /\ nodes t = list_to_map (tentries q r ++ rest).
Proof.
  intros Hr Hent. assert (NoDup (tentries q r ++ rest).*1) as Hnd by (rewrite <- Hent; eapply rep_keys, Hr).
  split; [done|]. by rewrite (rep_nodes _ _ Hr), (list_to_map_perm _ _ Hnd Hent).
Qed.

Lemma replace_promise i v : keeps_promise (tree_replace i v) (spec_replace i v).
Proof.
  intros t F Hr. pose proof (lookup_ok t F i Hr) as Hl.
  unfold spec_replace, spec_edit, tree_replace, tree_lookup, st_bind, st_get, st_lift.
  destruct (find_in i F) as [r|]; [|by rewrite Hl].
  destruct Hl as (q & rest & Hrid & Hn & Hent & Hf). rewrite Hn. cbn. unfold update_node. rewrite Hn.
  destruct (nodes_focus _ _ _ _ _ Hr Hent) as [_ Hnodes].
  split_and!; [done| |done]. apply (edited_represents _ _ _ _ q r rest); try done; [by apply Hf| |].
  - rewrite !ids_single. done.
  - rewrite Hnodes, !tentries_eq. cbn. rewrite Hrid, insert_insert_eq. done.
Qed.

Lemma clear_eq t F i r q rest :
  represents t F -> rid r = i -> nodes t !! i = Some (node_of q r) -> entries None F ≡ₚ tentries q r ++ rest ->
  clear_children i t
  = (Ok (Z.of_nat (length (ids (rchildren r)))),
     with_nodes (list_to_map ((i, node_of q (no_children r)) :: rest)) t).
Proof.
  intros Hr Hrid Hn Hent. destruct (focus_held _ _ _ _ _ Hr Hent) as (Hh & Hnd & Hlen).
  destruct (nodes_focus _ _ _ _ _ Hr Hent) as [Hkeys Hnodes].
  destruct r as [j v cs]. cbn in Hrid. subst j. apply held_cons in Hh as (_ & Hh & _).
  rewrite ids_single in Hnd, Hlen. cbn [rid rchildren length] in Hnd, Hlen. apply NoDup_cons in Hnd as [_ Hnd].
  unfold clear_children, st_bind, st_get, st_lift, tree_lookup, tree_children, tree_lookup.
  rewrite Hn, (validate_ok _ _ Hr). cbn [ok_or res_bind node_of tn_children rchildren].
  rewrite (collect_all_ok t (Some i)) by (done || lia). cbn. unfold update_node. rewrite Hn.
  unfold with_nodes. cbn. do 2 f_equal. rewrite <- (entries_fst (Some i) cs).
  rewrite Hnodes. apply (remove_below i). exact Hkeys.
Qed.

Lemma clear_promise i : keeps_promise (clear_children i) (spec_clear i).
Proof.
  intros t F Hr. pose proof (lookup_ok t F i Hr) as Hl. unfold spec_clear, spec_edit.
  destruct (find_in i F) as [r|].
  - destruct Hl as (q & rest & Hrid & Hn & Hent & Hf). rewrite (clear_eq _ _ _ _ _ _ Hr Hrid Hn Hent).
    split_and!; [done| |done]. apply (edited_represents _ _ _ _ q r rest); try done; [by apply Hf| |].
    + rewrite !ids_single. apply submseteq_skip, submseteq_nil_l.
    + rewrite tentries_eq. cbn. by rewrite Hrid.
  - unfold clear_children, st_bind, st_get, st_lift, tree_lookup. by rewrite Hl.
Qed.

Lemma replace_subtree_promise i v : keeps_promise (replace_subtree i v) (spec_replace_subtree i v).
Proof.
  intros t F Hr. pose proof (lookup_ok t F i Hr) as Hl. unfold spec_replace_subtree, spec_edit.
  unfold replace_subtree, st_bind, st_get, st_lift, tree_lookup.
  destruct (find_in i F) as [r|]; [|by rewrite Hl].
  destruct Hl as (q & rest & Hrid & Hn & Hent & Hf). rewrite Hn. cbn [ok_or].
  rewrite (clear_eq _ _ _ _ _ _ Hr Hrid Hn Hent).
  unfold tree_replace, st_bind, st_get, st_lift, tree_lookup, modify, update_node, with_nodes. cbn.
  rewrite lookup_insert_eq. cbn. rewrite insert_insert_eq.
  split_and!; [done| |done]. apply (edited_represents _ _ i (fun r => Rose (rid r) v []) q r rest); try done; [by apply Hf| |].
  - rewrite !ids_single. apply submseteq_skip, submseteq_nil_l.
  - rewrite tentries_eq. cbn. by subst i.
Qed.

(** ** Removal *)

(** A pruned forest is held by the map without the subtree, whose parent has
    lost its link. *)
Lemma drop_link_elsewhere t F i n k n' :
  represents t F -> nodes t !! i = Some n -> nodes t !! k = Some n' -> tn_parent n <> Some k ->
  drop_link i n' = n'.
Proof.
  intros Hr Hn Hk Hp. apply drop_link_absent. intros Hc. apply (rep_lookup _ _ _ _ Hr) in Hk.
  destruct (child_entry _ _ _ _ _ Hk Hc) as (cn & Hcn & Hcp).
  apply (rep_lookup _ _ _ _ Hr) in Hcn. congruence.
Qed.

(** The tree after the link to [i] is cut and before its nodes are removed. *)
Definition unlinked i q t : IdentityTree T :=
  match q with
  | Some p => update_node p (drop_link i) t
  | None => with_roots (filter (fun root => root <> i) (roots t)) t
  end.

Lemma unlinked_nodes t F i n :
  represents t F -> nodes t !! i = Some n -> nodes (unlinked i (tn_parent n) t) = drop_link i <$> nodes t.
Proof.
  intros Hr Hn. apply map_eq. intros k. rewrite lookup_fmap. unfold unlinked.
  destruct (tn_parent n) as [p|] eqn:Hp.
  - apply (rep_lookup _ _ _ _ Hr) in Hn as Hin. apply parent_entry in Hin as [[Hp' _]|(a & an & Ha & Hp' & _)]; [congruence|].
    assert (a = p) as -> by congruence. apply (rep_lookup _ _ _ _ Hr) in Ha. unfold update_node. rewrite Ha. cbn.
    destruct (decide (p = k)) as [->|Hpk]; [by rewrite lookup_insert_eq, Ha|].
    rewrite lookup_insert_ne by done. destruct (nodes t !! k) as [n'|] eqn:Hk; [|done]. cbn. f_equal.
    symmetry. eapply drop_link_elsewhere; [done..|]. congruence.
  - cbn. destruct (nodes t !! k) as [n'|] eqn:Hk; [|done]. cbn. f_equal.
    symmetry. eapply drop_link_elsewhere; [done..|]. congruence.
Qed.

Lemma unlinked_roots t F i n :
  represents t F -> nodes t !! i = Some n -> roots (unlinked i (tn_parent n) t) = map rid (prune i F).
Proof.
  intros Hr Hn. rewrite rids_prune. unfold unlinked. destruct (tn_parent n) as [p|] eqn:Hp.
  - rewrite filter_out_absent.
    + unfold update_node. rewrite <- (rep_roots _ _ Hr). by case_match.
    + intros Hc. destruct (root_entry None F i Hc) as (n' & Hn' & Hp').
      apply (rep_lookup _ _ _ _ Hr) in Hn'. congruence.
  - cbn. by rewrite (rep_roots _ _ Hr).
Qed.

Lemma unlinked_next t i q : next_id (unlinked i q t) = next_id t.
Proof. destruct q; [|done]. cbn. unfold update_node. by case_match. Qed.

Lemma prune_represents t F i n r :
  represents t F -> nodes t !! i = Some n -> find_in i F = Some r ->
  represents (with_nodes (remove_nodes (ids [r]) (nodes (unlinked i (tn_parent n) t)))
                (unlinked i (tn_parent n) t)) (prune i F).
Proof.
  intros Hr Hn Hfind. assert (i ∈ ids F) as Hi by (apply (rep_in _ _ _ Hr); by rewrite Hn).
  destruct (prune_entries None F i (rep_nodup _ _ Hr) Hi) as (q & r' & rest & Hrid & Hfind' & Hent & Hpr).
  assert (r' = r) as -> by congruence.
  destruct (nodes_focus _ _ _ _ _ Hr Hent) as [Hnd Hnodes].
  assert ((prod_map id (drop_link i) <$> rest).*1 = rest.*1) as Hkeys by (rewrite <- list_fmap_compose; done).
  rewrite fmap_app, NoDup_app in Hnd. destruct Hnd as (Hnd1 & Hdisj & Hnd2).
  apply (represents_intro _ _ (prod_map id (drop_link i) <$> rest)); rewrite ?Hkeys; try done.
  - cbn. by eapply unlinked_roots.
  - cbn [nodes with_nodes]. rewrite (unlinked_nodes _ _ _ _ Hr Hn), Hnodes, <- list_to_map_fmap, fmap_app, <- (tentries_fst q r).
    assert ((prod_map id (drop_link i) <$> tentries q r).*1 = (tentries q r).*1) as <-
      by (rewrite <- list_fmap_compose; done).
    apply remove_nodes_app. rewrite fmap_app, Hkeys, <- !list_fmap_compose. by apply NoDup_app.
  - cbn. rewrite unlinked_next. intros k Hk. pose proof (rep_fresh _ _ Hr k Hk) as Hlt. unfold ids in Hlt.
    rewrite Hent, fmap_app, Forall_app in Hlt. apply Hlt.
Qed.

Lemma remove_eq t F i r q rest :
  represents t F -> rid r = i -> nodes t !! i = Some (node_of q r) -> entries None F ≡ₚ tentries q r ++ rest ->
  remove_subtree i t
  = (Ok (rvalue r), with_nodes (remove_nodes (ids [r]) (nodes (unlinked i q t))) (unlinked i q t)).
Proof.
  intros Hr Hrid Hn Hent. destruct (focus_held _ _ _ _ _ Hr Hent) as (Hh & Hnd & Hlen).
  pose proof (unlinked_nodes _ _ _ _ Hr Hn) as Hun. cbn [node_of tn_parent] in Hun.
  unfold remove_subtree, st_bind, st_get, st_lift, tree_lookup.
  rewrite Hn, (validate_ok _ _ Hr). cbn [ok_or]. rewrite <- Hrid, (collect_subtree_ok t q r Hh Hnd Hlen), Hrid.
  assert (bool_decide (i ∈ ids [r]) = true) as Hin
    by (apply bool_decide_eq_true_2; rewrite ids_single, Hrid; apply elem_of_cons; by left).
  assert (nodes (unlinked i q t) !! i = Some (drop_link i (node_of q r))) as Hi by (by rewrite Hun, lookup_fmap, Hn).
  cbn [node_of tn_parent]. destruct q as [p|].
  - apply (rep_lookup _ _ _ _ Hr) in Hn as Hent'.
    apply parent_entry in Hent' as [[Hp' _]|(a & an & Ha & Hp' & _)]; [done|].
    cbn in Hp'. injection Hp' as <-. apply (rep_lookup _ _ _ _ Hr) in Ha. rewrite Ha.
    unfold modify. change (fun n => with_children _ n) with (drop_link (T := T) i).
    change (update_node p (drop_link i) t) with (unlinked i (Some p) t). by rewrite Hin, Hi.
  - unfold modify. change (with_roots (filter (fun root => root <> i) (roots t)) t) with (unlinked i None t).
    by rewrite Hin, Hi.
Qed.

Lemma remove_promise i : keeps_promise (remove_subtree i) (spec_remove i).
Proof.
  intros t F Hr. pose proof (lookup_ok t F i Hr) as Hl. unfold spec_remove, spec_edit.
  destruct (find_in i F) as [r|] eqn:Hfind.
  - destruct Hl as (q & rest & Hrid & Hn & Hent & _). rewrite (remove_eq _ _ _ _ _ _ Hr Hrid Hn Hent).
    split_and!; [done|exact (prune_represents _ _ _ _ _ Hr Hn Hfind)|apply unlinked_next].
  - unfold remove_subtree, st_bind, st_get, st_lift, tree_lookup. by rewrite Hl.
Qed.

Lemma ids_nil_iff F : ids F = [] <-> F = [].
Proof. split; [|by intros ->]. destruct F as [|[i v cs] F]; [done|]. by rewrite ids_cons. Qed.

Lemma remove_leaf_promise i : keeps_promise (remove_leaf i) (spec_remove_leaf i).
Proof.
  intros t F Hr. pose proof (lookup_ok t F i Hr) as Hl. unfold spec_remove_leaf.
  unfold remove_leaf, st_bind, st_get, st_lift, tree_is_leaf, tree_lookup.
  destruct (find_in i F) as [r|] eqn:Hfind; [|by rewrite Hl].
  destruct Hl as (q & rest & Hrid & Hn & _). rewrite Hn. cbn [ok_or res_bind node_of tn_children].
  rewrite (bool_decide_ext _ (ids (rchildren r) = [])) by (rewrite ids_nil_iff; by destruct (rchildren r)).
  case_bool_decide; cbn [negb]; [by apply remove_promise | done].
Qed.

End ops.
