(* ===== verification/ModelSteps.v ===== *)
(** * Histories of an identity tree

    The hash view of [crates/model/src/tree.rs], whose siblings are sorted
    after every structural change, and histories of operations in any order:
    from the empty tree they all stay representations of the forest that the
    contracts build. *)

From stdpp Require Import gmap sorting.
From S2P Require Import Prelude ModelTree ModelForest ModelRefine ModelOps.

Section steps.
Context {T : Type}.
Implicit Types (t : IdentityTree T) (F : list (rose T)) (i : Z) (q : option Z) (v : T).

(** ** Sorting the siblings *)

Definition sort_node (n : TreeNode T) : TreeNode T := with_children (merge_sort Z.le (tn_children n)) n.

Lemma rid_tsorted (r : rose T) : rid (tsorted r) = rid r.
Proof. by destruct r. Qed.

#[local] Instance rid_le_total : Total (rid_le (T := T)).
Proof. intros a b. unfold rid_le. lia. Qed.
#[local] Instance rid_le_trans : Transitive (rid_le (T := T)).
Proof. intros a b c. unfold rid_le. lia. Qed.

(** Sorting trees by their identity sorts the identities. *)
Lemma rids_sorted F : map rid (in_order F) = merge_sort Z.le (map rid F).
Proof.
  apply (StronglySorted_unique Z.le).
  - pose proof (StronglySorted_merge_sort rid_le (map tsorted F)) as Hs. unfold in_order.
    induction Hs as [|r l Hs IH Hall]; cbn; constructor; [done|]. by apply Forall_map.
  - apply (StronglySorted_merge_sort _).
  - rewrite merge_sort_Permutation. unfold in_order.
    etrans; [apply Permutation_map, merge_sort_Permutation|]. rewrite map_map.
    by rewrite (map_ext _ _ rid_tsorted).
Qed.

Lemma entries_perm q F G : F ≡ₚ G -> entries q F ≡ₚ entries q G.
Proof. intros Hp. unfold entries. by rewrite Hp. Qed.

Lemma in_order_perm F : in_order F ≡ₚ map tsorted F.
Proof. apply merge_sort_Permutation. Qed.

Lemma entries_sorted q F : entries q (in_order F) ≡ₚ prod_map id sort_node <$> entries q F.
Proof.
  rewrite (entries_perm _ _ _ (in_order_perm F)). revert q.
  induction F as [|i v cs F IHcs IHF] using forest_ind; intros q; [done|].
  cbn [map tsorted]. rewrite !entries_cons, fmap_cons, fmap_app. fold (in_order cs).
  rewrite (entries_perm _ _ _ (in_order_perm cs)), IHcs, IHF.
  unfold prod_map at 3, sort_node at 3, with_children. cbn [fst snd tn_id tn_parent tn_value tn_children id].
  by rewrite <- rids_sorted.
Qed.

Lemma normalize_represents t F : represents t F -> represents (normalize t) (in_order F).
Proof.
  intros Hr. assert ((prod_map id sort_node <$> entries None F).*1 = ids F) as Hkeys
    by (unfold ids; rewrite <- list_fmap_compose; done).
  apply (represents_intro _ _ (prod_map id sort_node <$> entries None F)); rewrite ?Hkeys; try apply Hr.
  - cbn. by rewrite rids_sorted, (rep_roots _ _ Hr).
  - apply entries_sorted.
  - cbn. by rewrite list_to_map_fmap, <- (rep_nodes _ _ Hr).
Qed.

(** ** Histories *)

Inductive TreeOp :=
| OpInsert q v
| OpInsertWithId q i v
| OpReplace i v
| OpReplaceSubtree i v
| OpRemove i
| OpRemoveLeaf i
| OpClearChildren i
| OpHashInsert q v
| OpHashInsertWithId q i v
| OpHashAddWithId q i v
| OpHashSetWithId q i v
| OpHashRemove i
| OpHashRemoveLeaf i
| OpHashClearChildren i.

(** What an operation returns: an identity, a value or a count. *)
Inductive Returned := AnId i | AValue v | ACount (n : Z).

Definition returning {St A} (f : A -> Returned) (m : ST St TreeError A) : ST St TreeError Returned :=
  do! a <- m in st_ret (f a).

Definition perform (op : TreeOp) : ST (IdentityTree T) TreeError Returned :=
  match op with
  | OpInsert q v => returning AnId (tree_insert q v)
  | OpInsertWithId q i v => returning AnId (insert_with_id q i v)
  | OpReplace i v => returning AValue (tree_replace i v)
  | OpReplaceSubtree i v => returning AValue (replace_subtree i v)
  | OpRemove i => returning AValue (remove_subtree i)
  | OpRemoveLeaf i => returning AValue (remove_leaf i)
  | OpClearChildren i => returning ACount (clear_children i)
  | OpHashInsert q v => returning AnId (hash_insert q v)
  | OpHashInsertWithId q i v => returning AnId (hash_insert_with_id q i v)
  | OpHashAddWithId q i v => returning AnId (hash_add_with_id q i v)
  | OpHashSetWithId q i v => returning AnId (hash_set_with_id q i v)
  | OpHashRemove i => returning AValue (hash_remove i)
  | OpHashRemoveLeaf i => returning AValue (hash_remove_leaf i)
  | OpHashClearChildren i => returning ACount (hash_clear_children i)
  end.

(** The contracts of the hash view: sorted after a success, and nothing done to
    an identity that is there under another parent. *)
Abbreviation Promise A := (ST (list (rose T) * option Z) TreeError A).

Definition sorted_after {A} (p : Promise A) : Promise A :=
  do! a <- p in fun '(F, next) => (Ok a, (in_order F, next)).

Definition parent_in F i : option (option Z) :=
  tn_parent <$> (list_to_map (entries None F) : gmap Z (TreeNode T)) !! i.

(** [existing] when the identity is there under the parent named, [absent] when
    it is new. *)
Definition by_parent q i (existing absent : Promise Z) : Promise Z := fun '(F, next) =>
  match parent_in F i with
  | Some p => if bool_decide (p = q) then existing (F, next)
              else (Err (ParentMismatch i p q), (F, next))
  | None => absent (F, next)
  end.

Definition promised (op : TreeOp) : Promise Returned :=
  match op with
  | OpInsert q v => returning AnId (spec_insert q v)
  | OpInsertWithId q i v => returning AnId (spec_insert_with_id q i v)
  | OpReplace i v => returning AValue (spec_replace i v)
  | OpReplaceSubtree i v => returning AValue (spec_replace_subtree i v)
  | OpRemove i => returning AValue (spec_remove i)
  | OpRemoveLeaf i => returning AValue (spec_remove_leaf i)
  | OpClearChildren i => returning ACount (spec_clear i)
  | OpHashInsert q v => returning AnId (sorted_after (spec_insert q v))
  | OpHashInsertWithId q i v => returning AnId (sorted_after (spec_insert_with_id q i v))
  | OpHashAddWithId q i v =>
      returning AnId (by_parent q i (st_ret i) (sorted_after (spec_insert_with_id q i v)))
  | OpHashSetWithId q i v =>
      returning AnId (by_parent q i (spec_replace_subtree i v ;! st_ret i)
                        (sorted_after (spec_insert_with_id q i v)))
  | OpHashRemove i => returning AValue (sorted_after (spec_remove i))
  | OpHashRemoveLeaf i => returning AValue (sorted_after (spec_remove_leaf i))
  | OpHashClearChildren i => returning ACount (sorted_after (spec_clear i))
  end.

(** A history: the results of its operations and what is left. *)
Fixpoint history {St} (step : TreeOp -> ST St TreeError Returned) (ops : list TreeOp) (s : St) :
    list (result TreeError Returned) * St :=
  match ops with
  | [] => ([], s)
  | op :: ops =>
      let '(r, s) := step op s in
      let '(rs, s) := history step ops s in (r :: rs, s)
  end.

(** ** Every step keeps its promise *)

Lemma bind_promise {A B} (m : ST (IdentityTree T) TreeError A) (p : Promise A)
    (k : A -> ST (IdentityTree T) TreeError B) kp :
  keeps_promise m p -> (forall a, keeps_promise (k a) (kp a)) -> keeps_promise (st_bind m k) (st_bind p kp).
Proof.
  intros Hm Hk t F Hr. specialize (Hm t F Hr). unfold st_bind.
  destruct (m t) as [r t'], (p (F, next_id t)) as [r' [F' n']]. destruct Hm as (Hres & Hrep & Hnext).
  cbn in Hres, Hrep, Hnext. subst r' n'. destruct r; [by apply Hk | done..].
Qed.

Lemma ret_promise {A} (a : A) : keeps_promise (T := T) (st_ret a) (st_ret a).
Proof. done. Qed.

Lemma returning_promise {A} (f : A -> Returned) (m : ST (IdentityTree T) TreeError A) p :
  keeps_promise m p -> keeps_promise (returning f m) (returning f p).
Proof. intros Hm. apply bind_promise; [done | intros a; apply ret_promise]. Qed.

Lemma normalize_promise {A} (m : ST (IdentityTree T) TreeError A) p :
  keeps_promise m p -> keeps_promise (then_normalize m) (sorted_after p).
Proof.
  intros Hm. apply bind_promise; [done|]. intros a t F Hr.
  split_and!; [done | by apply normalize_represents | done].
Qed.

Lemma by_parent_promise q i (existing absent : ST (IdentityTree T) TreeError Z) existing' absent' :
  keeps_promise existing existing' -> keeps_promise absent absent' ->
  keeps_promise
    (do! t <- st_get in
     match nodes t !! i with
     | Some n =>
         if negb (bool_decide (tn_parent n = q)) then st_fail (ParentMismatch i (tn_parent n) q) else existing
     | None => absent
     end)
    (by_parent q i existing' absent').
Proof.
  intros He Ha t F Hr. unfold st_bind, st_get, by_parent, parent_in. rewrite <- (rep_nodes _ _ Hr).
  destruct (nodes t !! i) as [n|]; cbn; [|by apply Ha].
  case_bool_decide; cbn; [by apply He | done].
Qed.

Lemma perform_promise op : keeps_promise (perform op) (promised op).
Proof.
  destruct op; apply returning_promise;
    eauto using normalize_promise, by_parent_promise, bind_promise, ret_promise, insert_promise,
      insert_with_id_promise, replace_promise, replace_subtree_promise, remove_promise,
      remove_leaf_promise, clear_promise.
Qed.

(** The empty tree stands for the empty forest. *)
Lemma new_represents : represents (T := T) identity_tree_new [].
Proof. split; try done; constructor. Qed.

Lemma tree_history_refines ops t F :
  represents t F ->
  let impl := history perform ops t in
  let abs := history promised ops (F, next_id t) in
  impl.1 = abs.1 /\ represents impl.2 abs.2.1 /\ next_id impl.2 = abs.2.2.
Proof.
  revert t F. induction ops as [|op ops IH]; intros t F Hr; [done|]. cbn.
  pose proof (perform_promise op t F Hr) as Hop.
  destruct (perform op t) as [r t'], (promised op (F, next_id t)) as [r' [F' n']].
  destruct Hop as (Hres & Hrep & Hnext). cbn in Hres, Hrep, Hnext. subst r' n'. specialize (IH t' F' Hrep).
  destruct (history perform ops t') as [rs t''], (history promised ops (F', next_id t')) as [rs' s''].
  cbn in IH |- *. destruct IH as (-> & Hrep' & Hnext'). done.
Qed.

(** A tree that some history of operations leaves. *)
Definition grown t : Prop := exists ops, t = (history perform ops identity_tree_new).2.

Lemma grown_represents t : grown t -> exists F, represents t F.
Proof. intros [ops ->]. eexists. apply (tree_history_refines ops _ [] new_represents). Qed.

End steps.
Arguments TreeOp : clear implicits.
