(* ===== verification/ModelWalk.v ===== *)
(** * Walks over an identity tree

    The iterative walks of [crates/model/src/tree.rs] keep an explicit stack
    and a set of visited identities.  On a represented tree each of them is the
    recursive reading of the forest: the traversal delivers the forest's tour,
    the checked queries and the preorder iterator see its entries in order. *)

From stdpp Require Import gmap.
From S2P Require Import Prelude ModelTree ModelForest ModelRefine.

Section walk.
Context {T : Type}.
Implicit Types (t : IdentityTree T) (F : list (rose T)) (i d : Z) (q : option Z).

(** Visited identities grow by those of the forest that was walked. *)
Definition seen_after F (visited : gset Z) : gset Z := list_to_set (ids F) ∪ visited.

Lemma seen_after_cons i v (cs : list (rose T)) F visited :
  seen_after F (seen_after cs ({[i]} ∪ visited)) = seen_after (Rose i v cs :: F) visited.
Proof. unfold seen_after. rewrite ids_cons. cbn. apply leibniz_equiv. set_solver. Qed.

(** None of a forest's identities was visited. *)
Definition unseen F (visited : gset Z) : Prop := forall c, c ∈ ids F -> c ∉ visited.

Lemma unseen_cons i v (cs : list (rose T)) F visited :
  NoDup (ids (Rose i v cs :: F)) -> unseen (Rose i v cs :: F) visited ->
  bool_decide (i ∈ visited) = false /\ unseen cs ({[i]} ∪ visited) /\
  unseen F (seen_after cs ({[i]} ∪ visited)) /\ NoDup (ids cs) /\ NoDup (ids F).
Proof.
  intros (Hic & HiF & Hc & HF & Hdisj)%nodup_cons Hu. unfold unseen in Hu. rewrite ids_cons in Hu.
  split_and!; [|intros c Hc'|intros c Hc'|done|done].
  - apply bool_decide_eq_false_2, Hu, elem_of_cons. by left.
  - rewrite not_elem_of_union, not_elem_of_singleton. split; [congruence|].
    apply Hu. rewrite elem_of_cons, elem_of_app. auto.
  - unfold seen_after. rewrite !not_elem_of_union, elem_of_list_to_set, not_elem_of_singleton.
    split_and!; [intros Hin; by apply (Hdisj c) | congruence|].
    apply Hu. rewrite elem_of_cons, elem_of_app. auto.
Qed.

Lemma child_here (cs0 : list (rose T)) i v cs F :
  map rid (cs0 ++ Rose i v cs :: F) !! length cs0 = Some i.
Proof. rewrite map_app, lookup_app_r, length_map, Nat.sub_diag by (by rewrite length_map). done. Qed.

Lemma no_child_here (cs : list (rose T)) : map rid cs !! length cs = None.
Proof. apply lookup_ge_None. by rewrite length_map. Qed.

Lemma snoc_cons (cs0 : list (rose T)) c F : cs0 ++ c :: F = (cs0 ++ [c]) ++ F.
Proof. by rewrite <- app_assoc. Qed.

Lemma length_snoc (cs0 : list (rose T)) c : length (cs0 ++ [c]) = S (length cs0).
Proof. rewrite length_app. cbn. lia. Qed.

(** The turns a walk takes for the trees at the top, which are pushed and
    entered in one. *)
Definition top_turns F : nat := foldr (fun r n => 2 + 3 * length (ids (rchildren r)) + n)%nat 0%nat F.

Lemma top_turns_bound F : (top_turns F <= 3 * length (ids F))%nat.
Proof.
  induction F as [|[i v cs] F IH]; [done|]. rewrite ids_cons. cbn [top_turns foldr rchildren length].
  rewrite length_app. fold (top_turns F). lia.
Qed.

(** ** The traversal *)
Section traverse.
Context {S' : Type} (visitor : S' -> VisitEvent -> TraversalControl * S') (max_events : Z).

(** The events of a list handed to the visitor one by one: [inl] when the walk
    ends there, [inr] with the counts and the visitor's state when it goes on. *)
Fixpoint deliver (es : list VisitEvent) (events entered : Z) (s : S') :
    (result TreeError TraversalOutcome * S') + (Z * Z * S') :=
  match es with
  | [] => inr (events, entered, s)
  | e :: es =>
      if max_events <=? events then inl (Err (TraversalLimitExceeded max_events), s)
      else
        let entered := if is_enter e then entered + 1 else entered in
        match visitor s e with
        | (VisitStop, s) => inl (Ok (mkTraversal (events + 1) entered true), s)
        | (VisitContinue, s) => deliver es (events + 1) entered s
        end
  end.

(** What a traversal makes of the events of a whole walk. *)
Definition handed_out (es : list VisitEvent) (s : S') : result TreeError TraversalOutcome * S' :=
  match deliver es 0 0 s with
  | inl res => res
  | inr (events, entered, s) => (Ok (mkTraversal events entered false), s)
  end.

Definition continue_with (es : list VisitEvent) (events entered : Z) (s : S')
    (k : Z -> Z -> S' -> result TreeError TraversalOutcome * S') : result TreeError TraversalOutcome * S' :=
  match deliver es events entered s with
  | inl res => res
  | inr (events, entered, s) => k events entered s
  end.

Lemma continue_app es es' events entered s k :
  continue_with (es ++ es') events entered s k
  = continue_with es events entered s (fun events entered s => continue_with es' events entered s k).
Proof.
  unfold continue_with. revert events entered s. induction es as [|e es IH]; intros events entered s; [done|].
  cbn. destruct (max_events <=? events); [done|]. destruct (visitor s e) as [[] s']; [apply IH | done].
Qed.

Lemma continue_cons e es events entered s k :
  continue_with (e :: es) events entered s k
  = continue_with [e] events entered s (fun events entered s => continue_with es events entered s k).
Proof. apply (continue_app [e]). Qed.

Lemma continue_ext es events entered s k k' :
  (forall a b c, k a b c = k' a b c) -> continue_with es events entered s k = continue_with es events entered s k'.
Proof. intros Hk. unfold continue_with. destruct (deliver _ _ _ _) as [|[[a b] c]]; [done | apply Hk]. Qed.

(** A turn that pushes a child. *)
Lemma turn_push fuel t nr i d k st visited events entered s node c :
  nodes t !! i = Some node -> tn_children node !! k = Some c -> bool_decide (c ∈ visited) = false ->
  traverse_loop visitor (S fuel) t max_events (mkWalk nr (mkTravFrame i d k true :: st) visited events entered) s
  = traverse_loop visitor fuel t max_events
      (mkWalk nr (mkTravFrame c (usize_saturating_succ d) 0 false :: mkTravFrame i d (S k) true :: st)
         ({[c]} ∪ visited) events entered) s.
Proof.
  intros Hn Hc Hv. cbn [traverse_loop walk_root wk_stack]. unfold walk_turn. cbn. rewrite Hn, Hc, Hv. done.
Qed.

(** A turn that enters a node. *)
Lemma turn_enter fuel t nr i d k st visited events entered s node :
  nodes t !! i = Some node ->
  traverse_loop visitor (S fuel) t max_events (mkWalk nr (mkTravFrame i d k false :: st) visited events entered) s
  = continue_with [Enter i d] events entered s (fun events entered s =>
      traverse_loop visitor fuel t max_events
        (mkWalk nr (mkTravFrame i d k true :: st) visited events entered) s).
Proof.
  intros Hn. cbn [traverse_loop walk_root wk_stack]. unfold walk_turn, continue_with. cbn. rewrite Hn. cbn.
  destruct (max_events <=? events); [done|]. by destruct (visitor s _) as [[] s'].
Qed.

(** A turn that leaves a node. *)
Lemma turn_leave fuel t nr i d k st visited events entered s node :
  nodes t !! i = Some node -> tn_children node !! k = None ->
  traverse_loop visitor (S fuel) t max_events (mkWalk nr (mkTravFrame i d k true :: st) visited events entered) s
  = continue_with [Leave i d] events entered s (fun events entered s =>
      traverse_loop visitor fuel t max_events (mkWalk nr st visited events entered) s).
Proof.
  intros Hn Hc. cbn [traverse_loop walk_root wk_stack]. unfold walk_turn, continue_with. cbn. rewrite Hn, Hc. cbn.
  destruct (max_events <=? events); [done|]. by destruct (visitor s _) as [[] s'].
Qed.

(** The children of a node, from the one that is next. *)
Lemma traverse_children t fuel nr st F :
  forall q i v d cs0 visited events entered s,
  held (nodes t) (Some i) F -> NoDup (ids F) -> unseen F visited ->
  nodes t !! i = Some (mkTreeNode i q v (map rid (cs0 ++ F))) ->
  traverse_loop visitor (3 * length (ids F) + fuel) t max_events
    (mkWalk nr (mkTravFrame i d (length cs0) true :: st) visited events entered) s
  = continue_with (tour (usize_saturating_succ d) F) events entered s (fun events entered s =>
      traverse_loop visitor fuel t max_events
        (mkWalk nr (mkTravFrame i d (length (cs0 ++ F)) true :: st) (seen_after F visited) events entered) s).
Proof.
  revert fuel st. induction F as [|j w ds F IHds IHF] using forest_ind;
    intros fuel st q i v d cs0 visited events entered s Hh Hnd Hu Hi.
  { unfold continue_with. cbn. rewrite app_nil_r. by replace (seen_after [] visited) with visited by (unfold seen_after; set_solver). }
  apply held_cons in Hh as (Hj & Hds & HF).
  destruct (unseen_cons _ _ _ _ _ Hnd Hu) as (Hv & Huds & HuF & Hndds & HndF).
  rewrite tour_cons, ids_cons. cbn [length]. rewrite length_app.
  replace (3 * S (length (ids ds) + length (ids F)) + fuel)%nat
    with (S (S (3 * length (ids ds) + S (3 * length (ids F) + fuel)))) by lia.
  rewrite (turn_push _ _ _ _ _ _ _ _ _ _ _ _ j Hi (child_here cs0 j w ds F) Hv).
  rewrite (turn_enter _ _ _ _ _ _ _ _ _ _ _ _ Hj).
  rewrite (continue_cons _ (tour _ ds ++ _)). apply continue_ext. intros ev en s1.
  pose proof (IHds (S (3 * length (ids F) + fuel)) (mkTravFrame i d (S (length cs0)) true :: st) (Some i) j w
    (usize_saturating_succ d) [] _ ev en s1 Hds Hndds Huds Hj) as Hinner. cbn [length app] in Hinner. rewrite Hinner.
  rewrite continue_app. apply continue_ext. intros ev' en' s2.
  rewrite (turn_leave _ _ _ _ _ _ _ _ _ _ _ _ Hj (no_child_here ds)).
  rewrite (continue_cons _ (tour _ F)). apply continue_ext. intros ev'' en'' s3.
  rewrite <- (length_snoc cs0 (Rose j w ds)), (IHF _ _ q i v _ (cs0 ++ [Rose j w ds]));
    [|done..|by rewrite <- snoc_cons].
  apply continue_ext. intros. by rewrite <- snoc_cons, (seen_after_cons j w).
Qed.

(** The trees at the top, from the one that is next. *)
Lemma traverse_roots t fuel F :
  forall F0 visited events entered s,
  held (nodes t) None F -> NoDup (ids F) -> unseen F visited -> roots t = map rid (F0 ++ F) ->
  traverse_loop visitor (top_turns F + fuel) t max_events (mkWalk (length F0) [] visited events entered) s
  = continue_with (tour 0 F) events entered s (fun events entered s =>
      traverse_loop visitor fuel t max_events
        (mkWalk (length (F0 ++ F)) [] (seen_after F visited) events entered) s).
Proof.
  induction F as [|[j w ds] F IHF]; intros F0 visited events entered s Hh Hnd Hu Hroots.
  { unfold continue_with. cbn. rewrite app_nil_r. by replace (seen_after [] visited) with visited by (unfold seen_after; set_solver). }
  apply held_cons in Hh as (Hj & Hds & HF).
  destruct (unseen_cons _ _ _ _ _ Hnd Hu) as (Hv & Huds & HuF & Hndds & HndF).
  rewrite tour_cons. cbn [top_turns foldr rchildren]. fold (top_turns F).
  replace (2 + 3 * length (ids ds) + top_turns F + fuel)%nat
    with (S (3 * length (ids ds) + S (top_turns F + fuel))) by lia.
  transitivity (traverse_loop visitor (S (3 * length (ids ds) + S (top_turns F + fuel))) t max_events
    (mkWalk (S (length F0)) [mkTravFrame j 0 0 false] ({[j]} ∪ visited) events entered) s).
  { cbn [traverse_loop]. unfold walk_root at 1. cbn [wk_stack wk_next_root wk_visited wk_events wk_entered].
    rewrite Hroots, child_here, Hv. done. }
  rewrite (turn_enter _ _ _ _ _ _ _ _ _ _ _ _ Hj).
  rewrite (continue_cons _ (tour _ ds ++ _)). apply continue_ext. intros ev en s1.
  pose proof (traverse_children t (S (top_turns F + fuel)) (S (length F0)) [] ds None j w 0 [] _ ev en s1
    Hds Hndds Huds Hj) as Hinner. cbn [length app] in Hinner. rewrite Hinner.
  rewrite continue_app. apply continue_ext. intros ev' en' s2.
  rewrite (turn_leave _ _ _ _ _ _ _ _ _ _ _ _ Hj (no_child_here ds)).
  rewrite (continue_cons _ (tour _ F)). apply continue_ext. intros ev'' en'' s3.
  rewrite <- (length_snoc F0 (Rose j w ds)), (IHF (F0 ++ [Rose j w ds])); [|done..|by rewrite <- snoc_cons].
  apply continue_ext. intros. by rewrite <- snoc_cons, (seen_after_cons j w).
Qed.

Lemma traverse_tour t F s :
  represents t F -> traverse_bounded visitor t max_events s = handed_out (tour 0 F) s.
Proof.
  intros Hr. unfold traverse_bounded, walk_fuel. rewrite (rep_size _ _ Hr). pose proof (top_turns_bound F).
  replace (2 + 3 * length (ids F))%nat with (top_turns F + S (1 + 3 * length (ids F) - top_turns F))%nat by lia.
  pose proof (traverse_roots t (S (1 + 3 * length (ids F) - top_turns F)) F [] ∅ 0 0 s) as Hwalk.
  cbn [length app] in Hwalk. rewrite Hwalk; [|by apply rep_held|apply Hr|by intros ? _ ?%not_elem_of_empty|apply Hr].
  unfold handed_out, continue_with. destruct (deliver _ _ _ _) as [|[[ev en] s']]; [done|].
  cbn [traverse_loop]. unfold walk_root. cbn. by rewrite (rep_roots _ _ Hr), no_child_here.
Qed.
End traverse.

Definition nodes_of q F : list (TreeNode T) := (entries q F).*2.

Lemma nodes_of_cons q i v (cs : list (rose T)) F :
  nodes_of q (Rose i v cs :: F) = mkTreeNode i q v (map rid cs) :: nodes_of (Some i) cs ++ nodes_of q F.
Proof. unfold nodes_of. rewrite entries_cons. cbn. by rewrite fmap_app. Qed.

(** ** The checked queries *)
Section checked.
Context {S' : Type} (visitor : S' -> TreeNode T -> result TreeError S') (node_limit : option (string * Z)).

Fixpoint visit_all (ns : list (TreeNode T)) (count : Z) (s : S') : result TreeError (Z * S') :=
  match ns with
  | [] => Ok (count, s)
  | n :: ns =>
      let? _ := limit_reached node_limit count in
      let? s := visitor s n in
      visit_all ns (usize_saturating_succ count) s
  end.

Definition and_then (r : result TreeError (Z * S')) (k : Z -> S' -> result TreeError (Z * S')) :
    result TreeError (Z * S') :=
  let? out := r in k out.1 out.2.

Lemma visit_app ns ns' count s k :
  and_then (visit_all (ns ++ ns') count s) k
  = and_then (visit_all ns count s) (fun count s => and_then (visit_all ns' count s) k).
Proof.
  revert count s. induction ns as [|n ns IH]; intros count s; [done|]. cbn.
  destruct (limit_reached _ _); [|done..]. cbn. destruct (visitor s n); [apply IH | done..].
Qed.

Lemma visit_cons n ns count s k :
  and_then (visit_all (n :: ns) count s) k
  = and_then (visit_all [n] count s) (fun count s => and_then (visit_all ns count s) k).
Proof. apply (visit_app [n]). Qed.

Lemma and_then_ext r k k' : (forall a b, k a b = k' a b) -> and_then r k = and_then r k'.
Proof. intros Hk. unfold and_then. destruct r; cbn; [apply Hk | done..]. Qed.

Lemma checked_push fuel t nr i k st visited count s node c :
  nodes t !! i = Some node -> tn_children node !! k = Some c -> bool_decide (c ∈ visited) = false ->
  checked_loop visitor node_limit (S fuel) t nr (mkPreFrame i k true :: st) visited count s
  = checked_loop visitor node_limit fuel t nr (mkPreFrame c 0 false :: mkPreFrame i (S k) true :: st)
      ({[c]} ∪ visited) count s.
Proof. intros Hn Hc Hv. cbn. by rewrite Hn, Hc, Hv. Qed.

Lemma checked_enter fuel t nr i k st visited count s node :
  nodes t !! i = Some node ->
  checked_loop visitor node_limit (S fuel) t nr (mkPreFrame i k false :: st) visited count s
  = and_then (visit_all [node] count s) (fun count s =>
      checked_loop visitor node_limit fuel t nr (mkPreFrame i k true :: st) visited count s).
Proof.
  intros Hn. cbn. rewrite Hn. cbn. destruct (limit_reached _ _); [|done..]. cbn. by destruct (visitor s node).
Qed.

Lemma checked_leave fuel t nr i k st visited count s node :
  nodes t !! i = Some node -> tn_children node !! k = None ->
  checked_loop visitor node_limit (S fuel) t nr (mkPreFrame i k true :: st) visited count s
  = checked_loop visitor node_limit fuel t nr st visited count s.
Proof. intros Hn Hc. cbn. by rewrite Hn, Hc. Qed.

Lemma checked_children t fuel nr st F :
  forall q i v cs0 visited count s,
  held (nodes t) (Some i) F -> NoDup (ids F) -> unseen F visited ->
  nodes t !! i = Some (mkTreeNode i q v (map rid (cs0 ++ F))) ->
  checked_loop visitor node_limit (3 * length (ids F) + fuel) t nr
    (mkPreFrame i (length cs0) true :: st) visited count s
  = and_then (visit_all (nodes_of (Some i) F) count s) (fun count s =>
      checked_loop visitor node_limit fuel t nr
        (mkPreFrame i (length (cs0 ++ F)) true :: st) (seen_after F visited) count s).
Proof.
  revert fuel st. induction F as [|j w ds F IHds IHF] using forest_ind;
    intros fuel st q i v cs0 visited count s Hh Hnd Hu Hi.
  { cbn. rewrite app_nil_r. by replace (seen_after [] visited) with visited by (unfold seen_after; set_solver). }
  apply held_cons in Hh as (Hj & Hds & HF).
  destruct (unseen_cons _ _ _ _ _ Hnd Hu) as (Hv & Huds & HuF & Hndds & HndF).
  rewrite nodes_of_cons, ids_cons. cbn [length]. rewrite length_app.
  replace (3 * S (length (ids ds) + length (ids F)) + fuel)%nat
    with (S (S (3 * length (ids ds) + S (3 * length (ids F) + fuel)))) by lia.
  rewrite (checked_push _ _ _ _ _ _ _ _ _ _ j Hi (child_here cs0 j w ds F) Hv), (checked_enter _ _ _ _ _ _ _ _ _ _ Hj).
  rewrite (visit_cons _ (nodes_of _ ds ++ _)). apply and_then_ext. intros c1 s1.
  pose proof (IHds (S (3 * length (ids F) + fuel)) (mkPreFrame i (S (length cs0)) true :: st) (Some i) j w
    [] _ c1 s1 Hds Hndds Huds Hj) as Hinner. cbn [length app] in Hinner. rewrite Hinner, visit_app.
  apply and_then_ext. intros c2 s2. rewrite (checked_leave _ _ _ _ _ _ _ _ _ _ Hj (no_child_here ds)).
  rewrite <- (length_snoc cs0 (Rose j w ds)), (IHF _ _ q i v (cs0 ++ [Rose j w ds]));
    [|done..|by rewrite <- snoc_cons].
  apply and_then_ext. intros. by rewrite <- snoc_cons, (seen_after_cons j w).
Qed.

Lemma checked_roots t fuel F :
  forall F0 visited count s,
  held (nodes t) None F -> NoDup (ids F) -> unseen F visited -> roots t = map rid (F0 ++ F) ->
  checked_loop visitor node_limit (top_turns F + fuel) t (length F0) [] visited count s
  = and_then (visit_all (nodes_of None F) count s) (fun count s =>
      checked_loop visitor node_limit fuel t (length (F0 ++ F)) [] (seen_after F visited) count s).
Proof.
  induction F as [|[j w ds] F IHF]; intros F0 visited count s Hh Hnd Hu Hroots.
  { cbn. rewrite app_nil_r. by replace (seen_after [] visited) with visited by (unfold seen_after; set_solver). }
  apply held_cons in Hh as (Hj & Hds & HF).
  destruct (unseen_cons _ _ _ _ _ Hnd Hu) as (Hv & Huds & HuF & Hndds & HndF).
  rewrite nodes_of_cons. cbn [top_turns foldr rchildren]. fold (top_turns F).
  replace (2 + 3 * length (ids ds) + top_turns F + fuel)%nat
    with (S (3 * length (ids ds) + S (top_turns F + fuel))) by lia.
  transitivity (checked_loop visitor node_limit (S (3 * length (ids ds) + S (top_turns F + fuel))) t
    (S (length F0)) [mkPreFrame j 0 false] ({[j]} ∪ visited) count s).
  { cbn [checked_loop]. unfold checked_root at 1. by rewrite Hroots, child_here, Hv. }
  rewrite (checked_enter _ _ _ _ _ _ _ _ _ _ Hj).
  rewrite (visit_cons _ (nodes_of _ ds ++ _)). apply and_then_ext. intros c1 s1.
  pose proof (checked_children t (S (top_turns F + fuel)) (S (length F0)) [] ds None j w [] _ c1 s1
    Hds Hndds Huds Hj) as Hinner. cbn [length app] in Hinner. rewrite Hinner, visit_app.
  apply and_then_ext. intros c2 s2. rewrite (checked_leave _ _ _ _ _ _ _ _ _ _ Hj (no_child_here ds)).
  rewrite <- (length_snoc F0 (Rose j w ds)), (IHF (F0 ++ [Rose j w ds])); [|done..|by rewrite <- snoc_cons].
  apply and_then_ext. intros. by rewrite <- snoc_cons, (seen_after_cons j w).
Qed.

Lemma checked_nodes t F s :
  represents t F -> visit_preorder_checked visitor node_limit t s = visit_all (nodes_of None F) 0 s.
Proof.
  intros Hr. unfold visit_preorder_checked, walk_fuel. rewrite (rep_size _ _ Hr). pose proof (top_turns_bound F).
  replace (2 + 3 * length (ids F))%nat with (top_turns F + S (1 + 3 * length (ids F) - top_turns F))%nat by lia.
  pose proof (checked_roots t (S (1 + 3 * length (ids F) - top_turns F)) F [] ∅ 0 s) as Hwalk.
  cbn [length app] in Hwalk. rewrite Hwalk; [|by apply rep_held|apply Hr|by intros ? _ ?%not_elem_of_empty|apply Hr].
  unfold and_then. destruct (visit_all _ _ _) as [[c s']|e|]; [|done..].
  cbn [res_bind checked_loop fst snd]. unfold checked_root. by rewrite (rep_roots _ _ Hr), no_child_here.
Qed.
End checked.
End walk.
