(* ===== verification/ModelPaths.v ===== *)
(** * The preorder iterator, paths and depths of an identity tree

    The iterator of [crates/model/src/tree.rs] yields a represented forest's
    nodes in preorder and ends; a path follows the parent links up to a root;
    the bounded validation measures the forest's height. *)

From stdpp Require Import gmap.
From S2P Require Import Prelude ModelTree ModelForest ModelRefine ModelWalk.

Section paths.
Context {T : Type}.
Implicit Types (t : IdentityTree T) (F : list (rose T)) (i d : Z) (q : option Z) (it : PreorderIter).

(** ** The iterator *)

(** The loop of [next] and the loop of its caller run as one. *)
Fixpoint iter_all (fuel : nat) t it : result TreeError (list (TreeNode T)) :=
  match fuel with
  | O => OutOfFuel
  | S fuel =>
      match iter_turn t it with
      | None => Ok []
      | Some (Some n, it) => let? l := iter_all fuel t it in Ok (n :: l)
      | Some (None, it) => iter_all fuel t it
      end
  end.

Definition prepend (ns : list (TreeNode T)) (r : result TreeError (list (TreeNode T))) :
    result TreeError (list (TreeNode T)) := let? l := r in Ok (ns ++ l).

Lemma prepend_app ns ns' r : prepend (ns ++ ns') r = prepend ns (prepend ns' r).
Proof. destruct r; cbn; by rewrite <- ?app_assoc. Qed.

Lemma prepend_cons n ns r : prepend (n :: ns) r = prepend [n] (prepend ns r).
Proof. apply (prepend_app [n]). Qed.

Lemma prepend_nil r : prepend [] r = r.
Proof. by destruct r. Qed.

Lemma iter_push fuel t nr i k st visited node c :
  nodes t !! i = Some node -> tn_children node !! k = Some c -> bool_decide (c ∈ visited) = false ->
  iter_all (S fuel) t (mkIter nr (mkPreFrame i k true :: st) visited)
  = iter_all fuel t (mkIter nr (mkPreFrame c 0 false :: mkPreFrame i (S k) true :: st) ({[c]} ∪ visited)).
Proof. intros Hn Hc Hv. cbn [iter_all]. unfold iter_turn. cbn. by rewrite Hn, Hc, Hv. Qed.

Lemma iter_enter fuel t nr i k st visited node :
  nodes t !! i = Some node ->
  iter_all (S fuel) t (mkIter nr (mkPreFrame i k false :: st) visited)
  = prepend [node] (iter_all fuel t (mkIter nr (mkPreFrame i k true :: st) visited)).
Proof. intros Hn. cbn [iter_all]. unfold iter_turn. cbn. by rewrite Hn. Qed.

Lemma iter_leave fuel t nr i k st visited node :
  nodes t !! i = Some node -> tn_children node !! k = None ->
  iter_all (S fuel) t (mkIter nr (mkPreFrame i k true :: st) visited)
  = iter_all fuel t (mkIter nr st visited).
Proof. intros Hn Hc. cbn [iter_all]. unfold iter_turn. cbn. by rewrite Hn, Hc. Qed.

Lemma iter_children t fuel nr st F :
  forall q i v cs0 visited,
  held (nodes t) (Some i) F -> NoDup (ids F) -> unseen F visited ->
  nodes t !! i = Some (mkTreeNode i q v (map rid (cs0 ++ F))) ->
  iter_all (3 * length (ids F) + fuel) t (mkIter nr (mkPreFrame i (length cs0) true :: st) visited)
  = prepend (nodes_of (Some i) F)
      (iter_all fuel t (mkIter nr (mkPreFrame i (length (cs0 ++ F)) true :: st) (seen_after F visited))).
Proof.
  revert fuel st. induction F as [|j w ds F IHds IHF] using forest_ind;
    intros fuel st q i v cs0 visited Hh Hnd Hu Hi.
  { cbn [nodes_of]. change (nodes_of (Some i) []) with (@nil (TreeNode T)). rewrite prepend_nil, app_nil_r.
    by replace (seen_after [] visited) with visited by (unfold seen_after; set_solver). }
  apply held_cons in Hh as (Hj & Hds & HF).
  destruct (unseen_cons _ _ _ _ _ Hnd Hu) as (Hv & Huds & HuF & Hndds & HndF).
  rewrite nodes_of_cons, ids_cons. cbn [length]. rewrite length_app.
  replace (3 * S (length (ids ds) + length (ids F)) + fuel)%nat
    with (S (S (3 * length (ids ds) + S (3 * length (ids F) + fuel)))) by lia.
  rewrite (iter_push _ _ _ _ _ _ _ _ j Hi (child_here cs0 j w ds F) Hv), (iter_enter _ _ _ _ _ _ _ _ Hj).
  rewrite (prepend_cons _ (nodes_of _ ds ++ _)), prepend_app. f_equal.
  pose proof (IHds (S (3 * length (ids F) + fuel)) (mkPreFrame i (S (length cs0)) true :: st) (Some i) j w
    [] _ Hds Hndds Huds Hj) as Hinner. cbn [length app] in Hinner. rewrite Hinner. f_equal.
  rewrite (iter_leave _ _ _ _ _ _ _ _ Hj (no_child_here ds)), <- (length_snoc cs0 (Rose j w ds)).
  rewrite (IHF _ _ q i v (cs0 ++ [Rose j w ds])); [|done..|by rewrite <- snoc_cons].
  by rewrite <- snoc_cons, (seen_after_cons j w).
Qed.

Lemma drop_roots (F0 F : list (rose T)) : drop (length F0) (map rid (F0 ++ F)) = map rid F.
Proof. rewrite map_app, drop_app_length'; [done | by rewrite length_map]. Qed.

Lemma iter_roots t fuel F :
  forall F0 visited,
  held (nodes t) None F -> NoDup (ids F) -> unseen F visited -> roots t = map rid (F0 ++ F) ->
  iter_all (top_turns F + fuel) t (mkIter (length F0) [] visited)
  = prepend (nodes_of None F) (iter_all fuel t (mkIter (length (F0 ++ F)) [] (seen_after F visited))).
Proof.
  induction F as [|[j w ds] F IHF]; intros F0 visited Hh Hnd Hu Hroots.
  { change (nodes_of None []) with (@nil (TreeNode T)). rewrite prepend_nil, app_nil_r.
    by replace (seen_after [] visited) with visited by (unfold seen_after; set_solver). }
  apply held_cons in Hh as (Hj & Hds & HF).
  destruct (unseen_cons _ _ _ _ _ Hnd Hu) as (Hv & Huds & HuF & Hndds & HndF).
  rewrite nodes_of_cons. cbn [top_turns foldr rchildren]. fold (top_turns F).
  replace (2 + 3 * length (ids ds) + top_turns F + fuel)%nat
    with (S (3 * length (ids ds) + S (top_turns F + fuel))) by lia.
  transitivity (iter_all (S (3 * length (ids ds) + S (top_turns F + fuel))) t
    (mkIter (S (length F0)) [mkPreFrame j 0 false] ({[j]} ∪ visited))).
  { cbn [iter_all]. unfold iter_turn at 1. cbn [it_stack it_next_root]. rewrite Hroots, drop_roots.
    cbn [map rid iter_root it_visited it_next_root]. by rewrite Hv. }
  rewrite (iter_enter _ _ _ _ _ _ _ _ Hj), (prepend_cons _ (nodes_of _ ds ++ _)), prepend_app. f_equal.
  pose proof (iter_children t (S (top_turns F + fuel)) (S (length F0)) [] ds None j w [] _
    Hds Hndds Huds Hj) as Hinner. cbn [length app] in Hinner. rewrite Hinner. f_equal.
  rewrite (iter_leave _ _ _ _ _ _ _ _ Hj (no_child_here ds)), <- (length_snoc F0 (Rose j w ds)).
  rewrite (IHF (F0 ++ [Rose j w ds])); [|done..|by rewrite <- snoc_cons].
  by rewrite <- snoc_cons, (seen_after_cons j w).
Qed.

Lemma iter_all_nodes t F : represents t F -> iter_all (walk_fuel t) t iter_preorder = Ok (nodes_of None F).
Proof.
  intros Hr. unfold walk_fuel. rewrite (rep_size _ _ Hr). pose proof (top_turns_bound F).
  replace (2 + 3 * length (ids F))%nat with (top_turns F + S (1 + 3 * length (ids F) - top_turns F))%nat by lia.
  pose proof (iter_roots t (S (1 + 3 * length (ids F) - top_turns F)) F [] ∅) as Hwalk.
  cbn [length app] in Hwalk. unfold iter_preorder.
  rewrite Hwalk; [|by apply rep_held|apply Hr|by intros ? _ ?%not_elem_of_empty|apply Hr].
  cbn [iter_all]. unfold iter_turn. cbn [it_stack it_next_root].
  rewrite (rep_roots _ _ Hr), drop_ge by (by rewrite length_map). cbn. by rewrite app_nil_r.
Qed.

(** What the joint loop collects is what the iterator yields, call by call. *)
Lemma iter_next_all fuel t it l :
  iter_all fuel t it = Ok l ->
  forall g, (fuel <= g)%nat ->
  match l with
  | [] => iter_next g t it = Ok None
  | n :: l => exists fuel' it', (fuel' < fuel)%nat /\ iter_next g t it = Ok (Some (n, it')) /\
      iter_all fuel' t it' = Ok l
  end.
Proof.
  revert it l. induction fuel as [|fuel IH]; intros it l; [done|]. cbn [iter_all]. intros Hall g Hg.
  destruct g as [|g]; [lia|]. cbn [iter_next]. destruct (iter_turn t it) as [[[n|] it']|].
  - destruct (iter_all fuel t it') as [l'|e|] eqn:Hl'; cbn in Hall; simplify_eq.
    exists fuel, it'. auto with lia.
  - specialize (IH it' l Hall g ltac:(lia)). destruct l as [|n l]; [done|].
    destruct IH as (f & it'' & Hf & Hn & Hl). exists f, it''. auto with lia.
  - by simplify_eq.
Qed.

Lemma iter_collect_all fuel t it l n :
  iter_all fuel t it = Ok l -> (fuel <= walk_fuel t)%nat -> (length l < n)%nat ->
  iter_collect n t it = Ok l.
Proof.
  revert fuel it n. induction l as [|x l IH]; intros fuel it n Hall Hfuel Hn; destruct n as [|n]; [lia| |cbn in Hn; lia|];
    pose proof (iter_next_all _ _ _ _ Hall _ Hfuel) as Hnext; cbn [iter_collect].
  - by rewrite Hnext.
  - destruct Hnext as (f & it' & Hf & -> & Hl). cbn [res_bind]. cbn in Hn. rewrite (IH f) by (done || lia). done.
Qed.

Lemma search_loop_all fuel t it l n predicate :
  iter_all fuel t it = Ok l -> (fuel <= walk_fuel t)%nat -> (length l < n)%nat ->
  search_loop n t predicate it = Ok (tn_id <$> head (List.filter predicate l)).
Proof.
  revert fuel it n. induction l as [|x l IH]; intros fuel it n Hall Hfuel Hn; destruct n as [|n]; [lia| |cbn in Hn; lia|];
    pose proof (iter_next_all _ _ _ _ Hall _ Hfuel) as Hnext; cbn [search_loop].
  - by rewrite Hnext.
  - destruct Hnext as (f & it' & Hf & -> & Hl). cbn [res_bind List.filter]. cbn in Hn.
    destruct (predicate x); [done|]. rewrite (IH f) by (done || lia). done.
Qed.

(** ** Queries over the nodes in preorder *)

Lemma nodes_of_ids q F : map tn_id (nodes_of q F) = ids F.
Proof.
  revert q. induction F as [|i v cs F IHcs IHF] using forest_ind; intros q; [done|].
  rewrite nodes_of_cons, ids_cons. cbn. by rewrite map_app, IHcs, IHF.
Qed.

Lemma nodes_of_length q F : length (nodes_of q F) = length (ids F).
Proof. by rewrite <- (nodes_of_ids q), length_map. Qed.

Lemma visit_ids operation max (ns : list (TreeNode T)) count acc :
  0 <= count <= max -> max <= usize_max ->
  visit_all (fun l n => Ok (l ++ [tn_id n])) (Some (operation, max)) ns count acc
  = if max <? count + Z.of_nat (length ns) then Err (QueryLimitExceeded operation max)
    else Ok (count + Z.of_nat (length ns), acc ++ map tn_id ns).
Proof.
  revert count acc. induction ns as [|n ns IH]; intros count acc Hc Hm.
  { cbn. rewrite Z.add_0_r, app_nil_r. by rewrite (proj2 (Z.ltb_ge _ _)) by lia. }
  cbn [visit_all limit_reached length]. destruct (Z.eqb_spec count max) as [->|Hne]; cbn [res_bind].
  - by rewrite (proj2 (Z.ltb_lt _ _)) by lia.
  - unfold usize_saturating_succ. rewrite Z.min_l, IH by lia.
    replace (count + 1 + Z.of_nat (length ns)) with (count + Z.of_nat (S (length ns))) by lia.
    by rewrite <- app_assoc.
Qed.

Lemma visit_found predicate max (ns : list (TreeNode T)) count acc :
  Z.of_nat (length acc) <= max ->
  res_bind (visit_all (find_visitor predicate max) None ns count acc) (fun out => Ok out.2)
  = if max <? Z.of_nat (length (acc ++ map tn_id (List.filter predicate ns)))
    then Err (QueryLimitExceeded "find_all" max) else Ok (acc ++ map tn_id (List.filter predicate ns)).
Proof.
  revert count acc. induction ns as [|n ns IH]; intros count acc Hm.
  { cbn. rewrite app_nil_r. by rewrite (proj2 (Z.ltb_ge _ _)) by lia. }
  cbn [visit_all limit_reached res_bind List.filter]. unfold find_visitor at 1. destruct (predicate n); [|by apply IH].
  destruct (Z.eqb_spec (Z.of_nat (length acc)) max) as [Heq|Hne]; cbn [res_bind].
  - rewrite length_app. cbn [map length]. by rewrite (proj2 (Z.ltb_lt _ _)) by lia.
  - rewrite IH by (rewrite length_app; cbn; lia). cbn [map]. by rewrite <- app_assoc.
Qed.

(** ** Paths *)

Lemma downpath_exists F i : i ∈ ids F -> exists p, downpath F (p ++ [i]).
Proof.
  induction F as [|j v cs F IHcs IHF] using forest_ind; [by intros ?%not_elem_of_nil|].
  rewrite ids_cons, elem_of_cons, elem_of_app.
  assert (forall p, downpath F p -> downpath (Rose j v cs :: F) p) as Hmore
    by (intros p Hp; inversion Hp; subst; [apply path_here | apply path_down; [|done]]; apply elem_of_cons; by right).
  intros [->|[Hi|Hi]].
  - exists []. apply (path_here _ (Rose j v cs)). apply elem_of_cons. by left.
  - destruct (IHcs Hi) as [p Hp]. exists (j :: p). apply (path_down _ (Rose j v cs)); [|done]. apply elem_of_cons. by left.
  - destruct (IHF Hi) as [p Hp]. exists p. auto.
Qed.

Lemma held_in m q F r :
  held m q F -> r ∈ F -> m !! rid r = Some (node_of q r) /\ held m (Some (rid r)) (rchildren r).
Proof.
  induction F as [|[i v cs] F IH]; [by intros _ ?%not_elem_of_nil|].
  intros (Hi & Hcs & HF)%held_cons [->|Hin]%elem_of_cons; [done | by apply IH].
Qed.

Lemma downpath_length F p : downpath F p -> (length p <= length (ids F))%nat.
Proof.
  assert (forall F (r : rose T), r ∈ F -> (length (ids [r]) <= length (ids F))%nat) as Hin.
  { intros G r Hr. apply list_elem_of_split in Hr as (l & k & ->).
    change (r :: k) with ([r] ++ k). rewrite !ids_app, !length_app. lia. }
  induction 1 as [F r Hr|F r p Hr _ IH]; specialize (Hin F r Hr); rewrite ids_single in Hin; cbn in *; lia.
Qed.

(** The node below a path has the path's end as its parent. *)
Lemma downpath_parent m F p q x :
  held m q F -> downpath F (p ++ [x]) ->
  exists n, m !! x = Some n /\ tn_parent n = match last p with Some y => Some y | None => q end.
Proof.
  revert F q. induction p as [|y p IH]; intros F q Hh Hp; cbn [app] in Hp; inversion Hp as [G r Hr Heq|G r p' Hr Hp' Heq]; subst.
  - destruct (held_in _ _ _ _ Hh Hr) as [Hn _]. by exists (node_of q r).
  - inversion Hp'.
  - by destruct p.
  - destruct (held_in _ _ _ _ Hh Hr) as [_ Hcs]. destruct (IH _ _ Hcs Hp') as (n & Hn & Hpar).
    exists n. split; [done|]. rewrite Hpar, last_cons. by destruct (last p).
Qed.

Lemma downpath_prefix F p x y : downpath F ((p ++ [y]) ++ [x]) -> downpath F (p ++ [y]).
Proof.
  revert F. induction p as [|z p IH]; intros F Hp; cbn in Hp; inversion Hp as [G r Hr Heq|G r p' Hr Hp' Heq]; subst.
  - by constructor.
  - by destruct p.
  - cbn. apply path_down; [done|]. by apply IH.
Qed.

Lemma path_loop_ok t F max p1 p2 fuel :
  represents t F -> (p1 = [] \/ downpath F p1) -> (length p1 + length p2 <= size (nodes t))%nat ->
  (length p1 < fuel)%nat -> Z.of_nat (length p2) <= max ->
  path_loop fuel t max (last p1) (reverse p2)
  = if max <? Z.of_nat (length (p1 ++ p2)) then Err (QueryLimitExceeded "path_to" max) else Ok (p1 ++ p2).
Proof.
  intros Hr. revert p2 fuel. induction p1 as [|x p1 IH] using rev_ind; intros p2 fuel Hp Hsize Hfuel Hmax;
    (destruct fuel as [|fuel]; [cbn in Hfuel; lia|]); cbn [path_loop].
  - cbn. rewrite reverse_involutive. by rewrite (proj2 (Z.ltb_ge _ _)) by lia.
  - rewrite last_snoc. rewrite length_app in Hsize, Hfuel. cbn in Hsize, Hfuel.
    destruct Hp as [Hp|Hp]; [by destruct p1|].
    rewrite length_reverse, (proj2 (Nat.leb_gt _ _)), <- app_assoc by lia.
    destruct (Z.eqb_spec (Z.of_nat (length p2)) max) as [Heq|Hne].
    + rewrite length_app. cbn [app length]. by rewrite (proj2 (Z.ltb_lt _ _)) by lia.
    + destruct (downpath_parent _ _ _ None _ (rep_held _ _ Hr) Hp) as (n & -> & ->).
      replace (match last p1 with Some y => Some y | None => None end) with (last p1) by (by destruct (last p1)).
      rewrite <- reverse_cons, IH; [done| |cbn; lia|lia|cbn; lia].
      destruct p1 as [|y p1 _] using rev_ind; [by left|]. right. by eapply downpath_prefix.
Qed.

(** ** Depths *)

Lemma height_nonneg F : 0 <= height F.
Proof. induction F as [|i v cs F _ IH] using forest_ind; [done|]. rewrite height_cons. lia. Qed.

Lemma depth_loop_forest t max F :
  0 <= max < usize_max ->
  forall q fuel d pending, held (nodes t) q F -> 0 <= d <= max + 1 ->
  depth_loop (length (ids F) + fuel) t max (map (fun r => (rid r, d)) F ++ pending)
  = if max + 1 <? d + height F then Err (LimitExceeded LimitTreeDepth max (max + 1))
    else depth_loop fuel t max pending.
Proof.
  intros Hmax. induction F as [|i v cs F IHcs IHF] using forest_ind; intros q fuel d pending Hh Hd.
  { cbn [height map foldr]. by rewrite (proj2 (Z.ltb_ge _ _)) by (cbn; lia). }
  apply held_cons in Hh as (Hi & Hcs & HF). pose proof (height_nonneg cs). pose proof (height_nonneg F).
  rewrite ids_cons, height_cons. cbn [length Nat.add map app depth_loop rid].
  destruct (Z.ltb_spec max d) as [Hlt|Hle].
  - rewrite (proj2 (Z.ltb_lt _ _)) by lia. do 2 f_equal. lia.
  - rewrite Hi. cbn [tn_children]. unfold usize_saturating_succ. rewrite Z.min_l, map_map, length_app, <- Nat.add_assoc by lia.
    rewrite (IHcs (Some i)) by (done || lia).
    destruct (Z.ltb_spec (max + 1) (d + 1 + height cs)).
    + by rewrite (proj2 (Z.ltb_lt _ _)) by lia.
    + rewrite (IHF q) by (done || lia).
      by replace (max + 1 <? d + Z.max (1 + height cs) (height F)) with (max + 1 <? d + height F)
        by (destruct (Z.ltb_spec (max + 1) (d + height F)); symmetry; rewrite ?Z.ltb_lt, ?Z.ltb_ge; lia).
Qed.

Lemma validate_bounded_ok t F max_nodes max_depth :
  represents t F -> 0 <= max_depth < usize_max ->
  validate_bounded t max_nodes max_depth
  = if max_nodes <? Z.of_nat (length (ids F))
    then Err (LimitExceeded LimitNodes max_nodes (Z.of_nat (length (ids F))))
    else if max_depth + 1 <? height F then Err (LimitExceeded LimitTreeDepth max_depth (max_depth + 1))
    else Ok ().
Proof.
  intros Hr Hd. unfold validate_bounded. rewrite (rep_size _ _ Hr). destruct (max_nodes <? _); [done|].
  rewrite (validate_ok _ _ Hr). unfold validate_tree_depth. rewrite (rep_size _ _ Hr), (rep_roots _ _ Hr), map_map.
  rewrite <- Nat.add_1_r, <- (app_nil_r (map _ F)).
  rewrite (depth_loop_forest t max_depth F Hd None) by (by apply rep_held || lia). done.
Qed.

End paths.
