(* ===== verification/ModelTreeProps.v ===== *)
(** * Properties of the identity tree

    What holds of every tree that a history of operations of
    [crates/model/src/tree.rs] can build, stated against the forest that the
    operations' contracts build from the same history. *)

From stdpp Require Import gmap.
From S2P Require Import Prelude ModelTree ModelForest ModelRefine ModelOps ModelSteps ModelWalk ModelPaths.

Section histories.
Context {T : Type}.
Implicit Types (ops : list (TreeOp T)) (t : IdentityTree T) (F : list (rose T)) (i : Z) (q : option Z).

(** The tree and the forest a history leaves. *)
Definition tree_after ops : IdentityTree T := (history perform ops identity_tree_new).2.
Definition forest_after ops : list (rose T) := (history promised ops ([], Some 1)).2.1.

Lemma after_represents ops : represents (tree_after ops) (forest_after ops).
Proof. apply (tree_history_refines ops _ [] new_represents). Qed.

(** ** Identities are not handed out twice *)

Lemma need_parent_in q F p : need_parent q F = Ok () -> q = Some p -> p ∈ ids F.
Proof. intros Hq ->. cbn in Hq. by case_bool_decide. Qed.

Lemma alter_in i f F : NoDup (ids F) -> keeps_id f -> i ∈ ids F -> i ∈ ids (alter i f F).
Proof.
  intros Hnd Hf Hi. destruct (focus None F i Hnd Hi) as (q & r & rest & Hr & _ & _ & Hent).
  unfold ids. rewrite (Hent f Hf), fmap_app, elem_of_app, tentries_fst, ids_single, Hf, Hr. left.
  apply elem_of_cons. by left.
Qed.

Lemma graft_in q i v F : NoDup (ids F) -> need_parent q F = Ok () -> i ∈ ids (graft q i v F).
Proof.
  intros Hnd Hq. destruct q as [p|]; cbn [graft].
  - destruct (focus None F p Hnd (need_parent_in _ _ _ Hq eq_refl)) as (q & r & rest & Hr & _ & _ & Hent).
    unfold ids. rewrite (Hent (add_child (Rose i v [])) (fun _ => eq_refl)), fmap_app, tentries_fst, ids_single. cbn [add_child rchildren rid].
    rewrite ids_app, ids_single. set_solver.
  - rewrite ids_app, ids_single. set_solver.
Qed.

Lemma in_order_in i F : i ∈ ids F -> i ∈ ids (in_order F).
Proof. unfold ids. by rewrite entries_sorted, <- list_fmap_compose. Qed.

Lemma parent_in_ids F i p : parent_in F i = Some p -> i ∈ ids F.
Proof.
  unfold parent_in. rewrite fmap_Some. intros (n & Hn & _).
  apply elem_of_list_to_map_2 in Hn. unfold ids. apply list_elem_of_fmap. by exists (i, n).
Qed.

(** An identity that an operation returns is in the forest afterwards. *)
Definition lands (x : result TreeError (Returned (T := T)) * (list (rose T) * option Z)) : Prop :=
  forall i, x.1 = Ok (AnId i) -> i ∈ ids x.2.1.

Lemma lands_insert_with_id q i v F next :
  NoDup (ids F) -> lands (returning AnId (spec_insert_with_id q i v) (F, next)).
Proof.
  intros Hnd j. unfold returning, st_bind, spec_insert_with_id. case_bool_decide; [done|].
  destruct (need_parent q F) as [[]|e|] eqn:Hq; cbn; try done. intros [= ->]. by apply graft_in.
Qed.

Lemma lands_sorted {A} (f : A -> Returned) (p : ST (list (rose T) * option Z) TreeError A) s :
  lands (returning f p s) -> lands (returning f (sorted_after p) s).
Proof.
  intros Hl j. specialize (Hl j). revert Hl. unfold returning, sorted_after, st_bind.
  destruct (p s) as [[a|e|] [F next]]; cbn; try done. intros Hl Hj. by apply in_order_in, Hl.
Qed.

Lemma lands_by_parent q i existing absent F next :
  (i ∈ ids F -> lands (returning AnId existing (F, next))) -> lands (returning AnId absent (F, next)) ->
  lands (returning AnId (by_parent q i existing absent) (F, next)).
Proof.
  intros He Ha j. unfold returning, st_bind, by_parent. destruct (parent_in F i) as [p|] eqn:Hp; [|apply Ha].
  case_bool_decide; [apply He; by eapply parent_in_ids | done].
Qed.

Lemma lands_other {A} (f : A -> Returned) (p : ST (list (rose T) * option Z) TreeError A) s :
  (forall a i, f a <> AnId i) -> lands (returning f p s).
Proof.
  intros Hf i. unfold returning, st_bind. destruct (p s) as [[a|e|] s']; cbn; [|done..].
  intros [= Heq]. by destruct (Hf a i).
Qed.

Lemma promised_lands op F next : NoDup (ids F) -> lands (promised op (F, next)).
Proof.
  intros Hnd.
  assert (forall q v, lands (returning AnId (spec_insert q v) (F, next))) as Hins.
  { intros q v j. unfold returning, st_bind, spec_insert. destruct (need_parent q F) as [[]|e|] eqn:Hq; [|done..].
    destruct next as [k|]; [|done]. cbn. intros [= ->]. by apply graft_in. }
  destruct op; cbn [promised]; try (by apply lands_other); auto using lands_sorted, lands_insert_with_id.
  - apply lands_by_parent; [|by apply lands_sorted, lands_insert_with_id]. intros Hi j [= <-]. done.
  - apply lands_by_parent; [|by apply lands_sorted, lands_insert_with_id]. intros Hi j.
    unfold returning, st_bind, spec_replace_subtree, spec_edit. destruct (find_in i F); cbn; [|done].
    intros [= <-]. by apply alter_in.
Qed.

(** The counter does not go back. *)
Definition no_earlier (before after : option Z) : Prop :=
  forall k', after = Some k' -> exists k, before = Some k /\ k <= k'.

Lemma no_earlier_refl n : no_earlier n n.
Proof. intros k ->. exists k. split; [done | lia]. Qed.

Lemma spec_edit_next {A} i edit (out : rose T -> A) F next : (spec_edit i edit out (F, next)).2.2 = next.
Proof. unfold spec_edit. by destruct (find_in i F). Qed.

Lemma bind_next {A B} (p : ST (list (rose T) * option Z) TreeError A) (k : A -> ST (list (rose T) * option Z) TreeError B) s :
  (forall a s', (k a s').2.2 = s'.2) -> (st_bind p k s).2.2 = (p s).2.2.
Proof. intros Hk. unfold st_bind. destruct (p s) as [[a|e|] s']; cbn; [apply Hk | done..]. Qed.

Lemma returning_next {A} (f : A -> Returned (T := T)) (p : ST (list (rose T) * option Z) TreeError A) s :
  (returning f p s).2.2 = (p s).2.2.
Proof. by apply bind_next. Qed.

Lemma sorted_next {A} (p : ST (list (rose T) * option Z) TreeError A) s : (sorted_after p s).2.2 = (p s).2.2.
Proof. apply bind_next. by intros a []. Qed.

Lemma insert_next q v F next : no_earlier next (spec_insert q v (F, next)).2.2.
Proof.
  unfold spec_insert. destruct (need_parent q F); [|apply no_earlier_refl..].
  destruct next as [k|]; [|done]. cbn. intros k' ->%succ_id_Some. exists k. split; [done | lia].
Qed.

Lemma insert_with_id_next q i v F next : no_earlier next (spec_insert_with_id q i v (F, next)).2.2.
Proof.
  unfold spec_insert_with_id. case_bool_decide; [apply no_earlier_refl|].
  destruct (need_parent q F); [|apply no_earlier_refl..]. cbn. destruct next as [k|]; [|done]. cbn.
  destruct (Z.leb_spec k i); [|apply no_earlier_refl].
  intros k' ->%succ_id_Some. exists k. split; [done | lia].
Qed.

Lemma remove_leaf_next i F next : (spec_remove_leaf i (F, next)).2.2 = next.
Proof.
  unfold spec_remove_leaf. destruct (find_in i F); [|done]. case_bool_decide; [apply spec_edit_next | done].
Qed.

Lemma by_parent_next q i existing absent F next :
  no_earlier next (existing (F, next)).2.2 -> no_earlier next (absent (F, next)).2.2 ->
  no_earlier next (by_parent (T := T) q i existing absent (F, next)).2.2.
Proof.
  intros He Ha. unfold by_parent. destruct (parent_in F i); [|done].
  case_bool_decide; [done | apply no_earlier_refl].
Qed.

Lemma promised_next op F next : no_earlier next (promised op (F, next)).2.2.
Proof.
  destruct op; cbn [promised]; rewrite returning_next; rewrite ?sorted_next;
    auto using insert_next, insert_with_id_next;
    try (apply by_parent_next; rewrite ?sorted_next; auto using insert_with_id_next, no_earlier_refl);
    unfold spec_replace, spec_replace_subtree, spec_remove, spec_clear;
    rewrite ?(bind_next _ (fun _ => st_ret _)) by done;
    rewrite ?remove_leaf_next, ?spec_edit_next; apply no_earlier_refl.
Qed.

Lemma history_next ops F next : no_earlier next (history promised ops (F, next)).2.2.
Proof.
  revert F next. induction ops as [|op ops IH]; intros F next; [apply no_earlier_refl|]. cbn.
  pose proof (promised_next op F next) as Hop. destruct (promised op (F, next)) as [r [F' n']].
  specialize (IH F' n'). destruct (history promised ops (F', n')) as [rs s]. cbn in *. intros k Hk.
  destruct (IH k Hk) as (k1 & -> & Hk1). destruct (Hop k1 eq_refl) as (k2 & -> & Hk2). exists k2. split; [done | lia].
Qed.

(** The identities a history returns stay below the counter. *)
Lemma history_below ops t F i :
  represents t F -> In (Ok (AnId i)) (history perform ops t).1 ->
  forall k, next_id (history perform ops t).2 = Some k -> i < k.
Proof.
  revert t F. induction ops as [|op ops IH]; intros t F Hr; [done|]. cbn.
  pose proof (perform_promise op t F Hr) as Hop. pose proof (promised_lands op F (next_id t) (rep_nodup _ _ Hr)) as Hland.
  destruct (perform op t) as [r t'], (promised op (F, next_id t)) as [r' [F' n']].
  destruct Hop as (Hres & Hrep & Hnext). cbn in Hres, Hrep, Hnext. subst r' n'. specialize (IH t' F' Hrep).
  pose proof (tree_history_refines ops t' F' Hrep) as Hrest.
  destruct (history perform ops t') as [rs t''] eqn:Hh. cbn in IH, Hrest |- *.
  intros [->|Hin] k Hk; [|by apply IH].
  destruct Hrest as (_ & _ & Hn). rewrite Hk in Hn.
  destruct (history_next ops F' (next_id t') k (eq_sym Hn)) as (k1 & Hk1 & Hle).
  pose proof (proj1 (Forall_forall _ _) (rep_fresh _ _ Hrep k1 Hk1) i (Hland i eq_refl)) as Hlt. cbn in Hlt. lia.
Qed.

(** ** Properties *)

(** C6 Whatever operations are applied to an empty tree, through the ordered
    interface or the hash view, each returns the value or the error of its
    contract, the tree stays the representation of the forest that the contracts
    build, an error leaves it alone, and the consistency check accepts it. *)
Theorem tree_refines_forest ops :
  let impl := history perform ops (identity_tree_new (T := T)) in
  let abs := history promised ops ([], Some 1) in
  impl.1 = abs.1 /\ represents impl.2 abs.2.1 /\ next_id impl.2 = abs.2.2 /\ tree_validate impl.2 = Ok ().
Proof.
  intros impl abs. destruct (tree_history_refines ops _ [] new_represents) as (H1 & H2 & H3).
  split_and!; [done..|]. by eapply validate_ok.
Qed.

(** C25 The identity a fresh insertion returns is larger than every identity that
    an operation returned before, removed nodes and explicit identities
    included: identities are not handed out twice. *)
Theorem fresh_identities_grow ops q v k t' :
  tree_insert q v (tree_after ops) = (Ok k, t') ->
  forall i, In (Ok (AnId i)) (history perform ops (identity_tree_new (T := T))).1 -> i < k.
Proof.
  intros Hins i Hin. pose proof (after_represents ops) as Hr.
  destruct (insert_promise q v _ _ Hr) as (Hres & _). rewrite Hins in Hres. cbn [fst] in Hres.
  apply (history_below ops _ [] i new_represents Hin). fold (tree_after ops).
  unfold spec_insert in Hres. destruct (need_parent q _); [|done..]. by destruct (next_id (tree_after ops)); simplify_eq/=.
Qed.

(** C15 A bounded traversal hands the visitor the events of the forest's recursive
    tour, one by one, until the visitor stops, the budget is spent or the tour
    ends; it counts exactly the events delivered and never reports a broken
    link. *)
Theorem traversal_is_tour {S'} (visitor : S' -> VisitEvent -> TraversalControl * S') ops max_events s :
  traverse_bounded visitor (tree_after ops) max_events s
  = handed_out visitor max_events (tour 0 (forest_after ops)) s.
Proof. apply traverse_tour, after_represents. Qed.

(** The queries see the forest's nodes in preorder: the bounded ones fail
    exactly when their result would exceed the bound, the iterator yields each
    node once and ends, and a search returns the first match. *)
Theorem queries_are_preorder ops predicate max :
  0 <= max <= usize_max ->
  let t := tree_after ops in
  let found := map tn_id (List.filter predicate (nodes_of None (forest_after ops))) in
  preorder_ids_bounded t max
    = (if max <? Z.of_nat (length (ids (forest_after ops)))
       then Err (QueryLimitExceeded "preorder_ids" max) else Ok (ids (forest_after ops))) /\
  find_all_bounded t max predicate
    = (if max <? Z.of_nat (length found) then Err (QueryLimitExceeded "find_all" max) else Ok found) /\
  preorder_ids t = Ok (ids (forest_after ops)) /\
  find_all t predicate = Ok found /\
  tree_find t predicate = Ok (head found).
Proof.
  intros Hmax t found. pose proof (after_represents ops) as Hr. fold t in Hr.
  pose proof (iter_all_nodes _ _ Hr) as Hall.
  assert (iter_collect (S (size (nodes t))) t iter_preorder = Ok (nodes_of None (forest_after ops))) as Hcol
    by (apply (iter_collect_all _ _ _ _ _ Hall); [done | rewrite nodes_of_length, (rep_size _ _ Hr); lia]).
  unfold preorder_ids_bounded, find_all_bounded, preorder_ids, find_all, tree_find.
  rewrite !(checked_nodes _ _ _ _ _ Hr), !Hcol, visit_ids, visit_found by (cbn; lia).
  rewrite (search_loop_all _ _ _ _ _ _ Hall) by (done || rewrite nodes_of_length, (rep_size _ _ Hr); lia).
  rewrite nodes_of_length, nodes_of_ids. cbn [res_bind app]. rewrite nodes_of_ids. split_and!; try done.
  - by destruct (max <? _).
  - unfold found. by destruct (List.filter _ _).
Qed.

(** A path query returns the path from a root down to the node, fails exactly
    when it is longer than the bound, and never mistakes it for a cycle. *)
Theorem path_leads_to_node ops i max :
  0 <= max ->
  if bool_decide (i ∈ ids (forest_after ops)) then
    exists p, downpath (forest_after ops) (p ++ [i]) /\
      path_to_bounded (tree_after ops) i max
      = if max <? Z.of_nat (length (p ++ [i])) then Err (QueryLimitExceeded "path_to" max) else Ok (p ++ [i])
  else path_to_bounded (tree_after ops) i max = Err (NodeNotFound i).
Proof.
  intros Hmax. pose proof (after_represents ops) as Hr. unfold path_to_bounded, tree_lookup.
  case_bool_decide as Hi.
  - destruct (downpath_exists _ _ Hi) as [p Hp]. exists p. split; [done|].
    apply (rep_in _ _ _ Hr) in Hi as [n ->]. cbn [ok_or res_bind].
    pose proof (downpath_length _ _ Hp) as Hlen. rewrite <- (rep_size _ _ Hr) in Hlen.
    pose proof (path_loop_ok _ _ max (p ++ [i]) [] (2 + size (nodes (tree_after ops))) Hr (or_intror Hp)) as Hloop.
    rewrite last_snoc, app_nil_r in Hloop. apply Hloop; cbn [length]; lia.
  - destruct (nodes (tree_after ops) !! i) as [n|] eqn:Hn; [|done].
    destruct Hi. apply (rep_in _ _ _ Hr). by rewrite Hn.
Qed.

(** C32 The bounded validation of a tree fails exactly when it has more nodes than
    allowed, and then with their number, or more levels, and then at the first
    level below the limit. *)
Theorem bounded_validation_exact ops max_nodes max_depth :
  0 <= max_depth < usize_max ->
  validate_bounded (tree_after ops) max_nodes max_depth
  = if max_nodes <? Z.of_nat (length (ids (forest_after ops)))
    then Err (LimitExceeded LimitNodes max_nodes (Z.of_nat (length (ids (forest_after ops)))))
    else if max_depth + 1 <? height (forest_after ops)
    then Err (LimitExceeded LimitTreeDepth max_depth (max_depth + 1))
    else Ok ().
Proof. apply validate_bounded_ok, after_represents. Qed.

(** Three nodes below one another, and three side by side. *)
Definition chain a b c (v : T) : IdentityTree T :=
  tree_after [OpInsertWithId None a v; OpInsertWithId (Some a) b v; OpInsertWithId (Some b) c v].
Definition siblings (v : T) : IdentityTree T :=
  tree_after [OpInsertWithId None 4 v; OpInsertWithId (Some 4) 1 v; OpInsertWithId (Some 4) 2 v;
              OpInsertWithId (Some 4) 3 v].


End histories.

(** ** Examples *)

(** A history with explicit identities, an edit and a removal. *)
Definition example_ops : list (TreeOp string) :=
  [ OpInsert None "plan"; OpInsert (Some 1) "group"; OpInsertWithId (Some 2) 9 "sampler"%string;
    OpInsert (Some 2) "timer"; OpRemove 10; OpReplace 9 "request"; OpInsert (Some 1) "listener" ]%string.

Lemma fresh_identities_grow_witness :
  let t' := (tree_insert (Some 2) "last"%string (tree_after example_ops)).2 in
  tree_insert (Some 2) "last"%string (tree_after example_ops) = (Ok 12, t') /\
  (forall i, In (Ok (AnId i)) (history perform example_ops identity_tree_new).1 -> i < 12).
Proof.
  split; [vm_compute; reflexivity|].
  apply (fresh_identities_grow example_ops (Some 2) "last"%string 12
    (tree_insert (Some 2) "last"%string (tree_after example_ops)).2).
  vm_compute. reflexivity.
Defined.

Lemma queries_are_preorder_witness :
  ids (forest_after example_ops) = [1; 2; 9; 11] /\
  preorder_ids_bounded (tree_after example_ops) 4 = Ok [1; 2; 9; 11].
Proof.
  assert (0 <= 4 <= usize_max) as Hmax by (unfold usize_max, u64_max; lia). split; [vm_compute; reflexivity|].
  etransitivity; [exact (proj1 (queries_are_preorder example_ops (fun _ => true) 4 Hmax))|].
  vm_compute. reflexivity.
Defined.

Lemma path_leads_to_node_witness :
  (exists p, downpath (forest_after example_ops) (p ++ [9]) /\
    path_to_bounded (tree_after example_ops) 9 5
    = if 5 <? Z.of_nat (length (p ++ [9])) then Err (QueryLimitExceeded "path_to" 5) else Ok (p ++ [9])) /\
  path_to_bounded (tree_after example_ops) 9 5 = Ok [1; 2; 9].
Proof.
  split; [|vm_compute; reflexivity].
  assert (0 <= 5) as Hmax by lia. pose proof (path_leads_to_node example_ops 9 5 Hmax) as Hpath.
  replace (bool_decide (9 ∈ ids (forest_after example_ops))) with true in Hpath by (vm_compute; reflexivity).
  exact Hpath.
Defined.

Lemma bounded_validation_exact_witness :
  0 <= 1 < usize_max /\
  validate_bounded (tree_after example_ops) 10 1 = Err (LimitExceeded LimitTreeDepth 1 2).
Proof.
  assert (0 <= 1 < usize_max) as H by (unfold usize_max, u64_max; lia). split; [exact H|].
  etransitivity; [exact (bounded_validation_exact example_ops 10 1 H)|]. vm_compute. reflexivity.
Defined.
