(* ===== verification/Lifecycle.v ===== *)
(** * Schedules, policies and joins of a run

    The parts of [crates/runtime/src/lifecycle.rs] that decide when virtual
    users start, which groups run after a stop, and how the tasks of a phase are
    polled: the ramp-up arithmetic at nanosecond precision, the iteration
    counters, the policies, the join that polls its tasks in order, and the gate
    that admits one holder at a time. *)

From S2P Require Import Prelude Control Plan Critical Logic.

Definition MAX_THREADS : Z := 1000000.
Definition MAX_CONCURRENT_TASKS : Z := 65536.
Definition MAX_TYPED_ADMISSION_WAITERS : Z := MAX_CONCURRENT_TASKS.

(** [EngineError]; the sources that come from parts outside this development
    are their error codes. *)
Inductive EngineError :=
| InvalidSchedule (detail : string)
| ResourceLimit (detail : string)
| Capability (detail : string)
| Controller (group_id : Z) (source : ControllerError)
| LogicError (group_id : Z) (source : LogicControllerError)
| MissingPackage (group_id sampler_id : Z)
| Package (group_id : Z) (source : string)
| InitialVariables (source : string)
| CriticalSection (group_id : Z) (source : CriticalSectionError)
| ExpressionCleanup (lifecycle_id : Z) (source : string)
| Pipeline (group_id sampler_id : Z) (source : string)
| ResultRouter (source : string)
| TypedResultRouter (source : string)
| Observation (source : string)
| Progress (source : string)
| Combined (primary secondary : EngineError).

(** [combine_engine_error] *)
Definition combine_engine_error (slot : option EngineError) (error : EngineError) : option EngineError :=
  match slot with
  | Some primary => Some (Combined primary error)
  | None => Some error
  end.

(** ** Ramp-up *)

Record RampSchedule := mkRamp {
  rs_threads : Z;
  rs_ramp_up : Z
}.

(** [RampSchedule::validate] and [new] *)
Definition ramp_validate (s : RampSchedule) : result EngineError () :=
  if MAX_THREADS <? rs_threads s then Err (InvalidSchedule "thread count exceeds runtime bound") else Ok ().

Definition ramp_new (threads ramp_up : Z) : result EngineError RampSchedule :=
  let s := mkRamp threads ramp_up in
  let? _ := ramp_validate s in Ok s.

Definition u128_max : Z := 2 ^ 128 - 1.

(** [Duration::new(seconds, subnanos)] of nanoseconds split into whole seconds
    and the rest *)
Definition duration_of_nanos (nanos : Z) : result EngineError Z :=
  let seconds := nanos / 1000000000 in
  let subnanos := nanos mod 1000000000 in
  if seconds <=? u64_max then Ok (seconds * 1000000000 + subnanos)
  else Err (InvalidSchedule "ramp offset duration overflow").

(** [RampSchedule::offset] *)
Definition ramp_offset (s : RampSchedule) (index : Z) : result EngineError Z :=
  let? _ := ramp_validate s in
  if (rs_threads s <=? 1) || (index =? 0) || (rs_ramp_up s =? 0) then Ok 0
  else
    let? last_index := ok_or (u64_checked_sub (rs_threads s) 1)
                         (InvalidSchedule "ramp thread index underflow") in
    let bounded := Z.min index last_index in
    let numerator := rs_ramp_up s * bounded in
    if u128_max <? numerator then Err (InvalidSchedule "ramp offset arithmetic overflow")
    else duration_of_nanos (numerator / rs_threads s).

(** [RampSchedule::max_actual_user_offset] *)
Definition ramp_max_offset (s : RampSchedule) : result EngineError Z :=
  let? _ := ramp_validate s in
  match u64_checked_sub (rs_threads s) 1 with
  | Some last_index => ramp_offset s last_index
  | None => Ok 0
  end.

(** [collect] of an iterator of results: the values, or the first error. *)
Fixpoint collect_results {E A} (l : list (result E A)) : result E (list A) :=
  match l with
  | [] => Ok []
  | r :: l => let? a := r in let? rest := collect_results l in Ok (a :: rest)
  end.

(** [RampSchedule::offsets] *)
Definition ramp_offsets (s : RampSchedule) : result EngineError (list Z) :=
  let? _ := ramp_validate s in
  collect_results (map (fun index => ramp_offset s (Z.of_nat index)) (seq 0 (Z.to_nat (rs_threads s)))).

Record GroupSchedule := mkGroupSchedule {
  gs_delay : Z;
  gs_ramp_up : Z;
  gs_duration : option Z
}.

(** [GroupSchedule::default] *)
Definition group_schedule_default : GroupSchedule := mkGroupSchedule 0 0 None.

Definition startup_overflow : EngineError := InvalidSchedule "group startup offset arithmetic overflow".

(** [GroupSchedule::ramp] *)
Definition group_ramp (g : GroupSchedule) (threads : Z) : result EngineError RampSchedule :=
  let? ramp := ramp_new threads (gs_ramp_up g) in
  let? offset := ramp_max_offset ramp in
  let? _ := ok_or (duration_checked_add (gs_delay g) offset) startup_overflow in
  Ok ramp.

(** [GroupSchedule::max_actual_user_offset] *)
Definition group_max_offset (g : GroupSchedule) (threads : Z) : result EngineError Z :=
  let? ramp := ramp_new threads (gs_ramp_up g) in ramp_max_offset ramp.

(** [GroupSchedule::startup_bound] *)
Definition startup_bound (g : GroupSchedule) (threads : Z) : result EngineError Z :=
  let? ramp := group_ramp g threads in
  let? offset := ramp_max_offset ramp in
  ok_or (duration_checked_add (gs_delay g) offset) startup_overflow.

(** [GroupSchedule::checked_duration_end] *)
Definition checked_duration_end (g : GroupSchedule) (group_start : Z) : result EngineError (option Z) :=
  match gs_duration g with
  | None => Ok None
  | Some duration =>
      let? e := ok_or (duration_checked_add group_start duration)
                  (InvalidSchedule "group duration end arithmetic overflow") in
      Ok (Some e)
  end.

(** The start of one user, as [run_group] computes it: the group's delay and
    the user's offset from the start of the group. *)
Definition user_target (g : GroupSchedule) (ramp : RampSchedule) (group_start thread_index : Z) :
    result EngineError Z :=
  let? ramp_offset := ramp_offset ramp thread_index in
  let? offset := ok_or (duration_checked_add (gs_delay g) ramp_offset)
                   (InvalidSchedule "group schedule delay overflow") in
  ok_or (duration_checked_add group_start offset) (InvalidSchedule "group user startup target overflow").

(** ** Iterations *)

Record IterationState := mkIteration {
  it_current : Z;
  it_completed : Z
}.

Definition iteration_default : IterationState := mkIteration 0 0.

Definition iteration_overflow : EngineError := InvalidSchedule "iteration counter overflow".

(** [IterationState::advance]: the first counter is written before the second
    is checked. *)
Definition iteration_advance : ST IterationState EngineError () := fun s =>
  match u64_checked_add (it_completed s) 1 with
  | None => (Err iteration_overflow, s)
  | Some completed =>
      let s := mkIteration (it_current s) completed in
      match u64_checked_add (it_current s) 1 with
      | None => (Err iteration_overflow, s)
      | Some current => (Ok (), mkIteration current (it_completed s))
      end
  end.

(** [IterationState::reset_current] *)
Definition reset_current (s : IterationState) : IterationState := mkIteration 0 (it_completed s).

(** ** Policies *)

Inductive GroupKind := Setup | Main | Teardown.

#[global] Instance GroupKind_eq_dec : EqDecision GroupKind.
Proof. solve_decision. Defined.

Inductive SampleErrorPolicy :=
| OnErrorContinue
| OnErrorStartNextLoop
| OnErrorStopThread
| OnErrorStopTestGraceful
| OnErrorStopTestImmediate.

(** [SampleErrorPolicy::signal] *)
Definition policy_signal (p : SampleErrorPolicy) : ControlSignal :=
  match p with
  | OnErrorContinue => Continue
  | OnErrorStartNextLoop => NextLoop
  | OnErrorStopThread => StopThread
  | OnErrorStopTestGraceful => StopTestGraceful
  | OnErrorStopTestImmediate => StopTestImmediate
  end.

(** [group_allowed_after_stop], of the plan's and the group's
    [teardown_on_shutdown] *)
Definition group_allowed_after_stop (plan_teardown group_teardown : bool) (kind : GroupKind)
    (signal : ControlSignal) : bool :=
  match signal with
  | StopTestImmediate => bool_decide (kind = Teardown) && plan_teardown && group_teardown
  | StopTestGraceful => negb (bool_decide (kind = Main))
  | _ => true
  end.

(** [allocate_lifecycle_id]: the counter's value before it is increased. *)
Definition allocate_lifecycle_id : ST Z EngineError Z := fun next =>
  match u64_checked_add next 1 with
  | Some next' => (Ok next, next')
  | None => (Err (InvalidSchedule "lifecycle identity overflow"), next)
  end.

(** ** The join

    [DeterministicJoin], over tasks that share a world: polling one may change
    it, and gives the task's result when it is ready. *)
Section join.
Context {W T : Type} (poll_task : nat -> W -> option T * W).

Inductive JoinPoll := JoinPending | JoinReady (res : result EngineError (list T)).

(** [DeterministicJoin::new]: the slots of the results. *)
Definition join_new (tasks : nat) : result EngineError (list (option T)) :=
  if MAX_CONCURRENT_TASKS <? Z.of_nat tasks
  then Err (ResourceLimit "deterministic concurrent task limit")
  else Ok (replicate tasks None).

(** The visits of one turn, from the task [index] on: the slots, the world, and
    the tasks polled with what they returned. *)
Fixpoint join_visit (index : nat) (slots : list (option T)) (w : W) :
    list (option T) * W * list (nat * option T) :=
  match slots with
  | [] => ([], w, [])
  | Some v :: slots =>
      let '(rest, w, polled) := join_visit (S index) slots w in (Some v :: rest, w, polled)
  | None :: slots =>
      let '(r, w) := poll_task index w in
      let '(rest, w, polled) := join_visit (S index) slots w in (r :: rest, w, (index, r) :: polled)
  end.

(** The values taken out of the slots, in order. *)
Fixpoint take_results (slots : list (option T)) : result EngineError (list T) :=
  match slots with
  | [] => Ok []
  | Some v :: slots => let? rest := take_results slots in Ok (v :: rest)
  | None :: _ => Err (ResourceLimit "deterministic concurrent scheduler state")
  end.

(** [DeterministicJoin::poll] *)
Definition join_poll (slots : list (option T)) (w : W) :
    JoinPoll * list (option T) * W * list (nat * option T) :=
  match slots with
  | [] => (JoinReady (Ok []), [], w, [])
  | _ =>
      let '(slots, w, polled) := join_visit 0 slots w in
      if forallb (fun s : option T => bool_decide (is_Some s)) slots
      then (JoinReady (take_results slots), map (fun _ => None) slots, w, polled)
      else (JoinPending, slots, w, polled)
  end.
End join.

(** ** The admission gate *)

Record GateState := mkGate {
  gate_held : bool;
  gate_waiters : list Z
}.

(** [TypedAdmissionGate::new] *)
Definition gate_new : GateState := mkGate false [].

Definition drop_waker (w : Z) (l : list Z) : list Z := filter (fun candidate => candidate <> w) l.

(** [TypedAdmissionGate::release]: the wakers it invokes. *)
Definition gate_release (g : GateState) : list Z * GateState := (gate_waiters g, mkGate false []).

Inductive GatePoll := GatePending | GateAdmitted | GateRefused (e : EngineError).

(** [TypedAdmissionAcquire::poll]: the outcome, the future's waker and the
    gate afterwards. *)
Definition gate_poll (waiter : option Z) (waker : Z) (g : GateState) : GatePoll * option Z * GateState :=
  if negb (gate_held g) then
    (GateAdmitted, None,
     mkGate true (match waiter with Some w => drop_waker w (gate_waiters g) | None => gate_waiters g end))
  else if negb (bool_decide (waiter = Some waker)) then
    if MAX_TYPED_ADMISSION_WAITERS <=? Z.of_nat (length (gate_waiters g))
    then (GateRefused (ResourceLimit "typed admission waiter limit"), waiter, g)
    else
      let waiters := match waiter with
                     | Some previous => drop_waker previous (gate_waiters g)
                     | None => gate_waiters g
                     end in
      (GatePending, Some waker, mkGate true (waiters ++ [waker]))
  else (GatePending, waiter, g).

(** [Drop] of [TypedAdmissionAcquire] *)
Definition gate_drop (waiter : option Z) (g : GateState) : GateState :=
  match waiter with
  | Some w => mkGate (gate_held g) (drop_waker w (gate_waiters g))
  | None => g
  end.
