(* ===== verification/LifecycleProps.v ===== *)
(** * Properties of schedules, joins and the admission gate

    The ramp-up starts users evenly and its bound on startup is exact; the join
    polls every unfinished task once a turn and returns the results in task
    order; the gate admits one holder at a time, and forgets a waiter that was
    woken in vain. *)

From S2P Require Import Prelude Control Critical Lifecycle.

(** ** Ramp-up *)

Section ramp.
Context (threads ramp_up : Z).
Context (Hthreads : 0 <= threads <= MAX_THREADS) (Hramp : 0 <= ramp_up <= duration_max).

Lemma ramp_valid : ramp_validate (mkRamp threads ramp_up) = Ok ().
Proof. unfold ramp_validate. cbn. by rewrite (proj2 (Z.ltb_ge _ _)) by lia. Qed.

Lemma duration_of_small n : 0 <= n <= duration_max -> duration_of_nanos n = Ok n.
Proof.
  intros Hn. unfold duration_of_nanos. rewrite (proj2 (Z.leb_le _ _)).
  - f_equal. pose proof (Z.div_mod n 1000000000). lia.
  - apply Z.lt_succ_r, Z.div_lt_upper_bound; [lia|]. unfold duration_max in Hn. lia.
Qed.

(** The offset of a user, without a branch. *)
Definition spread (i : Z) : Z := if threads <=? 1 then 0 else ramp_up * Z.min i (threads - 1) / threads.

Lemma spread_bounds i : 0 <= i -> 0 <= spread i <= ramp_up.
Proof.
  intros Hi. unfold spread. destruct (Z.leb_spec threads 1); [lia|]. split.
  - apply Z.div_pos; [nia | lia].
  - apply Z.div_le_upper_bound; [lia|]. nia.
Qed.

Lemma ramp_offset_spread i : 0 <= i -> ramp_offset (mkRamp threads ramp_up) i = Ok (spread i).
Proof.
  intros Hi. pose proof (spread_bounds i Hi) as Hb. unfold ramp_offset. rewrite ramp_valid. cbn [res_bind rs_threads rs_ramp_up].
  unfold spread in *. destruct (Z.leb_spec threads 1); [done|]. cbn [orb].
  destruct (Z.eqb_spec i 0) as [->|Hi0]; [rewrite Z.min_l, Z.mul_0_r, Zdiv_0_l by lia; done|].
  destruct (Z.eqb_spec ramp_up 0) as [->|Hr0]; [done|]. cbn [orb].
  unfold u64_checked_sub. rewrite (proj2 (Z.leb_le 1 threads)) by lia. cbn [ok_or res_bind].
  rewrite (proj2 (Z.ltb_ge _ _)); [apply duration_of_small; lia|].
  transitivity (duration_max * MAX_THREADS); [|by vm_compute]. apply Z.mul_le_mono_nonneg; lia.
Qed.

Lemma ramp_max_offset_spread : ramp_max_offset (mkRamp threads ramp_up) = Ok (spread (Z.max 0 (threads - 1))).
Proof.
  unfold ramp_max_offset, u64_checked_sub. rewrite ramp_valid. cbn [res_bind rs_threads].
  destruct (Z.leb_spec 1 threads).
  - rewrite ramp_offset_spread, Z.max_r by lia. done.
  - unfold spread. by rewrite (proj2 (Z.leb_le threads 1)) by lia.
Qed.

Lemma spread_step i : 0 <= i -> i + 1 < threads ->
  spread (i + 1) - spread i = ramp_up / threads \/ spread (i + 1) - spread i = ramp_up / threads + 1.
Proof.
  intros Hi Hn. unfold spread. rewrite (proj2 (Z.leb_gt threads 1)), !Z.min_l by lia.
  pose proof (Z.div_mod ramp_up threads ltac:(lia)). pose proof (Z.mod_pos_bound ramp_up threads ltac:(lia)).
  pose proof (Z.div_mod (ramp_up * i) threads ltac:(lia)). pose proof (Z.mod_pos_bound (ramp_up * i) threads ltac:(lia)).
  pose proof (Z.div_mod (ramp_up * (i + 1)) threads ltac:(lia)). pose proof (Z.mod_pos_bound (ramp_up * (i + 1)) threads ltac:(lia)).
  set (a := ramp_up * (i + 1) / threads) in *. set (b := ramp_up * i / threads) in *. set (c := ramp_up / threads) in *.
  assert (threads * (a - b - c) = ramp_up * i mod threads + ramp_up mod threads - (ramp_up * (i + 1)) mod threads) by lia.
  assert (-1 < a - b - c < 2) by nia. lia.
Qed.

Lemma spread_mono i j : 0 <= i <= j -> spread i <= spread j.
Proof.
  intros Hij. unfold spread. destruct (Z.leb_spec threads 1); [lia|]. apply Z.div_le_mono; [lia|].
  apply Z.mul_le_mono_nonneg_l; lia.
Qed.

Lemma collect_map {E A B} (f : A -> B) (g : A -> result E B) l :
  (forall a, a ∈ l -> g a = Ok (f a)) -> collect_results (map g l) = Ok (map f l).
Proof.
  induction l as [|a l IH]; intros Hg; [done|]. cbn. rewrite (Hg a) by set_solver. cbn.
  rewrite IH by set_solver. done.
Qed.

Lemma ramp_offsets_spread :
  ramp_offsets (mkRamp threads ramp_up) = Ok (map (fun i => spread (Z.of_nat i)) (seq 0 (Z.to_nat threads))).
Proof.
  unfold ramp_offsets. rewrite ramp_valid. cbn [res_bind rs_threads].
  apply collect_map. intros a _. apply ramp_offset_spread. lia.
Qed.
End ramp.

(** C29 The users of a group start evenly over its ramp-up: the first at once, each
    next one after a share of the interval that differs by less than a
    nanosecond from the others', and all within it; no valid schedule fails. *)
Theorem ramp_spreads_users threads ramp_up :
  0 <= threads <= MAX_THREADS -> 0 <= ramp_up <= duration_max ->
  exists offsets,
    ramp_offsets (mkRamp threads ramp_up) = Ok offsets /\ Z.of_nat (length offsets) = threads /\
    (forall o, offsets !! 0%nat = Some o -> o = 0) /\
    (forall i o o', offsets !! i = Some o -> offsets !! S i = Some o' ->
       o' - o = ramp_up / threads \/ o' - o = ramp_up / threads + 1) /\
    (forall i o, offsets !! i = Some o ->
       0 <= o <= ramp_up /\ ramp_offset (mkRamp threads ramp_up) (Z.of_nat i) = Ok o).
Proof.
  intros Ht Hr. eexists. split; [by apply ramp_offsets_spread|].
  assert (forall i o, map (fun i => spread threads ramp_up (Z.of_nat i)) (seq 0 (Z.to_nat threads)) !! i = Some o ->
    o = spread threads ramp_up (Z.of_nat i) /\ Z.of_nat i < threads) as Hat.
  { intros i o Ho. apply list_lookup_fmap_Some in Ho as (k & -> & Hk). apply lookup_seq in Hk as [-> Hk]. split; [done | lia]. }
  split_and!.
  - rewrite length_map, length_seq. lia.
  - intros o [-> H0]%Hat. unfold spread. destruct (threads <=? 1); [done|].
    rewrite Z.min_l, Z.mul_0_r by lia. apply Zdiv_0_l.
  - intros i o o' [-> Hi]%Hat [-> Hi']%Hat. replace (Z.of_nat (S i)) with (Z.of_nat i + 1) in * by lia.
    apply spread_step; lia.
  - intros i o [-> Hi]%Hat. split; [apply spread_bounds; lia | apply ramp_offset_spread; lia].
Qed.

Lemma ramp_spreads_users_witness :
  exists offsets,
    ramp_offsets (mkRamp 3 10) = Ok offsets /\ Z.of_nat (length offsets) = 3 /\
    (forall o, offsets !! 0%nat = Some o -> o = 0) /\
    (forall i o o', offsets !! i = Some o -> offsets !! S i = Some o' ->
       o' - o = 10 / 3 \/ o' - o = 10 / 3 + 1) /\
    (forall i o, offsets !! i = Some o ->
       0 <= o <= 10 /\ ramp_offset (mkRamp 3 10) (Z.of_nat i) = Ok o).
Proof. apply (ramp_spreads_users 3 10); split; vm_compute; discriminate. Defined.

(** A schedule that is accepted starts every user: neither the offset nor the
    delay added to it overflows, the announced bound is the start of the last
    user, and none starts later; one is refused exactly when that bound cannot
    be represented. *)
Theorem startup_bound_exact g threads :
  0 <= threads <= MAX_THREADS -> 0 <= gs_ramp_up g <= duration_max -> 0 <= gs_delay g <= duration_max ->
  match startup_bound g threads with
  | Ok b =>
      group_ramp g threads = Ok (mkRamp threads (gs_ramp_up g)) /\
      (forall i, 0 <= i < threads -> exists o,
         ramp_offset (mkRamp threads (gs_ramp_up g)) i = Ok o /\
         duration_checked_add (gs_delay g) o = Some (gs_delay g + o) /\ gs_delay g + o <= b /\
         (i = threads - 1 -> gs_delay g + o = b))
  | Err e =>
      e = startup_overflow /\ group_ramp g threads = Err startup_overflow /\
      duration_max < gs_delay g + spread threads (gs_ramp_up g) (Z.max 0 (threads - 1))
  | OutOfFuel => False
  end.
Proof.
  intros Ht Hr Hd. unfold startup_bound, group_ramp, ramp_new. rewrite (ramp_valid _ _ Ht).
  cbn [res_bind]. rewrite (ramp_max_offset_spread _ _ Ht Hr). cbn [res_bind].
  set (s := spread threads (gs_ramp_up g) (Z.max 0 (threads - 1))).
  unfold duration_checked_add at 1. destruct (Z.leb_spec (gs_delay g + s) duration_max) as [Hle|Hgt]; cbn [ok_or res_bind].
  - rewrite (ramp_max_offset_spread _ _ Ht Hr). cbn [res_bind]. fold s. unfold duration_checked_add.
    rewrite (proj2 (Z.leb_le (gs_delay g + s) _)) by done. cbn [ok_or]. split; [done|]. intros i Hi.
    exists (spread threads (gs_ramp_up g) i). rewrite (ramp_offset_spread _ _ Ht Hr) by lia.
    assert (spread threads (gs_ramp_up g) i <= s) by (apply spread_mono; lia).
    split_and!; [done| |lia|].
    + by rewrite (proj2 (Z.leb_le _ _)) by lia.
    + intros ->. unfold s. by rewrite Z.max_r by lia.
  - unfold duration_checked_add. rewrite (proj2 (Z.leb_gt _ _)) by exact Hgt. done.
Qed.

Lemma startup_bound_exact_witness :
  startup_bound (mkGroupSchedule 5 10 None) 3 = Ok 11 /\
  group_ramp (mkGroupSchedule 5 10 None) 3 = Ok (mkRamp 3 10).
Proof.
  assert (startup_bound (mkGroupSchedule 5 10 None) 3 = Ok 11) as Hb by (vm_compute; reflexivity).
  pose proof (startup_bound_exact (mkGroupSchedule 5 10 None) 3) as H. rewrite Hb in H.
  split; [exact Hb|]. apply H; split; vm_compute; discriminate.
Defined.

(** ** Iterations *)

(** A failing step leaves the counters alone, because the count of completed
    iterations is never behind the current one. *)
Lemma iteration_advance_atomic s :
  0 <= it_current s <= it_completed s ->
  match iteration_advance s with
  | (Ok _, s') => it_current s' = it_current s + 1 /\ it_completed s' = it_completed s + 1
  | (Err e, s') => s' = s /\ it_completed s = u64_max \/ u64_max < it_completed s
  | (OutOfFuel, _) => False
  end.
Proof.
  intros Hs. unfold iteration_advance, u64_checked_add.
  destruct (Z.leb_spec (it_completed s + 1) u64_max); cbn.
  - rewrite (proj2 (Z.leb_le _ _)) by lia. done.
  - destruct (decide (it_completed s = u64_max)); [left; done | right; lia].
Qed.

(** ** The join *)

Section join.
Context {W T : Type} (poll_task : nat -> W -> option T * W).

(** The tasks without a result, from the task [index] on. *)
Fixpoint unfinished (index : nat) (slots : list (option T)) : list nat :=
  match slots with
  | [] => []
  | Some _ :: slots => unfinished (S index) slots
  | None :: slots => index :: unfinished (S index) slots
  end.

(** The slots with the results of a turn's polls put in. *)
Fixpoint filled (slots : list (option T)) (polled : list (nat * option T)) : list (option T) :=
  match slots, polled with
  | Some v :: slots, _ => Some v :: filled slots polled
  | None :: slots, (_, r) :: polled => r :: filled slots polled
  | None :: slots, [] => None :: filled slots []
  | [], _ => []
  end.

(** The polls of a turn, each in the world the one before has left. *)
Inductive polls_in_turn : list (nat * option T) -> W -> W -> Prop :=
| no_polls w : polls_in_turn [] w w
| one_more_poll i r l w w1 w2 :
    poll_task i w = (r, w1) -> polls_in_turn l w1 w2 -> polls_in_turn ((i, r) :: l) w w2.

Lemma join_visit_ok index slots w slots' w' polled :
  join_visit poll_task index slots w = (slots', w', polled) ->
  polled.*1 = unfinished index slots /\ slots' = filled slots polled /\ polls_in_turn polled w w'.
Proof.
  revert index w slots' w' polled. induction slots as [|[v|] slots IH]; intros index w slots' w' polled; cbn.
  - intros [= <- <- <-]. split_and!; [done..|constructor].
  - destruct (join_visit poll_task (S index) slots w) as [[rest w1] p] eqn:Hv. intros [= <- <- <-].
    destruct (IH _ _ _ _ _ Hv) as (H1 & -> & H3). done.
  - destruct (poll_task index w) as [r w1] eqn:Hp.
    destruct (join_visit poll_task (S index) slots w1) as [[rest w2] p] eqn:Hv. intros [= <- <- <-].
    destruct (IH _ _ _ _ _ Hv) as (H1 & -> & H3). cbn. rewrite H1. split_and!; [done..|]. by econstructor.
Qed.

Lemma take_results_ok (vs : list T) : take_results (map Some vs) = Ok vs.
Proof. induction vs as [|v vs IH]; [done|]. cbn. by rewrite IH. Qed.

Lemma all_there (slots : list (option T)) :
  forallb (fun s : option T => bool_decide (is_Some s)) slots = true -> exists vs, slots = map Some vs.
Proof.
  induction slots as [|[v|] slots IH]; cbn; [by exists [] | | done].
  intros Hs. destruct (IH Hs) as [vs ->]. by exists (v :: vs).
Qed.
End join.

(** C31 A turn of the join polls exactly the tasks that have no result yet, each
    once and in order, and keeps what they return; it is ready exactly when
    every task has a result, with the results in the order of the tasks. *)
Theorem join_turn_fair {W T} (poll_task : nat -> W -> option T * W) (slots : list (option T)) w :
  let '(outcome, slots', w', polled) := join_poll poll_task slots w in
  polled.*1 = unfinished 0 slots /\ polls_in_turn poll_task polled w w' /\
  match outcome with
  | JoinPending => slots' = filled slots polled /\ unfinished 0 slots' <> []
  | JoinReady res => exists vs, filled slots polled = map Some vs /\ res = Ok vs
  end.
Proof.
  unfold join_poll. destruct slots as [|s slots].
  { split_and!; [done|constructor|]. by exists []. }
  destruct (join_visit poll_task 0 (s :: slots) w) as [[slots' w'] polled] eqn:Hv.
  destruct (join_visit_ok _ _ _ _ _ _ _ Hv) as (H1 & -> & H3).
  destruct (forallb _ _) eqn:Hall.
  - destruct (all_there _ Hall) as [vs Hvs]. split_and!; [done..|]. exists vs. by rewrite Hvs, take_results_ok.
  - split_and!; [done..|]. clear -Hall. generalize 0%nat.
    induction (filled (s :: slots) polled) as [|[v|] l IH]; intros k; cbn in *; [done | by apply IH | done].
Qed.

(** ** The admission gate *)

(** Those who want to pass: not polled yet or waiting with the waker of their
    last poll, holding a permit, or gone. *)
Inductive Contender := Waits (waker : option Z) | Holds | Gone.

Inductive gate_op := GPoll (who : nat) (waker : Z) | GDrop (who : nat) | GRelease (who : nat).

(** An operation of a contender and the wakers it invokes; one that the
    contender is not in a state to do changes nothing. *)
Definition gate_step (o : gate_op) (st : GateState * list Contender) : (GateState * list Contender) * list Z :=
  let '(g, cs) := st in
  match o with
  | GPoll who waker =>
      match cs !! who with
      | Some (Waits w) =>
          match gate_poll w waker g with
          | (GatePending, w', g') => ((g', <[who := Waits w']> cs), [])
          | (GateAdmitted, _, g') => ((g', <[who := Holds]> cs), [])
          | (GateRefused _, w', g') => ((gate_drop w' g', <[who := Gone]> cs), [])
          end
      | _ => (st, [])
      end
  | GDrop who =>
      match cs !! who with
      | Some (Waits w) => ((gate_drop w g, <[who := Gone]> cs), [])
      | _ => (st, [])
      end
  | GRelease who =>
      match cs !! who with
      | Some Holds => let '(woken, g') := gate_release g in ((g', <[who := Gone]> cs), woken)
      | _ => (st, [])
      end
  end.

Fixpoint gate_run (ops : list gate_op) (st : GateState * list Contender) : (GateState * list Contender) * list Z :=
  match ops with
  | [] => (st, [])
  | o :: ops => let '(st, w) := gate_step o st in let '(st, ws) := gate_run ops st in (st, w ++ ws)
  end.

(** The gate is held exactly while one contender has the permit. *)
Definition gate_ok (st : GateState * list Contender) : Prop :=
  (gate_held st.1 = true <-> exists i, st.2 !! i = Some Holds) /\
  forall i j, st.2 !! i = Some Holds -> st.2 !! j = Some Holds -> i = j.

Lemma gate_poll_cases w waker g r w' g' :
  gate_poll w waker g = (r, w', g') ->
  match r with
  | GateAdmitted => gate_held g = false /\ gate_held g' = true
  | _ => gate_held g = true /\ gate_held g' = true
  end.
Proof.
  unfold gate_poll. destruct (gate_held g) eqn:Hg; cbn; [|by intros [= <- <- <-]].
  case_bool_decide; cbn; [by intros [= <- <- <-]|].
  destruct (_ <=? _); by intros [= <- <- <-].
Qed.

Lemma gate_drop_held w g : gate_held (gate_drop w g) = gate_held g.
Proof. by destruct w. Qed.

(** A contender that leaves a state without the permit for another one. *)
Lemma gate_ok_other g g' cs who c c' :
  gate_ok (g, cs) -> cs !! who = Some c -> c <> Holds -> c' <> Holds -> gate_held g' = gate_held g ->
  gate_ok (g', <[who := c']> cs).
Proof.
  intros [Hh Huniq] Hw Hc Hc' Heq. cbn in *.
  assert (forall i, <[who := c']> cs !! i = Some Holds <-> cs !! i = Some Holds) as Hsame.
  { intros i. destruct (decide (who = i)) as [->|Hne]; [|by rewrite list_lookup_insert_ne].
    rewrite list_lookup_insert_eq by (by eapply lookup_lt_Some). split; congruence. }
  split; cbn; [rewrite Heq, Hh; by setoid_rewrite Hsame | setoid_rewrite Hsame; exact Huniq].
Qed.

Lemma gate_step_ok o st : gate_ok st -> gate_ok (gate_step o st).1.
Proof.
  destruct st as [g cs]. intros Hok. destruct o as [who waker|who|who]; cbn;
    destruct (cs !! who) as [[w| |]|] eqn:Hw; try exact Hok.
  - destruct (gate_poll w waker g) as [[r w'] g'] eqn:Hp. pose proof (gate_poll_cases _ _ _ _ _ _ Hp) as Hc.
    destruct r; cbn; destruct Hc as [H1 H2].
    + eapply gate_ok_other; [done..|congruence].
    + destruct Hok as [Hh Huniq]. cbn in *. assert (forall i, cs !! i <> Some Holds) as Hnone.
      { intros i Hi. assert (gate_held g = true) by (apply Hh; eauto). congruence. }
      assert (forall i, <[who := Holds]> cs !! i = Some Holds <-> i = who) as Hone.
      { intros i. destruct (decide (who = i)) as [->|Hne].
        - rewrite list_lookup_insert_eq by (by eapply lookup_lt_Some). done.
        - rewrite list_lookup_insert_ne by done. split; [by intros ?%Hnone | congruence]. }
      split; cbn; [rewrite H2; split; [|done]; intros _; exists who; by apply Hone|].
      intros i j ->%Hone ->%Hone. done.
    + eapply gate_ok_other; [done..|]. rewrite gate_drop_held. congruence.
  - eapply gate_ok_other; [done..|apply gate_drop_held].
  - destruct Hok as [Hh Huniq]. cbn in *. assert (forall i, <[who := Gone]> cs !! i <> Some Holds) as Hnone.
    { intros i Hi. destruct (decide (who = i)) as [->|Hne].
      - rewrite list_lookup_insert_eq in Hi by (by eapply lookup_lt_Some). done.
      - rewrite list_lookup_insert_ne in Hi by done. apply Hne. by apply (Huniq who i). }
    split; cbn; [split; [done | by intros [i ?%Hnone]] | by intros i j ?%Hnone].
Qed.

(** Whatever the contenders do, at most one of them holds the permit, and the
    gate is closed exactly while one does. *)
Theorem gate_exclusive n ops : gate_ok (gate_run ops (gate_new, replicate n (Waits None))).1.
Proof.
  assert (gate_ok (gate_new, replicate n (Waits None))) as Hok.
  { assert (forall i, replicate n (Waits None) !! i <> Some Holds) as Hnone
      by (intros i Hi; apply lookup_replicate in Hi as [Hi _]; done).
    split; cbn; [split; [done | by intros [i ?%Hnone]] | by intros i j ?%Hnone]. }
  revert Hok. generalize (gate_new, replicate n (Waits None)). induction ops as [|o ops IH]; intros st Hok; [done|].
  cbn. pose proof (gate_step_ok o st Hok) as Hstep. destruct (gate_step o st) as [st1 w]. cbn in Hstep.
  specialize (IH st1 Hstep). by destruct (gate_run ops st1).
Qed.

(** Three contenders: the second and the third wait while the first holds; both
    are woken by its release, the second is admitted and the third has to wait
    again. *)
Definition woken_in_vain : list gate_op :=
  [GPoll 0 10; GPoll 1 11; GPoll 2 12; GRelease 0; GPoll 1 11; GPoll 2 12].

(** The gate forgets a waiter that was woken in vain: polled again with the
    waker it is known by, it is not put back into the list that the release has
    emptied, so that the next release wakes nobody, with the gate open and the
    contender waiting. *)
Theorem gate_forgets_waiter :
  let st := (gate_run woken_in_vain (gate_new, replicate 3 (Waits None))).1 in
  st.2 !! 2%nat = Some (Waits (Some 12)) /\ gate_waiters st.1 = [] /\
  let '(st', woken) := gate_step (GRelease 1) st in
  woken = [] /\ gate_held st'.1 = false /\ st'.2 !! 2%nat = Some (Waits (Some 12)).
Proof. by vm_compute. Qed.
