(* ===== verification/Leases.v ===== *)
(** * Critical-section leases of a virtual user

    Models [CriticalSectionLeases] of [crates/runtime/src/lifecycle.rs] and the
    futures by which it acquires locks: before a sampler runs, the locks a user
    holds are brought in line with the critical sections around the sampler,
    outermost first.  The leases are a client of the coordinator ([Critical])
    and of the user's cancellation token ([Token]).

    The other users of the run act between any two accesses to what they share.
    What they do before the access number [k] of a call is the argument [env k]
    of the definitions, a list of operations.  [synchronize] accesses the store
    in its release phase and once per scope it acquires, so its [env] has one
    more argument: 0 for the releases, [S n] while [n] scopes are left. *)

From S2P Require Import Prelude Control Token Critical Lifecycle.

(** What the users of a run share: the locks, the tokens, and the log of the
    wakers invoked. *)
Record LeaseWorld := mkLeaseWorld {
  lw_locks : CriticalState;
  lw_tokens : TokenStore;
  lw_woken : list Z
}.

(** An operation of another user. *)
Inductive foreign_op := ForeignLock (o : crit_op) | ForeignToken (o : token_op).

Record CriticalSectionScope := mkScope {
  sc_controller_id : Z;
  sc_name : string
}.

#[global] Instance CriticalSectionScope_eq_dec : EqDecision CriticalSectionScope.
Proof. solve_decision. Defined.

Inductive CriticalSectionSyncOutcome := SyncAcquired | SyncCancelled (signal : ControlSignal).

(** [PendingCriticalAcquisition] with the flag [acquired] of the future around
    it. *)
Record Acquisition := mkAcquisition {
  aq_name : string;
  aq_lifecycle_id : Z;
  aq_armed : bool;
  aq_acquired : bool
}.

Definition arm (a : Acquisition) : Acquisition :=
  mkAcquisition (aq_name a) (aq_lifecycle_id a) true (aq_acquired a).
Definition disarm (a : Acquisition) : Acquisition :=
  mkAcquisition (aq_name a) (aq_lifecycle_id a) false (aq_acquired a).
Definition set_acquired (b : bool) (a : Acquisition) : Acquisition :=
  mkAcquisition (aq_name a) (aq_lifecycle_id a) (aq_armed a) b.

(** [PendingCriticalAcquisition::new] *)
Definition acquisition_new (name : string) (lifecycle_id : Z) : Acquisition :=
  mkAcquisition name lifecycle_id false false.

(** The scopes are held outermost first; [drop_error] is the slot that outlives
    the leases. *)
Record CriticalSectionLeases := mkLeases {
  cl_lifecycle_id : Z;
  cl_scopes : list CriticalSectionScope;
  cl_drop_error : list CriticalSectionError
}.

Definition with_scopes (l : list CriticalSectionScope) (c : CriticalSectionLeases) : CriticalSectionLeases :=
  mkLeases (cl_lifecycle_id c) l (cl_drop_error c).

(** [CriticalSectionLeases::new] and [set_lifecycle] *)
Definition leases_new (lifecycle_id : option Z) : CriticalSectionLeases :=
  mkLeases (default 0 lifecycle_id) [] [].
Definition set_lifecycle (lifecycle_id : Z) (c : CriticalSectionLeases) : CriticalSectionLeases :=
  mkLeases lifecycle_id (cl_scopes c) (cl_drop_error c).

(** [critical_section_errors] *)
Definition critical_section_errors (group_id : Z) (errors : list CriticalSectionError) : option EngineError :=
  foldl (fun slot source => combine_engine_error slot (CriticalSection group_id source)) None errors.

Section leases.
(** The bounds of the coordinator, the user's token and its waker. *)
Context (max_held max_waiters : Z) (token : nat) (waker : Z).

(** ** Access to what is shared *)

Definition log_wakers (l : list Z) (w : LeaseWorld) : LeaseWorld :=
  mkLeaseWorld (lw_locks w) (lw_tokens w) (lw_woken w ++ l).

Definition apply_foreign (w : LeaseWorld) (o : foreign_op) : LeaseWorld :=
  match o with
  | ForeignLock o =>
      let '(r, s) := apply_crit max_held max_waiters o (lw_locks w) in
      mkLeaseWorld s (lw_tokens w) (lw_woken w ++ match r with Ok (_, l) => l | _ => [] end)
  | ForeignToken o =>
      let '(s, l) := apply_token_op (lw_tokens w) o in
      mkLeaseWorld (lw_locks w) s (lw_woken w ++ l)
  end.

Definition interfere (ops : list foreign_op) (w : LeaseWorld) : LeaseWorld := foldl apply_foreign w ops.

(** A call of the coordinator, with the wakers it invokes. *)
Definition lock_call {A} (m : CM A) (wakes : A -> list Z) (w : LeaseWorld) :
    result CriticalSectionError A * LeaseWorld :=
  let '(r, s) := m (lw_locks w) in
  (r, mkLeaseWorld s (lw_tokens w) (lw_woken w ++ match r with Ok a => wakes a | _ => [] end)).

Definition call_release (name : string) (id : Z) : LeaseWorld -> result CriticalSectionError (list Z) * LeaseWorld :=
  lock_call (release max_held name id) (fun l => l).
Definition call_cancel (name : string) (id : Z) : LeaseWorld -> result CriticalSectionError (bool * list Z) * LeaseWorld :=
  lock_call (cancel_acquire name id) snd.
Definition call_poll (name : string) (id : Z) : LeaseWorld -> result CriticalSectionError poll * LeaseWorld :=
  lock_call (poll_acquire max_held max_waiters name id waker) (fun _ => []).

Definition read_signal (w : LeaseWorld) : ControlSignal := token_signal (lw_tokens w) token.

(** [Result::map(|_| ())] *)
Definition forget {E A} (r : result E A) : result E () := let? _ := r in Ok ().

(** ** One acquisition *)

(** [PendingCriticalAcquisition::cancel] *)
Definition pending_cancel (a : Acquisition) (w : LeaseWorld) :
    result CriticalSectionError () * Acquisition * LeaseWorld :=
  if negb (aq_armed a) then (Ok (), a, w)
  else
    let '(r, w) := call_cancel (aq_name a) (aq_lifecycle_id a) w in
    (forget r, disarm a, w).

(** [Drop] of [PendingCriticalAcquisition] *)
Definition pending_drop (a : Acquisition) (w : LeaseWorld) : LeaseWorld :=
  if aq_armed a then (call_cancel (aq_name a) (aq_lifecycle_id a) w).2 else w.

(** The outcome of a cancellation: both results count. *)
Definition cancelled_outcome (group_id : Z) (signal : ControlSignal) (cancel release : result CriticalSectionError ()) :
    result EngineError CriticalSectionSyncOutcome :=
  match cancel, release with
  | Ok _, Ok _ => Ok (SyncCancelled signal)
  | Err e, Ok _ | Ok _, Err e => Err (CriticalSection group_id e)
  | Err e, Err e' => Err (Combined (CriticalSection group_id e) (CriticalSection group_id e'))
  | OutOfFuel, _ | _, OutOfFuel => OutOfFuel
  end.

Inductive AcquirePoll :=
| AcquirePending
| AcquireReady (res : result EngineError CriticalSectionSyncOutcome).

(** The end of a poll that has seen a stop: the queued request is withdrawn and
    a lock that was acquired is given back. *)
Definition acquire_stopped (env : nat -> list foreign_op) (group_id : Z) (signal : ControlSignal)
    (a : Acquisition) (w : LeaseWorld) : AcquirePoll * Acquisition * LeaseWorld :=
  let '(cancelled, a, w) := pending_cancel a (interfere (env 4%nat) w) in
  if aq_acquired a then
    let a := set_acquired false a in
    let '(released, w) := call_release (aq_name a) (aq_lifecycle_id a) (interfere (env 5%nat) w) in
    (AcquireReady (cancelled_outcome group_id signal cancelled (forget released)), a, w)
  else (AcquireReady (cancelled_outcome group_id signal cancelled (Ok ())), a, w).

(** The coordinator queued the request: the user also waits for a stop, and
    looks again for one that came before it was registered. *)
Definition acquire_wait (env : nat -> list foreign_op) (a : Acquisition) (w : LeaseWorld) :
    AcquirePoll * Acquisition * LeaseWorld :=
  let w := interfere (env 2%nat) w in
  let w := mkLeaseWorld (lw_locks w) (register_waker token waker (lw_tokens w)) (lw_woken w) in
  let w := interfere (env 3%nat) w in
  let w := if is_stop (read_signal w) then log_wakers [waker] w else w in
  (AcquirePending, arm a, w).

(** The closure that [poll_critical_section_acquire] polls. *)
Definition acquire_poll (env : nat -> list foreign_op) (group_id : Z) (a : Acquisition) (w : LeaseWorld) :
    AcquirePoll * Acquisition * LeaseWorld :=
  let w := interfere (env 0%nat) w in
  let signal := read_signal w in
  if is_stop signal then acquire_stopped env group_id signal a w
  else
    let '(r, w) := call_poll (aq_name a) (aq_lifecycle_id a) (interfere (env 1%nat) w) in
    match r with
    | Ok Pending => acquire_wait env a w
    | Ok Acquired =>
        let a := set_acquired true a in
        let w := interfere (env 2%nat) w in
        if is_stop (read_signal w) then
          let w := interfere (env 3%nat) w in
          acquire_stopped env group_id (read_signal w) a w
        else (AcquireReady (Ok SyncAcquired), disarm a, w)
    | Err source => (AcquireReady (Err (CriticalSection group_id source)), a, w)
    | OutOfFuel => (AcquireReady OutOfFuel, a, w)
    end.

(** ** Bringing the leases in line *)

(** Releases in the order given: what failed, and the world. *)
Fixpoint release_names (env : nat -> list foreign_op) (k : nat) (names : list string) (id : Z) (w : LeaseWorld) :
    list CriticalSectionError * LeaseWorld :=
  match names with
  | [] => ([], w)
  | name :: names =>
      let '(r, w) := call_release name id (interfere (env k) w) in
      let '(errors, w) := release_names env (S k) names id w in
      (match r with Err e => e :: errors | _ => errors end, w)
  end.

(** [release_all]: innermost first. *)
Definition release_all (env : nat -> list foreign_op) (c : CriticalSectionLeases) (w : LeaseWorld) :
    list CriticalSectionError * CriticalSectionLeases * LeaseWorld :=
  let '(errors, w) := release_names env 0 (reverse (map sc_name (cl_scopes c))) (cl_lifecycle_id c) w in
  (errors, with_scopes [] c, w).

(** [release_error] *)
Definition release_error (env : nat -> list foreign_op) (group_id : Z) (c : CriticalSectionLeases) (w : LeaseWorld) :
    option EngineError * CriticalSectionLeases * LeaseWorld :=
  let '(errors, c, w) := release_all env c w in
  (critical_section_errors group_id (errors ++ cl_drop_error c),
   mkLeases (cl_lifecycle_id c) (cl_scopes c) [], w).

(** [Drop] of [CriticalSectionLeases] *)
Definition leases_drop (env : nat -> list foreign_op) (c : CriticalSectionLeases) (w : LeaseWorld) :
    CriticalSectionLeases * LeaseWorld :=
  let '(errors, c, w) := release_all env c w in
  (mkLeases (cl_lifecycle_id c) (cl_scopes c) (cl_drop_error c ++ errors), w).

(** The number of outer scopes that stay. *)
Fixpoint common_scopes (held wanted : list CriticalSectionScope) : nat :=
  match held, wanted with
  | h :: held, x :: wanted => if bool_decide (h = x) then S (common_scopes held wanted) else 0%nat
  | _, _ => 0%nat
  end.

(** A call of [synchronize] that waits: the scopes to acquire, the first of
    them being acquired. *)
Record SyncTask := mkSyncTask {
  sy_todo : list CriticalSectionScope;
  sy_current : option Acquisition
}.

Inductive SyncPoll :=
| SyncPending (task : SyncTask)
| SyncReady (res : result EngineError CriticalSectionSyncOutcome).

(** Two readings of the token: whether to stop, and why. *)
Definition check_stop (env : nat -> list foreign_op) (k : nat) (w : LeaseWorld) :
    option ControlSignal * LeaseWorld :=
  let w := interfere (env k) w in
  if is_stop (read_signal w) then
    let w := interfere (env (S k)) w in (Some (read_signal w), w)
  else (None, w).

(** The loop of [synchronize], polled: as far as it comes.  The acquisition is
    dropped when it has ended. *)
Fixpoint sync_acquire (env : nat -> nat -> list foreign_op) (group_id : Z) (todo : list CriticalSectionScope)
    (current : option Acquisition) (c : CriticalSectionLeases) (w : LeaseWorld) :
    SyncPoll * CriticalSectionLeases * LeaseWorld :=
  match todo with
  | [] =>
      let '(stop, w) := check_stop (env 1%nat) 0 w in
      (SyncReady (Ok (match stop with Some signal => SyncCancelled signal | None => SyncAcquired end)), c, w)
  | scope :: rest =>
      let a := default (acquisition_new (sc_name scope) (cl_lifecycle_id c)) current in
      match acquire_poll (env (S (length todo))) group_id a w with
      | (AcquirePending, a, w) => (SyncPending (mkSyncTask todo (Some a)), c, w)
      | (AcquireReady res, a, w) =>
          let w := pending_drop a (interfere (env (S (length todo)) 6%nat) w) in
          match res with
          | Ok SyncAcquired =>
              sync_acquire env group_id rest None (with_scopes (cl_scopes c ++ [scope]) c) w
          | _ => (SyncReady res, c, w)
          end
      end
  end.

(** [synchronize], up to its first wait. *)
Definition synchronize (env : nat -> nat -> list foreign_op) (group_id : Z) (ids : list Z) (names : list string)
    (c : CriticalSectionLeases) (w : LeaseWorld) : SyncPoll * CriticalSectionLeases * LeaseWorld :=
  if negb (bool_decide (length names = length ids))
  then (SyncReady (Err (ResourceLimit "critical-section selection identity/name mismatch")), c, w)
  else
    let desired := zip_with mkScope ids names in
    let common := common_scopes (cl_scopes c) desired in
    let names := reverse (map sc_name (drop common (cl_scopes c))) in
    let '(errors, w) := release_names (env 0%nat) 0 names (cl_lifecycle_id c) w in
    let c := with_scopes (take common (cl_scopes c)) c in
    match critical_section_errors group_id errors with
    | Some error => (SyncReady (Err error), c, w)
    | None =>
        let '(stop, w) := check_stop (env 0%nat) (length names) w in
        match stop with
        | Some signal => (SyncReady (Ok (SyncCancelled signal)), c, w)
        | None => sync_acquire env group_id (drop common desired) None c w
        end
    end.

(** The same call polled again, and dropped while it waits. *)
Definition sync_repoll (env : nat -> nat -> list foreign_op) (group_id : Z) (task : SyncTask)
    (c : CriticalSectionLeases) (w : LeaseWorld) : SyncPoll * CriticalSectionLeases * LeaseWorld :=
  sync_acquire env group_id (sy_todo task) (sy_current task) c w.

Definition sync_drop (task : SyncTask) (w : LeaseWorld) : LeaseWorld :=
  match sy_current task with Some a => pending_drop a w | None => w end.

End leases.
