(* ===== verification/LeasesProps.v ===== *)
(** * What critical-section leases guarantee

    The locks a user owns at the coordinator are those of its lease stack,
    whatever the other users do between its accesses. *)

From S2P Require Import Prelude Control Token Critical Lifecycle Leases.

(** ** Steps of others *)

Definition event_actor (e : lock_event) : Z :=
  match e with Acquire id | Wait id | Leave id | Release id => id end.

Definition crit_actor (o : crit_op) : option Z :=
  match o with
  | OTryAcquire _ id | OTryAcquireGeneration _ id _ | ORelease _ id | OReleaseGeneration _ id _
  | OPollAcquire _ id _ | OPollAcquireGeneration _ id _ _ | OCancelAcquire _ id
  | OCancelAcquireGeneration _ id _ => Some id
  | OAdvanceGeneration => None
  end.

(** Operations that are not the user's own: other owners at the coordinator,
    and nothing that drops the user's token. *)
Definition foreign_ok (id : Z) (token : nat) (o : foreign_op) : Prop :=
  match o with
  | ForeignLock o => crit_actor o <> Some id
  | ForeignToken o => o <> TDrop token
  end.

Definition env_ok (id : Z) (token : nat) (env : nat -> list foreign_op) : Prop :=
  forall k, Forall (foreign_ok id token) (env k).

Lemma apply_crit_actor mh mw o s n e l s' :
  apply_crit mh mw o s = (Ok (Some (n, e), l), s') -> crit_actor o = Some (event_actor e).
Proof.
  destruct o; simpl; intros (a & s1 & _ & H)%st_bind_Ok; unfold st_ret, polled, left_queue in H;
    simplify_eq/=; try done.
  - by destruct a; simplify_eq.
  - by destruct a; simplify_eq.
  - by destruct (a.1); simplify_eq.
  - by destruct (a.1); simplify_eq.
Qed.

(** A lock as one user sees it: whether it owns it and whether it waits. *)
Definition same_for (id : Z) (l l' : option Z * list Z) : Prop :=
  (l'.1 = Some id <-> l.1 = Some id) /\ (id ∈ l'.2 <-> id ∈ l.2).

Lemma lock_step_same l e l' id : lock_step l e l' -> event_actor e <> id -> same_for id l l'.
Proof.
  intros Hs Hne. destruct Hs; simpl in *; split; simpl; try done;
    rewrite ?elem_of_app, ?elem_of_cons, ?elem_of_nil, ?list_elem_of_singleton; intuition congruence.
Qed.

Lemma service_step_same v ev v' id n :
  service_step v ev v' -> (forall m e, ev = Some (m, e) -> event_actor e <> id) ->
  same_for id (v n) (v' n).
Proof.
  destruct ev as [[m e]|]; simpl; intros H Hne; [|by rewrite H].
  destruct H as [H1 H2]. destruct (decide (n = m)) as [->|Hn]; [|by rewrite H2].
  eapply lock_step_same; [done|by eapply Hne].
Qed.

(** A stop that was requested stays. *)
Lemma token_stop_sticky s o h :
  is_stop (token_signal s h) = true -> is_stop (token_signal (fst (apply_token_op s o)) h) = true.
Proof.
  assert (forall s', (is_stop (signal_from_u8 (t_stop s)) = true -> is_stop (signal_from_u8 (t_stop s')) = true) ->
    (v_thread_stop (view s h) = true -> v_thread_stop (view s' h) = true) ->
    is_stop (token_signal s h) = true -> is_stop (token_signal s' h) = true) as Hmono.
  { intros s' H1 H2. unfold token_signal. destruct (is_stop (signal_from_u8 (t_stop s))) eqn:E1.
    - intros _. by rewrite (H1 eq_refl), (H1 eq_refl).
    - destruct (v_thread_stop (view s h)) eqn:E2; [|by destruct (v_next_loop (view s h))].
      intros _. destruct (is_stop (signal_from_u8 (t_stop s'))) eqn:E3; [by rewrite E3|].
      by rewrite (H2 eq_refl). }
  assert (forall k f s0, (forall v, v_thread_stop v = true -> v_thread_stop (f v) = true) ->
    v_thread_stop (view s0 h) = true -> v_thread_stop (view (with_view k f s0) h) = true) as Hview.
  { intros k f s0 Hf. unfold view. simpl. destruct (decide (k = h)) as [->|Hne].
    - rewrite list_lookup_alter_eq. destruct (t_views s0 !! h); simpl; [apply Hf|done].
    - by rewrite list_lookup_alter_ne. }
  intros Hs.
  assert (forall k s0, t_stop s0 = t_stop s ->
    (v_thread_stop (view s h) = true -> v_thread_stop (view s0 h) = true) ->
    is_stop (token_signal (fst (wake_local k s0)) h) = true) as Hwake.
  { intros k s0 H1 H2. destruct (wake_local_spec k s0) as (regs & woken & -> & _).
    apply Hmono; [by simpl; rewrite H1|done|done]. }
  destruct o as [k sig|k|k|k|k w| |k]; cbn [apply_token_op fst].
  - destruct sig; cbn [token_request]; try done.
    + apply Hwake; [done|]. intros H. by apply Hview, Hview.
    + apply Hwake; [done|]. intros H. by apply Hview, Hview.
    + destruct (_ <? _); [by apply Hmono|done].
    + destruct (_ <? _); [by apply Hmono|done].
  - unfold token_take_signal. repeat case_if; simpl; try done; (apply Hmono; [done|by apply Hview|done]).
  - apply Hwake; [done|]. intros H. by apply Hview, Hview.
  - apply Hmono; [done|by apply Hview|done].
  - by apply Hmono.
  - apply Hmono; [done| |done]. unfold view. simpl.
    destruct (t_views s !! h) eqn:E; simpl; [|done]. by rewrite (lookup_app_l_Some _ _ _ _ E).
  - apply Hmono; [done|by apply Hview|done].
Qed.

Lemma alive_kept s o h :
  o <> TDrop h -> owner_alive s h = true -> owner_alive (fst (apply_token_op s o)) h = true.
Proof.
  intros Ho Ha.
  assert (forall k f s0, (forall v, v_alive (f v) = v_alive v) ->
    owner_alive (with_view k f s0) h = owner_alive s0 h) as Hview.
  { intros k f s0 Hf. by apply (with_view_alive k f s0 Hf). }
  assert (forall k s0, owner_alive (fst (wake_local k s0)) h = owner_alive s0 h) as Hwake.
  { intros k s0. by destruct (wake_local_spec k s0) as (regs & woken & -> & _). }
  destruct o as [k sig|k|k|k|k w| |k]; simpl.
  - destruct sig; simpl; try done;
      [unfold bump_local_generation; by rewrite Hwake, !Hview..| |]; by destruct (_ <? _).
  - unfold token_take_signal. repeat case_if; simpl; try done; by rewrite Hview.
  - unfold token_wake, bump_local_generation. by rewrite Hwake, !Hview.
  - by rewrite Hview.
  - done.
  - unfold owner_alive, view in *. simpl. destruct (t_views s !! h) eqn:E; [|done].
    by rewrite (lookup_app_l_Some _ _ _ _ E).
  - unfold token_drop, owner_alive, view in *. simpl. by rewrite list_lookup_alter_ne by congruence.
Qed.

(** What the user's own events do to a lock. *)
Lemma step_release l id l' : lock_step l (Release id) l' -> l.1 = Some id /\ l'.1 = None /\ l'.2 = l.2.
Proof. by inversion 1. Qed.

Lemma step_acquire l id l' : lock_step l (Acquire id) l' -> l.1 = None /\ l'.1 = Some id.
Proof. by inversion 1. Qed.

Lemma step_wait l id l' : lock_step l (Wait id) l' -> l'.1 = l.1 /\ id ∈ l'.2.
Proof. inversion 1; simpl; split; try done. apply elem_of_app. right. by left. Qed.

Lemma step_leave l id l' : lock_step l (Leave id) l' -> NoDup l.2 -> l'.1 = l.1 /\ id ∉ l'.2.
Proof.
  inversion 1; simpl. intros (_ & Hd & [Hq _]%NoDup_cons)%NoDup_app. split; [done|].
  intros [Hx|Hx]%elem_of_app; [|done]. apply (Hd id Hx). by left.
Qed.

Section world.
Context (mh mw : Z) (Hmw : mw <= MAX_CRITICAL_WAITERS).
Context (id : Z) (token : nat) (waker : Z).

(** The user owns the locks [names] and waits for [waits]. *)
Definition stands (w : LeaseWorld) (names : list string) (waits : option string) : Prop :=
  crit_ok mh mw (lw_locks w) /\
  forall n, ((lock_view (lw_locks w) n).1 = Some id <-> n ∈ names) /\
            (id ∈ (lock_view (lw_locks w) n).2 <-> waits = Some n).

Lemma stands_locks w w' names waits :
  lw_locks w' = lw_locks w -> stands w names waits -> stands w' names waits.
Proof. unfold stands. by intros ->. Qed.

Lemma foreign_stands w o names waits :
  foreign_ok id token o -> stands w names waits -> stands (apply_foreign mh mw w o) names waits.
Proof.
  intros Ho [Hok Hv]. destruct o as [o|o]; simpl.
  - pose proof (apply_crit_moves mh mw Hmw o (lw_locks w) Hok) as Hm.
    pose proof (apply_crit_actor mh mw o (lw_locks w)) as Ha.
    destruct (apply_crit mh mw o (lw_locks w)) as [[[ev l]|e|] s]; simpl in Hm; [| |done].
    + pose proof (change_refines _ _ _ _ _ Hok Hm) as Hr.
      split; [by eapply change_ok|]. intros n. simpl.
      destruct (service_step_same _ _ _ id n Hr) as [-> ->]; [|apply Hv].
      intros m e -> E. apply Ho. by rewrite (Ha m e l s eq_refl), E.
    + destruct Hm as [-> _]. by split.
  - destruct (apply_token_op (lw_tokens w) o) as [s l]. by split.
Qed.

Lemma interfere_stands ops w names waits :
  Forall (foreign_ok id token) ops -> stands w names waits ->
  stands (interfere mh mw ops w) names waits.
Proof.
  intros Hf. unfold interfere. revert w. induction Hf as [|o ops Ho _ IH]; intros w Hs; simpl; [done|].
  by apply IH, foreign_stands.
Qed.

(** ** The user's own steps *)

Lemma own_step (s s' : CriticalState) n e m :
  crit_ok mh mw s -> change mh mw s (Some (n, e)) s' ->
  lock_step (lock_view s n) e (lock_view s' n) /\ (m <> n -> lock_view s' m = lock_view s m).
Proof. intros Hok Hc. destruct (change_refines _ _ _ _ _ Hok Hc) as [H1 H2]. auto. Qed.

Lemma release_stands n w names waits :
  stands w names waits ->
  let '(r, w') := call_release mh n id w in
  match r with
  | Ok _ => stands w' (filter (fun m => m <> n) names) waits
  | Err _ => stands w' names waits
  | OutOfFuel => False
  end.
Proof.
  intros Hst. pose proof Hst as [Hok Hv]. unfold call_release, lock_call.
  pose proof (release_moves mh mw n id (lw_locks w)) as Hm.
  destruct (release mh n id (lw_locks w)) as [[l|e|] s]; simpl in Hm; [| |done].
  - split; [by eapply change_ok|]. intros m. destruct (own_step _ _ _ _ m Hok Hm) as [H1 H2].
    cbn [lw_locks]. rewrite list_elem_of_filter. destruct (decide (m = n)) as [->|Hne].
    + apply step_release in H1 as (E1 & E2 & E3). rewrite E2, E3. specialize (Hv n). naive_solver.
    + rewrite H2 by done. specialize (Hv m). naive_solver.
  - destruct Hm as [-> _]. by eapply stands_locks; [|done].
Qed.

Lemma poll_stands n w names waits :
  stands w names waits -> waits = None \/ waits = Some n ->
  let '(r, w') := call_poll mh mw waker n id w in
  match r with
  | Ok Pending => stands w' names (Some n)
  | Ok Acquired => n ∉ names /\ stands w' (names ++ [n]) None
  | Err _ => stands w' names waits
  | OutOfFuel => False
  end.
Proof.
  intros Hst Hw. pose proof Hst as [Hok Hv]. unfold call_poll, lock_call.
  pose proof (poll_moves mh mw Hmw n id (generation (lw_locks w)) waker (lw_locks w) Hok) as Hm.
  change (poll_acquire_generation mh mw n id (generation (lw_locks w)) waker (lw_locks w))
    with (poll_acquire mh mw n id waker (lw_locks w)) in Hm.
  destruct (poll_acquire mh mw n id waker (lw_locks w)) as [[p|e|] s]; simpl in Hm; [| |done].
  - pose proof (change_ok _ _ _ _ _ Hok Hm) as Hok'. pose proof (own_step _ _ _ _ n Hok Hm) as [Hn _].
    assert (forall m, m <> n -> lock_view s m = lock_view (lw_locks w) m) as Hother
      by (intros m; by apply (own_step _ _ _ _ m Hok Hm)).
    pose proof (co_lock _ _ _ Hok' n) as [Hnd Hno]. pose proof (Hv n) as [Hv1 Hv2].
    destruct p; cbn [polled] in Hn.
    + apply step_acquire in Hn as [E1 Hs1]. pose proof (Hno id Hs1) as Hs2.
      assert (n ∉ names) as Hnn by (rewrite <- Hv1, E1; done).
      split; [done|]. split; [done|]. intros m. cbn [lw_locks].
      rewrite elem_of_app, list_elem_of_singleton. destruct (decide (m = n)) as [->|Hne].
      * naive_solver.
      * rewrite (Hother m Hne). specialize (Hv m). naive_solver.
    + apply step_wait in Hn as [Hs1 Hs2].
      split; [done|]. intros m. cbn [lw_locks]. destruct (decide (m = n)) as [->|Hne].
      * rewrite Hs1. naive_solver.
      * rewrite (Hother m Hne). specialize (Hv m). naive_solver.
  - destruct Hm as [-> _]. by eapply stands_locks; [|done].
Qed.

Lemma cancel_false n s l s' :
  crit_ok mh mw s -> cancel_acquire n id s = (Ok (false, l), s') -> id ∉ (lock_view s n).2.
Proof.
  intros Hok H. unfold cancel_acquire, cancel_acquire_generation, guarded, validate_generation in H.
  unfold st_bind at 1 2 3 4 5, st_get at 1 2, st_lift in H.
  destruct (validate_lock_name n); try done. destruct (validate_owner id); try done.
  rewrite Z.eqb_refl in H. cbn [st_ret] in H. unfold st_ret at 1 in H.
  apply st_bind_Ok in H as (b & s2 & H4 & H2). unfold st_bind, st_get, st_ret in H2. simplify_eq.
  apply (bool_decide_eq_false_1 (id ∈ owners (queue s n))).
  rewrite <- (waiter_found mh mw) by done. unfold queue.
  unfold cancel_waiter_locked, st_bind at 1, st_get in H4.
  destruct (waiters s !! n) as [q|] eqn:Eq; simpl; [|done].
  destruct (list_find _ q) as [[i w]|] eqn:Ef.
  - exfalso. repeat (apply st_bind_Ok in H4 as (? & ? & ? & H4)). simpl in H4.
    unfold st_bind, st_get in H4. by repeat (case_match; simplify_eq/=).
  - apply list_find_None in Ef. clear -Ef.
    induction Ef as [|w q Hw _ IH]; simpl; [done|]. rewrite IH. by destruct (is_waiter _ _ w).
Qed.

Lemma cancel_stands n w names waits :
  stands w names waits -> waits = None \/ waits = Some n ->
  let '(r, w') := call_cancel n id w in
  match r with
  | Ok _ => stands w' names None
  | Err _ => stands w' names waits
  | OutOfFuel => False
  end.
Proof.
  intros Hst Hw. pose proof Hst as [Hok Hv]. unfold call_cancel, lock_call.
  pose proof (cancel_moves mh mw n id (generation (lw_locks w)) (lw_locks w) Hok) as Hm.
  change (cancel_acquire_generation n id (generation (lw_locks w)) (lw_locks w))
    with (cancel_acquire n id (lw_locks w)) in Hm.
  pose proof (cancel_false n (lw_locks w)) as Hf.
  destruct (cancel_acquire n id (lw_locks w)) as [[[b l]|e|] s]; simpl in Hm; [| |done].
  - pose proof (change_ok _ _ _ _ _ Hok Hm) as Hok'. split; [done|]. intros m. cbn [lw_locks].
    destruct (Hv m) as [H1 H2]. destruct b; cbn [left_queue] in Hm.
    + destruct (own_step _ _ _ _ m Hok Hm) as [Hs Ho]. destruct (decide (m = n)) as [->|Hne].
      * apply step_leave in Hs as [-> ?]; [|apply (co_lock _ _ _ Hok)]. naive_solver.
      * rewrite (Ho Hne). naive_solver.
    + specialize (Hf l s Hok eq_refl). pose proof (change_refines _ _ _ _ _ Hok Hm m) as ->.
      destruct (decide (m = n)) as [->|Hne]; naive_solver.
  - destruct Hm as [-> _]. by eapply stands_locks; [|done].
Qed.

Lemma interfere_stop ops w :
  is_stop (read_signal token w) = true -> is_stop (read_signal token (interfere mh mw ops w)) = true.
Proof.
  unfold interfere. revert w. induction ops as [|o ops IH]; intros w Hs; simpl; [done|]. apply IH.
  destruct o as [o|o]; simpl.
  - by destruct (apply_crit mh mw o (lw_locks w)).
  - pose proof (token_stop_sticky (lw_tokens w) o token Hs) as H.
    by destruct (apply_token_op (lw_tokens w) o).
Qed.

(** ** One acquisition *)

(** The acquisition of [n] is armed while the user waits for [n]; it may still be
    armed when the user does not wait any more. *)
Definition acq_ok (a : Acquisition) (n : string) (waits : option string) : Prop :=
  aq_name a = n /\ aq_lifecycle_id a = id /\ (waits = None \/ aq_armed a = true /\ waits = Some n).

Lemma pending_cancel_stands a n w names waits :
  acq_ok a n waits -> stands w names waits ->
  let '(r, a', w') := pending_cancel a w in
  a' = disarm a /\
  match r with
  | Ok _ => stands w' names None
  | Err _ => stands w' names waits
  | OutOfFuel => False
  end.
Proof.
  intros (Hn & Hid & Hw) Hst. unfold pending_cancel.
  destruct a as [n' id' armed acq]; simpl in *; subst. destruct armed; simpl; [|naive_solver].
  pose proof (cancel_stands n w names waits Hst ltac:(naive_solver)) as H.
  by destruct (call_cancel n id w) as [[?|?|] w'].
Qed.

Lemma drop_stands ops a n w names waits :
  Forall (foreign_ok id token) ops -> (aq_armed a = true -> acq_ok a n waits) -> stands w names waits ->
  exists waits', stands (pending_drop a (interfere mh mw ops w)) names waits' /\ (waits = None -> waits' = None).
Proof.
  intros Ho Ha Hst. apply (interfere_stands ops) in Hst; [|done].
  unfold pending_drop. destruct (aq_armed a); [|by eexists].
  destruct (Ha eq_refl) as (-> & -> & Hw).
  pose proof (cancel_stands n _ names waits Hst ltac:(naive_solver)) as H.
  destruct (call_cancel n id _) as [[?|?|] w']; simpl; [| |done]; by eexists.
Qed.

Lemma filter_snoc_absent (names : list string) n :
  n ∉ names -> filter (fun m => m <> n) (names ++ [n]) = names.
Proof.
  intros Hn. rewrite filter_app, filter_cons_False by (by intros []). rewrite filter_nil, app_nil_r.
  induction names as [|m l IH]; [done|]. apply not_elem_of_cons in Hn as [? ?].
  rewrite filter_cons_True by done. by rewrite IH.
Qed.

(** What the user owns and waits for when an acquisition of [n] returns. *)
Definition acquire_result (names : list string) (n : string) (r : AcquirePoll) (a : Acquisition)
    (w : LeaseWorld) : Prop :=
  match r with
  | AcquirePending => aq_armed a = true /\ aq_acquired a = false /\ acq_ok a n (Some n) /\ stands w names (Some n)
  | AcquireReady (Ok SyncAcquired) => acq_ok a n None /\ n ∉ names /\ stands w (names ++ [n]) None
  | AcquireReady (Ok (SyncCancelled sig)) => is_stop sig = true /\ acq_ok a n None /\ stands w names None
  | AcquireReady (Err _) =>
      exists names' waits, names ⊆ names' /\ stands w names' waits /\ (aq_armed a = true -> acq_ok a n waits)
  | AcquireReady OutOfFuel => False
  end.

Section acquire.
Context (env : nat -> list foreign_op) (Henv : env_ok id token env) (group_id : Z) (n : string).

Lemma acquire_stopped_result sig a w names waits :
  is_stop sig = true -> acq_ok a n waits ->
  (if aq_acquired a then n ∉ names /\ waits = None /\ stands w (names ++ [n]) waits
   else stands w names waits) ->
  let '(r, a', w') := acquire_stopped mh mw env group_id sig a w in acquire_result names n r a' w'.
Proof.
  intros Hsig Ha Hst. unfold acquire_stopped.
  set (held := if aq_acquired a then names ++ [n] else names).
  assert (stands (interfere mh mw (env 4%nat) w) held waits) as H1.
  { apply interfere_stands; [apply Henv|]. unfold held. destruct (aq_acquired a); [apply Hst|done]. }
  pose proof (pending_cancel_stands _ _ _ _ _ Ha H1) as H2.
  destruct (pending_cancel a _) as [[c a1] w1]. destruct H2 as [-> H2].
  destruct Ha as (Hn & Hid & Hw). cbn [disarm aq_acquired aq_name aq_lifecycle_id set_acquired].
  assert (forall b, acq_ok (set_acquired b (disarm a)) n None) as Ha' by (intros b; split_and!; auto).
  destruct (aq_acquired a) eqn:Eacq; subst held; simpl in *.
  - destruct Hst as (Hnn & Hw0 & _). rewrite Hn, Hid.
    assert (stands (interfere mh mw (env 5%nat) w1) (names ++ [n]) None) as H3.
    { apply interfere_stands; [apply Henv|]. rewrite Hw0 in H2. by destruct c. }
    pose proof (release_stands n _ _ _ H3) as H4.
    destruct (call_release mh n id _) as [[l|e|] w2]; [| |done]; destruct c as [[]|e'|]; try done; simpl.
    + rewrite filter_snoc_absent in H4 by done. split_and!; [done|by apply Ha'|done].
    + rewrite filter_snoc_absent in H4 by done. exists names, None. by split_and!.
    + exists (names ++ [n]), None. split_and!; [set_solver|done|done].
    + exists (names ++ [n]), None. split_and!; [set_solver|done|done].
  - destruct c as [[]|e'|]; try done; simpl.
    + split_and!; [done|split_and!; auto|done].
    + exists names, waits. by split_and!.
Qed.

Lemma acquire_poll_result a w names waits :
  aq_acquired a = false -> acq_ok a n waits -> stands w names waits ->
  let '(r, a', w') := acquire_poll mh mw token waker env group_id a w in acquire_result names n r a' w'.
Proof.
  intros Hacq Ha Hst. unfold acquire_poll. apply (interfere_stands (env 0%nat)) in Hst; [|apply Henv].
  set (w0 := interfere mh mw (env 0%nat) w) in *.
  destruct (is_stop (read_signal token w0)) eqn:Es.
  { apply (acquire_stopped_result _ _ _ _ waits); [done|done|]. by rewrite Hacq. }
  apply (interfere_stands (env 1%nat)) in Hst; [|apply Henv]. pose proof Ha as (Hn & Hid & Hw). rewrite Hn, Hid.
  assert (waits = None \/ waits = Some n) as Hw' by naive_solver.
  pose proof (poll_stands n _ names waits Hst Hw') as Hp.
  destruct (call_poll mh mw waker n id _) as [[[]|e|] w1]; [| | |done].
  - destruct Hp as [Hnn Hp]. apply (interfere_stands (env 2%nat)) in Hp; [|apply Henv].
    destruct (is_stop (read_signal token (interfere mh mw (env 2%nat) w1))) eqn:E2.
    + apply (acquire_stopped_result _ _ _ _ None); [by apply interfere_stop|by split_and!; [..|left]|].
      simpl. split_and!; [done|done|]. apply interfere_stands; [apply Henv|done].
    + simpl. split_and!; [by split_and!; [..|left]|done|done].
  - unfold acquire_wait. simpl. split_and!; [done|done|by split_and!; [..|right]|].
    set (w2 := mkLeaseWorld _ _ _). assert (stands (interfere mh mw (env 3%nat) w2) names (Some n)) as H3.
    { apply interfere_stands; [apply Henv|]. apply (stands_locks (interfere mh mw (env 2%nat) w1)); [done|].
      apply interfere_stands; [apply Henv|done]. }
    case_if; [by apply (stands_locks (interfere mh mw (env 3%nat) w2))|exact H3].
  - exists names, waits. by split_and!.
Qed.

End acquire.

(** ** The lease stack *)

Definition lease_names (c : CriticalSectionLeases) : list string := map sc_name (cl_scopes c).

(** The stack is the user's, holds each lock once, and the user owns its locks
    and waits for none. *)
Definition leases_ok (c : CriticalSectionLeases) (w : LeaseWorld) (waits : option string) : Prop :=
  cl_lifecycle_id c = id /\ NoDup (lease_names c) /\ stands w (lease_names c) waits.

(** What a call of [synchronize] leaves behind at each poll. *)
Definition sync_result (desired : list CriticalSectionScope)
    (out : SyncPoll * CriticalSectionLeases * LeaseWorld) : Prop :=
  let '(r, c, w) := out in
  match r with
  | SyncPending task =>
      exists scope rest a, task = mkSyncTask (scope :: rest) (Some a) /\ aq_acquired a = false /\
        aq_armed a = true /\ acq_ok a (sc_name scope) (Some (sc_name scope)) /\
        desired = cl_scopes c ++ scope :: rest /\ leases_ok c w (Some (sc_name scope))
  | SyncReady (Ok SyncAcquired) =>
      cl_scopes c = desired /\ leases_ok c w None /\ is_stop (read_signal token w) = false
  | SyncReady (Ok (SyncCancelled signal)) =>
      is_stop signal = true /\ cl_scopes c `prefix_of` desired /\ leases_ok c w None
  | SyncReady (Err _) =>
      cl_scopes c `prefix_of` desired /\ cl_lifecycle_id c = id /\
      exists names waits, lease_names c ⊆ names /\ stands w names waits
  | SyncReady OutOfFuel => False
  end.

Lemma stands_perm w names names' waits : names ≡ₚ names' -> stands w names waits -> stands w names' waits.
Proof. intros Hp [Hok Hv]. split; [done|]. intros n. rewrite <- Hp. apply Hv. Qed.

Lemma lease_names_snoc c scope :
  lease_names (with_scopes (cl_scopes c ++ [scope]) c) = lease_names c ++ [sc_name scope].
Proof. unfold lease_names. simpl. by rewrite map_app. Qed.

Lemma check_stop_stands env k w names waits :
  env_ok id token env -> stands w names waits ->
  let '(stop, w') := check_stop mh mw token env k w in
  stands w' names waits /\
  match stop with Some signal => is_stop signal = true | None => is_stop (read_signal token w') = false end.
Proof.
  intros He Hst. unfold check_stop. apply (interfere_stands (env k)) in Hst; [|apply He].
  destruct (is_stop _) eqn:E; [|done]. split; [|by apply interfere_stop].
  apply interfere_stands; [apply He|done].
Qed.

(** The first scope is being acquired, or nothing is. *)
Definition current_ok (todo : list CriticalSectionScope) (current : option Acquisition) (waits : option string) : Prop :=
  match current with
  | None => waits = None
  | Some a => exists scope rest, todo = scope :: rest /\ aq_acquired a = false /\ acq_ok a (sc_name scope) waits
  end.

Lemma current_start todo c current waits scope rest :
  todo = scope :: rest -> cl_lifecycle_id c = id -> current_ok todo current waits ->
  let a := default (acquisition_new (sc_name scope) (cl_lifecycle_id c)) current in
  aq_acquired a = false /\ acq_ok a (sc_name scope) waits.
Proof.
  intros -> Hid. destruct current as [a|]; simpl.
  - intros (? & ? & [= <- <-] & ? & ?). done.
  - intros ->. split_and!; [done|]. split_and!; auto.
Qed.

Lemma sync_acquire_result (env : nat -> nat -> list foreign_op) group_id todo current c w waits :
  (forall k, env_ok id token (env k)) -> leases_ok c w waits -> current_ok todo current waits ->
  sync_result (cl_scopes c ++ todo) (sync_acquire mh mw token waker env group_id todo current c w).
Proof.
  intros He. revert current c w waits.
  induction todo as [|scope rest IH]; intros current c w waits (Hid & Hnd & Hst) Hcur; cbn [sync_acquire].
  - assert (waits = None) as -> by (destruct current as [a|]; [by destruct Hcur as (? & ? & ? & _)|done]).
    pose proof (check_stop_stands (env 1%nat) 0 w _ _ (He 1%nat) Hst) as H. rewrite app_nil_r.
    destruct (check_stop _ _ _ _ _ _) as [[signal|] w']; destruct H as [H1 H2]; simpl.
    + split_and!; [done|done|by split_and!].
    + split_and!; [done|by split_and!|done].
  - destruct (current_start _ c current waits scope rest eq_refl Hid Hcur) as [Hacq Ha].
    set (a := default _ current) in *.
    pose proof (acquire_poll_result _ (He (S (length (scope :: rest)))) group_id _ a w _ _ Hacq Ha Hst) as H.
    destruct (acquire_poll _ _ _ _ _ _ _ _) as [[[|res] a'] w1]; cbn [acquire_result] in H.
    { destruct H as (Harm & Hacq' & Ha' & Hst'). simpl. exists scope, rest, a'. by split_and!. }
    set (w2 := pending_drop a' _).
    destruct res as [[|signal]|e|]; cbn [acquire_result] in H; [| | |done].
    + destruct H as (Ha' & Hn & Hst').
      destruct (drop_stands _ _ _ _ _ _ (He (S (length (scope :: rest))) 6%nat) (fun _ => Ha') Hst') as (waits2 & Hst2 & Hw2).
      rewrite (Hw2 eq_refl) in Hst2. specialize (IH None (with_scopes (cl_scopes c ++ [scope]) c) w2 None).
      simpl cl_scopes in IH. rewrite <- app_assoc in IH. apply IH; [|done].
      split_and!; [done| |]; rewrite lease_names_snoc; [|done].
      apply NoDup_app. split_and!; [done| |apply NoDup_singleton]. set_solver.
    + destruct H as (Hsig & Ha' & Hst').
      destruct (drop_stands _ _ _ _ _ _ (He (S (length (scope :: rest))) 6%nat) (fun _ => Ha') Hst') as (waits2 & Hst2 & Hw2).
      rewrite (Hw2 eq_refl) in Hst2. simpl.
      split_and!; [done|by apply prefix_app_r|by split_and!].
    + destruct H as (names' & waits' & Hsub & Hst' & Ha'). simpl. split_and!; [by apply prefix_app_r|done|].
      exists names'. destruct (drop_stands _ _ _ _ _ _ (He (S (length (scope :: rest))) 6%nat) Ha' Hst') as (waits2 & ? & _). by exists waits2.
Qed.

(** Releasing: each lock is given back or its error is reported. *)
Lemma release_names_stands env k rel keep w :
  env_ok id token env -> NoDup (keep ++ rel) -> stands w (keep ++ rel) None ->
  let '(errors, w') := release_names mh mw env k rel id w in
  exists left, left `sublist_of` rel /\ length left = length errors /\ stands w' (keep ++ left) None.
Proof.
  intros He. revert k keep w. induction rel as [|n rel IH]; intros k keep w Hnd Hst; cbn [release_names].
  { exists []. by rewrite app_nil_r in *. }
  apply (interfere_stands (env k)) in Hst; [|apply He].
  pose proof (release_stands n _ _ _ Hst) as Hr.
  assert (keep ++ n :: rel ≡ₚ (keep ++ rel) ++ [n]) as Hp by (by rewrite <- app_assoc, Permutation_cons_append).
  destruct (call_release mh n id _) as [[l|e|] w1]; [| |done].
  - rewrite Hp in Hnd. apply NoDup_app in Hnd as (Hnd & Hn & _).
    assert (n ∉ keep ++ rel) as Hn' by (intros Hin; apply (Hn n Hin); by left).
    apply (stands_perm _ _ (keep ++ rel)) in Hr; [|by rewrite Hp, filter_snoc_absent].
    specialize (IH (S k) keep w1 Hnd Hr). destruct (release_names _ _ _ _ _ _ _) as [errors w2].
    destruct IH as (left & Hs & Hl & Hst2). exists left. split_and!; [by constructor|done|done].
  - specialize (IH (S k) (keep ++ [n]) w1). rewrite <- app_assoc in IH. specialize (IH Hnd Hr).
    destruct (release_names _ _ _ _ _ _ _) as [errors w2]. destruct IH as (left & Hs & Hl & Hst2).
    exists (n :: left). split_and!; [by constructor|simpl; lia|]. by rewrite <- app_assoc in Hst2.
Qed.

Lemma common_scopes_take held wanted :
  take (common_scopes held wanted) held ++ drop (common_scopes held wanted) wanted = wanted.
Proof.
  revert wanted. induction held as [|h held IH]; intros [|x wanted]; simpl; try done.
  case_bool_decide as Hh; simpl; [|done]. subst. by rewrite IH.
Qed.

Lemma critical_section_errors_None group_id errors :
  critical_section_errors group_id errors = None -> errors = [].
Proof.
  unfold critical_section_errors. destruct errors as [|e errors]; [done|]. simpl.
  assert (forall x, foldl (fun slot source => combine_engine_error slot (CriticalSection group_id source))
    (Some x) errors <> None) as H; [|intros ?; by edestruct H].
  induction errors as [|e' errors IH]; intros x; simpl; [done|apply IH].
Qed.

Lemma synchronize_result (env : nat -> nat -> list foreign_op) group_id ids names c w :
  (forall k, env_ok id token (env k)) -> length names = length ids -> leases_ok c w None ->
  sync_result (zip_with mkScope ids names) (synchronize mh mw token waker env group_id ids names c w).
Proof.
  intros He Hlen (Hid & Hnd & Hst). unfold synchronize. rewrite bool_decide_true by done. simpl negb.
  cbv beta iota zeta. set (desired := zip_with mkScope ids names).
  set (common := common_scopes (cl_scopes c) desired).
  set (kept := with_scopes (take common (cl_scopes c)) c).
  set (rel := reverse (map sc_name (drop common (cl_scopes c)))).
  assert (lease_names c ≡ₚ lease_names kept ++ rel) as Hp.
  { unfold lease_names, rel. simpl. by rewrite reverse_Permutation, <- map_app, take_drop. }
  rewrite Hp in Hnd. apply (stands_perm _ _ _ _ Hp) in Hst. rewrite Hid.
  pose proof (release_names_stands (env 0%nat) 0 rel _ w (He 0%nat) Hnd Hst) as Hr.
  destruct (release_names _ _ _ _ _ _ _) as [errors w1]. destruct Hr as (left & Hs & Hl & Hst1).
  pose proof (common_scopes_take (cl_scopes c) desired) as Hd. fold common in Hd.
  assert (take common (cl_scopes c) `prefix_of` desired) as Hpre by (rewrite <- Hd; by apply prefix_app_r).
  destruct (critical_section_errors group_id errors) as [error|] eqn:Ee.
  { simpl. split_and!; [done|done|]. exists (lease_names kept ++ left), None. split; [set_solver|done]. }
  apply critical_section_errors_None in Ee. subst errors. apply nil_length_inv in Hl. subst left.
  rewrite app_nil_r in Hst1. apply NoDup_app in Hnd as (Hnd & _).
  pose proof (check_stop_stands (env 0%nat) (length rel) w1 _ _ (He 0%nat) Hst1) as Hc.
  destruct (check_stop _ _ _ _ _ _) as [[signal|] w2]; destruct Hc as [Hst2 Hstop].
  - simpl. by split_and!.
  - pose proof (sync_acquire_result env group_id (drop common desired) None kept w2 None He
      ltac:(by split_and!) eq_refl) as H.
    change (cl_scopes kept ++ drop common desired) with (take common (cl_scopes c) ++ drop common desired) in H.
    by rewrite Hd in H.
Qed.

(** The executor polls the call, with the given interference, until it ends. *)
Fixpoint sync_drive (group_id : Z) (envs : list (nat -> nat -> list foreign_op))
    (out : SyncPoll * CriticalSectionLeases * LeaseWorld) : SyncPoll * CriticalSectionLeases * LeaseWorld :=
  match envs, out with
  | env :: envs, (SyncPending task, c, w) =>
      sync_drive group_id envs (sync_repoll mh mw token waker env group_id task c w)
  | _, _ => out
  end.

Lemma sync_drive_result group_id envs desired out :
  Forall (fun env => forall k, env_ok id token (env k)) envs ->
  sync_result desired out -> sync_result desired (sync_drive group_id envs out).
Proof.
  intros Hf. revert out. induction Hf as [|env envs He _ IH]; intros [[r c] w] Hr; [by destruct r|].
  destruct r as [task|res]; cbn [sync_drive]; [|done]. apply IH.
  destruct Hr as (scope & rest & a & -> & Hacq & _ & Ha & -> & Hl).
  apply (sync_acquire_result env group_id (scope :: rest) (Some a) c w _ He Hl). by exists scope, rest.
Qed.

Lemma release_all_stands env c w :
  env_ok id token env -> leases_ok c w None ->
  let '(errors, c', w') := release_all mh mw env c w in
  cl_scopes c' = [] /\
  exists left, left ⊆ lease_names c /\ length left = length errors /\ stands w' left None.
Proof.
  intros He (Hid & Hnd & Hst). unfold release_all. rewrite Hid.
  pose proof (reverse_Permutation (lease_names c)) as Hp.
  pose proof (release_names_stands env 0 (reverse (lease_names c)) [] w He) as H. simpl in H.
  rewrite Hp in H at 1. specialize (H Hnd (stands_perm _ _ _ _ (symmetry Hp) Hst)). unfold lease_names in *.
  destruct (release_names _ _ _ _ _ _ _) as [errors w']. destruct H as (left & Hs & Hl & Hst').
  split; [done|]. exists left. split_and!; [|done|done].
  intros n Hn. rewrite <- Hp. by eapply sublist_subseteq.
Qed.

(** ** A waiting user is not forgotten *)

Lemma interfere_alive ops w :
  Forall (foreign_ok id token) ops -> owner_alive (lw_tokens w) token = true ->
  owner_alive (lw_tokens (interfere mh mw ops w)) token = true.
Proof.
  intros Hf. revert w. unfold interfere. induction Hf as [|o ops Ho _ IH]; intros w Ha; simpl; [done|].
  apply IH. destruct o as [o|o]; simpl; [by destruct (apply_crit mh mw o (lw_locks w))|].
  pose proof (alive_kept (lw_tokens w) o token Ho Ha). by destruct (apply_token_op (lw_tokens w) o).
Qed.

Lemma interfere_log ops w : exists l, lw_woken (interfere mh mw ops w) = lw_woken w ++ l.
Proof.
  unfold interfere. revert w. induction ops as [|o ops IH]; intros w; simpl; [exists []; by rewrite app_nil_r|].
  destruct (IH (apply_foreign mh mw w o)) as [l ->]. destruct o as [o|o]; simpl.
  - destruct (apply_crit mh mw o (lw_locks w)) as [r s]. simpl. rewrite <- app_assoc. by eexists.
  - destruct (apply_token_op (lw_tokens w) o) as [s k]. simpl. rewrite <- app_assoc. by eexists.
Qed.

(** The wakers logged while the others act include the user's, or its
    subscription is still there. *)
Lemma interfere_subscribed ops w :
  Forall (foreign_ok id token) ops -> owner_alive (lw_tokens w) token = true ->
  subscribed (lw_tokens w) token waker ->
  exists l, lw_woken (interfere mh mw ops w) = lw_woken w ++ l /\
    (subscribed (lw_tokens (interfere mh mw ops w)) token waker \/ waker ∈ l).
Proof.
  intros Hf Ha Hs.
  assert (forall l0, subscribed (lw_tokens w) token waker \/ waker ∈ l0 ->
    forall base, lw_woken w = base ++ l0 -> exists l, lw_woken (interfere mh mw ops w) = base ++ l /\
    (subscribed (lw_tokens (interfere mh mw ops w)) token waker \/ waker ∈ l)) as H.
  { clear Hs. revert w Ha. unfold interfere.
    induction Hf as [|o ops Ho _ IH]; intros w Ha l0 Hs base Hb; simpl; [by exists l0|].
    destruct o as [o|o]; simpl.
    - destruct (apply_crit mh mw o (lw_locks w)) as [r s].
      eapply IH; [done| |simpl; rewrite Hb, <- app_assoc; done]. simpl. rewrite elem_of_app. naive_solver.
    - pose proof (alive_kept (lw_tokens w) o token Ho Ha) as Hal.
      pose proof (op_subscribed (lw_tokens w) o token waker) as Hop.
      destruct (apply_token_op (lw_tokens w) o) as [s l]. simpl in *.
      eapply IH; [done| |simpl; rewrite Hb, <- app_assoc; done]. simpl. rewrite elem_of_app. naive_solver. }
  apply (H [] (or_introl Hs)). by rewrite app_nil_r.
Qed.

(** The entry of the user in a queue of the coordinator. *)
Definition queued_with (s : CriticalState) (n : string) : Prop :=
  exists x, x ∈ queue s n /\ waiter_owner x = id /\ waiter_waker x = waker.

Lemma refresh_kept id' g k q x : x ∈ q -> waiter_owner x <> id' -> x ∈ refresh_queue id' g k q.
Proof.
  intros Hin Hne. induction q as [|y q IH]; simpl; [done|].
  apply elem_of_cons in Hin as [->|Hin].
  - unfold is_waiter. rewrite (proj2 (Z.eqb_neq _ _) Hne). by left.
  - case_if; [by right|]. right. by apply IH.
Qed.

Lemma change_queued s ev s' n :
  crit_ok mh mw s -> change mh mw s ev s' -> (forall m e, ev = Some (m, e) -> event_actor e <> id) ->
  queued_with s n -> queued_with s' n.
Proof.
  intros Hok Hc Hev (x & Hx & Hid & Hwk). exists x. split; [|done].
  destruct Hc as [|m i Hh Hq|m y q g' Hh Hq|m i k Hin|m i k g' Hni Hho Hv|m i y g' Hi|m h g' Hh|g g' Hh Hz];
    try done; try (specialize (Hev _ _ eq_refl); simpl in Hev).
  - change (queue (grant _ _ _ (with_waiter_count _ ?s0)) n) with (queue s0 n). rewrite queue_store.
    case_decide; [|done]. subst m. rewrite Hq in Hx. apply elem_of_cons in Hx as [->|?]; done.
  - rewrite refresh_queue_of. case_decide; [|done]. subst m. apply refresh_kept; [done|congruence].
  - change (queue (with_waiter_count _ ?s0) n) with (queue s0 n). rewrite queue_store.
    case_decide; [|done]. subst m. apply elem_of_app. by left.
  - change (queue (with_waiter_count _ ?s0) n) with (queue s0 n). rewrite queue_store.
    case_decide; [|done]. subst m. apply list_elem_of_split_length in Hi as (q1 & q2 & E & ->).
    rewrite E in Hx |- *. rewrite delete_middle. rewrite elem_of_app, elem_of_cons in *. naive_solver.
Qed.

Lemma interfere_queued ops w n names waits :
  Forall (foreign_ok id token) ops -> stands w names waits -> queued_with (lw_locks w) n ->
  queued_with (lw_locks (interfere mh mw ops w)) n.
Proof.
  intros Hf. revert w. unfold interfere. induction Hf as [|o ops Ho _ IH]; intros w Hst Hq; simpl; [done|].
  apply IH; [by apply foreign_stands|]. destruct Hst as [Hok _]. destruct o as [o|o]; simpl.
  - pose proof (apply_crit_moves mh mw Hmw o (lw_locks w) Hok) as Hm.
    pose proof (apply_crit_actor mh mw o (lw_locks w)) as Ha.
    destruct (apply_crit mh mw o (lw_locks w)) as [[[ev l]|e|] s]; simpl in Hm; [| |done].
    + eapply change_queued; [exact Hok|exact Hm| |exact Hq].
      intros m e -> E. apply Ho. by rewrite (Ha m e l s eq_refl), E.
    + by destruct Hm as [-> _].
  - by destruct (apply_token_op (lw_tokens w) o).
Qed.

Lemma refresh_queues g q :
  existsb (is_waiter id g) q = true ->
  exists x, x ∈ refresh_queue id g waker q /\ waiter_owner x = id /\ waiter_waker x = waker.
Proof.
  induction q as [|y q IH]; simpl; [done|]. destruct (is_waiter id g y) eqn:E; simpl.
  - intros _. eexists. split; [by left|]. simpl. unfold is_waiter in E.
    apply andb_prop in E as [->%Z.eqb_eq _]. done.
  - intros (x & Hx & H)%IH. exists x. split; [by right|done].
Qed.

Lemma refreshed_queued s n g :
  existsb (is_waiter id g) (queue s n) = true -> queued_with (refresh n id g waker s) n.
Proof.
  intros H. unfold queued_with. rewrite refresh_queue_of, decide_True by done. by apply refresh_queues.
Qed.

Lemma enqueue_queued s n g s' : enqueue mw n id g waker s = (Ok Pending, s') -> queued_with s' n.
Proof.
  unfold enqueue, st_bind at 1, st_get. case_if; [done|]. unfold st_bind, st_lift, modify, st_ret.
  destruct (u64_checked_add _ _); simpl; [|done].
  destruct (bump_cases s) as [[g' ->]| ->]; [|done]. intros [= <-]. exists (mkWaiter id g waker).
  split; [|done]. unfold queue at 1. simpl. rewrite lookup_insert_eq. simpl. apply elem_of_app. right. by left.
Qed.

Lemma poll_queued s n s' :
  poll_acquire mh mw n id waker s = (Ok Pending, s') -> queued_with s' n.
Proof.
  unfold poll_acquire, poll_acquire_generation, guarded, validate_generation.
  unfold st_bind at 1 2 3 4 5, st_get at 1 2, st_lift.
  destruct (validate_lock_name n); try done. destruct (validate_owner id); try done.
  rewrite Z.eqb_refl. unfold st_ret at 1. unfold poll_acquire_locked, st_bind at 1, st_get.
  assert (existsb (is_waiter id (generation s)) (queue s n) = true ->
    (modify (refresh n id (generation s) waker) ;! st_ret Pending) s = (Ok Pending, s') ->
    queued_with s' n) as Hr by (intros H [= <-]; by apply refreshed_queued).
  destruct (held s !! n) as [h|].
  - case_if; [done|]. case_if; [by apply Hr|apply enqueue_queued].
  - destruct (queue s n) as [|y q] eqn:Eq; [case_if; done|]. simpl in Hr.
    destruct (is_waiter id (generation s) y) eqn:Ey.
    + unfold admit_front, st_bind at 1, st_get. case_if; [by apply Hr|].
      unfold st_bind, st_lift, modify, st_ret. destruct (bump_cases s) as [[g' ->]| ->]; [|done].
      destruct (u64_checked_sub _ _); simpl; [|done]. by destruct (waiters s !! n).
    + simpl in *. rewrite Ey in *. simpl in *. case_if; [by apply Hr|apply enqueue_queued].
Qed.

End world.

(** ** The theorems *)

(** C8 The lock stack a user ends up with.  Whatever other users do to locks and
    tokens between the accesses of this one, and however often the call is
    polled, [synchronize] keeps the user's stack and its locks together.  When
    it reports success the stack is the requested one and the user owns
    exactly its locks, each once, and waits for none; it has not seen a stop.
    When it reports cancellation a stop was requested, the stack is an outer
    part of the requested one and the user owns exactly that part.  While it
    waits, the user owns what it has acquired and waits for the next scope.
    Even after an error the user owns every lock on its stack. *)
Theorem synchronize_owns mh mw id token waker group_id ids names env envs c w :
  mw <= MAX_CRITICAL_WAITERS -> length names = length ids -> leases_ok mh mw id c w None ->
  (forall k, env_ok id token (env k)) -> Forall (fun e => forall k, env_ok id token (e k)) envs ->
  sync_result mh mw id token (zip_with mkScope ids names)
    (sync_drive mh mw token waker group_id envs
       (synchronize mh mw token waker env group_id ids names c w)).
Proof. intros Hmw Hlen Hl He Hf. apply sync_drive_result; [done|done|]. by apply synchronize_result. Qed.

(** Releasing every lease, in any interleaving, empties the stack; the locks
    still owned afterwards are as many as the errors reported, so without an
    error the user owns no lock. *)
Theorem release_all_accounts mh mw id token env c w :
  mw <= MAX_CRITICAL_WAITERS -> leases_ok mh mw id c w None -> env_ok id token env ->
  let '(errors, c', w') := release_all mh mw env c w in
  cl_scopes c' = [] /\
  exists left, left ⊆ lease_names c /\ length left = length errors /\ stands mh mw id w' left None.
Proof. intros Hmw Hl He. by apply (release_all_stands mh mw Hmw id token). Qed.

(** C23 A user that waits for a critical section will hear of both ways out.
    After a poll that the coordinator answers with Pending, whatever the
    others do around the registration of the waker: the queue of the lock
    holds the user with its waker; the waker is still subscribed to the token
    or was invoked since; and if a stop is already visible the waker has been
    invoked. *)
Theorem waiting_user_hears mh mw id token waker env a w w1 n names waits :
  mw <= MAX_CRITICAL_WAITERS -> stands mh mw id w names waits -> waits = None \/ waits = Some n ->
  env_ok id token env ->
  call_poll mh mw waker n id w = (Ok Pending, w1) ->
  owner_alive (lw_tokens w1) token = true ->
  (let s := lw_tokens (interfere mh mw (env 2%nat) w1) in
   registry_ok (t_wakers s) /\ Z.of_nat (owner_count (purge s (t_wakers s))) < MAX_SCHEDULED_WAKEUPS) ->
  let '(r, a', w') := acquire_wait mh mw token waker env a w1 in
  r = AcquirePending /\ aq_armed a' = true /\ queued_with id waker (lw_locks w') n /\
  exists before since, lw_woken w' = lw_woken w1 ++ before ++ since /\
    (subscribed (lw_tokens w') token waker \/ waker ∈ since) /\
    (is_stop (read_signal token w') = true -> waker ∈ since).
Proof.
  intros Hmw Hst Hwt He Hp Ha [Hreg Hroom]. pose proof (poll_stands mh mw Hmw id waker n w names waits Hst Hwt) as Hst1.
  rewrite Hp in Hst1. unfold call_poll, lock_call in Hp.
  assert (queued_with id waker (lw_locks w1) n) as Hq.
  { destruct (poll_acquire mh mw n id waker (lw_locks w)) as [r s] eqn:E. injection Hp as -> <-.
    by apply (poll_queued mh mw id waker) in E. }
  clear Hp. pose proof (interfere_stands mh mw Hmw id token _ _ _ _ (He 2%nat) Hst1) as Hst2.
  pose proof (interfere_queued mh mw Hmw id token waker _ _ _ _ _ (He 2%nat) Hst1 Hq) as Hq2.
  pose proof (interfere_alive mh mw id token _ _ (He 2%nat) Ha) as Ha2.
  pose proof (interfere_log mh mw (env 2%nat) w1) as [before Hlog].
  pose proof (register_subscribes token waker _ Ha2 Hroom Hreg) as Hsub.
  unfold acquire_wait. set (w2 := interfere mh mw (env 2%nat) w1) in *.
  set (w3 := mkLeaseWorld _ _ _).
  pose proof (interfere_queued mh mw Hmw id token waker _ w3 _ _ _ (He 3%nat) Hst2 Hq2) as Hq3.
  destruct (interfere_subscribed mh mw id token waker _ w3 (He 3%nat) Ha2 Hsub) as (since & Hs & Hw).
  simpl in Hs. rewrite Hlog, <- app_assoc in Hs. split_and!; [done|done|by case_if|].
  exists before. case_if.
  - exists (since ++ [waker]). split_and!; [simpl; by rewrite Hs, <- !app_assoc| |intros _; set_solver].
    right. set_solver.
  - exists since. split_and!; [done|done|]. intros ?. congruence.
Qed.

(** User 1 holds the critical section a; user 2 takes b and frees it while user
    1 is brought from a to a, b. *)
Definition two_locks : LeaseWorld :=
  mkLeaseWorld (history 4 4 [OTryAcquire "a" 1; OTryAcquire "b" 2] critical_default).2
    (snd (token_child token_new)) [].

Definition holds_a : CriticalSectionLeases := mkLeases 1 [mkScope 10 "a"] [].

Definition frees_b (k : nat) (j : nat) : list foreign_op :=
  match k, j with 2%nat, 0%nat => [ForeignLock (ORelease "b" 2); ForeignToken (TWake 0)] | _, _ => [] end.

Lemma frees_b_ok k : env_ok 1 1 (frees_b k).
Proof. intros j. destruct k as [|[|[|k]]], j as [|j]; repeat constructor; discriminate. Qed.

Lemma quiet_ok : env_ok 1 1 (fun _ => []).
Proof. intros j. constructor. Qed.

Lemma holds_a_ok : leases_ok 4 4 1 holds_a two_locks None.
Proof.
  pose proof (history_refines 4 4 [OTryAcquire "a" 1; OTryAcquire "b" 2] critical_default
    ltac:(unfold MAX_CRITICAL_WAITERS; lia) (crit_default_ok 4 4 ltac:(lia) ltac:(lia))) as Hok.
  destruct (history 4 4 [OTryAcquire "a" 1; OTryAcquire "b" 2] critical_default) as [evs s] eqn:E.
  destruct Hok as [_ Hok]. split_and!; [done|repeat constructor; set_solver|]. split; [by unfold two_locks; rewrite E|].
  assert (lw_locks two_locks
    = mkCritical 1 1 (<["b" := mkHeld 2 1]> (<["a" := mkHeld 1 1]> ∅)) ∅ 0) as -> by (vm_compute; reflexivity).
  intros n. unfold lock_view, queue. simpl. rewrite lookup_empty. simpl. split.
  - change (lease_names holds_a) with ["a"]. rewrite list_elem_of_singleton. destruct (decide (n = "b")) as [->|Hb]; [by rewrite lookup_insert_eq|].
    rewrite lookup_insert_ne by done. destruct (decide (n = "a")) as [->|Ha]; [by rewrite lookup_insert_eq|].
    by rewrite lookup_insert_ne, lookup_empty by done.
  - rewrite elem_of_nil. naive_solver.
Qed.

Lemma synchronize_owns_witness :
  let out := sync_drive 4 4 1 70 5 [frees_b] (synchronize 4 4 1 70 (fun _ _ => []) 5 [10; 20] ["a"; "b"] holds_a two_locks) in
  (synchronize 4 4 1 70 (fun _ _ => []) 5 [10; 20] ["a"; "b"] holds_a two_locks).1.1
    = SyncPending (mkSyncTask [mkScope 20 "b"] (Some (mkAcquisition "b" 1 true false))) /\
  out.1 = (SyncReady (Ok SyncAcquired), mkLeases 1 [mkScope 10 "a"; mkScope 20 "b"] []) /\
  sync_result 4 4 1 1 [mkScope 10 "a"; mkScope 20 "b"] out.
Proof.
  split; [vm_compute; reflexivity|]. split; [vm_compute; reflexivity|].
  apply (synchronize_owns 4 4 1 1 70 5 [10; 20] ["a"; "b"] (fun _ _ => []) [frees_b] holds_a two_locks).
  - unfold MAX_CRITICAL_WAITERS. lia.
  - reflexivity.
  - exact holds_a_ok.
  - intros _. exact quiet_ok.
  - constructor; [exact frees_b_ok|constructor].
Defined.

Lemma release_all_accounts_witness :
  let '(errors, c', w') := release_all 4 4 (fun _ => []) holds_a two_locks in
  errors = [] /\ cl_scopes c' = [] /\
  exists left, left ⊆ lease_names holds_a /\ length left = length errors /\ stands 4 4 1 w' left None.
Proof.
  pose proof (release_all_accounts 4 4 1 1 (fun _ => []) holds_a two_locks
    ltac:(unfold MAX_CRITICAL_WAITERS; lia) holds_a_ok quiet_ok) as H.
  assert ((release_all 4 4 (fun _ => []) holds_a two_locks).1.1 = []) as E by (vm_compute; reflexivity).
  destruct (release_all 4 4 (fun _ => []) holds_a two_locks) as [[errors c'] w'].
  split; [exact E|exact H].
Defined.

Lemma waiting_user_hears_witness :
  let w1 := (call_poll 4 4 70 "b" 1 two_locks).2 in
  let '(r, a', w') := acquire_wait 4 4 1 70 (fun k => if (k =? 3)%nat then [ForeignToken (TRequest 0 StopTestGraceful)] else [])
    (acquisition_new "b" 1) w1 in
  r = AcquirePending /\ aq_armed a' = true /\ queued_with 1 70 (lw_locks w') "b" /\
  exists before since, lw_woken w' = lw_woken w1 ++ before ++ since /\
    (subscribed (lw_tokens w') 1 70 \/ 70 ∈ since) /\ (is_stop (read_signal 1 w') = true -> 70 ∈ since).
Proof.
  apply (waiting_user_hears 4 4 1 1 70 _ (acquisition_new "b" 1) two_locks _ "b" ["a"] None).
  - unfold MAX_CRITICAL_WAITERS. lia.
  - exact (proj2 (proj2 holds_a_ok)).
  - left. reflexivity.
  - intros k. destruct (k =? 3)%nat; repeat constructor; discriminate.
  - vm_compute. reflexivity.
  - vm_compute. reflexivity.
  - split; [exact registry_nil|vm_compute; reflexivity].
Defined.
