(* ===== verification/UserRun.v ===== *)
(** * The life of a virtual user

    Models [run_user] of [crates/runtime/src/lifecycle.rs], the loop that takes
    controller steps and executes the samplers they select until the
    iterations, the duration or a stop end it, for groups with a plain
    controller program: the control signals of the user's context, the error
    policy, the renewal of the user between iterations, and the cleanup of its
    expression state.

    Samplers, listeners, observation and clocks are known through the class
    [RunEnv]: what each call answers and how it changes a world of its own.
    While a user waits the other users run, so the calls that wait may change
    everything that is shared. *)

From S2P Require Import Prelude Control Plan Runner Token Lifecycle.

(** ** The user's context *)

(** The token of a context: a view on the run's tokens, or (teardown groups)
    one of its own. *)
Inductive UserToken := Attached (h : nat) | Detached (s : TokenStore).

Record UserContext := mkContext {
  uc_control : CancelStore;
  uc_token : UserToken;
  uc_iteration_id : option Z;
  uc_sampler_name : option Z
}.

(** What the users of a run share: the tokens, the log of the wakers invoked,
    the strongest signal observed, the next lifecycle identity, and the world
    of the other components. *)
Record Shared (W : Type) := mkShared {
  sh_tokens : TokenStore;
  sh_woken : list Z;
  sh_observed : ControlSignal;
  sh_next_lifecycle : Z;
  sh_world : W
}.
Arguments mkShared {W}.
Arguments sh_tokens {W}.
Arguments sh_woken {W}.
Arguments sh_observed {W}.
Arguments sh_next_lifecycle {W}.
Arguments sh_world {W}.

(** The parts of [ExecutionReport] that the loop reads: of the result, whether
    it is ignored and its success. *)
Record ExecutionReport := mkReport {
  er_sampler_id : Z;
  er_result : option (bool * option bool);
  er_event : bool;
  er_sample_failure : bool;
  er_signal : ControlSignal
}.

(** The components around the loop. *)
Class RunEnv (W : Type) := {
  clock_now : W -> Z * W;
  record_iteration : Z -> W -> (string + ()) * W;
  record_sample : ExecutionReport -> W -> (string + ()) * W;
  progress_advance : W -> (string + ()) * W;
  clear_for_lifecycle : Z -> W -> (string + ()) * W;
  seed_variables : W -> (string + ()) * W;
  clone_packages : W -> (string + ()) * W;
  has_package : Z -> bool;
  route_report : ExecutionReport -> W -> (EngineError + ()) * W;
  execute : Z -> UserContext * Shared W -> (string + ExecutionReport) * (UserContext * Shared W);
  deliver : Shared W -> (EngineError + ()) * Shared W;
  cooperative_yield : Shared W -> Shared W
}.

(** The members of [ThreadGroupPlan] that the loop reads. *)
Record Group := mkGroup {
  g_id : Z;
  g_kind : GroupKind;
  g_iterations : option Z;
  g_same_user : bool;
  g_on_sample_error : SampleErrorPolicy;
  g_packages : Z
}.

(** [LifecycleCleanupGuard] *)
Record CleanupGuard := mkGuard {
  cg_lifecycle_id : option Z;
  cg_armed : bool
}.

(** The user and the locals of the loop; [u_samples] is the trace of the
    samplers executed, the last one first. *)
Record UserState (W : Type) := mkUser {
  u_runner : ControllerRunner;
  u_completed : Z;
  u_transitions : Z;
  u_iteration : IterationState;
  u_lifecycle : Z;
  u_cleanup : CleanupGuard;
  u_context : UserContext;
  u_report : ControlSignal;
  u_samples : list SampleSelection;
  u_shared : Shared W
}.
Arguments mkUser {W}.
Arguments u_runner {W}.
Arguments u_completed {W}.
Arguments u_transitions {W}.
Arguments u_iteration {W}.
Arguments u_lifecycle {W}.
Arguments u_cleanup {W}.
Arguments u_context {W}.
Arguments u_report {W}.
Arguments u_samples {W}.
Arguments u_shared {W}.

(** ** Signals of a context *)

(** [take_control_signal] *)
Definition take_control_signal (c : UserContext) (s : TokenStore) : ControlSignal * UserContext * TokenStore :=
  let '(own, control) := take_signal (uc_control c) 0 in
  match uc_token c with
  | Attached h =>
      let '(signal, s) := token_take_signal h s in
      (combine own signal, mkContext control (Attached h) (uc_iteration_id c) (uc_sampler_name c), s)
  | Detached t =>
      let '(signal, t) := token_take_signal 0 t in
      (combine own signal, mkContext control (Detached t) (uc_iteration_id c) (uc_sampler_name c), s)
  end.

(** [request_control]: the context, the run's tokens, and the wakers invoked. *)
Definition request_control (signal : ControlSignal) (c : UserContext) (s : TokenStore) :
    UserContext * TokenStore * list Z :=
  let control := request (uc_control c) 0 signal in
  match uc_token c with
  | Attached h =>
      let '(s, woken) := token_request h signal s in
      (mkContext control (Attached h) (uc_iteration_id c) (uc_sampler_name c), s, woken)
  | Detached t =>
      let '(t, woken) := token_request 0 signal t in
      (mkContext control (Detached t) (uc_iteration_id c) (uc_sampler_name c), s, woken)
  end.

(** The context of [VirtualUser::new]: its own signals, iteration 0. *)
Definition context_new : UserContext := mkContext cancellation_new (Detached token_new) (Some 0) None.

Section run_user.
Context {W : Type} `{!RunEnv W}.
(** The run's own token, the group, its compiled program, its end, and whether
    users yield after a sample. *)
Context (run_token : nat) (g : Group) (p : CompiledProgram) (duration_end : option Z) (cooperative : bool).

Abbreviation UM := (ST (UserState W) EngineError).

(** ** Updates of the state *)

Definition with_shared (f : Shared W -> Shared W) (u : UserState W) : UserState W :=
  mkUser (u_runner u) (u_completed u) (u_transitions u) (u_iteration u) (u_lifecycle u) (u_cleanup u)
    (u_context u) (u_report u) (u_samples u) (f (u_shared u)).
Definition with_context (c : UserContext) (u : UserState W) : UserState W :=
  mkUser (u_runner u) (u_completed u) (u_transitions u) (u_iteration u) (u_lifecycle u) (u_cleanup u)
    c (u_report u) (u_samples u) (u_shared u).
Definition with_user_runner (r : ControllerRunner) (u : UserState W) : UserState W :=
  mkUser r (u_completed u) (u_transitions u) (u_iteration u) (u_lifecycle u) (u_cleanup u)
    (u_context u) (u_report u) (u_samples u) (u_shared u).
Definition with_counters (completed transitions : Z) (u : UserState W) : UserState W :=
  mkUser (u_runner u) completed transitions (u_iteration u) (u_lifecycle u) (u_cleanup u)
    (u_context u) (u_report u) (u_samples u) (u_shared u).
Definition with_iteration (i : IterationState) (u : UserState W) : UserState W :=
  mkUser (u_runner u) (u_completed u) (u_transitions u) i (u_lifecycle u) (u_cleanup u)
    (u_context u) (u_report u) (u_samples u) (u_shared u).
Definition with_lifecycle (id : Z) (guard : CleanupGuard) (u : UserState W) : UserState W :=
  mkUser (u_runner u) (u_completed u) (u_transitions u) (u_iteration u) id guard
    (u_context u) (u_report u) (u_samples u) (u_shared u).
Definition with_report (signal : ControlSignal) (u : UserState W) : UserState W :=
  mkUser (u_runner u) (u_completed u) (u_transitions u) (u_iteration u) (u_lifecycle u) (u_cleanup u)
    (u_context u) (combine (u_report u) signal) (u_samples u) (u_shared u).
Definition with_sample (x : SampleSelection) (u : UserState W) : UserState W :=
  mkUser (u_runner u) (u_completed u) (u_transitions u) (u_iteration u) (u_lifecycle u) (u_cleanup u)
    (u_context u) (u_report u) (x :: u_samples u) (u_shared u).

Definition set_world (w : W) (s : Shared W) : Shared W :=
  mkShared (sh_tokens s) (sh_woken s) (sh_observed s) (sh_next_lifecycle s) w.
Definition set_tokens (t : TokenStore) (woken : list Z) (s : Shared W) : Shared W :=
  mkShared t (sh_woken s ++ woken) (sh_observed s) (sh_next_lifecycle s) (sh_world s).
Definition set_observed (signal : ControlSignal) (s : Shared W) : Shared W :=
  mkShared (sh_tokens s) (sh_woken s) signal (sh_next_lifecycle s) (sh_world s).
Definition set_next_lifecycle (n : Z) (s : Shared W) : Shared W :=
  mkShared (sh_tokens s) (sh_woken s) (sh_observed s) n (sh_world s).

Definition update (f : UserState W -> UserState W) : UM () := fun u => (Ok (), f u).

(** A call of a component: its answer, and its error as an error of the engine. *)
Definition call {E A} (m : W -> (E + A) * W) (err : E -> EngineError) : UM A := fun u =>
  let '(r, w) := m (sh_world (u_shared u)) in
  (match r with inl e => Err (err e) | inr a => Ok a end, with_shared (set_world w) u).

(** A call that waits. *)
Definition call_shared {E A} (m : Shared W -> (E + A) * Shared W) (err : E -> EngineError) : UM A := fun u =>
  let '(r, s) := m (u_shared u) in
  (match r with inl e => Err (err e) | inr a => Ok a end, with_shared (fun _ => s) u).

(** ** Helpers of the engine *)

Definition read_clock : UM Z := fun u =>
  let '(t, w) := clock_now (sh_world (u_shared u)) in (Ok t, with_shared (set_world w) u).

Definition advance_progress : UM () := call progress_advance Progress.

(** [observe_control_signal] *)
Definition observe_control_signal (signal : ControlSignal) : UM () :=
  do! u <- st_get in
  if signal_u8 (sh_observed (u_shared u)) <? signal_u8 signal
  then update (with_shared (set_observed signal)) ;! advance_progress
  else st_ret ().

(** [push_event] of an iteration, and [push_sample_event] *)
Definition push_iteration : UM () :=
  do! u <- st_get in
  call (record_iteration (it_current (u_iteration u))) Observation ;! advance_progress.

Definition push_sample_event (report : ExecutionReport) : UM () :=
  call (record_sample report) Observation ;! advance_progress ;! observe_control_signal (er_signal report).

Definition user_take_signal : UM ControlSignal := fun u =>
  let '(signal, c, t) := take_control_signal (u_context u) (sh_tokens (u_shared u)) in
  (Ok signal, with_shared (set_tokens t []) (with_context c u)).

Definition user_request (signal : ControlSignal) : UM () := fun u =>
  let '(c, t, woken) := request_control signal (u_context u) (sh_tokens (u_shared u)) in
  (Ok (), with_shared (set_tokens t woken) (with_context c u)).

(** [self.cancellation.request] for the signals that stop the test. *)
Definition request_test_stop (signal : ControlSignal) : UM () := fun u =>
  match signal with
  | StopTestGraceful | StopTestImmediate =>
      let '(t, woken) := token_request run_token signal (sh_tokens (u_shared u)) in
      (Ok (), with_shared (set_tokens t woken) u)
  | _ => (Ok (), u)
  end.

(** [LifecycleCleanupGuard::clear] *)
Definition cleanup_clear : UM () :=
  do! u <- st_get in
  if cg_armed (u_cleanup u) then
    update (with_lifecycle (u_lifecycle u) (mkGuard (cg_lifecycle_id (u_cleanup u)) false)) ;!
    match cg_lifecycle_id (u_cleanup u) with
    | Some id => call (clear_for_lifecycle id) (ExpressionCleanup id)
    | None => st_ret ()
    end
  else st_ret ().

Definition user_allocate_lifecycle : UM Z := fun u =>
  let '(r, next) := allocate_lifecycle_id (sh_next_lifecycle (u_shared u)) in
  (r, with_shared (set_next_lifecycle next) u).

(** A fresh context replaces the user's; the view of the old one goes away. *)
Definition replace_context : UM () := fun u =>
  let u := with_shared (fun s => match uc_token (u_context u) with
                                 | Attached h => set_tokens (token_drop h (sh_tokens s)) [] s
                                 | Detached _ => s
                                 end) u in
  (Ok (), with_context context_new u).

(** [attach_cancellation] *)
Definition attach_cancellation : UM () := fun u =>
  let '(h, t) := token_child (sh_tokens (u_shared u)) in
  let c := u_context u in
  (Ok (), with_shared (set_tokens t [])
            (with_context (mkContext (uc_control c) (Attached h) (uc_iteration_id c) (uc_sampler_name c)) u)).

Definition set_iteration_id (id : Z) : UM () := update (fun u =>
  let c := u_context u in
  with_context (mkContext (uc_control c) (uc_token c) (Some id) (uc_sampler_name c)) u).
Definition set_sampler_name (id : Z) : UM () := update (fun u =>
  let c := u_context u in
  with_context (mkContext (uc_control c) (uc_token c) (uc_iteration_id c) (Some id)) u).

(** [is_some_and(|end| now >= end)] of the group's end *)
Definition past_end : UM bool :=
  match duration_end with
  | None => st_ret false
  | Some e => do! t <- read_clock in st_ret (e <=? t)
  end.

(** ** The arms of the loop; the answer says whether the loop goes on *)

(** A new user for the next iteration. *)
Definition renew_user : UM () :=
  cleanup_clear ;!
  do! id <- user_allocate_lifecycle in
  do! u <- st_get in
  update (with_lifecycle id (u_cleanup u)) ;!
  call seed_variables InitialVariables ;!
  replace_context ;!
  (if bool_decide (g_kind g = Teardown) then st_ret () else attach_cancellation) ;!
  update (with_lifecycle id (mkGuard (Some id) true)) ;!
  call clone_packages (Package (g_id g)) ;!
  update (with_user_runner runner_new).

Definition next_user_iteration : UM () :=
  do! u <- st_get in
  do! r <- st_lift (match next_root_iteration (u_runner u) with
                    | Ok r => Ok r
                    | Err e => Err (Controller (g_id g) e)
                    | OutOfFuel => OutOfFuel
                    end) in
  update (with_user_runner r).

Definition advance_iteration : UM () := fun u =>
  let '(r, i) := iteration_advance (u_iteration u) in (r, with_iteration i u).

(** The event of an iteration and its counters: the iterations completed. *)
Definition count_iteration : UM Z :=
  push_iteration ;!
  advance_iteration ;!
  do! u <- st_get in
  set_iteration_id (it_current (u_iteration u)) ;!
  let completed := Z.min (u_completed u + 1) u64_max in
  update (fun u => with_counters completed (u_transitions u) u) ;!
  st_ret completed.

(** [ControllerStep::Complete] *)
Definition on_complete : UM bool :=
  do! completed <- count_iteration in
  if match g_iterations g with None => true | Some limit => completed <? limit end then
    do! over <- past_end in
    if over : bool then st_ret false
    else (if negb (g_same_user g) then renew_user else next_user_iteration) ;! st_ret true
  else st_ret false.

(** [ControllerStep::Stopped] *)
Definition on_stopped (signal : ControlSignal) : UM bool :=
  update (with_report signal) ;!
  observe_control_signal signal ;!
  request_test_stop signal ;!
  st_ret false.

(** The sample failed, or its result was not successful. *)
Definition sample_failed (report : ExecutionReport) : bool :=
  er_sample_failure report || match er_result report with Some (_, Some false) => true | _ => false end.

Definition ignored (report : ExecutionReport) : bool :=
  match er_result report with Some (i, _) => i | None => false end.

(** The sampler is executed: the trace and what waits meanwhile. *)
Definition run_sampler (x : SampleSelection) : UM ExecutionReport := fun u =>
  let id := sampler_id x in
  let '(r, (c, s)) := execute id (u_context u, u_shared u) in
  (match r with inl e => Err (Pipeline (g_id g) id e) | inr report => Ok report end,
   with_sample x (with_shared (fun _ => s) (with_context c u))).

(** The policy of the group for failed samples. *)
Definition apply_error_policy : UM () :=
  let policy := policy_signal (g_on_sample_error g) in
  user_request policy ;!
  update (with_report policy) ;!
  observe_control_signal policy ;!
  request_test_stop policy.

(** [ControllerStep::Sample] *)
Definition on_sample (x : SampleSelection) : UM bool :=
  do! over <- past_end in
  if over : bool then st_ret false
  else
    set_sampler_name (sampler_id x) ;!
    if negb (has_package (sampler_id x)) then st_fail (MissingPackage (g_id g) (sampler_id x))
    else
      do! report <- run_sampler x in
      (if negb (ignored report) && er_event report then call (route_report report) (fun e => e) else st_ret ()) ;!
      call_shared deliver (fun e => e) ;!
      push_sample_event report ;!
      update (with_report (er_signal report)) ;!
      (if sample_failed report then apply_error_policy else st_ret ()) ;!
      request_test_stop (er_signal report) ;!
      (if bool_decide (er_signal report = NextLoop) then user_request NextLoop else st_ret ()) ;!
      (if cooperative then update (with_shared cooperative_yield) else st_ret ()) ;!
      st_ret true.

(** ** The loop *)

Definition max_transitions_of : Z := Z.max (Z.min (g_packages g * 65536) usize_max) 65536.

(** The controller takes a step of at most 1024 transitions. *)
Definition controller_step (signal : ControlSignal) : UM ControllerStep := fun u =>
  let '(r, (runner, _)) := step_with_signal p signal (u_runner u) (step_budget_new 1024) in
  (match r with Ok s => Ok s | Err e => Err (Controller (g_id g) e) | OutOfFuel => OutOfFuel end,
   with_user_runner runner u).

(** One turn. *)
Definition user_turn : UM bool :=
  do! u <- st_get in
  if max_transitions_of <=? u_transitions u
  then st_fail (ResourceLimit "virtual-user controller transition limit")
  else
    update (fun u => with_counters (u_completed u) (usize_saturating_succ (u_transitions u)) u) ;!
    do! signal <- user_take_signal in
    do! step <- controller_step signal in
    match step with
    | StepComplete => on_complete
    | StepStopped signal => on_stopped signal
    | StepSample x => on_sample x
    end.

Fixpoint user_loop (fuel : nat) : UM () :=
  match fuel with
  | O => st_lift OutOfFuel
  | S fuel => do! more <- user_turn in if more : bool then user_loop fuel else st_ret ()
  end.

(** [run_user] *)
Definition run_user : UM () :=
  if bool_decide (g_iterations g = Some 0) then st_ret ()
  else
    update (fun u => with_user_runner runner_new (with_counters 0 0 u)) ;!
    user_loop (S (Z.to_nat max_transitions_of)).

End run_user.
