(* ===== verification/UserRunProps.v ===== *)
(** * Theorems on the life of a virtual user *)

From S2P Require Import Prelude Control Random Plan Runner RunnerFacts Traversal RunnerSafety Completion Token Lifecycle UserRun.

(** ** The loop returns *)

Section returns.
Context {W : Type} `{!RunEnv W}.
Context (run_token : nat) (g : Group) (p : CompiledProgram) (duration_end : option Z) (cooperative : bool).

(** A part of a turn returns, and neither counts turns nor takes controller
    steps; it executes [n] samplers at most. *)
Definition part {A} (n : nat) (m : ST (UserState W) EngineError A) : Prop :=
  forall u, fst (m u) <> OutOfFuel /\ u_transitions (snd (m u)) = u_transitions u /\
    (length (u_samples (snd (m u))) <= n + length (u_samples u))%nat.

Lemma part_bind {A B} n k (m : ST (UserState W) EngineError A) (f : A -> ST (UserState W) EngineError B) :
  part n m -> (forall a, part k (f a)) -> part (n + k) (st_bind m f).
Proof.
  intros Hm Hf u. specialize (Hm u). unfold st_bind. destruct (m u) as [[a|e|] u1]; simpl in *.
  - specialize (Hf a u1). destruct (f a u1) as [r u2]. simpl in *. intuition (congruence || lia).
  - intuition (congruence || lia).
  - tauto.
Qed.

Lemma part_bind_0 {A B} n (m : ST (UserState W) EngineError A) (f : A -> ST (UserState W) EngineError B) :
  part 0 m -> (forall a, part n (f a)) -> part n (st_bind m f).
Proof. apply (part_bind 0 n). Qed.

Lemma part_weaken {A} n (m : ST (UserState W) EngineError A) : part 0 m -> part n m.
Proof. intros H u. specialize (H u). intuition lia. Qed.

Lemma part_ret {A} n (a : A) : part n (st_ret a).
Proof. intros u. split_and!; simpl; [done|done|lia]. Qed.
Lemma part_fail {A} n e : part n (@st_fail (UserState W) EngineError A e).
Proof. intros u. split_and!; simpl; [done|done|lia]. Qed.
Lemma part_get : part 0 st_get.
Proof. by intros u. Qed.
Lemma part_lift {A} (r : result EngineError A) : r <> OutOfFuel -> part 0 (st_lift r).
Proof. by intros Hr u. Qed.
Lemma part_update f :
  (forall u, u_transitions (f u) = u_transitions u /\ u_samples (f u) = u_samples u) -> part 0 (update f).
Proof. intros Hf u. destruct (Hf u) as [H1 H2]. unfold update. simpl. rewrite H1, H2. done. Qed.
Lemma part_call {E A} (m : W -> (E + A) * W) err : part 0 (call m err).
Proof. intros u. unfold call. by destruct (m _) as [[e|a] w]. Qed.
Lemma part_call_shared {E A} (m : Shared W -> (E + A) * Shared W) err : part 0 (call_shared m err).
Proof. intros u. unfold call_shared. by destruct (m _) as [[e|a] w]. Qed.

Lemma part_clock : part 0 read_clock.
Proof. intros u. unfold read_clock. by destruct (clock_now _). Qed.
Lemma part_take : part 0 user_take_signal.
Proof. intros u. unfold user_take_signal. by destruct (take_control_signal _ _) as [[? ?] ?]. Qed.
Lemma part_request sig : part 0 (user_request sig).
Proof. intros u. unfold user_request. by destruct (request_control _ _ _) as [[? ?] ?]. Qed.
Lemma part_test_stop sig : part 0 (request_test_stop run_token sig).
Proof. intros u. unfold request_test_stop. destruct sig; try done; by destruct (token_request _ _ _). Qed.
Lemma part_allocate : part 0 user_allocate_lifecycle.
Proof.
  intros u. unfold user_allocate_lifecycle, allocate_lifecycle_id. by destruct (u64_checked_add _ _).
Qed.
Lemma part_advance : part 0 advance_iteration.
Proof.
  intros u. unfold advance_iteration, iteration_advance.
  destruct (u64_checked_add (it_completed _) 1); [|done]. simpl. by destruct (u64_checked_add _ 1).
Qed.
Lemma part_replace : part 0 replace_context.
Proof. done. Qed.
Lemma part_attach : part 0 attach_cancellation.
Proof. done. Qed.
Lemma part_sampler x : part 1 (run_sampler g x).
Proof. intros u. unfold run_sampler. destruct (execute _ _) as [[e|r] [c s]]; simpl; split_and!; (done || lia). Qed.
End returns.

Create HintDb turns.
#[export] Hint Resolve part_ret part_fail part_get part_call part_call_shared part_clock part_take part_request
  part_test_stop part_allocate part_advance part_replace part_attach : turns.

Ltac part_solve :=
  repeat match goal with
  | |- part _ (match ?x with _ => _ end) => destruct x
  | |- part _ (if ?b then _ else _) => destruct b
  | |- part _ (st_bind _ _) => apply part_bind_0; [|intros ?]
  | |- part _ (update _) => apply part_weaken, part_update; intros; by split
  | |- part _ _ => solve [eauto with turns]
  | |- part (S _) _ => apply part_weaken
  end.

Section turns.
Context {W : Type} `{!RunEnv W}.
Context (run_token : nat) (g : Group) (p : CompiledProgram) (duration_end : option Z) (cooperative : bool).

Lemma part_observe sig : part 0 (observe_control_signal (W:=W) sig).
Proof. unfold observe_control_signal, advance_progress. part_solve. Qed.
Lemma part_past_end : part 0 (past_end (W:=W) duration_end).
Proof. unfold past_end. part_solve. Qed.
Lemma part_cleanup : part 0 (cleanup_clear (W:=W)).
Proof. unfold cleanup_clear. part_solve. Qed.
#[local] Hint Resolve part_observe part_past_end part_cleanup : turns.

Lemma part_renew : part 0 (renew_user (W:=W) g).
Proof. unfold renew_user. part_solve. Qed.
Lemma part_next : part 0 (next_user_iteration (W:=W) g).
Proof.
  unfold next_user_iteration. part_solve. apply part_lift.
  unfold next_root_iteration. by repeat case_match.
Qed.
#[local] Hint Resolve part_renew part_next : turns.

Lemma part_complete : part 0 (on_complete (W:=W) g duration_end).
Proof. unfold on_complete, count_iteration, push_iteration, advance_progress, set_iteration_id. part_solve. Qed.
Lemma part_stopped sig : part 0 (on_stopped (W:=W) run_token sig).
Proof. unfold on_stopped. part_solve. Qed.
Lemma part_policy : part 0 (apply_error_policy (W:=W) run_token g).
Proof. unfold apply_error_policy. part_solve. Qed.
#[local] Hint Resolve part_policy : turns.

Lemma part_sample x : part 1 (on_sample (W:=W) run_token g duration_end cooperative x).
Proof.
  unfold on_sample. apply part_bind_0; [apply part_past_end|intros []]; [apply part_ret|].
  apply part_bind_0; [unfold set_sampler_name; part_solve|intros []].
  destruct (negb _); [apply part_fail|].
  change 1%nat with (1 + 0)%nat. apply part_bind; [apply part_sampler|intros report].
  unfold push_sample_event, advance_progress. part_solve.
Qed.

(** ** A stopped step leaves a stopped runner *)

Lemma round_stopped t s s' :
  select_round p s = (Ok (Some (StepStopped t)), s') -> terminal (m_runner s') = Some t.
Proof.
  unfold select_round. intros (r & s1 & [= <- <-] & H)%st_bind_Ok.
  destruct (terminal (m_runner s)) as [sig|] eqn:Et; [by injection H as <- <-|].
  apply st_bind_Ok in H as ([] & s1 & _ & H). destruct (negb _).
  - unfold enter_root in H. destruct (node_at _ _) as [[]|]; try done;
      repeat (apply st_bind_Ok in H as (? & ? & ? & H)); done.
  - destruct (stack _).
    + apply st_bind_Ok in H as (o & s2 & Ho & H). injection H as -> <-.
      unfold complete_root in Ho. by repeat (apply st_bind_Ok in Ho as (? & ? & ? & Ho)).
    + apply st_bind_Ok in H as (a & s2 & _ & H). destruct a as [child| |]; simpl in H;
        [destruct (node_at p child) as [[]|]; try done| |];
        repeat (apply st_bind_Ok in H as (? & ? & ? & H)); done.
Qed.

Lemma loop_stopped fuel t s s' :
  select_loop p fuel s = (Ok (StepStopped t), s') -> terminal (m_runner s') = Some t.
Proof.
  revert s. induction fuel as [|fuel IH]; intros s; [done|]. cbn [select_loop].
  intros ([o|] & s1 & Hr & H)%st_bind_Ok; [|by eapply IH].
  injection H as -> <-. by eapply round_stopped.
Qed.

Lemma step_stopped sig r b t r' b' :
  step_with_signal p sig r b = (Ok (StepStopped t), (r', b')) -> terminal r' = Some t.
Proof.
  unfold step_with_signal. destruct (step_with_run_budget p sig _) as [res m] eqn:E. intros [= -> <- _].
  unfold step_with_run_budget in E. apply st_bind_Ok in E as (r0 & s1 & [= <- <-] & E). simpl in E.
  destruct (terminal r) as [t0|] eqn:Et.
  - destruct (is_stop sig); [|by injection E as -> <-].
    apply st_bind_Ok in E as ([] & s1 & [= <-] & E). by injection E as <- <-.
  - destruct (is_stop sig).
    + apply st_bind_Ok in E as ([] & s1 & _ & E). apply st_bind_Ok in E as ([] & s2 & [= <-] & E).
      by injection E as <- <-.
    + apply st_bind_Ok in E as ([] & s1 & _ & E). apply st_bind_Ok in E as (r1 & s2 & [= <- <-] & E).
      destruct (_ && _); [done|]. unfold select_next_with_sample_budget in E.
      apply st_bind_Ok in E as (r2 & s2 & [= <- <-] & E). destruct (finished _); [done|].
      by apply loop_stopped in E.
Qed.

(** ** Turns *)

(** Why a user's loop ends without an error. *)
Definition ended (u : UserState W) : Prop :=
  (exists limit, g_iterations g = Some limit /\ limit <= u_completed u) \/
  duration_end <> None \/
  (exists t, terminal (u_runner u) = Some t).

Lemma past_end_true u u' : past_end (W:=W) duration_end u = (Ok true, u') -> duration_end <> None.
Proof. unfold past_end. by destruct duration_end. Qed.

Lemma count_completed u n u' : count_iteration (W:=W) u = (Ok n, u') -> u_completed u' = n.
Proof.
  unfold count_iteration. intros ([] & u1 & _ & H)%st_bind_Ok. apply st_bind_Ok in H as ([] & u2 & _ & H).
  apply st_bind_Ok in H as (u3 & u4 & [= <- <-] & H). apply st_bind_Ok in H as ([] & u5 & [= <-] & H).
  apply st_bind_Ok in H as ([] & u6 & [= <-] & H). by injection H as <- <-.
Qed.

Lemma complete_ended u u' : on_complete g duration_end u = (Ok false, u') -> ended u'.
Proof.
  unfold on_complete. intros (n & u1 & Hn%count_completed & H)%st_bind_Ok.
  destruct (match g_iterations g with None => true | Some limit => _ end) eqn:El.
  - apply st_bind_Ok in H as ([] & u7 & Ho & H); [right; left; by eapply past_end_true|].
    by apply st_bind_Ok in H as ([] & ? & _ & H).
  - injection H as <-. left. destruct (g_iterations g) as [limit|]; [|done]. exists limit.
    split; [done|]. apply Z.ltb_ge in El. lia.
Qed.

Lemma sample_ended x u u' : on_sample run_token g duration_end cooperative x u = (Ok false, u') -> ended u'.
Proof.
  unfold on_sample. intros ([] & u1 & Ho & H)%st_bind_Ok; [right; left; by eapply past_end_true|].
  apply st_bind_Ok in H as ([] & u2 & _ & H). destruct (negb _); [done|].
  by repeat (apply st_bind_Ok in H as (? & ? & _ & H)).
Qed.

Lemma stopped_runner sig u b u' :
  on_stopped (W:=W) run_token sig u = (Ok b, u') -> b = false /\ u_runner u' = u_runner u.
Proof.
  unfold on_stopped. intros ([] & u1 & [= <-] & H)%st_bind_Ok.
  apply st_bind_Ok in H as ([] & u2 & Ho & H). apply st_bind_Ok in H as ([] & u3 & Hr & H).
  injection H as <- <-. split; [done|].
  assert (u_runner u3 = u_runner u2) as ->.
  { unfold request_test_stop in Hr. destruct sig; try (by injection Hr as <-);
      destruct (token_request _ _ _); by injection Hr as <-. }
  unfold observe_control_signal in Ho. apply st_bind_Ok in Ho as (? & ? & [= <- <-] & Ho).
  destruct (_ <? _); [|by injection Ho as <-]. apply st_bind_Ok in Ho as ([] & ? & [= <-] & Ho).
  unfold advance_progress, call in Ho. destruct (progress_advance _) as [[e|[]] w]; [done|]. by injection Ho as <-.
Qed.

Lemma max_transitions_range : 65536 <= max_transitions_of g <= usize_max.
Proof. unfold max_transitions_of. split; [lia|]. apply Z.max_lub; [lia|]. vm_compute. discriminate. Qed.

Lemma controller_step_spec sig (u : UserState W) :
  let '(r, u') := controller_step g p sig u in
  r <> OutOfFuel /\ u_transitions u' = u_transitions u /\ u_samples u' = u_samples u /\
  forall t, r = Ok (StepStopped t) -> terminal (u_runner u') = Some t.
Proof.
  unfold controller_step. pose proof (fun t r' b' => step_stopped sig (u_runner u) (step_budget_new 1024) t r' b') as Hs.
  pose proof (keeps_step p sig (mkMachine (u_runner u) (step_budget_new 1024) (run_budget_new usize_max usize_max)))
    as [Hf _].
  unfold step_with_signal in *.
  destruct (step_with_run_budget p sig _) as [[o|e|] m]; simpl in *; [|done|done].
  split_and!; try done. intros t [= ->]. by eapply Hs.
Qed.

(** A turn counts itself and executes one sampler at most; the turn that ends
    the loop has a reason. *)
Lemma user_turn_spec (u : UserState W) :
  0 <= u_transitions u ->
  let '(r, u') := user_turn run_token g p duration_end cooperative u in
  r <> OutOfFuel /\
  (max_transitions_of g <= u_transitions u ->
     r = Err (ResourceLimit "virtual-user controller transition limit") /\ u' = u) /\
  (u_transitions u < max_transitions_of g ->
     u_transitions u' = u_transitions u + 1 /\ (length (u_samples u') <= 1 + length (u_samples u))%nat) /\
  (r = Ok false -> ended u').
Proof.
  intros H0. unfold user_turn. unfold st_bind at 1, st_get. destruct (Z.leb_spec (max_transitions_of g) (u_transitions u)).
  { simpl. split_and!; try done; lia. }
  unfold update, st_bind at 1. set (u1 := with_counters _ _ u).
  assert (u_transitions u1 = u_transitions u + 1) as E1.
  { pose proof max_transitions_range. unfold u1, usize_saturating_succ. simpl. lia. }
  unfold st_bind at 1. destruct (part_take u1) as (F2 & E2 & S2). destruct (user_take_signal u1) as [[sig|e|] u2];
    simpl in F2, E2, S2; [| |done]; [|split_and!; try done; simpl in *; lia].
  unfold st_bind at 1. pose proof (controller_step_spec sig u2) as H3.
  destruct (controller_step g p sig u2) as [[o|e|] u3]; destruct H3 as (F3 & E3 & S3 & T3);
    [| |done]; [|split_and!; try done; rewrite ?S3; simpl in *; try lia].
  assert (forall m : ST (UserState W) EngineError bool, part 1 m ->
    (forall u', m u3 = (Ok false, u') -> ended u') ->
    let '(r, u') := m u3 in
    r <> OutOfFuel /\
    (max_transitions_of g <= u_transitions u ->
       r = Err (ResourceLimit "virtual-user controller transition limit") /\ u' = u) /\
    (u_transitions u < max_transitions_of g ->
       u_transitions u' = u_transitions u + 1 /\ (length (u_samples u') <= 1 + length (u_samples u))%nat) /\
    (r = Ok false -> ended u')) as Harm.
  { intros m Hm He. specialize (Hm u3). destruct (m u3) as [r u']. destruct Hm as (F4 & E4 & S4). simpl in *.
    rewrite S3 in S4. split_and!; [done|lia|intros _; split; lia|intros ->; by eapply He]. }
  destruct o as [x| |t].
  - apply Harm; [apply part_sample|]. intros u'. apply sample_ended.
  - apply Harm; [apply part_weaken, part_complete|]. intros u'. apply complete_ended.
  - apply Harm; [apply part_weaken, part_stopped|]. intros u' Hu.
    apply stopped_runner in Hu as [_ Hu]. right; right. exists t. rewrite Hu. by apply T3.
Qed.

Lemma user_loop_spec fuel (u : UserState W) :
  0 <= u_transitions u <= max_transitions_of g -> max_transitions_of g - u_transitions u < Z.of_nat fuel ->
  let '(r, u') := user_loop run_token g p duration_end cooperative fuel u in
  r <> OutOfFuel /\ (r = Ok () -> ended u') /\
  Z.of_nat (length (u_samples u')) <= Z.of_nat (length (u_samples u)) + (max_transitions_of g - u_transitions u).
Proof.
  revert u. induction fuel as [|fuel IH]; intros u H0 Hf; [lia|]. cbn [user_loop]. unfold st_bind.
  pose proof (user_turn_spec u ltac:(lia)) as H.
  destruct (user_turn _ _ _ _ _ u) as [r u1]. destruct H as (Hr & Hlim & Hin & Hend).
  destruct (Z.le_gt_cases (max_transitions_of g) (u_transitions u)) as [Hm|Hm].
  { destruct (Hlim Hm) as [-> ->]. split_and!; (done || lia). }
  destruct (Hin ltac:(lia)) as [Ht Hs]. destruct r as [[]|e|]; [| | |done].
  - specialize (IH u1 ltac:(lia) ltac:(lia)). destruct (user_loop _ _ _ _ _ fuel u1) as [r u2].
    destruct IH as (? & ? & ?). split_and!; (done || lia).
  - simpl. split_and!; [done|intros _; by apply Hend|lia].
  - split_and!; [done|done|lia].
Qed.

End turns.

(** C24 The life of a virtual user is bounded.  Whatever the samplers answer and
    the other users do, the loop returns after at most 65536 turns per sampler
    package, each of which executes one sampler at most; and it returns without
    an error only because its iterations are done, its group has an end, or its
    controller was stopped. *)
Theorem user_lifetime_bounded {W : Type} `{!RunEnv W} run_token g p duration_end cooperative (u : UserState W) :
  let '(r, u') := run_user run_token g p duration_end cooperative u in
  r <> OutOfFuel /\
  Z.of_nat (length (u_samples u')) <= Z.of_nat (length (u_samples u)) + Z.max (Z.min (g_packages g * 65536) usize_max) 65536 /\
  (r = Ok () -> g_iterations g = Some 0 \/ ended g duration_end u').
Proof.
  unfold run_user. case_bool_decide as Hz; [simpl; split_and!; [done|lia|by left]|].
  unfold update, st_bind. set (u0 := with_user_runner _ _).
  pose proof (max_transitions_range g).
  pose proof (user_loop_spec run_token g p duration_end cooperative (S (Z.to_nat (max_transitions_of g))) u0) as Hl.
  specialize (Hl ltac:(simpl; lia) ltac:(simpl; lia)).
  destruct (user_loop _ _ _ _ _ _ u0) as [r u']. destruct Hl as (H1 & H2 & H3).
  unfold max_transitions_of in H3. simpl in H3. split_and!; [done|lia|]. intros ->. right. by apply H2.
Qed.

(** ** An undisturbed user plays its plan *)

(** Components that succeed, and leave the user's signals alone. *)
Record quiet (W : Type) `{!RunEnv W} : Prop := {
  q_record_iteration i w : exists w', record_iteration i w = (inr (), w');
  q_record_sample r w : exists w', record_sample r w = (inr (), w');
  q_progress w : exists w', progress_advance w = (inr (), w');
  q_clear id w : exists w', clear_for_lifecycle id w = (inr (), w');
  q_seed w : exists w', seed_variables w = (inr (), w');
  q_packages w : exists w', clone_packages w = (inr (), w');
  q_has_package id : has_package id = true;
  q_route r w : exists w', route_report r w = (inr (), w');
  q_execute id c s : exists report w', execute id (c, s) = (inr report, (c, set_world w' s)) /\
    sample_failed report = false /\ er_signal report = Continue;
  q_deliver s : exists w', deliver s = (inr (), set_world w' s);
  q_yield s : exists w', cooperative_yield s = set_world w' s
}.

(** No signal is pending for the user, and none for the run. *)
Definition calm {W} (u : UserState W) : Prop :=
  signal (uc_control (u_context u)) 0 = Continue /\
  is_stop (signal_from_u8 (t_stop (sh_tokens (u_shared u)))) = false /\
  match uc_token (u_context u) with
  | Attached h => token_signal (sh_tokens (u_shared u)) h = Continue
  | Detached t => token_signal t 0 = Continue
  end.

(** The samplers [l] are due from [r], in steps that succeed with the step budget
    of 1024, and the runner then completes as [rf]. *)
Definition due (p : CompiledProgram) (rf r : ControllerRunner) (l : list SampleSelection) : Prop :=
  drive p r (replicate (S (length l)) (step_budget_new 1024, run_budget_new usize_max usize_max)) = (l, true, rf).

Lemma drive_length p r bs l rf : drive p r bs = (l, true, rf) -> (length l < length bs)%nat.
Proof.
  revert r l. induction bs as [|[b rb] bs IH]; intros r l; simpl; [done|].
  destruct (step_with_run_budget p Continue _) as [[[x| |t]|e|] m]; try done.
  - destruct (drive p (m_runner m) bs) as [[l' c] r'] eqn:E. intros [= <- -> ->]. apply IH in E. simpl. lia.
  - intros [= <- _]. simpl. lia.
  - intros H%IH. lia.
  - intros H%IH. lia.
Qed.

(** The iterations of a user from the iteration [i] and the controller state
    [σ] on, each a traversal of the plan whose steps stay within the step
    budget of 1024; a user that is renewed starts afresh. *)
Inductive iterations (p : CompiledProgram) (root : ControllerNode) (same_user : bool) :
  Z -> Persist -> list (list SampleSelection) -> Prop :=
| its_done i σ : iterations p root same_user i σ []
| its_more i σ out σ' outs :
    visits i [] σ root out σ' -> due p (finish σ' i) (start σ i) out ->
    iterations p root same_user (if same_user then i + 1 else 0) (if same_user then σ' else fresh) outs ->
    iterations p root same_user i σ (out :: outs).

(** The turns they take: one per sample and one per iteration. *)
Definition turns (outs : list (list SampleSelection)) : Z :=
  foldr (fun out n => Z.of_nat (length out) + 1 + n) 0 outs.

Section undisturbed.
Context {W : Type} `{!RunEnv W} (Hq : quiet W).
Context (run_token : nat) (g : Group) (p : CompiledProgram) (cooperative : bool) (root : ControllerNode).

(** What a silent part of a turn leaves alone. *)
Definition core (u : UserState W) :=
  (u_runner u, u_completed u, u_transitions u, u_iteration u, u_samples u, sh_next_lifecycle (u_shared u)).

Definition silent {A} (m : ST (UserState W) EngineError A) (a : A) : Prop :=
  forall u, calm u -> exists u', m u = (Ok a, u') /\ core u' = core u /\ calm u'.

Lemma silent_bind {A B} (m : ST (UserState W) EngineError A) (k : A -> ST (UserState W) EngineError B) a b :
  silent m a -> silent (k a) b -> silent (st_bind m k) b.
Proof.
  intros Hm Hk u Hu. destruct (Hm u Hu) as (u1 & E1 & C1 & Hu1). destruct (Hk u1 Hu1) as (u2 & E2 & C2 & Hu2).
  exists u2. unfold st_bind. rewrite E1. split_and!; [done|congruence|done].
Qed.

Lemma silent_ret {A} (a : A) : silent (st_ret a) a.
Proof. intros u Hu. by exists u. Qed.

Lemma silent_update f : (forall u, calm u -> core (f u) = core u /\ calm (f u)) -> silent (update f) ().
Proof. intros Hf u Hu. exists (f u). destruct (Hf u Hu). by split_and!. Qed.

Lemma silent_call {E A} (m : W -> (E + A) * W) err a :
  (forall w, exists w', m w = (inr a, w')) -> silent (call m err) a.
Proof.
  intros Hm u Hu. unfold call. destruct (Hm (sh_world (u_shared u))) as [w' ->]. eexists. by split_and!.
Qed.

Lemma signal_calm c : signal c 0 = Continue -> take_signal c 0 = (Continue, c).
Proof.
  unfold signal, take_signal. destruct (is_stop (signal_from_u8 (test_stop c))) eqn:E;
    [by intros H; rewrite H in E|].
  destruct (thread_stop (flags c 0)); [done|]. by destruct (next_loop (flags c 0)).
Qed.

Lemma token_calm s h :
  token_signal s h = Continue ->
  exists s', token_take_signal h s = (Continue, s') /\ token_signal s' h = Continue /\ t_stop s' = t_stop s.
Proof.
  unfold token_signal, token_take_signal. destruct (is_stop (signal_from_u8 (t_stop s))) eqn:E;
    [by intros H; rewrite H in E|].
  destruct (v_thread_stop (view s h)) eqn:Et; [done|]. destruct (v_next_loop (view s h)) eqn:En; [done|].
  intros _. eexists. split_and!; [done| |done]. simpl. rewrite E.
  unfold view in *. simpl. rewrite list_lookup_alter_eq. destruct (t_views s !! h); simpl in *; [by rewrite Et|done].
Qed.

Lemma silent_take : silent user_take_signal Continue.
Proof.
  intros u (Hc & Hs & Ht). unfold user_take_signal, take_control_signal. rewrite (signal_calm _ Hc).
  destruct (uc_token (u_context u)) as [h|t] eqn:Etok; destruct (token_calm _ _ Ht) as (t' & -> & Ht' & Hst).
  - eexists. split_and!; [done|done|]. split_and!; [done|simpl; by rewrite Hst|done].
  - eexists. split_and!; [done|done|]. by split_and!.
Qed.

Lemma silent_progress : silent advance_progress ().
Proof. apply silent_call, Hq. Qed.

Lemma silent_observe : silent (observe_control_signal Continue) ().
Proof.
  intros u Hu. unfold observe_control_signal, st_bind, st_get.
  destruct (sh_observed (u_shared u)); by exists u.
Qed.

Lemma silent_shared_world (f : Shared W -> Shared W) :
  (forall s, exists w', f s = set_world w' s) -> silent (update (with_shared f)) ().
Proof.
  intros Hf. apply silent_update. intros u Hu. unfold with_shared, core, calm in *.
  destruct (Hf (u_shared u)) as [w' Ew]. simpl. rewrite Ew. by split.
Qed.

Lemma silent_deliver : silent (call_shared deliver (fun e => e)) ().
Proof.
  intros u Hu. unfold call_shared. destruct (q_deliver W Hq (u_shared u)) as [w' ->]. eexists. by split_and!.
Qed.

(** A sample that disturbs nothing. *)
Lemma undisturbed_sample x u :
  calm u -> exists u', on_sample run_token g None cooperative x u = (Ok true, u') /\ calm u' /\
    core u' = (u_runner u, u_completed u, u_transitions u, u_iteration u, x :: u_samples u,
               sh_next_lifecycle (u_shared u)).
Proof.
  intros Hu. unfold on_sample, past_end. unfold st_bind at 1, st_ret at 1. cbv beta iota.
  unfold set_sampler_name. unfold st_bind at 1, update at 1. set (u1 := with_context _ u).
  assert (calm u1) as Hu1 by apply Hu. rewrite (q_has_package W Hq).
  change (negb true) with false. cbv beta iota.
  unfold st_bind at 1, run_sampler at 1. cbv zeta.
  destruct (q_execute W Hq (sampler_id x) (u_context u1) (u_shared u1)) as (report & w' & -> & Hf & Hs). cbv beta iota.
  set (u2 := with_sample x _). assert (calm u2) as Hu2 by apply Hu.
  match goal with |- exists u', ?m u2 = _ /\ _ => assert (silent m true) as Hm end.
  { rewrite Hf, Hs. eapply silent_bind.
    { destruct (_ && _); [apply silent_call, Hq|apply silent_ret]. }
    eapply silent_bind; [apply silent_deliver|]. unfold push_sample_event. rewrite Hs.
    eapply silent_bind.
    { eapply silent_bind; [apply silent_call, Hq|]. eapply silent_bind; [apply silent_progress|apply silent_observe]. }
    eapply silent_bind; [apply silent_update; intros ? ?; by split|].
    eapply silent_bind; [apply silent_ret|]. eapply silent_bind; [intros v Hv; by exists v|].
    eapply silent_bind; [apply silent_ret|]. eapply silent_bind; [|apply silent_ret].
    destruct cooperative; [apply silent_shared_world, Hq|apply silent_ret]. }
  destruct (Hm u2 Hu2) as (u3 & -> & Hcore & Hu3). exists u3. split_and!; [done|done|]. by rewrite Hcore.
Qed.

(** The next iteration: the same user goes on, or a new one starts. *)
Lemma undisturbed_renew u :
  calm u -> 0 <= sh_next_lifecycle (u_shared u) < u64_max ->
  exists u', renew_user g u = (Ok (), u') /\ calm u' /\
    core u' = (runner_new, u_completed u, u_transitions u, u_iteration u, u_samples u,
               sh_next_lifecycle (u_shared u) + 1).
Proof.
  intros Hu Hn. unfold renew_user.
  assert (silent cleanup_clear ()) as Hclear.
  { intros v Hv. unfold cleanup_clear, st_bind at 1, st_get. destruct (cg_armed _); [|by exists v].
    destruct (cg_lifecycle_id _) as [id|].
    - eapply (silent_bind _ _ () ()); [|apply silent_call, Hq|exact Hv]. apply silent_update. by intros ? ?.
    - eapply (silent_bind _ _ () ()); [|apply silent_ret|exact Hv]. apply silent_update. by intros ? ?. }
  destruct (Hclear u Hu) as (u1 & E1 & C1 & Hu1). unfold st_bind at 1. rewrite E1.
  unfold st_bind at 1, user_allocate_lifecycle at 1, allocate_lifecycle_id.
  assert (sh_next_lifecycle (u_shared u1) = sh_next_lifecycle (u_shared u)) as En by (by injection C1).
  rewrite En, (proj2 (u64_checked_add_Some _ _ (sh_next_lifecycle (u_shared u) + 1))) by lia.
  unfold st_bind at 1 2, st_get at 1, update at 1. cbv beta iota.
  match goal with |- exists u', (call seed_variables _ ;! _) ?v = _ /\ _ => set (u2 := v) end.
  assert (calm u2) as Hu2 by apply Hu1. unfold st_bind at 1.
  destruct (silent_call seed_variables InitialVariables () (q_seed W Hq) u2 Hu2) as (u3 & -> & C3 & Hu3).
  unfold st_bind at 1, replace_context at 1. set (u4 := with_context context_new _).
  assert (calm u4 /\ core u4 = core u3) as [Hu4 C4].
  { destruct Hu3 as (_ & Hs & _). unfold u4, calm, core. simpl.
    destruct (uc_token (u_context u3)); simpl; by split_and!. }
  unfold st_bind at 1.
  assert (silent (if bool_decide (g_kind g = Teardown) then st_ret () else attach_cancellation) ()) as Hatt.
  { case_bool_decide; [apply silent_ret|]. intros v (Hc & Hs & _). eexists. split_and!; [done|done|].
    split_and!; [done|done|]. simpl. unfold token_signal, view. simpl. rewrite Hs.
    by rewrite list_lookup_middle. }
  destruct (Hatt u4 Hu4) as (u5 & -> & C5 & Hu5). unfold st_bind at 1, update at 1.
  set (u6 := with_lifecycle _ _ u5). assert (calm u6) as Hu6 by apply Hu5. unfold st_bind at 1.
  destruct (silent_call clone_packages (Package (g_id g)) () (q_packages W Hq) u6 Hu6) as (u7 & -> & C7 & Hu7).
  eexists. split_and!; [done|apply Hu7|]. 
  assert (core u7 = core u2) as C by (rewrite C7; change (core u6) with (core u5); congruence).
  unfold core in *. simpl. injection C as _ -> -> -> -> ->. simpl. injection C1 as _ -> -> -> -> _. done.
Qed.

(** The head of [on_complete]: the event, the counters and the identity. *)
Lemma undisturbed_count u k :
  calm u -> u_iteration u = mkIteration k k -> 0 <= k < u64_max -> u_completed u = k ->
  exists u1, count_iteration u = (Ok (k + 1), u1) /\ calm u1 /\
    core u1 = (u_runner u, k + 1, u_transitions u, mkIteration (k + 1) (k + 1), u_samples u,
               sh_next_lifecycle (u_shared u)).
Proof.
  intros Hu Hi Hk Hc.
  assert (silent push_iteration ()) as Hpush.
  { intros v Hv. unfold push_iteration, st_bind at 1, st_get.
    eapply (silent_bind _ _ () ()); [apply silent_call, Hq|apply silent_progress|exact Hv]. }
  destruct (Hpush u Hu) as (u1 & E1 & C1 & Hu1). unfold count_iteration, st_bind at 1. rewrite E1.
  unfold core in C1. injection C1 as R1 P1 T1 I1 S1 N1.
  unfold st_bind at 1, advance_iteration at 1, iteration_advance. rewrite I1, Hi. simpl it_completed.
  rewrite (proj2 (u64_checked_add_Some k 1 (k + 1))) by lia. cbn [it_current].
  rewrite (proj2 (u64_checked_add_Some k 1 (k + 1))) by lia. cbn [it_completed].
  unfold st_bind, st_get, set_iteration_id, update. cbv beta iota zeta. simpl u_completed. rewrite P1, Hc.
  rewrite Z.min_l by lia. eexists. split_and!; [reflexivity|..].
  - apply Hu1.
  - unfold core. simpl. by rewrite R1, T1, S1, N1.
Qed.

Lemma undisturbed_last u k :
  calm u -> u_iteration u = mkIteration k k -> 0 <= k < u64_max -> u_completed u = k ->
  g_iterations g = Some (k + 1) ->
  exists u', on_complete g None u = (Ok false, u') /\ u_completed u' = k + 1 /\
    u_transitions u' = u_transitions u /\ u_samples u' = u_samples u.
Proof.
  intros Hu Hi Hk Hc Hg. unfold on_complete.
  destruct (undisturbed_count u k Hu Hi Hk Hc) as (u1 & E1 & _ & C1). unfold st_bind at 1. rewrite E1.
  rewrite Hg, Z.ltb_irrefl. exists u1. injection C1 as ? ? ? ? ? ?. by split_and!.
Qed.

Lemma undisturbed_more u k limit :
  calm u -> u_iteration u = mkIteration k k -> 0 <= k < u64_max -> u_completed u = k ->
  g_iterations g = Some limit -> k + 1 < limit ->
  0 <= sh_next_lifecycle (u_shared u) < u64_max -> forall σ i, u_runner u = finish σ i ->
  exists u', on_complete g None u = (Ok true, u') /\ calm u' /\
    core u' = (if g_same_user g then start σ (i + 1) else start fresh 0, k + 1, u_transitions u,
               mkIteration (k + 1) (k + 1), u_samples u,
               sh_next_lifecycle (u_shared u) + (if g_same_user g then 0 else 1)).
Proof.
  intros Hu Hi Hk Hc Hg Hl Hn σ i Hr. unfold on_complete.
  destruct (undisturbed_count u k Hu Hi Hk Hc) as (u1 & E1 & Hu1 & C1). unfold st_bind at 1. rewrite E1.
  rewrite Hg, (proj2 (Z.ltb_lt _ _) Hl). unfold past_end, st_bind at 1, st_ret at 1. cbv beta iota.
  unfold core in C1. injection C1 as R1 P1 T1 I1 S1 N1. unfold st_bind at 1.
  destruct (g_same_user g); [change (negb true) with false|change (negb false) with true]; cbv iota.
  - unfold next_user_iteration, st_bind, st_get, st_lift. cbv beta iota. rewrite R1, Hr. simpl.
    eexists. split_and!; [done|apply Hu1|]. unfold core. simpl. by rewrite P1, T1, I1, S1, N1, Z.add_0_r.
  - destruct (undisturbed_renew u1 Hu1 ltac:(rewrite N1; done)) as (u2 & -> & Hu2 & C2).
    exists u2. split_and!; [done|done|]. by rewrite C2, P1, T1, I1, S1, N1.
Qed.

(** A controller step that is due. *)
Lemma due_step rf r l (u : UserState W) :
  due p rf r l -> u_runner u = r ->
  match l with
  | [] => controller_step g p Continue u = (Ok StepComplete, with_user_runner rf u)
  | x :: l => exists rx, controller_step g p Continue u = (Ok (StepSample x), with_user_runner rx u) /\ due p rf rx l
  end.
Proof.
  intros Hd <-. unfold due in Hd. cbn [replicate drive] in Hd. unfold controller_step, step_with_signal.
  assert (forall r', drive p r' (replicate (length l) (step_budget_new 1024, run_budget_new usize_max usize_max))
    <> (l, true, rf)) as Herr.
  { intros r' H%drive_length. rewrite length_replicate in H. lia. }
  destruct (step_with_run_budget p Continue _) as [[[x| |t]|e|] m]; try (by apply Herr in Hd); try done.
  - destruct (drive p (m_runner m) _) as [[l' c] r'] eqn:E. injection Hd as <- -> ->. by exists (m_runner m).
  - by injection Hd as <- <-.
Qed.

Lemma undisturbed_turn u rf l :
  calm u -> 0 <= u_transitions u < max_transitions_of g -> due p rf (u_runner u) l ->
  exists u1, calm u1 /\
    match l with
    | [] =>
        core u1 = (rf, u_completed u, u_transitions u + 1, u_iteration u, u_samples u, sh_next_lifecycle (u_shared u)) /\
        user_turn run_token g p None cooperative u = on_complete g None u1
    | x :: l =>
        user_turn run_token g p None cooperative u = (Ok true, u1) /\
        exists rx, due p rf rx l /\
        core u1 = (rx, u_completed u, u_transitions u + 1, u_iteration u, x :: u_samples u, sh_next_lifecycle (u_shared u))
    end.
Proof.
  intros Hu Ht Hp.
  set (u1 := with_counters (u_completed u) (usize_saturating_succ (u_transitions u)) u).
  assert (calm u1) as Hu1 by apply Hu.
  assert (core u1 = (u_runner u, u_completed u, u_transitions u + 1, u_iteration u, u_samples u,
    sh_next_lifecycle (u_shared u))) as C1.
  { pose proof (max_transitions_range g). unfold core, u1, usize_saturating_succ. simpl. rewrite Z.min_l by lia. done. }
  destruct (silent_take u1 Hu1) as (u2 & E2 & C2 & Hu2). rewrite C1 in C2.
  unfold core in C2. injection C2 as R2 P2 T2 I2 S2 N2.
  pose proof (due_step rf _ l u2 Hp R2) as Hstep.
  assert (user_turn run_token g p None cooperative u
    = (do! step <- controller_step g p Continue in
       match step with
       | StepComplete => on_complete g None
       | StepStopped signal => on_stopped run_token signal
       | StepSample x => on_sample run_token g None cooperative x
       end) u2) as ->.
  { unfold user_turn. unfold st_bind at 1, st_get. rewrite (proj2 (Z.leb_gt _ _)) by lia.
    unfold update, st_bind at 1. fold u1. unfold st_bind at 1. by rewrite E2. }
  unfold st_bind. destruct l as [|x l].
  - rewrite Hstep. eexists. split_and!; [|..|reflexivity]; [apply Hu2|].
    unfold core. simpl. by rewrite P2, T2, I2, S2, N2.
  - destruct Hstep as (rx & -> & Hpend). set (u3 := with_user_runner rx u2). assert (calm u3) as Hu3 by apply Hu2.
    destruct (undisturbed_sample x u3 Hu3) as (u4 & -> & Hu4 & C4). exists u4. split_and!; [done|done|].
    exists rx. split; [done|]. rewrite C4. unfold u3. simpl. by rewrite P2, T2, I2, S2, N2.
Qed.

(** One iteration, up to the turn that completes it. *)
Lemma undisturbed_iteration l rf u fuel :
  calm u -> 0 <= u_transitions u -> u_transitions u + Z.of_nat (length l) < max_transitions_of g ->
  due p rf (u_runner u) l ->
  exists u1, calm u1 /\
    core u1 = (rf, u_completed u, u_transitions u + Z.of_nat (length l) + 1, u_iteration u,
               reverse l ++ u_samples u, sh_next_lifecycle (u_shared u)) /\
    user_loop run_token g p None cooperative (S (length l + fuel)) u =
      (do! more <- on_complete g None in
       if more : bool then user_loop run_token g p None cooperative fuel else st_ret ()) u1.
Proof.
  revert u. induction l as [|x l IH]; intros u Hu H0 Hm Hp;
    destruct (undisturbed_turn u rf _ Hu ltac:(simpl in *; lia) Hp) as (u1 & Hu1 & Ht).
  - destruct Ht as [C1 Et]. exists u1. split_and!; [done|simpl; by rewrite Z.add_0_r|].
    cbn [user_loop length Nat.add]. unfold st_bind. by rewrite Et.
  - destruct Ht as (Et & rx & Hrx & C1). unfold core in C1. injection C1 as R1 P1 T1 I1 S1 N1. simpl length in *.
    destruct (IH u1 Hu1 ltac:(lia) ltac:(lia) ltac:(by rewrite R1)) as (u2 & Hu2 & C2 & E2).
    exists u2. split_and!; [done| |].
    + replace (u_transitions u + Z.of_nat (S (length l)) + 1) with (u_transitions u + 1 + Z.of_nat (length l) + 1) by lia.
      by rewrite C2, P1, T1, I1, S1, N1, reverse_cons, <- app_assoc.
    + change (S (S (length l) + fuel)) with (S (S (length l + fuel))).
      cbn [user_loop]. unfold st_bind at 1. rewrite Et. exact E2.
Qed.

Lemma undisturbed_loop outs i σ k limit u fuel :
  iterations p root (g_same_user g) i σ outs -> outs <> [] ->
  calm u -> u_runner u = start σ i -> u_iteration u = mkIteration k k -> u_completed u = k -> 0 <= k ->
  g_iterations g = Some limit -> k + Z.of_nat (length outs) = limit -> limit <= u64_max ->
  0 <= sh_next_lifecycle (u_shared u) -> sh_next_lifecycle (u_shared u) + Z.of_nat (length outs) <= u64_max ->
  0 <= u_transitions u -> u_transitions u + turns outs <= max_transitions_of g ->
  turns outs <= Z.of_nat fuel ->
  exists u', user_loop run_token g p None cooperative fuel u = (Ok (), u') /\
    u_completed u' = limit /\ u_transitions u' = u_transitions u + turns outs /\
    u_samples u' = reverse (concat outs) ++ u_samples u.
Proof.
  intros Hits. revert k u fuel. induction Hits as [|i σ out σ' outs Hv Hp Hits IH];
    intros k u fuel Hne Hu Hr Hi Hc Hk Hg Hlim Hmax Hn0 Hn Ht0 Ht Hf; [done|].
  assert (0 <= turns outs) as Hpos by (clear; induction outs; simpl; lia).
  cbn [turns foldr] in Ht, Hf. fold (turns outs) in Ht, Hf. cbn [length] in Hlim, Hn.
  assert (exists f, fuel = S (length out + f)) as [f ->] by (exists (fuel - S (length out))%nat; lia).
  destruct (undisturbed_iteration out (finish σ' i) u f Hu Ht0 ltac:(lia) ltac:(by rewrite Hr))
    as (u1 & Hu1 & C1 & ->).
  unfold core in C1. injection C1 as R1 P1 T1 I1 S1 N1. rewrite Hi in I1. rewrite Hc in P1.
  destruct outs as [|out' outs].
  - destruct (undisturbed_last u1 k Hu1 I1 ltac:(simpl in *; lia) P1) as (u2 & E2 & P2 & T2 & S2).
    { rewrite Hg. f_equal. simpl in Hlim. lia. }
    exists u2. unfold st_bind. rewrite E2. split_and!; [done|simpl in Hlim; lia|rewrite T2, T1; simpl; lia|].
    rewrite S2, S1. simpl. by rewrite app_nil_r.
  - destruct (undisturbed_more u1 k limit Hu1 I1 ltac:(simpl in *; lia) P1 Hg ltac:(simpl in *; lia)
      ltac:(rewrite N1; simpl in *; lia) σ' i R1) as (u2 & E2 & Hu2 & C2).
    unfold core in C2. injection C2 as R2 P2 T2 I2 S2 N2.
    destruct (IH (k + 1) u2 f) as (u3 & E3 & P3 & T3 & S3); try done.
    + rewrite R2. by destruct (g_same_user g).
    + lia.
    + simpl in *. lia.
    + destruct (g_same_user g); lia.
    + rewrite N2, N1. simpl in *. destruct (g_same_user g); lia.
    + lia.
    + rewrite T2, T1. lia.
    + lia.
    + exists u3. unfold st_bind. rewrite E2. split_and!; [done|done| |].
      * rewrite T3, T2, T1. cbn [turns foldr]. lia.
      * rewrite S3, S2, S1. change (concat (out :: out' :: outs)) with (out ++ concat (out' :: outs)).
        by rewrite reverse_app, <- app_assoc.
Qed.

End undisturbed.


(** Components that always succeed, with the number of calls as their world. *)
#[global] Instance succeeding : RunEnv nat := {
  clock_now w := (0, w);
  record_iteration _ w := (inr (), S w);
  record_sample _ w := (inr (), S w);
  progress_advance w := (inr (), S w);
  clear_for_lifecycle _ w := (inr (), S w);
  seed_variables w := (inr (), S w);
  clone_packages w := (inr (), S w);
  has_package _ := true;
  route_report _ w := (inr (), S w);
  execute id cs := (inr (mkReport id (Some (false, Some true)) true false Continue),
                    (cs.1, set_world (S (sh_world cs.2)) cs.2));
  deliver s := (inr (), set_world (S (sh_world s)) s);
  cooperative_yield s := set_world (S (sh_world s)) s
}.

Lemma succeeding_quiet : quiet nat.
Proof.
  split; intros; simpl; try (by eexists); try done.
  eexists _, _. split; [reflexivity|done].
Qed.

(** User 1 of a run, attached to the run's token. *)
Definition first_user : UserState nat :=
  let '(h, tokens) := token_child token_new in
  mkUser runner_new 0 0 iteration_default 1 (mkGuard (Some 1) true)
    (mkContext cancellation_new (Attached h) (Some 0) None) Continue []
    (mkShared tokens [] Continue 2 0%nat).

Definition example_group (iterations : option Z) (same_user : bool) : Group :=
  mkGroup 7 Main iterations same_user OnErrorContinue 2.


(** ** Long runs *)

(** A plan of one sampler. *)
Definition one_sampler : ControllerNode := NSimple 1 [NSample 2].
Definition one_sampler_program : CompiledProgram :=
  match compile one_sampler with Ok p => p | _ => example_program end.

